(* ===== verification/_CoqProject ===== *)
-Q . S2P
Prelude.v
Json.v
ObjectStore.v
ManifestTypes.v
Puffin.v
Policy.v
Wal.v
Durability.v
Lock.v
Properties.v
Manifest.v
ManifestStore.v
ManifestSpec.v
ManifestCodec.v
ManifestHistories.v
Planner.v
PlannerSpec.v
FilterText.v
RowGroups.v
SegmentStats.v
Partitioning.v
Clustering.v
Graph.v
CsrGraph.v
UnionFind.v
Components.v
LabelComponents.v
ShortestPath.v
Neighborhood.v
Deletes.v
EqualityDeletes.v
Merge.v
Compaction.v
InvertedIndex.v
PrimaryKey.v
PkIndex.v
DeleteRows.v
JsonPath.v
Read.v
MergeInto.v
Coordinator.v
Ingest.v
