(* ===== verification/Prelude.v ===== *)
(** * BenoStreamDB: a verification development (root file)

    BenoStreamDB stores tables as immutable Parquet segments in an object store, described
    by versioned manifests.  A write goes to a local write-ahead log and a write buffer; a
    flush turns the buffer into segments, records their statistics and publishes them by a
    manifest commit; a query loads one manifest version and plans which segments and row
    groups to read.  Everything that several processes share lives in the object store and
    is coordinated by conditional puts.  This library models the code that decides what is
    durable, what is visible and what a query reads.

    ** Files, in dependency order, and the code they model

    - [Prelude] (this file): results and panics, strings and byte lists, the little-endian
      integers of file formats, UTF-8-free string operations ([split], [trim], decimal
      printing and parsing), machine-width wrapping, generic lemmas and automation.
    - [Json]: [f64]/[f32] as IEEE floats, [serde_json::Number] and [Value], and
      [ManifestValue] of [src/src/core/manifest/types.rs].
    - [ObjectStore]: the interface class of [object_store::ObjectStore] and its laws, the
      [Codec] class (a serializer whose reader inverts its writer), and an in-memory
      instance.
    - [ManifestTypes]: the records of [src/src/core/manifest/types.rs].
    - [Puffin]: the container format of [src/src/core/puffin.rs], byte by byte.
    - [Policy]: [src/src/core/catalog/policy.rs], the warehouse policy and its conditional
      update.
    - [Wal]: [src/src/core/wal.rs], the background worker over a file system with crash
      semantics, replay, truncation and compaction.
    - [Durability]: the protocol of [src/src/core/table/write.rs] and [builder.rs] on top
      of the log: write, flush, restore, recovery.
    - [Lock]: [src/src/core/lock.rs], leases in the object store.
    - [Properties]: the embedding contract of [src/src/core/table/properties.rs].
    - [Manifest], [ManifestStore]: [src/src/core/manifest/manager.rs] and its [commit.rs],
      [load.rs], [schema.rs] and [partition.rs]: the pure planning of a commit and its
      execution against the store and the process-wide caches.  [ManifestSpec] holds the
      abstract specification and the refinement, [ManifestCodec] a concrete serialization
      that satisfies the assumed laws, [ManifestHistories] concrete runs.
    - [Planner], [PlannerSpec], [FilterText]: [src/src/core/planner.rs] and the callers in
      [table/read.rs]: filters, their extraction from expressions, pruning of manifest
      entries, the text form; SQL's meaning of a filter is the specification.
    - [RowGroups]: the row-group choice of [src/src/core/reader/scan.rs].
    - [SegmentStats]: the statistics [src/src/core/segment.rs] records for a new file.
    - [Partitioning]: [src/src/core/iceberg/transform.rs] and [partition_batch].
    - [Clustering]: [src/src/core/clustering.rs].
    - [Graph]: the graph interface of [src/src/core/sql/graph_udf/graph_view.rs] as a class
      with laws, and its instances: the in-memory graph, the region view, the cache.
    - [CsrGraph]: [src/src/core/index/csr_graph.rs], the index files byte by byte, and the
      edges of a region in [table/graph.rs].
    - [UnionFind]: the theory of parent pointers; [Components]: the two union-find
      implementations ([algorithms/connected_components.rs], the aggregate function in
      [sql/graph_udf/connected_components.rs]); [LabelComponents]: the SQL label
      propagation of [algorithms/connected_components.rs].
    - [ShortestPath], [Neighborhood]: the breadth-first searches of [table/graph.rs],
      [sql/graph_udf/shortest_path.rs] and [algorithms/frontier.rs].
    - [Deletes]: position deletes and deletion vectors, from the delete files
      ([src/src/core/iceberg/delete.rs]) over the caches and the merged bitmap
      ([reader/delete.rs]) to the row selection and the streamed rows ([reader/filter.rs],
      [reader/scan.rs], [reader/mod.rs]); [EqualityDeletes]: writing, reading, loading and
      applying deletes by value.
    - [Merge]: upserts, [MergePlanner::execute_merge] and [Table::merge]
      ([src/src/core/merge.rs], [table/merge.rs]), on the commit of [Manifest] and the
      visible rows of [Deletes].
    - [Compaction]: [src/src/core/compaction.rs], packing, rewriting and the commit that
      replaces the files, on [Partitioning], [Clustering], [Deletes] and [Manifest].
    - [PrimaryKey]: the checks of a write ([table/write.rs], [check_value_exists] of
      [reader/filter.rs]) and the row-value filters of [table/primary_key.rs].
    - [InvertedIndex]: exact indexes, built by [index/build_inverted.rs] and the flush of
      [segment.rs], and queried through four caches by [get_scalar_filter_bitmap] of
      [reader/filter.rs]; [PkIndex]: the lookups of primary keys in them
      ([table/primary_key.rs], [sql/mod.rs]).
    - [DeleteRows]: [Table::delete_async] of [table/maintenance.rs], on [Planner],
      [InvertedIndex], [Merge] and [Manifest].
    - [JsonPath]: the index of JSON paths ([index/json_path.rs]), its predicates in
      [planner.rs], its lookup in [reader/filter.rs] and the [json_*] functions of
      [sql/udf/json.rs] that the lookup stands for.
    - [Read]: [table/read.rs], reads with and without a filter, with the Bloom filters and
      the index-first lookups of [reader/filter.rs], on [Planner], [InvertedIndex],
      [JsonPath], [RowGroups] and [Deletes].
    - [MergeInto]: [sql/merge_into.rs], a MERGE statement as queries, an upsert and
      deletes, on the interface [TableApi], which [Merge] and [DeleteRows] implement.
    - [Coordinator]: [table/coordinator.rs], units of work under the leases of [Lock];
      [Ingest]: [table/ingest.rs], bulk loads on one machine and on several, on the
      interface [IngestTable].

    ** How state and effects are represented

    Fallible functions return [result] or [option]; a Rust panic is a value of its own
    where one can occur.  Code that awaits the object store is a state-passing function of
    the store; before each call an arbitrary environment step [env n] changes the store
    (and, for the manifest manager, the caches), constrained only by what the other
    processes running the same code can do.  Theorems quantify over [env], so they hold for
    every interleaving at the granularity of store calls.  The WAL worker takes the outcome
    of every system call from an [io] record, and a crash keeps of each file any prefix
    that contains the synced one, and any part of the directory.  Sequences of table operations are lists of operations.
    Integers are [Z] or [nat] with the wrap-around, saturation or cast written out where
    the code relies on the width ([u64] shifts in [Clustering], [i64] to [f64] in [Json],
    blob offsets in [Puffin], milliseconds in [Lock]).

    ** What the theorems show

    Each theorem names its conditions in its comment, and the theorems that show what
    happens outside of them.

    - Commits ([ManifestSpec]): on a sound store (readable manifests, coherent caches) and
      without a concurrent vacuum, a successful commit, property update or rollback is one
      atomic step of an abstract list of snapshots, under any interleaving of commits,
      imports and synchronizations; a reader sees one committed version with the delete
      files of that version; vacuum keeps what the retention window records under its
      store-relative path.  Inline entries are part of the model: an append on a table of
      inline entries replaces it.
    - Durability ([Wal], [Durability]): an acknowledged append survives a crash that keeps
      the directory entry of its segment, if rotations sync; every request is answered
      once; compaction preserves the rows; with synchronous durability and writes and
      flushes serialized every acknowledged batch is committed or pending exactly once.
    - Coordination ([Lock], [Policy]): on stores with conditional updates a lock is taken
      only when free or expired, and a policy update loses no concurrent one; the derived
      permissions refine the policy.
    - Pruning ([PlannerSpec], [RowGroups], [SegmentStats], [Partitioning]): no entry and no
      row group that holds a matching row is skipped, under the stated conditions on the
      statistics and the literals; the writer's statistics and the identity transform
      establish those conditions; negation, text, IN lists and coercion keep their meaning.
    - Formats ([Puffin], [Manifest], [ManifestTypes], [FilterText]): round trips, and
      injectivity of partition paths.
    - Layout ([Partitioning], [Clustering]): partitioning and clustering permute the rows;
      the Z-order score is bounded, injective and monotone.
    - Graphs ([Graph], [CsrGraph], [Components], [LabelComponents], [ShortestPath],
      [Neighborhood]): an index denotes the edges it was built from, views and cache are
      transparent, and the algorithms are proved against the interface: component labels
      are component minima in all three implementations, returned paths are shortest,
      neighborhoods over indexes, scans and SQL are the nodes within the hop count.
    - Deletes ([Deletes], [EqualityDeletes]): through the caches a segment gets exactly the
      positions its files list for its own path, a whole-file read returns exactly the rows
      that are left, and values written to an equality delete file of one column hide exactly
      the rows that hold them, where the column is read.
    - Merge ([Merge]): in both modes a merge of a table without pending deletes is an
      upsert, from the matching of keys to the rows a reader sees after the commit; the
      conditions are collected in [merge_ready], and examples show what happens outside.
    - Compaction ([Compaction]): bins are filled without losing a file, and a compaction
      during which no delete arrives, on a table with position deletes only, leaves every
      query its rows.
    - Primary keys ([PrimaryKey]): for one column the checks accept only writes that keep the
      key unique, and all of them when no lookup fails; row-value filters mean what their expressions mean and survive
      printing and reading.  Examples show the duplicates that other cases let through.
    - Inverted indexes ([InvertedIndex], [PkIndex]): an index locates exactly the rows of
      every key, the caches are transparent, a filter loses no live row and is exact for
      equality, IN lists and lower bounds of integers; so the check of an indexed
      primary key accepts only writes that keep it unique, and all of them when the
      lookups succeed, and pruning by a row-value filter skips no match.
    - Deletes by filter ([DeleteRows]): the table loses exactly the rows of the filter when
      the indexes answer it exactly or a scan evaluates it without nulls; an example
      lists the filters that delete other rows.
    - JSON paths ([JsonPath]): a bitmap of the path index keeps every row whose document
      answers the predicates as the SQL functions do, for documents and paths the two
      parsers read alike; examples show the rows lost outside and the packing that fails.
    - Reads ([Read]): a read returns exactly the matching rows of the snapshot and of the
      write buffer, with the columns asked for, whatever path each segment takes, for
      filters and segments that are [read_ready]; an example shows reads of one table that
      differ with the path taken.
    - MERGE statements ([MergeInto]): the clauses have SQL's meaning when predicates are
      never null, keys are unique and not updated; a failed statement has made a prefix of
      its commits, the last of which may be unpublished.  Examples show what happens outside.
    - Bulk loads ([Ingest], [Coordinator]): plans cover their files, runs of one machine that
      fail and resume load every row once while commits and the sidecar succeed, claims take
      free units only, and a machine among others ends and adds exactly what it claimed
      beside what the others add; examples show units that are
      loaded twice or not at all.
    - Counterexamples: where a condition of these theorems is not established by the code, a
      theorem runs the code on an input that violates it and shows the rows or commits that
      are lost.  They are named after what goes wrong.

    ** Bounds and fuel

    [Lock.acquire] and the commit loops make the number of attempts the code has as a
    constant or configuration, so their recursion is the code's own bound.  The text
    functions of [FilterText] recurse on the length of their input, and each call
    consumes at least one character.  [walk_history] takes the length of the history to
    follow as an argument; the code's loop ends at the first version without predecessor.
    Path compression and predecessor chains take the number of nodes as fuel, breadth-first
    loops one more than the nodes that can be discovered, the binary search the length of
    the slice; the theorems show that the result is never the out-of-fuel value.  The
    label-propagation rounds are the code's own bound.  The loop of a coordinated ingest
    takes one round more than there are units.

    ** Assumptions

    The object store obeys the laws of [ObjectStoreLaws] (a conditional put is atomic, a
    successful put is what the next get returns).  [serde_json] and Avro are [Codec] and
    [Iceberg] instances: what is written is what is read.  For manifests kept as JSON this
    is an assumption on the values: [ManifestValue] is an untagged enum, and reading it
    back narrows a [Float64] to [f32]; the pruning theorems hold for the entry as
    read.  UUIDs are fresh.  Murmur3, the calendar, zstd, SHA-256, Arrow's sort and concat
    are parameters with their documented laws as named hypotheses; each theorem that has
    such a hypothesis has a witness in which the parameter is a concrete function.

    ** Not modelled

    Vector indexes and distance kernels (floating-point search structures, GPU code),
    Parquet and Arrow decoding and DataFusion's evaluation (third-party), the bindings and
    servers (Python, C, MCP, HTTP: glue), and [mod_copy.rs] (not part of the build).
    Of the graph code: the ranking and community algorithms (floating point), and the
    conversion of Arrow columns to edges.  The codecs of delete files (Avro, Parquet,
    Roaring), the segment writer's output beside the rows, and the Bloom-filter test of
    merge candidates are parameters.  Of primary keys the definition is left out.  The
    publication of a commit as an Iceberg snapshot is a parameter that can fail.  DataFusion runs the queries of a MERGE
    statement, and the readers of the input formats give the rows of an ingest.  Of the indexes:
    ranking and token positions.  Of reads: vector and keyword search, SQL sessions and
    EXPLAIN, and of the JSON functions those that no lookup stands for ([json_typeof],
    [json_path_query]).
*)

From Stdlib Require Export ZArith Lia.
From stdpp Require Export base tactics gmap strings list sorting countable pretty.
From Stdlib Require Strings.Byte.
From Stdlib Require Import Strings.Ascii.
From coqutil Require Import Word.LittleEndianList.


(** ** Results

    Fallible Rust code returns [Result<T, E>]; here [result E A].  stdpp's
    monad notation ([x ← m; k]) plays the role of the [?] operator. *)

Inductive result (E A : Type) : Type :=
| Ok (a : A)
| Err (e : E).
Arguments Ok {E A} a.
Arguments Err {E A} e.

#[export] Instance result_ret {E} : MRet (result E) := fun A a => Ok a.
#[export] Instance result_bind {E} : MBind (result E) := fun A B f m =>
  match m with Ok a => f a | Err e => Err e end.
#[export] Instance result_fmap {E} : FMap (result E) := fun A B f m =>
  match m with Ok a => Ok (f a) | Err e => Err e end.

(** [Option::ok_or] and [Result::ok]. *)
Definition ok_or {E A} (o : option A) (e : E) : result E A :=
  match o with Some a => Ok a | None => Err e end.
Definition res_ok {E A} (r : result E A) : option A :=
  match r with Ok a => Some a | Err _ => None end.
Definition is_ok {E A} (r : result E A) : bool :=
  match r with Ok _ => true | Err _ => false end.

#[export] Instance result_eq_dec {E A} `{EqDecision E, EqDecision A} :
  EqDecision (result E A).
Proof. solve_decision. Defined.

(** ** Machine integers

    Unsigned words are integers [Z] in [0, 2^w); the release profile of the
    crate leaves overflow checks off, so [+] and [*] wrap. *)

Definition u64_max : Z := 2 ^ 64 - 1.
Definition wrap_u64 (z : Z) : Z := z mod 2 ^ 64.
Definition is_u64 (z : Z) : Prop := (0 ≤ z < 2 ^ 64)%Z.
Definition saturating_sub (a b : Z) : Z := Z.max 0 (a - b).

Lemma wrap_u64_small z : is_u64 z → wrap_u64 z = z.
Proof. unfold is_u64, wrap_u64. intros H. by apply Z.mod_small. Qed.

Lemma wrap_u64_range z : is_u64 (wrap_u64 z).
Proof. apply Z.mod_pos_bound. lia. Qed.

(** ** Bytes *)

Abbreviation bytes := (list Init.Byte.byte).

#[export] Instance byte_eq_dec : EqDecision Init.Byte.byte := Byte.byte_eq_dec.

(** [u32::to_le_bytes] / [u32::from_le_bytes]. *)
Definition u32_to_le_bytes (n : Z) : bytes := le_split 4 n.
Definition u32_from_le_bytes (b : bytes) : Z := le_combine b.
Arguments u32_to_le_bytes : simpl never.
Arguments u32_from_le_bytes : simpl never.

Lemma length_u32_to_le_bytes n : length (u32_to_le_bytes n) = 4%nat.
Proof. apply length_le_split. Qed.

Lemma u32_le_roundtrip n :
  (0 ≤ n < 2 ^ 32)%Z → u32_from_le_bytes (u32_to_le_bytes n) = n.
Proof.
  intros H. unfold u32_from_le_bytes, u32_to_le_bytes. rewrite le_combine_split.
  apply Z.mod_small. lia.
Qed.

(** A serialisation format of the environment ([serde_json]): encoding into
    bytes, partial decoding, and the documented left inverse. *)
Class Codec (A : Type) := {
  to_bytes : A → bytes;
  from_bytes : bytes → option A;
  from_to_bytes a : from_bytes (to_bytes a) = Some a;
}.

(** A concrete codec for every countable type, used by the witnesses: the
    binary digits of stdpp's encoding, one per byte. *)
Fixpoint pos_to_bytes (p : positive) : bytes :=
  match p with
  | xH => []
  | xO p => Byte.x00 :: pos_to_bytes p
  | xI p => Byte.x01 :: pos_to_bytes p
  end.
Fixpoint pos_of_bytes (b : bytes) : positive :=
  match b with
  | [] => xH
  | Byte.x00 :: b => xO (pos_of_bytes b)
  | _ :: b => xI (pos_of_bytes b)
  end.

Lemma pos_of_to_bytes p : pos_of_bytes (pos_to_bytes p) = p.
Proof. by induction p as [p IH|p IH|]; simpl; rewrite ?IH. Qed.

Definition countable_codec {A} `{Countable A} : Codec A.
Proof.
  refine {| to_bytes := fun a => pos_to_bytes (encode a);
            from_bytes := fun b => decode (pos_of_bytes b) |}.
  intros a. rewrite pos_of_to_bytes. apply decode_encode.
Defined.

(** ** ASCII case folding

    Rust strings are UTF-8 byte strings; [String.string] is a byte string. *)

Definition ascii_to_lower (c : Ascii.ascii) : Ascii.ascii :=
  let n := Ascii.nat_of_ascii c in
  if decide (65 ≤ n ≤ 90) then Ascii.ascii_of_nat (n + 32) else c.

(** [str::to_ascii_lowercase]. *)
Fixpoint to_ascii_lowercase (s : string) : string :=
  match s with
  | EmptyString => EmptyString
  | String.String c s => String.String (ascii_to_lower c) (to_ascii_lowercase s)
  end.

(** [str::eq_ignore_ascii_case]. *)
Definition eq_ignore_ascii_case (a b : string) : bool :=
  bool_decide (to_ascii_lowercase a = to_ascii_lowercase b).

Lemma ascii_to_lower_idemp c : ascii_to_lower (ascii_to_lower c) = ascii_to_lower c.
Proof. by destruct c as [[] [] [] [] [] [] [] []]; vm_compute. Qed.

Lemma to_ascii_lowercase_idemp s :
  to_ascii_lowercase (to_ascii_lowercase s) = to_ascii_lowercase s.
Proof.
  induction s as [|c s IH]; [done|].
  simpl. by rewrite ascii_to_lower_idemp, IH.
Qed.

Lemma eq_ignore_ascii_case_lower_r a b :
  eq_ignore_ascii_case a (to_ascii_lowercase b) = eq_ignore_ascii_case a b.
Proof. unfold eq_ignore_ascii_case. by rewrite to_ascii_lowercase_idemp. Qed.

Lemma eq_ignore_ascii_case_true a b :
  eq_ignore_ascii_case a b = true ↔ to_ascii_lowercase a = to_ascii_lowercase b.
Proof. apply bool_decide_eq_true. Qed.

(** ** Whitespace trimming

    [str::trim] strips Unicode [White_Space] characters; [ws_seqs] lists their
    UTF-8 encodings. *)

Definition ws_seqs : list (list Z) :=
  [[9]; [10]; [11]; [12]; [13]; [32]; [194; 133]; [194; 160]; [225; 154; 128];
   [226; 128; 128]; [226; 128; 129]; [226; 128; 130]; [226; 128; 131]; [226; 128; 132];
   [226; 128; 133]; [226; 128; 134]; [226; 128; 135]; [226; 128; 136]; [226; 128; 137];
   [226; 128; 138]; [226; 128; 168]; [226; 128; 169]; [226; 128; 175]; [226; 129; 159];
   [227; 128; 128]]%Z.

Fixpoint strip_seq (p l : list Z) : option (list Z) :=
  match p, l with
  | [], _ => Some l
  | x :: p, y :: l => if bool_decide (x = y) then strip_seq p l else None
  | _ :: _, [] => None
  end.

(** Strip one whitespace character: at the start, or (on the reversed bytes) at
    the end. *)
Definition ws_head (l : list Z) : option (list Z) :=
  head (omap (fun p => strip_seq p l) ws_seqs).
Definition ws_last (l : list Z) : option (list Z) :=
  head (omap (fun p => strip_seq (reverse p) l) ws_seqs).

Fixpoint trim_with (strip : list Z → option (list Z)) (fuel : nat) (l : list Z) : list Z :=
  match fuel with
  | 0 => l
  | S fuel => match strip l with Some l' => trim_with strip fuel l' | None => l end
  end.

(** [str::trim]; every stripped character shortens the string, so its length is
    enough fuel. *)
Definition trim (s : string) : string :=
  let l := (fun c => Z.of_N (Ascii.N_of_ascii c)) <$> String.list_ascii_of_string s in
  let l := trim_with ws_head (length l) l in
  let l := reverse (trim_with ws_last (length l) (reverse l)) in
  String.string_of_list_ascii ((fun b => Ascii.ascii_of_N (Z.to_N b)) <$> l).

Example trim_ex : trim "  a b	 " = "a b". Proof. reflexivity. Qed.

Lemma length_string_app s t : String.length (s +:+ t) = String.length s + String.length t.
Proof. induction s as [|c s IH]; [done|]. simpl. by rewrite IH. Qed.

Lemma string_app_assoc s t u : s +:+ (t +:+ u) = (s +:+ t) +:+ u.
Proof. induction s as [|c s IH]; [done|]. exact (f_equal (String.String c) IH). Qed.

Lemma app_suffix_inj s s' t : s +:+ t = s' +:+ t → s = s'.
Proof.
  revert s'. induction s as [|c s IH]; intros [|c' s'] Heq; [done| | |].
  - apply (f_equal String.length) in Heq.
    change (String.length t = S (String.length (s' +:+ t))) in Heq.
    rewrite length_string_app in Heq. lia.
  - apply (f_equal String.length) in Heq.
    change (S (String.length (s +:+ t)) = String.length t) in Heq.
    rewrite length_string_app in Heq. lia.
  - injection Heq as -> Heq. f_equal. by apply IH.
Qed.

(** Suffixes of equal length of one string are equal. *)
Lemma string_suffix_eq a b s t :
  a +:+ s = b +:+ t → String.length s = String.length t → s = t.
Proof.
  intros E Hl. revert b E. induction a as [|c a IH]; intros [|x b] E; [done| | |].
  - apply (f_equal String.length) in E.
    change (String.length s = S (String.length (b +:+ t))) in E.
    rewrite length_string_app in E. lia.
  - apply (f_equal String.length) in E.
    change (S (String.length (a +:+ s)) = String.length t) in E.
    rewrite length_string_app in E. lia.
  - injection E as _ E. by apply (IH b).
Qed.

(** ** Splitting and joining

    [str::split] on one character and [join]. *)

Fixpoint split_char (c : ascii) (s : string) : list string :=
  match s with
  | EmptyString => [EmptyString]
  | String.String a s =>
      if decide (a = c) then EmptyString :: split_char c s
      else match split_char c s with
           | [] => [String.String a EmptyString]
           | h :: t => String.String a h :: t
           end
  end.

Fixpoint join_char (c : ascii) (l : list string) : string :=
  match l with
  | [] => EmptyString
  | [s] => s
  | s :: l => s +:+ String.String c (join_char c l)
  end.

Fixpoint has_char (c : ascii) (s : string) : bool :=
  match s with
  | EmptyString => false
  | String.String a s => bool_decide (a = c) || has_char c s
  end.

Definition comma : ascii := ","%char.

Lemma split_char_ne c s : split_char c s ≠ [].
Proof. destruct s; simpl; [done|]. by repeat case_match. Qed.

Lemma split_char_app c s t :
  has_char c s = false → split_char c (s +:+ String.String c t) = s :: split_char c t.
Proof.
  induction s as [|a s IH]; intros Hs; simpl.
  - by rewrite decide_True.
  - simpl in Hs. apply orb_false_iff in Hs as [Ha%bool_decide_eq_false Hs].
    change (split_char c (String.String a (s +:+ String.String c t)) =
            String.String a s :: split_char c t).
    simpl. rewrite decide_False, IH by done. done.
Qed.

Lemma split_char_none c s : has_char c s = false → split_char c s = [s].
Proof.
  induction s as [|a s IH]; intros Hs; simpl; [done|].
  simpl in Hs. apply orb_false_iff in Hs as [Ha%bool_decide_eq_false Hs].
  by rewrite decide_False, IH by done.
Qed.

Lemma split_join c l :
  l ≠ [] → Forall (fun s => has_char c s = false) l → split_char c (join_char c l) = l.
Proof.
  intros Hne Hl. induction Hl as [|s l Hs Hl IH]; [done|].
  destruct l as [|s' l]; [by apply split_char_none|].
  change (split_char c (s +:+ String.String c (join_char c (s' :: l))) = s :: s' :: l).
  rewrite split_char_app by done. by rewrite IH.
Qed.

(** ** Prefixes and trimming of one character *)

(** [str::strip_prefix], [starts_with], [contains]. *)
Fixpoint strip_prefix (p s : string) : option string :=
  match p, s with
  | EmptyString, _ => Some s
  | String.String a p, String.String b s => if decide (a = b) then strip_prefix p s else None
  | _, _ => None
  end.
Definition starts_with (p s : string) : bool := bool_decide (is_Some (strip_prefix p s)).
Fixpoint str_contains (p s : string) : bool :=
  starts_with p s ||
  match s with EmptyString => false | String.String _ s => str_contains p s end.

(** [str::ends_with] *)
Fixpoint ends_with (p s : string) : bool :=
  bool_decide (s = p) ||
  match s with EmptyString => false | String.String _ s => ends_with p s end.

(** [trim_start_matches(c)], [trim_end_matches(c)]. *)
Fixpoint trim_start (c : ascii) (s : string) : string :=
  match s with
  | EmptyString => EmptyString
  | String.String a s' => if decide (a = c) then trim_start c s' else s
  end.
Fixpoint trim_end (c : ascii) (s : string) : string :=
  match s with
  | EmptyString => EmptyString
  | String.String a s =>
      match trim_end c s with
      | EmptyString => if decide (a = c) then EmptyString else String.String a EmptyString
      | t => String.String a t
      end
  end.

Lemma strip_prefix_app p s : strip_prefix p (p +:+ s) = Some s.
Proof.
  induction p as [|a p IH]; [done|].
  change (strip_prefix (String.String a p) (String.String a (p +:+ s)) = Some s).
  simpl. by rewrite decide_True.
Qed.

Lemma strip_prefix_Some p s t : strip_prefix p s = Some t → s = p +:+ t.
Proof.
  revert s. induction p as [|a p IH]; intros [|b s] H; simplify_eq/=; [done..|].
  case_decide; simplify_eq. by rewrite (IH _ H).
Qed.

Lemma trim_end_prefix c s : ∃ t, s = trim_end c s +:+ t.
Proof.
  induction s as [|a s [t IH]]; [by exists EmptyString|]. simpl.
  destruct (trim_end c s) as [|b u] eqn:E.
  - case_decide; [by exists (String.String a s)|by exists s].
  - exists t. change (String.String a s = String.String a (String.String b u +:+ t)).
    by rewrite <- IH.
Qed.

(** A non-empty trimmed suffix keeps what stands before it. *)
Lemma trim_end_app c p s :
  trim_end c s ≠ EmptyString → trim_end c (p +:+ s) = p +:+ trim_end c s.
Proof.
  intros Hs. induction p as [|a p IH]; [done|].
  change (trim_end c (String.String a (p +:+ s)) = String.String a (p +:+ trim_end c s)).
  simpl. rewrite IH. destruct (p +:+ trim_end c s) eqn:E; [|done].
  destruct p; [done|discriminate].
Qed.

Lemma trim_end_idemp c s : trim_end c (trim_end c s) = trim_end c s.
Proof.
  induction s as [|a s IH]; [done|]. simpl. destruct (trim_end c s) as [|b t] eqn:E.
  - case_decide; [done|]. simpl. by rewrite decide_False.
  - change (trim_end c (String.String a (String.String b t)) = String.String a (String.String b t)).
    simpl. simpl in IH. by rewrite IH.
Qed.

Lemma has_char_app c s t : has_char c (s +:+ t) = has_char c s || has_char c t.
Proof.
  induction s as [|a s IH]; [done|].
  change (bool_decide (a = c) || has_char c (s +:+ t) =
          (bool_decide (a = c) || has_char c s) || has_char c t).
  by rewrite IH, orb_assoc.
Qed.

Lemma ends_with_app p s : ends_with p (s +:+ p) = true.
Proof.
  induction s as [|a s IH].
  - change (ends_with p p = true). destruct p as [|a p]; [done|]. cbn [ends_with].
    by rewrite bool_decide_true.
  - change (ends_with p (String.String a (s +:+ p)) = true). simpl. rewrite IH. apply orb_true_r.
Qed.

Lemma ends_with_inv p s : ends_with p s = true → ∃ t, s = t +:+ p.
Proof.
  induction s as [|a s IH]; simpl; rewrite orb_true_iff; intros [H|H].
  - apply bool_decide_eq_true in H as <-. by exists EmptyString.
  - done.
  - apply bool_decide_eq_true in H as <-. by exists EmptyString.
  - destruct (IH H) as [t ->]. by exists (String.String a t).
Qed.

(** A suffix without [c] sees only what follows the last [c]. *)
Lemma ends_with_after c p a f :
  has_char c p = false → ends_with p (a +:+ String.String c f) = ends_with p f.
Proof.
  intros Hp. assert (∀ s, has_char c s = true → bool_decide (s = p) = false) as Hne.
  { intros s Hs. apply bool_decide_false. congruence. }
  induction a as [|x a IH].
  - change (ends_with p (String.String c f) = ends_with p f). simpl. rewrite Hne; [done|].
    simpl. by rewrite bool_decide_true.
  - change (ends_with p (String.String x (a +:+ String.String c f)) = ends_with p f). simpl.
    rewrite Hne, IH; [done|]. simpl. rewrite has_char_app. simpl.
    rewrite (bool_decide_true (c = c)) by done. by rewrite !orb_true_r.
Qed.

Lemma split_char_two c a f : 2 ≤ length (split_char c (a +:+ String.String c f)).
Proof.
  induction a as [|y a IH].
  - change (2 ≤ length (split_char c (String.String c f))). simpl. rewrite decide_True by done.
    pose proof (split_char_ne c f). destruct (split_char c f); simpl; [done|lia].
  - change (2 ≤ length (split_char c (String.String y (a +:+ String.String c f)))). simpl.
    case_decide; [simpl; lia|]. destruct (split_char c (a +:+ String.String c f)); simpl in *; lia.
Qed.

(** What follows the last [c]. *)
Lemma last_split c s :
  ∃ f, last (split_char c s) = Some f ∧ has_char c f = false ∧
    (s = f ∨ ∃ a, s = a +:+ String.String c f).
Proof.
  induction s as [|x s (f & Hl & Hf & Hs)].
  - exists EmptyString. by split_and!; [..|left].
  - simpl. case_decide as Hx.
    + subst x. exists f. destruct (split_char c s) as [|h t] eqn:E; [done|]. split; [exact Hl|].
      split; [done|]. right. destruct Hs as [->|[a ->]]; [by exists EmptyString|].
      by exists (String.String c a).
    + destruct (split_char c s) as [|h t] eqn:E; [done|]. destruct t as [|h2 t].
      * simplify_eq/=. exists (String.String x f). split; [done|]. split.
        { simpl. by rewrite bool_decide_false, Hf. }
        destruct Hs as [->|[a ->]]; [by left|]. exfalso.
        pose proof (split_char_two c a f) as H2. rewrite E in H2. simpl in H2. lia.
      * exists f. split; [exact Hl|]. split; [done|]. right.
        destruct Hs as [->|[a ->]]; [|by exists (String.String x a)].
        rewrite split_char_none in E by done. done.
Qed.

Lemma concat_fmap {A B} (f : A → B) (ls : list (list A)) :
  fmap (M:=list) f (concat ls) = concat (fmap (M:=list) (fun l : list A => fmap (M:=list) f l) ls).
Proof. induction ls as [|l ls IH]; [done|]. simpl. by rewrite fmap_app, IH. Qed.

(** ** Filtering *)

Lemma filter_ext_in {A} (P Q : A → Prop) `{!∀ x, Decision (P x), !∀ x, Decision (Q x)} (l : list A) :
  (∀ x, x ∈ l → P x ↔ Q x) → filter P l = filter Q l.
Proof.
  induction l as [|x l IH]; intros Hl; [done|]. rewrite !filter_cons, IH by set_solver.
  destruct (Hl x) as [H1 H2]; [by left|]. repeat case_decide; naive_solver.
Qed.

Lemma filter_all {A} (P : A → Prop) `{!∀ x, Decision (P x)} (l : list A) :
  (∀ x, x ∈ l → P x) → filter P l = l.
Proof.
  induction l as [|x l IH]; intros Hl; [done|].
  rewrite filter_cons, IH, decide_True by set_solver. done.
Qed.

Lemma filter_none {A} (P : A → Prop) `{!∀ x, Decision (P x)} (l : list A) :
  (∀ x, x ∈ l → ¬ P x) → filter P l = [].
Proof.
  induction l as [|x l IH]; intros Hl; [done|].
  rewrite filter_cons, IH, decide_False by set_solver. done.
Qed.

(** ** Ordered sets

    A [BTreeSet<String>] is a finite set; iterating or collecting it lists the
    elements in ascending byte order. *)

Definition btree_to_vec (X : gset string) : list string :=
  merge_sort String.le (elements X).

Lemma elem_of_btree_to_vec x X : x ∈ btree_to_vec X ↔ x ∈ X.
Proof. unfold btree_to_vec. by rewrite merge_sort_Permutation, elem_of_elements. Qed.

(** ** Iterator adaptors *)

(** [Iterator::any] and [Iterator::all]. *)
Abbreviation any := existsb.
Abbreviation all := forallb.

Lemma existsb_elem_of {A} (f : A → bool) l :
  existsb f l = true ↔ ∃ x, x ∈ l ∧ f x = true.
Proof. rewrite existsb_exists. by setoid_rewrite list_elem_of_In. Qed.

Lemma existsb_false {A} (f : A → bool) l :
  existsb f l = false ↔ ∀ x, x ∈ l → f x = false.
Proof.
  rewrite <-not_true_iff_false, existsb_elem_of. split.
  - intros H x Hx. apply not_true_is_false. naive_solver.
  - intros H (x & Hx & Hf). rewrite H in Hf; done.
Qed.

Lemma forallb_elem_of {A} (f : A → bool) l :
  forallb f l = true ↔ ∀ x, x ∈ l → f x = true.
Proof. rewrite forallb_forall. by setoid_rewrite list_elem_of_In. Qed.

(** ** Decimal numbers *)

Definition digit_val (c : Ascii.ascii) : option Z :=
  let n := Z.of_N (Ascii.N_of_ascii c) in
  if decide (48 ≤ n ≤ 57)%Z then Some (n - 48)%Z else None.

Fixpoint parse_digits (acc : Z) (s : string) : option Z :=
  match s with
  | EmptyString => Some acc
  | String.String c s => d ← digit_val c; parse_digits (acc * 10 + d) s
  end.

(** [str::parse::<u64>]: an optional [+], at least one digit, no overflow. *)
Definition parse_u64 (s : string) : option Z :=
  let digits := match s with String.String "+"%char s' => s' | _ => s end in
  match digits with
  | EmptyString => None
  | _ => n ← parse_digits 0 digits; if decide (n < 2 ^ 64)%Z then Some n else None
  end.

(** [u64::to_string]. *)
Definition u64_to_string (n : Z) : string := pretty (Z.to_N n).

Lemma digit_val_pretty d : (d < 10)%N → digit_val (pretty_N_char d) = Some (Z.of_N d).
Proof.
  intros Hd. assert (d = 0 ∨ d = 1 ∨ d = 2 ∨ d = 3 ∨ d = 4 ∨ d = 5 ∨ d = 6 ∨ d = 7 ∨ d = 8
    ∨ d = 9)%N as Hc by lia. by destruct_or!; subst.
Qed.

Lemma parse_digits_pretty_go x s :
  parse_digits 0 (pretty_N_go x s) = parse_digits (Z.of_N x) s.
Proof.
  revert s. induction (N.lt_wf_0 x) as [x _ IH]; intros s.
  destruct (decide (0 < x)%N) as [Hx|Hx].
  - rewrite pretty_N_go_step, IH by (done || apply N.div_lt; lia). simpl.
    rewrite digit_val_pretty by (apply N.mod_lt; lia). simpl. f_equal.
    rewrite N2Z.inj_div, N2Z.inj_mod. pose proof (Z.div_mod (Z.of_N x) 10 ltac:(lia)). lia.
  - by assert (x = 0%N) as -> by lia.
Qed.

(** A decimal print never starts with a sign and is never empty. *)
Lemma pretty_go_head x s :
  (0 < x)%N → ∃ c s', pretty_N_go x s = String.String c s' ∧ is_Some (digit_val c).
Proof.
  revert s. induction (N.lt_wf_0 x) as [x _ IH]; intros s Hx.
  rewrite pretty_N_go_step by done. destruct (decide (0 < x `div` 10)%N) as [Hd|Hd].
  - apply IH; [apply N.div_lt; lia|done].
  - assert (x `div` 10 = 0)%N as -> by (by apply N.le_0_r, N.nlt_ge). do 2 eexists. split; [reflexivity|].
    rewrite digit_val_pretty; [done|]. apply N.mod_lt. lia.
Qed.

Lemma parse_u64_to_string n : is_u64 n → parse_u64 (u64_to_string n) = Some n.
Proof.
  unfold is_u64, parse_u64, u64_to_string, pretty, pretty_N. intros Hn.
  case_decide as H0; [by assert (n = 0%Z) as -> by lia|].
  destruct (pretty_go_head (Z.to_N n) "" ltac:(lia)) as (c & s & Heq & Hc).
  pose proof (parse_digits_pretty_go (Z.to_N n) "") as Hp. rewrite Heq in Hp |- *.
  assert (c ≠ "+"%char) as Hplus by (intros ->; by destruct Hc).
  assert (match String.String c s with String.String "+"%char s' => s' | _ => String.String c s end
    = String.String c s) as ->.
  { clear -Hplus. by destruct c as [[] [] [] [] [] [] [] []]. }
  rewrite Hp. simpl. rewrite Z2N.id, decide_True by lia. done.
Qed.

Fixpoint all_digits (s : string) : bool :=
  match s with
  | EmptyString => true
  | String.String c s => bool_decide (is_Some (digit_val c)) && all_digits s
  end.

Lemma all_digits_pretty_go x s : all_digits s = true → all_digits (pretty_N_go x s) = true.
Proof.
  revert s. induction (N.lt_wf_0 x) as [x _ IH]; intros s Hs.
  destruct (decide (0 < x)%N) as [Hx|Hx].
  - rewrite pretty_N_go_step by done. apply IH; [apply N.div_lt; lia|]. simpl.
    by rewrite digit_val_pretty by (apply N.mod_lt; lia).
  - by assert (x = 0%N) as -> by lia.
Qed.

Lemma all_digits_u64 n : all_digits (u64_to_string n) = true.
Proof.
  unfold u64_to_string, pretty, pretty_N. case_decide; [done|]. by apply all_digits_pretty_go.
Qed.

Lemma all_digits_no_char c s : digit_val c = None → all_digits s = true → has_char c s = false.
Proof.
  intros Hc. induction s as [|a s IH]; simpl; [done|].
  rewrite andb_true_iff, bool_decide_eq_true. intros [Ha Hs]. rewrite IH by done.
  rewrite bool_decide_false; [done|]. intros ->. rewrite Hc in Ha. by destruct Ha.
Qed.

Lemma parse_digits_u64 n : (0 ≤ n)%Z → parse_digits 0 (u64_to_string n) = Some n.
Proof.
  intros Hn. unfold u64_to_string, pretty, pretty_N.
  case_decide; [by assert (n = 0%Z) as -> by lia|].
  rewrite parse_digits_pretty_go. simpl. by rewrite Z2N.id.
Qed.

Lemma parse_u64_inv v u : (0 ≤ v)%Z → parse_u64 (u64_to_string v) = Some u → u = v.
Proof.
  intros Hv. pose proof (parse_digits_u64 v Hv) as Hp. unfold parse_u64.
  destruct (u64_to_string v) as [|c s]; [done|].
  assert (c ≠ "+"%char) as Hplus by (intros ->; done).
  assert (match String.String c s with String.String "+"%char s' => s' | _ => String.String c s end
    = String.String c s) as ->.
  { clear -Hplus. by destruct c as [[] [] [] [] [] [] [] []]. }
  rewrite Hp. simpl. case_decide; [|done]. by intros [= ->].
Qed.

(** ** Automation *)

Create HintDb bsdb discriminated.
Create Rewrite HintDb len.
#[export] Hint Rewrite @length_app @length_cons @length_fmap @length_take
  @length_drop @length_replicate length_u32_to_le_bytes : len.

(** Normalise list lengths, then arithmetic. *)
Ltac len := autorewrite with len in *; simpl in *; lia.

(** Split every [match]/[if] of the goal or of a hypothesis. *)
Ltac case_matches := repeat (case_match; simplify_eq/=); simplify_eq/=.

(** Turn a successful monadic computation into its successful steps. *)
Ltac inv_ok :=
  repeat match goal with
  | H : mbind _ ?m = Ok _ |- _ =>
      let E := fresh "E" in destruct m eqn:E; simpl in H; [|discriminate H]
  | H : Ok _ = Ok _ |- _ => injection H as H
  | H : Err _ = Ok _ |- _ => discriminate H
  end.

(** ** Reading a list by all its indices *)

Lemma omap_lookup_suffix {A} (l0 l : list A) :
  omap (fun i => (l0 ++ l) !! i) (seq (length l0) (length l)) = l.
Proof.
  revert l0. induction l as [|x l IH]; intros l0; [done|]. simpl.
  rewrite list_lookup_middle by done. f_equal.
  specialize (IH (l0 ++ [x])). by rewrite <- app_assoc, length_app, Nat.add_comm in IH.
Qed.

Lemma omap_lookup_all {A} (l : list A) : omap (fun i => l !! i) (seq 0 (length l)) = l.
Proof. apply (omap_lookup_suffix []). Qed.
