(* ===== verification/Json.v ===== *)
(** * Scalar values: floats, JSON numbers, JSON values and manifest values

    The values the planner compares: [f64]/[f32] as IEEE floats ([SpecFloat], the
    mantissa canonical), [serde_json::Number] with its three variants,
    [serde_json::Value] (arrays and objects by their text), and [ManifestValue]
    ([src/src/core/manifest/types.rs]).  Integer to float conversion rounds to nearest,
    ties to even, and is shown monotone. *)

From Stdlib Require Import Floats.SpecFloat.
From S2P Require Import Prelude.

Local Open Scope Z_scope.

Abbreviation float := spec_float.

#[export] Instance spec_float_eq_dec : EqDecision float.
Proof. solve_decision. Defined.

#[export] Instance spec_float_countable : Countable float.
Proof.
  refine (inj_countable' (fun f => match f with
    | S754_zero s => inl (inl s) | S754_infinity s => inl (inr s)
    | S754_nan => inr (inl ()) | S754_finite s m e => inr (inr (s, m, e)) end)
    (fun x => match x with
    | inl (inl s) => S754_zero s | inl (inr s) => S754_infinity s
    | inr (inl _) => S754_nan | inr (inr (s, m, e)) => S754_finite s m e end) _).
  by intros [].
Defined.

(** ** The order of floats

    [SFcompare] compares sign, exponent and mantissa in this order; [float_key] is
    that triple, and the comparison is the lexicographic one of the keys. *)

Definition is_finite (f : float) : bool :=
  match f with S754_zero _ | S754_finite _ _ _ => true | _ => false end.

Definition float_key (f : float) : Z * (Z * Z) :=
  match f with
  | S754_nan => (3, (0, 0))
  | S754_infinity false => (2, (0, 0))
  | S754_finite false m e => (1, (e, Zpos m))
  | S754_zero _ => (0, (0, 0))
  | S754_finite true m e => (-1, (- e, Zneg m))
  | S754_infinity true => (-2, (0, 0))
  end.

Definition lex (a b : Z * (Z * Z)) : comparison :=
  match a.1 ?= b.1 with
  | Eq => match a.2.1 ?= b.2.1 with Eq => a.2.2 ?= b.2.2 | c => c end
  | c => c
  end.

(** Floats in the order of SQL: numeric, NaN above everything. *)
Definition float_cmp (f g : float) : comparison := lex (float_key f) (float_key g).

Lemma SFcompare_float_cmp f g :
  f ≠ S754_nan → g ≠ S754_nan → SFcompare f g = Some (float_cmp f g).
Proof.
  intros Hf Hg. unfold float_cmp, lex.
  destruct f as [| [] | |[] m e], g as [| [] | |[] m' e']; try done; simpl.
  replace (- e ?= - e') with (CompOpp (e ?= e')) by (by rewrite <- Z.compare_antisym, Z.compare_opp).
  change (Pos.compare_cont Eq m m') with (m ?= m')%positive. by destruct (e ?= e').
Qed.

Definition not_gt (c : comparison) : Prop := c ≠ Gt.

Ltac lex_cases := repeat match goal with
  | H : context [?x ?= ?y] |- _ => destruct (Z.compare_spec x y)
  | |- context [?x ?= ?y] => destruct (Z.compare_spec x y)
  end; try done; try lia.

Lemma lex_trans a b c : lex a b ≠ Gt → lex b c ≠ Gt → lex a c ≠ Gt.
Proof. unfold lex. intros H1 H2. lex_cases. Qed.
Lemma lex_antisym a b : lex b a = CompOpp (lex a b).
Proof. unfold lex. lex_cases. Qed.
Lemma lex_eq a b : lex a b = Eq → a = b.
Proof.
  destruct a as [a1 [a2 a3]], b as [b1 [b2 b3]]. unfold lex. simpl. intros H. lex_cases.
  by subst.
Qed.
Lemma lex_refl a : lex a a = Eq.
Proof. unfold lex. by rewrite !Z.compare_refl. Qed.

(** ** Integer to float *)

(** [m / 2^k] to nearest, ties to even. *)
Definition rne (m k : Z) : Z :=
  let q := m / 2 ^ k in
  match 2 * (m mod 2 ^ k) ?= 2 ^ k with
  | Lt => q
  | Gt => q + 1
  | Eq => if Z.even q then q else q + 1
  end.

(** Mantissa of 53 bits and exponent of a positive integer. *)
Definition f64_parts (m : Z) : Z * Z :=
  let k := Z.log2 m - 52 in
  if bool_decide (k ≤ 0) then (m * 2 ^ (- k), k)
  else let q := rne m k in
       if bool_decide (q = 2 ^ 53) then (2 ^ 52, k + 1) else (q, k).

(** [i as f64] *)
Definition Z_as_f64 (z : Z) : float :=
  match z with
  | Z0 => S754_zero false
  | Zpos p => let '(m, e) := f64_parts (Zpos p) in S754_finite false (Z.to_pos m) e
  | Zneg p => let '(m, e) := f64_parts (Zpos p) in S754_finite true (Z.to_pos m) e
  end.

Example Z_as_f64_exact : Z_as_f64 3 = S754_finite false (3 * 2 ^ 51) (-51).
Proof. reflexivity. Qed.
Example Z_as_f64_tie : Z_as_f64 (2 ^ 53 + 1) = Z_as_f64 (2 ^ 53).
Proof. reflexivity. Qed.
Example Z_as_f64_agrees :
  Z_as_f64 (- (2 ^ 63 - 1)) = binary_normalize 53 1024 (- (2 ^ 63 - 1)) 0 false.
Proof. reflexivity. Qed.

Lemma rne_bounds m k : 0 ≤ k → m / 2 ^ k ≤ rne m k ≤ m / 2 ^ k + 1.
Proof. intros Hk. unfold rne. repeat case_match; lia. Qed.

Lemma rne_mono m m' k : 0 ≤ k → m ≤ m' → rne m k ≤ rne m' k.
Proof.
  intros Hk Hle. assert (0 < 2 ^ k) as Hp by (apply Z.pow_pos_nonneg; lia).
  pose proof (Z.div_le_mono m m' (2 ^ k) Hp Hle) as Hq.
  destruct (Z.eq_dec (m / 2 ^ k) (m' / 2 ^ k)) as [E|E];
    [|pose proof (rne_bounds m k Hk); pose proof (rne_bounds m' k Hk); lia].
  pose proof (Z.div_mod m (2 ^ k)) as D. pose proof (Z.div_mod m' (2 ^ k)) as D'.
  unfold rne. rewrite <- E. rewrite <- E in D'.
  assert (m mod 2 ^ k ≤ m' mod 2 ^ k) by lia.
  destruct (Z.compare_spec (2 * (m mod 2 ^ k)) (2 ^ k));
    destruct (Z.compare_spec (2 * (m' mod 2 ^ k)) (2 ^ k)); try lia; destruct (Z.even _); lia.
Qed.

(** The parts are a normal mantissa, and grow lexicographically with the integer. *)
Lemma f64_parts_range m : 0 < m → 2 ^ 52 ≤ (f64_parts m).1 < 2 ^ 53.
Proof.
  intros Hm. pose proof (Z.log2_spec m Hm) as [Hl Hu]. pose proof (Z.log2_nonneg m) as H0.
  unfold f64_parts. set (k := Z.log2 m - 52) in *.
  case_bool_decide as Hk; simpl.
  - replace (2 ^ 52) with (2 ^ Z.log2 m * 2 ^ (- k)) by (rewrite <- Z.pow_add_r by lia; f_equal; lia).
    replace (2 ^ 53) with (2 ^ Z.succ (Z.log2 m) * 2 ^ (- k))
      by (rewrite <- Z.pow_add_r by lia; f_equal; lia).
    pose proof (Z.pow_pos_nonneg 2 (- k)). nia.
  - replace (Z.log2 m) with (52 + k) in Hl by lia.
    replace (Z.succ (Z.log2 m)) with (53 + k) in Hu by lia.
    rewrite Z.pow_add_r in Hl, Hu by lia.
    pose proof (Z.pow_pos_nonneg 2 k). pose proof (rne_bounds m k ltac:(lia)) as Hr.
    assert (2 ^ 52 ≤ m / 2 ^ k) by (apply Z.div_le_lower_bound; lia).
    assert (m / 2 ^ k < 2 ^ 53) by (apply Z.div_lt_upper_bound; lia).
    case_bool_decide; simpl; lia.
Qed.

Lemma f64_parts_exp m :
  0 < m → Z.log2 m - 52 ≤ (f64_parts m).2 ≤ Z.log2 m - 51.
Proof. intros Hm. unfold f64_parts. repeat (case_bool_decide; simpl); lia. Qed.

Lemma f64_parts_carry m :
  0 < m → (f64_parts m).2 = Z.log2 m - 51 → (f64_parts m).1 = 2 ^ 52.
Proof. intros Hm. unfold f64_parts. repeat (case_bool_decide; simpl); lia. Qed.

Definition parts_le (a b : Z * Z) : Prop := a.2 < b.2 ∨ a.2 = b.2 ∧ a.1 ≤ b.1.

Lemma f64_parts_mono m m' : 0 < m → m ≤ m' → parts_le (f64_parts m) (f64_parts m').
Proof.
  intros Hm Hle. unfold parts_le.
  pose proof (f64_parts_range m Hm) as R. pose proof (f64_parts_range m' ltac:(lia)) as R'.
  pose proof (f64_parts_exp m Hm) as X. pose proof (f64_parts_exp m' ltac:(lia)) as X'.
  pose proof (f64_parts_carry m Hm) as C. pose proof (f64_parts_carry m' ltac:(lia)) as C'.
  destruct (Z.eq_dec (Z.log2 m) (Z.log2 m')) as [E|E];
    [|pose proof (Z.log2_le_mono m m' Hle); lia].
  unfold f64_parts in *. rewrite <- E in *. clear C C' X X'.
  case_bool_decide; simpl in *; [right; split; [done|]; nia|].
  pose proof (rne_mono m m' (Z.log2 m - 52) ltac:(lia) Hle) as Hr.
  repeat (case_bool_decide; simpl in *); lia.
Qed.

Lemma Z_as_f64_key p :
  float_key (Z_as_f64 (Zpos p)) = (1, ((f64_parts (Zpos p)).2, (f64_parts (Zpos p)).1)) ∧
  float_key (Z_as_f64 (Zneg p)) = (-1, (- (f64_parts (Zpos p)).2, - (f64_parts (Zpos p)).1)).
Proof.
  pose proof (f64_parts_range (Zpos p) ltac:(lia)) as R. simpl.
  destruct (f64_parts (Zpos p)) as [m e]. simpl in *. split; repeat f_equal; lia.
Qed.

(** Rounding to [f64] preserves the order. *)
Lemma Z_as_f64_mono z z' : z ≤ z' → float_cmp (Z_as_f64 z) (Z_as_f64 z') ≠ Gt.
Proof.
  intros Hle. unfold float_cmp.
  destruct z as [|p|p], z' as [|p'|p']; try lia;
    rewrite ?(proj1 (Z_as_f64_key _)), ?(proj2 (Z_as_f64_key _)); try done; unfold lex.
  - pose proof (f64_parts_mono (Zpos p) (Zpos p') ltac:(lia) Hle) as Hm.
    unfold parts_le in Hm. cbn [fst snd]. lex_cases.
  - pose proof (f64_parts_mono (Zpos p') (Zpos p) ltac:(lia) ltac:(lia)) as Hm.
    unfold parts_le in Hm. cbn [fst snd]. lex_cases.
Qed.

Lemma Z_as_f64_finite z : is_finite (Z_as_f64 z) = true.
Proof. destruct z; simpl; try done; by destruct (f64_parts _). Qed.

(** [f as f64] of an [f32]: exact, the mantissa shifted to 53 bits *)
Definition f32_as_f64 (f : float) : float :=
  match f with
  | S754_finite s m e =>
      let k := 52 - Z.log2 (Zpos m) in S754_finite s (Z.to_pos (Zpos m * 2 ^ k)) (e - k)
  | f => f
  end.

(** ** JSON numbers and values *)

(** [serde_json]'s [N]: a float is finite. *)
Inductive Number :=
| PosInt (n : Z)
| NegInt (n : Z)
| Float (f : float).
#[export] Instance Number_eq_dec : EqDecision Number.
Proof. solve_decision. Defined.

Definition i64_max : Z := 2 ^ 63 - 1.
Definition is_i64_range (z : Z) : Prop := - 2 ^ 63 ≤ z ≤ i64_max.

Definition Number_of_int (i : Z) : Number := if bool_decide (i < 0) then NegInt i else PosInt i.
(** [Number::from_f64] *)
Definition Number_from_f64 (f : float) : option Number := if is_finite f then Some (Float f) else None.

Definition as_i64 (n : Number) : option Z :=
  match n with
  | PosInt n => if bool_decide (n ≤ i64_max) then Some n else None
  | NegInt n => Some n
  | Float _ => None
  end.
Definition is_i64 (n : Number) : bool := bool_decide (is_Some (as_i64 n)).
Definition is_f64 (n : Number) : bool := match n with Float _ => true | _ => false end.
Definition as_f64 (n : Number) : option float :=
  Some match n with PosInt n | NegInt n => Z_as_f64 n | Float f => f end.

(** [serde_json::Value]; arrays and objects by their text *)
Inductive Value :=
| VNull
| VBool (b : bool)
| VNumber (n : Number)
| VString (s : string)
| VOther (json : string).
#[export] Instance Value_eq_dec : EqDecision Value.
Proof. solve_decision. Defined.
#[export] Instance Number_countable : Countable Number.
Proof.
  refine (inj_countable' (fun n => match n with
    | PosInt n => inl (inl n) | NegInt n => inl (inr n) | Float f => inr f end)
    (fun x => match x with
    | inl (inl n) => PosInt n | inl (inr n) => NegInt n | inr f => Float f end) _).
  by intros [].
Defined.
#[export] Instance Value_countable : Countable Value.
Proof.
  refine (inj_countable' (fun v => match v with
    | VNull => inl (inl ()) | VBool b => inl (inr b) | VNumber n => inr (inl n)
    | VString s => inr (inr (inl s)) | VOther s => inr (inr (inr s)) end)
    (fun x => match x with
    | inl (inl _) => VNull | inl (inr b) => VBool b | inr (inl n) => VNumber n
    | inr (inr (inl s)) => VString s | inr (inr (inr s)) => VOther s end) _).
  by intros [].
Defined.

(** [PartialEq] of the code's values: integers and floats are different numbers. *)
Definition number_eqb (a b : Number) : bool :=
  match a, b with
  | PosInt a, PosInt b | NegInt a, NegInt b => bool_decide (a = b)
  | Float a, Float b => SFeqb a b
  | _, _ => false
  end.
Definition value_eqb (a b : Value) : bool :=
  match a, b with
  | VNull, VNull => true
  | VBool a, VBool b => Bool.eqb a b
  | VNumber a, VNumber b => number_eqb a b
  | VString a, VString b | VOther a, VOther b => bool_decide (a = b)
  | _, _ => false
  end.

Definition bool_cmp (a b : bool) : comparison :=
  match a, b with false, true => Lt | true, false => Gt | _, _ => Eq end.

(** [QueryPlanner::compare_values] *)
Definition compare_values (a b : Value) : option comparison :=
  match a, b with
  | VNumber n1, VNumber n2 =>
      if is_i64 n1 && is_i64 n2 then
        Some (default 0 (as_i64 n1) ?= default 0 (as_i64 n2))
      else if is_f64 n1 && is_f64 n2 then
        SFcompare (default (S754_zero false) (as_f64 n1)) (default (S754_zero false) (as_f64 n2))
      else match as_f64 n1, as_f64 n2 with
           | Some v1, Some v2 => SFcompare v1 v2
           | _, _ => None
           end
  | VString s1, VString s2 => Some (String.compare s1 s2)
  | VBool b1, VBool b2 => Some (bool_cmp b1 b2)
  | _, _ => None
  end.

Definition compare_lt (a b : Value) : bool := bool_decide (compare_values a b = Some Lt).
Definition compare_gt (a b : Value) : bool := bool_decide (compare_values a b = Some Gt).

(** ** Manifest values *)

Inductive ManifestValue :=
| MString (s : string)
| MInt32 (i : Z)
| MInt64 (i : Z)
| MFloat32 (f : float)
| MFloat64 (f : float)
| MBoolean (b : bool)
| MNull.
#[export] Instance ManifestValue_eq_dec : EqDecision ManifestValue.
Proof. solve_decision. Defined.
#[export] Instance ManifestValue_countable : Countable ManifestValue.
Proof.
  refine (inj_countable' (fun v => match v with
    | MString s => inl (inl s) | MInt32 i => inl (inr (true, i)) | MInt64 i => inl (inr (false, i))
    | MFloat32 f => inr (inl (true, f)) | MFloat64 f => inr (inl (false, f))
    | MBoolean b => inr (inr (Some b)) | MNull => inr (inr None) end)
    (fun x => match x with
    | inl (inl s) => MString s | inl (inr (true, i)) => MInt32 i | inl (inr (false, i)) => MInt64 i
    | inr (inl (true, f)) => MFloat32 f | inr (inl (false, f)) => MFloat64 f
    | inr (inr (Some b)) => MBoolean b | inr (inr None) => MNull end) _).
  by intros [].
Defined.

(** [impl From<&ManifestValue> for Value] *)
Definition Value_of_manifest (v : ManifestValue) : Value :=
  match v with
  | MString s => VString s
  | MInt32 i | MInt64 i => VNumber (Number_of_int i)
  | MFloat32 f =>
      match Number_from_f64 (f32_as_f64 f) with Some n => VNumber n | None => VNull end
  | MFloat64 f => match Number_from_f64 f with Some n => VNumber n | None => VNull end
  | MBoolean b => VBool b
  | MNull => VNull
  end.

(** [impl From<Value> for ManifestValue] *)
Definition manifest_of_Value (v : Value) : ManifestValue :=
  match v with
  | VString s => MString s
  | VNumber n =>
      match as_i64 n with
      | Some i => MInt64 i
      | None => match as_f64 n with Some f => MFloat64 f | None => MFloat64 (S754_zero false) end
      end
  | VBool b => MBoolean b
  | VNull => MNull
  | VOther json => MString json
  end.

(** A value that has a JSON image comes back, widened to 64 bits. *)
Definition widen (v : ManifestValue) : ManifestValue :=
  match v with
  | MInt32 i => MInt64 i
  | MFloat32 f => MFloat64 (f32_as_f64 f)
  | v => v
  end.

Definition int_value (v : ManifestValue) : option Z :=
  match v with MInt32 i | MInt64 i => Some i | _ => None end.
Definition float_value (v : ManifestValue) : option float :=
  match v with MFloat32 f => Some (f32_as_f64 f) | MFloat64 f => Some f | _ => None end.

(** ** Small integers convert exactly *)

Definition small (z : Z) : Prop := - 2 ^ 53 < z < 2 ^ 53.

Lemma f64_parts_strict m m' :
  0 < m → m < m' → m' < 2 ^ 53 →
  (f64_parts m).2 < (f64_parts m').2 ∨ (f64_parts m).2 = (f64_parts m').2 ∧ (f64_parts m).1 < (f64_parts m').1.
Proof.
  intros Hm Hlt Hs.
  assert (Z.log2 m' ≤ 52) by (apply Z.lt_succ_r, Z.log2_lt_pow2; lia).
  pose proof (Z.log2_le_mono m m' ltac:(lia)) as Hl.
  unfold f64_parts. rewrite !bool_decide_true by lia. simpl.
  destruct (Z.eq_dec (Z.log2 m) (Z.log2 m')) as [E|E]; [right|left; lia].
  rewrite <- E. split; [done|]. apply Z.mul_lt_mono_pos_r; [|done].
  apply Z.pow_pos_nonneg; lia.
Qed.

Lemma Z_as_f64_lt x y : small x → small y → x < y → float_cmp (Z_as_f64 x) (Z_as_f64 y) = Lt.
Proof.
  unfold small, float_cmp. intros Hx Hy Hlt.
  destruct x as [|p|p], y as [|q|q]; try lia;
    rewrite ?(proj1 (Z_as_f64_key _)), ?(proj2 (Z_as_f64_key _)); try done; unfold lex.
  - pose proof (f64_parts_strict (Zpos p) (Zpos q) ltac:(lia) ltac:(lia) ltac:(lia)) as Hm.
    cbn [fst snd]. lex_cases.
  - pose proof (f64_parts_strict (Zpos q) (Zpos p) ltac:(lia) ltac:(lia) ltac:(lia)) as Hm.
    cbn [fst snd]. lex_cases.
Qed.

Lemma Z_as_f64_exact_cmp x y :
  small x → small y → float_cmp (Z_as_f64 x) (Z_as_f64 y) = (x ?= y).
Proof.
  intros Hx Hy. destruct (Z.compare_spec x y) as [->|Hlt|Hgt].
  - apply lex_refl.
  - by apply Z_as_f64_lt.
  - unfold float_cmp. rewrite lex_antisym.
    pose proof (Z_as_f64_lt y x Hy Hx Hgt) as H. unfold float_cmp in H. by rewrite H.
Qed.

Lemma SFltb_false f g : float_cmp f g ≠ Lt → SFltb f g = false.
Proof.
  intros H. unfold SFltb. destruct (decide (f = S754_nan)) as [->|Hf]; [done|].
  destruct (decide (g = S754_nan)) as [->|Hg]; [by destruct f|].
  rewrite SFcompare_float_cmp by done. by destruct (float_cmp f g).
Qed.

Lemma SFleb_false f g : float_cmp f g = Gt → SFleb f g = false.
Proof.
  intros H. unfold SFleb. destruct (decide (f = S754_nan)) as [->|Hf]; [done|].
  destruct (decide (g = S754_nan)) as [->|Hg]; [by destruct f|].
  rewrite SFcompare_float_cmp by done. by rewrite H.
Qed.
