(* ===== verification/ObjectStore.v ===== *)
(** * The object store interface

    Every durable component of the engine talks to an [object_store::ObjectStore]
    (S3, GCS, Azure, local files, memory).  That crate is not part of the
    repository: it is an interface here, a class of operations with the laws of
    its documentation.  Lock, policy and manifest theorems are proved against
    the class; [MemStore] at the end is an instance, so the laws can hold. *)

From S2P Require Import Prelude.

(** [object_store::Error], the variants the engine distinguishes. *)
Inductive os_error : Type :=
| NotFound
| AlreadyExists
| Precondition
| NotImplemented
| NotSupported
| OtherError.

#[export] Instance os_error_eq_dec : EqDecision os_error.
Proof. solve_decision. Defined.

(** [object_store::PutMode]. *)
Inductive PutMode (V : Type) : Type :=
| Overwrite
| Create
| Update (v : V).
Arguments Overwrite {V}.
Arguments Create {V}.
Arguments Update {V} v.

(** Errors after which the object is documented to be untouched; any other
    error (a timeout, say) may be reported for a write that took effect. *)
Definition definitive (e : os_error) : bool :=
  match e with
  | AlreadyExists | Precondition | NotImplemented | NotSupported => true
  | _ => false
  end.

Class ObjectStore (S V : Type) := {
  os_get : S → string → result os_error (bytes * V);
  os_put : S → string → bytes → PutMode V → S * result os_error V;
  os_delete : S → string → S * result os_error unit;
  os_list : S → result os_error (list string);
  (** the objects the store holds, with their version tags *)
  os_objs : S → string → option (bytes * V);
}.

Section Laws.
Context {S V : Type} `{!ObjectStore S V}.

(** The contents of [s'] are those of [s] with [p] set to [o]. *)
Definition os_upd (s : S) (p : string) (o : option (bytes * V)) (s' : S) : Prop :=
  os_objs s' p = o ∧ ∀ q, q ≠ p → os_objs s' q = os_objs s q.

Definition os_same (s s' : S) : Prop := ∀ q, os_objs s' q = os_objs s q.

(** One operation of any client of the store. *)
Inductive os_step : S → S → Prop :=
| os_step_put s p b m s' r : os_put s p b m = (s', r) → os_step s s'
| os_step_delete s p s' r : os_delete s p = (s', r) → os_step s s'.

End Laws.

Class ObjectStoreLaws (S V : Type) `{!ObjectStore S V} := {
  os_get_ok s p x : os_get s p = Ok x → os_objs s p = Some x;
  os_get_not_found s p : os_get s p = Err NotFound → os_objs s p = None;
  os_put_ok s p b m s' v : os_put s p b m = (s', Ok v) →
    os_upd s p (Some (b, v)) s' ∧
    match m with
    | Overwrite => True
    | Create => os_objs s p = None
    | Update v0 => ∃ b0, os_objs s p = Some (b0, v0)
    end;
  os_put_err s p b m s' e : os_put s p b m = (s', Err e) →
    os_same s s' ∨
    (definitive e = false ∧ ∃ v, os_upd s p (Some (b, v)) s' ∧
      match m with
      | Overwrite => True
      | Create => os_objs s p = None
      | Update v0 => ∃ b0, os_objs s p = Some (b0, v0)
      end);
  os_put_exists s p b s' : os_put s p b Create = (s', Err AlreadyExists) →
    is_Some (os_objs s p);
  os_delete_upd s p s' r : os_delete s p = (s', r) →
    (os_upd s p None s' ∨ (r ≠ Ok () ∧ os_same s s'));
  os_list_ok s l : os_list s = Ok l → ∀ p, p ∈ l ↔ is_Some (os_objs s p);
  (** a version tag identifies the content it was issued for *)
  os_version_content s s' p b b' v : rtc os_step s s' →
    os_objs s p = Some (b, v) → os_objs s' p = Some (b', v) → b = b';
}.

Section Facts.
Context {S V : Type} `{!ObjectStore S V, !ObjectStoreLaws S V}.

(** A put of any outcome leaves the other objects alone. *)
Lemma os_put_other s p b m s' r q :
  os_put s p b m = (s', r) → q ≠ p → os_objs s' q = os_objs s q.
Proof.
  intros H Hq. destruct r as [v|e].
  - apply os_put_ok in H as [[_ H] _]. by apply H.
  - apply os_put_err in H as [H|(_ & v & [_ H] & _)]; [apply H|by apply H].
Qed.

Lemma os_delete_other s p s' r q :
  os_delete s p = (s', r) → q ≠ p → os_objs s' q = os_objs s q.
Proof. intros [[_ H]|[_ H]]%os_delete_upd Hq; by apply H. Qed.

(** What a put may do to its own object. *)
Lemma os_put_self s p b m s' r :
  os_put s p b m = (s', r) →
  os_objs s' p = os_objs s p ∨ ∃ v, os_objs s' p = Some (b, v).
Proof.
  intros H. destruct r as [v|e].
  - apply os_put_ok in H as [[H _] _]. eauto.
  - apply os_put_err in H as [H|(_ & v & [H _] & _)]; eauto.
Qed.

(** Create-only writers never replace an object. *)
Lemma os_put_create_keeps s p b s' r q x :
  os_put s p b Create = (s', r) → os_objs s q = Some x → os_objs s' q = Some x.
Proof.
  intros H Hq. destruct (decide (q = p)) as [->|Hne].
  - destruct r as [v|e].
    + apply os_put_ok in H as [_ H]. congruence.
    + apply os_put_err in H as [H|(_ & v & _ & H)]; [by rewrite H|congruence].
  - by rewrite (os_put_other _ _ _ _ _ _ _ H Hne).
Qed.
End Facts.

(** ** An in-memory store whose version tag is the content itself (a perfect
    content hash, as an S3 ETag is meant to be). *)
Module MemStore.

Definition store := gmap string bytes.

Definition mem_get (s : gmap string bytes) (p : string) : result os_error (bytes * bytes) :=
  match s !! p with Some b => Ok (b, b) | None => Err NotFound end.

Definition mem_put (s : gmap string bytes) (p : string) (b : bytes) (m : PutMode bytes) :
    gmap string bytes * result os_error bytes :=
  match m with
  | Overwrite => (<[p := b]> s, Ok b)
  | Create => match s !! p with
              | Some _ => (s, Err AlreadyExists)
              | None => (<[p := b]> s, Ok b)
              end
  | Update v => if decide (s !! p = Some v) then (<[p := b]> s, Ok b)
                else (s, Err Precondition)
  end.

#[export] Instance mem_store : ObjectStore (gmap string bytes) bytes := {|
  os_get := mem_get;
  os_put := mem_put;
  os_delete s p := (delete p s, Ok ());
  os_list s := Ok (map_to_list s).*1;
  os_objs s p := (fun b => (b, b)) <$> s !! p;
|}.

Lemma mem_upd_insert (s : gmap string bytes) p b :
  os_upd s p (Some (b, b)) (<[p := b]> s).
Proof.
  split; simpl; [by rewrite lookup_insert_eq|].
  intros q Hq. by rewrite lookup_insert_ne.
Qed.

#[export] Instance mem_store_laws : ObjectStoreLaws (gmap string bytes) bytes.
Proof.
  split.
  - intros s p x. simpl. unfold mem_get. case_match; naive_solver.
  - intros s p. simpl. unfold mem_get. case_match; naive_solver.
  - intros s p b m s' v. simpl. unfold mem_put.
    intros H. destruct m; case_matches; (split; [apply mem_upd_insert|]); simpl;
      simplify_option_eq; eauto.
  - intros s p b m s' e. simpl. unfold mem_put.
    intros H. left. destruct m; case_matches; intros q; done.
  - intros s p b s'. simpl. unfold mem_put. case_match; naive_solver.
  - intros s p s' r [= <- <-]. left. split; simpl; [by rewrite lookup_delete_eq|].
    intros q Hq. by rewrite lookup_delete_ne.
  - intros s l [= <-] p. simpl. rewrite fmap_is_Some. split.
    + intros ([q x] & -> & H%elem_of_map_to_list)%list_elem_of_fmap. eauto.
    + intros [x Hx]. apply list_elem_of_fmap. exists (p, x).
      by rewrite elem_of_map_to_list.
  - intros s s' p b b' v _. simpl.
    destruct (s !! p), (s' !! p); naive_solver.
Qed.

(** A store without conditional updates, as the local file system is. *)
Definition local_put (s : gmap string bytes) (p : string) (b : bytes) (m : PutMode bytes) :
    gmap string bytes * result os_error bytes :=
  match m with Update _ => (s, Err NotImplemented) | m => mem_put s p b m end.
Definition local_store : ObjectStore (gmap string bytes) bytes := {|
  os_get := mem_get;
  os_put := local_put;
  os_delete s p := (delete p s, Ok ());
  os_list s := Ok (map_to_list s).*1;
  os_objs s p := (fun b => (b, b)) <$> s !! p;
|}.

End MemStore.
