(* ===== verification/ManifestTypes.v ===== *)
(** * Manifest data ([src/src/core/manifest/types.rs])

    The records a manifest is made of, their constructors, and the Hive-style path of
    a partition.  Nested schema fields and index algorithms are kept by their serialized
    text; the code modelled here carries them and does not look inside. *)

From S2P Require Import Prelude Json.

(** ** Records *)

Record IndexFile := {
  if_format_version : Z;
  if_index_id : string;
  if_index_category : string;
  if_algorithm : string;
  if_column_name : string;
  if_source_snapshot_id : Z;
  if_source_data_checksum : string;
  if_source_record_count : Z;
  if_index_checksum : option string;
  if_file_path : string;
  if_blob_type : option string;
  if_blob_offset : option Z;
  if_blob_length : option Z;
  if_compression : string;
}.
#[export] Instance IndexFile_eq_dec : EqDecision IndexFile.
Proof. solve_decision. Defined.

Definition is_lexical (i : IndexFile) : bool :=
  bool_decide (if_index_category i ∈ ["lexical"; "inverted"; "bm25"]).

Inductive DeleteContent :=
| Position
| Equality (equality_ids : list Z)
| DeletionVector (puffin_file_path : string) (content_offset content_size_in_bytes : Z).
#[export] Instance DeleteContent_eq_dec : EqDecision DeleteContent.
Proof. solve_decision. Defined.

Record DeleteFile := {
  df_file_path : string;
  df_content : DeleteContent;
  df_file_size_bytes : Z;
  df_record_count : Z;
  df_partition_values : gmap string Value;
}.
#[export] Instance DeleteFile_eq_dec : EqDecision DeleteFile.
Proof. solve_decision. Defined.

Record PartitionField := {
  pf_source_ids : list Z;
  pf_source_id : option Z;
  pf_field_id : option Z;
  pf_name : string;
  pf_transform : string;
}.
#[export] Instance PartitionField_eq_dec : EqDecision PartitionField.
Proof. solve_decision. Defined.

Definition new_single (source_id : Z) (field_id : option Z) (name transform : string) :
    PartitionField :=
  {| pf_source_ids := [source_id]; pf_source_id := Some source_id; pf_field_id := field_id;
     pf_name := name; pf_transform := transform |}.
Definition new_multi (source_ids : list Z) (field_id : option Z) (name transform : string) :
    PartitionField :=
  {| pf_source_ids := source_ids; pf_source_id := head source_ids; pf_field_id := field_id;
     pf_name := name; pf_transform := transform |}.
Definition get_source_ids (f : PartitionField) : list Z :=
  match pf_source_ids f with
  | [] => match pf_source_id f with Some id => [id] | None => [] end
  | ids => ids
  end.

Record PartitionSpec := {
  ps_spec_id : Z;
  ps_fields : list PartitionField;
}.
#[export] Instance PartitionSpec_eq_dec : EqDecision PartitionSpec.
Proof. solve_decision. Defined.
Definition PartitionSpec_default : PartitionSpec := {| ps_spec_id := 0; ps_fields := [] |}.

Record SortField := {
  so_source_id : Z;
  so_transform : string;
  so_asc : bool;
  so_nulls_first : bool;
}.
#[export] Instance SortField_eq_dec : EqDecision SortField.
Proof. solve_decision. Defined.
Record SortOrder := {
  so_order_id : Z;
  so_fields : list SortField;
}.
#[export] Instance SortOrder_eq_dec : EqDecision SortOrder.
Proof. solve_decision. Defined.

Record VectorStats := {
  vs_min_norm : float;
  vs_max_norm : float;
  vs_mean_norm : float;
  vs_dim_min : option (list float);
  vs_dim_max : option (list float);
}.
#[export] Instance VectorStats_eq_dec : EqDecision VectorStats.
Proof. solve_decision. Defined.
Record ColumnStats := {
  cs_min : option ManifestValue;
  cs_max : option ManifestValue;
  cs_null_count : Z;
  cs_distinct_count : option Z;
  cs_vector_stats : option VectorStats;
}.
#[export] Instance ColumnStats_eq_dec : EqDecision ColumnStats.
Proof. solve_decision. Defined.

(** The clustering fields of an entry. *)
Record Clustering := {
  cl_strategy : option string;
  cl_columns : option (list string);
  cl_min_score : option Z;
  cl_max_score : option Z;
  cl_norm_mins : option (list Value);
  cl_norm_maxs : option (list Value);
}.
#[export] Instance Clustering_eq_dec : EqDecision Clustering.
Proof. solve_decision. Defined.
Definition Clustering_default : Clustering :=
  {| cl_strategy := None; cl_columns := None; cl_min_score := None; cl_max_score := None;
     cl_norm_mins := None; cl_norm_maxs := None |}.

Record ManifestEntry := {
  me_file_path : string;
  me_file_size_bytes : Z;
  me_record_count : Z;
  me_file_checksum : option string;
  me_index_files : list IndexFile;
  me_delete_files : list DeleteFile;
  me_column_stats : gmap string ColumnStats;
  me_partition_values : gmap string Value;
  me_clustering : Clustering;
  me_first_row_id : option Z;
}.
#[export] Instance ManifestEntry_eq_dec : EqDecision ManifestEntry.
Proof. solve_decision. Defined.

(** [ManifestEntry { file_path, ..Default::default() }] *)
Definition ManifestEntry_default (file_path : string) : ManifestEntry :=
  {| me_file_path := file_path; me_file_size_bytes := 0; me_record_count := 0;
     me_file_checksum := None; me_index_files := []; me_delete_files := [];
     me_column_stats := ∅; me_partition_values := ∅; me_clustering := Clustering_default;
     me_first_row_id := None |}.

Definition with_file_path (e : ManifestEntry) (p : string) : ManifestEntry :=
  {| me_file_path := p; me_file_size_bytes := me_file_size_bytes e;
     me_record_count := me_record_count e; me_file_checksum := me_file_checksum e;
     me_index_files := me_index_files e; me_delete_files := me_delete_files e;
     me_column_stats := me_column_stats e; me_partition_values := me_partition_values e;
     me_clustering := me_clustering e; me_first_row_id := me_first_row_id e |}.
Definition with_index_files (e : ManifestEntry) (l : list IndexFile) : ManifestEntry :=
  {| me_file_path := me_file_path e; me_file_size_bytes := me_file_size_bytes e;
     me_record_count := me_record_count e; me_file_checksum := me_file_checksum e;
     me_index_files := l; me_delete_files := me_delete_files e;
     me_column_stats := me_column_stats e; me_partition_values := me_partition_values e;
     me_clustering := me_clustering e; me_first_row_id := me_first_row_id e |}.
Definition with_delete_files (e : ManifestEntry) (l : list DeleteFile) : ManifestEntry :=
  {| me_file_path := me_file_path e; me_file_size_bytes := me_file_size_bytes e;
     me_record_count := me_record_count e; me_file_checksum := me_file_checksum e;
     me_index_files := me_index_files e; me_delete_files := l;
     me_column_stats := me_column_stats e; me_partition_values := me_partition_values e;
     me_clustering := me_clustering e; me_first_row_id := me_first_row_id e |}.

Record ManifestListEntry := {
  ml_manifest_path : string;
  ml_manifest_length : Z;
  ml_partition_spec_id : Z;
  ml_content : Z;
  ml_sequence_number : Z;
  ml_min_sequence_number : Z;
  ml_added_snapshot_id : Z;
  ml_added_files_count : Z;
  ml_existing_files_count : Z;
  ml_deleted_files_count : Z;
  ml_added_rows_count : Z;
  ml_existing_rows_count : Z;
  ml_deleted_rows_count : Z;
}.
#[export] Instance ManifestListEntry_eq_dec : EqDecision ManifestListEntry.
Proof. solve_decision. Defined.

Record SchemaField := {
  sf_id : Z;
  sf_name : string;
  sf_type_str : string;
  sf_required : bool;
  sf_nested : string;
  sf_initial_default : option Value;
  sf_write_default : option Value;
  sf_indexes : list string;
}.
#[export] Instance SchemaField_eq_dec : EqDecision SchemaField.
Proof. solve_decision. Defined.

Record TableSchema := {
  sc_schema_id : Z;
  sc_table_fields : list SchemaField;
  sc_identifier_field_ids : list Z;
}.
#[export] Instance TableSchema_eq_dec : EqDecision TableSchema.
Proof. solve_decision. Defined.
Definition TableSchema_default : TableSchema :=
  {| sc_schema_id := 0; sc_table_fields := []; sc_identifier_field_ids := [] |}.

Record Manifest := {
  m_version : Z;
  m_format_version : Z;
  m_timestamp_ms : Z;
  m_manifest_list_path : option string;
  m_entries : list ManifestEntry;
  m_delete_files : list DeleteFile;
  m_prev_version : option Z;
  m_schemas : list TableSchema;
  m_current_schema_id : Z;
  m_partition_spec : PartitionSpec;
  m_partition_specs : list PartitionSpec;
  m_default_spec_id : Z;
  m_sort_orders : list SortOrder;
  m_default_sort_order_id : Z;
  m_properties : gmap string string;
  m_last_column_id : Z;
}.
#[export] Instance Manifest_eq_dec : EqDecision Manifest.
Proof. solve_decision. Defined.

(** ** Constructors; [now] is [Utc::now().timestamp_millis()] *)

Definition Manifest_default : Manifest :=
  {| m_version := 0; m_format_version := 0; m_timestamp_ms := 0; m_manifest_list_path := None;
     m_entries := []; m_delete_files := []; m_prev_version := None; m_schemas := [];
     m_current_schema_id := 0; m_partition_spec := PartitionSpec_default;
     m_partition_specs := []; m_default_spec_id := 0; m_sort_orders := [];
     m_default_sort_order_id := 0; m_properties := ∅; m_last_column_id := 0 |}.

Definition Manifest_new (now version : Z) (entries : list ManifestEntry)
    (prev_version : option Z) : Manifest :=
  {| m_version := version; m_format_version := 2; m_timestamp_ms := now;
     m_manifest_list_path := None; m_entries := entries; m_delete_files := [];
     m_prev_version := prev_version; m_schemas := []; m_current_schema_id := 0;
     m_partition_spec := PartitionSpec_default; m_partition_specs := [];
     m_default_spec_id := 0; m_sort_orders := []; m_default_sort_order_id := 0;
     m_properties := ∅; m_last_column_id := 0 |}.

(** [iter().flat_map(..).max().unwrap_or(0)] over the field ids *)
Definition max_field_id (schemas : list TableSchema) : Z :=
  match schemas ≫= (fun s => sf_id <$> sc_table_fields s) with
  | [] => 0
  | i :: ids => foldl Z.max i ids
  end.

Definition new_with_schema (now version : Z) (entries : list ManifestEntry)
    (prev_version : option Z) (schemas : list TableSchema) (current_schema_id : Z) : Manifest :=
  {| m_version := version; m_format_version := 2; m_timestamp_ms := now;
     m_manifest_list_path := None; m_entries := entries; m_delete_files := [];
     m_prev_version := prev_version; m_schemas := schemas;
     m_current_schema_id := current_schema_id;
     m_partition_spec := PartitionSpec_default; m_partition_specs := [];
     m_default_spec_id := 0; m_sort_orders := []; m_default_sort_order_id := 0;
     m_properties := ∅; m_last_column_id := max_field_id schemas |}.

Definition new_with_spec (now version : Z) (entries : list ManifestEntry)
    (prev_version : option Z) (schema_list : list TableSchema) (current_schema_id : Z)
    (partition_spec : PartitionSpec) : Manifest :=
  {| m_version := version; m_format_version := 2; m_timestamp_ms := now;
     m_manifest_list_path := None; m_entries := entries; m_delete_files := [];
     m_prev_version := prev_version; m_schemas := schema_list;
     m_current_schema_id := current_schema_id; m_partition_spec := partition_spec;
     m_partition_specs := [partition_spec]; m_default_spec_id := ps_spec_id partition_spec;
     m_sort_orders := []; m_default_sort_order_id := 0; m_properties := ∅;
     m_last_column_id := max_field_id schema_list |}.

(** ** Hive-style partition paths *)

Definition unreserved (c : Ascii.ascii) : bool :=
  let n := Ascii.nat_of_ascii c in
  bool_decide (97 ≤ n ≤ 122) || bool_decide (65 ≤ n ≤ 90) || bool_decide (48 ≤ n ≤ 57) ||
  bool_decide (n ∈ [45; 95; 46; 33; 126; 42; 39; 40; 41]).

(** One upper-case hexadecimal digit. *)
Definition hex_digit (n : nat) : Ascii.ascii :=
  Ascii.ascii_of_nat (if decide (n < 10) then 48 + n else 55 + n).

Definition percent_encode_byte (c : Ascii.ascii) : string :=
  if unreserved c then String.String c EmptyString
  else let n := Ascii.nat_of_ascii c in
       String.String (Ascii.ascii_of_nat 37)
         (String.String (hex_digit (n / 16)) (String.String (hex_digit (n mod 16)) EmptyString)).

Fixpoint percent_encode (s : string) : string :=
  match s with
  | EmptyString => EmptyString
  | String.String c s => percent_encode_byte c +:+ percent_encode s
  end.

(** Decoding the first byte. *)
Definition unhex (c : Ascii.ascii) : nat :=
  let n := Ascii.nat_of_ascii c in if decide (n < 58) then n - 48 else n - 55.
Definition percent_decode_one (s : string) : option (Ascii.ascii * string) :=
  match s with
  | EmptyString => None
  | String.String c s =>
      if decide (Ascii.nat_of_ascii c = 37) then
        match s with
        | String.String a (String.String b s) =>
            Some (Ascii.ascii_of_nat (16 * unhex a + unhex b), s)
        | _ => None
        end
      else Some (c, s)
  end.

Lemma percent_decode_encode_byte c s :
  percent_decode_one (percent_encode_byte c +:+ s) = Some (c, s).
Proof. destruct c as [[] [] [] [] [] [] [] []]; reflexivity. Qed.

Definition slash : Ascii.ascii := Ascii.ascii_of_nat 47.

Lemma percent_encode_byte_safe c : has_char slash (percent_encode_byte c) = false.
Proof. destruct c as [[] [] [] [] [] [] [] []]; reflexivity. Qed.

Lemma percent_encode_safe s : has_char slash (percent_encode s) = false.
Proof.
  induction s as [|c s IH]; [done|]. simpl. by rewrite has_char_app, percent_encode_byte_safe, IH.
Qed.

Lemma percent_encode_inj s s' : percent_encode s = percent_encode s' → s = s'.
Proof.
  revert s'. induction s as [|c s IH]; intros [|c' s'] Heq; [done| | |]; simpl in Heq.
  - pose proof (percent_decode_encode_byte c' (percent_encode s')) as H. by rewrite <- Heq in H.
  - pose proof (percent_decode_encode_byte c (percent_encode s)) as H. by rewrite Heq in H.
  - pose proof (percent_decode_encode_byte c (percent_encode s)) as H. rewrite Heq in H.
    rewrite percent_decode_encode_byte in H. injection H as -> H. f_equal. by apply IH.
Qed.

Lemma string_app_inv_head s t t' : s +:+ t = s +:+ t' → t = t'.
Proof. induction s as [|c s IH]; [done|]. intros [= H]. by apply IH. Qed.

Section PartitionPath.

(** The decimal text of a float, printed by [serde_json]. *)
Context (float_text : float → string).

Definition value_text (v : Value) : string :=
  match v with
  | VString s => s
  | VOther json => json
  | VNull => "null"
  | VBool b => if b then "true" else "false"
  | VNumber (PosInt n) | VNumber (NegInt n) => pretty n
  | VNumber (Float f) => float_text f
  end.

(** [format!("{}={}", field.name, encoded)] for a field that has a value *)
Definition partition_part (values : gmap string Value) (f : PartitionField) : option string :=
  v ← values !! pf_name f; Some (pf_name f +:+ "=" +:+ percent_encode (value_text v)).

Definition partition_to_path (spec : PartitionSpec) (values : gmap string Value) : string :=
  join_char (Ascii.ascii_of_nat 47) (omap (partition_part values) (ps_fields spec)).

(** The parts of a path are non-empty in number and free of separators. *)
Lemma partition_parts_split fs v :
  fs ≠ [] →
  Forall (fun f => has_char slash (pf_name f) = false ∧ is_Some (v !! pf_name f)) fs →
  split_char slash (join_char slash (omap (partition_part v) fs)) = omap (partition_part v) fs.
Proof.
  intros Hne Hfs. apply split_join.
  - destruct fs as [|f fs]; [done|]. apply Forall_cons in Hfs as [[_ [x Hx]] _]. simpl.
    unfold partition_part at 1. by rewrite Hx.
  - apply Forall_forall. intros s (f & Hf & Hs)%list_elem_of_omap.
    rewrite Forall_forall in Hfs. destruct (Hfs f Hf) as [Hn _].
    unfold partition_part in Hs. destruct (v !! pf_name f); simplify_eq/=.
    rewrite !has_char_app, Hn. simpl. apply percent_encode_safe.
Qed.

(** Two sets of partition values of one spec with the same path agree on every
    partition field: the encoding of a value contains no separator and determines
    the value, so no two partitions share a directory. *)
Theorem partition_path_injective spec v v' :
  Forall (fun f => has_char slash (pf_name f) = false ∧ is_Some (v !! pf_name f)) (ps_fields spec) →
  Forall (fun f => has_char slash (pf_name f) = false ∧ is_Some (v' !! pf_name f)) (ps_fields spec) →
  partition_to_path spec v = partition_to_path spec v' →
  ∀ f, f ∈ ps_fields spec → value_text <$> v !! pf_name f = value_text <$> v' !! pf_name f.
Proof.
  unfold partition_to_path. fold slash. generalize (ps_fields spec) as fs. intros fs Hv Hv' Heq f Hf.
  assert (fs ≠ []) as Hne by (intros ->; set_solver).
  apply (f_equal (split_char slash)) in Heq. rewrite !partition_parts_split in Heq by done.
  clear Hne. revert Hv' Heq Hf.
  induction Hv as [|f0 fs (Hn & [x Hx]) Hfs IH]; intros Hv' Heq Hf; [set_solver|].
  apply Forall_cons in Hv' as [[_ [x' Hx']] Hv']. simpl in Heq.
  unfold partition_part at 1 in Heq. rewrite Hx in Heq. simpl in Heq.
  unfold partition_part at 2 in Heq. rewrite Hx' in Heq. injection Heq as Hs Hrest.
  apply elem_of_cons in Hf as [->|Hf]; [|by apply IH].
  apply string_app_inv_head in Hs. injection Hs as Hs. apply percent_encode_inj in Hs.
  rewrite Hx, Hx'. simpl. by rewrite Hs.
Qed.

End PartitionPath.

Lemma partition_path_injective_witness :
  let spec := {| ps_spec_id := 1; ps_fields := [new_single 1 None "c" "identity"] |} in
  let v : gmap string Value := {["c" := VString "a/b"]} in
  let text := fun _ : float => "0.5" in
  partition_to_path text spec v = "c=a%2Fb" ∧
  ∀ f, f ∈ ps_fields spec →
    value_text text <$> v !! pf_name f = value_text text <$> v !! pf_name f.
Proof.
  intros spec v text. split; [by vm_compute|]. apply partition_path_injective;
    [repeat constructor; by vm_compute; eexists..|done].
Defined.
