(* ===== verification/Puffin.v ===== *)
(** * Puffin containers ([src/src/core/puffin.rs])

    The Puffin file layout the index sidecars and deletion vectors use: magic,
    blob payloads, JSON footer, footer size, flags, magic.  [PuffinWriter] and
    [PuffinReader] are modelled at the byte level on the in-memory writer and
    reader ([Cursor<Vec<u8>>]); [serde_json] is a [Codec], [zstd] and SHA-256
    are parameters. *)

From S2P Require Import Prelude ObjectStore ManifestTypes.

(** ** Data *)

Definition PUFFIN_MAGIC : bytes := [Byte.x50; Byte.x46; Byte.x41; Byte.x31].

Record PuffinBlobMetadata := {
  pb_type : string;
  pb_fields : list Z;
  pb_snapshot_id : Z;
  pb_sequence_number : Z;
  pb_offset : Z;
  pb_length : Z;
  pb_compression_codec : option string;
  pb_properties : gmap string string;
}.

Record PuffinFooter := {
  pf_blobs : list PuffinBlobMetadata;
  pf_properties : gmap string string;
}.

#[export] Instance PuffinBlobMetadata_eq_dec : EqDecision PuffinBlobMetadata.
Proof. solve_decision. Defined.
#[export] Instance PuffinFooter_eq_dec : EqDecision PuffinFooter.
Proof. solve_decision. Defined.

#[export] Instance PuffinBlobMetadata_countable : Countable PuffinBlobMetadata.
Proof.
  refine (inj_countable'
    (fun m => (pb_type m, pb_fields m, pb_snapshot_id m, pb_sequence_number m,
               pb_offset m, pb_length m, pb_compression_codec m, pb_properties m))
    (fun t => let '(a, b, c, d, e, f, g, h) := t in Build_PuffinBlobMetadata a b c d e f g h) _).
  by intros [].
Defined.
#[export] Instance PuffinFooter_countable : Countable PuffinFooter.
Proof.
  refine (inj_countable' (fun m => (pf_blobs m, pf_properties m))
    (fun t => Build_PuffinFooter t.1 t.2) _).
  by intros [].
Defined.

(** The JSON codec the witnesses instantiate [serde_json] with. *)
Definition footer_codec : Codec PuffinFooter := countable_codec.

Inductive puffin_error : Type :=
| InvalidSeek
| UnexpectedEof
| InvalidMagic
| FooterDecompress
| FooterParse
| BlobIndexOutOfRange
| BlobDecompress
| UnsupportedCodec
| GetFailed (e : os_error)
(** not an [Err] of the Rust code but its panic on [vec![0u8; n]] *)
| CapacityOverflow.

(** ** Cursor primitives *)

(** [SeekFrom::End(-k)]: an error before the start of the buffer. *)
Definition seek_end (b : bytes) (k : Z) : result puffin_error Z :=
  let pos := (Z.of_nat (length b) - k)%Z in
  if decide (pos < 0)%Z then Err InvalidSeek else Ok pos.

(** [read_exact] of [n] bytes at [pos]. *)
Definition read_exact (b : bytes) (pos n : Z) : result puffin_error bytes :=
  if decide (n = 0)%Z then Ok []
  else if decide (pos + n ≤ Z.of_nat (length b))%Z
  then Ok (take (Z.to_nat n) (drop (Z.to_nat pos) b))
  else Err UnexpectedEof.

(** [i64 as u64] / [i64 as usize]. *)
Definition i64_as_u64 (z : Z) : Z := z mod 2 ^ 64.
(** [usize as u32]. *)
Definition usize_as_u32 (z : Z) : Z := z mod 2 ^ 32.

(** [vec![0u8; n]] panics when [n] exceeds [isize::MAX]. *)
Definition vec_capacity_ok (n : Z) : bool := bool_decide (n ≤ 2 ^ 63 - 1)%Z.

(** ** Writer *)

Record PuffinWriter := {
  pw_writer : bytes;
  pw_blobs : list PuffinBlobMetadata;
  pw_current_offset : Z;
}.

Definition PuffinWriter_new (writer : bytes) : PuffinWriter :=
  {| pw_writer := writer ++ PUFFIN_MAGIC; pw_blobs := []; pw_current_offset := 4 |}.

Definition add_blob (w : PuffinWriter) (type_name : string) (fields : list Z)
    (snapshot_id sequence_number : Z) (data : bytes) (properties : gmap string string) :
    PuffinWriter * (Z * Z) :=
  let len := Z.of_nat (length data) in
  let offset := pw_current_offset w in
  ({| pw_writer := pw_writer w ++ data;
      pw_blobs := pw_blobs w ++
        [{| pb_type := type_name; pb_fields := fields; pb_snapshot_id := snapshot_id;
            pb_sequence_number := sequence_number; pb_offset := offset; pb_length := len;
            pb_compression_codec := None; pb_properties := properties |}];
      pw_current_offset := offset + len |}, (offset, len)).

Section Puffin.
Context `{!Codec PuffinFooter}.
(** [zstd::decode_all] *)
Context (zstd_decode_all : bytes → option bytes).

Definition finish (w : PuffinWriter) : bytes :=
  let footer := {| pf_blobs := pw_blobs w; pf_properties := ∅ |} in
  let footer_bytes := to_bytes footer in
  let footer_size := usize_as_u32 (Z.of_nat (length footer_bytes)) in
  pw_writer w ++ footer_bytes ++ u32_to_le_bytes footer_size
    ++ u32_to_le_bytes 0 ++ PUFFIN_MAGIC.

(** ** Reader *)

Record PuffinReader := {
  pr_reader : bytes;
  pr_header : PuffinFooter;
}.

Definition PuffinReader_new (reader : bytes) : result puffin_error PuffinReader :=
  pos ← seek_end reader 12;
  size_buf ← read_exact reader pos 4;
  let footer_size := u32_from_le_bytes size_buf in
  flags_buf ← read_exact reader (pos + 4) 4;
  let flags := u32_from_le_bytes flags_buf in
  magic_buf ← read_exact reader (pos + 8) 4;
  if decide (magic_buf ≠ PUFFIN_MAGIC) then Err InvalidMagic else
  fpos ← seek_end reader (12 + footer_size);
  footer_payload ← read_exact reader fpos footer_size;
  footer_payload ← (if decide (Z.land flags 1 ≠ 0)%Z
                    then ok_or (zstd_decode_all footer_payload) FooterDecompress
                    else Ok footer_payload);
  footer ← ok_or (from_bytes footer_payload) FooterParse;
  Ok {| pr_reader := reader; pr_header := footer |}.

Definition read_blob (r : PuffinReader) (blob_idx : nat) : result puffin_error bytes :=
  meta ← ok_or (pf_blobs (pr_header r) !! blob_idx) BlobIndexOutOfRange;
  let pos := i64_as_u64 (pb_offset meta) in
  let n := i64_as_u64 (pb_length meta) in
  if negb (vec_capacity_ok n) then Err CapacityOverflow else
  data ← read_exact (pr_reader r) pos n;
  match pb_compression_codec meta with
  | Some codec =>
      if decide (codec = "zstd") then ok_or (zstd_decode_all data) BlobDecompress
      else Err UnsupportedCodec
  | None => Ok data
  end.

(** [PuffinIndexReader::read_blob_by_type]: the first blob of that type. *)
Definition read_blob_by_type (r : PuffinReader) (blob_type : string) :
    result puffin_error (option bytes) :=
  match list_find (fun b => pb_type b = blob_type) (pf_blobs (pr_header r)) with
  | Some (i, _) => Some <$> read_blob r i
  | None => Ok None
  end.

(** ** Compound index writer *)

Record PuffinIndexWriter := {
  iw_writer : PuffinWriter;
  iw_entries : list IndexFile;
  iw_container_file_path : string;
  iw_source_snapshot_id : Z;
  iw_source_data_checksum : string;
  iw_source_record_count : Z;
}.

(** [format!("{:x}", Sha256::digest(data))] *)
Context (sha256_hex : bytes → string).

Definition PuffinIndexWriter_new (writer : bytes) (container_file_path : string)
    (source_snapshot_id : Z) (source_data_checksum : string) (source_record_count : Z) :
    PuffinIndexWriter :=
  {| iw_writer := PuffinWriter_new writer; iw_entries := [];
     iw_container_file_path := container_file_path;
     iw_source_snapshot_id := source_snapshot_id;
     iw_source_data_checksum := source_data_checksum;
     iw_source_record_count := source_record_count |}.

(** [index_id] is the fresh [Uuid::new_v4]. *)
Definition add_index_blob (w : PuffinIndexWriter) (index_id category algorithm column_name
    blob_type : string) (data : bytes) (fields : list Z) (properties : gmap string string) :
    PuffinIndexWriter * IndexFile :=
  let index_checksum := sha256_hex data in
  let '(pw, (offset, len)) :=
    add_blob (iw_writer w) blob_type fields (iw_source_snapshot_id w) 1 data properties in
  let entry :=
    {| if_format_version := 2; if_index_id := index_id; if_index_category := category;
       if_algorithm := algorithm; if_column_name := column_name;
       if_source_snapshot_id := iw_source_snapshot_id w;
       if_source_data_checksum := iw_source_data_checksum w;
       if_source_record_count := iw_source_record_count w;
       if_index_checksum := Some index_checksum;
       if_file_path := iw_container_file_path w;
       if_blob_type := Some blob_type; if_blob_offset := Some offset;
       if_blob_length := Some len; if_compression := "none" |} in
  ({| iw_writer := pw; iw_entries := iw_entries w ++ [entry];
      iw_container_file_path := iw_container_file_path w;
      iw_source_snapshot_id := iw_source_snapshot_id w;
      iw_source_data_checksum := iw_source_data_checksum w;
      iw_source_record_count := iw_source_record_count w |}, entry).

Definition finish_to_bytes (w : PuffinIndexWriter) : bytes * list IndexFile :=
  (finish (iw_writer w), iw_entries w).

(** ** Materialisation of a container's blobs *)

Section Materialize.
Context {S V : Type} `{!ObjectStore S V}.

(** [blob.properties.get("filename")], falling back to [blob_{i}]. *)
Definition blob_filename (i : nat) (b : PuffinBlobMetadata) : string :=
  default ("blob_" +:+ pretty i) (pb_properties b !! "filename").

(** The loop over the blobs: [written] grows, files land in the directory map;
    the first failing read aborts. *)
Fixpoint materialize_loop (r : PuffinReader) (i : nat) (blobs : list PuffinBlobMetadata)
    (dir : gmap string bytes) (written : list (string * string)) :
    result puffin_error (gmap string bytes * list (string * string)) :=
  match blobs with
  | [] => Ok (dir, written)
  | b :: blobs =>
      let filename := blob_filename i b in
      data ← read_blob r i;
      materialize_loop r (Datatypes.S i) blobs (<[filename := data]> dir)
        (written ++ [(pb_type b, filename)])
  end.

Definition materialize_puffin_blobs (store : S) (puffin_path : string) :
    result puffin_error (gmap string bytes * list (string * string)) :=
  bs ← match os_get store puffin_path with
       | Ok (b, _) => Ok b
       | Err e => Err (GetFailed e)
       end;
  reader ← PuffinReader_new bs;
  materialize_loop reader 0 (pf_blobs (pr_header reader)) ∅ [].
End Materialize.

End Puffin.

(** ** Lemmas *)

Lemma read_exact_mid (a m b : bytes) :
  read_exact (a ++ m ++ b) (Z.of_nat (length a)) (Z.of_nat (length m)) = Ok m.
Proof.
  unfold read_exact. case_decide as Hn.
  - destruct m; [done|simpl in Hn; lia].
  - rewrite decide_True by (rewrite !length_app; lia).
    by rewrite !Nat2Z.id, drop_app_length, take_app_length.
Qed.

Lemma read_exact_in f pos n :
  (0 < n)%Z → (pos + n ≤ Z.of_nat (length f))%Z →
  read_exact f pos n = Ok (take (Z.to_nat n) (drop (Z.to_nat pos) f)).
Proof. intros. unfold read_exact. by rewrite decide_False, decide_True by lia. Qed.

Lemma read_exact_at (f a m b : bytes) pos n :
  f = a ++ m ++ b → pos = Z.of_nat (length a) → n = Z.of_nat (length m) →
  read_exact f pos n = Ok m.
Proof. intros -> -> ->. apply read_exact_mid. Qed.

Lemma seek_end_at (f a b : bytes) k :
  f = a ++ b → k = Z.of_nat (length b) → seek_end f k = Ok (Z.of_nat (length a)).
Proof.
  intros -> ->. unfold seek_end. rewrite length_app, decide_False by lia.
  f_equal. lia.
Qed.

(** [m] locates [d] inside the byte string [f]. *)
Definition blob_at (f : bytes) (m : PuffinBlobMetadata) (d : bytes) : Prop :=
  ∃ pre post, f = pre ++ d ++ post ∧ pb_offset m = Z.of_nat (length pre) ∧
    pb_length m = Z.of_nat (length d) ∧ pb_compression_codec m = None.

Lemma blob_at_app f g m d : blob_at f m d → blob_at (f ++ g) m d.
Proof.
  intros (pre & post & -> & H). exists pre, (post ++ g).
  by rewrite <-!(assoc_L (++)).
Qed.

Lemma blobs_at_app f g ms ds :
  Forall2 (blob_at f) ms ds → Forall2 (blob_at (f ++ g)) ms ds.
Proof. intros H. eapply Forall2_impl; [exact H|]. intros. by apply blob_at_app. Qed.

(** The writer's invariant: the running offset is the number of bytes written
    and every recorded blob locates its payload. *)
Definition writer_wf (w : PuffinWriter) (ds : list bytes) : Prop :=
  pw_current_offset w = Z.of_nat (length (pw_writer w)) ∧
  Forall2 (blob_at (pw_writer w)) (pw_blobs w) ds.

Lemma writer_new_wf : writer_wf (PuffinWriter_new []) [].
Proof. split; [done|constructor]. Qed.

Lemma add_blob_wf w ds ty fs sid sn d props :
  writer_wf w ds → writer_wf (add_blob w ty fs sid sn d props).1 (ds ++ [d]).
Proof.
  intros [Ho Hb]. split; simpl; [rewrite length_app; lia|].
  apply Forall2_app; [by apply blobs_at_app|].
  constructor; [|constructor].
  exists (pw_writer w), []. by rewrite app_nil_r.
Qed.

(** A blob as the caller of [add_blob] describes it. *)
Record blob_input := {
  bi_type : string; bi_fields : list Z; bi_snapshot_id : Z;
  bi_sequence_number : Z; bi_data : bytes; bi_properties : gmap string string }.

Definition write_blob (w : PuffinWriter) (b : blob_input) : PuffinWriter :=
  (add_blob w (bi_type b) (bi_fields b) (bi_snapshot_id b) (bi_sequence_number b)
     (bi_data b) (bi_properties b)).1.

Definition write_blobs (bs : list blob_input) : PuffinWriter :=
  foldl write_blob (PuffinWriter_new []) bs.

Lemma write_blobs_snoc bs b : write_blobs (bs ++ [b]) = write_blob (write_blobs bs) b.
Proof. unfold write_blobs. by rewrite foldl_snoc. Qed.

Lemma write_blobs_wf bs : writer_wf (write_blobs bs) (bi_data <$> bs).
Proof.
  induction bs as [|b bs IH] using rev_ind; [apply writer_new_wf|].
  rewrite write_blobs_snoc, fmap_app. by apply add_blob_wf.
Qed.

Lemma write_blobs_types bs : pb_type <$> pw_blobs (write_blobs bs) = bi_type <$> bs.
Proof.
  induction bs as [|b bs IH] using rev_ind; [done|].
  rewrite write_blobs_snoc, fmap_app. simpl. by rewrite fmap_app, IH.
Qed.

Section Theorems.
Context `{!Codec PuffinFooter}.
Context (zstd_decode_all : bytes → option bytes).

(** The footer the writer emits fits the [u32] size field, and the whole file
    fits a [Vec<u8>] (whose length never exceeds [isize::MAX]). *)
Definition container_fits (w : PuffinWriter) : Prop :=
  (Z.of_nat (length (to_bytes {| pf_blobs := pw_blobs w; pf_properties := ∅ |})) < 2 ^ 32)%Z ∧
  (Z.of_nat (length (finish w)) < 2 ^ 63)%Z.

(** Discharges the side conditions of [read_exact_at]/[seek_end_at]: the file
    split at a field boundary, and the field's offset and length. *)
Local Ltac layout f :=
  unfold f; try match goal with p := Z.of_nat _ |- _ => unfold p end; rewrite ?length_app, ?length_u32_to_le_bytes; rewrite <-?(assoc_L (++));
  (done || simpl; lia).

Lemma reader_of_layout pre ft fl :
  (Z.of_nat (length (to_bytes ft)) < 2 ^ 32)%Z → Z.land fl 1 = 0%Z → (0 ≤ fl < 2 ^ 32)%Z →
  let f := pre ++ to_bytes ft ++ u32_to_le_bytes (Z.of_nat (length (to_bytes ft)))
             ++ u32_to_le_bytes fl ++ PUFFIN_MAGIC in
  PuffinReader_new zstd_decode_all f = Ok {| pr_reader := f; pr_header := ft |}.
Proof.
  intros Hfit Hfl Hfl' f. set (j := to_bytes ft) in *.
  set (sz := u32_to_le_bytes (Z.of_nat (length j))).
  set (fb := u32_to_le_bytes fl).
  assert (length sz = 4%nat) as Hsz by apply length_u32_to_le_bytes.
  assert (length fb = 4%nat) as Hfb by apply length_u32_to_le_bytes.
  unfold PuffinReader_new.
  rewrite (seek_end_at f (pre ++ j) (sz ++ fb ++ PUFFIN_MAGIC)) by layout f. simpl.
  set (pos := Z.of_nat (length (pre ++ j))).
  rewrite (read_exact_at f (pre ++ j) sz (fb ++ PUFFIN_MAGIC) pos) by layout f. simpl.
  rewrite (read_exact_at f (pre ++ j ++ sz) fb PUFFIN_MAGIC (pos + 4)%Z) by layout f. simpl.
  rewrite (read_exact_at f (pre ++ j ++ sz ++ fb) PUFFIN_MAGIC [] (pos + 8)%Z) by layout f.
  cbn [mbind result_bind]. rewrite decide_False by (intros Hne; by apply Hne).
  assert (u32_from_le_bytes sz = Z.of_nat (length j)) as -> by (apply u32_le_roundtrip; lia).
  rewrite (seek_end_at f pre (j ++ sz ++ fb ++ PUFFIN_MAGIC)) by layout f. simpl.
  rewrite (read_exact_at f pre j (sz ++ fb ++ PUFFIN_MAGIC)) by layout f. simpl.
  assert (u32_from_le_bytes fb = fl) as -> by (apply u32_le_roundtrip; lia).
  rewrite Hfl, decide_False by tauto. simpl.
  unfold j. by rewrite from_to_bytes.
Qed.

Lemma reader_of_finish w :
  container_fits w →
  PuffinReader_new zstd_decode_all (finish w) =
    Ok {| pr_reader := finish w;
          pr_header := {| pf_blobs := pw_blobs w; pf_properties := ∅ |} |}.
Proof.
  intros [Hfit _]. unfold finish, usize_as_u32.
  rewrite (Z.mod_small (Z.of_nat _)) by lia. by apply reader_of_layout.
Qed.

(** A located blob is read back verbatim. *)
Lemma read_blob_at r i m d :
  pf_blobs (pr_header r) !! i = Some m → blob_at (pr_reader r) m d →
  (Z.of_nat (length (pr_reader r)) < 2 ^ 63)%Z →
  read_blob zstd_decode_all r i = Ok d.
Proof.
  intros Hi (pre & post & Hf & Ho & Hl & Hc) Hlen. unfold read_blob.
  rewrite Hi. simpl. rewrite Ho, Hl, Hc. unfold i64_as_u64, vec_capacity_ok.
  rewrite Hf, !length_app in Hlen.
  rewrite !Z.mod_small, bool_decide_true by lia. simpl.
  by rewrite (read_exact_at _ pre d post).
Qed.

Lemma finish_blobs_at w ds : writer_wf w ds → Forall2 (blob_at (finish w)) (pw_blobs w) ds.
Proof. intros [_ H]. by apply blobs_at_app. Qed.

(** What the caller said about a blob, as the footer records it. *)
Definition meta_view (m : PuffinBlobMetadata) :=
  (pb_type m, pb_fields m, pb_snapshot_id m, pb_sequence_number m, pb_properties m).
Definition input_view (b : blob_input) :=
  (bi_type b, bi_fields b, bi_snapshot_id b, bi_sequence_number b, bi_properties b).

Lemma write_blobs_view bs : meta_view <$> pw_blobs (write_blobs bs) = input_view <$> bs.
Proof.
  induction bs as [|b bs IH] using rev_ind; [done|].
  rewrite write_blobs_snoc, fmap_app. simpl. by rewrite fmap_app, IH.
Qed.

Lemma write_blobs_read bs r i b :
  container_fits (write_blobs bs) →
  r = {| pr_reader := finish (write_blobs bs);
         pr_header := {| pf_blobs := pw_blobs (write_blobs bs); pf_properties := ∅ |} |} →
  bs !! i = Some b → read_blob zstd_decode_all r i = Ok (bi_data b).
Proof.
  intros Hfit -> Hi. pose proof (finish_blobs_at _ _ (write_blobs_wf bs)) as Hat.
  destruct (Forall2_lookup_r _ _ _ i (bi_data b) Hat) as (m & Hm & Hmd).
  { by rewrite list_lookup_fmap, Hi. }
  eapply read_blob_at; [exact Hm|exact Hmd|apply Hfit].
Qed.

(** C22: writing any sequence of blobs through [PuffinWriter] and opening the
    result with [PuffinReader] succeeds, the footer lists the blobs in order with
    the type, fields, snapshot, sequence number and properties given to
    [add_blob], and [read_blob] returns each payload verbatim. *)
Theorem puffin_roundtrip bs :
  container_fits (write_blobs bs) →
  ∃ r, PuffinReader_new zstd_decode_all (finish (write_blobs bs)) = Ok r ∧
    meta_view <$> pf_blobs (pr_header r) = input_view <$> bs ∧
    ∀ i b, bs !! i = Some b → read_blob zstd_decode_all r i = Ok (bi_data b).
Proof.
  intros Hfit. eexists. split_and!; [by apply reader_of_finish|apply write_blobs_view|].
  intros i b. by eapply write_blobs_read.
Qed.

Lemma list_find_type (ms : list PuffinBlobMetadata) (bs : list blob_input) ty :
  pb_type <$> ms = bi_type <$> bs →
  fst <$> list_find (fun m => pb_type m = ty) ms = fst <$> list_find (fun b => bi_type b = ty) bs.
Proof.
  revert bs. induction ms as [|m ms IH]; intros [|b bs] [=]; [done|]. simpl.
  repeat case_decide; simplify_eq/=; [done..|congruence|].
  rewrite <-!option_fmap_compose. specialize (IH bs).
  destruct (list_find _ ms) as [[]|], (list_find _ bs) as [[]|]; naive_solver.
Qed.

(** Looking a blob up by type in a written container returns the payload of
    the first blob added with that type, and [None] when there is none. *)
Theorem puffin_read_by_type bs ty r :
  container_fits (write_blobs bs) →
  PuffinReader_new zstd_decode_all (finish (write_blobs bs)) = Ok r →
  read_blob_by_type zstd_decode_all r ty =
    Ok ((fun ib => bi_data ib.2) <$> list_find (fun b => bi_type b = ty) bs).
Proof.
  intros Hfit. rewrite reader_of_finish by done. intros [= <-].
  unfold read_blob_by_type. simpl.
  pose proof (list_find_type _ bs ty (write_blobs_types bs)) as Hf.
  destruct (list_find _ (pw_blobs _)) as [[i m]|] eqn:E1,
    (list_find _ bs) as [[i' b]|] eqn:E2; simplify_eq/=; [|done].
  apply list_find_Some in E2 as (Hb & _).
  by rewrite (write_blobs_read bs _ i' b).
Qed.

(** A file shorter than the 12-byte trailer, or whose last four bytes are not
    the Puffin magic, is rejected with the corresponding error: no footer is
    parsed out of it. *)
Theorem puffin_rejects_foreign_file f :
  (length f < 12 → PuffinReader_new zstd_decode_all f = Err InvalidSeek) ∧
  (12 ≤ length f → drop (length f - 4) f ≠ PUFFIN_MAGIC →
    PuffinReader_new zstd_decode_all f = Err InvalidMagic).
Proof.
  unfold PuffinReader_new, seek_end. split; intros Hlen.
  - rewrite decide_True; [done|lia].
  - intros Hm. rewrite decide_False by lia. simpl.
    do 3 (rewrite read_exact_in by lia; simpl).
    rewrite decide_True; [done|].
    replace (Z.to_nat (Z.of_nat (length f) - 12 + 8)) with (length f - 4) by lia.
    rewrite take_ge; [done|]. rewrite length_drop. lia.
Qed.

(** A footer that declares a negative blob length makes [read_blob] panic
    (the length is cast to [usize] and handed to [vec!]) instead of returning an
    error, although the engine's no-panic policy covers malformed input. *)
Theorem read_blob_negative_length_panics r i m :
  pf_blobs (pr_header r) !! i = Some m → (- 2 ^ 63 ≤ pb_length m < 0)%Z →
  read_blob zstd_decode_all r i = Err CapacityOverflow.
Proof.
  intros Hm Hneg. unfold read_blob. rewrite Hm. simpl.
  unfold vec_capacity_ok, i64_as_u64.
  rewrite bool_decide_false; [done|].
  rewrite <-(Z_mod_plus _ 1) by lia. rewrite Z.mod_small; lia.
Qed.

(** *** Index entries *)

Section IndexEntries.
Context (sha256_hex : bytes → string).

Record index_input := {
  ii_id : string; ii_category : string; ii_algorithm : string; ii_column : string;
  ii_blob_type : string; ii_data : bytes; ii_fields : list Z;
  ii_properties : gmap string string }.

Definition write_index (w : PuffinIndexWriter) (b : index_input) : PuffinIndexWriter :=
  (add_index_blob sha256_hex w (ii_id b) (ii_category b) (ii_algorithm b) (ii_column b)
     (ii_blob_type b) (ii_data b) (ii_fields b) (ii_properties b)).1.

(** An [IndexFile] entry points at the payload it was created for. *)
Definition entry_locates (path : string) (f : bytes) (e : IndexFile) (b : index_input) : Prop :=
  ∃ off len, if_blob_offset e = Some off ∧ if_blob_length e = Some len ∧
    read_exact f off len = Ok (ii_data b) ∧
    if_index_checksum e = Some (sha256_hex (ii_data b)) ∧
    if_file_path e = path ∧ if_column_name e = ii_column b ∧
    if_blob_type e = Some (ii_blob_type b).

Definition iw_wf path (w : PuffinIndexWriter) (bs : list index_input) : Prop :=
  iw_container_file_path w = path ∧
  pw_current_offset (iw_writer w) = Z.of_nat (length (pw_writer (iw_writer w))) ∧
  ∀ g, Forall2 (entry_locates path (pw_writer (iw_writer w) ++ g)) (iw_entries w) bs.

Lemma write_index_wf path w bs b : iw_wf path w bs → iw_wf path (write_index w b) (bs ++ [b]).
Proof.
  intros (Hp & Ho & He). split_and!; simpl; [done|rewrite length_app; lia|].
  intros g. apply Forall2_app.
  - rewrite <-(assoc_L (++)). apply He.
  - constructor; [|constructor]. rewrite <-(assoc_L (++)), Ho. do 2 eexists.
    split_and!; simpl; try reflexivity; [apply read_exact_mid|done].
Qed.

(** Every [IndexFile] entry a [PuffinIndexWriter] returns points, by offset
    and length, at exactly the payload it was created for inside the finished
    container, and carries that payload's checksum, the container's path and the
    column and blob type it was added under. *)
Theorem index_entries_locate_payloads path snap ck n bs file entries :
  finish_to_bytes (foldl write_index (PuffinIndexWriter_new [] path snap ck n) bs)
    = (file, entries) →
  Forall2 (entry_locates path file) entries bs.
Proof.
  assert (iw_wf path (foldl write_index (PuffinIndexWriter_new [] path snap ck n) bs) bs)
    as (_ & _ & He).
  { induction bs as [|b bs IH] using rev_ind.
    - split_and!; [done..|constructor].
    - rewrite foldl_snoc. by apply write_index_wf. }
  intros [= <- <-]. apply He.
Qed.

End IndexEntries.

(** *** Materialisation *)

(** The [(blob_type, filename)] pairs of the blobs from index [i] on. *)
Fixpoint blob_listing (i : nat) (blobs : list PuffinBlobMetadata) : list (string * string) :=
  match blobs with
  | [] => []
  | b :: blobs => (pb_type b, blob_filename i b) :: blob_listing (Datatypes.S i) blobs
  end.

Lemma materialize_loop_ok r i blobs dir written ds :
  (∀ j d, ds !! j = Some d → read_blob zstd_decode_all r (i + j) = Ok d) →
  length blobs = length ds →
  ∃ dir', materialize_loop zstd_decode_all r i blobs dir written =
    Ok (dir', written ++ blob_listing i blobs) ∧
    (∀ f, f ∉ (blob_listing i blobs).*2 → dir' !! f = dir !! f) ∧
    (NoDup (blob_listing i blobs).*2 → ∀ j b d,
       blobs !! j = Some b → ds !! j = Some d → dir' !! blob_filename (i + j) b = Some d).
Proof.
  revert i dir written ds. induction blobs as [|b blobs IH]; intros i dir written ds Hr Hlen.
  { exists dir. simpl. rewrite app_nil_r. set_solver. }
  destruct ds as [|d ds]; [done|]. simpl.
  pose proof (Hr 0 d eq_refl) as Hrd. rewrite Nat.add_0_r in Hrd. rewrite Hrd. simpl.
  destruct (IH (Datatypes.S i) (<[blob_filename i b:=d]> dir)
    (written ++ [(pb_type b, blob_filename i b)]) ds) as (dir' & Hm & Hother & Hin).
  { intros j d' Hj. specialize (Hr (Datatypes.S j) d' Hj). by rewrite Nat.add_succ_r in Hr. }
  { by injection Hlen. }
  exists dir'. rewrite Hm, <-(assoc_L (++)). split_and!; [done| |].
  - intros f [Hne Hnin]%not_elem_of_cons. rewrite Hother, lookup_insert_ne; done.
  - intros [Hnin Hnd]%NoDup_cons j b' d'. destruct j as [|j]; intros Hb Hd; simplify_eq/=.
    + by rewrite Nat.add_0_r, Hother, lookup_insert_eq.
    + rewrite Nat.add_succ_r. by apply Hin.
Qed.

(** Materialising a stored container whose blobs have distinct file names
    writes every blob's payload under its file name and reports the blobs in
    footer order. *)
Theorem materialize_writes_every_blob {S V} `{!ObjectStore S V} (store : S) path v bs :
  container_fits (write_blobs bs) →
  os_get store path = Ok (finish (write_blobs bs), v) →
  NoDup (blob_listing 0 (pw_blobs (write_blobs bs))).*2 →
  ∃ dir, materialize_puffin_blobs zstd_decode_all store path =
      Ok (dir, blob_listing 0 (pw_blobs (write_blobs bs))) ∧
    ∀ i m b, pw_blobs (write_blobs bs) !! i = Some m → bs !! i = Some b →
      dir !! blob_filename i m = Some (bi_data b).
Proof.
  intros Hfit Hget Hnd. unfold materialize_puffin_blobs. rewrite Hget. simpl.
  rewrite reader_of_finish by done. simpl.
  destruct (materialize_loop_ok
    {| pr_reader := finish (write_blobs bs);
       pr_header := {| pf_blobs := pw_blobs (write_blobs bs); pf_properties := ∅ |} |}
    0 (pw_blobs (write_blobs bs)) ∅ [] (bi_data <$> bs)) as (dir & -> & _ & Hin).
  - intros j d. rewrite list_lookup_fmap. intros (b & Hb & ->)%fmap_Some.
    by eapply write_blobs_read.
  - rewrite length_fmap, <-(length_fmap bi_type bs), <-write_blobs_types. by rewrite length_fmap.
  - exists dir. split; [done|]. intros i m b Hm Hb. apply (Hin Hnd i m); [done|].
    by rewrite list_lookup_fmap, Hb.
Qed.

End Theorems.

(** ** Witnesses *)

Definition no_zstd (_ : bytes) : option bytes := None.

Definition demo_blobs : list blob_input :=
  [ {| bi_type := "bm25"; bi_fields := [1]%Z; bi_snapshot_id := 7; bi_sequence_number := 1;
       bi_data := [Byte.x61; Byte.x62; Byte.x63]; bi_properties := {["filename" := "t"]} |};
    {| bi_type := "csr"; bi_fields := []; bi_snapshot_id := 7; bi_sequence_number := 1;
       bi_data := [Byte.x64]; bi_properties := ∅ |} ].

Lemma demo_fits : @container_fits footer_codec (write_blobs demo_blobs).
Proof. split; vm_compute; reflexivity. Defined.

Lemma puffin_roundtrip_witness :
  ∃ r, @PuffinReader_new footer_codec no_zstd (@finish footer_codec (write_blobs demo_blobs)) = Ok r ∧
    meta_view <$> pf_blobs (pr_header r) = input_view <$> demo_blobs ∧
    ∀ i b, demo_blobs !! i = Some b → read_blob no_zstd r i = Ok (bi_data b).
Proof. apply (@puffin_roundtrip footer_codec no_zstd demo_blobs). exact demo_fits. Defined.

Lemma puffin_read_by_type_witness :
  read_blob_by_type no_zstd
    {| pr_reader := @finish footer_codec (write_blobs demo_blobs);
       pr_header := {| pf_blobs := pw_blobs (write_blobs demo_blobs); pf_properties := ∅ |} |}
    "csr" = Ok (Some [Byte.x64]).
Proof.
  apply (@puffin_read_by_type footer_codec no_zstd demo_blobs "csr").
  - exact demo_fits.
  - apply reader_of_finish. exact demo_fits.
Defined.

Lemma puffin_rejects_foreign_file_witness :
  @PuffinReader_new footer_codec no_zstd [] = Err InvalidSeek ∧
  @PuffinReader_new footer_codec no_zstd (replicate 16 Byte.x00) = Err InvalidMagic.
Proof.
  split.
  - apply (@puffin_rejects_foreign_file footer_codec no_zstd []). simpl. lia.
  - apply (@puffin_rejects_foreign_file footer_codec no_zstd (replicate 16 Byte.x00)).
    + simpl. lia.
    + vm_compute. discriminate.
Defined.

Definition bad_blob : PuffinBlobMetadata :=
  {| pb_type := "bm25"; pb_fields := []; pb_snapshot_id := 0; pb_sequence_number := 0;
     pb_offset := 4; pb_length := -1; pb_compression_codec := None; pb_properties := ∅ |}.

Lemma read_blob_negative_length_panics_witness :
  read_blob no_zstd {| pr_reader := PUFFIN_MAGIC;
    pr_header := {| pf_blobs := [bad_blob]; pf_properties := ∅ |} |} 0 = Err CapacityOverflow.
Proof.
  apply (read_blob_negative_length_panics no_zstd _ 0 bad_blob); [reflexivity|simpl; lia].
Defined.

Definition demo_index : index_input :=
  {| ii_id := "id-1"; ii_category := "lexical"; ii_algorithm := "bm25"; ii_column := "body";
     ii_blob_type := "bm25"; ii_data := [Byte.x61; Byte.x62]; ii_fields := [];
     ii_properties := ∅ |}.

Definition demo_sha (b : bytes) : string := "sha".

Definition demo_index_run : bytes * list IndexFile :=
  @finish_to_bytes footer_codec
    (foldl (write_index demo_sha) (PuffinIndexWriter_new [] "seg.puffin" 3 "ck" 10) [demo_index]).

Lemma index_entries_locate_payloads_witness :
  Forall2 (entry_locates demo_sha "seg.puffin" demo_index_run.1) demo_index_run.2 [demo_index].
Proof.
  apply (@index_entries_locate_payloads footer_codec demo_sha "seg.puffin" 3 "ck" 10).
  reflexivity.
Defined.

Lemma materialize_writes_every_blob_witness :
  ∃ dir, @materialize_puffin_blobs footer_codec no_zstd _ _ MemStore.mem_store
      {["p" := @finish footer_codec (write_blobs demo_blobs)]} "p" =
      Ok (dir, [("bm25", "t"); ("csr", "blob_1")]) ∧
    ∀ i m b, pw_blobs (write_blobs demo_blobs) !! i = Some m → demo_blobs !! i = Some b →
      dir !! blob_filename i m = Some (bi_data b).
Proof.
  apply (@materialize_writes_every_blob footer_codec no_zstd _ _ MemStore.mem_store
    {["p" := @finish footer_codec (write_blobs demo_blobs)]} "p"
    (@finish footer_codec (write_blobs demo_blobs)) demo_blobs).
  - exact demo_fits.
  - reflexivity.
  - apply (bool_decide_unpack _). vm_compute. reflexivity.
Defined.
