(* ===== verification/Policy.v ===== *)
(** * Warehouse catalog policy ([src/src/core/catalog/policy.rs])

    The policy object at the warehouse root, its read-modify-write under
    optimistic concurrency, and the schema permissions derived from it for
    untrusted connectors.  The object store is the [ObjectStore] interface and
    [serde_json] a [Codec]. *)

From S2P Require Import Prelude ObjectStore.

(** ** Data *)

Definition CATALOG_POLICY_FILE : string := ".benostream-policy.json".
Definition IMMUTABLE_SYSTEM_SCHEMAS : list string :=
  ["default"; "public"; "information_schema"; "sys"; "system"].
Definition SCRATCH_SCHEMA : string := "scratch".

Record CatalogPolicy := {
  catalog_id : option string;
  policy_version : option string;
  readwrite_schemas : option (list string);
  readonly_schemas : option (list string);
  immutable_schemas : option (list string);
  no_access_schemas : option (list string);
  default_write_schema : option string;
  description : option string;
}.

#[export] Instance CatalogPolicy_eq_dec : EqDecision CatalogPolicy.
Proof. solve_decision. Defined.

#[export] Instance CatalogPolicy_countable : Countable CatalogPolicy.
Proof.
  refine (inj_countable'
    (fun p => (catalog_id p, policy_version p, readwrite_schemas p, readonly_schemas p,
               immutable_schemas p, no_access_schemas p, default_write_schema p, description p))
    (fun t => let '(a, b, c, d, e, f, g, h) := t in Build_CatalogPolicy a b c d e f g h) _).
  by intros [].
Defined.

(** [CatalogPolicy::default] (derived) and [CatalogPolicy::new]. *)
Definition CatalogPolicy_default : CatalogPolicy :=
  Build_CatalogPolicy None None None None None None None None.
Definition CatalogPolicy_new : CatalogPolicy :=
  Build_CatalogPolicy None (Some "1.0") None None None None None None.

(** [list.iter().any(|r| r.eq_ignore_ascii_case(s))] *)
Definition lists_schema (l : list string) (s : string) : bool :=
  any (fun r => eq_ignore_ascii_case r s) l.

Definition is_system_schema (s : string) : bool := lists_schema IMMUTABLE_SYSTEM_SCHEMAS s.

(** [if let Some(ref l) = o { if l.iter().any(..) { return false; } }] *)
Definition opt_lists_schema (o : option (list string)) (s : string) : bool :=
  match o with Some l => lists_schema l s | None => false end.

Definition policy_is_schema_writable (p : CatalogPolicy) (schema : string) : bool :=
  let s := to_ascii_lowercase schema in
  if is_system_schema s then false
  else if opt_lists_schema (readonly_schemas p) s then false
  else if opt_lists_schema (immutable_schemas p) s then false
  else if opt_lists_schema (no_access_schemas p) s then false
  else match readwrite_schemas p with
       | Some rw => any (fun w => bool_decide (w = "*") || eq_ignore_ascii_case w s) rw
       | None => bool_decide (s = SCRATCH_SCHEMA)
       end.

(** [.into_iter().map(|s| s.to_ascii_lowercase()).collect::<BTreeSet<_>>()] *)
Definition lower_set (l : list string) : gset string :=
  list_to_set (to_ascii_lowercase <$> l).

Definition set_schema_access (p : CatalogPolicy) (schema : string) (read_only : bool) :
    CatalogPolicy :=
  let clean := to_ascii_lowercase (trim schema) in
  if is_system_schema clean then p else
  let ro := lower_set (default [] (readonly_schemas p)) in
  let rw := lower_set (default [SCRATCH_SCHEMA] (readwrite_schemas p)) in
  let '(ro, rw) := if read_only then ({[clean]} ∪ ro, rw ∖ {[clean]})
                   else (ro ∖ {[clean]}, {[clean]} ∪ rw) in
  {| catalog_id := catalog_id p; policy_version := policy_version p;
     readwrite_schemas := Some (btree_to_vec rw);
     readonly_schemas := Some (btree_to_vec ro);
     immutable_schemas := immutable_schemas p; no_access_schemas := no_access_schemas p;
     default_write_schema := default_write_schema p; description := description p |}.

Definition lock_all_read_only (p : CatalogPolicy) : CatalogPolicy :=
  {| catalog_id := catalog_id p; policy_version := policy_version p;
     readwrite_schemas := Some [SCRATCH_SCHEMA];
     readonly_schemas := readonly_schemas p;
     immutable_schemas := immutable_schemas p; no_access_schemas := no_access_schemas p;
     default_write_schema := default_write_schema p; description := description p |}.

(** ** Storage *)

Inductive policy_error : Type :=
| StoreError (e : os_error)
| JsonError
| LostRaces.

Section Storage.
Context {S V : Type} `{!ObjectStore S V} `{!Codec CatalogPolicy}.

Definition read_policy_via_store (st : S) : result policy_error (option CatalogPolicy) :=
  match os_get st CATALOG_POLICY_FILE with
  | Ok (b, _) => p ← ok_or (from_bytes b) JsonError; Ok (Some p)
  | Err NotFound => Ok None
  | Err e => Err (StoreError e)
  end.

Definition write_policy_via_store (st : S) (p : CatalogPolicy) : S * result policy_error unit :=
  match os_put st CATALOG_POLICY_FILE (to_bytes p) Overwrite with
  | (st', Ok _) => (st', Ok ())
  | (st', Err e) => (st', Err (StoreError e))
  end.

Definition read_policy_with_version (st : S) :
    result policy_error (option (CatalogPolicy * V)) :=
  match os_get st CATALOG_POLICY_FILE with
  | Ok (b, v) => p ← ok_or (from_bytes b) JsonError; Ok (Some (p, v))
  | Err NotFound => Ok None
  | Err e => Err (StoreError e)
  end.

Definition write_policy_cas (st : S) (p : CatalogPolicy) (mode : PutMode V) :
    S * result policy_error bool :=
  match os_put st CATALOG_POLICY_FILE (to_bytes p) mode with
  | (st', Ok _) => (st', Ok true)
  | (st', Err AlreadyExists) | (st', Err Precondition) => (st', Ok false)
  | (st', Err NotImplemented) =>
      match os_put st' CATALOG_POLICY_FILE (to_bytes p) Overwrite with
      | (st'', Ok _) => (st'', Ok true)
      | (st'', Err e) => (st'', Err (StoreError e))
      end
  | (st', Err e) => (st', Err (StoreError e))
  end.

Definition POLICY_MAX_RETRIES : nat := 8.

(** One iteration of [update_policy], split at its suspension point: the read ... *)
Definition update_read (seed : CatalogPolicy) (st : S) :
    result policy_error (CatalogPolicy * PutMode V) :=
  r ← read_policy_with_version st;
  Ok match r with
     | Some (existing, version) => (existing, Update version)
     | None => (seed, Create)
     end.

(** ... and the loop.  [env n] is what other clients do to the store between the
    read and the conditional write of the iteration with [n] retries left. *)
Fixpoint update_policy_loop (fuel : nat) (env : nat → S → S) (seed : CatalogPolicy)
    (mutate : CatalogPolicy → CatalogPolicy) (st : S) :
    S * result policy_error CatalogPolicy :=
  match fuel with
  | 0 => (st, Err LostRaces)
  | Datatypes.S n =>
      match update_read seed st with
      | Err e => (st, Err e)
      | Ok (policy, mode) =>
          let policy := mutate policy in
          match write_policy_cas (env n st) policy mode with
          | (st', Ok true) => (st', Ok policy)
          | (st', Ok false) => update_policy_loop n env seed mutate st'
          | (st', Err e) => (st', Err e)
          end
      end
  end.

Definition update_policy (env : nat → S → S) (seed : CatalogPolicy)
    (mutate : CatalogPolicy → CatalogPolicy) (st : S) : S * result policy_error CatalogPolicy :=
  update_policy_loop POLICY_MAX_RETRIES env seed mutate st.

Definition set_catalog_schema_access (env : nat → S → S) (st : S) (schema : string)
    (read_only : bool) : S * result policy_error CatalogPolicy :=
  let seed := Build_CatalogPolicy None (Some "1.0") (Some [SCRATCH_SCHEMA]) (Some ["default"])
                None None None None in
  update_policy env seed (fun p => set_schema_access p schema read_only) st.

Definition lock_catalog_read_only (env : nat → S → S) (st : S) :
    S * result policy_error CatalogPolicy :=
  update_policy env CatalogPolicy_default lock_all_read_only st.

End Storage.

(** ** Permissions of untrusted connectors *)

(** The decision part of [resolve_permissions_for_untrusted_connector]; [policy] is
    the outcome of [get_catalog_policy]. *)
Definition policy_readonly_set (p : CatalogPolicy) (client_readonly : option (list string)) :
    gset string :=
  lower_set (default [] client_readonly) ∪ lower_set IMMUTABLE_SYSTEM_SCHEMAS
    ∪ lower_set (default [] (readonly_schemas p)) ∪ lower_set (default [] (immutable_schemas p)).

Definition allowed_readwrite (p : CatalogPolicy) (client_readwrite : option (list string)) :
    list string :=
  match readwrite_schemas p with
  | Some policy_rw =>
      match client_readwrite with
      | Some client_list =>
          let policy_set := lower_set policy_rw in
          if any (fun w => bool_decide (w = "*")) client_list then policy_rw
          else
            let filtered := filter (fun s => to_ascii_lowercase s ∈ policy_set) client_list in
            if negb (any (fun s => bool_decide (s = SCRATCH_SCHEMA)) filtered)
               && bool_decide (SCRATCH_SCHEMA ∈ policy_set)
            then filtered ++ [SCRATCH_SCHEMA] else filtered
      | None => policy_rw
      end
  | None => [SCRATCH_SCHEMA]
  end.

Definition resolve_permissions {E} (policy : result E (option CatalogPolicy))
    (client_readwrite client_readonly : option (list string))
    (client_default_write : option string) : list string * list string * string :=
  match policy with
  | Ok (Some p) =>
      let readonly_set := policy_readonly_set p client_readonly in
      let allowed_rw := allowed_readwrite p client_readwrite in
      let final_rw := filter (fun s => to_ascii_lowercase s ∉ readonly_set) allowed_rw in
      let final_rw := match final_rw with [] => [SCRATCH_SCHEMA] | _ => final_rw end in
      let default_write :=
        match default_write_schema p with
        | Some d => d
        | None =>
            match client_default_write with
            | Some dw => if decide (to_ascii_lowercase dw ∈ final_rw) then dw
                         else default SCRATCH_SCHEMA (head final_rw)
            | None => default SCRATCH_SCHEMA (head final_rw)
            end
        end in
      (final_rw, btree_to_vec readonly_set, default_write)
  | Ok None | Err _ =>
      let readonly_set := lower_set (default [] client_readonly)
                            ∪ lower_set IMMUTABLE_SYSTEM_SCHEMAS in
      ([SCRATCH_SCHEMA], btree_to_vec readonly_set, SCRATCH_SCHEMA)
  end.

Record SchemaPermissions := {
  sp_readwrite_schemas : list string;
  sp_readonly_schemas : list string;
  sp_no_access_schemas : list string;
  sp_default_write_schema : string;
  sp_read_schemas_all : bool;
}.

Definition SchemaPermissions_default : SchemaPermissions :=
  {| sp_readwrite_schemas := [SCRATCH_SCHEMA]; sp_readonly_schemas := IMMUTABLE_SYSTEM_SCHEMAS;
     sp_no_access_schemas := []; sp_default_write_schema := SCRATCH_SCHEMA;
     sp_read_schemas_all := true |}.

Definition SchemaPermissions_new (rw ro : list string) (dw : string) : SchemaPermissions :=
  {| sp_readwrite_schemas := rw; sp_readonly_schemas := ro; sp_no_access_schemas := [];
     sp_default_write_schema := dw; sp_read_schemas_all := false |}.

Definition is_schema_writable (sp : SchemaPermissions) (schema : string) : bool :=
  let s := to_ascii_lowercase schema in
  if is_system_schema s then false
  else if lists_schema (sp_readonly_schemas sp) s then false
  else if lists_schema (sp_no_access_schemas sp) s then false
  else if any (fun w => bool_decide (w = "*")) (sp_readwrite_schemas sp) then true
  else lists_schema (sp_readwrite_schemas sp) s.

Definition is_schema_readable (sp : SchemaPermissions) (schema : string) : bool :=
  let s := to_ascii_lowercase schema in
  if lists_schema (sp_no_access_schemas sp) s then false
  else if sp_read_schemas_all sp then true
  else if bool_decide (s = SCRATCH_SCHEMA) then true
  else if is_system_schema s then true
  else if lists_schema (sp_readonly_schemas sp) s then true
  else any (fun w => bool_decide (w = "*") || eq_ignore_ascii_case w s) (sp_readwrite_schemas sp).

(** The loop that appends the system schemas missing from [ro]. *)
Definition ensure_system_readonly (ro : list string) : list string :=
  foldl (fun ro sys => if lists_schema ro sys then ro else ro ++ [sys])
    ro IMMUTABLE_SYSTEM_SCHEMAS.

Definition for_untrusted_connector {E} (policy : result E (option CatalogPolicy)) :
    SchemaPermissions :=
  let '(rw, ro, dw) := resolve_permissions policy None None None in
  let ro := ensure_system_readonly ro in
  let p := mjoin (res_ok policy) in
  {| sp_readwrite_schemas := rw; sp_readonly_schemas := ro;
     sp_no_access_schemas := default [] (p ≫= no_access_schemas);
     sp_default_write_schema := dw;
     sp_read_schemas_all := bool_decide (p = None) |}.

Definition for_server_connector {E} (policy : result E (option CatalogPolicy)) :
    SchemaPermissions :=
  let '(rw, ro, _) := resolve_permissions policy None None None in
  let ro := ensure_system_readonly ro in
  let p := mjoin (res_ok policy) in
  let policy_present := bool_decide (p ≠ None) in
  let readwrite :=
    if policy_present then filter (fun s => eq_ignore_ascii_case s SCRATCH_SCHEMA = false) rw
    else [] in
  {| sp_readwrite_schemas := readwrite; sp_readonly_schemas := ro;
     sp_no_access_schemas := default [] (p ≫= no_access_schemas);
     sp_default_write_schema := SCRATCH_SCHEMA;
     sp_read_schemas_all := negb policy_present |}.

Arguments lower_set : simpl never.
Arguments is_system_schema : simpl never.
Arguments ensure_system_readonly : simpl never.
Arguments policy_readonly_set : simpl never.

(** ** Lemmas *)

Abbreviation lower := to_ascii_lowercase.

Lemma elem_of_lower_set x l : x ∈ lower_set l ↔ ∃ y, y ∈ l ∧ x = lower y.
Proof. unfold lower_set. set_solver. Qed.

Lemma lists_schema_spec l s : lists_schema l s = bool_decide (lower s ∈ lower_set l).
Proof.
  apply eq_bool_prop_intro. rewrite !Is_true_true, bool_decide_eq_true.
  unfold lists_schema. rewrite existsb_elem_of, elem_of_lower_set.
  setoid_rewrite eq_ignore_ascii_case_true. naive_solver.
Qed.

Lemma lists_schema_lower l s : lists_schema l (lower s) = lists_schema l s.
Proof. by rewrite !lists_schema_spec, to_ascii_lowercase_idemp. Qed.

Lemma opt_lists_schema_spec o s :
  opt_lists_schema o s = bool_decide (lower s ∈ lower_set (default [] o)).
Proof.
  destruct o as [l|]; simpl; [apply lists_schema_spec|].
  by rewrite bool_decide_false by set_solver.
Qed.

Lemma is_system_schema_lower s : is_system_schema (lower s) = is_system_schema s.
Proof. apply lists_schema_lower. Qed.

Lemma is_star w : bool_decide (w = "*") = true ↔ w = "*".
Proof. apply bool_decide_eq_true. Qed.

Lemma wild_true w s :
  (bool_decide (w = "*") || eq_ignore_ascii_case w s) = true ↔ w = "*" ∨ lower w = lower s.
Proof. by rewrite orb_true_iff, is_star, eq_ignore_ascii_case_true. Qed.

(** The wildcard-or-listed test shared by the policy and the permissions. *)
Lemma any_wild l s :
  any (fun w => bool_decide (w = "*") || eq_ignore_ascii_case w s) l =
  bool_decide ("*" ∈ l ∨ lower s ∈ lower_set l).
Proof.
  apply eq_bool_prop_intro. rewrite !Is_true_true, bool_decide_eq_true, existsb_elem_of.
  setoid_rewrite wild_true. rewrite elem_of_lower_set. naive_solver.
Qed.

Lemma any_star l : any (fun w => bool_decide (w = "*")) l = bool_decide ("*" ∈ l).
Proof.
  apply eq_bool_prop_intro. rewrite !Is_true_true, bool_decide_eq_true, existsb_elem_of.
  setoid_rewrite is_star. naive_solver.
Qed.

(** The schemas a policy vetoes. *)
Definition vetoed (p : CatalogPolicy) (s : string) : Prop :=
  is_system_schema s = true ∨ lower s ∈ lower_set (default [] (readonly_schemas p))
  ∨ lower s ∈ lower_set (default [] (immutable_schemas p))
  ∨ lower s ∈ lower_set (default [] (no_access_schemas p)).

(** The schemas a policy grants. *)
Definition granted (p : CatalogPolicy) (s : string) : Prop :=
  match readwrite_schemas p with
  | Some rw => "*" ∈ rw ∨ lower s ∈ lower_set rw
  | None => lower s = SCRATCH_SCHEMA
  end.

Lemma policy_writable_spec p s :
  policy_is_schema_writable p s = true ↔ ¬ vetoed p s ∧ granted p s.
Proof.
  unfold policy_is_schema_writable, vetoed, granted.
  rewrite is_system_schema_lower, !opt_lists_schema_spec, to_ascii_lowercase_idemp.
  destruct (readwrite_schemas p) as [rw|];
    rewrite ?any_wild, ?to_ascii_lowercase_idemp;
    destruct (is_system_schema s); repeat case_bool_decide; naive_solver.
Qed.

Lemma lower_set_btree X : (∀ x, x ∈ X → lower x = x) → lower_set (btree_to_vec X) = X.
Proof.
  intros H. apply set_eq. intros x. rewrite elem_of_lower_set.
  setoid_rewrite elem_of_btree_to_vec. split; [|naive_solver].
  intros (y & Hy & ->). by rewrite H.
Qed.

Lemma lower_set_lower l x : x ∈ lower_set l → lower x = x.
Proof. intros (y & _ & ->)%elem_of_lower_set. apply to_ascii_lowercase_idemp. Qed.

Lemma sp_writable_spec sp s :
  is_schema_writable sp s = true ↔
  is_system_schema s = false ∧ lower s ∉ lower_set (sp_readonly_schemas sp)
  ∧ lower s ∉ lower_set (sp_no_access_schemas sp)
  ∧ ("*" ∈ sp_readwrite_schemas sp ∨ lower s ∈ lower_set (sp_readwrite_schemas sp)).
Proof.
  unfold is_schema_writable.
  rewrite is_system_schema_lower, !lists_schema_spec, any_star, to_ascii_lowercase_idemp.
  destruct (is_system_schema s); repeat case_bool_decide; naive_solver.
Qed.

Lemma sp_readable_spec sp s :
  is_schema_readable sp s = true ↔
  lower s ∉ lower_set (sp_no_access_schemas sp) ∧
  (sp_read_schemas_all sp = true ∨ lower s = SCRATCH_SCHEMA ∨ is_system_schema s = true
   ∨ lower s ∈ lower_set (sp_readonly_schemas sp)
   ∨ "*" ∈ sp_readwrite_schemas sp ∨ lower s ∈ lower_set (sp_readwrite_schemas sp)).
Proof.
  unfold is_schema_readable.
  rewrite is_system_schema_lower, !lists_schema_spec, any_wild, to_ascii_lowercase_idemp.
  destruct (is_system_schema s), (sp_read_schemas_all sp); repeat case_bool_decide; naive_solver.
Qed.

Lemma lower_set_app l k : lower_set (l ++ k) = lower_set l ∪ lower_set k.
Proof. unfold lower_set. by rewrite fmap_app, list_to_set_app_L. Qed.

Lemma ensure_system_readonly_set ro :
  lower_set (ensure_system_readonly ro) = lower_set ro ∪ lower_set IMMUTABLE_SYSTEM_SCHEMAS.
Proof.
  unfold ensure_system_readonly. generalize IMMUTABLE_SYSTEM_SCHEMAS. intros l.
  revert ro. induction l as [|x l IH]; intros ro; [set_solver|].
  cbn [foldl]. rewrite IH, (lower_set_app [x] l : lower_set (x :: l) = _).
  rewrite lists_schema_spec. case_bool_decide; [|rewrite lower_set_app; set_solver].
  assert (lower_set [x] = {[lower x]}) as -> by (unfold lower_set; set_solver). set_solver.
Qed.

Lemma system_in_set s :
  is_system_schema s = true ↔ lower s ∈ lower_set IMMUTABLE_SYSTEM_SCHEMAS.
Proof. unfold is_system_schema. by rewrite lists_schema_spec, bool_decide_eq_true. Qed.

Lemma lower_set_filter l (X : gset string) s :
  lower s ∉ X →
  lower s ∈ lower_set (filter (fun s => lower s ∉ X) l) ↔ lower s ∈ lower_set l.
Proof.
  intros HX. rewrite !elem_of_lower_set. split.
  - intros (y & [_ Hy]%list_elem_of_filter & Hs). eauto.
  - intros (y & Hy & Hs). exists y. rewrite list_elem_of_filter, <-Hs. eauto.
Qed.

(** The read-only set the resolver computes for a present policy. *)
Lemma policy_readonly_btree p cl :
  lower_set (btree_to_vec (policy_readonly_set p cl)) = policy_readonly_set p cl.
Proof.
  apply lower_set_btree. intros x. unfold policy_readonly_set.
  rewrite !elem_of_union. intros [[[]|]|]; by eapply lower_set_lower.
Qed.

Lemma not_vetoed p s :
  ¬ vetoed p s ↔
  lower s ∉ policy_readonly_set p None ∧ lower s ∉ lower_set (default [] (no_access_schemas p)).
Proof.
  unfold vetoed, policy_readonly_set. rewrite system_in_set. simpl.
  assert (lower_set [] = ∅) as -> by done. rewrite !elem_of_union.
  pose proof (not_elem_of_empty (C := gset string) (lower s)). tauto.
Qed.

(** *** The policy as a pair of sets *)

Definition ro_set (p : CatalogPolicy) : gset string := lower_set (default [] (readonly_schemas p)).
Definition rw_set (p : CatalogPolicy) : gset string :=
  lower_set (default [SCRATCH_SCHEMA] (readwrite_schemas p)).

Lemma lower_star y : lower y = "*" → y = "*".
Proof.
  destruct y as [|c [|c' y]]; simpl; [done| |done]. intros [= H]. f_equal.
  revert H. by destruct c as [[] [] [] [] [] [] [] []]; vm_compute.
Qed.

Lemma star_in_lower_set l : "*" ∈ lower_set l ↔ "*" ∈ l.
Proof.
  rewrite elem_of_lower_set. split; [|by exists "*"].
  intros (y & Hy & Heq). by rewrite (lower_star y) in Hy.
Qed.

Lemma granted_spec p s : granted p s ↔ "*" ∈ rw_set p ∨ lower s ∈ rw_set p.
Proof.
  unfold granted, rw_set. rewrite star_in_lower_set.
  destruct (readwrite_schemas p) as [l|]; simpl; [done|].
  assert (lower_set [SCRATCH_SCHEMA] = {[SCRATCH_SCHEMA]}) as -> by done. set_solver.
Qed.

Lemma set_access_sets p schema read_only :
  is_system_schema (trim schema) = false →
  let c := lower (trim schema) in
  let p' := set_schema_access p schema read_only in
  ro_set p' = (if read_only then {[c]} ∪ ro_set p else ro_set p ∖ {[c]}) ∧
  rw_set p' = (if read_only then rw_set p ∖ {[c]} else {[c]} ∪ rw_set p) ∧
  immutable_schemas p' = immutable_schemas p ∧ no_access_schemas p' = no_access_schemas p.
Proof.
  intros Hsys c p'. subst p'. unfold set_schema_access.
  rewrite is_system_schema_lower, Hsys. fold c. fold (ro_set p) (rw_set p).
  assert (lower c = c) as Hc by apply to_ascii_lowercase_idemp.
  assert (∀ x, x ∈ ro_set p ∪ rw_set p → lower x = x) as Hl.
  { intros x [Hx|Hx]%elem_of_union; by eapply lower_set_lower. }
  destruct read_only; (split_and!; [| |done..]); unfold ro_set at 1 || unfold rw_set at 1;
    simpl; apply lower_set_btree; set_solver.
Qed.

(** *** Access changes *)

(** [set_schema_access] on a non-system schema (and not the wildcard) changes
    the write permission of that schema alone: afterwards it is writable exactly
    when read-write was requested and the policy does not list it as immutable or
    no-access, and every other schema is as writable as before. *)
Theorem set_schema_access_spec p schema read_only s :
  lower (trim schema) ≠ "*" → is_system_schema (trim schema) = false →
  policy_is_schema_writable (set_schema_access p schema read_only) s =
    if decide (lower s = lower (trim schema)) then
      negb read_only && negb (opt_lists_schema (immutable_schemas p) s)
      && negb (opt_lists_schema (no_access_schemas p) s)
    else policy_is_schema_writable p s.
Proof.
  intros Hstar Hsys. apply eq_bool_prop_intro. rewrite !Is_true_true.
  destruct (set_access_sets p schema read_only Hsys) as (Hro & Hrw & Him & Hna).
  rewrite policy_writable_spec, granted_spec, Hrw. unfold vetoed.
  fold (ro_set (set_schema_access p schema read_only)). rewrite Hro, Him, Hna.
  rewrite !opt_lists_schema_spec. case_decide as Hs.
  - assert (is_system_schema s = false) as ->.
    { rewrite <-is_system_schema_lower, Hs, is_system_schema_lower. done. }
    rewrite !andb_true_iff, !negb_true_iff, !bool_decide_eq_false, Hs.
    destruct read_only; rewrite ?elem_of_union, ?elem_of_difference, ?elem_of_singleton; naive_solver.
  - rewrite policy_writable_spec, granted_spec. unfold vetoed. fold (ro_set p).
    assert ("*" ≠ lower (trim schema)) by congruence.
    destruct read_only; rewrite ?elem_of_union, ?elem_of_difference, ?elem_of_singleton; tauto.
Qed.

(** After [lock_all_read_only] no schema other than [scratch] is writable, and
    [scratch] is writable exactly when the policy does not veto it. *)
Theorem lock_all_read_only_spec p s :
  policy_is_schema_writable (lock_all_read_only p) s = true ↔
  lower s = SCRATCH_SCHEMA ∧ ¬ vetoed p s.
Proof.
  rewrite policy_writable_spec, granted_spec. unfold rw_set, vetoed. simpl.
  assert (lower_set [SCRATCH_SCHEMA] = {[SCRATCH_SCHEMA]}) as -> by done.
  assert ("*" ≠ SCRATCH_SCHEMA) by done. set_solver.
Qed.

(** *** Connectors *)

Section Connectors.
Context {E : Type}.

(** The write list of the untrusted connector, before the scratch fallback. *)
Lemma resolve_present p :
  ∃ rw dw, resolve_permissions (E := E) (Ok (Some p)) None None None =
    (rw, btree_to_vec (policy_readonly_set p None), dw) ∧
    (∀ x, x ∈ rw → x = SCRATCH_SCHEMA ∨
       (x ∈ allowed_readwrite p None ∧ lower x ∉ policy_readonly_set p None)) ∧
    (∀ x, x ∈ allowed_readwrite p None → lower x ∉ policy_readonly_set p None → x ∈ rw).
Proof.
  simpl. do 2 eexists. split; [reflexivity|].
  set (f := filter _ _).
  assert (∀ x, x ∈ f ↔ lower x ∉ policy_readonly_set p None ∧ x ∈ allowed_readwrite p None) as Hf.
  { intros x. unfold f. by rewrite list_elem_of_filter. }
  split.
  - intros x Hx. destruct f as [|y f'].
    + left. by apply list_elem_of_singleton in Hx.
    + right. by apply Hf in Hx as [].
  - intros x Hx Hn. assert (x ∈ f) as Hxf by (apply Hf; eauto).
    destruct f; [by apply not_elem_of_nil in Hxf|done].
Qed.

Lemma allowed_readwrite_granted p s :
  "*" ∈ allowed_readwrite p None ∨ lower s ∈ lower_set (allowed_readwrite p None) ↔ granted p s.
Proof.
  unfold allowed_readwrite, granted. destruct (readwrite_schemas p); [done|].
  assert (lower_set [SCRATCH_SCHEMA] = {[SCRATCH_SCHEMA]}) as -> by done.
  rewrite list_elem_of_singleton, elem_of_singleton.
  assert ("*" ≠ SCRATCH_SCHEMA) by done. tauto.
Qed.

(** The connectors' permissions for a present policy, field by field. *)
Local Ltac connector_fields p :=
  cbv beta iota zeta; change (mjoin (res_ok (E:=E) (Ok (Some p)))) with (Some p);
  cbn [sp_readwrite_schemas sp_readonly_schemas sp_no_access_schemas sp_read_schemas_all
       mbind option_bind];
  rewrite ?bool_decide_true by done.

(** The read-only list both connectors install. *)
Lemma connector_readonly p s :
  lower s ∈ lower_set (ensure_system_readonly (btree_to_vec (policy_readonly_set p None))) ↔
  lower s ∈ policy_readonly_set p None.
Proof.
  rewrite ensure_system_readonly_set, policy_readonly_btree, elem_of_union.
  unfold policy_readonly_set. rewrite !elem_of_union. tauto.
Qed.

Lemma system_readonly p s : is_system_schema s = true → lower s ∈ policy_readonly_set p None.
Proof. rewrite system_in_set. unfold policy_readonly_set. rewrite !elem_of_union. tauto. Qed.

(** C20: With a policy present whose read-only set does not contain the wildcard, the
    network-facing connector may write a schema if and only if the policy declares it
    writable and, for the schema [scratch], the policy grants the wildcard: an explicit
    grant of [scratch] is not carried over. *)
Theorem server_connector_refines_policy p s :
  "*" ∉ policy_readonly_set p None →
  is_schema_writable (for_server_connector (E := E) (Ok (Some p))) s = true ↔
  policy_is_schema_writable p s = true ∧
    (lower s = SCRATCH_SCHEMA → "*" ∈ allowed_readwrite p None).
Proof.
  intros Hstar. rewrite sp_writable_spec, policy_writable_spec, not_vetoed.
  rewrite <-allowed_readwrite_granted. unfold for_server_connector.
  destruct (resolve_present p) as (rw & dw & -> & Hrw & Hrw').
  connector_fields p.
  rewrite connector_readonly. pose proof (system_readonly p s) as Hsys.
  assert (∀ x, x ∈ filter (λ s, eq_ignore_ascii_case s SCRATCH_SCHEMA = false) rw ↔
    lower x ≠ SCRATCH_SCHEMA ∧ x ∈ allowed_readwrite p None
      ∧ lower x ∉ policy_readonly_set p None) as Hf.
  { intros x. rewrite list_elem_of_filter, <-not_true_iff_false, eq_ignore_ascii_case_true.
    split; [|naive_solver]. intros [Hne Hx]. by destruct (Hrw x Hx) as [->|[]]. }
  rewrite Hf, !elem_of_lower_set. setoid_rewrite Hf.
  assert (lower "*" = "*") as Hls by done. rewrite Hls.
  assert ("*" ≠ SCRATCH_SCHEMA) by done.
  destruct (is_system_schema s).
  { split; [by intros []|]. intros (([Hro _] & _) & _). by destruct Hro; apply Hsys. }
  split.
  - intros (_ & Hro & Hna & [(_ & Hw & _)|(y & (Hy1 & Hy2 & _) & Hs)]).
    + by split_and!; [|..|left|].
    + split_and!; [done..|right; by exists y|]. by rewrite Hs.
  - intros (([Hro Hna] & [Hw|(y & Hy & Hs)]) & Hscr); split_and!; try done.
    + by left.
    + destruct (decide (lower s = SCRATCH_SCHEMA)) as [Heq|Hne]; [left; auto|].
      right. exists y. by rewrite <-Hs.
Qed.

(** With a policy present, the local untrusted connector never writes a schema
    the policy does not declare writable, [scratch] excepted. *)
Theorem untrusted_connector_within_policy p s :
  is_schema_writable (for_untrusted_connector (E := E) (Ok (Some p))) s = true →
  lower s ≠ SCRATCH_SCHEMA → policy_is_schema_writable p s = true.
Proof.
  rewrite sp_writable_spec, policy_writable_spec, not_vetoed.
  rewrite <-allowed_readwrite_granted. unfold for_untrusted_connector.
  destruct (resolve_present p) as (rw & dw & -> & Hrw & _).
  connector_fields p. rewrite connector_readonly.
  intros (_ & Hro & Hna & Hw) Hne. split; [done|].
  destruct Hw as [Hw|(y & Hy & Hs)%elem_of_lower_set].
  - left. by destruct (Hrw _ Hw) as [|[]].
  - right. apply elem_of_lower_set. exists y. split; [|done].
    by destruct (Hrw _ Hy) as [->|[]].
Qed.

(** Without a usable policy (absent, unreadable or malformed) both connectors
    fail closed: every schema stays readable, the local connector writes [scratch]
    only and the network-facing connector writes nothing. *)
Theorem no_policy_fails_closed (r : result E (option CatalogPolicy)) s :
  mjoin (res_ok r) = None →
  is_schema_writable (for_untrusted_connector r) s = bool_decide (lower s = SCRATCH_SCHEMA) ∧
  is_schema_writable (for_server_connector r) s = false ∧
  is_schema_readable (for_untrusted_connector r) s = true ∧
  is_schema_readable (for_server_connector r) s = true.
Proof.
  intros Hr.
  assert (∃ ro, resolve_permissions r None None None = ([SCRATCH_SCHEMA], ro, SCRATCH_SCHEMA)
    ∧ lower_set ro = lower_set IMMUTABLE_SYSTEM_SCHEMAS) as (ro & Hres & Hro).
  { destruct r as [[p|]|e]; [done|eexists; split; [reflexivity|]..];
      (rewrite lower_set_btree; [by change (lower_set (default [] None)) with (∅ : gset string); rewrite (left_id_L ∅ (∪))|]);
      intros x [Hx|Hx]%elem_of_union; by eapply lower_set_lower. }
  split_and!; apply eq_bool_prop_intro; rewrite !Is_true_true;
    rewrite ?sp_writable_spec, ?sp_readable_spec;
    unfold for_untrusted_connector, for_server_connector; rewrite Hres, Hr; simpl;
    rewrite ?ensure_system_readonly_set, ?Hro, ?elem_of_union, <-?system_in_set.
  - rewrite bool_decide_eq_true.
    assert (lower_set [SCRATCH_SCHEMA] = {[SCRATCH_SCHEMA]}) as -> by done.
    assert ("*" ≠ SCRATCH_SCHEMA) by done.
    rewrite list_elem_of_singleton, elem_of_singleton. split; [naive_solver|]. intros Heq.
    assert (is_system_schema s = false) as ->.
    { by rewrite <-is_system_schema_lower, Heq. }
    split_and!; [done|naive_solver|set_solver|by right].
  - set_solver.
  - set_solver.
  - set_solver.
Qed.

(** A present policy whose read-write list is empty denies [scratch], yet the
    local untrusted connector still writes it: the resolver falls back to
    [scratch] when no granted schema survives, so the policy is not strictly
    enforced there. *)
Theorem untrusted_scratch_exceeds_policy p :
  readwrite_schemas p = Some [] → ¬ vetoed p SCRATCH_SCHEMA →
  policy_is_schema_writable p SCRATCH_SCHEMA = false ∧
  is_schema_writable (for_untrusted_connector (E := E) (Ok (Some p))) SCRATCH_SCHEMA = true.
Proof.
  intros Hrw Hv. split.
  - apply not_true_iff_false. rewrite policy_writable_spec. unfold granted. rewrite Hrw.
    set_solver.
  - apply sp_writable_spec. rewrite not_vetoed in Hv. unfold for_untrusted_connector. simpl.
    unfold allowed_readwrite. rewrite Hrw. simpl.
    split_and!; [done| |apply Hv|right; by apply elem_of_lower_set; exists SCRATCH_SCHEMA; set_solver].
    intros Hin. by apply (connector_readonly p SCRATCH_SCHEMA) in Hin; apply Hv in Hin.
Qed.
End Connectors.

(** *** Read-modify-write *)

Section Cas.
Context {S V : Type} `{!ObjectStore S V, !ObjectStoreLaws S V} `{!Codec CatalogPolicy}.

(** The policy the store holds. *)
Definition stored_policy (st : S) : option CatalogPolicy :=
  os_objs st CATALOG_POLICY_FILE ≫= fun x => from_bytes x.1.

Section Env.
(** Between the read and the write of an iteration other clients operate on the
    store, and the store supports conditional writes. *)
Context (env : nat → S → S) (Henv : ∀ n s, rtc os_step s (env n s)).
Context (Hcas : ∀ s b m s', os_put s CATALOG_POLICY_FILE b m ≠ (s', Err NotImplemented)).
Context (seed : CatalogPolicy) (mutate : CatalogPolicy → CatalogPolicy).

Lemma write_policy_cas_inv st p m st' b :
  write_policy_cas st p m = (st', Ok b) →
  rtc os_step st st' ∧
  (b = true → ∃ v, os_put st CATALOG_POLICY_FILE (to_bytes p) m = (st', Ok v)).
Proof.
  unfold write_policy_cas. destruct (os_put st _ _ m) as [s1 [v|e]] eqn:Hput.
  - intros [= -> <-]. split; [|eauto]. apply rtc_once. by econstructor.
  - assert (rtc os_step st s1) by (apply rtc_once; by econstructor).
    destruct e; intros [= -> <-] || intros [=]; try done. by apply Hcas in Hput.
Qed.

(** A conditional write that succeeds hits the very policy that was read. *)
Lemma update_read_current st st1 p m st' v b :
  update_read seed st = Ok (p, m) → rtc os_step st st1 →
  os_put st1 CATALOG_POLICY_FILE b m = (st', Ok v) →
  p = default seed (stored_policy st1).
Proof.
  unfold update_read, read_policy_with_version, stored_policy.
  intros Hr Hst Hput. apply os_put_ok in Hput as [_ Hm].
  destruct (os_get st _) as [[b0 v0]|e] eqn:Hget; simpl in Hr.
  - apply os_get_ok in Hget. destruct (from_bytes b0) as [p0|] eqn:Hb; simplify_eq/=.
    destruct Hm as [b1 Hb1]. rewrite Hb1. simpl.
    by rewrite <-(os_version_content _ _ _ _ _ _ Hst Hget Hb1), Hb.
  - destruct e; simplify_eq/=. by rewrite Hm.
Qed.

Lemma update_policy_loop_linearizes fuel st st' p :
  update_policy_loop fuel env seed mutate st = (st', Ok p) →
  ∃ st1, rtc os_step st st1 ∧ p = mutate (default seed (stored_policy st1)) ∧
    stored_policy st' = Some p ∧
    ∀ q, q ≠ CATALOG_POLICY_FILE → os_objs st' q = os_objs st1 q.
Proof.
  revert st. induction fuel as [|n IH]; intros st; [done|]. simpl.
  destruct (update_read seed st) as [[p0 m]|] eqn:Hr; [|done].
  destruct (write_policy_cas _ _ _) as [st2 [[]|]] eqn:Hw; [| |done].
  - intros [= <- <-]. apply write_policy_cas_inv in Hw as [_ Hw].
    destruct Hw as [v Hput]; [done|].
    exists (env n st). split_and!.
    + apply Henv.
    + f_equal. by eapply update_read_current.
    + apply os_put_ok in Hput as [[Ho _] _]. unfold stored_policy. rewrite Ho. simpl.
      apply from_to_bytes.
    + intros q Hq. by eapply os_put_other.
  - apply write_policy_cas_inv in Hw as [Hst _].
    intros (st1 & H1 & H2)%IH. exists st1. split; [|done].
    etrans; [apply (Henv n)|]. by etrans.
Qed.
End Env.

(** C21: On a store that implements conditional puts of the policy object, a policy
    update that reports success has applied its change to the policy that was current at
    the instant of the write, whatever other writers did in between: no concurrent update
    is lost, and the stored policy afterwards is the returned one.  (Where conditional
    puts are not implemented the policy is overwritten: [overwrite_loses_update].) *)
Theorem update_policy_no_lost_update env seed mutate (st st' : S) p :
  (∀ n s, rtc os_step s (env n s)) →
  (∀ s b m s', os_put s CATALOG_POLICY_FILE b m ≠ (s', Err NotImplemented)) →
  update_policy env seed mutate st = (st', Ok p) →
  ∃ st1, rtc os_step st st1 ∧ p = mutate (default seed (stored_policy st1)) ∧
    stored_policy st' = Some p ∧
    ∀ q, q ≠ CATALOG_POLICY_FILE → os_objs st' q = os_objs st1 q.
Proof. intros Henv Hcas. by apply update_policy_loop_linearizes. Qed.

(** The write of a lost race leaves the store as the winner left it. *)
Lemma write_policy_cas_false st p m st' :
  write_policy_cas st p m = (st', Ok false) → os_same st st'.
Proof.
  unfold write_policy_cas. destruct (os_put st _ _ m) as [s1 [v|e]] eqn:Hput; [done|].
  apply os_put_err in Hput. destruct e; try done; intros H; simplify_eq/=; [naive_solver..|].
  by destruct (os_put _ _ _ Overwrite) as [? []].
Qed.

End Cas.

(** ** Witnesses *)

Import MemStore.

Definition policy_codec : Codec CatalogPolicy := countable_codec.

Definition demo_policy : CatalogPolicy :=
  Build_CatalogPolicy None (Some "1.0") (Some ["Sales"; "scratch"]) (Some ["HR"])
    (Some ["archive"]) None None None.

Lemma set_schema_access_spec_witness :
  policy_is_schema_writable (set_schema_access demo_policy " hr " false) "HR" = true ∧
  policy_is_schema_writable (set_schema_access demo_policy " hr " false) "sales" = true.
Proof.
  split.
  - rewrite (set_schema_access_spec demo_policy " hr " false "HR"); vm_compute; done.
  - rewrite (set_schema_access_spec demo_policy " hr " false "sales"); vm_compute; done.
Defined.

Lemma server_connector_refines_policy_witness :
  is_schema_writable (for_server_connector (E := unit) (Ok (Some demo_policy))) "SALES" = true.
Proof.
  apply (server_connector_refines_policy demo_policy "SALES").
  - apply (bool_decide_unpack _). vm_compute. done.
  - split; [vm_compute; reflexivity|]. vm_compute. discriminate.
Defined.

Lemma untrusted_connector_within_policy_witness :
  policy_is_schema_writable demo_policy "sales" = true.
Proof.
  apply (untrusted_connector_within_policy (E := unit) demo_policy "sales").
  - vm_compute. reflexivity.
  - vm_compute. discriminate.
Defined.

Lemma no_policy_fails_closed_witness :
  is_schema_writable (for_server_connector (E := unit) (Err ())) "sales" = false.
Proof. apply (no_policy_fails_closed (E := unit) (Err ()) "sales"). reflexivity. Defined.

Definition empty_grant : CatalogPolicy :=
  Build_CatalogPolicy None None (Some []) None None None None None.

Lemma untrusted_scratch_exceeds_policy_witness :
  policy_is_schema_writable empty_grant SCRATCH_SCHEMA = false ∧
  is_schema_writable (for_untrusted_connector (E := unit) (Ok (Some empty_grant))) SCRATCH_SCHEMA = true.
Proof.
  apply untrusted_scratch_exceeds_policy; [reflexivity|].
  rewrite not_vetoed. split; apply (bool_decide_unpack _); vm_compute; done.
Defined.

(** Another administrator locks the catalog down while an update is in flight:
    the first write loses the race, the retry applies to the new policy. *)
Definition demo_env (n : nat) (s : gmap string bytes) : gmap string bytes :=
  match n with
  | 7 => <[CATALOG_POLICY_FILE := to_bytes (Codec := policy_codec) (lock_all_read_only demo_policy)]> s
  | _ => s
  end.

Definition demo_store : gmap string bytes :=
  {[CATALOG_POLICY_FILE := to_bytes (Codec := policy_codec) demo_policy]}.

Definition demo_update : gmap string bytes * result policy_error CatalogPolicy :=
  update_policy (Codec0 := policy_codec) demo_env CatalogPolicy_default
    (fun p => set_schema_access p "hr" false) demo_store.

Definition demo_updated : CatalogPolicy :=
  set_schema_access (lock_all_read_only demo_policy) "hr" false.

(** On a store without conditional updates the lockdown of the other administrator is lost. *)
Theorem overwrite_loses_update :
  let r := update_policy (ObjectStore0 := local_store) (Codec0 := policy_codec) demo_env CatalogPolicy_default
    (fun p => set_schema_access p "hr" false) demo_store in
  r.2 = Ok (set_schema_access demo_policy "hr" false)
  ∧ stored_policy (Codec0 := policy_codec) (demo_env 7 demo_store) = Some (lock_all_read_only demo_policy)
  ∧ stored_policy (Codec0 := policy_codec) r.1 = Some (set_schema_access demo_policy "hr" false).
Proof. vm_compute. done. Qed.

Lemma demo_update_ok : demo_update.2 = Ok demo_updated.
Proof. vm_compute. reflexivity. Qed.

Lemma update_policy_no_lost_update_witness :
  ∃ st1, rtc os_step demo_store st1 ∧
    demo_updated = set_schema_access (default CatalogPolicy_default
      (stored_policy (Codec0 := policy_codec) st1)) "hr" false ∧
    stored_policy (Codec0 := policy_codec) demo_update.1 = Some demo_updated ∧
    ∀ q, q ≠ CATALOG_POLICY_FILE → os_objs demo_update.1 q = os_objs st1 q.
Proof.
  apply (@update_policy_no_lost_update _ _ _ mem_store_laws policy_codec demo_env
    CatalogPolicy_default (fun p => set_schema_access p "hr" false) demo_store).
  - intros n s. destruct (decide (n = 7)) as [->|Hn].
    + apply rtc_once. eapply (os_step_put _ _ _ Overwrite). reflexivity.
    + by do 8 (destruct n as [|n]; [reflexivity || done|]).
  - intros s b m s'. simpl. unfold mem_put. destruct m; repeat case_match; congruence.
  - exact (eq_trans (surjective_pairing demo_update) (f_equal (pair demo_update.1) demo_update_ok)).
Defined.
