(* ===== verification/Wal.v ===== *)
(** * The write-ahead log ([src/src/core/wal.rs])

    The background worker that appends batches to Arrow IPC segments, groups
    fsyncs and answers the callers; replay, truncation and compaction of the log
    directory.  The file system is explicit: a directory of names over inodes (an
    unlinked file stays writable through an open writer), and per file the prefix
    that an fsync has made durable.  Every iteration of the worker takes the
    outcomes of its system calls from an [io] record. *)

From S2P Require Import Prelude.

(** ** Data *)

(** An Arrow field; the data type by its name. *)
Record Field := {
  fd_name : string;
  fd_type : string;
  fd_nullable : bool;
}.
#[export] Instance Field_eq_dec : EqDecision Field.
Proof. solve_decision. Defined.

Record Schema := {
  sc_fields : list Field;
  sc_metadata : gmap string string;
}.
#[export] Instance Schema_eq_dec : EqDecision Schema.
Proof. solve_decision. Defined.

Record RecordBatch (Row : Type) := {
  rb_schema : Schema;
  rb_rows : list Row;
}.
Arguments rb_schema {Row}.
Arguments rb_rows {Row}.

Record WalConfig := {
  compact_threshold_mb : Z;
  sync_batch_size : nat;
  sync_interval_ms : Z;
}.

Definition WalConfig_default : WalConfig :=
  {| compact_threshold_mb := 1024; sync_batch_size := 10; sync_interval_ms := 100 |}.

(** [WalConfig::from_env]; [var] reads an environment variable. *)
Definition WalConfig_from_env (var : string → option string) : WalConfig :=
  {| compact_threshold_mb := default 1024%Z (var "BSDB_WAL_COMPACT_MB" ≫= parse_u64);
     sync_batch_size :=
       Z.to_nat (default 10%Z (var "BSDB_WAL_SYNC_BATCH_SIZE" ≫= parse_u64));
     sync_interval_ms := default 100%Z (var "BSDB_WAL_SYNC_INTERVAL_MS" ≫= parse_u64) |}.

(** ** Transaction tags *)

Section Tags.
Context {Row Uuid : Type} (uuid_to_string : Uuid → string) (uuid_parse : string → option Uuid).

Record WalRecordHeader := {
  wh_tx_id : Uuid;
  wh_sequence_number : Z;
}.

Definition tag_batch_with_wal_tx (batch : RecordBatch Row) (tx_id : Uuid) (seq : Z) :
    RecordBatch Row :=
  let metadata := sc_metadata (rb_schema batch) in
  let metadata := <["benostream:tx_id" := uuid_to_string tx_id]> metadata in
  let metadata := <["benostream:seq" := u64_to_string seq]> metadata in
  {| rb_schema := {| sc_fields := sc_fields (rb_schema batch); sc_metadata := metadata |};
     rb_rows := rb_rows batch |}.

Definition extract_wal_tx (batch : RecordBatch Row) : option WalRecordHeader :=
  let meta := sc_metadata (rb_schema batch) in
  tx_id_str ← meta !! "benostream:tx_id";
  seq_str ← meta !! "benostream:seq";
  tx_id ← uuid_parse tx_id_str;
  sequence_number ← parse_u64 seq_str;
  Some {| wh_tx_id := tx_id; wh_sequence_number := sequence_number |}.
End Tags.
Arguments WalRecordHeader : clear implicits.

(** ** File system *)

Section Wal.
Context {Row : Type}.
Abbreviation batch := (RecordBatch Row).

Record wal_file := {
  (** the file is not empty: at least the stream header has been written *)
  f_header : bool;
  (** the byte stream is a well-formed IPC stream *)
  f_wellformed : bool;
  f_batches : list batch;
  (** number of leading batches that survive a crash *)
  f_synced : nat;
}.

Record wal_fs := {
  fs_dir : gmap string nat;
  fs_inodes : gmap nat wal_file;
}.

Definition empty_file : wal_file :=
  {| f_header := false; f_wellformed := true; f_batches := []; f_synced := 0 |}.

Definition set_file (fs : wal_fs) (ino : nat) (f : wal_file) : wal_fs :=
  {| fs_dir := fs_dir fs; fs_inodes := <[ino := f]> (fs_inodes fs) |}.
Definition upd_file (fs : wal_fs) (ino : nat) (g : wal_file → wal_file) : wal_fs :=
  {| fs_dir := fs_dir fs; fs_inodes := alter g ino (fs_inodes fs) |}.

(** [OpenOptions::new().create(true).append(true).open(path)] *)
Definition fs_open (fs : wal_fs) (path : string) : wal_fs * nat :=
  match fs_dir fs !! path with
  | Some ino => (fs, ino)
  | None =>
      let ino := fresh (dom (fs_inodes fs)) in
      ({| fs_dir := <[path := ino]> (fs_dir fs);
          fs_inodes := <[ino := empty_file]> (fs_inodes fs) |}, ino)
  end.

(** [StreamWriter::try_new] writes a stream header; a second header inside a
    file breaks the stream. *)
Definition f_write_header (f : wal_file) : wal_file :=
  {| f_header := true; f_wellformed := f_wellformed f && negb (f_header f);
     f_batches := f_batches f; f_synced := f_synced f |}.
Definition f_append (b : batch) (f : wal_file) : wal_file :=
  {| f_header := f_header f; f_wellformed := f_wellformed f;
     f_batches := f_batches f ++ [b]; f_synced := f_synced f |}.
Definition f_sync (f : wal_file) : wal_file :=
  {| f_header := f_header f; f_wellformed := f_wellformed f;
     f_batches := f_batches f; f_synced := length (f_batches f) |}.
(** a failed write may leave part of a header or record behind *)
Definition f_tear (f : wal_file) : wal_file :=
  {| f_header := true; f_wellformed := false;
     f_batches := f_batches f; f_synced := f_synced f |}.

(** [format!("{:0w$}", n)]: zero-padded to at least [w] digits. *)
Definition pad (w : nat) (n : Z) : string :=
  let s := u64_to_string n in
  String.string_of_list_ascii (replicate (w - String.length s) (Ascii.ascii_of_N 48)) +:+ s.

Definition log_name (ts counter : Z) : string :=
  "log_" +:+ pad 20 ts +:+ "_" +:+ pad 8 counter +:+ ".arrow".

(** ** Worker *)

(** The outcomes of one iteration's system calls. *)
Record io := {
  io_ts : Z;             (* SystemTime::now, nanoseconds *)
  io_old_sync : bool;    (* sync_data of the segment being rotated out *)
  io_open : bool;        (* opening the new segment *)
  io_create : bool;      (* StreamWriter::try_new *)
  io_write : bool;       (* writer.write(&batch) *)
  io_torn : bool;        (* a failed write left a partial record *)
  io_sync_data : bool;
  io_sync_all : bool;
}.

(** A reply channel is identified by the request it answers. *)
Record reply := {
  rp_id : nat;
  rp_batch : option batch;
}.

Record worker := {
  wk_fs : wal_fs;
  wk_writer : option nat;
  wk_schema : option Schema;
  wk_counter : Z;
  wk_pending : list reply;
  wk_batch_count : nat;
  wk_replies : list (reply * bool);
}.

Definition wk_with_fs (w : worker) (fs : wal_fs) : worker :=
  {| wk_fs := fs; wk_writer := wk_writer w; wk_schema := wk_schema w;
     wk_counter := wk_counter w; wk_pending := wk_pending w;
     wk_batch_count := wk_batch_count w; wk_replies := wk_replies w |}.

(** [reply_tx.send(..)] *)
Definition send_reply (w : worker) (r : reply) (ok : bool) : worker :=
  {| wk_fs := wk_fs w; wk_writer := wk_writer w; wk_schema := wk_schema w;
     wk_counter := wk_counter w; wk_pending := wk_pending w;
     wk_batch_count := wk_batch_count w; wk_replies := wk_replies w ++ [(r, ok)] |}.

(** [for tx in pending_syncs.drain(..) { tx.send(..) }] *)
Definition drain_pending (w : worker) (ok : bool) : worker :=
  {| wk_fs := wk_fs w; wk_writer := wk_writer w; wk_schema := wk_schema w;
     wk_counter := wk_counter w; wk_pending := [];
     wk_batch_count := wk_batch_count w;
     wk_replies := wk_replies w ++ ((fun r => (r, ok)) <$> wk_pending w) |}.

Definition set_batch_count (w : worker) (n : nat) : worker :=
  {| wk_fs := wk_fs w; wk_writer := wk_writer w; wk_schema := wk_schema w;
     wk_counter := wk_counter w; wk_pending := wk_pending w;
     wk_batch_count := n; wk_replies := wk_replies w |}.

Definition push_pending (w : worker) (r : reply) : worker :=
  {| wk_fs := wk_fs w; wk_writer := wk_writer w; wk_schema := wk_schema w;
     wk_counter := wk_counter w; wk_pending := wk_pending w ++ [r];
     wk_batch_count := wk_batch_count w; wk_replies := wk_replies w |}.

(** [sync_wal]: fdatasync, falling back to fsync; an error only if both fail. *)
Definition sync_wal (o : io) (w : worker) (ino : nat) : worker * bool :=
  if io_sync_data o then (wk_with_fs w (upd_file (wk_fs w) ino f_sync), true)
  else if io_sync_all o then (wk_with_fs w (upd_file (wk_fs w) ino f_sync), true)
  else (w, false).

(** [writer_opt.as_mut().map(sync_wal).unwrap_or(Ok(()))] *)
Definition sync_current (o : io) (w : worker) : worker * bool :=
  match wk_writer w with Some ino => sync_wal o w ino | None => (w, true) end.

Definition schema_changed (w : worker) (b : batch) : bool :=
  match wk_schema w with
  | None => true
  | Some curr => negb (bool_decide (curr = rb_schema b))
  end.

(** The rotation block: on a schema change, or without a writer, sync the old
    segment ignoring the outcome and open a new one. *)
Definition ensure_segment (o : io) (w : worker) (b : batch) : worker * bool :=
  if schema_changed w b || bool_decide (wk_writer w = None) then
    let fs := match wk_writer w with
              | Some old => if io_old_sync o then upd_file (wk_fs w) old f_sync else wk_fs w
              | None => wk_fs w
              end in
    let target_path := log_name (io_ts o) (wk_counter w) in
    let mk fs writer schema :=
      {| wk_fs := fs; wk_writer := writer; wk_schema := schema;
         wk_counter := wk_counter w + 1; wk_pending := wk_pending w;
         wk_batch_count := wk_batch_count w; wk_replies := wk_replies w |} in
    if negb (io_open o) then (mk fs None (wk_schema w), false) else
    let '(fs, ino) := fs_open fs target_path in
    if negb (io_create o) then
      (mk (if io_torn o then upd_file fs ino f_tear else fs) None (wk_schema w), false) else
    (mk (upd_file fs ino f_write_header) (Some ino) (Some (rb_schema b)), true)
  else (w, true).

Definition write_batch (o : io) (w : worker) (ino : nat) (b : batch) : worker * bool :=
  if io_write o then (wk_with_fs w (upd_file (wk_fs w) ino (f_append b)), true)
  else (wk_with_fs w (if io_torn o then upd_file (wk_fs w) ino f_tear else wk_fs w), false).

(** [LogOp::Append] *)
Definition handle_append (cfg : WalConfig) (o : io) (w : worker) (b : batch) (r : reply) : worker :=
  let '(w, ok) := ensure_segment o w b in
  if negb ok then send_reply w r false else
  match wk_writer w with
  | None => w
  | Some ino =>
      let '(w, ok) := write_batch o w ino b in
      if negb ok then send_reply w r false else
      let w := set_batch_count (push_pending w r) (wk_batch_count w + 1) in
      if decide (sync_batch_size cfg ≤ wk_batch_count w) then
        let '(w, ok) := sync_wal o w ino in
        set_batch_count (drain_pending w ok) 0
      else w
  end.

(** [LogOp::AppendSync] *)
Definition handle_append_sync (o : io) (w : worker) (b : batch) (r : reply) : worker :=
  let '(w, ok) := ensure_segment o w b in
  if negb ok then send_reply w r false else
  match wk_writer w with
  | None => w
  | Some ino =>
      let '(w, ok) := write_batch o w ino b in
      if negb ok then send_reply w r false else
      let '(w, ok) := sync_wal o w ino in
      set_batch_count (drain_pending (send_reply w r ok) ok) 0
  end.

(** [LogOp::Flush] *)
Definition handle_flush (o : io) (w : worker) (r : reply) : worker :=
  let '(w, ok) := sync_current o w in
  set_batch_count (send_reply (drain_pending w ok) r ok) 0.

(** The periodic sync. *)
Definition handle_timeout (o : io) (w : worker) : worker :=
  match wk_pending w with
  | [] => w
  | _ => let '(w, ok) := sync_current o w in set_batch_count (drain_pending w ok) 0
  end.

Inductive LogOp :=
| Append (b : batch) (id : nat)
| AppendSync (b : batch) (id : nat)
| Flush (id : nat).

(** One turn of the worker's [select!]: a message, or the timeout. *)
Definition worker_turn (cfg : WalConfig) (w : worker) (e : io * option LogOp) : worker :=
  match e.2 with
  | Some (Append b id) => handle_append cfg e.1 w b {| rp_id := id; rp_batch := Some b |}
  | Some (AppendSync b id) => handle_append_sync e.1 w b {| rp_id := id; rp_batch := Some b |}
  | Some (Flush id) => handle_flush e.1 w {| rp_id := id; rp_batch := None |}
  | None => handle_timeout e.1 w
  end.

Definition worker_run (cfg : WalConfig) (w : worker) (es : list (io * option LogOp)) : worker :=
  foldl (worker_turn cfg) w es.

(** The drain loop after the channel closed: results of open and write are
    dropped and every append is answered [Ok]. *)
Definition drain_op (w : worker) (e : io * LogOp) : worker :=
  match e.2 with
  | Append b id | AppendSync b id =>
      let '(w, ok) := ensure_segment e.1 w b in
      let w := match wk_writer w with
               | Some ino => (write_batch e.1 w ino b).1
               | None => w
               end in
      send_reply w {| rp_id := id; rp_batch := Some b |} true
  | Flush id =>
      let '(w, ok) := sync_current e.1 w in
      send_reply w {| rp_id := id; rp_batch := None |} ok
  end.

(** Shutdown: drain what is still queued, finish the stream, final fsync. *)
Definition worker_close (o : io) (w : worker) (queued : list (io * LogOp)) : worker :=
  let w := foldl drain_op w queued in
  match wk_writer w with
  | Some ino => if io_sync_all o then wk_with_fs w (upd_file (wk_fs w) ino f_sync) else w
  | None => w
  end.

Definition worker_init (fs : wal_fs) : worker :=
  {| wk_fs := fs; wk_writer := None; wk_schema := None; wk_counter := 0;
     wk_pending := []; wk_batch_count := 0; wk_replies := [] |}.

(** ** Directory operations *)

(** [path.extension() == Some("arrow")] on a file name. *)
Definition is_arrow (name : string) : bool :=
  let l := String.length name in
  bool_decide (6 < l) && bool_decide (String.substring (l - 6) 6 name = ".arrow").

Inductive wal_error := CorruptSegment | ConcatFailed.

(** The [.arrow] names of the directory in ascending order. *)
Definition arrow_names (fs : wal_fs) : list string :=
  merge_sort String.le (filter (fun n => is_arrow n = true) (elements (dom (fs_dir fs)))).

Definition file_at (fs : wal_fs) (name : string) : option wal_file :=
  ino ← fs_dir fs !! name; fs_inodes fs !! ino.

(** Reading one segment: a vanished or empty file is skipped, a broken stream is an
    error. *)
Definition read_segment (fs : wal_fs) (name : string) : result wal_error (list batch) :=
  match file_at fs name with
  | None => Ok []
  | Some f => if negb (f_header f) then Ok []
              else if f_wellformed f then Ok (f_batches f) else Err CorruptSegment
  end.

Fixpoint read_segments (fs : wal_fs) (names : list string) : result wal_error (list batch) :=
  match names with
  | [] => Ok []
  | n :: names => bs ← read_segment fs n; rest ← read_segments fs names; Ok (bs ++ rest)
  end.

Definition replay_stream (fs : wal_fs) : result wal_error (list batch) :=
  read_segments fs (arrow_names fs).

(** [replay]: the batches, and the segment paths for cleanup. *)
Definition replay (fs : wal_fs) : result wal_error (list batch * list string) :=
  bs ← replay_stream fs;
  Ok (bs, filter (fun n => is_arrow n = true) (elements (dom (fs_dir fs)))).

Definition remove_names (fs : wal_fs) (names : list string) : wal_fs :=
  {| fs_dir := foldr delete (fs_dir fs) names; fs_inodes := fs_inodes fs |}.

(** [truncate]: unlink every segment ([remove_file] errors are ignored; [kept] are
    the names whose removal failed). *)
Definition truncate (fs : wal_fs) (kept : gset string) : wal_fs :=
  remove_names fs (filter (fun n => n ∉ kept) (arrow_names fs)).

(** [cleanup_files] *)
Definition cleanup_files (fs : wal_fs) (paths : list string) : wal_fs := remove_names fs paths.

(** [should_compact]; [size] is the byte length of a file. *)
Definition should_compact (cfg : WalConfig) (size : wal_file → Z) (fs : wal_fs) : bool :=
  let total_bytes :=
    foldr Z.add 0%Z ((fun n => match file_at fs n with Some f => size f | None => 0%Z end)
                       <$> arrow_names fs) in
  let threshold_bytes := wrap_u64 (compact_threshold_mb cfg * 1024 * 1024) in
  bool_decide (threshold_bytes < total_bytes)%Z.

Section Compact.
(** [arrow::compute::concat_batches] *)
Context (concat_batches : Schema → list batch → option batch).

(** [compact] into the log file [self_path]: one consolidated segment replaces all
    others.  The temporary file is renamed without an fsync. *)
Definition compact (fs : wal_fs) (self_path : string) : result wal_error wal_fs :=
  rp ← replay fs;
  match rp.1 with
  | [] | [_] => Ok fs
  | b0 :: _ =>
      consolidated ← ok_or (concat_batches (rb_schema b0) rp.1) ConcatFailed;
      let ino := fresh (dom (fs_inodes fs)) in
      let fs1 := {| fs_dir := <[self_path := ino]> (fs_dir fs);
                    fs_inodes := <[ino := {| f_header := true; f_wellformed := true;
                                             f_batches := [consolidated]; f_synced := 0 |}]>
                                   (fs_inodes fs) |} in
      Ok (remove_names fs1 (filter (fun n => n ≠ self_path) (arrow_names fs1)))
  end.
End Compact.

End Wal.
Arguments wal_file : clear implicits.
Arguments wal_fs : clear implicits.
Arguments worker : clear implicits.
Arguments reply : clear implicits.
Arguments LogOp : clear implicits.

(** ** Tags round trip *)

Lemma extract_tag {Row Uuid} (to_string : Uuid → string) (parse : string → option Uuid)
    (b : RecordBatch Row) tx seq :
  parse (to_string tx) = Some tx → is_u64 seq →
  extract_wal_tx parse (tag_batch_with_wal_tx to_string b tx seq) =
    Some {| wh_tx_id := tx; wh_sequence_number := seq |}.
Proof.
  intros Hp Hs. unfold extract_wal_tx, tag_batch_with_wal_tx. simpl.
  rewrite (lookup_insert_ne _ "benostream:seq" "benostream:tx_id"), lookup_insert_eq by done.
  simpl. rewrite lookup_insert_eq. simpl.
  by rewrite Hp, parse_u64_to_string.
Qed.

(** The transaction id and sequence number written into a batch by
    [tag_batch_with_wal_tx] are the ones [extract_wal_tx] reads back, and tagging
    leaves rows and fields alone. *)
Theorem wal_tag_roundtrip {Row Uuid} (to_string : Uuid → string) (parse : string → option Uuid)
    (b : RecordBatch Row) tx seq :
  (∀ u, parse (to_string u) = Some u) → is_u64 seq →
  extract_wal_tx parse (tag_batch_with_wal_tx to_string b tx seq) =
    Some {| wh_tx_id := tx; wh_sequence_number := seq |} ∧
  rb_rows (tag_batch_with_wal_tx to_string b tx seq) = rb_rows b ∧
  sc_fields (rb_schema (tag_batch_with_wal_tx to_string b tx seq)) = sc_fields (rb_schema b).
Proof.
  intros Hp Hs. split; [by apply extract_tag|done].
Qed.

(** ** Segment names *)

Lemma pad_digits w n : all_digits (pad w n) = true.
Proof.
  unfold pad. generalize (w - String.length (u64_to_string n)). intros k.
  induction k as [|k IH]; [apply all_digits_u64|exact IH].
Qed.

Lemma parse_digits_pad w n : (0 ≤ n)%Z → parse_digits 0 (pad w n) = Some n.
Proof.
  intros Hn. unfold pad. generalize (w - String.length (u64_to_string n)). intros k.
  induction k as [|k IH]; [by apply parse_digits_u64|exact IH].
Qed.

Lemma digits_split a a' x x' :
  all_digits a = true → all_digits a' = true → a +:+ "_" +:+ x = a' +:+ "_" +:+ x' →
  a = a' ∧ x = x'.
Proof.
  revert a'. induction a as [|c a IH]; intros [|c' a'] Ha Ha' Heq; simplify_eq/=; [done|].
  rewrite andb_true_iff in Ha, Ha'. destruct Ha as [_ Ha], Ha' as [_ Ha'].
  by destruct (IH a' Ha Ha') as [-> ->].
Qed.

Lemma log_name_inj ts c ts' c' :
  (0 ≤ c)%Z → (0 ≤ c')%Z → log_name ts c = log_name ts' c' → c = c'.
Proof.
  unfold log_name. intros Hc Hc' Heq. simplify_eq/=.
  apply digits_split in Heq as [_ Heq]; [|apply pad_digits..].
  apply app_suffix_inj in Heq.
  pose proof (parse_digits_pad 8 c Hc). pose proof (parse_digits_pad 8 c' Hc').
  congruence.
Qed.

Lemma substring_suffix s t n :
  String.substring (String.length s) n (s +:+ t) = String.substring 0 n t.
Proof. by induction s. Qed.

Lemma is_arrow_suffix s : 0 < String.length s → is_arrow (s +:+ ".arrow") = true.
Proof.
  intros Hs. unfold is_arrow. rewrite length_string_app. simpl.
  replace (String.length s + 6 - 6) with (String.length s) by lia.
  rewrite substring_suffix, bool_decide_true by lia. done.
Qed.

Lemma log_name_arrow ts c : is_arrow (log_name ts c) = true.
Proof.
  change (log_name ts c) with ("log_" +:+ (pad 20 ts +:+ ("_" +:+ (pad 8 c +:+ ".arrow")))).
  rewrite !string_app_assoc. apply is_arrow_suffix. simpl. lia.
Qed.

(** ** Durability of acknowledged appends *)

Section Durability.
Context {Row : Type}.
Abbreviation batch := (RecordBatch Row).
Abbreviation fs := (wal_fs Row).

(** [f'] keeps everything [f] promised. *)
Definition file_le (f f' : wal_file Row) : Prop :=
  (f_header f = true → f_header f' = true ∧ (f_wellformed f = true → f_wellformed f' = true)) ∧
  f_batches f `prefix_of` f_batches f' ∧
  ∀ b, b ∈ take (f_synced f) (f_batches f) → b ∈ take (f_synced f') (f_batches f').

#[local] Instance file_le_refl : Reflexive file_le.
Proof. intros f. by split_and!. Qed.

Lemma file_le_append b f : file_le f (f_append b f).
Proof.
  split_and!; simpl; [done|by apply prefix_app_r|]. intros x Hx.
  rewrite take_app. set_solver.
Qed.

Lemma file_le_sync f : file_le f (f_sync f).
Proof.
  split_and!; simpl; [done|done|]. intros x Hx. rewrite take_ge by done.
  by apply elem_of_take in Hx as (i & Hx%list_elem_of_lookup_2 & _).
Qed.

Lemma file_le_header f : f_header f = false → file_le f (f_write_header f).
Proof. intros H. split_and!; simpl; [by rewrite H|done..]. Qed.

Lemma upd_file_at (s : fs) ino g n f' :
  file_at (upd_file s ino g) n = Some f' ↔
  ∃ f, file_at s n = Some f ∧ f' = (if decide (fs_dir s !! n = Some ino) then g f else f).
Proof.
  unfold file_at, upd_file. simpl. destruct (fs_dir s !! n) as [i|]; simpl; [|naive_solver].
  rewrite lookup_alter. destruct (decide (ino = i)) as [->|Hne].
  - destruct (decide (Some i = Some i)); [|done]. rewrite fmap_Some. naive_solver.
  - destruct (decide (Some i = Some ino)); [congruence|]. naive_solver.
Qed.

(** A batch under a listed name inside a readable segment ([synced_only]: inside
    its durable prefix). *)
Definition stored (synced_only : bool) (s : fs) (b : batch) : Prop :=
  ∃ n f, file_at s n = Some f ∧ is_arrow n = true ∧ f_header f = true ∧ f_wellformed f = true ∧
    b ∈ (if synced_only then take (f_synced f) (f_batches f) else f_batches f).
Abbreviation durable := (stored true).

(** [s'] extends [s]: every file is still there and kept its promises. *)
Definition fs_le (s s' : fs) : Prop :=
  ∀ n f, file_at s n = Some f → ∃ f', file_at s' n = Some f' ∧ file_le f f'.

#[local] Instance fs_le_refl : Reflexive fs_le.
Proof. intros s n f Hf. by exists f. Qed.

Lemma fs_le_durable s s' b : fs_le s s' → durable s b → durable s' b.
Proof.
  intros Hle (n & f & Hf & Hn & Hh & Hw & Hb). destruct (Hle n f Hf) as (f' & Hf' & H1 & _ & H2).
  exists n, f'. naive_solver.
Qed.

Lemma fs_le_upd (s : fs) ino g :
  (∀ n f, file_at s n = Some f → file_le f (g f)) → fs_le s (upd_file s ino g).
Proof.
  intros Hg n f Hf. exists (if decide (fs_dir s !! n = Some ino) then g f else f).
  split; [apply upd_file_at; eauto|]. case_decide; [by eapply Hg|done].
Qed.

(** The batch is in the segment the worker is writing. *)
Definition in_current (w : worker Row) (b : batch) : Prop :=
  ∃ ino n f, wk_writer w = Some ino ∧ fs_dir (wk_fs w) !! n = Some ino ∧ is_arrow n = true ∧
    fs_inodes (wk_fs w) !! ino = Some f ∧ f_header f = true ∧ f_wellformed f = true ∧
    b ∈ f_batches f.

Lemma in_current_sync w ino b :
  wk_writer w = Some ino → in_current w b → durable (upd_file (wk_fs w) ino f_sync) b.
Proof.
  intros Hw (i & n & f & Hi & Hn & Ha & Hf & Hh & Hwf & Hb). simplify_eq.
  exists n, (f_sync f). split; [|simpl; rewrite take_ge by done; auto].
  apply upd_file_at. exists f. rewrite decide_True by done.
  split; [|done]. unfold file_at. by rewrite Hn.
Qed.

(** *** The invariant *)

Record worker_inv (dir0 : gset string) (w : worker Row) : Prop := {
  wi_linked n ino : fs_dir (wk_fs w) !! n = Some ino → is_Some (fs_inodes (wk_fs w) !! ino);
  wi_file n f : file_at (wk_fs w) n = Some f →
    f_wellformed f = true ∧ f_synced f ≤ length (f_batches f);
  wi_names n : n ∈ dom (fs_dir (wk_fs w)) →
    n ∈ dir0 ∨ ∃ ts c, n = log_name ts c ∧ (0 ≤ c < wk_counter w)%Z;
  wi_counter : (0 ≤ wk_counter w)%Z;
  wi_writer ino : wk_writer w = Some ino →
    ∃ n f, fs_dir (wk_fs w) !! n = Some ino ∧ is_arrow n = true ∧
      fs_inodes (wk_fs w) !! ino = Some f ∧ f_header f = true;
  wi_pending r b : r ∈ wk_pending w → rp_batch r = Some b →
    in_current w b ∨ durable (wk_fs w) b;
  wi_acked r b : (r, true) ∈ wk_replies w → rp_batch r = Some b → durable (wk_fs w) b;
}.

(** The outcomes under which the worker keeps its promise: the sync of a segment
    being rotated out succeeds, a failed write leaves no partial record, and the
    clock is past the segments that were there at the start. *)
Definition good_io (dir0 : gset string) (o : io) : Prop :=
  io_old_sync o = true ∧ io_torn o = false ∧ ∀ c, log_name (io_ts o) c ∉ dir0.

(** An update of one file that keeps its promises. *)
Definition good_upd (g : wal_file Row → wal_file Row) : Prop :=
  ∀ f, f_synced f ≤ length (f_batches f) →
    file_le f (g f) ∧ (f_wellformed f = true → f_wellformed (g f) = true) ∧
    f_header (g f) = f_header f ∧ f_synced (g f) ≤ length (f_batches (g f)).

Lemma good_upd_append b : good_upd (f_append b).
Proof. intros f Hf. split_and!; [apply file_le_append|done|done|]. simpl. len. Qed.
Lemma good_upd_sync : good_upd f_sync.
Proof. intros f Hf. split_and!; [apply file_le_sync|done|done|]. done. Qed.

Lemma in_current_upd w ino g b :
  good_upd g → (∀ n f, file_at (wk_fs w) n = Some f → f_synced f ≤ length (f_batches f)) →
  in_current w b → in_current (wk_with_fs w (upd_file (wk_fs w) ino g)) b.
Proof.
  intros Hg Hs (i & n & f & Hw & Hn & Ha & Hf & Hh & Hwf & Hb).
  destruct (Hg f) as ([_ [Hp _]] & Hg1 & Hg2 & _).
  { apply (Hs n). unfold file_at. by rewrite Hn. }
  exists i, n, (if decide (ino = i) then g f else f). simpl.
  rewrite lookup_alter. split_and!; [done..| | | |]; case_decide; subst; rewrite ?Hf; auto.
  - congruence.
  - eapply elem_of_prefix; eauto.
Qed.

Lemma worker_inv_upd dir0 w ino g :
  good_upd g → worker_inv dir0 w → worker_inv dir0 (wk_with_fs w (upd_file (wk_fs w) ino g)).
Proof.
  intros Hg [H1 H2 H3 H4 H5 H6 H7].
  assert (fs_le (wk_fs w) (upd_file (wk_fs w) ino g)) as Hle.
  { apply fs_le_upd. intros n f Hf. apply (Hg f), (H2 n f Hf). }
  split; simpl; [| |done|done| | |]; eauto using fs_le_durable.
  - intros n i Hn. destruct (H1 n i Hn) as [f Hf]. rewrite lookup_alter.
    case_decide; subst; rewrite ?Hf; eauto.
  - intros n f' (f & Hf & ->)%upd_file_at. destruct (H2 n f Hf).
    case_decide; [|done]. destruct (Hg f); naive_solver.
  - intros i Hi. destruct (H5 i Hi) as (n & f & Hn & Ha & Hf & Hh).
    exists n, (if decide (ino = i) then g f else f). rewrite lookup_alter.
    destruct (Hg f) as (_ & _ & Hgh & _).
    { apply (H2 n). unfold file_at. by rewrite Hn. }
    split_and!; [done..| |]; case_decide; subst; rewrite ?Hf; (done || congruence).
  - intros r b Hr Hb. destruct (H6 r b Hr Hb) as [Hc|Hd]; [left|right]; eauto using fs_le_durable.
    eapply in_current_upd in Hc; [exact Hc|done|]. intros n f Hf. by apply (H2 n f).
Qed.

(** *** Replies *)

Lemma worker_inv_send dir0 w r ok :
  (ok = true → ∀ b, rp_batch r = Some b → durable (wk_fs w) b) →
  worker_inv dir0 w → worker_inv dir0 (send_reply w r ok).
Proof.
  intros Hok [H1 H2 H3 H4 H5 H6 H7]. split; simpl; try done.
  intros r' b [Hr|Hr]%elem_of_app Hb; [eauto|]. set_solver.
Qed.

Lemma worker_inv_drain dir0 w ok :
  (ok = true → ∀ r b, r ∈ wk_pending w → rp_batch r = Some b → durable (wk_fs w) b) →
  worker_inv dir0 w → worker_inv dir0 (drain_pending w ok).
Proof.
  intros Hok [H1 H2 H3 H4 H5 H6 H7]. split; simpl; try done; [set_solver|].
  intros r' b [Hr|Hr]%elem_of_app Hb; [eauto|]. apply list_elem_of_fmap in Hr as (r & ? & Hr).
  simplify_eq. eauto.
Qed.

Lemma worker_inv_count dir0 w n : worker_inv dir0 w → worker_inv dir0 (set_batch_count w n).
Proof. by intros []. Qed.

Lemma worker_inv_push dir0 w r :
  (∀ b, rp_batch r = Some b → in_current w b) →
  worker_inv dir0 w → worker_inv dir0 (push_pending w r).
Proof.
  intros Hr [H1 H2 H3 H4 H5 H6 H7]. split; simpl; try done.
  intros r' b [Hr'|Hr']%elem_of_app Hb; [by apply (H6 r' b)|]. left. set_solver.
Qed.

(** After a successful sync of the current segment every pending batch is durable. *)
Lemma sync_current_spec dir0 o w w' ok :
  worker_inv dir0 w → sync_current o w = (w', ok) →
  worker_inv dir0 w' ∧ wk_pending w' = wk_pending w ∧ wk_writer w' = wk_writer w ∧
  (ok = true → (∀ b, in_current w b → durable (wk_fs w') b) ∧
     ∀ r b, r ∈ wk_pending w → rp_batch r = Some b → durable (wk_fs w') b).
Proof.
  intros Hinv. unfold sync_current, sync_wal.
  assert (∀ ino, wk_writer w = Some ino →
    let w1 := wk_with_fs w (upd_file (wk_fs w) ino f_sync) in
    worker_inv dir0 w1 ∧ (∀ b, in_current w b → durable (wk_fs w1) b) ∧
    ∀ r b, r ∈ wk_pending w → rp_batch r = Some b → durable (wk_fs w1) b) as Hs.
  { intros ino Hino w1. assert (∀ b, in_current w b → durable (wk_fs w1) b) as Hc.
    { intros b. by apply in_current_sync. }
    split_and!; [apply worker_inv_upd; [apply good_upd_sync|done]|done|].
    intros r b Hr Hb. destruct (wi_pending _ _ Hinv r b Hr Hb) as [Hb'|Hb']; [by apply Hc|].
    eapply fs_le_durable; [|exact Hb']. apply fs_le_upd. intros. apply file_le_sync. }
  destruct (wk_writer w) as [ino|] eqn:Hw; intros Heq; case_matches; simplify_eq;
    split_and!; try done; try (by apply Hs); try (intros _; by apply (Hs ino)).
  intros _. split; [by intros b (? & ? & ? & ? & _); simplify_eq|].
  intros r b Hr Hb. destruct (wi_pending _ _ Hinv r b Hr Hb) as [(? & ? & ? & ? & _)|]; [|done].
  simplify_eq.
Qed.

(** *** Rotation *)

(** Opening a new segment under a fresh name. *)
Lemma fs_open_new (s : fs) path s' ino :
  fs_dir s !! path = None → (∀ n i, fs_dir s !! n = Some i → is_Some (fs_inodes s !! i)) →
  fs_open s path = (s', ino) →
  fs_dir s' = <[path := ino]> (fs_dir s) ∧ fs_inodes s' = <[ino := empty_file]> (fs_inodes s) ∧
  fs_inodes s !! ino = None ∧
  ∀ n f, file_at s' n = Some f ↔ file_at s n = Some f ∨ n = path ∧ f = empty_file.
Proof.
  intros Hp Hl Ho. unfold fs_open in Ho. rewrite Hp in Ho. simplify_eq/=.
  set (ino := fresh (dom (fs_inodes s))).
  assert (fs_inodes s !! ino = None) as Hi by apply not_elem_of_dom, is_fresh.
  split_and!; [done..|]. intros n f. unfold file_at. simpl.
  destruct (decide (path = n)) as [->|Hne].
  - rewrite !lookup_insert_eq, Hp. simpl. rewrite lookup_insert_eq. naive_solver.
  - rewrite lookup_insert_ne by done. destruct (fs_dir s !! n) as [i|] eqn:Hn; simpl; [|naive_solver].
    destruct (Hl n i Hn) as [fi Hfi]. rewrite lookup_insert_ne by congruence. naive_solver.
Qed.

(** The worker after rotation: the new segment is linked and empty, everything
    pending in the old one is durable. *)
Definition rotated (w w' : worker Row) (fs' : fs) (wr : option nat) : Prop :=
  wk_fs w' = fs' ∧ wk_writer w' = wr ∧ wk_counter w' = (wk_counter w + 1)%Z ∧
  wk_pending w' = wk_pending w ∧ wk_replies w' = wk_replies w.

(** Syncing the old segment, whoever is the writer. *)
Lemma old_segment_synced dir0 w :
  worker_inv dir0 w →
  ∃ w1, wk_fs w1 = match wk_writer w with
                   | Some old => upd_file (wk_fs w) old f_sync | None => wk_fs w end ∧
    worker_inv dir0 w1 ∧ wk_writer w1 = wk_writer w ∧ wk_counter w1 = wk_counter w ∧
    wk_pending w1 = wk_pending w ∧ wk_replies w1 = wk_replies w ∧
    ∀ r b, r ∈ wk_pending w → rp_batch r = Some b → durable (wk_fs w1) b.
Proof.
  intros Hinv. destruct (sync_current {| io_ts := 0; io_old_sync := true; io_open := true;
    io_create := true; io_write := true; io_torn := false; io_sync_data := true;
    io_sync_all := true |} w) as [w1 ok] eqn:Hs.
  pose proof (sync_current_spec _ _ _ _ _ Hinv Hs) as (Hinv1 & Hp & Hw & Hok).
  unfold sync_current, sync_wal in Hs. exists w1.
  destruct (wk_writer w) eqn:Hw0; simplify_eq/=; split_and!; try done; by apply Hok.
Qed.

(** A worker on a larger file system with a fresh counter, whose pending batches are
    all durable. *)
Lemma worker_inv_rotated dir0 w1 w' path :
  worker_inv dir0 w1 →
  (∀ r b, r ∈ wk_pending w1 → rp_batch r = Some b → durable (wk_fs w1) b) →
  wk_counter w' = (wk_counter w1 + 1)%Z → wk_pending w' = wk_pending w1 →
  wk_replies w' = wk_replies w1 → (∃ ts, path = log_name ts (wk_counter w1)) →
  fs_le (wk_fs w1) (wk_fs w') →
  (∀ n ino, fs_dir (wk_fs w') !! n = Some ino → is_Some (fs_inodes (wk_fs w') !! ino)) →
  (∀ n f, file_at (wk_fs w') n = Some f →
     file_at (wk_fs w1) n = Some f ∨ n = path ∧ f_wellformed f = true ∧ f_synced f = 0) →
  (∀ ino, wk_writer w' = Some ino →
     ∃ f, fs_dir (wk_fs w') !! path = Some ino ∧ fs_inodes (wk_fs w') !! ino = Some f ∧
       f_header f = true) →
  worker_inv dir0 w'.
Proof.
  intros [H1 H2 H3 H4 H5 H6 H7] Hd Hc Hp Hr [ts Hpath] Hle Hl Hf Hw.
  split; [done| | |lia| | |]; rewrite ?Hc, ?Hp, ?Hr; eauto using fs_le_durable.
  - intros n f Hn. destruct (Hf n f Hn) as [|(_ & ? & ?)]; [eauto|]. split; [done|lia].
  - intros n Hn. apply elem_of_dom in Hn as [ino Hn].
    destruct (Hl n ino Hn) as [f Hfi].
    destruct (Hf n f) as [Hn'|[-> _]]; [unfold file_at; by rewrite Hn| |].
    + destruct (H3 n) as [|(ts' & c & -> & ?)]; [|by left|right; exists ts', c; split; [done|lia]].
      apply elem_of_dom. unfold file_at in Hn'. by destruct (fs_dir (wk_fs w1) !! n).
    + right. exists ts, (wk_counter w1). split; [done|lia].
  - intros ino Hi. destruct (Hw ino Hi) as (f & ? & ? & ?). exists path, f.
    subst path. split_and!; auto using log_name_arrow.
Qed.

Lemma ensure_segment_spec dir0 o w b w' ok :
  good_io dir0 o → worker_inv dir0 w → ensure_segment o w b = (w', ok) →
  worker_inv dir0 w' ∧ (ok = true → is_Some (wk_writer w')).
Proof.
  intros (Ho & Ht & Hts) Hinv. unfold ensure_segment. rewrite Ho, Ht.
  destruct (schema_changed w b || bool_decide (wk_writer w = None)) eqn:Hc.
  2: { intros ?. simplify_eq. split; [done|]. intros _. apply orb_false_iff in Hc as [_ Hc].
       apply bool_decide_eq_false in Hc. by destruct (wk_writer w'). }
  destruct (old_segment_synced dir0 w Hinv) as (w1 & Hfs & Hinv1 & Hw1 & Hc1 & Hp1 & Hr1 & Hd1).
  rewrite <- Hfs. rewrite <- Hp1 in Hd1. set (path := log_name (io_ts o) (wk_counter w)).
  assert (fs_dir (wk_fs w1) !! path = None) as Hfresh.
  { apply not_elem_of_dom. intros [Hin|(ts & c & Hn & Hlt)]%(wi_names _ _ Hinv1).
    - by apply (Hts (wk_counter w)).
    - pose proof (wi_counter _ _ Hinv1). apply log_name_inj in Hn; lia. }
  destruct (io_open o); simpl.
  2: { intros ?; simplify_eq. split; [|done].
       apply (worker_inv_rotated dir0 w1 _ path); simpl; eauto; try congruence.
       - rewrite Hc1. by eexists.
       - reflexivity.
       - intros n i. apply (wi_linked _ _ Hinv1). }
  destruct (fs_open (wk_fs w1) path) as [s' ino] eqn:Hopen.
  destruct (fs_open_new _ _ _ _ Hfresh (wi_linked _ _ Hinv1) Hopen) as (Hdir & Hino & Hnone & Hat).
  assert (∀ n i, fs_dir s' !! n = Some i → is_Some (fs_inodes s' !! i)) as Hl.
  { intros n i. rewrite Hdir, Hino, !lookup_insert_is_Some. rewrite lookup_insert.
    case_decide; [by left; simplify_eq|]. intros Hn. right. 
    pose proof (wi_linked _ _ Hinv1 n i Hn). split; [|done]. intros ->. by rewrite Hnone in H0. }
  assert (∀ n, fs_dir s' !! n = Some ino ↔ n = path) as Hpath.
  { intros n. rewrite Hdir, lookup_insert. case_decide; [naive_solver|].
    split; [|congruence]. intros Hn%(wi_linked _ _ Hinv1). rewrite Hnone in Hn. by destruct Hn. }
  destruct (io_create o); simpl; intros ?; simplify_eq; (split; [|done]);
    apply (worker_inv_rotated dir0 w1 _ path); simpl; eauto; try congruence;
    try (rewrite Hc1; by eexists).
  - intros n f Hf. exists f. split; [|done].
    apply upd_file_at. exists f. split; [apply Hat; by left|].
    case_decide as Hq; [|done]. apply Hpath in Hq as ->.
    unfold file_at in Hf. by rewrite Hfresh in Hf.
  - intros n i Hn. rewrite lookup_alter. destruct (decide (ino = i)); [|by eapply Hl].
    rewrite fmap_is_Some. subst. by eapply Hl.
  - intros n f' (f & Hf & ->)%upd_file_at. apply Hat in Hf as [Hf|[-> ->]].
    + case_decide as Hq; [|by left]. apply Hpath in Hq as ->.
      unfold file_at in Hf. by rewrite Hfresh in Hf.
    + case_decide; by right.
  - intros i ?. simplify_eq. exists (f_write_header empty_file).
    rewrite Hpath, lookup_alter_eq, Hino, lookup_insert_eq. done.
  - intros n f Hf. exists f. split; [|done]. apply Hat. by left.
  - intros n f Hf. apply Hat in Hf as [|[-> ->]]; [by left|by right].
Qed.

(** *** The handlers keep the invariant *)

Lemma write_batch_spec dir0 o w ino b w' ok :
  io_torn o = false → worker_inv dir0 w → wk_writer w = Some ino →
  write_batch o w ino b = (w', ok) →
  worker_inv dir0 w' ∧ wk_writer w' = Some ino ∧ (ok = true → in_current w' b).
Proof.
  intros Ht Hinv Hw. unfold write_batch. rewrite Ht.
  destruct (io_write o); intros ?; simplify_eq; [|by destruct w].
  split_and!; [apply worker_inv_upd; [apply good_upd_append|done]|done|intros _].
  destruct (wi_writer _ _ Hinv ino Hw) as (n & f & Hn & Ha & Hf & Hh).
  destruct (wi_file _ _ Hinv n f) as [Hwf _]; [unfold file_at; by rewrite Hn|].
  exists ino, n, (f_append b f). simpl. rewrite lookup_alter_eq, Hf.
  split_and!; try done. set_solver.
Qed.

Lemma sync_wal_current o (w : worker Row) ino : wk_writer w = Some ino → sync_wal o w ino = sync_current o w.
Proof. intros H. unfold sync_current. by rewrite H. Qed.

Lemma handle_append_inv dir0 cfg o w b r :
  good_io dir0 o → rp_batch r = Some b → worker_inv dir0 w →
  worker_inv dir0 (handle_append cfg o w b r).
Proof.
  intros Ho Hr Hinv. unfold handle_append.
  destruct (ensure_segment o w b) as [w1 ok1] eqn:He.
  destruct (ensure_segment_spec _ _ _ _ _ _ Ho Hinv He) as [Hinv1 _].
  destruct ok1; simpl; [|by apply worker_inv_send].
  destruct (wk_writer w1) as [ino|] eqn:Hw1; [|done].
  destruct (write_batch o w1 ino b) as [w2 ok2] eqn:Hwb.
  destruct (write_batch_spec _ _ _ _ _ _ _ (proj1 (proj2 Ho)) Hinv1 Hw1 Hwb) as (Hinv2 & Hw2 & Hc).
  destruct ok2; simpl; [|by apply worker_inv_send].
  set (w3 := set_batch_count (push_pending w2 r) (wk_batch_count w2 + 1)).
  assert (worker_inv dir0 w3) as Hinv3.
  { apply worker_inv_count, worker_inv_push; [|done]. intros ? ?. simplify_eq. auto. }
  case_decide; [|done]. rewrite sync_wal_current by done.
  destruct (sync_current o w3) as [w4 ok4] eqn:Hs.
  destruct (sync_current_spec _ _ _ _ _ Hinv3 Hs) as (Hinv4 & Hp & _ & Hok).
  apply worker_inv_count, worker_inv_drain; [|done]. rewrite Hp. intros ?. by apply Hok.
Qed.

Lemma handle_append_sync_inv dir0 o w b r :
  good_io dir0 o → rp_batch r = Some b → worker_inv dir0 w →
  worker_inv dir0 (handle_append_sync o w b r).
Proof.
  intros Ho Hr Hinv. unfold handle_append_sync.
  destruct (ensure_segment o w b) as [w1 ok1] eqn:He.
  destruct (ensure_segment_spec _ _ _ _ _ _ Ho Hinv He) as [Hinv1 _].
  destruct ok1; simpl; [|by apply worker_inv_send].
  destruct (wk_writer w1) as [ino|] eqn:Hw1; [|done].
  destruct (write_batch o w1 ino b) as [w2 ok2] eqn:Hwb.
  destruct (write_batch_spec _ _ _ _ _ _ _ (proj1 (proj2 Ho)) Hinv1 Hw1 Hwb) as (Hinv2 & Hw2 & Hc).
  destruct ok2; simpl; [|by apply worker_inv_send].
  rewrite sync_wal_current by done.
  destruct (sync_current o w2) as [w4 ok4] eqn:Hs.
  destruct (sync_current_spec _ _ _ _ _ Hinv2 Hs) as (Hinv4 & Hp & _ & Hok).
  apply worker_inv_count, worker_inv_drain; simpl; rewrite ?Hp; [intros ?; by apply Hok|].
  apply worker_inv_send; [|done]. intros ? ? ?. simplify_eq. by apply Hok; auto.
Qed.

Lemma handle_flush_inv dir0 o w r :
  rp_batch r = None → worker_inv dir0 w → worker_inv dir0 (handle_flush o w r).
Proof.
  intros Hr Hinv. unfold handle_flush. destruct (sync_current o w) as [w1 ok] eqn:Hs.
  destruct (sync_current_spec _ _ _ _ _ Hinv Hs) as (Hinv1 & Hp & _ & Hok).
  apply worker_inv_count, worker_inv_send; [by rewrite Hr|].
  apply worker_inv_drain; [|done]. rewrite Hp. intros ?. by apply Hok.
Qed.

Lemma handle_timeout_inv dir0 o w : worker_inv dir0 w → worker_inv dir0 (handle_timeout o w).
Proof.
  intros Hinv. unfold handle_timeout. destruct (sync_current o w) as [w1 ok] eqn:Hs.
  destruct (sync_current_spec _ _ _ _ _ Hinv Hs) as (Hinv1 & Hp & _ & Hok).
  destruct (wk_pending w) eqn:Hpw; [done|].
  apply worker_inv_count, worker_inv_drain; [|done]. rewrite Hp. intros ?. by apply Hok.
Qed.

Lemma worker_turn_inv dir0 cfg w e :
  good_io dir0 e.1 → worker_inv dir0 w → worker_inv dir0 (worker_turn cfg w e).
Proof.
  intros Ho Hinv. unfold worker_turn. destruct (e.2) as [[]|];
    auto using handle_append_inv, handle_append_sync_inv, handle_flush_inv, handle_timeout_inv.
Qed.

Lemma worker_run_inv dir0 cfg w es :
  Forall (fun e => good_io dir0 e.1) es → worker_inv dir0 w →
  worker_inv dir0 (worker_run cfg w es).
Proof.
  intros Hes. revert w. induction Hes as [|e es He _ IH]; intros w Hinv; [done|].
  apply IH, worker_turn_inv; done.
Qed.

(** A directory left by an earlier process: linked, readable, its durable prefixes
    within the files. *)
Definition fs_ok (s : fs) : Prop :=
  (∀ n ino, fs_dir s !! n = Some ino → is_Some (fs_inodes s !! ino)) ∧
  ∀ n f, file_at s n = Some f → f_wellformed f = true ∧ f_synced f ≤ length (f_batches f).

Lemma worker_inv_init s : fs_ok s → worker_inv (dom (fs_dir s)) (worker_init s).
Proof. intros [H1 H2]. split; simpl; try done; [by left|set_solver|set_solver]. Qed.

(** *** Crashes *)

(** A crash keeps the durable prefix of every file and some of what follows; the
    last record may be torn, and a file with nothing durable may lose its header.  The
    log directory is never synced, so directory entries may be lost with it. *)
Definition crash_file (f f' : wal_file Row) : Prop :=
  (∃ k, f_synced f ≤ k ∧ f_batches f' = take k (f_batches f)) ∧
  (f_header f = true → f_synced f ≠ 0 → f_header f' = true).

Definition crash (s s' : fs) : Prop :=
  fs_dir s' ⊆ fs_dir s ∧
  ∀ ino f, fs_inodes s !! ino = Some f → ∃ f', fs_inodes s' !! ino = Some f' ∧ crash_file f f'.

(** No record of the directory is torn. *)
Definition untorn (s : fs) : Prop := ∀ n f, file_at s n = Some f → f_wellformed f = true.

Lemma read_segments_elem (s : fs) names bs n f b :
  read_segments s names = Ok bs → n ∈ names → file_at s n = Some f → f_header f = true →
  b ∈ f_batches f → b ∈ bs.
Proof.
  revert bs. induction names as [|m names IH]; intros bs Hr Hn Hf Hh Hb; [set_solver|].
  simpl in Hr. inv_ok. subst bs. apply elem_of_cons in Hn as [->|Hn]; apply elem_of_app; [left|right; eauto].
  unfold read_segment in *. rewrite Hf, Hh in *. simpl in *. case_matches; simplify_eq. done.
Qed.

Lemma read_segments_untorn (s : fs) names : untorn s → ∃ bs, read_segments s names = Ok bs.
Proof.
  intros Hs. induction names as [|n names [bs IH]]; [by eexists|]. simpl. rewrite IH.
  unfold read_segment. destruct (file_at s n) as [f|] eqn:Hf; [|by eexists].
  rewrite (Hs n f Hf). destruct (f_header f); by eexists.
Qed.

Lemma elem_of_arrow_names (s : fs) n :
  n ∈ arrow_names s ↔ is_arrow n = true ∧ n ∈ dom (fs_dir s).
Proof.
  unfold arrow_names. rewrite merge_sort_Permutation, list_elem_of_filter, elem_of_elements. done.
Qed.

(** A batch durable under a name is replayed if the name survives. *)
Definition durable_under (s : fs) (n : string) (b : batch) : Prop :=
  ∃ f, file_at s n = Some f ∧ is_arrow n = true ∧ f_header f = true ∧ b ∈ take (f_synced f) (f_batches f).

Lemma durable_replayed (s s' : fs) n b bs :
  durable_under s n b → crash s s' → n ∈ dom (fs_dir s') → replay_stream s' = Ok bs → b ∈ bs.
Proof.
  intros (f & Hf & Ha & Hh & Hb) [Hd Hc] [ino Hn']%elem_of_dom Hr. unfold file_at in Hf.
  rewrite (lookup_weaken _ _ _ _ Hn' Hd) in Hf. simpl in Hf.
  destruct (Hc ino f Hf) as (f' & Hf' & (k & Hk & Hbs) & Hh').
  assert (b ∈ f_batches f') as Hb'.
  { rewrite Hbs. apply elem_of_take in Hb as (i & Hi & Hlt). apply elem_of_take. eauto with lia. }
  eapply read_segments_elem; [exact Hr| | | |exact Hb'].
  - apply elem_of_arrow_names. split; [done|]. by eapply elem_of_dom_2.
  - unfold file_at. by rewrite Hn'.
  - apply Hh'; [done|]. intros H0. rewrite H0 in Hb. set_solver.
Qed.

(** C3: durability of acknowledged appends.  Let the worker start on a readable log
    directory and let every iteration satisfy [good_io]: the sync of a segment being
    rotated out succeeds ([rotation_acks_unsynced_batch] otherwise), a failed write leaves no partial record, the clock is past the
    existing segments (opens, writes and all other fsyncs may fail).  Then for every
    batch whose append was answered [Ok] there is a segment of the directory such that
    after any crash that keeps the directory entry of this segment, a replay that
    succeeds returns the batch; and replay succeeds unless the crash tore a record.  The
    code never syncs the directory, so the entry itself can be lost
    ([crash_loses_directory_entry]). *)
Theorem acked_appends_survive_crash cfg (s0 : fs) es r b :
  fs_ok s0 → Forall (fun e => good_io (dom (fs_dir s0)) e.1) es →
  (r, true) ∈ wk_replies (worker_run cfg (worker_init s0) es) → rp_batch r = Some b →
  ∃ n, n ∈ dom (fs_dir (wk_fs (worker_run cfg (worker_init s0) es))) ∧
    ∀ s', crash (wk_fs (worker_run cfg (worker_init s0) es)) s' → n ∈ dom (fs_dir s') →
      (∀ bs, replay_stream s' = Ok bs → b ∈ bs) ∧ (untorn s' → ∃ bs, replay_stream s' = Ok bs).
Proof.
  intros Hok Hes Hr Hb.
  assert (durable (wk_fs (worker_run cfg (worker_init s0) es)) b) as (n & f & Hf & Ha & Hh & _ & Hin).
  { eapply wi_acked; [|done..]. apply worker_run_inv; [done|]. by apply worker_inv_init. }
  exists n. split.
  - unfold file_at in Hf. destruct (fs_dir _ !! n) eqn:Hn; [|done]. by eapply elem_of_dom_2.
  - intros s' Hc Hn. split; [|apply read_segments_untorn]. intros bs.
    eapply durable_replayed; [|done..]. by exists f.
Qed.
End Durability.

(** ** Every request is answered *)

Section Replies.
Context {Row : Type}.

Definition op_reply (op : LogOp Row) : reply Row :=
  match op with
  | Append b id | AppendSync b id => {| rp_id := id; rp_batch := Some b |}
  | Flush id => {| rp_id := id; rp_batch := None |}
  end.

(** The requests of a schedule, in order. *)
Definition requests (es : list (io * option (LogOp Row))) : list (reply Row) :=
  op_reply <$> omap snd es.

(** The requests a worker has seen: answered or waiting for a sync. *)
Definition seen (w : worker Row) : list (reply Row) := (fst <$> wk_replies w) ++ wk_pending w.

Definition fresh_count (cfg : WalConfig) (w : worker Row) : Prop :=
  wk_batch_count w = length (wk_pending w) ∧ length (wk_pending w) < Nat.max 1 (sync_batch_size cfg).

Lemma seen_send w r ok : seen (send_reply w r ok) ≡ₚ r :: seen w.
Proof. unfold seen. simpl. rewrite fmap_app. simpl. solve_Permutation. Qed.
Lemma seen_push w r : seen (push_pending w r) ≡ₚ r :: seen w.
Proof. unfold seen. simpl. solve_Permutation. Qed.
Lemma seen_drain w ok : seen (drain_pending w ok) ≡ₚ seen w.
Proof.
  unfold seen. simpl. rewrite fmap_app, app_nil_r, <- list_fmap_compose. 
  by rewrite (list_fmap_ext _ id), list_fmap_id.
Qed.

Lemma sync_wal_replies o w ino : seen (sync_wal o w ino).1 = seen w ∧
  wk_pending (sync_wal o w ino).1 = wk_pending w ∧
  wk_batch_count (sync_wal o w ino).1 = wk_batch_count w.
Proof. unfold sync_wal. by case_matches. Qed.
Lemma sync_current_replies o w : seen (sync_current o w).1 = seen w ∧
  wk_pending (sync_current o w).1 = wk_pending w.
Proof. unfold sync_current. case_matches; [|done]. split; apply sync_wal_replies. Qed.
Lemma ensure_segment_replies o w b : seen (ensure_segment o w b).1 = seen w ∧
  wk_pending (ensure_segment o w b).1 = wk_pending w ∧
  wk_batch_count (ensure_segment o w b).1 = wk_batch_count w ∧
  ((ensure_segment o w b).2 = true → is_Some (wk_writer (ensure_segment o w b).1)).
Proof.
  unfold ensure_segment. destruct (schema_changed w b || _) eqn:E; [by case_matches|].
  apply orb_false_iff in E as [_ E%bool_decide_eq_false]. split_and!; try done.
  intros _. simpl. by destruct (wk_writer w).
Qed.
Lemma write_batch_replies o w ino b : seen (write_batch o w ino b).1 = seen w ∧
  wk_pending (write_batch o w ino b).1 = wk_pending w ∧
  wk_batch_count (write_batch o w ino b).1 = wk_batch_count w.
Proof. unfold write_batch. by case_matches. Qed.

Lemma handle_append_replies cfg o w b r : fresh_count cfg w →
  seen (handle_append cfg o w b r) ≡ₚ r :: seen w ∧ fresh_count cfg (handle_append cfg o w b r).
Proof.
  unfold handle_append, fresh_count. intros [Hc Hl].
  pose proof (ensure_segment_replies o w b) as (He1 & He2 & He3 & He4).
  destruct (ensure_segment o w b) as [w1 ok1]; simpl in *.
  destruct ok1; simpl; [|split; [by rewrite seen_send, He1|simpl; by rewrite He2, He3]].
  destruct (wk_writer w1) as [ino|]; [|by destruct He4].
  pose proof (write_batch_replies o w1 ino b) as (Hw1 & Hw2 & Hw3).
  destruct (write_batch o w1 ino b) as [w2 ok2]; simpl in *.
  destruct ok2; simpl; [|split; [by rewrite seen_send, Hw1, He1|simpl; by rewrite Hw2, Hw3, He2, He3]].
  set (w3 := set_batch_count (push_pending w2 r) (wk_batch_count w2 + 1)).
  assert (seen w3 ≡ₚ r :: seen w) as Hs3.
  { change (seen w3) with (seen (push_pending w2 r)). by rewrite seen_push, Hw1, He1. }
  destruct (decide _) as [Hd|Hd].
  - pose proof (sync_wal_replies o w3 ino) as (Hs1 & Hs2 & _).
    destruct (sync_wal o w3 ino) as [w4 ok4]; simpl in *.
    change (seen (set_batch_count _ _)) with (seen (drain_pending w4 ok4)).
    rewrite seen_drain, Hs1. split; [done|lia].
  - split; [done|]. unfold w3 in *. simpl in *. rewrite length_app. simpl. split; [congruence|].
    rewrite Hw2, He2. rewrite Hw3, He3, Hc in Hd. lia.
Qed.

Lemma handle_append_sync_replies cfg o w b r : fresh_count cfg w →
  seen (handle_append_sync o w b r) ≡ₚ r :: seen w ∧ fresh_count cfg (handle_append_sync o w b r).
Proof.
  unfold handle_append_sync, fresh_count. intros [Hc Hl].
  pose proof (ensure_segment_replies o w b) as (He1 & He2 & He3 & He4).
  destruct (ensure_segment o w b) as [w1 ok1]; simpl in *.
  destruct ok1; simpl; [|split; [by rewrite seen_send, He1|simpl; by rewrite He2, He3]].
  destruct (wk_writer w1) as [ino|]; [|by destruct He4].
  pose proof (write_batch_replies o w1 ino b) as (Hw1 & Hw2 & Hw3).
  destruct (write_batch o w1 ino b) as [w2 ok2]; simpl in *.
  destruct ok2; simpl; [|split; [by rewrite seen_send, Hw1, He1|simpl; by rewrite Hw2, Hw3, He2, He3]].
  pose proof (sync_wal_replies o w2 ino) as (Hs1 & _). destruct (sync_wal o w2 ino) as [w4 ok4].
  simpl in *. change (seen (set_batch_count _ _)) with (seen (drain_pending (send_reply w4 r ok4) ok4)).
  rewrite seen_drain, seen_send, Hs1, Hw1, He1. split; [done|lia].
Qed.

Lemma handle_flush_replies o w r :
  seen (handle_flush o w r) ≡ₚ r :: seen w ∧ wk_pending (handle_flush o w r) = [] ∧
  wk_batch_count (handle_flush o w r) = 0.
Proof.
  unfold handle_flush. pose proof (sync_current_replies o w) as [Hs _].
  destruct (sync_current o w) as [w1 ok]. simpl in *. split_and!; [|done..].
  change (seen (set_batch_count _ _)) with (seen (send_reply (drain_pending w1 ok) r ok)).
  by rewrite seen_send, seen_drain, Hs.
Qed.

Lemma handle_timeout_replies o w :
  seen (handle_timeout o w) ≡ₚ seen w ∧ wk_pending (handle_timeout o w) = [].
Proof.
  unfold handle_timeout. pose proof (sync_current_replies o w) as [Hs _].
  destruct (sync_current o w) as [w1 ok]. destruct (wk_pending w) eqn:Hp; [done|]. split; [|done].
  change (seen (set_batch_count _ _)) with (seen (drain_pending w1 ok)). simpl in Hs; by rewrite seen_drain, Hs.
Qed.

Lemma handle_timeout_count cfg o w : fresh_count cfg w → fresh_count cfg (handle_timeout o w).
Proof.
  unfold fresh_count. pose proof (handle_timeout_replies o w) as [_ Hp]. rewrite Hp.
  unfold handle_timeout. destruct (wk_pending w) eqn:E; [done|]. intros _.
  destruct (sync_current o w); simpl; lia.
Qed.

Lemma worker_turn_replies cfg w e : fresh_count cfg w →
  seen (worker_turn cfg w e) ≡ₚ (op_reply <$> option_list e.2) ++ seen w ∧
  fresh_count cfg (worker_turn cfg w e).
Proof.
  intros Hc. unfold worker_turn. destruct (e.2) as [[b id|b id|id]|]; simpl.
  - by apply handle_append_replies.
  - by apply handle_append_sync_replies.
  - pose proof (handle_flush_replies e.1 w {| rp_id := id; rp_batch := None |}) as (Hs & Hp & Hn).
    split; [done|]. unfold fresh_count. rewrite Hp, Hn. simpl. lia.
  - split; [apply handle_timeout_replies|by apply handle_timeout_count].
Qed.

(** C38: no request is dropped or answered twice: at any point the requests received
    are exactly those answered plus those waiting for a sync; fewer than
    [sync_batch_size] wait, and none after a flush or a timeout. *)
Theorem worker_answers_every_request cfg (s0 : wal_fs Row) es :
  let w := worker_run cfg (worker_init s0) es in
  (fst <$> wk_replies w) ++ wk_pending w ≡ₚ requests es ∧
  length (wk_pending w) < Nat.max 1 (sync_batch_size cfg) ∧
  (∀ o, wk_pending (worker_turn cfg w (o, None)) = []) ∧
  (∀ o id, wk_pending (worker_turn cfg w (o, Some (Flush id))) = []).
Proof.
  simpl. assert (∀ w, fresh_count cfg w → seen (worker_run cfg w es) ≡ₚ requests es ++ seen w ∧
    fresh_count cfg (worker_run cfg w es)) as Hrun.
  { unfold requests. induction es as [|[o op] es IH]; intros w Hw; [done|]. simpl.
    destruct (worker_turn_replies cfg w (o, op) Hw) as [Hs Hc]. destruct (IH _ Hc) as [IH1 IH2].
    split; [|done]. rewrite IH1, Hs. destruct op; simpl; solve_Permutation. }
  destruct (Hrun (worker_init s0)) as [Hs [_ Hl]]; [split; simpl; [done|lia]|].
  unfold seen in Hs. simpl in Hs. rewrite app_nil_r in Hs. split_and!; [done|done| |].
  - intros o. apply handle_timeout_replies.
  - intros o id. apply handle_flush_replies.
Qed.
End Replies.

(** ** Compaction *)

Section CompactRows.
Context {Row : Type}.
Context (concat_batches : Schema → list (RecordBatch Row) → option (RecordBatch Row)).
(** What Arrow documents of [concat_batches]: the result has the given schema and the
    rows of the inputs in order. *)
Hypothesis concat_batches_spec : ∀ sch bs c, concat_batches sch bs = Some c →
  rb_schema c = sch ∧ rb_rows c = concat (rb_rows <$> bs).

Lemma foldr_delete_dir (m : gmap string nat) names n :
  foldr delete m names !! n = if decide (n ∈ names) then None else m !! n.
Proof.
  induction names as [|x names IH]; simpl; [done|]. rewrite lookup_delete, IH.
  repeat case_decide; subst; set_solver.
Qed.

(** After the stale segments are removed the log file is the only one left. *)
Lemma arrow_names_singleton (s : wal_fs Row) p :
  is_arrow p = true → p ∈ dom (fs_dir s) →
  arrow_names (remove_names s (filter (fun n => n ≠ p) (arrow_names s))) = [p].
Proof.
  intros Hp Hd. unfold arrow_names at 1. simpl.
  set (d := foldr delete _ _).
  assert (filter (fun n => is_arrow n = true) (elements (dom d)) ≡ₚ [p]) as HP.
  { apply NoDup_Permutation; [apply NoDup_filter, NoDup_elements|apply NoDup_singleton|].
    intros n. rewrite list_elem_of_filter, elem_of_elements, elem_of_dom, list_elem_of_singleton.
    unfold d. rewrite foldr_delete_dir. split.
    - intros [Ha Hs]. case_decide as Hin; [by destruct Hs|].
      rewrite list_elem_of_filter, elem_of_arrow_names, elem_of_dom in Hin. destruct (decide (n = p)); naive_solver.
    - intros ->. rewrite decide_False by (rewrite list_elem_of_filter; naive_solver).
      by rewrite <- elem_of_dom. }
  apply Permutation_singleton_r. by rewrite merge_sort_Permutation.
Qed.

(** Compaction loses, duplicates and reorders no row: replaying the log after
    [compact] yields the rows it yielded before, in order, in at most one batch. *)
Theorem compact_preserves_rows (s s' : wal_fs Row) p bs :
  is_arrow p = true → replay_stream s = Ok bs → compact concat_batches s p = Ok s' →
  ∃ bs', replay_stream s' = Ok bs' ∧ length bs' ≤ 1 ∧
    concat (rb_rows <$> bs') = concat (rb_rows <$> bs).
Proof.
  intros Hp Hr. unfold compact, replay. rewrite Hr. simpl.
  destruct bs as [|b0 [|b1 bs]]; try (intros ?; simplify_eq; eexists; split; [done|simpl; auto]).
  destruct (concat_batches (rb_schema b0) _) as [c|] eqn:Hc; simpl; [|done].
  apply concat_batches_spec in Hc as [_ Hc]. intros [= <-].
  set (s1 := {| fs_dir := <[p := _]> _; fs_inodes := _ |}).
  exists [c]. split_and!; [|simpl; lia|simpl; rewrite app_nil_r; exact Hc].
  unfold replay_stream. rewrite (arrow_names_singleton s1 p Hp) by (simpl; set_solver).
  simpl. unfold read_segment, file_at. simpl. rewrite foldr_delete_dir.
  rewrite decide_False by (rewrite list_elem_of_filter; naive_solver).
  rewrite lookup_insert_eq. simpl. by rewrite lookup_insert_eq.
Qed.
End CompactRows.

(** ** Where the log breaks its promise *)

Module WalExamples.
Definition schema_of (n : string) : Schema := 
  {| sc_fields := [{| fd_name := n; fd_type := "Int64"; fd_nullable := false |}];
     sc_metadata := ∅ |}.
Definition b1 : RecordBatch nat := {| rb_schema := schema_of "a"; rb_rows := [1] |}.
Definition b2 : RecordBatch nat := {| rb_schema := schema_of "b"; rb_rows := [2] |}.
Definition all_ok (ts : Z) : io :=
  {| io_ts := ts; io_old_sync := true; io_open := true; io_create := true; io_write := true;
     io_torn := false; io_sync_data := true; io_sync_all := true |}.
(** as [all_ok], with the sync of the rotated segment failing *)
Definition old_sync_fails (ts : Z) : io :=
  {| io_ts := ts; io_old_sync := false; io_open := true; io_create := true; io_write := true;
     io_torn := false; io_sync_data := true; io_sync_all := true |}.
Definition fs0 : wal_fs nat := {| fs_dir := ∅; fs_inodes := ∅ |}.

(** The harshest crash: every file is cut to its durable prefix. *)
Definition cut (f : wal_file nat) : wal_file nat :=
  {| f_header := f_header f; f_wellformed := f_wellformed f;
     f_batches := take (f_synced f) (f_batches f); f_synced := f_synced f |}.
Definition crashed (s : wal_fs nat) : wal_fs nat :=
  {| fs_dir := fs_dir s; fs_inodes := cut <$> fs_inodes s |}.
Lemma crashed_crash s : crash s (crashed s).
Proof.
  split; [done|]. intros ino f Hf. exists (cut f). simpl. rewrite lookup_fmap, Hf.
  split; [done|]. split; [by exists (f_synced f)|done].
Qed.
Lemma crashed_untorn s : untorn s → untorn (crashed s).
Proof.
  intros Hs n f. unfold file_at. simpl. destruct (fs_dir s !! n) as [i|] eqn:Hn; [|done]. simpl.
  rewrite lookup_fmap, fmap_Some. intros (f0 & Hf0 & ->).
  change (f_wellformed f0 = true). apply (Hs n f0). unfold file_at. by rewrite Hn.
Qed.

Definition concat_nat (sch : Schema) (bs : list (RecordBatch nat)) : option (RecordBatch nat) :=
  Some {| rb_schema := sch; rb_rows := concat (rb_rows <$> bs) |}.
Lemma concat_nat_spec sch bs c : concat_nat sch bs = Some c →
  rb_schema c = sch ∧ rb_rows c = concat (rb_rows <$> bs).
Proof. by intros [= <-]. Qed.
End WalExamples.

(** A batch whose append was answered [Ok] after a full fsync can be lost with the
    directory entry of its new segment. *)
Theorem crash_loses_directory_entry :
  ∃ (es : list (io * option (LogOp nat))) r b s',
    let w := worker_run WalConfig_default (worker_init WalExamples.fs0) es in
    Forall (fun e => good_io (dom (fs_dir WalExamples.fs0)) e.1) es ∧
    (r, true) ∈ wk_replies w ∧ rp_batch r = Some b ∧ crash (wk_fs w) s' ∧ replay_stream s' = Ok [].
Proof.
  exists [(WalExamples.all_ok 1, Some (AppendSync WalExamples.b1 1))].
  exists {| rp_id := 1; rp_batch := Some WalExamples.b1 |}, WalExamples.b1.
  eexists {| fs_dir := ∅; fs_inodes := _ |}. intros w.
  split_and!; [repeat constructor; set_solver|vm_compute; by left|done| |by vm_compute].
  split; [apply map_empty_subseteq|]. intros ino f Hf. exists f. split; [exact Hf|].
  split; [|done]. exists (f_synced f + length (f_batches f)). split; [lia|].
  rewrite take_ge; [done|lia].
Qed.

(** A batch whose append was answered [Ok] can be lost: the sync of a segment
    being rotated out is not checked, and the appends waiting on it are answered by
    the next sync, which covers the new segment only. *)
Theorem rotation_acks_unsynced_batch :
  ∃ (es : list (io * option (LogOp nat))) r b s' bs,
    let w := worker_run WalConfig_default (worker_init WalExamples.fs0) es in
    (r, true) ∈ wk_replies w ∧ rp_batch r = Some b ∧ crash (wk_fs w) s' ∧
    replay_stream s' = Ok bs ∧ b ∉ bs.
Proof.
  set (e1 := WalExamples.all_ok 1). set (e2 := WalExamples.old_sync_fails 2).
  exists [(e1, Some (Append WalExamples.b1 1)); (e2, Some (Append WalExamples.b2 2));
          (e1, Some (Flush 3))].
  exists {| rp_id := 1; rp_batch := Some WalExamples.b1 |}, WalExamples.b1.
  eexists (WalExamples.crashed _), [WalExamples.b2]. intros w.
  split_and!; [vm_compute; by left|done|apply WalExamples.crashed_crash|by vm_compute|].
  intros [Heq|[]%not_elem_of_nil]%elem_of_cons. discriminate Heq.
Qed.

(** Compaction can lose durable batches: the consolidated segment is renamed into
    place without an fsync and the segments it replaces are unlinked, so a crash right
    after a successful [compact] leaves nothing of a batch that had been synced and
    acknowledged. *)
Theorem compact_unsynced_loses_acked_batch :
  ∃ (es : list (io * option (LogOp nat))) r b s1 s' bs,
    let w := worker_run WalConfig_default (worker_init WalExamples.fs0) es in
    Forall (fun e => good_io (dom (fs_dir WalExamples.fs0)) e.1) es ∧
    (r, true) ∈ wk_replies w ∧ rp_batch r = Some b ∧
    compact WalExamples.concat_nat (wk_fs w) (log_name 0 0) = Ok s1 ∧ crash s1 s' ∧
    replay_stream s' = Ok bs ∧ b ∉ bs.
Proof.
  exists [(WalExamples.all_ok 1, Some (AppendSync WalExamples.b1 1));
          (WalExamples.all_ok 2, Some (AppendSync WalExamples.b1 2))].
  exists {| rp_id := 1; rp_batch := Some WalExamples.b1 |}, WalExamples.b1.
  eexists _, (WalExamples.crashed _), []. intros w.
  split_and!; [repeat constructor; set_solver|vm_compute; by left|done|by vm_compute
    |apply WalExamples.crashed_crash|by vm_compute|set_solver].
Qed.

(** Truncation unlinks the segment a running worker still writes to: a later
    append with an unchanged schema goes to the unlinked file, is synced and
    acknowledged, and replay does not see it. *)
Theorem truncate_orphans_open_segment :
  ∃ (es es' : list (io * option (LogOp nat))) r b,
    let w := worker_run WalConfig_default (worker_init WalExamples.fs0) es in
    let w' := worker_run WalConfig_default (wk_with_fs w (truncate (wk_fs w) ∅)) es' in
    (r, true) ∈ wk_replies w' ∧ (r, true) ∉ wk_replies w ∧ rp_batch r = Some b ∧
    replay_stream (wk_fs w') = Ok [].
Proof.
  exists [(WalExamples.all_ok 1, Some (AppendSync WalExamples.b1 1))],
         [(WalExamples.all_ok 2, Some (AppendSync WalExamples.b1 2))].
  exists {| rp_id := 2; rp_batch := Some WalExamples.b1 |}, WalExamples.b1. intros w w'.
  split_and!; [vm_compute; right; by left| |done|by vm_compute].
  vm_compute. intros [Heq|[]%not_elem_of_nil]%elem_of_cons. discriminate Heq.
Qed.

(** ** Witnesses *)

Lemma wal_tag_roundtrip_witness :
  extract_wal_tx Some (tag_batch_with_wal_tx id WalExamples.b1 "t" 7) =
    Some {| wh_tx_id := "t"; wh_sequence_number := 7 |}.
Proof. apply wal_tag_roundtrip; [done|unfold is_u64; lia]. Defined.

Lemma acked_appends_survive_crash_witness :
  let es := [(WalExamples.all_ok 1, Some (Append WalExamples.b1 1));
             (WalExamples.all_ok 2, Some (AppendSync WalExamples.b2 2))] in
  let w := worker_run WalConfig_default (worker_init WalExamples.fs0) es in
  ∃ bs, replay_stream (WalExamples.crashed (wk_fs w)) = Ok bs ∧ WalExamples.b1 ∈ bs.
Proof.
  intros es w.
  destruct (acked_appends_survive_crash WalConfig_default WalExamples.fs0 es
    {| rp_id := 1; rp_batch := Some WalExamples.b1 |} WalExamples.b1) as (n & Hn & Hall).
  - split; intros n i Hn; unfold file_at in Hn; simpl in Hn; rewrite lookup_empty in Hn;
      discriminate Hn.
  - repeat constructor; set_solver.
  - vm_compute. right. by left.
  - reflexivity.
  - destruct (Hall (WalExamples.crashed (wk_fs w)) (WalExamples.crashed_crash _) Hn) as [Hin _].
    destruct (replay_stream (WalExamples.crashed (wk_fs w))) as [bs|e] eqn:E;
      [exists bs; auto|vm_compute in E; discriminate E].
Defined.

Lemma compact_preserves_rows_witness :
  let w := worker_run WalConfig_default (worker_init WalExamples.fs0)
    [(WalExamples.all_ok 1, Some (AppendSync WalExamples.b1 1));
     (WalExamples.all_ok 2, Some (AppendSync WalExamples.b2 2))] in
  ∃ s' bs', compact WalExamples.concat_nat (wk_fs w) (log_name 0 0) = Ok s' ∧
    replay_stream s' = Ok bs' ∧ concat (rb_rows <$> bs') = [1; 2].
Proof.
  intros w.
  destruct (compact WalExamples.concat_nat (wk_fs w) (log_name 0 0)) as [s'|] eqn:Hc;
    [|vm_compute in Hc; discriminate Hc].
  assert (replay_stream (wk_fs w) = Ok [WalExamples.b1; WalExamples.b2]) as Hw by by vm_compute.
  assert (is_arrow (log_name 0 0) = true) as Ha by by vm_compute.
  destruct (compact_preserves_rows _ WalExamples.concat_nat_spec _ s' _ _ Ha Hw Hc) as (bs' & Hr & _ & Hrows).
  exists s', bs'. split; [reflexivity|]. split; [exact Hr|exact Hrows].
Defined.
