(* ===== verification/Durability.v ===== *)
(** * The write path of a table: WAL, write buffer, manifest commit, recovery

    How [core/table/write.rs] and [core/table/builder.rs] use the write-ahead log: a
    write appends its tagged batches to the log and then to the write buffer; a flush
    takes the buffer, commits it to the manifest together with the transaction ids it
    contains, and truncates the log; opening a table replays the log, skips what the
    manifest says is committed and puts the rest back into the buffer.

    The log is taken at the level of what a replay returns ([replay_stream] of [Wal]);
    committed data is the list of batches the manifest commits have published.  The
    calls of one flush and of the writers are separate steps, so their interleavings
    and crashes between any two of them are sequences of operations. *)

From S2P Require Import Prelude Wal.

Section Table.
Context {Row Uuid : Type} `{EqDecision Uuid}.
Context (uuid_to_string : Uuid → string) (uuid_parse : string → option Uuid).
(** [Uuid::new_v4], by call number *)
Context (new_v4 : nat → Uuid).
(** [Schema::try_merge] and the success of [RecordBatch::try_new] *)
Context (try_merge : list Schema → option Schema).
Context (try_new_ok : Schema → RecordBatch Row → bool).
Abbreviation batch := (RecordBatch Row).

(** ** Recovery of the log *)

Definition clean_wal_metadata (schema : Schema) : Schema :=
  let meta := sc_metadata schema in
  let meta := delete "benostream:tx_id" meta in
  let meta := delete "benostream:seq" meta in
  {| sc_fields := sc_fields schema; sc_metadata := meta |}.

(** The field loop of [merge_arrow_schemas]: a field of a known name replaces the
    known one, nullable if either was; a new one is appended. *)
Fixpoint merge_field (fields : list Field) (field : Field) : list Field :=
  match fields with
  | [] => [field]
  | existing :: fields =>
      if decide (fd_name existing = fd_name field) then
        {| fd_name := fd_name field; fd_type := fd_type field;
           fd_nullable := fd_nullable existing || fd_nullable field |} :: fields
      else existing :: merge_field fields field
  end.

Definition merge_arrow_schemas (base incoming : Schema) : Schema :=
  let base_clean := clean_wal_metadata base in
  let incoming_clean := clean_wal_metadata incoming in
  match try_merge [base_clean; incoming_clean] with
  | Some merged => merged
  | None =>
      {| sc_fields := foldl merge_field (sc_fields base_clean) (sc_fields incoming_clean);
         sc_metadata := sc_metadata base_clean ∪ sc_metadata incoming_clean |}
  end.

(** A row maps column names to values and a missing column reads null, so adding
    null columns to a batch changes its schema and not its rows. *)
Definition align_batch (schema_val : Schema) (b : batch) : batch :=
  if bool_decide (sc_fields (rb_schema b) ≠ sc_fields schema_val) ||
     bool_decide (rb_schema b ≠ schema_val)
  then if try_new_ok schema_val b
       then {| rb_schema := schema_val; rb_rows := rb_rows b |} else b
  else b.

(** [recover_wal_state], without the in-memory vector index it derives. *)
Definition recover_wal_state (batches : list batch) (schema_val : Schema) :
    list batch * Schema :=
  match batches with
  | [] => ([], schema_val)
  | first :: _ =>
      let merged := clean_wal_metadata schema_val in
      let merged := match sc_fields merged with
                    | [] => clean_wal_metadata (rb_schema first)
                    | _ => merged
                    end in
      let schema_val := foldl (fun m b => merge_arrow_schemas m (rb_schema b)) merged batches in
      (align_batch schema_val <$> batches, schema_val)
  end.

(** The ids of [benostream.committed_wal_tx]. *)
Definition committed_tx_of (property : option string) : list Uuid :=
  match property with
  | Some s => omap (fun t => uuid_parse (trim t)) (split_char comma s)
  | None => []
  end.

Definition join_tx_ids (tx_ids : list Uuid) : string :=
  join_char comma (uuid_to_string <$> tx_ids).

Definition not_committed (committed_tx : list Uuid) (b : batch) : bool :=
  match extract_wal_tx uuid_parse b with
  | Some h => negb (bool_decide (wh_tx_id h ∈ committed_tx))
  | None => true
  end.

Definition filter_committed (committed_tx : list Uuid) (bs : list batch) : list batch :=
  match committed_tx with
  | [] => bs
  | _ => filter (fun b => not_committed committed_tx b = true) bs
  end.

Definition recovered_tx_ids (bs : list batch) : list Uuid :=
  imap (fun i b => match extract_wal_tx uuid_parse b with
                   | Some h => wh_tx_id h
                   | None => new_v4 i
                   end) bs.

(** ** State *)

Record PendingWrite := {
  pw_batch : batch;
  pw_tx_id : Uuid;
}.

Inductive WalDurability := Sync | Async.

Record table := {
  tb_wal : list batch;                    (* what a replay of the log returns *)
  tb_queue : list batch;                  (* sent to the log's worker, not synced *)
  tb_pending : list PendingWrite;         (* pending_writes *)
  tb_committed : list PendingWrite;       (* published by manifest commits *)
  tb_committed_wal_tx : option string;    (* the manifest property *)
  tb_schema : Schema;
  tb_writing : list PendingWrite;         (* logged, not yet buffered *)
  (** the flush in progress: what it took, and whether the manifest commit is done *)
  tb_flush : option (list PendingWrite * bool);
}.

(** ** Steps *)

Definition pending_of (tx : Uuid) (bs : list batch) : list PendingWrite :=
  (fun b => {| pw_batch := b; pw_tx_id := tx |}) <$> bs.

(** [batches_for_wal] *)
Definition tag_all (tx : Uuid) (bs : list batch) : list batch :=
  imap (fun i b => tag_batch_with_wal_tx uuid_to_string b tx (wrap_u64 (Z.of_nat i))) bs.

(** The WAL task of a write: all of its batches are logged.  [append_sync] returns when
    the worker has synced the batch and what was queued before it;
    [append_fire_and_forget] only queues it ... *)
Definition wal_append (t : table) (d : WalDurability) (tx : Uuid) (bs : list batch) : table :=
  let tagged := tag_all tx bs in
  {| tb_wal := match d with Sync => tb_wal t ++ tb_queue t ++ tagged | Async => tb_wal t end;
     tb_queue := match d with Sync => [] | Async => tb_queue t ++ tagged end;
     tb_pending := tb_pending t; tb_committed := tb_committed t;
     tb_committed_wal_tx := tb_committed_wal_tx t; tb_schema := tb_schema t;
     tb_writing := tb_writing t ++ pending_of tx bs; tb_flush := tb_flush t |}.

(** ... or one append fails after [k] of them and the write returns an error. *)
Definition wal_append_fails (t : table) (d : WalDurability) (tx : Uuid) (bs : list batch) (k : nat) :
    table :=
  let tagged := take k (tag_all tx bs) in
  {| tb_wal := match d with Sync => tb_wal t ++ tb_queue t ++ tagged | Async => tb_wal t end;
     tb_queue := match d with Sync => [] | Async => tb_queue t ++ tagged end;
     tb_pending := tb_pending t; tb_committed := tb_committed t;
     tb_committed_wal_tx := tb_committed_wal_tx t; tb_schema := tb_schema t;
     tb_writing := tb_writing t; tb_flush := tb_flush t |}.

(** The worker syncs the first [k] queued batches, on its own schedule. *)
Definition wal_worker (t : table) (k : nat) : table :=
  {| tb_wal := tb_wal t ++ take k (tb_queue t); tb_queue := drop k (tb_queue t);
     tb_pending := tb_pending t; tb_committed := tb_committed t;
     tb_committed_wal_tx := tb_committed_wal_tx t; tb_schema := tb_schema t;
     tb_writing := tb_writing t; tb_flush := tb_flush t |}.

(** [pending.extend(..)], after which the write is acknowledged. *)
Definition buffer_push (t : table) (tx : Uuid) : table :=
  {| tb_wal := tb_wal t;
     tb_pending := tb_pending t ++ filter (fun p => pw_tx_id p = tx) (tb_writing t);
     tb_committed := tb_committed t; tb_committed_wal_tx := tb_committed_wal_tx t;
     tb_queue := tb_queue t; tb_schema := tb_schema t; tb_writing := filter (fun p => pw_tx_id p ≠ tx) (tb_writing t);
     tb_flush := tb_flush t |}.

(** [flush_unlocked_async] up to the call of [flush_internal_async]. *)
Definition flush_take (t : table) : table :=
  match tb_pending t with
  | [] => t
  | taken =>
      {| tb_wal := tb_wal t; tb_pending := []; tb_committed := tb_committed t;
         tb_committed_wal_tx := tb_committed_wal_tx t; tb_queue := tb_queue t; tb_schema := tb_schema t;
         tb_writing := tb_writing t; tb_flush := Some (taken, false) |}
  end.

(** The manifest commit of [flush_internal_async]: the data and, unless there are
    none, the ids, which replace the property's old value. *)
Definition flush_commit (t : table) (taken : list PendingWrite) : table :=
  {| tb_wal := tb_wal t; tb_pending := tb_pending t;
     tb_committed := tb_committed t ++ taken;
     tb_committed_wal_tx :=
       match taken with
       | [] => tb_committed_wal_tx t
       | _ => Some (join_tx_ids (pw_tx_id <$> taken))
       end;
     tb_queue := tb_queue t; tb_schema := tb_schema t; tb_writing := tb_writing t; tb_flush := Some (taken, true) |}.

(** Step 5 of [flush_internal_async]: truncate the whole log. *)
Definition flush_truncate (t : table) : table :=
  {| tb_wal := []; tb_pending := tb_pending t; tb_committed := tb_committed t;
     tb_committed_wal_tx := tb_committed_wal_tx t; tb_queue := tb_queue t; tb_schema := tb_schema t;
     tb_writing := tb_writing t; tb_flush := None |}.

(** [flush_internal_async] failed: the taken batches go back in front. *)
Definition flush_restore (t : table) (taken : list PendingWrite) : table :=
  {| tb_wal := tb_wal t; tb_pending := taken ++ tb_pending t; tb_committed := tb_committed t;
     tb_committed_wal_tx := tb_committed_wal_tx t; tb_queue := tb_queue t; tb_schema := tb_schema t;
     tb_writing := tb_writing t; tb_flush := None |}.

(** A crash and the [build_async] of the next process: what the first one held in
    memory is gone. *)
Definition crash_reopen (t : table) : table :=
  let committed_tx := committed_tx_of (tb_committed_wal_tx t) in
  let recovered_batches := filter_committed committed_tx (tb_wal t) in
  let tx_ids := recovered_tx_ids recovered_batches in
  let '(initial_buffer, schema_val) := recover_wal_state recovered_batches (tb_schema t) in
  {| tb_wal := tb_wal t;
     tb_pending := zip_with Build_PendingWrite initial_buffer tx_ids;
     tb_committed := tb_committed t; tb_committed_wal_tx := tb_committed_wal_tx t;
     tb_queue := []; tb_schema := schema_val; tb_writing := []; tb_flush := None |}.

Inductive op :=
| WalAppend (d : WalDurability) (tx : Uuid) (bs : list batch)
| WalAppendFails (d : WalDurability) (tx : Uuid) (bs : list batch) (k : nat)
| WalWorker (k : nat)
| BufferPush (tx : Uuid)
| FlushTake
| FlushCommit
| FlushTruncate
| FlushFails
| CrashReopen.

(** One step; [None] when the step is not enabled. *)
Definition step (t : table) (o : op) : option table :=
  match o, tb_flush t with
  | WalAppend d tx bs, _ => Some (wal_append t d tx bs)
  | WalAppendFails d tx bs k, _ => Some (wal_append_fails t d tx bs k)
  | WalWorker k, _ => Some (wal_worker t k)
  | BufferPush tx, _ => Some (buffer_push t tx)
  | FlushTake, None => Some (flush_take t)
  | FlushCommit, Some (taken, false) => Some (flush_commit t taken)
  | FlushTruncate, Some (_, true) => Some (flush_truncate t)
  | FlushFails, Some (taken, _) => Some (flush_restore t taken)
  | CrashReopen, _ => Some (crash_reopen t)
  | _, _ => None
  end.

Fixpoint run (t : table) (os : list op) : option table :=
  match os with
  | [] => Some t
  | o :: os => t' ← step t o; run t' os
  end.

(** A table just created. *)
Definition empty_table (schema : Schema) : table :=
  {| tb_wal := []; tb_pending := []; tb_committed := []; tb_committed_wal_tx := None;
     tb_queue := []; tb_schema := schema; tb_writing := []; tb_flush := None |}.

(** The data a table answers for: published, buffered, or taken from the buffer by
    a flush that has not published it yet. *)
Definition held (t : table) : list PendingWrite :=
  tb_committed t ++
  match tb_flush t with Some (taken, false) => taken | _ => [] end ++ tb_pending t.

End Table.
Arguments PendingWrite : clear implicits.
Arguments table : clear implicits.
Arguments op : clear implicits.

(** ** Exactly-once recovery *)

Section ExactlyOnce.
Context {Row Uuid : Type} `{EqDecision Uuid}.
Context (uuid_to_string : Uuid → string) (uuid_parse : string → option Uuid).
Context (new_v4 : nat → Uuid).
Context (try_merge : list Schema → option Schema).
Context (try_new_ok : Schema → RecordBatch Row → bool).
Abbreviation batch := (RecordBatch Row).
Abbreviation table := (table Row Uuid).
Abbreviation step := (step uuid_to_string uuid_parse new_v4 try_merge try_new_ok).
Abbreviation prop_tx := (committed_tx_of uuid_parse).

(** What a table and a log hold, by transaction. *)
Abbreviation entry := (Uuid * list Row)%type.
Definition pw_entry (p : PendingWrite Row Uuid) : entry := (pw_tx_id p, rb_rows (pw_batch p)).
Definition wal_entry (b : batch) : option entry :=
  h ← extract_wal_tx uuid_parse b; Some (wh_tx_id h, rb_rows b).

(** The specification: what was acknowledged, what came back from the log without
    having been acknowledged, what failed writes left in the log. *)
Record history := {
  hs_acked : list entry;
  hs_unacked : list entry;
  hs_failed : list entry;
  (** a crash hit the window between manifest commit and truncation, and no
      truncation followed yet *)
  hs_window : bool;
  hs_used : list Uuid;
}.

Definition in_window (t : table) : bool :=
  match tb_flush t with Some (_, true) => true | _ => false end.

Definition hstep (t : table) (h : history) (o : op Row Uuid) : history :=
  match o with
  | WalAppend _ tx _ =>
      {| hs_acked := hs_acked h; hs_unacked := hs_unacked h; hs_failed := hs_failed h;
         hs_window := hs_window h; hs_used := tx :: hs_used h |}
  | WalAppendFails _ tx bs k =>
      {| hs_acked := hs_acked h; hs_unacked := hs_unacked h;
         hs_failed := hs_failed h ++ (pw_entry <$> pending_of tx (take k bs));
         hs_window := hs_window h; hs_used := tx :: hs_used h |}
  | BufferPush tx =>
      {| hs_acked := hs_acked h ++ (pw_entry <$> filter (fun p => pw_tx_id p = tx) (tb_writing t));
         hs_unacked := hs_unacked h; hs_failed := hs_failed h; hs_window := hs_window h;
         hs_used := hs_used h |}
  | FlushTruncate =>
      {| hs_acked := hs_acked h; hs_unacked := hs_unacked h; hs_failed := [];
         hs_window := false; hs_used := hs_used h |}
  | CrashReopen =>
      {| hs_acked := hs_acked h;
         hs_unacked := hs_unacked h ++ (pw_entry <$> tb_writing t) ++ hs_failed h;
         hs_failed := []; hs_window := hs_window h || in_window t; hs_used := hs_used h |}
  | WalWorker _ | FlushTake | FlushCommit | FlushFails => h
  end.

(** The schedules covered: writes are durable ([Sync]), transaction ids are fresh, no write runs during a flush, a
    flush does not fail after its manifest commit, and two crashes in the window
    between commit and truncation have a truncation between them. *)
Definition serial (t : table) (h : history) (o : op Row Uuid) : bool :=
  match o with
  | WalAppend Async _ _ | WalAppendFails Async _ _ _ => false
  | WalAppend Sync tx _ | WalAppendFails Sync tx _ _ =>
      bool_decide (tx ∉ hs_used h) && negb (bool_decide (is_Some (tb_flush t)))
  | FlushTake => match tb_writing t with [] => true | _ => false end
  | FlushFails => negb (in_window t)
  | CrashReopen => negb (in_window t && hs_window h)
  | WalWorker _ | BufferPush _ | FlushCommit | FlushTruncate => true
  end.

Fixpoint srun (t : table) (h : history) (os : list (op Row Uuid)) : option (table * history) :=
  match os with
  | [] => Some (t, h)
  | o :: os =>
      if serial t h o then t' ← step t o; srun t' (hstep t h o) os else None
  end.

Definition empty_history : history :=
  {| hs_acked := []; hs_unacked := []; hs_failed := []; hs_window := false; hs_used := [] |}.

(** *** The invariant *)

Definition taken (t : table) : list (PendingWrite Row Uuid) :=
  match tb_flush t with Some (taken, false) => taken | _ => [] end.
Abbreviation ids := (fmap (M:=list) fst).
Abbreviation com t := (pw_tx_id <$> tb_committed t).
Abbreviation wal_entries t := (omap wal_entry (tb_wal t)).

Record table_inv (t : table) (h : history) : Prop := {
  ti_tagged : Forall (fun b => is_Some (wal_entry b)) (tb_wal t);
  ti_held : pw_entry <$> held t ≡ₚ hs_acked h ++ hs_unacked h;
  ti_wal : filter (fun e => e.1 ∉ com t) (wal_entries t) ≡ₚ
    (pw_entry <$> taken t ++ tb_pending t ++ tb_writing t) ++ hs_failed h;
  ti_prop tx : tx ∈ prop_tx (tb_committed_wal_tx t) → tx ∈ com t;
  ti_known e : (in_window t = true → hs_window h = false) → e ∈ wal_entries t → e.1 ∈ com t →
    e.1 ∈ prop_tx (tb_committed_wal_tx t);
  ti_clean e : in_window t = false → hs_window h = false → e ∈ wal_entries t → e.1 ∉ com t;
  ti_used tx : tx ∈ com t ∨ tx ∈ ids (wal_entries t) ∨ tx ∈ ids (hs_acked h) ∨
    tx ∈ ids (hs_unacked h) → tx ∈ hs_used h;
  ti_idle : is_Some (tb_flush t) → tb_writing t = [] ∧ tb_pending t = [];
  ti_taken : ∀ l b, tb_flush t = Some (l, b) → l ≠ [];
  ti_acked tx : tx ∈ ids (hs_acked h) → tx ∉ ids (hs_unacked h);
  ti_live tx : tx ∈ ids (pw_entry <$> tb_writing t) ∨ tx ∈ ids (hs_failed h) →
    tx ∉ ids (hs_acked h) ∧ tx ∉ ids (hs_unacked h);
  ti_writing tx : tx ∈ ids (pw_entry <$> tb_writing t) → tx ∉ ids (hs_failed h);
  ti_queue : tb_queue t = [];
}.

(** What the [uuid] crate documents of its hyphenated text form. *)
Hypothesis uuid_roundtrip : ∀ u, uuid_parse (uuid_to_string u) = Some u.
Hypothesis uuid_no_comma : ∀ u, has_char comma (uuid_to_string u) = false.
Hypothesis uuid_trim : ∀ u, trim (uuid_to_string u) = uuid_to_string u.

(** *** Reading back what was written *)

Lemma wal_entry_tag b tx i :
  wal_entry (tag_batch_with_wal_tx uuid_to_string b tx (wrap_u64 i)) = Some (tx, rb_rows b).
Proof.
  unfold wal_entry. rewrite extract_tag; [done|apply uuid_roundtrip|apply wrap_u64_range].
Qed.

Lemma omap_imap_tag tx bs (f : nat → Z) :
  omap wal_entry (imap (fun i b => tag_batch_with_wal_tx uuid_to_string b tx (wrap_u64 (f i))) bs) =
  pw_entry <$> pending_of tx bs.
Proof.
  revert f. induction bs as [|b bs IH]; intros f; [done|]. rewrite imap_cons. simpl.
  rewrite wal_entry_tag. simpl. f_equal. apply (IH (fun i => f (Datatypes.S i))).
Qed.

Lemma wal_entries_tag_all tx bs :
  omap wal_entry (tag_all uuid_to_string tx bs) = pw_entry <$> pending_of tx bs.
Proof. apply (omap_imap_tag tx bs Z.of_nat). Qed.

Lemma tag_all_tagged tx bs : Forall (fun b => is_Some (wal_entry b)) (tag_all uuid_to_string tx bs).
Proof.
  apply Forall_lookup. intros i b. unfold tag_all. rewrite list_lookup_imap, fmap_Some.
  intros (b' & _ & ->). rewrite wal_entry_tag. by eexists.
Qed.

Lemma committed_tx_roundtrip us :
  us ≠ [] → prop_tx (Some (join_tx_ids uuid_to_string us)) = us.
Proof.
  intros Hne. unfold committed_tx_of, join_tx_ids. rewrite split_join.
  - clear Hne. induction us as [|u us IH]; [done|]. simpl. rewrite uuid_trim, uuid_roundtrip. by f_equal.
  - by destruct us.
  - apply Forall_fmap, Forall_true. intros u. apply uuid_no_comma.
Qed.

Lemma wal_entries_filter_committed c bs :
  omap wal_entry (filter_committed uuid_parse c bs) =
  filter (fun e => e.1 ∉ c) (omap wal_entry bs).
Proof.
  unfold filter_committed. destruct c as [|u c]; [|set (c' := u :: c)].
  - symmetry. apply filter_all. set_solver.
  - induction bs as [|b bs IH]; [done|].
    assert (not_committed uuid_parse c' b =
      match wal_entry b with Some e => bool_decide (e.1 ∉ c') | None => true end) as Hb.
    { unfold not_committed, wal_entry. destruct (extract_wal_tx uuid_parse b); [|done]. simpl.
      by repeat case_bool_decide. }
    rewrite filter_cons. destruct (wal_entry b) as [e|] eqn:He.
    + destruct (not_committed uuid_parse c' b); simpl; rewrite He, filter_cons;
        [rewrite decide_True by (by apply (bool_decide_eq_true_1 _), eq_sym)
        |rewrite decide_False by (by apply (bool_decide_eq_false_1 _), eq_sym)];
        simpl; rewrite ?He; by f_equal.
    + rewrite Hb. simpl. by rewrite He.
Qed.

Lemma align_rows sch (b : batch) : rb_rows (align_batch try_new_ok sch b) = rb_rows b.
Proof. unfold align_batch. by repeat case_match. Qed.

Lemma recovered_entries bs sch (f : nat → Uuid) :
  Forall (fun b => is_Some (wal_entry b)) bs →
  pw_entry <$> zip_with Build_PendingWrite (align_batch try_new_ok sch <$> bs)
    (recovered_tx_ids uuid_parse f bs) = omap wal_entry bs.
Proof.
  intros Hbs. revert f. unfold recovered_tx_ids.
  induction Hbs as [|b bs [e He] _ IH]; intros f; [done|]. rewrite imap_cons. simpl.
  rewrite He. unfold wal_entry in He.
  destruct (extract_wal_tx uuid_parse b) as [hd|]; simplify_eq/=.
  unfold pw_entry at 1. simpl. rewrite align_rows. f_equal. apply (IH (fun i => f (Datatypes.S i))).
Qed.

Lemma filter_committed_tagged c (bs : list batch) :
  Forall (fun b => is_Some (wal_entry b)) bs →
  Forall (fun b => is_Some (wal_entry b)) (filter_committed uuid_parse c bs).
Proof.
  intros Hbs. unfold filter_committed. destruct c; [done|]. rewrite Forall_forall in Hbs |- *.
  intros b [_ Hb]%list_elem_of_filter. by apply Hbs.
Qed.

(** The buffer after a reopen holds the log entries the manifest does not name. *)
Lemma crash_reopen_pending (t : table) :
  Forall (fun b => is_Some (wal_entry b)) (tb_wal t) →
  pw_entry <$> tb_pending (crash_reopen uuid_parse new_v4 try_merge try_new_ok t) =
  filter (fun e => e.1 ∉ prop_tx (tb_committed_wal_tx t)) (wal_entries t).
Proof.
  intros Ht. unfold crash_reopen. rewrite <- wal_entries_filter_committed.
  set (bs := filter_committed _ _ _).
  assert (Forall (fun b => is_Some (wal_entry b)) bs) as Hbs by by apply filter_committed_tagged.
  destruct (recover_wal_state try_merge try_new_ok bs (tb_schema t)) as [buf sch] eqn:Hr. simpl.
  rewrite <- (recovered_entries bs sch new_v4 Hbs). do 2 f_equal.
  unfold recover_wal_state in Hr. destruct bs; by simplify_eq/=.
Qed.

(** *** Every step keeps the invariant *)

Lemma ids_entries (l : list (PendingWrite Row Uuid)) : ids (pw_entry <$> l) = pw_tx_id <$> l.
Proof. rewrite <- list_fmap_compose. by apply list_fmap_ext. Qed.

Lemma ids_pending_of tx x (bs : list batch) : x ∈ ids (pw_entry <$> pending_of tx bs) → x = tx.
Proof.
  rewrite ids_entries. unfold pending_of. rewrite <- list_fmap_compose.
  by intros (b & -> & _)%list_elem_of_fmap.
Qed.

Lemma inv_live_used (t : table) h tx :
  table_inv t h →
  tx ∈ ids (pw_entry <$> taken t ++ tb_pending t ++ tb_writing t) ∨ tx ∈ ids (hs_failed h) →
  tx ∉ com t ∧ tx ∈ ids (wal_entries t).
Proof.
  intros Hinv Hin.
  assert (tx ∈ ids (filter (fun e => e.1 ∉ com t) (wal_entries t))) as Hf.
  { rewrite (ti_wal _ _ Hinv), fmap_app, elem_of_app. done. }
  apply list_elem_of_fmap in Hf as (e & -> & [? ?]%list_elem_of_filter).
  split; [done|]. by apply list_elem_of_fmap_2.
Qed.

Lemma filter_com_fresh (t : table) tx bs :
  tx ∉ com t →
  filter (fun e : entry => e.1 ∉ com t) (pw_entry <$> pending_of tx bs) =
  pw_entry <$> pending_of tx bs.
Proof.
  intros Htx. apply filter_all. intros e He. rewrite (ids_pending_of tx e.1 bs); [done|].
  by apply list_elem_of_fmap_2.
Qed.

Lemma take_tag_all k tx (bs : list batch) :
  take k (tag_all uuid_to_string tx bs) = tag_all uuid_to_string tx (take k bs).
Proof.
  apply list_eq. intros i. unfold tag_all. rewrite list_lookup_imap.
  destruct (decide (i < k)).
  - by rewrite !lookup_take_lt, list_lookup_imap by done.
  - by rewrite !lookup_take_ge by lia.
Qed.

(** The records of a fresh transaction in the log. *)
Lemma inv_log (t : table) h tx bs :
  table_inv t h → tx ∉ hs_used h →
  let es := pw_entry <$> pending_of tx bs in
  Forall (fun b => is_Some (wal_entry b)) (tb_wal t ++ tag_all uuid_to_string tx bs) ∧
  omap wal_entry (tb_wal t ++ tag_all uuid_to_string tx bs) = wal_entries t ++ es ∧
  filter (fun e => e.1 ∉ com t) (wal_entries t ++ es) =
    filter (fun e => e.1 ∉ com t) (wal_entries t) ++ es ∧
  (∀ e, e ∈ es → e.1 ∉ com t) ∧ (∀ x, x ∈ ids es → x = tx) ∧
  tx ∉ ids (hs_acked h) ∧ tx ∉ ids (hs_unacked h) ∧ tx ∉ ids (hs_failed h) ∧
  tx ∉ ids (pw_entry <$> tb_writing t).
Proof.
  intros Hinv Htx es. pose proof (ti_used _ _ Hinv tx) as Hu.
  assert (tx ∉ com t) as Hcom by (intros ?; apply Htx, Hu; auto).
  assert (tx ∉ ids (pw_entry <$> taken t ++ tb_pending t ++ tb_writing t) ∧
          tx ∉ ids (hs_failed h)) as [Hl Hf].
  { split; intros Hin; apply Htx, Hu; right; left; eapply inv_live_used; eauto. }
  split_and!; try done; try (intros ?; apply Htx, Hu; auto; fail).
  - apply Forall_app. split; [apply Hinv|apply tag_all_tagged].
  - by rewrite omap_app, wal_entries_tag_all.
  - rewrite filter_app. f_equal. by apply filter_com_fresh.
  - intros e He. rewrite (ids_pending_of tx e.1 bs); [done|]. by apply list_elem_of_fmap_2.
  - intros x Hx. by eapply ids_pending_of.
  - rewrite ids_entries, !fmap_app, !elem_of_app in Hl. rewrite ids_entries. auto.
Qed.

Lemma wal_append_inv t h tx bs :
  table_inv t h → serial t h (WalAppend Sync tx bs) = true →
  table_inv (wal_append uuid_to_string t Sync tx bs) (hstep t h (WalAppend Sync tx bs)).
Proof.
  intros Hinv Hser. simpl in Hser.
  apply andb_true_iff in Hser as [Htx%bool_decide_eq_true Hfl%negb_true_iff%bool_decide_eq_false].
  destruct (inv_log t h tx bs Hinv Htx) as (L1 & L2 & L3 & L4 & L5 & L6 & L7 & L8 & L9).
  destruct Hinv as [I1 I2 I3 I4 I5 I6 I7 I8 I9 I10 I11 I12 I13].
  split; simpl; rewrite ?I13, ?app_nil_l, ?L2; try done.
  - rewrite L3, I3, !fmap_app. unfold taken. simpl. solve_Permutation.
  - intros e Hw [He|He]%elem_of_app; [by apply I5|]. by intros []%L4.
  - intros e ? ? [He|He]%elem_of_app; [by apply I6|]. by apply L4.
  - intros x. rewrite fmap_app, elem_of_app. intros [|[[|Hx%L5]|[|]]]; subst; try (by left);
      right; apply I7; auto.
  - intros x. rewrite fmap_app, fmap_app, elem_of_app. intros [[|Hx%L5]|]; subst; auto.
  - intros x. rewrite fmap_app, fmap_app, elem_of_app. intros [|Hx%L5]; subst; auto.
Qed.

Lemma wal_append_fails_inv t h tx bs k :
  table_inv t h → serial t h (WalAppendFails Sync tx bs k) = true →
  table_inv (wal_append_fails uuid_to_string t Sync tx bs k) (hstep t h (WalAppendFails Sync tx bs k)).
Proof.
  intros Hinv Hser. simpl in Hser.
  apply andb_true_iff in Hser as [Htx%bool_decide_eq_true Hfl%negb_true_iff%bool_decide_eq_false].
  unfold wal_append_fails. rewrite take_tag_all.
  destruct (inv_log t h tx (take k bs) Hinv Htx) as (L1 & L2 & L3 & L4 & L5 & L6 & L7 & L8 & L9).
  destruct Hinv as [I1 I2 I3 I4 I5 I6 I7 I8 I9 I10 I11 I12 I13].
  split; simpl; rewrite ?I13, ?app_nil_l, ?L2; try done.
  - rewrite L3, I3. unfold taken. simpl. solve_Permutation.
  - intros e Hw [He|He]%elem_of_app; [by apply I5|]. by intros []%L4.
  - intros e ? ? [He|He]%elem_of_app; [by apply I6|]. by apply L4.
  - intros x. rewrite fmap_app, elem_of_app. intros [|[[|Hx%L5]|[|]]]; subst; try (by left);
      right; apply I7; auto.
  - intros x. rewrite fmap_app, elem_of_app. intros [|[|Hx%L5]]; subst; auto.
  - intros x Hx. rewrite fmap_app, elem_of_app. intros [|Hx'%L5]; subst; [by eapply I12|done].
Qed.

Lemma wal_worker_inv t h k : table_inv t h → table_inv (wal_worker t k) h.
Proof.
  intros Hinv. pose proof (ti_queue _ _ Hinv) as Hq. unfold wal_worker. rewrite Hq, take_nil, drop_nil, app_nil_r.
  rewrite <- Hq. by destruct t.
Qed.

Lemma ids_filter x (P : PendingWrite Row Uuid → Prop) `{!∀ p, Decision (P p)} l :
  x ∈ ids (pw_entry <$> filter P l) ↔ ∃ p, P p ∧ p ∈ l ∧ x = pw_tx_id p.
Proof.
  rewrite ids_entries, list_elem_of_fmap. setoid_rewrite list_elem_of_filter. naive_solver.
Qed.

Lemma elem_of_ids x (l : list (PendingWrite Row Uuid)) :
  x ∈ ids (pw_entry <$> l) ↔ ∃ p, p ∈ l ∧ x = pw_tx_id p.
Proof. rewrite ids_entries, list_elem_of_fmap. naive_solver. Qed.

Lemma buffer_push_inv t h tx :
  table_inv t h → table_inv (buffer_push t tx) (hstep t h (BufferPush tx)).
Proof.
  intros [I1 I2 I3 I4 I5 I6 I7 I8 I9 I10 I11 I12 I13].
  pose proof (filter_app_complement (fun p => pw_tx_id p = tx) (tb_writing t)) as Hsplit.
  set (mine := filter (fun p => pw_tx_id p = tx) (tb_writing t)) in *.
  assert (∀ x, x ∈ ids (pw_entry <$> mine) → x = tx ∧ x ∈ ids (pw_entry <$> tb_writing t)) as Hm.
  { intros x (p & Hp & Hin & ->)%ids_filter. split; [done|]. apply elem_of_ids. eauto. }
  split; simpl; fold mine; try done.
  - unfold held in *. simpl. rewrite !fmap_app in *. rewrite app_assoc in I2.
    rewrite <- (Permutation_app_comm (hs_unacked h)), (app_assoc (hs_unacked h)),
      (Permutation_app_comm (hs_unacked h)), <- I2. solve_Permutation.
  - rewrite I3. unfold taken. simpl. rewrite <- Hsplit at 1. rewrite !fmap_app. solve_Permutation.
  - intros x Hx. apply I7. rewrite fmap_app, elem_of_app in Hx.
    destruct Hx as [|[|[[|Hx]|]]]; auto. apply Hm in Hx as [_ Hx]. right. left.
    assert (x ∈ ids (filter (fun e => e.1 ∉ com t) (wal_entries t))) as Hf.
    { rewrite I3, !fmap_app, !elem_of_app. rewrite !fmap_app in *. auto. }
    apply list_elem_of_fmap in Hf as (e & -> & [? ?]%list_elem_of_filter).
    by apply list_elem_of_fmap_2.
  - intros Hf. destruct (I8 Hf) as [Hw Hp]. unfold mine. by rewrite Hw, Hp.
  - intros x. rewrite fmap_app, elem_of_app. intros [|[_ Hx]%Hm]; [by apply I10|]. by apply I11; left.
  - intros x Hx.
    assert (x ∉ ids (pw_entry <$> mine)) as Hn.
    { destruct Hx as [(p & Hp & Hin & ->)%ids_filter|Hx]; [by intros [? _]%Hm|].
      intros [_ Hx']%Hm. by eapply I12. }
    rewrite fmap_app, elem_of_app.
    assert (x ∉ ids (hs_acked h) ∧ x ∉ ids (hs_unacked h)) as [? ?]; [|naive_solver].
    apply I11. destruct Hx as [(p & Hp & Hin & ->)%ids_filter|]; [left|by right].
    apply elem_of_ids. eauto.
  - intros x (p & Hp & Hin & ->)%ids_filter. apply I12, elem_of_ids. eauto.
Qed.

Lemma flush_take_inv t h :
  table_inv t h → serial t h FlushTake = true → tb_flush t = None →
  table_inv (flush_take t) h.
Proof.
  intros Hinv Hser Hfl. unfold flush_take. destruct (tb_pending t) as [|p l] eqn:Hp; [done|].
  simpl in Hser. destruct (tb_writing t) eqn:Hw; [|done].
  destruct Hinv as [I1 I2 I3 I4 I5 I6 I7 I8 I9 I10 I11 I12 I13].
  unfold held, taken, in_window in *. rewrite Hfl, ?Hp, ?Hw in *.
  split; unfold held, taken, in_window; simpl; rewrite ?Hw; try done.
  - by rewrite app_nil_r.
  - intros ? ? [= <- <-]. done.
Qed.

Lemma flush_restore_inv t h l :
  table_inv t h → tb_flush t = Some (l, false) → table_inv (flush_restore t l) h.
Proof.
  intros [I1 I2 I3 I4 I5 I6 I7 I8 I9 I10 I11 I12 I13] Hfl.
  destruct I8 as [Hw Hp]; [by eexists|].
  unfold held, taken, in_window in *. rewrite Hfl, ?Hw, ?Hp in *.
  split; unfold held, taken, in_window; simpl; rewrite ?Hw, ?Hp; try done.
  - by rewrite I3, !app_nil_r.
Qed.

Lemma flush_truncate_inv t h l :
  table_inv t h → tb_flush t = Some (l, true) →
  table_inv (flush_truncate t) (hstep t h FlushTruncate).
Proof.
  intros [I1 I2 I3 I4 I5 I6 I7 I8 I9 I10 I11 I12 I13] Hfl.
  destruct I8 as [Hw Hp]; [by eexists|].
  unfold held, taken, in_window in *. rewrite Hfl, ?Hw, ?Hp in *.
  split; unfold held, taken, in_window; simpl; rewrite ?Hw, ?Hp; try done.
  - intros e _ []%not_elem_of_nil.
  - intros e _ _ []%not_elem_of_nil.
  - intros x [|[[]%not_elem_of_nil|]]; apply I7; auto.
  - intros x [[]%not_elem_of_nil|[]%not_elem_of_nil].
  - set_solver.
Qed.

Lemma filter_not_app {A B} `{EqDecision B} (f : A → B) (c c' : list B) (l : list A) :
  filter (fun e => f e ∉ c ++ c') l = filter (fun e => f e ∉ c') (filter (fun e => f e ∉ c) l).
Proof. rewrite list_filter_filter. apply filter_ext_in. intros x _. rewrite elem_of_app. tauto. Qed.

Lemma flush_commit_inv t h l :
  table_inv t h → tb_flush t = Some (l, false) →
  table_inv (flush_commit uuid_to_string t l) h.
Proof.
  intros Hinv Hfl.
  destruct Hinv as [I1 I2 I3 I4 I5 I6 I7 I8 I9 I10 I11 I12 I13].
  destruct I8 as [Hw Hp]; [by eexists|]. pose proof (I9 _ _ Hfl) as Hne.
  assert (prop_tx (tb_committed_wal_tx (flush_commit uuid_to_string t l)) = pw_tx_id <$> l)
    as Hprop.
  { unfold flush_commit. simpl. destruct l as [|p l']; [done|].
    rewrite committed_tx_roundtrip; done. }
  assert (∀ x, x ∈ pw_tx_id <$> l → x ∈ ids (hs_acked h) ∨ x ∈ ids (hs_unacked h)) as Hl.
  { intros x Hx. rewrite <- elem_of_app, <- fmap_app, <- I2. unfold held. rewrite Hfl, ids_entries.
    rewrite !fmap_app, !elem_of_app. auto. }
  assert (tb_committed (flush_commit uuid_to_string t l) = tb_committed t ++ l) as Hcom by done.
  unfold held, taken, in_window in *. rewrite Hfl, Hw, Hp in *.
  split; try rewrite Hcom; try rewrite Hprop; rewrite ?fmap_app; simpl; rewrite ?Hw, ?Hp; try done.
  - unfold held. simpl. rewrite Hp. simpl. by rewrite <- I2, !app_nil_r.
  - rewrite filter_not_app, I3, filter_app, filter_none, filter_all; [done| |].
    + intros e He Hin. destruct (I11 e.1) as [? ?]; [right; by apply list_elem_of_fmap_2|].
      by destruct (Hl e.1 Hin).
    + intros e He. rewrite !app_nil_r in He. apply list_elem_of_fmap in He as (p & -> & Hin).
      intros Hn. apply Hn. by apply (list_elem_of_fmap_2 pw_tx_id).
  - set_solver.
  - intros e Hwin He [Hc|]%elem_of_app; [|done]. exfalso.
    by apply (I6 e) in Hc; auto.
  - intros x [[|Hx%Hl]%elem_of_app|Hx]; apply I7; naive_solver.
  - by intros ? ? [= <- <-].
Qed.

Abbreviation reopen := (crash_reopen uuid_parse new_v4 try_merge try_new_ok).

Lemma crash_reopen_disk t :
  tb_wal (reopen t) = tb_wal t ∧ tb_committed (reopen t) = tb_committed t ∧
  tb_committed_wal_tx (reopen t) = tb_committed_wal_tx t ∧
  tb_writing (reopen t) = [] ∧ tb_flush (reopen t) = None ∧ tb_queue (reopen t) = [].
Proof. unfold crash_reopen. by destruct (recover_wal_state _ _ _ _). Qed.

Lemma crash_reopen_inv t h :
  table_inv t h → serial t h CrashReopen = true →
  table_inv (reopen t) (hstep t h CrashReopen).
Proof.
  intros Hinv Hser. pose proof (crash_reopen_pending t (ti_tagged _ _ Hinv)) as Hpend.
  destruct (crash_reopen_disk t) as (Hwal & Hcom & Hprop & Hwr & Hfl & Hqu).
  destruct Hinv as [I1 I2 I3 I4 I5 I6 I7 I8 I9 I10 I11 I12 I13].
  assert (in_window t = true → hs_window h = false) as Hwin.
  { simpl in Hser. intros Hw. rewrite Hw in Hser. by destruct (hs_window h). }
  assert (filter (fun e => e.1 ∉ prop_tx (tb_committed_wal_tx t)) (wal_entries t) =
          filter (fun e => e.1 ∉ com t) (wal_entries t)) as Hsame.
  { apply filter_ext_in. intros e He. split; intros Hn Hin; apply Hn; [by apply I5|by apply I4]. }
  rewrite Hsame in Hpend.
  split; rewrite ?Hwal, ?Hcom, ?Hprop, ?Hwr; simpl; try done.
  - unfold held in *. rewrite Hfl, Hcom, !fmap_app, Hpend, I3. simpl.
    rewrite !fmap_app in *. unfold taken. rewrite !(app_assoc (hs_acked h)), <- I2.
    solve_Permutation.
  - unfold taken. rewrite Hfl. simpl. by rewrite !app_nil_r, Hpend.
  - intros e _. by apply I5.
  - intros e _ [? ?]%orb_false_iff. by apply I6.
  - intros x Hx. apply I7. rewrite !fmap_app, !elem_of_app in Hx.
    destruct Hx as [|[|[|[|Hx]]]]; auto. right. left.
    assert (x ∈ ids (filter (fun e => e.1 ∉ com t) (wal_entries t))) as Hf.
    { rewrite I3, !fmap_app, !elem_of_app. rewrite !fmap_app in *. tauto. }
    apply list_elem_of_fmap in Hf as (e & -> & [? ?]%list_elem_of_filter).
    by apply list_elem_of_fmap_2.
  - by rewrite Hfl; intros [].
  - by rewrite Hfl.
  - intros x Hx. rewrite !fmap_app, !elem_of_app.
    intros [?|[?|?]]; [by eapply I10|by destruct (I11 x) as [[] ?]; auto..].
  - set_solver.
  - set_solver.
Qed.

Lemma step_inv t h o t' :
  table_inv t h → serial t h o = true → step t o = Some t' → table_inv t' (hstep t h o).
Proof.
  intros Hinv Hser Hst. unfold Durability.step in Hst.
  destruct o as [[]|[]| | | | | | |], (tb_flush t) as [[l []]|] eqn:Hfl; simplify_eq/=; try done;
    try (by apply wal_append_inv); try (by apply wal_append_fails_inv); try (by apply wal_worker_inv);
    try (by apply buffer_push_inv); try (by apply crash_reopen_inv);
    eauto using flush_take_inv, flush_commit_inv, flush_truncate_inv, flush_restore_inv.
  unfold in_window in Hser. by rewrite Hfl in Hser.
Qed.

Lemma srun_inv t h os t' h' :
  table_inv t h → srun t h os = Some (t', h') → table_inv t' h'.
Proof.
  revert t h. induction os as [|o os IH]; intros t h Hinv Hr; simpl in Hr; [by simplify_eq|].
  destruct (serial t h o) eqn:Hser; [|done].
  destruct (step t o) as [t1|] eqn:Hst; [|done]. simpl in Hr. eauto using step_inv.
Qed.

Lemma table_inv_empty sch : table_inv (empty_table sch) empty_history.
Proof. split; unfold held; simpl; try done; try set_solver. Qed.

End ExactlyOnce.

(** ** Schedules outside the discipline *)

Module DurabilityExamples.
(** Two transactions. *)
Definition tx_string (u : bool) : string := if u then "tx-a" else "tx-b".
Definition tx_parse (s : string) : option bool :=
  if decide (s = "tx-a") then Some true else if decide (s = "tx-b") then Some false else None.
Definition sch : Schema :=
  {| sc_fields := [{| fd_name := "id"; fd_type := "Int64"; fd_nullable := false |}];
     sc_metadata := ∅ |}.
Definition batch_of (n : nat) : RecordBatch nat := {| rb_schema := sch; rb_rows := [n] |}.
Abbreviation erun := (run tx_string tx_parse (fun _ => true) (fun l => head l) (fun _ _ => true)).
Definition write (u : bool) (n : nat) : list (op nat bool) := [WalAppend Sync u [batch_of n]; BufferPush u].
End DurabilityExamples.

(** With [WalDurability::Async] an acknowledged write is lost by a crash before the
    worker syncs it. *)
Theorem async_write_is_lost :
  ∃ t, DurabilityExamples.erun (empty_table DurabilityExamples.sch)
      [WalAppend Async true [DurabilityExamples.batch_of 1]; BufferPush true; CrashReopen] = Some t ∧
    held t = [].
Proof. eexists. split; by vm_compute. Qed.

(** An acknowledged write can be lost.  A flush truncates the whole log, so a
    batch that a concurrent write logged after the flush took the buffer is gone from
    the log while it is only in memory: a crash then loses it. *)
Theorem truncate_loses_concurrent_write :
  ∃ pre mid tx n t,
    DurabilityExamples.erun (empty_table DurabilityExamples.sch)
      (pre ++ DurabilityExamples.write tx n ++ mid ++ [CrashReopen]) = Some t ∧
    CrashReopen ∉ pre ++ mid ∧ ∀ p, p ∈ held t → pw_tx_id p ≠ tx.
Proof.
  exists (DurabilityExamples.write true 1 ++ [FlushTake]), [FlushCommit; FlushTruncate], false, 2.
  eexists. split_and!; [by vm_compute|set_solver|].
  intros p Hp. vm_compute in Hp. apply elem_of_cons in Hp as [->|[]%not_elem_of_nil]. done.
Qed.

(** Replay can duplicate committed rows.  Each commit overwrites the ids of the
    one before; after two crashes between commit and truncation the log still holds
    the first transaction, which the property no longer names. *)
Theorem second_window_crash_duplicates :
  ∃ t p, DurabilityExamples.erun (empty_table DurabilityExamples.sch)
      (DurabilityExamples.write true 1 ++ [FlushTake; FlushCommit; CrashReopen] ++
       DurabilityExamples.write false 2 ++ [FlushTake; FlushCommit; CrashReopen]) = Some t ∧
    pw_tx_id p = true ∧ p ∈ tb_committed t ∧ p ∈ tb_pending t.
Proof.
  eexists _, {| pw_batch := DurabilityExamples.batch_of 1; pw_tx_id := true |}.
  split_and!; [by vm_compute|done|by left|by vm_compute; left].
Qed.

(** A flush that fails after its manifest commit (at the catalog update or the
    truncation) puts the committed batches back into the write buffer, and the retry
    commits them a second time. *)
Theorem failed_flush_after_commit_duplicates :
  ∃ t p, DurabilityExamples.erun (empty_table DurabilityExamples.sch)
      (DurabilityExamples.write true 1 ++
       [FlushTake; FlushCommit; FlushFails; FlushTake; FlushCommit; FlushTruncate]) = Some t ∧
    tb_committed t = [p; p].
Proof. eexists _, _. split; by vm_compute. Qed.

