(* ===== verification/Lock.v ===== *)
(** * The distributed lock ([src/src/core/lock.rs])

    A lock is one object whose payload names the owner and the time its lease
    expires.  Acquiring creates the object, or replaces an expired one by a
    conditional put; a heartbeat renews the lease and dropping the guard deletes the
    object.  Every [await] lets other clients run: [env n] is what they do to the
    store before the [n]-th call of an operation. *)

From S2P Require Import Prelude ObjectStore.

Record LockPayload := {
  owner : string;
  expires_at : Z;
}.
#[export] Instance LockPayload_eq_dec : EqDecision LockPayload.
Proof. solve_decision. Defined.
#[export] Instance LockPayload_countable : Countable LockPayload.
Proof.
  refine (inj_countable' (fun p => (owner p, expires_at p))
    (fun t => {| owner := t.1; expires_at := t.2 |}) _). by intros [].
Defined.

Record FileBasedLock := {
  lk_path : string;
  lk_owner : string;
  ttl_seconds : Z;
  clock_skew_ms : Z;
}.

Definition FileBasedLock_new (path uuid : string) (ttl : Z) : FileBasedLock :=
  {| lk_path := path; lk_owner := uuid; ttl_seconds := ttl; clock_skew_ms := 5000 |}.

Definition with_clock_skew (l : FileBasedLock) (ms : Z) : FileBasedLock :=
  {| lk_path := lk_path l; lk_owner := lk_owner l; ttl_seconds := ttl_seconds l;
     clock_skew_ms := ms |}.

Record LockGuard := {
  g_path : string;
  g_owner : string;
}.

Section Lock.
Context {S V : Type} `{!ObjectStore S V, !Codec LockPayload}.

(** The clock of one attempt: seconds when the payload is built, milliseconds when
    the expiry is checked. *)
Record clock := {
  now_secs : Z;
  now_millis : Z;
}.

Definition new_payload (l : FileBasedLock) (now : Z) : LockPayload :=
  {| owner := lk_owner l; expires_at := wrap_u64 (now + ttl_seconds l) |}.

(** [current_time_ms > (expires_at * 1000) + clock_skew_ms], in [u64]. *)
Definition lease_expired (skew : Z) (p : LockPayload) (now_ms : Z) : bool :=
  bool_decide (wrap_u64 (wrap_u64 (expires_at p * 1000) + skew) < now_ms)%Z.

Definition spawn_heartbeat (l : FileBasedLock) : LockGuard :=
  {| g_path := lk_path l; g_owner := lk_owner l |}.

Definition try_acquire (env : nat → S → S) (l : FileBasedLock) (c : clock) (st : S) :
    S * result os_error (option LockGuard) :=
  let payload := to_bytes (new_payload l (now_secs c)) in
  match os_put (env 0 st) (lk_path l) payload Create with
  | (st, Ok _) => (st, Ok (Some (spawn_heartbeat l)))
  | (st, Err AlreadyExists) =>
      let st := env 1 st in
      match os_get st (lk_path l) with
      | Ok (current, meta) =>
          let is_expired :=
            match from_bytes (A:=LockPayload) current with
            | Some p => lease_expired (clock_skew_ms l) p (now_millis c)
            | None => false
            end in
          if is_expired then
            match os_put (env 2 st) (lk_path l) payload (Update meta) with
            | (st, Ok _) => (st, Ok (Some (spawn_heartbeat l)))
            | (st, Err NotImplemented) | (st, Err NotSupported) =>
                let st := (os_delete (env 3 st) (lk_path l)).1 in
                match os_put (env 4 st) (lk_path l) payload Create with
                | (st, Ok _) => (st, Ok (Some (spawn_heartbeat l)))
                | (st, Err _) => (st, Ok None)
                end
            | (st, Err _) => (st, Ok None)
            end
          else (st, Ok None)
      | Err _ => (st, Ok None)
      end
  | (st, Err e) => (st, Err e)
  end.

(** The delay before attempt [n + 1]; [rnd] is [rand::random::<u64>()]. *)
Definition backoff_ms (attempt : nat) (rnd : Z) : Z :=
  let base_delay := (50 * 2 ^ Z.of_nat (Nat.min attempt 6))%Z in
  (base_delay + rnd mod base_delay)%Z.

Definition max_retries : nat := 100.

Inductive lock_error := StoreError (e : os_error) | Exhausted.

(** [acquire], from attempt [attempt] on with [fuel] attempts left. *)
Fixpoint acquire_from (env : nat → nat → S → S) (l : FileBasedLock) (c : nat → clock)
    (fuel attempt : nat) (st : S) : S * result lock_error LockGuard :=
  match fuel with
  | 0 => (st, Err Exhausted)
  | Datatypes.S fuel =>
      match try_acquire (env attempt) l (c attempt) st with
      | (st, Ok (Some guard)) => (st, Ok guard)
      | (st, Ok None) => acquire_from env l c fuel (Datatypes.S attempt) st
      | (st, Err e) => (st, Err (StoreError e))
      end
  end.

Definition acquire (env : nat → nat → S → S) (l : FileBasedLock) (c : nat → clock) (st : S) :=
  acquire_from env l c max_retries 0 st.

(** One wake-up of the heartbeat task; the flag says whether it goes on. *)
Definition heartbeat_tick (env : nat → S → S) (l : FileBasedLock) (now : Z) (st : S) : S * bool :=
  let st := env 0 st in
  match os_get st (lk_path l) with
  | Ok (current, meta) =>
      match from_bytes (A:=LockPayload) current with
      | Some p =>
          if decide (owner p ≠ lk_owner l) then (st, false)
          else ((os_put (env 1 st) (lk_path l) (to_bytes (new_payload l now)) (Update meta)).1, true)
      | None => ((os_put (env 1 st) (lk_path l) (to_bytes (new_payload l now)) (Update meta)).1, true)
      end
  | Err _ => (st, true)
  end.

(** The task spawned by [Drop for LockGuard]. *)
Definition guard_drop (env : nat → S → S) (g : LockGuard) (st : S) : S :=
  let st := env 0 st in
  match os_get st (g_path g) with
  | Ok (current, _) =>
      match from_bytes (A:=LockPayload) current with
      | Some p => if decide (owner p = g_owner g) then (os_delete (env 1 st) (g_path g)).1 else st
      | None => st
      end
  | Err _ => st
  end.

(** ** Properties *)

Context `{!ObjectStoreLaws S V}.

(** The lease an object holds. *)
Definition lease (st : S) (path : string) : option LockPayload :=
  x ← os_objs st path; from_bytes x.1.

(** The store supports conditional puts on this path. *)
Definition supports_update (path : string) : Prop :=
  ∀ st b m st' e, os_put st path b m = (st', Err e) → e ≠ NotImplemented ∧ e ≠ NotSupported.

Definition interferes (env : nat → S → S) : Prop := ∀ n st, rtc os_step st (env n st).

Lemma os_put_step st p b m : os_step st (os_put st p b m).1.
Proof. eapply os_step_put. apply surjective_pairing. Qed.

(** A conditional put that succeeds replaces the content that was read. *)
Lemma update_replaces_read st st1 p x v b st2 v' :
  os_get st p = Ok (x, v) → rtc os_step st st1 → os_put st1 p b (Update v) = (st2, Ok v') →
  os_objs st1 p = Some (x, v) ∧ os_objs st2 p = Some (b, v').
Proof.
  intros Hg%os_get_ok Hst Hp. apply os_put_ok in Hp as [[Hnew _] [b0 Hold]].
  split; [|done]. rewrite Hold. do 2 f_equal. symmetry. eapply os_version_content; eauto.
Qed.

(** The put that wins found no lease, or an expired one. *)
Lemma acquire_takes env l c st st' g :
  interferes env → supports_update (lk_path l) →
  try_acquire env l c st = (st', Ok (Some g)) →
  g_owner g = lk_owner l ∧ lease st' (lk_path l) = Some (new_payload l (now_secs c)) ∧
  ∃ before, rtc os_step st before ∧ os_step before st' ∧
    (os_objs before (lk_path l) = None ∨
     ∃ p, lease before (lk_path l) = Some p ∧
       lease_expired (clock_skew_ms l) p (now_millis c) = true).
Proof.
  intros Henv Hup. unfold try_acquire.
  destruct (os_put (env 0 st) (lk_path l) _ Create) as [s1 [v|e]] eqn:Hc.
  - intros [= <- <-]. pose proof (os_step_put _ _ _ _ _ _ Hc) as Hstep.
    apply os_put_ok in Hc as [[Hnew _] Hold].
    split_and!; [done|unfold lease; rewrite Hnew; apply from_to_bytes|]. eauto.
  - pose proof (os_step_put _ _ _ _ _ _ Hc) as Hstep.
    destruct e; try done. destruct (os_get (env 1 s1) (lk_path l)) as [[cur v]|] eqn:Hg; [|done].
    destruct (from_bytes cur) as [p|] eqn:Hp; [|done].
    destruct (lease_expired (clock_skew_ms l) p (now_millis c)) eqn:He; [|done].
    destruct (os_put (env 2 (env 1 s1)) (lk_path l) _ (Update v)) as [s2 [v2|e2]] eqn:Hs.
    2: { destruct (Hup _ _ _ _ _ Hs). by destruct e2. }
    intros [= <- <-]. pose proof (os_step_put _ _ _ _ _ _ Hs) as Hstep2.
    eapply update_replaces_read in Hs as [Hold Hnew]; [|done|apply Henv].
    split_and!; [done|unfold lease; rewrite Hnew; apply from_to_bytes|].
    exists (env 2 (env 1 s1)). split_and!; [|done|].
    + etrans; [apply (Henv 0)|]. eapply rtc_l; [done|]. etrans; apply Henv.
    + right. exists p. split; [|done]. unfold lease. by rewrite Hold.
Qed.

(** C19: On a store that supports conditional updates of the lock object, and whatever
    other clients do between the calls: when [try_acquire] returns a guard, the put that
    won found the lock object absent, or holding a lease that had expired (clock skew
    included) and had not been touched since it was read; afterwards the object names
    the new owner.  (Without conditional updates an expired lease is deleted and created
    again, and a live one can be taken: [fallback_takes_live_lease].) *)
Theorem try_acquire_takes_only_expired env l c st st' g :
  interferes env → supports_update (lk_path l) →
  try_acquire env l c st = (st', Ok (Some g)) →
  g_owner g = lk_owner l ∧ lease st' (lk_path l) = Some (new_payload l (now_secs c)) ∧
  ∃ before, rtc os_step st before ∧ os_step before st' ∧
    (os_objs before (lk_path l) = None ∨
     ∃ p, lease before (lk_path l) = Some p ∧
       lease_expired (clock_skew_ms l) p (now_millis c) = true).
Proof. apply acquire_takes. Qed.

(** The lock object holds a lease that has not expired by the clock of [c]. *)
Definition live (l : FileBasedLock) (c : clock) (st : S) : Prop :=
  ∃ p, lease st (lk_path l) = Some p ∧
    lease_expired (clock_skew_ms l) p (now_millis c) = false.

(** An object that holds a lease with [Q], which says that it has not expired. *)
Lemma guarded_lease_blocks (Q : LockPayload → Prop) env l c st st' r :
  (∀ p, Q p → lease_expired (clock_skew_ms l) p (now_millis c) = false) →
  let held s := ∃ p, lease s (lk_path l) = Some p ∧ Q p in
  (∀ n s, held s → held (env n s)) → held st →
  try_acquire env l c st = (st', r) → (∀ g, r ≠ Ok (Some g)) ∧ held st'.
Proof.
  intros HQ held Henv Hst. unfold try_acquire. apply (Henv 0) in Hst as (p & Hp & Hx). unfold lease in Hp.
  destruct (os_objs (env 0 st) (lk_path l)) as [[b v]|] eqn:Ho; [|done]. simpl in Hp.
  destruct (os_put (env 0 st) (lk_path l) _ Create) as [s1 r1] eqn:Hc.
  pose proof (os_put_create_keeps _ _ _ _ _ _ _ Hc Ho) as Hkeep.
  assert (held s1) as Hl1. { exists p. unfold lease. by rewrite Hkeep. }
  destruct r1 as [v1|e].
  { apply os_put_ok in Hc as [_ Hc]. congruence. }
  destruct e; try (intros [= <- <-]; split; [by intros|done]).
  apply (Henv 1) in Hl1. pose proof Hl1 as (p' & Hp' & Hx'). unfold lease in Hp'.
  destruct (os_get (env 1 s1) (lk_path l)) as [[cur v1]|] eqn:Hg;
    [|intros [= <- <-]; split; [by intros|done]].
  apply os_get_ok in Hg. rewrite Hg in Hp'. simpl in Hp'. rewrite Hp', (HQ _ Hx').
  intros [= <- <-]. split; [by intros|done].
Qed.

(** Mutual exclusion while a lease is live.  As long as the lock object holds a
    lease that has not expired by the caller's clock, [try_acquire] returns no guard
    and leaves the object alone. *)
Theorem live_lease_blocks_acquire env l c st st' r :
  (∀ n s, live l c s → live l c (env n s)) → live l c st →
  try_acquire env l c st = (st', r) → (∀ g, r ≠ Ok (Some g)) ∧ live l c st'.
Proof. by apply guarded_lease_blocks. Qed.

(** A lock object that cannot be parsed blocks every acquisition (fail closed). *)
Theorem unparseable_lock_fails_closed env l c st st' r x :
  (∀ n s, env n s = s) → os_objs st (lk_path l) = Some x → from_bytes (A:=LockPayload) x.1 = None →
  try_acquire env l c st = (st', r) →
  (∀ g, r ≠ Ok (Some g)) ∧ os_objs st' (lk_path l) = Some x.
Proof.
  intros Henv Ho Hx. unfold try_acquire. rewrite !Henv.
  destruct (os_put st (lk_path l) _ Create) as [s1 r1] eqn:Hc.
  pose proof (os_put_create_keeps _ _ _ _ _ _ _ Hc Ho) as Hkeep.
  destruct r1 as [v1|e]; [apply os_put_ok in Hc as [_ Hc]; congruence|].
  destruct e; try (intros [= <- <-]; split; [by intros|done]). rewrite !Henv.
  destruct (os_get s1 (lk_path l)) as [[cur v1]|] eqn:Hg;
    [|intros [= <- <-]; split; [by intros|done]].
  apply os_get_ok in Hg. rewrite Hkeep in Hg. simplify_eq/=. rewrite Hx.
  intros [= <- <-]. split; [by intros|done].
Qed.

(** A heartbeat renews only its own lease: if its put changes the lock object,
    the replaced content was a lease of the same owner (or could not be parsed), and
    a heartbeat that finds another owner stops without writing. *)
Theorem heartbeat_renews_only_own env l now st st' cont :
  interferes env → heartbeat_tick env l now st = (st', cont) →
  (cont = false → ∃ p, lease st' (lk_path l) = Some p ∧ owner p ≠ lk_owner l) ∧
  (∃ mid, rtc os_step st mid ∧ (mid = st' ∨ os_step mid st') ∧
    (os_objs st' (lk_path l) = os_objs mid (lk_path l) ∨
     lease st' (lk_path l) = Some (new_payload l now) ∧
     ∀ p, lease mid (lk_path l) = Some p → owner p = lk_owner l)).
Proof.
  intros Henv. unfold heartbeat_tick. pose proof (Henv 0 st) as H0. set (s0 := env 0 st) in *.
  destruct (os_get s0 (lk_path l)) as [[cur v]|] eqn:Hg.
  2: { intros [= <- <-]. split; [done|]. exists s0. split_and!; [done|by left|by left]. }
  pose proof (os_get_ok _ _ _ Hg) as Ho.
  assert (∀ b s1 r, os_put (env 1 s0) (lk_path l) b (Update v) = (s1, r) →
    os_objs s1 (lk_path l) = os_objs (env 1 s0) (lk_path l) ∨
    (∃ v', os_objs s1 (lk_path l) = Some (b, v')) ∧
    os_objs (env 1 s0) (lk_path l) = Some (cur, v)) as Hput.
  { intros b s1 r Hp. destruct r as [v'|e].
    - right. eapply update_replaces_read in Hp as [? ?]; [|done|apply Henv]. eauto.
    - apply os_put_err in Hp as [Hp|(_ & v' & [Hnew _] & [b0 Hold])]; [left; apply Hp|].
      right. split; [eauto|]. rewrite Hold. do 2 f_equal. symmetry.
      eapply os_version_content; [apply (Henv 1)|exact Ho|exact Hold]. }
  assert (∀ s1, (∀ p, from_bytes cur = Some p → owner p = lk_owner l) →
    s1 = (os_put (env 1 s0) (lk_path l) (to_bytes (new_payload l now)) (Update v)).1 →
    ∃ mid, rtc os_step st mid ∧ (mid = s1 ∨ os_step mid s1) ∧
    (os_objs s1 (lk_path l) = os_objs mid (lk_path l) ∨
     lease s1 (lk_path l) = Some (new_payload l now) ∧
     ∀ p, lease mid (lk_path l) = Some p → owner p = lk_owner l)) as Hdone.
  { intros s1 Hown ->. exists (env 1 s0).
    split_and!; [etrans; [exact H0|apply Henv]|right; apply os_put_step|].
    edestruct Hput as [Hs|[[v' Hn] Hold]]; [apply surjective_pairing|by left|right].
    split; [unfold lease; rewrite Hn; apply from_to_bytes|].
    intros p. unfold lease. rewrite Hold. apply Hown. }
  destruct (from_bytes cur) as [p|] eqn:Hp.
  - case_decide as Hown; intros [= <- <-].
    + split; [intros _; exists p; unfold lease; by rewrite Ho|].
      exists s0. split_and!; [done|by left|by left].
    + split; [done|]. apply Hdone; [|done]. intros ? [= <-].
      by destruct (decide (owner p = lk_owner l)).
  - intros [= <- <-]. split; [done|]. by apply Hdone.
Qed.

Lemma acquire_from_attempt env l c fuel k st st' g :
  acquire_from env l c fuel k st = (st', Ok g) →
  ∃ n s, k ≤ n < k + fuel ∧ try_acquire (env n) l (c n) s = (st', Ok (Some g)).
Proof.
  revert k st. induction fuel as [|fuel IH]; intros k s Ha; simpl in Ha; [done|].
  destruct (try_acquire (env k) l (c k) s) as [s1 [[g'|]|e]] eqn:Ht; [| |done].
  - simplify_eq. exists k, s. split; [lia|done].
  - apply IH in Ha as (n & s2 & Hn & Ht2). exists n, s2. split; [lia|done].
Qed.

(** [acquire] makes at most [max_retries] attempts and returns a guard only if
    one of them did; it waits less than 6.4 seconds between two attempts. *)
Theorem acquire_bounded env l c st st' g :
  acquire env l c st = (st', Ok g) →
  (∃ n s, n < max_retries ∧ try_acquire (env n) l (c n) s = (st', Ok (Some g))) ∧
  ∀ n rnd, (0 ≤ rnd)%Z → (50 ≤ backoff_ms n rnd < 6400)%Z.
Proof.
  intros Hacq. split.
  - apply acquire_from_attempt in Hacq as (n & s & Hn & Ht).
    exists n, s. split; [unfold max_retries in *; lia|done].
  - intros n rnd Hr. unfold backoff_ms.
    assert (1 ≤ 2 ^ Z.of_nat (Nat.min n 6) ≤ 64)%Z as Hb.
    { split; [lia|]. change 64%Z with (2 ^ 6)%Z. apply Z.pow_le_mono_r; lia. }
    pose proof (Z.mod_pos_bound rnd (50 * 2 ^ Z.of_nat (Nat.min n 6))). lia.
Qed.

(** The expiry test is exact while the arithmetic stays in range: a lease taken at
    second [now] with time-to-live [ttl] is expired exactly when the clock passes its
    end by more than the skew allowance. *)
Theorem lease_expiry_exact l now now_ms :
  (0 ≤ now)%Z → (0 ≤ ttl_seconds l)%Z → (0 ≤ clock_skew_ms l)%Z →
  ((now + ttl_seconds l) * 1000 + clock_skew_ms l < 2 ^ 64)%Z →
  lease_expired (clock_skew_ms l) (new_payload l now) now_ms = true ↔
  ((now + ttl_seconds l) * 1000 + clock_skew_ms l < now_ms)%Z.
Proof.
  intros. unfold lease_expired, new_payload. simpl.
  assert (is_u64 (now + ttl_seconds l) ∧ is_u64 ((now + ttl_seconds l) * 1000) ∧
          is_u64 ((now + ttl_seconds l) * 1000 + clock_skew_ms l)) as (? & ? & ?)
    by (unfold is_u64; lia).
  rewrite (wrap_u64_small (now + _)), (wrap_u64_small (_ * 1000)), wrap_u64_small by done.
  apply bool_decide_eq_true.
Qed.

End Lock.

(** ** Where the protocol has gaps, and witnesses *)

Module LockExamples.
Import MemStore.
#[export] Instance payload_codec : Codec LockPayload := countable_codec.
Abbreviation store := (gmap string bytes).
Definition lock_of (o : string) : FileBasedLock := FileBasedLock_new "t.lock" o 30.
Definition at_sec (n : Z) : clock := {| now_secs := n; now_millis := n * 1000 |}.
Definition quiet : nat → store → store := fun _ st => st.
Definition held_by (o : string) (expires : Z) : store :=
  {["t.lock" := to_bytes {| owner := o; expires_at := expires |}]}.
(** [B] attempts an acquisition at the second store call of another client. *)
Definition b_steals (at_ : Z) : nat → store → store :=
  fun n st => match n with
              | 1 => (try_acquire quiet (lock_of "B") (at_sec at_) st).1
              | _ => st
              end.
Lemma mem_supports_update p : supports_update (S:=store) p.
Proof. intros st b m st' e. simpl. unfold mem_put. destruct m; repeat case_match; intros; simplify_eq; done. Qed.
Lemma quiet_interferes : interferes quiet.
Proof. intros n st. reflexivity. Qed.
End LockExamples.
Import MemStore LockExamples.

(** Dropping a guard can delete another client's live lock: the owner check and
    the delete are separate store calls, so a lock stolen between them (here by [B],
    after [A]'s lease had expired) is removed although [B]'s lease is live. *)
Theorem guard_drop_can_delete_live_lock :
  ∃ st p, let A := spawn_heartbeat (LockExamples.lock_of "A") in
    let env := LockExamples.b_steals 100 in
    lease (env 1 st) "t.lock" = Some p ∧ owner p = "B" ∧
    lease_expired 5000 p 100000 = false ∧
    lease (guard_drop env A st) "t.lock" = None.
Proof.
  exists (LockExamples.held_by "A" 30). eexists.
  split_and!; [by vm_compute|by vm_compute|by vm_compute|by vm_compute].
Qed.

(** Without conditional updates: [C] reads the expired lease of [A], then [B] takes the lock,
    then [C] deletes the live lease of [B], and both hold a guard. *)
Definition local_acquire (env : nat → store → store) (o : string) (st : store)
  : store * result os_error (option LockGuard) :=
  try_acquire (ObjectStore0 := local_store) env (LockExamples.lock_of o) (LockExamples.at_sec 100) st.
Theorem fallback_takes_live_lease :
  let st := LockExamples.held_by "A" 30 in
  let b := local_acquire LockExamples.quiet "B" in
  let c := local_acquire (fun n st => if decide (n = 3) then (b st).1 else st) "C" st in
  (b st).2 = Ok (Some (spawn_heartbeat (LockExamples.lock_of "B")))
  ∧ c.2 = Ok (Some (spawn_heartbeat (LockExamples.lock_of "C")))
  ∧ lease (b st).1 "t.lock" = Some {| owner := "B"; expires_at := 130 |}
  ∧ lease c.1 "t.lock" = Some {| owner := "C"; expires_at := 130 |}.
Proof. split_and!; by vm_compute. Qed.

Lemma try_acquire_takes_only_expired_witness :
  let r := try_acquire LockExamples.quiet (LockExamples.lock_of "B") (LockExamples.at_sec 100)
             (LockExamples.held_by "A" 30) in
  r.2 = Ok (Some (spawn_heartbeat (LockExamples.lock_of "B"))) ∧
  lease r.1 "t.lock" = Some {| owner := "B"; expires_at := 130 |}.
Proof.
  intros r.
  assert (r.2 = Ok (Some (spawn_heartbeat (LockExamples.lock_of "B")))) as Hr by by vm_compute.
  split; [exact Hr|].
  refine (proj1 (proj2 (try_acquire_takes_only_expired LockExamples.quiet
    (LockExamples.lock_of "B") (LockExamples.at_sec 100) (LockExamples.held_by "A" 30) r.1
    (spawn_heartbeat (LockExamples.lock_of "B")) LockExamples.quiet_interferes
    (LockExamples.mem_supports_update _) _))).
  rewrite <- Hr. apply surjective_pairing.
Defined.

Lemma live_lease_blocks_acquire_witness :
  let r := try_acquire LockExamples.quiet (LockExamples.lock_of "B") (LockExamples.at_sec 20)
             (LockExamples.held_by "A" 30) in
  r.2 ≠ Ok (Some (spawn_heartbeat (LockExamples.lock_of "B"))).
Proof.
  intros r. eapply (live_lease_blocks_acquire LockExamples.quiet (LockExamples.lock_of "B")
    (LockExamples.at_sec 20) (LockExamples.held_by "A" 30) r.1 r.2); [done| |apply surjective_pairing].
  exists {| owner := "A"; expires_at := 30 |}. split; by vm_compute.
Defined.

Lemma unparseable_lock_fails_closed_witness :
  let st : LockExamples.store := {["t.lock" := [Byte.x00; Byte.x00]]} in
  ∀ g, (try_acquire LockExamples.quiet (LockExamples.lock_of "B") (LockExamples.at_sec 20) st).2
    ≠ Ok (Some g).
Proof.
  intros st. eapply (unparseable_lock_fails_closed LockExamples.quiet (LockExamples.lock_of "B")
    (LockExamples.at_sec 20) st); [done| | |apply surjective_pairing].
  - by vm_compute.
  - by vm_compute.
Defined.

Lemma heartbeat_renews_only_own_witness :
  let r := heartbeat_tick LockExamples.quiet (LockExamples.lock_of "A") 15
             (LockExamples.held_by "B" 30) in
  r.2 = false ∧ ∃ p, lease r.1 "t.lock" = Some p ∧ owner p ≠ "A".
Proof.
  intros r. split; [by vm_compute|].
  refine (proj1 (heartbeat_renews_only_own LockExamples.quiet (LockExamples.lock_of "A") 15
    (LockExamples.held_by "B" 30) r.1 r.2 LockExamples.quiet_interferes _) _).
  - apply surjective_pairing.
  - by vm_compute.
Defined.

Lemma acquire_bounded_witness :
  let r := acquire (fun _ => LockExamples.quiet) (LockExamples.lock_of "B")
             (fun n => LockExamples.at_sec (34 + Z.of_nat n)) (LockExamples.held_by "A" 30) in
  ∃ n s, n < max_retries ∧
    (try_acquire LockExamples.quiet (LockExamples.lock_of "B")
       (LockExamples.at_sec (34 + Z.of_nat n)) s).2 =
    Ok (Some (spawn_heartbeat (LockExamples.lock_of "B"))).
Proof.
  intros r.
  destruct (acquire_bounded (fun _ => LockExamples.quiet) (LockExamples.lock_of "B")
    (fun n => LockExamples.at_sec (34 + Z.of_nat n)) (LockExamples.held_by "A" 30) r.1
    (spawn_heartbeat (LockExamples.lock_of "B"))) as [(n & s & Hn & Ht) _].
  { assert (r.2 = Ok (spawn_heartbeat (LockExamples.lock_of "B"))) as <- by by vm_compute.
    apply surjective_pairing. }
  exists n, s. split; [done|]. by rewrite Ht.
Defined.

Lemma lease_expiry_exact_witness :
  lease_expired 5000 (new_payload (LockExamples.lock_of "A") 1000) 1035001 = true.
Proof. apply (lease_expiry_exact (LockExamples.lock_of "A")); by vm_compute. Defined.
