(* ===== verification/Manifest.v ===== *)
(** * Planning a manifest commit ([src/src/core/manifest/manager/])

    The pure part of the manifest manager: path qualification, the rebase of a change
    onto the current entries, delete-file collection and the construction of the next
    manifest for each kind of commit.  [ManifestStore] runs these against the store. *)

From S2P Require Import Prelude Json ManifestTypes Properties.

(** ** Paths *)

Definition strip_scheme (s : string) : string := default s (strip_prefix "file://" s).

Definition relativize_file_path (root_uri file_path : string) : string :=
  let root_local := trim_end slash (strip_scheme root_uri) in
  if decide (root_local = "") then file_path else
  let path_local := strip_scheme file_path in
  match strip_prefix root_local path_local with
  | Some rest => trim_start slash rest
  | None => file_path
  end.

(** A store-relative path made absolute, as the commit writes it. *)
Definition qualify (root_uri file_path : string) : string :=
  if negb (str_contains "://" file_path) && negb (starts_with "/" file_path)
  then trim_end slash root_uri +:+ "/" +:+ trim_start slash file_path
  else file_path.

(** ** A change *)

Record CommitMetadata := {
  updated_schemas : option (list TableSchema);
  updated_schema_id : option Z;
  updated_partition_specs : option (list PartitionSpec);
  updated_default_spec_id : option Z;
  updated_properties : option (gmap string string);
  removed_properties : option (list string);
  updated_sort_orders : option (list SortOrder);
  updated_default_sort_order_id : option Z;
  updated_last_column_id : option Z;
  md_format_version : option Z;
  is_fast_append : bool;
  require_remove_paths_exist : bool;
  skip_missing_remove_paths : bool;
  discard_add_on_missing_remove : bool;
}.

Definition CommitMetadata_default : CommitMetadata :=
  {| updated_schemas := None; updated_schema_id := None; updated_partition_specs := None;
     updated_default_spec_id := None; updated_properties := None; removed_properties := None;
     updated_sort_orders := None; updated_default_sort_order_id := None;
     updated_last_column_id := None; md_format_version := None; is_fast_append := false;
     require_remove_paths_exist := false; skip_missing_remove_paths := false;
     discard_add_on_missing_remove := false |}.

Abbreviation entry_map := (gmap string ManifestEntry).

(** [collect] into a map by path: a later entry replaces an earlier one. *)
Definition map_by_path (es : list ManifestEntry) : entry_map :=
  foldl (fun m e => <[me_file_path e := e]> m) ∅ es.

(** Compaction rebase: is the whole commit a no-op? *)
Definition discards (md : CommitMetadata) (active : entry_map) (remove_paths : list string) : bool :=
  discard_add_on_missing_remove md &&
  existsb (fun p => bool_decide (active !! p = None)) remove_paths.

(** The remove loop; [None] is the failed compaction precondition. *)
Fixpoint remove_all (md : CommitMetadata) (active : entry_map) (remove_paths : list string) :
    option entry_map :=
  match remove_paths with
  | [] => Some active
  | path :: paths =>
      if bool_decide (active !! path = None) &&
         (require_remove_paths_exist md && negb (skip_missing_remove_paths md))
      then None
      else remove_all md (delete path active) paths
  end.

Definition all_new (active : entry_map) (add_entries : list ManifestEntry) : bool :=
  forallb (fun e => bool_decide (active !! me_file_path e = None)) add_entries.

(** One added entry: the indexes of a better indexed existing entry are kept. *)
Definition merge_indexes (existing : option ManifestEntry) (entry : ManifestEntry) : ManifestEntry :=
  match existing with
  | Some ex => if decide (length (me_index_files entry) < length (me_index_files ex))
               then with_index_files entry (me_index_files ex) else entry
  | None => entry
  end.
Definition add_entry (active : entry_map) (entry : ManifestEntry) : entry_map :=
  <[me_file_path entry := merge_indexes (active !! me_file_path entry) entry]> active.
Definition add_all (active : entry_map) (add_entries : list ManifestEntry) : entry_map :=
  foldl add_entry active add_entries.

(** The global delete list: the new ones are appended unless their path is known. *)
Definition push_delete (acc : list DeleteFile) (df : DeleteFile) : list DeleteFile :=
  if decide (df_file_path df ∈ df_file_path <$> acc) then acc else acc ++ [df].
Definition collect_deletes (current : list DeleteFile) (add_entries : list ManifestEntry) :
    list DeleteFile :=
  foldl push_delete current (add_entries ≫= me_delete_files).

Definition qualified (root_uri : string) (e : ManifestEntry) : ManifestEntry :=
  with_delete_files (with_file_path e (qualify root_uri (me_file_path e))) [].

(** The schema handed to the manifest writer. *)
Definition write_schema (md : CommitMetadata) (current : Manifest) : TableSchema :=
  default TableSchema_default
    (match (match updated_schemas md with Some s => last s | None => None end) with
     | Some s => Some s
     | None => last (m_schemas current)
     end).

Definition updated_props (md : CommitMetadata) (props : gmap string string) : gmap string string :=
  let props := match updated_properties md with Some u => u ∪ props | None => props end in
  let props := match removed_properties md with
               | Some ks => foldr delete props ks
               | None => props
               end in
  normalize_embedding_properties props.

(** Step 3 of [commit]: the manifest of version [current_ver + 1]. *)
Definition next_manifest (now : Z) (md : CommitMetadata) (current : Manifest) (current_ver : Z)
    (deletes : list DeleteFile) (list_path : option string) : Manifest :=
  let spec := match updated_partition_specs md with
              | Some specs => default (m_partition_spec current) (last specs)
              | None => m_partition_spec current
              end in
  let base := new_with_spec now (current_ver + 1) [] (Some current_ver)
                (default (m_schemas current) (updated_schemas md))
                (default (m_current_schema_id current) (updated_schema_id md)) spec in
  {| m_version := m_version base;
     m_format_version := default (m_format_version current) (md_format_version md);
     m_timestamp_ms := m_timestamp_ms base;
     m_manifest_list_path := list_path;
     m_entries := m_entries base;
     m_delete_files := deletes;
     m_prev_version := m_prev_version base;
     m_schemas := m_schemas base;
     m_current_schema_id := m_current_schema_id base;
     m_partition_spec := m_partition_spec base;
     m_partition_specs := default (m_partition_specs current) (updated_partition_specs md);
     m_default_spec_id := default (m_default_spec_id current) (updated_default_spec_id md);
     m_sort_orders := default (m_sort_orders current) (updated_sort_orders md);
     m_default_sort_order_id :=
       default (m_default_sort_order_id current) (updated_default_sort_order_id md);
     m_properties := updated_props md (m_properties current);
     m_last_column_id := default (m_last_column_id current) (updated_last_column_id md) |}.

(** The property check of [commit]. *)
Definition check_properties (md : CommitMetadata) (current next : Manifest) (has_data : bool) :
    result property_error unit :=
  match updated_properties md, removed_properties md with
  | None, None => Ok ()
  | _, _ => validate_embedding_property_transition (m_properties current) (m_properties next) has_data
  end.

(** ** The other commits *)

(** What [commit_imported_entries] and [commit_synced_snapshot] carry over from the
    current manifest into one built with [new_with_spec]. *)
Definition carry_over (current base : Manifest) : Manifest :=
  {| m_version := m_version base;
     m_format_version := m_format_version current;
     m_timestamp_ms := m_timestamp_ms base;
     m_manifest_list_path := m_manifest_list_path current;
     m_entries := m_entries base;
     m_delete_files := m_delete_files current;
     m_prev_version := m_prev_version base;
     m_schemas := m_schemas base;
     m_current_schema_id := m_current_schema_id base;
     m_partition_spec := m_partition_spec base;
     m_partition_specs := m_partition_specs current;
     m_default_spec_id := m_default_spec_id current;
     m_sort_orders := m_sort_orders current;
     m_default_sort_order_id := m_default_sort_order_id current;
     m_properties := m_properties current;
     m_last_column_id := m_last_column_id base |}.

Definition based_on (now : Z) (current : Manifest) (current_ver : Z)
    (entries : list ManifestEntry) : Manifest :=
  new_with_spec now (current_ver + 1) entries (Some current_ver) (m_schemas current)
    (m_current_schema_id current) (m_partition_spec current).

(** An index update applies to entries that still exist. *)
Definition update_existing (m : entry_map) (e : ManifestEntry) : entry_map :=
  match m !! me_file_path e with
  | Some _ => <[me_file_path e := e]> m
  | None => m
  end.

Definition imported_manifest (now : Z) (current : Manifest) (current_ver : Z)
    (all_existing entries : list ManifestEntry) : Manifest :=
  let merged := foldl update_existing (map_by_path all_existing) entries in
  carry_over current (based_on now current current_ver (map_to_list merged).*2).

(** The reconciliation loop of [commit_synced_snapshot]: the first occurrence of a
    path takes the existing entry's indexes. *)
Fixpoint sync_entries (existing : entry_map) (snapshot : list ManifestEntry) :
    list ManifestEntry :=
  match snapshot with
  | [] => []
  | e :: rest =>
      let e' := match existing !! me_file_path e with
                | Some ex => if bool_decide (me_index_files e = []) &&
                                negb (bool_decide (me_index_files ex = []))
                             then with_index_files e (me_index_files ex) else e
                | None => e
                end in
      e' :: sync_entries (delete (me_file_path e) existing) rest
  end.

Definition synced_manifest (now : Z) (current : Manifest) (current_ver : Z)
    (all_existing snapshot : list ManifestEntry) : Manifest :=
  carry_over current
    (based_on now current current_ver (sync_entries (map_by_path all_existing) snapshot)).

(** [update_partition_spec] *)
Definition respecced_manifest (now : Z) (current : Manifest) (current_ver : Z)
    (new_spec : PartitionSpec) : Manifest :=
  let base := new_with_spec now (current_ver + 1) (m_entries current) (Some current_ver)
                (m_schemas current) (m_current_schema_id current) new_spec in
  {| m_version := m_version base;
     m_format_version := m_format_version current;
     m_timestamp_ms := m_timestamp_ms base;
     m_manifest_list_path := m_manifest_list_path current;
     m_entries := m_entries base;
     m_delete_files := m_delete_files current;
     m_prev_version := m_prev_version base;
     m_schemas := m_schemas base;
     m_current_schema_id := m_current_schema_id base;
     m_partition_spec := m_partition_spec base;
     m_partition_specs := m_partition_specs base;
     m_default_spec_id := m_default_spec_id base;
     m_sort_orders := m_sort_orders base;
     m_default_sort_order_id := m_default_sort_order_id base;
     m_properties := m_properties current;
     m_last_column_id := m_last_column_id base |}.

(** [update_schema] *)
Definition reschemaed_manifest (now : Z) (current : Manifest) (current_ver : Z)
    (new_schemas : list TableSchema) (new_schema_id : Z) (last_column_id : option Z) : Manifest :=
  let base := new_with_spec now (current_ver + 1) (m_entries current) (Some current_ver)
                new_schemas new_schema_id (m_partition_spec current) in
  {| m_version := m_version base;
     m_format_version := m_format_version current;
     m_timestamp_ms := m_timestamp_ms base;
     m_manifest_list_path := m_manifest_list_path current;
     m_entries := m_entries base;
     m_delete_files := m_delete_files current;
     m_prev_version := m_prev_version base;
     m_schemas := m_schemas base;
     m_current_schema_id := m_current_schema_id base;
     m_partition_spec := m_partition_spec base;
     m_partition_specs := m_partition_specs base;
     m_default_spec_id := m_default_spec_id base;
     m_sort_orders := m_sort_orders base;
     m_default_sort_order_id := m_default_sort_order_id base;
     m_properties := m_properties base;
     m_last_column_id := default (m_last_column_id current) last_column_id |}.

(** [update_properties] *)
Definition with_properties (now : Z) (current : Manifest) (current_ver : Z)
    (properties : gmap string string) : Manifest :=
  {| m_version := current_ver + 1;
     m_format_version := m_format_version current;
     m_timestamp_ms := now;
     m_manifest_list_path := m_manifest_list_path current;
     m_entries := m_entries current;
     m_delete_files := m_delete_files current;
     m_prev_version := Some current_ver;
     m_schemas := m_schemas current;
     m_current_schema_id := m_current_schema_id current;
     m_partition_spec := m_partition_spec current;
     m_partition_specs := m_partition_specs current;
     m_default_spec_id := m_default_spec_id current;
     m_sort_orders := m_sort_orders current;
     m_default_sort_order_id := m_default_sort_order_id current;
     m_properties := properties;
     m_last_column_id := m_last_column_id current |}.

(** [update_identifier_fields]: the new schema version. *)
Definition identifier_schema (latest : TableSchema) (new_ids : list Z) : TableSchema :=
  {| sc_schema_id := sc_schema_id latest + 1;
     sc_table_fields :=
       (fun f => if decide (sf_id f ∈ new_ids)
                 then {| sf_id := sf_id f; sf_name := sf_name f; sf_type_str := sf_type_str f;
                         sf_required := true; sf_nested := sf_nested f;
                         sf_initial_default := sf_initial_default f;
                         sf_write_default := sf_write_default f; sf_indexes := sf_indexes f |}
                 else f) <$> sc_table_fields latest;
     sc_identifier_field_ids := new_ids |}.

(** [update_index_specs]: fields with their new index lists, and whether any changed. *)
Definition reindexed_fields (column_indexes : gmap string (list string)) (fs : list SchemaField) :
    list SchemaField :=
  (fun f => match column_indexes !! sf_name f with
            | Some l => {| sf_id := sf_id f; sf_name := sf_name f; sf_type_str := sf_type_str f;
                           sf_required := sf_required f; sf_nested := sf_nested f;
                           sf_initial_default := sf_initial_default f;
                           sf_write_default := sf_write_default f; sf_indexes := l |}
            | None => f
            end) <$> fs.

Definition reindexed_manifest (now : Z) (current : Manifest) (current_ver : Z)
    (schemas : list TableSchema) (schema_id : Z) : Manifest :=
  let base := new_with_spec now (current_ver + 1) (m_entries current) (Some current_ver)
                schemas schema_id (m_partition_spec current) in
  {| m_version := m_version base;
     m_format_version := m_format_version current;
     m_timestamp_ms := m_timestamp_ms base;
     m_manifest_list_path := m_manifest_list_path current;
     m_entries := m_entries base;
     m_delete_files := m_delete_files current;
     m_prev_version := m_prev_version base;
     m_schemas := m_schemas base;
     m_current_schema_id := m_current_schema_id base;
     m_partition_spec := m_partition_spec base;
     m_partition_specs := m_partition_specs base;
     m_default_spec_id := m_default_spec_id base;
     m_sort_orders := m_sort_orders base;
     m_default_sort_order_id := m_default_sort_order_id base;
     m_properties := m_properties current;
     m_last_column_id := m_last_column_id base |}.

(** [rollback_to_snapshot]: the target under a new version. *)
Definition rolled_back (target : Manifest) (current_ver : Z) : Manifest :=
  {| m_version := current_ver + 1;
     m_format_version := m_format_version target;
     m_timestamp_ms := m_timestamp_ms target;
     m_manifest_list_path := m_manifest_list_path target;
     m_entries := m_entries target;
     m_delete_files := m_delete_files target;
     m_prev_version := Some current_ver;
     m_schemas := m_schemas target;
     m_current_schema_id := m_current_schema_id target;
     m_partition_spec := m_partition_spec target;
     m_partition_specs := m_partition_specs target;
     m_default_spec_id := m_default_spec_id target;
     m_sort_orders := m_sort_orders target;
     m_default_sort_order_id := m_default_sort_order_id target;
     m_properties := m_properties target;
     m_last_column_id := m_last_column_id target |}.

(** ** Properties *)

Lemma trim_start_id s : starts_with "/" s = false → trim_start slash s = s.
Proof.
  destruct s as [|c s]; [done|]. unfold starts_with, slash. simpl.
  case_bool_decide as Hs; [done|]. intros _. rewrite decide_False; [done|].
  intros ->. apply Hs. by rewrite decide_True.
Qed.

(** A trimmed, non-empty root without the scheme, extended by a relative path, does
    not start with the scheme. *)
Lemma no_scheme_qualified r p :
  strip_prefix "file://" r = None → trim_end slash r ≠ "" → starts_with "/" p = false →
  strip_prefix "file://" (trim_end slash r +:+ "/" +:+ p) = None.
Proof.
  intros Hr Hne Hp. destruct (trim_end_prefix slash r) as [t Ht].
  pose proof (trim_end_idemp slash r) as Hid.
  set (u := trim_end slash r) in *. clearbody u.
  destruct (strip_prefix "file://" (u +:+ "/" +:+ p)) as [x|] eqn:E; [|done].
  apply strip_prefix_Some in E. exfalso. rewrite Ht in Hr. clear Ht.
  destruct u as [|c1 u]; [done|]. injection E as -> E.
  destruct u as [|c2 u]; [discriminate|]. injection E as -> E.
  destruct u as [|c3 u]; [discriminate|]. injection E as -> E.
  destruct u as [|c4 u]; [discriminate|]. injection E as -> E.
  destruct u as [|c5 u]; [discriminate|]. injection E as -> E.
  destruct u as [|c6 u].
  { assert (p = String.String slash x) as -> by (by injection E). by vm_compute in Hp. }
  injection E as -> E.
  destruct u as [|c7 u]; [by vm_compute in Hid|]. injection E as -> E. by vm_compute in Hr.
Qed.

(** Qualifying a store-relative path for an Iceberg manifest and relativizing it
    on the way back gives the same path, for every root URI with a non-empty local
    part, so an entry keeps its identity through a commit. *)
Theorem relativize_qualify root_uri p :
  trim_end slash (strip_scheme root_uri) ≠ "" →
  str_contains "://" p = false → starts_with "/" p = false →
  relativize_file_path root_uri (qualify root_uri p) = p.
Proof.
  intros Hroot Hc Hs. unfold qualify. rewrite Hc, Hs, trim_start_id by done. simpl.
  unfold relativize_file_path. rewrite decide_False by done.
  assert (∀ r, strip_scheme r = match strip_prefix "file://" r with Some x => x | None => r end)
    as Hsch by done.
  rewrite !Hsch. rewrite Hsch in Hroot.
  destruct (strip_prefix "file://" root_uri) as [r|] eqn:Er.
  - apply strip_prefix_Some in Er as ->. rewrite trim_end_app by done.
    rewrite <- string_app_assoc, strip_prefix_app, strip_prefix_app.
    change (trim_start slash p = p). by apply trim_start_id.
  - rewrite no_scheme_qualified by done. rewrite strip_prefix_app.
    change (trim_start slash p = p). by apply trim_start_id.
Qed.

Lemma relativize_qualify_witness :
  relativize_file_path "file:///data/t" (qualify "file:///data/t" "year=2024/a.parquet") =
    "year=2024/a.parquet".
Proof. apply relativize_qualify; by vm_compute. Defined.

(** The root is matched as a string prefix and not as a path prefix: a file of a
    sibling table whose name extends the root's is taken for a file of this table and
    loses part of its path. *)
Theorem relativize_confuses_siblings :
  relativize_file_path "s3://lake/sales" "s3://lake/sales_2024/a.parquet" = "_2024/a.parquet" ∧
  relativize_file_path "s3://lake/sales" "s3://lake/costs/a.parquet" = "s3://lake/costs/a.parquet".
Proof. by vm_compute. Qed.

(** *** The rebase *)

Lemma remove_all_lookup md removes active active' p :
  remove_all md active removes = Some active' →
  active' !! p = if decide (p ∈ removes) then None else active !! p.
Proof.
  revert active. induction removes as [|r removes IH]; intros active; simpl.
  - intros [= <-]. reflexivity.
  - destruct (bool_decide _ && _); [done|]. intros H%IH. rewrite H, lookup_delete.
    repeat case_decide; subst; set_solver.
Qed.

(** The precondition policy: with [require_remove_paths_exist] alone a missing path
    fails the commit, otherwise removal always succeeds. *)
Lemma remove_all_fails md active removes :
  remove_all md active removes = None ↔
  require_remove_paths_exist md = true ∧ skip_missing_remove_paths md = false ∧
  ∃ pre p post, removes = pre ++ p :: post ∧ (active !! p = None ∨ p ∈ pre).
Proof.
  revert active. induction removes as [|r removes IH]; intros active; simpl.
  - split; [done|]. intros (_ & _ & pre & p & post & H & _). by destruct pre.
  - destruct (bool_decide (active !! r = None) && _) eqn:E.
    + apply andb_true_iff in E as [Hr%bool_decide_eq_true [Hq Hs%negb_true_iff]%andb_true_iff].
      split; [|done]. intros _. split_and!; [done|done|]. exists [], r, removes. auto.
    + rewrite IH. split; intros (Hq & Hs & pre & p & post & Hr & Hp); (split_and!; [done|done|]).
      * exists (r :: pre), p, post. split; [by rewrite Hr|]. rewrite lookup_delete in Hp.
        case_decide; subst; [right; by left|]. destruct Hp; [by left|right; by right].
      * destruct pre as [|r' pre]; simplify_eq/=.
        { rewrite Hq, Hs, andb_true_r in E. apply bool_decide_eq_false in E.
          destruct Hp as [?|[]%not_elem_of_nil]. done. }
        exists pre, p, post. split; [done|]. rewrite lookup_delete.
        case_decide; [by left|]. destruct Hp as [|[?|?]%elem_of_cons]; [by left|congruence|by right].
Qed.

Lemma add_all_other active adds p :
  p ∉ me_file_path <$> adds → add_all active adds !! p = active !! p.
Proof.
  revert active. induction adds as [|e adds IH]; intros active Hp; [done|].
  rewrite fmap_cons, not_elem_of_cons in Hp. destruct Hp as [Hp Hps].
  change (add_all (add_entry active e) adds !! p = active !! p). rewrite IH by done.
  unfold add_entry. by rewrite lookup_insert_ne.
Qed.

Lemma add_all_lookup active adds e :
  NoDup (me_file_path <$> adds) → e ∈ adds →
  add_all active adds !! me_file_path e = Some (merge_indexes (active !! me_file_path e) e).
Proof.
  revert active. induction adds as [|e' adds IH]; intros active Hnd He; [set_solver|].
  rewrite fmap_cons, NoDup_cons in Hnd. destruct Hnd as [Hn Hnd].
  change (add_all (add_entry active e') adds !! me_file_path e =
          Some (merge_indexes (active !! me_file_path e) e)).
  apply elem_of_cons in He as [->|He].
  - rewrite add_all_other by done. unfold add_entry. by rewrite lookup_insert_eq.
  - rewrite IH by done. unfold add_entry. rewrite lookup_insert_ne; [done|].
    intros Heq. apply Hn. rewrite Heq. by apply list_elem_of_fmap_2.
Qed.

(** *** Maps of entries by path *)

(** Every entry is under its own path. *)
Definition keyed (mp : entry_map) : Prop := ∀ k e, mp !! k = Some e → me_file_path e = k.

Abbreviation ins := (fun (a : entry_map) (e : ManifestEntry) => <[me_file_path e := e]> a).

Lemma keyed_insert mp e : keyed mp → keyed (<[me_file_path e := e]> mp).
Proof. intros Hk k e' [[<- <-]|[_ Hl]]%lookup_insert_Some; [done|by apply Hk]. Qed.

Lemma keyed_ins acc es : keyed acc → keyed (foldl ins acc es).
Proof. revert acc. induction es as [|e es IH]; intros acc Hk; [done|]. by apply IH, keyed_insert. Qed.

Lemma keyed_map_by_path es : keyed (map_by_path es).
Proof. by apply keyed_ins. Qed.

Lemma merge_indexes_path o e : me_file_path (merge_indexes o e) = me_file_path e.
Proof. unfold merge_indexes. repeat case_match; done. Qed.

Lemma keyed_add_all mp adds : keyed mp → keyed (add_all mp adds).
Proof.
  revert mp. induction adds as [|e adds IH]; intros mp Hk; [done|]. apply IH.
  unfold add_entry. rewrite <- (merge_indexes_path (mp !! me_file_path e) e) at 1.
  by apply keyed_insert.
Qed.

Lemma keyed_remove_all md mp removes mp' :
  keyed mp → remove_all md mp removes = Some mp' → keyed mp'.
Proof.
  intros Hk Hr k e. rewrite (remove_all_lookup _ _ _ _ k Hr). case_decide; [done|]. apply Hk.
Qed.

(** Later entries win; entries with distinct paths are all found. *)
Lemma ins_lookup acc es k :
  foldl ins acc es !! k =
  match last (filter (fun e => me_file_path e = k) es) with Some e => Some e | None => acc !! k end.
Proof.
  revert acc. induction es as [|e es IH]; intros acc; [done|]. simpl foldl. rewrite IH.
  rewrite filter_cons. case_decide as Hk.
  - rewrite last_cons. case_match; [done|]. rewrite <- Hk. by rewrite lookup_insert_eq.
  - case_match; [done|]. by rewrite lookup_insert_ne.
Qed.

(** Collecting the values of a keyed map gives the map back. *)
Lemma map_by_path_values mp : keyed mp → map_by_path (map_to_list mp).*2 = mp.
Proof.
  intros Hk. apply map_eq. intros k. unfold map_by_path. rewrite ins_lookup, lookup_empty.
  destruct (last _) as [e|] eqn:Hl.
  - apply last_Some_elem_of, list_elem_of_filter in Hl as [Hek Hin].
    apply list_elem_of_fmap in Hin as ([k' e'] & -> & Hin%elem_of_map_to_list).
    simpl in *. pose proof (Hk _ _ Hin). congruence.
  - apply last_None in Hl. destruct (mp !! k) as [e|] eqn:He; [|done].
    assert (e ∈ filter (fun e => me_file_path e = k) (map_to_list mp).*2) as Hin.
    { apply list_elem_of_filter. split; [by apply Hk|]. apply list_elem_of_fmap.
      exists (k, e). by rewrite elem_of_map_to_list. }
    rewrite Hl in Hin. by apply not_elem_of_nil in Hin.
Qed.

(** On a change that only adds new files the rebase inserts them as they are. *)
Lemma add_all_new active adds :
  NoDup (me_file_path <$> adds) → all_new active adds = true →
  add_all active adds = foldl ins active adds.
Proof.
  revert active. induction adds as [|e adds IH]; intros active; [done|].
  rewrite fmap_cons, NoDup_cons. intros [Hn Hnd] Hnew. unfold all_new in Hnew. simpl in Hnew.
  apply andb_true_iff in Hnew as [He%bool_decide_eq_true Hnew].
  change (add_all (add_entry active e) adds = foldl ins (<[me_file_path e := e]> active) adds).
  unfold add_entry. rewrite He. simpl. apply IH; [done|].
  apply forallb_elem_of. intros e' He'. apply bool_decide_eq_true.
  rewrite forallb_elem_of in Hnew. specialize (Hnew e' He'). apply bool_decide_eq_true in Hnew.
  rewrite lookup_insert_ne; [done|]. intros Heq. apply Hn. rewrite Heq. by apply list_elem_of_fmap_2.
Qed.
