(* ===== verification/ManifestStore.v ===== *)
(** * The manifest manager against the object store ([src/src/core/manifest/manager/])

    Loading ([load.rs]), committing, rolling back and vacuuming ([commit.rs]), schema,
    property and partition-spec updates ([schema.rs], [partition.rs]).

    A computation threads the [world]: the store and the process-wide caches.  Before
    each store call the rest of the system moves: [env] is an arbitrary change of the
    world (other processes' store operations, cache expiry, other tasks' insertions).
    Avro encoding and decoding of manifests is the interface [Iceberg], implemented by
    [core/iceberg]; the uploads of one commit run in list order here. *)

From S2P Require Import Prelude Json ObjectStore ManifestTypes Properties Manifest.

(** ** The Avro interface *)

Inductive IcebergManifestObject :=
| Data (e : ManifestEntry)
| Delete (d : DeleteFile).

Class Iceberg := {
  (** chunks of (bytes, file count, row count) *)
  write_manifest_chunks : list ManifestEntry → PartitionSpec → TableSchema → Z →
    option (list (bytes * Z * Z));
  (** (bytes, added, existing), or nothing to write *)
  write_delete_manifest : list DeleteFile → list string → PartitionSpec → TableSchema → Z →
    option (option (bytes * Z * Z));
  write_manifest_list : list ManifestListEntry → option bytes;
  read_manifest_list : bytes → option (list ManifestListEntry);
  (** [read_manifest] and [convert_iceberg_to_object]: status and object per record *)
  read_objects : TableSchema → PartitionSpec → bytes → option (list (Z * IcebergManifestObject));
}.

(** The fields of an entry that its bytes in a manifest determine: path, size, row count,
    checksum, first row id and indexes.  Statistics and partition values are decoded
    against the schema and the partition spec of the reader, delete files are attached by
    the load, and the clustering is not written. *)
Definition core (e : ManifestEntry) : ManifestEntry :=
  {| me_file_path := me_file_path e; me_file_size_bytes := me_file_size_bytes e;
     me_record_count := me_record_count e; me_file_checksum := me_file_checksum e;
     me_index_files := me_index_files e; me_delete_files := []; me_column_stats := ∅;
     me_partition_values := ∅; me_clustering := Clustering_default;
     me_first_row_id := me_first_row_id e |}.

(** The live records of a manifest file, and its data entries. *)
Definition live_objects (objs : list (Z * IcebergManifestObject)) : list (Z * IcebergManifestObject) :=
  filter (fun o => o.1 = 0%Z ∨ o.1 = 1%Z) objs.
Definition live_datas (objs : list (Z * IcebergManifestObject)) : list ManifestEntry :=
  omap (fun o => match o.2 with Data e => Some e | Delete _ => None end) (live_objects objs).
Definition data_cores (objs : list (Z * IcebergManifestObject)) : list ManifestEntry :=
  core <$> live_datas objs.

(** A manifest file that names no delete file. *)
Definition deletes_no_file (objs : list (Z * IcebergManifestObject)) : Prop :=
  Forall (fun o => match o.2 with Data e => me_delete_files e = [] | Delete _ => False end)
    (live_objects objs).

(** What [core/iceberg] promises to the manager. *)
Class IcebergLaws `{!Iceberg} := {
  read_core_indep sch spec sch' spec' b :
    data_cores <$> read_objects sch spec b = data_cores <$> read_objects sch' spec' b;
  chunks_read es spec sch ver chunks sch' spec' :
    write_manifest_chunks es spec sch ver = Some chunks →
    ∃ css, Forall2 (fun c cs => data_cores <$> read_objects sch' spec' c.1.1 = Some cs) chunks css ∧
      concat css = core <$> es;
  (** a data manifest holds data entries only ([convert_iceberg_to_object] gives them no
      delete files) *)
  chunks_data es spec sch ver chunks c sch' spec' objs :
    write_manifest_chunks es spec sch ver = Some chunks → c ∈ chunks →
    read_objects sch' spec' c.1.1 = Some objs → deletes_no_file objs;
  deletes_read ds prev spec sch ver b n k sch' spec' :
    write_delete_manifest ds prev spec sch ver = Some (Some (b, n, k)) →
    data_cores <$> read_objects sch' spec' b = Some [];
  list_read l b : write_manifest_list l = Some b → read_manifest_list b = Some l;
}.

Record ManifestManager := {
  mm_dir : string;
  mm_root : string;
}.

(** [ManifestManager::new]; [Path::from] drops the trailing slash *)
Definition ManifestManager_new (base_path root_uri : string) : ManifestManager :=
  {| mm_dir := (if decide (base_path = "") then "_manifest" else base_path +:+ "/_manifest");
     mm_root := trim_end slash root_uri |}.

Definition manifest_path (mm : ManifestManager) (filename : string) : string :=
  mm_dir mm +:+ "/" +:+ filename.

Definition version_file (v : Z) : string := "v" +:+ u64_to_string v +:+ ".json".
Definition version_path (mm : ManifestManager) (v : Z) : string :=
  manifest_path mm (version_file v).

(** [path.split('/').next_back()] *)
Definition file_name (path : string) : string :=
  default path (last (split_char slash path)).

(** The version a path names, if its file name has the form [v<u64>.json]. *)
Definition version_of (path : string) : option Z :=
  let filename := file_name path in
  if starts_with "v" filename && ends_with ".json" filename
  then parse_u64 (String.substring 1 (String.length filename - 6) filename)
  else None.

Inductive merr :=
| StoreErr (e : os_error)
| BadJson
| BadAvro
| CompactionPrecondition
| PropertyErr (e : property_error)
| VersionMismatch
| NoSchema
| RetentionZero
| VacuumAborted
| Exhausted.

Section Store.
Context {S V : Type} `{!ObjectStore S V, !Iceberg, !Codec Manifest}.
(** Decoding of a JSON manifest list; the conflict markers in an error's text; a fresh
    UUID; the wall clock; sizes of encodings. *)
Context (list_from_json : bytes → option (list ManifestListEntry)).
Context (conflict_text : os_error → bool).
Context (new_uuid : S → string).
Context (clock : nat → Z).
Context (mm : ManifestManager).

(** ** The world *)

Record world := {
  w_store : S;
  w_tick : nat;
  w_latest : option Z;                              (* LATEST_VERSION_CACHE *)
  w_manifests : gmap string Manifest;               (* MANIFEST_CACHE *)
  w_lists : gmap string (list ManifestListEntry);   (* MANIFEST_LIST_CACHE *)
}.

Context (env : nat → world → world).

Definition M (A : Type) : Type := world → world * result merr A.
#[export] Instance M_ret : MRet M := fun A a w => (w, Ok a).
#[export] Instance M_bind : MBind M := fun A B f m w =>
  match m w with
  | (w, Ok a) => f a w
  | (w, Err e) => (w, Err e)
  end.
Definition fail {A} (e : merr) : M A := fun w => (w, Err e).
Definition lift {A} (o : option A) (e : merr) : M A :=
  match o with Some a => mret a | None => fail e end.

Definition set_store (w : world) (st : S) : world :=
  {| w_store := st; w_tick := w_tick w; w_latest := w_latest w;
     w_manifests := w_manifests w; w_lists := w_lists w |}.
Definition set_latest (v : option Z) : M unit := fun w =>
  ({| w_store := w_store w; w_tick := w_tick w; w_latest := v;
      w_manifests := w_manifests w; w_lists := w_lists w |}, Ok ()).
Definition cache_manifest (p : string) (m : Manifest) : M unit := fun w =>
  ({| w_store := w_store w; w_tick := w_tick w; w_latest := w_latest w;
      w_manifests := <[p := m]> (w_manifests w); w_lists := w_lists w |}, Ok ()).
Definition cache_list (p : string) (l : list ManifestListEntry) : M unit := fun w =>
  ({| w_store := w_store w; w_tick := w_tick w; w_latest := w_latest w;
      w_manifests := w_manifests w; w_lists := <[p := l]> (w_lists w) |}, Ok ()).
Definition cached_manifest (p : string) : M (option Manifest) := fun w =>
  (w, Ok (w_manifests w !! p)).
Definition cached_list (p : string) : M (option (list ManifestListEntry)) := fun w =>
  (w, Ok (w_lists w !! p)).
Definition cached_latest : M (option Z) := fun w => (w, Ok (w_latest w)).
Definition now_millis : M Z := fun w => (w, Ok (clock (w_tick w))).

(** The rest of the system moves, then time advances. *)
Definition suspend (w : world) : world :=
  let w' := env (w_tick w) w in
  {| w_store := w_store w'; w_tick := Datatypes.S (w_tick w); w_latest := w_latest w';
     w_manifests := w_manifests w'; w_lists := w_lists w' |}.

(** ** Store calls *)

Definition sget (p : string) : M bytes := fun w =>
  let w := suspend w in
  match os_get (w_store w) p with
  | Ok (b, _) => (w, Ok b)
  | Err e => (w, Err (StoreErr e))
  end.

(** [put_opts] whose error the caller inspects *)
Definition sput (p : string) (b : bytes) (m : PutMode V) : M (result os_error V) := fun w =>
  let w := suspend w in
  let '(st, r) := os_put (w_store w) p b m in (set_store w st, Ok r).

(** [put] to a path with a fresh UUID in its name *)
Definition sput_fresh (name : string → string) (b : bytes) : M string := fun w =>
  let w := suspend w in
  let p := manifest_path mm (name (new_uuid (w_store w))) in
  let '(st, r) := os_put (w_store w) p b Overwrite in
  (set_store w st, match r with Ok _ => Ok p | Err e => Err (StoreErr e) end).

Definition slist : M (list string) := fun w =>
  let w := suspend w in
  match os_list (w_store w) with
  | Ok l => (w, Ok l)
  | Err e => (w, Err (StoreErr e))
  end.

Definition sdelete (p : string) : M unit := fun w =>
  let w := suspend w in
  let '(st, r) := os_delete (w_store w) p in
  (set_store w st, match r with Ok _ => Ok () | Err e => Err (StoreErr e) end).

(** ** Loading *)

Definition load_version (version : Z) : M Manifest :=
  let path := version_path mm version in
  c ← cached_manifest path;
  match c with
  | Some m => mret m
  | None =>
      b ← sget path;
      m ← lift (from_bytes b) BadJson;
      _ ← cache_manifest path m;
      mret m
  end.

(** The largest version of a listing: [>=] keeps the last of equals, [>] the first and
    never version 0. *)
Definition pick_direct (acc : Z * option string) (path : string) : Z * option string :=
  match version_of path with
  | Some ver => if decide (acc.1 ≤ ver)%Z then (ver, Some path) else acc
  | None => acc
  end.
Definition pick_latest (acc : Z * option string) (path : string) : Z * option string :=
  match version_of path with
  | Some ver => if decide (acc.1 < ver)%Z then (ver, Some path) else acc
  | None => acc
  end.

(** [self.store.list(Some(&self.manifest_dir))] *)
Definition list_manifests : M (list string) :=
  l ← slist; mret (filter (fun p => starts_with (mm_dir mm +:+ "/") p = true) l).

Definition load_latest_direct : M (Manifest * Z) :=
  l ← list_manifests;
  match foldl pick_direct (0%Z, None) (filter (fun p => ends_with ".json" p = true) l) with
  | (max_ver, Some loc) =>
      b ← sget loc;
      m ← lift (from_bytes b) BadJson;
      mret (m, max_ver)
  | (_, None) => mret (Manifest_default, 0%Z)
  end.

(** [exists]: is there anything in the manifest directory? *)
Definition manifests_exist : M bool :=
  l ← list_manifests; mret (negb (bool_decide (l = []))).

(** [invalidate_caches], after a table was dropped: the version cache of the table and
    the whole manifest cache. *)
Definition invalidate_caches : M unit := fun w =>
  ({| w_store := w_store w; w_tick := w_tick w; w_latest := None;
      w_manifests := ∅; w_lists := w_lists w |}, Ok ()).

(** The result of a computation whose error is handled. *)
Definition attempt {A} (m : M A) : M (result merr A) := fun w =>
  let '(w, r) := m w in (w, Ok r).

Definition load_latest_listed : M (Manifest * Z) :=
  l ← list_manifests;
  let '(max_ver, latest_path) := foldl pick_latest (0%Z, None) l in
  _ ← (if decide (0 < max_ver)%Z then set_latest (Some max_ver) else mret ());
  match latest_path with
  | Some path =>
      r ← attempt (load_version max_ver);
      match r with
      | Ok m => mret (m, max_ver)
      | Err _ =>
          b ← sget path;
          m ← lift (from_bytes b) BadJson;
          mret (m, max_ver)
      end
  | None => now ← now_millis; mret (Manifest_new now 0 [] None, 0%Z)
  end.

Definition load_latest : M (Manifest * Z) :=
  c ← cached_latest;
  match c with
  | Some ver =>
      r ← attempt (load_version ver);
      match r with
      | Ok m => mret (m, ver)
      | Err _ => load_latest_listed
      end
  | None => load_latest_listed
  end.

Definition load_manifest_list (path_str : string) : M (list ManifestListEntry) :=
  let path := manifest_path mm (file_name path_str) in
  c ← cached_list path;
  match c with
  | Some l => mret l
  | None =>
      b ← sget path;
      l ← (if ends_with ".avro" path_str then lift (read_manifest_list b) BadAvro
           else lift (list_from_json b) BadJson);
      _ ← cache_list path l;
      mret l
  end.

(** [delete_files.retain(|d| seen.insert(..))] *)
Definition dedupe_deletes (l : list DeleteFile) : list DeleteFile := foldl push_delete [] l.

Definition attach_deletes (deletes : list DeleteFile) (e : ManifestEntry) : ManifestEntry :=
  with_delete_files e
    (me_delete_files e ++
     filter (fun d => me_partition_values e = df_partition_values d) deletes).

(** The conversion part of [load_avro_manifest_static]. *)
Definition avro_manifest (now : Z) (objs : list (Z * IcebergManifestObject)) : Manifest :=
  let datas :=
    (fun e => with_file_path e (relativize_file_path (mm_root mm) (me_file_path e)))
      <$> live_datas objs in
  let deletes := dedupe_deletes (live_objects objs ≫= fun o => match o.2 with
                 | Data e => me_delete_files e
                 | Delete d => [{| df_file_path := relativize_file_path (mm_root mm) (df_file_path d);
                                   df_content := df_content d;
                                   df_file_size_bytes := df_file_size_bytes d;
                                   df_record_count := df_record_count d;
                                   df_partition_values := df_partition_values d |}]
                 end) in
  let m := Manifest_new now 0
             ((fun e => attach_deletes deletes (with_delete_files e [])) <$> datas) None in
  {| m_version := m_version m; m_format_version := m_format_version m;
     m_timestamp_ms := m_timestamp_ms m; m_manifest_list_path := m_manifest_list_path m;
     m_entries := m_entries m; m_delete_files := deletes; m_prev_version := m_prev_version m;
     m_schemas := m_schemas m; m_current_schema_id := m_current_schema_id m;
     m_partition_spec := m_partition_spec m; m_partition_specs := m_partition_specs m;
     m_default_spec_id := m_default_spec_id m; m_sort_orders := m_sort_orders m;
     m_default_sort_order_id := m_default_sort_order_id m; m_properties := m_properties m;
     m_last_column_id := m_last_column_id m |}.

Definition load_avro_manifest (path : string) (sch : TableSchema) (spec : PartitionSpec) :
    M Manifest :=
  c ← cached_manifest path;
  match c with
  | Some m => mret m
  | None =>
      b ← sget path;
      objs ← lift (read_objects sch spec b) BadAvro;
      now ← now_millis;
      let m := avro_manifest now objs in
      _ ← cache_manifest path m;
      mret m
  end.

Definition load_manifest_from_path (path : string) : M Manifest :=
  c ← cached_manifest path;
  match c with
  | Some m => mret m
  | None =>
      b ← sget path;
      m ← lift (from_bytes b) BadJson;
      _ ← cache_manifest path m;
      mret m
  end.

(** The schema used to decode statistics. *)
Definition read_schema (m : Manifest) : TableSchema :=
  default TableSchema_default
    (match list_find (fun s => sc_schema_id s = m_current_schema_id m) (m_schemas m) with
     | Some (_, s) => Some s
     | None => last (m_schemas m)
     end).

Definition load_manifest_file (m : Manifest) (f : ManifestListEntry) : M Manifest :=
  let path := manifest_path mm (file_name (ml_manifest_path f)) in
  if ends_with ".avro" path then load_avro_manifest path (read_schema m) (m_partition_spec m)
  else load_manifest_from_path path.

Fixpoint load_manifest_files (m : Manifest) (fs : list ManifestListEntry) (acc : entry_map) :
    M entry_map :=
  match fs with
  | [] => mret acc
  | f :: fs =>
      sub ← load_manifest_file m f;
      load_manifest_files m fs (foldl (fun a e => <[me_file_path e := e]> a) acc (m_entries sub))
  end.

Definition resolve_deletes (deletes : list DeleteFile) (e : ManifestEntry) : ManifestEntry :=
  with_delete_files e (filter (fun d => me_partition_values e = df_partition_values d) deletes).

(** Steps 2 and 3 of [load_all_entries]. *)
Definition overlay_inline (m : Manifest) (acc : entry_map) : entry_map :=
  let acc := foldl (fun a e =>
    let e := with_file_path e (relativize_file_path (mm_root mm) (me_file_path e)) in
    <[me_file_path e := e]> a) acc (m_entries m) in
  match m_delete_files m with
  | [] => acc
  | deletes => resolve_deletes deletes <$> acc
  end.

Definition load_all_entries (m : Manifest) : M (list ManifestEntry) :=
  acc ← (match m_manifest_list_path m with
         | Some list_path =>
             l ← load_manifest_list list_path;
             load_manifest_files m l ∅
         | None => mret ∅
         end);
  mret (map_to_list (overlay_inline m acc)).*2.

Definition load_latest_full : M (Manifest * list ManifestEntry * Z) :=
  mv ← load_latest;
  entries ← load_all_entries mv.1;
  mret (mv.1, entries, mv.2).

(** [walk_history]; a manifest precedes its successor, so the number of versions
    bounds the walk. *)
Fixpoint walk_back (fuel : nat) (current : Manifest) : M (list Manifest) :=
  match fuel, m_prev_version current with
  | Datatypes.S fuel, Some prev =>
      if decide (prev = 0%Z) then mret [] else
      r ← attempt (load_version prev);
      match r with
      | Ok m => rest ← walk_back fuel m; mret (m :: rest)
      | Err _ => mret []
      end
  | _, _ => mret []
  end.
Definition walk_history (fuel : nat) : M (list Manifest) :=
  mv ← load_latest;
  if decide (m_version mv.1 = 0%Z) then mret []
  else rest ← walk_back fuel mv.1; mret (mv.1 :: rest).

(** ** Committing *)

Definition is_already_exists (e : os_error) : bool :=
  bool_decide (e = AlreadyExists) || conflict_text e.

(** How the commit loops differ: number of tries, whether a retry bypasses the version
    cache, whether a conflict invalidates it, whether success publishes the version. *)
Record occ_policy := {
  oc_tries : nat;
  oc_direct_on_retry : bool;
  oc_invalidate_on_conflict : bool;
  oc_publish_version : bool;
}.

Definition load_head (pol : occ_policy) (attempt : nat) : M (Manifest * Z) :=
  if decide (attempt = 0) then load_latest
  else if oc_direct_on_retry pol then load_latest_direct else load_latest.

(** The optimistic loop all commits share: load the head, plan the next manifest (or
    return early), write [v<N+1>.json] with [PutMode::Create], retry on conflict. *)
Fixpoint occ_loop (pol : occ_policy) (plan : Manifest → Z → M (Manifest + Manifest))
    (fuel attempt : nat) : M Manifest :=
  match fuel with
  | 0 => fail Exhausted
  | Datatypes.S fuel =>
      mv ← load_head pol attempt;
      planned ← plan mv.1 mv.2;
      match planned with
      | inl early => mret early
      | inr new_manifest =>
          let path := version_path mm (m_version new_manifest) in
          r ← sput path (to_bytes new_manifest) Create;
          match r with
          | Ok _ =>
              _ ← set_latest (if oc_publish_version pol then Some (m_version new_manifest) else None);
              _ ← cache_manifest path new_manifest;
              mret new_manifest
          | Err e =>
              if is_already_exists e then
                _ ← (if oc_invalidate_on_conflict pol then set_latest None else mret ());
                occ_loop pol plan fuel (Datatypes.S attempt)
              else fail (StoreErr e)
          end
      end
  end.

Definition occ (pol : occ_policy) (plan : Manifest → Z → M (Manifest + Manifest)) : M Manifest :=
  occ_loop pol plan (oc_tries pol) 0.

(** One uploaded data or delete manifest and its entry in the list. *)
Definition list_entry (path : string) (len spec_id content ver added existing rows : Z) :
    ManifestListEntry :=
  {| ml_manifest_path := trim_end slash (mm_root mm) +:+ "/" +:+ trim_start slash path;
     ml_manifest_length := len; ml_partition_spec_id := spec_id; ml_content := content;
     ml_sequence_number := ver; ml_min_sequence_number := ver; ml_added_snapshot_id := ver;
     ml_added_files_count := added; ml_existing_files_count := existing;
     ml_deleted_files_count := 0; ml_added_rows_count := rows; ml_existing_rows_count := 0;
     ml_deleted_rows_count := 0 |}.

Fixpoint upload_chunks (spec_id ver : Z) (idx : nat) (chunks : list (bytes * Z * Z)) :
    M (list ManifestListEntry) :=
  match chunks with
  | [] => mret []
  | (b, file_count, row_count) :: chunks =>
      path ← sput_fresh (fun u => u +:+ "-m" +:+ u64_to_string (Z.of_nat idx) +:+ ".avro") b;
      rest ← upload_chunks spec_id ver (Datatypes.S idx) chunks;
      mret (list_entry path (Z.of_nat (length b)) spec_id 0 ver file_count 0 row_count :: rest)
  end.

Definition upload_deletes (spec : PartitionSpec) (sch : TableSchema) (ver : Z)
    (deletes : list DeleteFile) (previous : list string) : M (list ManifestListEntry) :=
  r ← lift (write_delete_manifest deletes previous spec sch ver) BadAvro;
  match r with
  | None => mret []
  | Some (b, added, existing) =>
      path ← sput_fresh (fun u => u +:+ "-d0.avro") b;
      mret [list_entry path (Z.of_nat (length b)) (ps_spec_id spec) 1 ver added existing 0]
  end.

(** Writing the manifests of a snapshot: [kept] are the previous manifests that stay
    referenced, [entries] the ones to encode. *)
Definition write_snapshot (md : CommitMetadata) (current : Manifest) (ver : Z)
    (kept : list ManifestListEntry) (entries : list ManifestEntry) (deletes : list DeleteFile) :
    M string :=
  let sch := write_schema md current in
  let spec := m_partition_spec current in
  chunks ← lift (write_manifest_chunks (qualified (mm_root mm) <$> entries) spec sch ver) BadAvro;
  data ← upload_chunks (ps_spec_id spec) ver 0 chunks;
  dels ← upload_deletes spec sch ver deletes (df_file_path <$> m_delete_files current);
  b ← lift (write_manifest_list (kept ++ data ++ dels)) BadAvro;
  sput_fresh (fun u => "snap-" +:+ u64_to_string ver +:+ "-" +:+ u +:+ ".avro") b.

(** The append-only branch of [commit]: the new entries in new manifests, next to the
    previous data manifests. *)
Definition write_appended (md : CommitMetadata) (current : Manifest) (ver : Z)
    (prev_manifest_files : list ManifestListEntry) (add_entries : list ManifestEntry)
    (deletes : list DeleteFile) : M string :=
  write_snapshot md current ver (filter (fun f => ml_content f = 0%Z) prev_manifest_files)
    add_entries deletes.

(** The other branch: every live entry is encoded again. *)
Definition write_rewritten (md : CommitMetadata) (current : Manifest) (ver : Z)
    (new_entries : list ManifestEntry) (deletes : list DeleteFile) : M string :=
  write_snapshot md current ver [] new_entries deletes.

Definition max_manifest_files_before_consolidation (var : option string) : nat :=
  match var ≫= parse_u64 with
  | Some v => if decide (0 < v)%Z then Z.to_nat v else 32
  | None => 32
  end.

Context (max_manifest_files : nat).

(** Is the append-only path taken, and which manifests does it keep? *)
Definition append_plan (current : Manifest) (active : entry_map) (removes : list string)
    (adds : list ManifestEntry) : M (bool * list ManifestListEntry) :=
  if negb (bool_decide (removes = []) && all_new active adds) then mret (false, []) else
  match m_manifest_list_path current with
  | None => mret (true, [])
  | Some path =>
      l ← load_manifest_list path;
      if decide (max_manifest_files ≤ length l) then mret (false, []) else mret (true, l)
  end.

(** One attempt of [commit] on the head [current]. *)
Definition plan_commit (adds : list ManifestEntry) (removes : list string) (md : CommitMetadata)
    (current : Manifest) (current_ver : Z) : M (Manifest + Manifest) :=
  all_entries ← load_all_entries current;
  let has_data := negb (bool_decide (all_entries = [])) || negb (bool_decide (adds = [])) in
  let active := map_by_path all_entries in
  if discards md active removes then mret (inl current) else
  active ← lift (remove_all md active removes) CompactionPrecondition;
  ap ← append_plan current active removes adds;
  let new_entries := (map_to_list (add_all active adds)).*2 in
  let deletes := collect_deletes (m_delete_files current) adds in
  list_path ←
    (match new_entries with
     | [] => mret None
     | _ =>
         if (ap.1 : bool) && negb (bool_decide (adds = []))
         then p ← write_appended md current (current_ver + 1) ap.2 adds deletes; mret (Some p)
         else p ← write_rewritten md current (current_ver + 1) new_entries deletes; mret (Some p)
     end);
  now ← now_millis;
  let next := next_manifest now md current current_ver deletes list_path in
  match check_properties md current next has_data with
  | Ok _ => mret (inr next)
  | Err e => fail (PropertyErr e)
  end.

Definition commit_policy : occ_policy :=
  {| oc_tries := 100; oc_direct_on_retry := true; oc_invalidate_on_conflict := true;
     oc_publish_version := true |}.

Definition commit (adds : list ManifestEntry) (removes : list string) (md : CommitMetadata) :
    M Manifest := occ commit_policy (plan_commit adds removes md).

Definition retry10 : occ_policy :=
  {| oc_tries := 10; oc_direct_on_retry := true; oc_invalidate_on_conflict := true;
     oc_publish_version := true |}.
(** [update_schema] and [update_properties] count one attempt more. *)
Definition retry11 : occ_policy :=
  {| oc_tries := 11; oc_direct_on_retry := true; oc_invalidate_on_conflict := true;
     oc_publish_version := true |}.
(** The loops that retry through the version cache. *)
Definition retry10_cached : occ_policy :=
  {| oc_tries := 10; oc_direct_on_retry := false; oc_invalidate_on_conflict := false;
     oc_publish_version := false |}.

Definition commit_imported_entries (entries : list ManifestEntry) : M Manifest :=
  occ retry10 (fun current ver =>
    all_existing ← load_all_entries current;
    now ← now_millis;
    mret (inr (imported_manifest now current ver all_existing entries))).

Definition commit_synced_snapshot (snapshot_entries : list ManifestEntry) : M Manifest :=
  occ retry10_cached (fun current ver =>
    all_existing ← load_all_entries current;
    now ← now_millis;
    mret (inr (synced_manifest now current ver all_existing snapshot_entries))).

Definition commit_manifest (manifest : Manifest) : M unit :=
  _ ← occ retry10_cached (fun _ ver =>
    if decide (m_version manifest = ver + 1)%Z then mret (inr manifest)
    else fail VersionMismatch);
  mret ().

Definition rollback_to_snapshot (version : Z) : M Manifest :=
  occ retry10_cached (fun _ ver =>
    target ← load_version version;
    mret (inr (rolled_back target ver))).

Definition update_partition_spec (new_spec : PartitionSpec) : M Manifest :=
  occ retry10 (fun current ver =>
    now ← now_millis; mret (inr (respecced_manifest now current ver new_spec))).

Definition update_schema (new_schemas : list TableSchema) (new_schema_id : Z)
    (last_column_id : option Z) : M Manifest :=
  occ retry11 (fun current ver =>
    now ← now_millis;
    mret (inr (reschemaed_manifest now current ver new_schemas new_schema_id last_column_id))).

Definition update_properties (properties : gmap string string) : M Manifest :=
  occ retry11 (fun current ver =>
    let properties := normalize_embedding_properties properties in
    let has_data := negb (bool_decide (m_entries current = [])) ||
                    bool_decide (is_Some (m_manifest_list_path current)) in
    match validate_embedding_property_transition (m_properties current) properties has_data with
    | Ok _ => now ← now_millis; mret (inr (with_properties now current ver properties))
    | Err e => fail (PropertyErr e)
    end).

Definition update_identifier_fields (new_ids : list Z) : M Manifest :=
  mv ← load_latest;
  match last (m_schemas mv.1) with
  | Some latest =>
      if decide (sc_identifier_field_ids latest = new_ids) then mret mv.1 else
      let new_schema := identifier_schema latest new_ids in
      update_schema (m_schemas mv.1 ++ [new_schema]) (sc_schema_id new_schema) None
  | None => fail NoSchema
  end.

Definition update_index_specs (column_indexes : gmap string (list string)) : M Manifest :=
  occ retry10 (fun current ver =>
    match last (m_schemas current) with
    | None => fail NoSchema
    | Some sch =>
        let fields := reindexed_fields column_indexes (sc_table_fields sch) in
        if decide (fields = sc_table_fields sch) then mret (inl current) else
        let new_schema := {| sc_schema_id := sc_schema_id sch + 1; sc_table_fields := fields;
                             sc_identifier_field_ids := sc_identifier_field_ids sch |} in
        now ← now_millis;
        mret (inr (reindexed_manifest now current ver (m_schemas current ++ [new_schema])
                     (sc_schema_id new_schema)))
    end).

(** ** Vacuum *)

(** age of an object in seconds when it is about to be deleted; the grace period *)
Context (age : nat → string → Z) (min_age : Z).

Definition entry_files (e : ManifestEntry) : list string :=
  me_file_path e :: (if_file_path <$> me_index_files e) ++ (df_file_path <$> me_delete_files e).
Definition manifest_files (m : Manifest) (entries : list ManifestEntry) : list string :=
  (entries ≫= entry_files) ++ (df_file_path <$> m_delete_files m).

(** [start..=latest] *)
Definition version_range (start latest : Z) : list Z := seqZ start (latest - start + 1).

(** The retention window: files referenced, manifest objects to keep. *)
Fixpoint scan_versions (vs : list Z) (active keep : gset string) : M (gset string * gset string) :=
  match vs with
  | [] => mret (active, keep)
  | v :: vs =>
      r ← attempt (load_version v);
      match r with
      | Err (StoreErr NotFound) => scan_versions vs active keep
      | Err _ => fail VacuumAborted
      | Ok m =>
          es ← attempt (load_all_entries m);
          match es with
          | Err _ => fail VacuumAborted
          | Ok es =>
              scan_versions vs (active ∪ list_to_set (manifest_files m es))
                (keep ∪ {[version_path mm v]} ∪
                 match m_manifest_list_path m with Some p => {[p]} | None => ∅ end)
          end
      end
  end.

Definition is_data_file (p : string) : bool :=
  existsb (fun s => ends_with s p) [".parquet"; ".hnsw"; ".idx"; ".tmp"].

Fixpoint delete_manifests (keep : gset string) (ps : list string) (n : nat) : M nat :=
  match ps with
  | [] => mret n
  | p :: ps =>
      if decide (p ∈ keep) then delete_manifests keep ps n
      else _ ← sdelete p; delete_manifests keep ps (Datatypes.S n)
  end.

Fixpoint delete_data (active : gset string) (ps : list string) (n : nat) : M nat :=
  match ps with
  | [] => mret n
  | p :: ps =>
      if decide (p ∈ active) then delete_data active ps n else
      tick ← (fun w => (w, Ok (w_tick w)));
      if decide (age tick p < min_age)%Z then delete_data active ps n
      else _ ← sdelete p; delete_data active ps (Datatypes.S n)
  end.

Definition vacuum_window (retention : nat) (latest_ver : Z) : Z :=
  Z.max 1 (saturating_sub latest_ver (Z.of_nat retention - 1)).

Definition vacuum (retention : nat) : M nat :=
  if decide (retention = 0) then fail RetentionZero else
  mv ← load_latest;
  let latest_ver := mv.2 in
  if decide (latest_ver = 0%Z) then mret 0 else
  ak ← scan_versions (version_range (vacuum_window retention latest_ver) latest_ver) ∅ ∅;
  l ← slist;
  let manifest_candidates := filter (fun p => str_contains "_manifest/v" p = true) l in
  let data_candidates :=
    filter (fun p => str_contains "_manifest/v" p = false ∧ str_contains "_manifest/" p = false ∧
                     is_data_file p = true) l in
  mv' ← load_latest;
  es ← attempt (load_all_entries mv'.1);
  match es with
  | Err _ => fail VacuumAborted
  | Ok es =>
      let active := ak.1 ∪ list_to_set (manifest_files mv'.1 es) in
      let keep := ak.2 ∪
        match m_manifest_list_path mv'.1 with Some p => {[p]} | None => ∅ end ∪
        list_to_set (version_path mm <$>
          version_range (vacuum_window retention mv'.2) mv'.2) in
      n ← delete_manifests keep manifest_candidates 0;
      delete_data active data_candidates n
  end.

End Store.
