(* ===== verification/ManifestSpec.v ===== *)
(** * Correctness of the manifest manager

    Commits linearize at the [PutMode::Create] of the version file: under any
    interleaving with other committers, a successful commit applied its change to the
    snapshot that was current at that instant, and its result is what every later
    reader loads.  The append-only path and the full rewrite agree.  The file ends with
    the cases in which a commit loses data. *)

From S2P Require Import Prelude Json ObjectStore ManifestTypes Properties Manifest ManifestStore.

(** ** Version files *)

Lemma file_name_child d f : has_char slash f = false → file_name (d +:+ "/" +:+ f) = f.
Proof.
  intros Hf. unfold file_name. destruct (last_split slash (d +:+ "/" +:+ f)) as (g & -> & Hg & Hs).
  simpl. change ("/" +:+ f) with (String.String slash f) in Hs.
  destruct Hs as [Hs|[a Hs]].
  - rewrite <- Hs, has_char_app in Hg. simpl in Hg. by rewrite orb_true_r in Hg.
  - revert a Hs. induction d as [|c d IH]; intros [|x a] Hs.
    + by injection Hs as ->.
    + injection Hs as <- Hs. rewrite Hs, has_char_app in Hf. simpl in Hf. by rewrite orb_true_r in Hf.
    + injection Hs as -> Hs. rewrite <- Hs, has_char_app in Hg. simpl in Hg. by rewrite orb_true_r in Hg.
    + injection Hs as _ Hs. by apply (IH a).
Qed.

Lemma substring_prefix d t : String.substring 0 (String.length d) (d +:+ t) = d.
Proof. induction d as [|c d IH]; [by destruct t|]. exact (f_equal (String.String c) IH). Qed.

Lemma version_file_no_slash v : has_char slash (version_file v) = false.
Proof.
  unfold version_file. rewrite !has_char_app.
  by rewrite (all_digits_no_char slash (u64_to_string v)) by (try apply all_digits_u64; done).
Qed.

Lemma version_of_file v path :
  file_name path = version_file v → version_of path = parse_u64 (u64_to_string v).
Proof.
  intros Hf. unfold version_of. rewrite Hf. unfold version_file.
  set (d := u64_to_string v).
  assert (starts_with "v" ("v" +:+ d +:+ ".json") = true) as ->.
  { unfold starts_with. by rewrite strip_prefix_app. }
  assert (ends_with ".json" ("v" +:+ d +:+ ".json") = true) as ->.
  { rewrite string_app_assoc. apply ends_with_app. }
  replace (String.length ("v" +:+ d +:+ ".json") - 6) with (String.length d)
    by (rewrite !length_string_app; simpl; lia).
  change (String.substring 1 (String.length d) ("v" +:+ d +:+ ".json"))
    with (String.substring 0 (String.length d) (d +:+ ".json")).
  by rewrite substring_prefix.
Qed.

(** ** The rebase on cores *)

Lemma core_lookup_None (mp : entry_map) k : core <$> mp !! k = None ↔ mp !! k = None.
Proof. destruct (mp !! k); naive_solver. Qed.

Lemma core_discards md mp removes : discards md (core <$> mp) removes = discards md mp removes.
Proof.
  unfold discards. f_equal. induction removes as [|p removes IH]; [done|]. simpl. rewrite IH. f_equal.
  apply bool_decide_ext. rewrite lookup_fmap. apply core_lookup_None.
Qed.

Lemma core_remove_all md mp removes :
  remove_all md (core <$> mp) removes = fmap (M:=gmap string) core <$> remove_all md mp removes.
Proof.
  revert mp. induction removes as [|p removes IH]; intros mp; [done|]. simpl.
  rewrite (bool_decide_ext _ (mp !! p = None)) by (rewrite lookup_fmap; apply core_lookup_None).
  case_match; [done|]. by rewrite <- fmap_delete, IH.
Qed.

Lemma core_merge_indexes o e : core (merge_indexes o e) = merge_indexes (core <$> o) (core e).
Proof. destruct o as [ex|]; [|done]. simpl. by repeat case_decide. Qed.

Lemma core_add_all mp adds : core <$> add_all mp adds = add_all (core <$> mp) (core <$> adds).
Proof.
  revert mp. induction adds as [|e adds IH]; intros mp; [done|].
  change (core <$> add_all (add_entry mp e) adds =
          add_all (add_entry (core <$> mp) (core e)) (core <$> adds)).
  rewrite IH. f_equal. unfold add_entry. rewrite fmap_insert, core_merge_indexes. simpl.
  by rewrite lookup_fmap.
Qed.

Lemma core_ins acc es : core <$> foldl ins acc es = foldl ins (core <$> acc) (core <$> es).
Proof.
  revert acc. induction es as [|e es IH]; intros acc; [done|]. simpl. rewrite IH.
  by rewrite fmap_insert.
Qed.

Lemma core_map_by_path es : core <$> map_by_path es = map_by_path (core <$> es).
Proof. unfold map_by_path. rewrite core_ins. by rewrite fmap_empty. Qed.

Section Paths.
Context (mm : ManifestManager).

Lemma version_of_path v : is_u64 v → version_of (version_path mm v) = Some v.
Proof.
  intros Hv. rewrite (version_of_file v); [by apply parse_u64_to_string|].
  apply file_name_child, version_file_no_slash.
Qed.

Lemma version_of_path_inv v u : (0 ≤ v)%Z → version_of (version_path mm v) = Some u → u = v.
Proof.
  intros Hv. rewrite (version_of_file v); [by apply parse_u64_inv|].
  apply file_name_child, version_file_no_slash.
Qed.

Lemma version_path_inj u v : (0 ≤ u)%Z → (0 ≤ v)%Z → version_path mm u = version_path mm v → u = v.
Proof.
  unfold version_path, manifest_path, version_file. intros Hu Hv Heq.
  apply string_app_inv_head in Heq. injection Heq as Heq.
  apply (app_suffix_inj (u64_to_string u) (u64_to_string v) ".json") in Heq.
  pose proof (parse_digits_u64 u Hu). pose proof (parse_digits_u64 v Hv). congruence.
Qed.

Lemma version_path_json v : ends_with ".json" (version_path mm v) = true.
Proof.
  unfold version_path, manifest_path, version_file. rewrite !string_app_assoc. apply ends_with_app.
Qed.

Lemma version_path_not_avro v : ends_with ".avro" (version_path mm v) = false.
Proof.
  destruct (ends_with ".avro" (version_path mm v)) eqn:E; [|done].
  apply ends_with_inv in E as [t E]. exfalso. revert E.
  unfold version_path, manifest_path, version_file. rewrite !string_app_assoc.
  intros E. by apply string_suffix_eq in E.
Qed.

Lemma version_path_in_dir v : starts_with (mm_dir mm +:+ "/") (version_path mm v) = true.
Proof.
  unfold version_path, manifest_path, starts_with. rewrite string_app_assoc, strip_prefix_app. done.
Qed.

(** A name ending in [.avro] is no version. *)
Lemma avro_no_version p : ends_with ".avro" p = true → version_of p = None.
Proof.
  intros Hp. unfold version_of, file_name.
  destruct (last_split slash p) as (f & -> & Hf & Hs). simpl.
  destruct (ends_with ".json" f) eqn:Hj; [|by rewrite andb_false_r].
  assert (ends_with ".avro" f = true) as Ha.
  { destruct Hs as [->|[a ->]]; [done|]. by rewrite ends_with_after in Hp. }
  apply ends_with_inv in Ha as [t ->]. apply ends_with_inv in Hj as [u Hj].
  by apply string_suffix_eq in Hj.
Qed.
End Paths.

(** ** What the store holds *)

Section Spec.
Context {S V : Type} `{!ObjectStore S V, !ObjectStoreLaws S V, !Iceberg, !IcebergLaws,
  !Codec Manifest}.
Context (list_from_json : bytes → option (list ManifestListEntry)).
Context (mm : ManifestManager).
Abbreviation world := (@world S).
Abbreviation vpath := (version_path mm).

Definition relativized (e : ManifestEntry) : ManifestEntry :=
  with_file_path e (relativize_file_path (mm_root mm) (me_file_path e)).

(** The entries of the manifest file at a path. *)
Definition cores_at (st : S) (p : string) : option (list ManifestEntry) :=
  x ← os_objs st p;
  if ends_with ".avro" p
  then objs ← read_objects TableSchema_default PartitionSpec_default x.1;
       Some (relativized <$> data_cores objs)
  else m ← from_bytes (A:=Manifest) x.1; Some (core <$> m_entries m).

(** The manifest list at a path. *)
Definition list_at (st : S) (ps : string) : option (list ManifestListEntry) :=
  x ← os_objs st (manifest_path mm (file_name ps));
  if ends_with ".avro" ps then read_manifest_list x.1 else list_from_json x.1.

Definition file_path_of (f : ManifestListEntry) : string :=
  manifest_path mm (file_name (ml_manifest_path f)).

(** The manifest files a manifest lists, and their entries by path. *)
Definition head_list (st : S) (m : Manifest) : option (list ManifestListEntry) :=
  match m_manifest_list_path m with Some ps => list_at st ps | None => Some [] end.
Definition listed (st : S) (m : Manifest) : option entry_map :=
  l ← head_list st m; css ← mapM (fun f => cores_at st (file_path_of f)) l;
  Some (map_by_path (concat css)).

(** The snapshot a manifest denotes: the listed entries, overlaid by the inline ones. *)
Definition snapshot (st : S) (m : Manifest) : option entry_map :=
  lm ← listed st m; Some (foldl ins lm (core ∘ relativized <$> m_entries m)).

(** The manifest of a version. *)
Definition stored (st : S) (v : Z) : option Manifest :=
  x ← os_objs st (vpath v); from_bytes x.1.

(** The version files present are those from [b] to [h]; 1 and 0 before the first. *)
Definition versions (st : S) (b h : Z) : Prop :=
  ((1 ≤ b ≤ h ∧ b < 2 ^ 64) ∨ (b = 1 ∧ h = 0))%Z ∧
  ∀ v, is_Some (os_objs st (vpath v)) ↔ (b ≤ v ≤ h)%Z.

Lemma versions_unique st b h b' h' : versions st b h → versions st b' h' → b' = b ∧ h' = h.
Proof.
  intros [Hb Hv] [Hb' Hv'].
  assert (∀ v, (b ≤ v ≤ h)%Z ↔ (b' ≤ v ≤ h')%Z) as Hiff by (intros v; by rewrite <- Hv, <- Hv').
  pose proof (Hiff b). pose proof (Hiff h). pose proof (Hiff b'). pose proof (Hiff h'). lia.
Qed.

(** Objects are only added, and versions consecutively. *)
Definition mono (st st' : S) : Prop :=
  ∀ p x, os_objs st p = Some x → os_objs st' p = Some x.
Definition reach (st st' : S) : Prop :=
  mono st st' ∧ ∀ b h, versions st b h → ∃ h', (h ≤ h')%Z ∧ versions st' b h'.

#[export] Instance mono_preorder : PreOrder mono.
Proof. split; [by intros ? ?|]. intros a b c H1 H2 p x Hp. by apply H2, H1. Qed.
#[export] Instance reach_preorder : PreOrder reach.
Proof.
  split.
  - intros st. split; [done|]. intros b h Hv. by exists h.
  - intros s1 s2 s3 [M1 V1] [M2 V2]. split; [by etrans|]. intros b h Hv.
    destruct (V1 b h Hv) as (h1 & ? & Hv1). destruct (V2 b h1 Hv1) as (h2 & ? & Hv2).
    exists h2. split; [lia|done].
Qed.

Lemma cores_at_mono st st' p cs : mono st st' → cores_at st p = Some cs → cores_at st' p = Some cs.
Proof.
  intros Hm. unfold cores_at. destruct (os_objs st p) as [x|] eqn:Hx; [|done].
  by rewrite (Hm p x Hx).
Qed.
Lemma list_at_mono st st' p l : mono st st' → list_at st p = Some l → list_at st' p = Some l.
Proof.
  intros Hm. unfold list_at. destruct (os_objs st _) as [x|] eqn:Hx; [|done].
  by rewrite (Hm _ x Hx).
Qed.
Lemma stored_mono st st' v m : mono st st' → stored st v = Some m → stored st' v = Some m.
Proof.
  intros Hm. unfold stored. destruct (os_objs st _) as [x|] eqn:Hx; [|done].
  by rewrite (Hm _ x Hx).
Qed.
Lemma mapM_cores_mono st st' l css :
  mono st st' → mapM (fun f => cores_at st (file_path_of f)) l = Some css →
  mapM (fun f => cores_at st' (file_path_of f)) l = Some css.
Proof.
  rewrite !mapM_Some. intros Hm Hl. eapply Forall2_impl; [done|]. intros f cs.
  by apply cores_at_mono.
Qed.
Lemma head_list_mono st st' m l : mono st st' → head_list st m = Some l → head_list st' m = Some l.
Proof. intros Hm. unfold head_list. case_match; [by apply list_at_mono|done]. Qed.
Lemma listed_mono st st' m lm : mono st st' → listed st m = Some lm → listed st' m = Some lm.
Proof.
  intros Hm. unfold listed. destruct (head_list st m) as [l|] eqn:Hl; [|done].
  rewrite (head_list_mono _ _ _ _ Hm Hl). simpl.
  destruct (mapM _ l) as [css|] eqn:Hcss; [|done]. simpl.
  by rewrite (mapM_cores_mono _ _ _ _ Hm Hcss).
Qed.
Lemma snapshot_mono st st' m cm : mono st st' → snapshot st m = Some cm → snapshot st' m = Some cm.
Proof.
  intros Hm. unfold snapshot. destruct (listed st m) as [lm|] eqn:Hl; [|done].
  by rewrite (listed_mono _ _ _ _ Hm Hl).
Qed.

(** Paths that survive qualification and relativization. *)
Definition stable_path (p : string) : Prop :=
  relativize_file_path (mm_root mm) (qualify (mm_root mm) p) = p ∧
  relativize_file_path (mm_root mm) p = p.

(** A manifest file whose entries bring no delete files of their own. *)
Definition data_only (st : S) (p : string) : Prop :=
  ∀ x, os_objs st p = Some x →
    if ends_with ".avro" p
    then ∀ sch spec objs, read_objects sch spec x.1 = Some objs → deletes_no_file objs
    else ∀ m, from_bytes (A:=Manifest) x.1 = Some m →
           Forall (fun e => me_delete_files e = []) (m_entries m).

(** Manifests as the commits leave them: entries only in the data manifests of the list
    (or inline), delete files only in the others, and stable paths. *)
Definition wf_files (st : S) (l : list ManifestListEntry) (css : list (list ManifestEntry)) : Prop :=
  Forall2 (fun f cs => cores_at st (file_path_of f) = Some cs ∧ (ml_content f ≠ 0%Z → cs = []) ∧
                       (ml_content f = 0%Z → data_only st (file_path_of f)) ∧
                       Forall (fun e => stable_path (me_file_path e)) cs) l css.
Definition wf_manifest (st : S) (m : Manifest) : Prop :=
  Forall (fun e => stable_path (me_file_path (relativized e))) (m_entries m) ∧
  match m_manifest_list_path m with
  | Some ps => ∃ l css, list_at st ps = Some l ∧ wf_files st l css
  | None => True
  end.

Lemma wf_files_mono st st' l css : mono st st' → wf_files st l css → wf_files st' l css.
Proof.
  intros Hm Hl. eapply Forall2_impl; [exact Hl|]. intros f cs (Hc & Hz & Hd & Hs).
  split_and!; [by eapply cores_at_mono|done| |done]. intros Hf x Hx. apply (Hd Hf).
  unfold cores_at in Hc. destruct (os_objs st (file_path_of f)) as [y|] eqn:Hy; [|done].
  by rewrite <- (Hm _ _ Hy), Hx.
Qed.
Lemma wf_manifest_mono st st' m : mono st st' → wf_manifest st m → wf_manifest st' m.
Proof.
  intros Hm [He Hl]. split; [done|]. destruct (m_manifest_list_path m); [|done].
  destruct Hl as (l & css & Hl & Hf). exists l, css.
  split; [by eapply list_at_mono|by eapply wf_files_mono].
Qed.

(** ** Sound worlds *)

(** [m] is the object at [p] decoded, an Avro file under some schema and partition spec. *)
Definition good_manifest (st : S) (p : string) (m : Manifest) : Prop :=
  ∃ x, os_objs st p = Some x ∧
    if ends_with ".avro" p
    then ∃ sch spec objs now, read_objects sch spec x.1 = Some objs ∧ m = avro_manifest mm now objs
    else from_bytes x.1 = Some m.

(** Names of version files in the manifest directory are canonical. *)
Definition names_ok (st : S) : Prop :=
  ∀ p v, is_Some (os_objs st p) → starts_with (mm_dir mm +:+ "/") p = true →
    version_of p = Some v → p = vpath v.

Record wok (w : world) : Prop := {
  wok_manifests p m : w_manifests w !! p = Some m → good_manifest (w_store w) p m;
  wok_lists p l ps : w_lists w !! p = Some l → manifest_path mm (file_name ps) = p →
    list_at (w_store w) ps = Some l;
  wok_names : names_ok (w_store w);
  wok_versions : ∃ b h, versions (w_store w) b h;
  wok_wf v m : stored (w_store w) v = Some m → wf_manifest (w_store w) m;
}.

(** What may happen around a computation. *)
Definition step (w w' : world) : Prop := reach (w_store w) (w_store w') ∧ (wok w → wok w').
#[export] Instance step_preorder : PreOrder step.
Proof.
  split; [by intros w; split|].
  intros w1 w2 w3 [R1 O1] [R2 O2]. split; [by etrans|by auto].
Qed.

Lemma good_manifest_mono st st' p m : mono st st' → good_manifest st p m → good_manifest st' p m.
Proof.
  intros Hm (x & Hx & Hf). exists x. split; [by apply Hm|done].
Qed.

(** Changes of the caches that keep them sound. *)
Lemma step_caches (w w' : world) :
  w_store w' = w_store w →
  (wok w → ∀ p m, w_manifests w' !! p = Some m → good_manifest (w_store w) p m) →
  (wok w → ∀ p l ps, w_lists w' !! p = Some l → manifest_path mm (file_name ps) = p →
     list_at (w_store w) ps = Some l) →
  step w w'.
Proof.
  intros Hst Hm Hl. split; [by rewrite Hst|]. intros Hw. split; rewrite ?Hst.
  - by apply Hm.
  - intros p l ps. by apply Hl.
  - apply Hw.
  - apply Hw.
  - apply Hw.
Qed.

(** ** Triples *)

Definition triple {A} (P : world → Prop) (c : M A) (Q : world → A → Prop) : Prop :=
  ∀ w w' r, wok w → P w → c w = (w', r) → step w w' ∧ ∀ a, r = Ok a → Q w' a.

Definition stable (F : world → Prop) : Prop := ∀ w w', step w w' → F w → F w'.

Lemma triple_ret {A} (P : world → Prop) (a : A) (Q : world → A → Prop) :
  (∀ w, wok w → P w → Q w a) → triple P (mret a) Q.
Proof. intros Hpq w w' r Hw HP [= <- <-]. split; [done|]. intros ? [= <-]. auto. Qed.

Lemma triple_fail {A} (P : world → Prop) e (Q : world → A → Prop) : triple P (fail e) Q.
Proof. intros w w' r Hw HP [= <- <-]. by split. Qed.

Lemma triple_bind {A B} P (c : M A) (f : A → M B) Q R :
  triple P c Q → (∀ a, triple (fun w => Q w a) (f a) R) → triple P (c ≫= f) R.
Proof.
  intros Hc Hf w w' r Hw HP Heq. unfold mbind, M_bind in Heq.
  destruct (c w) as [w1 [a|e]] eqn:Hcw.
  - destruct (Hc w w1 (Ok a) Hw HP Hcw) as [Hs1 HQ].
    destruct (Hf a w1 w' r) as [Hs2 HR]; [by apply Hs1|by apply HQ|done|].
    split; [by etrans|done].
  - simplify_eq. destruct (Hc w w' (Err e) Hw HP Hcw) as [Hs1 _]. by split.
Qed.

Lemma triple_lift {A} (P : world → Prop) (o : option A) e (Q : world → A → Prop) :
  (∀ a w, o = Some a → wok w → P w → Q w a) → triple P (lift o e) Q.
Proof. destruct o as [a|]; intros Hpq; [apply triple_ret; eauto|apply triple_fail]. Qed.

Lemma triple_frame {A} P F (c : M A) Q :
  stable F → triple P c Q → triple (fun w => P w ∧ F w) c (fun w a => Q w a ∧ F w).
Proof.
  intros HF Hc w w' r Hw [HP HFw] Heq. destruct (Hc w w' r Hw HP Heq) as [Hs HQ].
  split; [done|]. intros a Ha. split; [auto|by eapply HF].
Qed.

Lemma triple_conseq {A} (P P' : world → Prop) (c : M A) (Q Q' : world → A → Prop) :
  triple P' c Q' → (∀ w, wok w → P w → P' w) → (∀ w a, wok w → Q' w a → Q w a) → triple P c Q.
Proof.
  intros Hc HP HQ w w' r Hw HPw Heq. destruct (Hc w w' r Hw (HP w Hw HPw) Heq) as [Hs HQ'].
  split; [done|]. intros a Ha. apply HQ; [by apply Hs|auto].
Qed.

Lemma triple_pre {A} (P : world → Prop) (c : M A) (Q : world → A → Prop) :
  triple (fun _ => True) c Q → triple P c Q.
Proof. intros Hc. by eapply triple_conseq; [exact Hc|..]. Qed.

(** Running [c] while a stable fact [F] holds. *)
Lemma triple_keep {A} (F : world → Prop) (c : M A) (Q : world → A → Prop) :
  stable F → triple (fun _ => True) c Q → triple F c (fun w a => Q w a ∧ F w).
Proof.
  intros HF Hc. eapply triple_conseq; [by apply triple_frame; [exact HF|exact Hc]|done|done].
Qed.

(** A fact the precondition implies. *)
Lemma triple_fact {A} (φ : Prop) (P : world → Prop) (c : M A) (Q : world → A → Prop) :
  (∀ w, wok w → P w → φ) → (φ → triple P c Q) → triple P c Q.
Proof. intros Hφ Hc w w' r Hw HP. by apply (Hc (Hφ w Hw HP)). Qed.

Lemma triple_attempt {A} P (c : M A) Q :
  triple P c Q → triple P (attempt c) (fun w r => ∀ a, r = Ok a → Q w a).
Proof.
  intros Hc w w' r Hw HP Heq. unfold attempt in Heq. destruct (c w) as [w1 r1] eqn:Hcw.
  simplify_eq. destruct (Hc w w' r1 Hw HP Hcw) as [Hs HQ]. split; [done|]. by intros a [= <-].
Qed.

(** A pure read of the world. *)
Lemma triple_read {A} (P : world → Prop) (f : world → A) (Q : world → A → Prop) :
  (∀ w, wok w → P w → Q w (f w)) → triple P (fun w => (w, Ok (f w))) Q.
Proof. intros Hpq w w' r Hw HP [= <- <-]. split; [done|]. intros ? [= <-]. auto. Qed.

(** ** Store calls *)

Context (new_uuid : S → string) (clock : nat → Z) (env : nat → world → world).
Hypothesis env_step : ∀ n w, wok w → step w (env n w).
(** A new UUID occurs in no name of the store. *)
Hypothesis uuid_fresh : ∀ st pre post, os_objs st (pre +:+ new_uuid st +:+ post) = None.
Hypothesis uuid_no_slash : ∀ st, has_char slash (new_uuid st) = false.

Lemma suspend_step w : wok w → step w (suspend env w).
Proof.
  intros Hw0. etrans; [by apply (env_step (w_tick w))|]. unfold suspend.
  apply step_caches; simpl; [done| |]; intros Hw; apply Hw.
Qed.

Lemma sget_spec p :
  triple (fun _ => True) (sget env p) (fun w b => ∃ v, os_objs (w_store w) p = Some (b, v)).
Proof.
  intros w w' r Hw _ Heq. unfold sget in Heq.
  destruct (os_get (w_store (suspend env w)) p) as [[b v]|e] eqn:Hg; simplify_eq;
    (split; [by apply suspend_step|]); [|done].
  intros ? [= <-]. apply os_get_ok in Hg. eauto.
Qed.

Lemma slist_spec :
  triple (fun _ => True) (slist env)
    (fun w l => ∀ p, p ∈ l ↔ is_Some (os_objs (w_store w) p)).
Proof.
  intros w w' r Hw _ Heq. unfold slist in Heq.
  destruct (os_list (w_store (suspend env w))) as [l|e] eqn:Hg; simplify_eq;
    (split; [by apply suspend_step|]); [|done].
  intros ? [= <-]. by apply os_list_ok.
Qed.

Lemma cache_manifest_spec p m :
  triple (fun w => good_manifest (w_store w) p m) (cache_manifest p m)
    (fun w _ => good_manifest (w_store w) p m).
Proof.
  intros w w' r Hw HP [= <- <-]. split; [|by intros ? _]. apply step_caches; simpl; [done| |].
  - intros _ q m' [[<- <-]|[_ Hq]]%lookup_insert_Some; [done|]. by apply Hw.
  - intros _. apply Hw.
Qed.

Lemma cache_list_spec p l :
  triple (fun w => ∀ ps, manifest_path mm (file_name ps) = p → list_at (w_store w) ps = Some l)
    (cache_list p l)
    (fun w _ => ∀ ps, manifest_path mm (file_name ps) = p → list_at (w_store w) ps = Some l).
Proof.
  intros w w' r Hw HP [= <- <-]. split; [|by intros ? _]. apply step_caches; simpl; [done| |].
  - intros _. apply Hw.
  - intros _ q l' ps [[<- <-]|[_ Hq]]%lookup_insert_Some; [apply HP|]. by apply Hw.
Qed.

Lemma set_latest_spec v : triple (fun _ => True) (set_latest v) (fun _ _ => True).
Proof.
  intros w w' r Hw _ [= <- <-]. split; [|done]. apply step_caches; simpl; [done| |]; intros _; apply Hw.
Qed.

(** A store with the same version files and more objects. *)
Lemma reach_same_versions st st' :
  mono st st' → (∀ v, is_Some (os_objs st' (vpath v)) ↔ is_Some (os_objs st (vpath v))) →
  reach st st'.
Proof.
  intros Hm Hv. split; [done|]. intros b h [Hb Hh]. exists h. split; [done|]. split; [done|].
  intros v. by rewrite Hv.
Qed.

Lemma step_store (w : world) st :
  reach (w_store w) st → (names_ok (w_store w) → names_ok st) →
  (∀ v m, stored st v = Some m → stored (w_store w) v = Some m ∨ wf_manifest st m) →
  step w (set_store w st).
Proof.
  intros [Hm Hv] Hn Hwf. split; [done|]. intros [W1 W2 W3 [b [h W4]] W5]. split; simpl.
  - intros p m Hp. eapply good_manifest_mono; eauto.
  - intros p l ps Hp Hps. eapply list_at_mono; eauto.
  - auto.
  - destruct (Hv b h W4) as (h' & _ & ?). eauto.
  - intros v m [Hs|?]%Hwf; [|done]. eapply wf_manifest_mono; eauto.
Qed.

(** Putting a new object under an Avro name keeps the world sound. *)
Lemma put_avro_step (w : world) p b m st r :
  os_put (w_store w) p b m = (st, r) → os_objs (w_store w) p = None → ends_with ".avro" p = true →
  step w (set_store w st).
Proof.
  intros Hput Hnone Ha. assert (∀ v, vpath v ≠ p) as Hne.
  { intros v <-. by rewrite version_path_not_avro in Ha. }
  apply step_store.
  - apply reach_same_versions.
    + intros q x Hq. rewrite (os_put_other _ _ _ _ _ _ q Hput); [done|congruence].
    + intros v. by rewrite (os_put_other _ _ _ _ _ _ (vpath v) Hput).
  - intros Hn q v Hq Hd Hv. destruct (decide (q = p)) as [->|Hqp].
    + by rewrite avro_no_version in Hv.
    + rewrite (os_put_other _ _ _ _ _ _ q Hput) in Hq by done. by apply Hn.
  - intros v m'. unfold stored. rewrite (os_put_other _ _ _ _ _ _ (vpath v) Hput) by done. by left.
Qed.

Lemma sput_fresh_spec name b :
  (∀ u, ends_with ".avro" (manifest_path mm (name u)) = true) →
  (∀ u, ∃ pre post, manifest_path mm (name u) = pre +:+ u +:+ post) →
  triple (fun _ => True) (sput_fresh new_uuid mm env name b)
    (fun w p => ends_with ".avro" p = true ∧ (∃ u, has_char slash u = false ∧ p = manifest_path mm (name u)) ∧
                ∃ v, os_objs (w_store w) p = Some (b, v)).
Proof.
  intros Ha Hu w w' r Hw _ Heq. unfold sput_fresh in Heq. pose proof (suspend_step w Hw) as Hs.
  set (w1 := suspend env w) in *. set (p := manifest_path mm (name (new_uuid (w_store w1)))) in *.
  destruct (os_put (w_store w1) p b Overwrite) as [st ro] eqn:Hput. simplify_eq.
  destruct (Hu (new_uuid (w_store w1))) as (pre & post & Hp).
  split.
  - etrans; [exact Hs|]. eapply put_avro_step; [exact Hput| |by apply Ha].
    unfold p. rewrite Hp. apply uuid_fresh.
  - intros q Hq. destruct ro as [v|e]; simplify_eq. apply os_put_ok in Hput as [[Hnew _] _].
    split_and!; [by apply Ha|eexists; split; [apply uuid_no_slash|done]|]. simpl. eauto.
Qed.

(** ** Loading *)

Lemma load_version_spec v :
  triple (fun _ => True) (load_version mm env v) (fun w m => stored (w_store w) v = Some m).
Proof.
  unfold load_version. eapply triple_bind; [apply triple_read with
    (Q := fun w c => ∀ m, c = Some m → stored (w_store w) v = Some m)|].
  { intros w Hw _ m Hc. apply Hw in Hc. unfold good_manifest in Hc.
    rewrite version_path_not_avro in Hc. destruct Hc as (x & Hx & Hf).
    unfold stored. by rewrite Hx. }
  intros [m|]; [apply triple_ret; intros w _ Hm; by apply Hm|].
  eapply triple_bind; [apply triple_pre, sget_spec|].
  intros b. eapply triple_bind; [apply triple_lift with
    (Q := fun w m => good_manifest (w_store w) (vpath v) m)|].
  { intros m w Hm _ [t Ht]. unfold good_manifest. rewrite version_path_not_avro. eauto. }
  intros m. eapply triple_bind; [apply cache_manifest_spec|]. intros [].
  apply triple_ret. intros w _ Hg. unfold good_manifest in Hg. rewrite version_path_not_avro in Hg.
  destruct Hg as (x & Hx & Hf). unfold stored. by rewrite Hx.
Qed.

(** A loaded head: a stored version, or nothing was ever committed. *)
Definition genesis (m : Manifest) : Prop :=
  m = Manifest_default ∨ ∃ now, m = Manifest_new now 0 [] None.
Definition loaded (st : S) (m : Manifest) (ver : Z) : Prop :=
  ((1 ≤ ver)%Z ∧ stored st ver = Some m) ∨ (ver = 0%Z ∧ genesis m ∧ ∃ h, versions st 1 h).

Lemma loaded_stable m ver : stable (fun w => loaded (w_store w) m ver).
Proof.
  intros w w' [[Hm Hv] _] [[H1 H2]|(-> & Hg & h & Hh)]; [left|right].
  - split; [done|]. by eapply stored_mono.
  - split_and!; [done|done|]. destruct (Hv 1%Z h Hh) as (h' & _ & ?). eauto.
Qed.

Lemma stored_present st v m : stored st v = Some m → is_Some (os_objs st (vpath v)).
Proof. unfold stored. destruct (os_objs st (vpath v)); [by eexists|done]. Qed.

Lemma stored_loaded (w : world) v m :
  wok w → stored (w_store w) v = Some m → loaded (w_store w) m v.
Proof.
  intros Hw Hs. left. split; [|done]. destruct (wok_versions _ Hw) as (b & h & [Hb Hv]).
  apply stored_present in Hs. apply Hv in Hs. lia.
Qed.

Lemma pick_latest_spec l acc :
  let r := foldl pick_latest acc l in
  (r = acc ∧ ∀ p v, p ∈ l → version_of p = Some v → (v ≤ acc.1)%Z) ∨
  ∃ p, p ∈ l ∧ version_of p = Some r.1 ∧ r.2 = Some p ∧ (acc.1 < r.1)%Z.
Proof.
  revert acc. induction l as [|q l IH]; intros acc; simpl; [left; by split; [|intros ? ? ?%elem_of_nil]|].
  destruct (IH (pick_latest acc q)) as [[Hr Hall]|(p & Hp & Hv & Hr & Hlt)];
    unfold pick_latest in *; destruct (version_of q) as [vq|] eqn:Hq.
  - case_decide.
    + right. exists q. rewrite Hr. simpl. split_and!; [by left|done|done|lia].
    + left. split; [done|]. intros p v [->|Hp]%elem_of_cons Hv; [simplify_eq; lia|eauto].
  - left. split; [done|]. intros p v [->|Hp]%elem_of_cons Hv; [congruence|eauto].
  - right. exists p. split_and!; [by right|done|done|]. case_decide; simpl in *; lia.
  - right. exists p. split_and!; [by right|done|done|done].
Qed.

Lemma pick_direct_spec l acc :
  let r := foldl pick_direct acc l in
  (r = acc ∧ ∀ p v, p ∈ l → version_of p = Some v → (v < acc.1)%Z) ∨
  ∃ p, p ∈ l ∧ version_of p = Some r.1 ∧ r.2 = Some p ∧ (acc.1 ≤ r.1)%Z.
Proof.
  revert acc. induction l as [|q l IH]; intros acc; simpl; [left; by split; [|intros ? ? ?%elem_of_nil]|].
  destruct (IH (pick_direct acc q)) as [[Hr Hall]|(p & Hp & Hv & Hr & Hlt)];
    unfold pick_direct in *; destruct (version_of q) as [vq|] eqn:Hq.
  - case_decide.
    + right. exists q. rewrite Hr. simpl. split_and!; [by left|done|done|lia].
    + left. split; [done|]. intros p v [->|Hp]%elem_of_cons Hv; [simplify_eq; lia|eauto].
  - left. split; [done|]. intros p v [->|Hp]%elem_of_cons Hv; [congruence|eauto].
  - right. exists p. split_and!; [by right|done|done|]. case_decide; simpl in *; lia.
  - right. exists p. split_and!; [by right|done|done|done].
Qed.

Definition listing (st : S) (l : list string) : Prop :=
  ∀ p, p ∈ l ↔ is_Some (os_objs st p) ∧ starts_with (mm_dir mm +:+ "/") p = true.

Lemma list_manifests_spec :
  triple (fun _ => True) (list_manifests mm env) (fun w l => listing (w_store w) l).
Proof.
  unfold list_manifests. eapply triple_bind; [apply slist_spec|].
  intros l. apply triple_ret. intros w _ Hl p. rewrite list_elem_of_filter, Hl. tauto.
Qed.

(** A listing without versions: nothing was ever committed. *)
Lemma listing_empty (w : world) l :
  wok w → listing (w_store w) l → (∀ p v, p ∈ l → version_of p = Some v → (v ≤ 0)%Z) →
  ∃ h, versions (w_store w) 1 h.
Proof.
  intros Hw Hl Hn. destruct (wok_versions _ Hw) as (b & h & Hb & Hv).
  destruct (decide (b ≤ h)%Z) as [Hbh|Hbh].
  - exfalso. assert (version_of (vpath b) = Some b) as Hvb.
    { apply version_of_path. unfold is_u64. lia. }
    assert (vpath b ∈ l) as Hin.
    { apply Hl. split; [apply Hv; lia|apply version_path_in_dir]. }
    specialize (Hn _ _ Hin Hvb). lia.
  - exists 0%Z. split; [lia|]. intros v. rewrite Hv. lia.
Qed.

Lemma present_stable p x : stable (fun w => os_objs (w_store w) p = Some x).
Proof. intros w w' [[Hm _] _] Hp. by apply Hm. Qed.

Lemma present_some_stable p : stable (fun w => is_Some (os_objs (w_store w) p)).
Proof. intros w w' [[Hm _] _] [x Hp]. exists x. by apply Hm. Qed.

(** Reading the version file at a listed path. *)
Lemma get_version_spec path v :
  path = vpath v →
  triple (fun _ => True) (b ← sget env path; m ← lift (from_bytes b) BadJson; mret (m, v))
    (fun w mv => mv.2 = v ∧ loaded (w_store w) mv.1 mv.2).
Proof.
  intros ->. eapply triple_bind; [apply sget_spec|]. intros b.
  eapply triple_bind; [apply triple_lift with (Q := fun w m => stored (w_store w) v = Some m)|].
  { intros m w Hm _ [t Ht]. unfold stored. by rewrite Ht. }
  intros m. apply triple_ret. intros w Hw Hs. split; [done|]. by apply stored_loaded.
Qed.

Lemma load_latest_direct_spec :
  triple (fun _ => True) (load_latest_direct mm env)
    (fun w mv => loaded (w_store w) mv.1 mv.2).
Proof.
  unfold load_latest_direct. eapply triple_bind; [apply list_manifests_spec|]. intros l.
  set (l' := filter (fun p => ends_with ".json" p = true) l).
  destruct (foldl pick_direct (0%Z, None) l') as [mx o] eqn:Hf.
  pose proof (pick_direct_spec l' (0%Z, None)) as Hp. rewrite Hf in Hp. simpl in Hp.
  destruct Hp as [[[= -> ->] Hn]|(p & Hp & Hv & -> & Hlt)].
  - apply triple_ret. intros w Hw Hl. right. split_and!; [done|by left|].
    apply (listing_empty w l Hw Hl). intros p v Hp Hv.
    destruct (decide (p ∈ l')) as [Hin|Hin]; [specialize (Hn p v Hin Hv); lia|].
    exfalso. apply Hin, list_elem_of_filter. split; [|done].
    apply Hl in Hp as [Hp Hd]. rewrite (wok_names _ Hw p v Hp Hd Hv). apply version_path_json.
  - intros w w' r Hw Hl. assert (p = vpath mx) as Hpath.
    { apply list_elem_of_filter in Hp as [_ Hp]. apply Hl in Hp as [Hp Hd].
      by apply (wok_names _ Hw). }
    intros Heq. destruct (get_version_spec p mx Hpath w w' r Hw I Heq) as [Hs HQ].
    split; [done|]. intros mv Hmv. by apply HQ.
Qed.

Lemma load_latest_listed_spec :
  triple (fun _ => True) (load_latest_listed clock mm env)
    (fun w mv => loaded (w_store w) mv.1 mv.2).
Proof.
  unfold load_latest_listed. eapply triple_bind; [apply list_manifests_spec|]. intros l.
  destruct (foldl pick_latest (0%Z, None) l) as [mx o] eqn:Hf.
  pose proof (pick_latest_spec l (0%Z, None)) as Hp. rewrite Hf in Hp. simpl in Hp.
  destruct Hp as [[[= -> ->] Hn]|(p & Hp & Hv & -> & Hlt)].
  - rewrite decide_False by lia. eapply triple_bind.
    { apply triple_ret with (Q := fun w _ => ∃ h, versions (w_store w) 1 h). intros w Hw Hl.
      by apply (listing_empty w l Hw Hl). }
    intros []. eapply triple_bind; [by apply triple_read with
      (Q := fun w _ => ∃ h, versions (w_store w) 1 h)|].
    intros now. apply triple_ret. intros w _ Hh. right. split_and!; [done|right; by eexists|done].
  - intros w w' r Hw Hl. assert (p = vpath mx) as Hpath.
    { apply Hl in Hp as [Hp Hd]. by apply (wok_names _ Hw). }
    rewrite decide_True by lia. revert w w' r Hw Hl.
    change (triple (fun w => listing (w_store w) l)
      (_ ← set_latest (Some mx);
       r ← attempt (load_version mm env mx);
       match r with
       | Ok m => mret (m, mx)
       | Err _ => b ← sget env p; m ← lift (from_bytes b) BadJson; mret (m, mx)
       end) (fun w mv => loaded (w_store w) mv.1 mv.2)).
    eapply triple_bind; [apply triple_pre, set_latest_spec|]. intros [].
    eapply triple_bind; [apply triple_attempt, load_version_spec|]. intros [m|e].
    + apply triple_ret. intros w Hw Hm. apply stored_loaded; auto.
    + eapply triple_conseq; [by apply (get_version_spec p mx)|done|]. intros w mv _ [_ Hl]. exact Hl.
Qed.

Lemma load_latest_spec :
  triple (fun _ => True) (load_latest clock mm env)
    (fun w mv => loaded (w_store w) mv.1 mv.2).
Proof.
  unfold load_latest. eapply triple_bind; [by apply triple_read with (Q := fun _ _ => True)|].
  intros [ver|]; [|apply load_latest_listed_spec].
  eapply triple_bind; [apply triple_attempt, load_version_spec|]. intros [m|e].
  - apply triple_ret. intros w Hw Hm. apply stored_loaded; auto.
  - apply triple_pre, load_latest_listed_spec.
Qed.

(** *** Entries *)

(** Whether a name ends in [.avro] depends on its last segment only. *)
Lemma avro_file_name ps ps' :
  file_name ps = file_name ps' → ends_with ".avro" ps = ends_with ".avro" ps'.
Proof.
  assert (∀ q, ends_with ".avro" q = ends_with ".avro" (file_name q)) as Hq.
  { intros q. unfold file_name. destruct (last_split slash q) as (f & -> & Hf & Hs). simpl.
    destruct Hs as [->|[a ->]]; [done|]. by apply ends_with_after. }
  intros Hf. by rewrite (Hq ps), (Hq ps'), Hf.
Qed.

Lemma load_manifest_list_spec ps :
  triple (fun _ => True) (load_manifest_list list_from_json mm env ps)
    (fun w l => list_at (w_store w) ps = Some l).
Proof.
  unfold load_manifest_list. eapply triple_bind; [apply triple_read with
    (Q := fun w c => ∀ l, c = Some l → list_at (w_store w) ps = Some l)|].
  { intros w Hw _ l Hl. by apply (wok_lists _ Hw _ _ ps Hl). }
  intros [l|]; [apply triple_ret; intros w _ Hl; by apply Hl|].
  eapply triple_bind; [apply triple_pre, sget_spec|]. intros b.
  set (p := manifest_path mm (file_name ps)).
  set (good := fun (w : world) l =>
    ∀ ps', manifest_path mm (file_name ps') = p → list_at (w_store w) ps' = Some l).
  assert (∀ (w : world) l v, os_objs (w_store w) p = Some (b, v) →
    (if ends_with ".avro" ps then read_manifest_list b else list_from_json b) = Some l →
    good w l) as Hgood.
  { intros w l v Hp Hl ps' Hps'. unfold list_at. rewrite Hps', Hp. simpl.
    rewrite (avro_file_name ps' ps); [done|]. unfold p, manifest_path in Hps'.
    by do 2 apply string_app_inv_head in Hps'. }
  eapply triple_bind with (Q := good).
  { destruct (ends_with ".avro" ps) eqn:Ha; apply triple_lift; intros l w Hl _ [v Hv]; eauto. }
  intros l. eapply triple_bind; [apply cache_list_spec|]. intros [].
  apply triple_ret. intros w _ Hg. by apply Hg.
Qed.

Lemma core_avro_manifest now objs :
  core <$> m_entries (avro_manifest mm now objs) = relativized <$> data_cores objs.
Proof.
  unfold avro_manifest, data_cores. simpl. rewrite <- !list_fmap_compose.
  apply list_fmap_ext. by intros i e.
Qed.

(** The entries of a decoded manifest file are those the store holds. *)
Lemma good_cores st p sub :
  good_manifest st p sub → cores_at st p = Some (core <$> m_entries sub).
Proof.
  intros (x & Hx & Hf). unfold cores_at. rewrite Hx. simpl. destruct (ends_with ".avro" p).
  - destruct Hf as (sch & spec & objs & now & Ho & ->). rewrite core_avro_manifest.
    pose proof (read_core_indep sch spec TableSchema_default PartitionSpec_default x.1) as Hi.
    rewrite Ho in Hi. simpl in Hi.
    destruct (read_objects TableSchema_default PartitionSpec_default x.1); [|done].
    injection Hi as Hi. simpl. by rewrite Hi.
  - by rewrite Hf.
Qed.

(** What the cache or the store gives for a manifest file. *)
Lemma load_cached_spec p (decoded : M Manifest) :
  triple (fun _ => True) decoded (fun w sub => good_manifest (w_store w) p sub) →
  triple (fun _ => True)
    (c ← cached_manifest p;
     match c with
     | Some m => mret m
     | None => m ← decoded; _ ← cache_manifest p m; mret m
     end) (fun w sub => good_manifest (w_store w) p sub).
Proof.
  intros Hd. eapply triple_bind; [apply triple_read with
    (Q := fun w c => ∀ sub, c = Some sub → good_manifest (w_store w) p sub)|].
  { intros w Hw _ sub Hs. by apply Hw. }
  intros [sub|]; [apply triple_ret; intros w _ Hs; auto|].
  eapply triple_bind; [apply triple_pre, Hd|]. intros sub.
  eapply triple_bind; [apply cache_manifest_spec|]. intros []. by apply triple_ret.
Qed.

Lemma load_manifest_file_spec m f :
  triple (fun _ => True) (load_manifest_file clock mm env m f)
    (fun w sub => good_manifest (w_store w) (file_path_of f) sub).
Proof.
  unfold load_manifest_file. fold (file_path_of f). set (p := file_path_of f).
  destruct (ends_with ".avro" p) eqn:Ha.
  - intros w w' r Hw _ Heq.
    apply (load_cached_spec p (b ← sget env p;
      objs ← lift (read_objects (read_schema m) (m_partition_spec m) b) BadAvro;
      now ← now_millis clock; mret (avro_manifest mm now objs))) with (w := w); [|done|done|].
    + eapply triple_bind; [apply sget_spec|]. intros b.
      eapply triple_bind; [apply triple_lift with (Q := fun w objs => ∀ now,
        good_manifest (w_store w) p (avro_manifest mm now objs))|].
      { intros objs w1 Ho _ [v Hv] now. exists (b, v). split; [done|]. rewrite Ha. naive_solver. }
      intros objs. eapply triple_bind; [by apply triple_read with (Q := fun w now =>
        good_manifest (w_store w) p (avro_manifest mm now objs))|].
      intros now. by apply triple_ret.
    + rewrite <- Heq. unfold load_avro_manifest, mbind, M_bind.
      destruct (cached_manifest p w) as [? [[?|]|?]]; [done| |done].
      destruct (sget env p _) as [? [?|?]]; [|done].
      destruct (lift _ BadAvro _) as [? [?|?]]; [|done]. done.
  - intros w w' r Hw _ Heq.
    apply (load_cached_spec p (b ← sget env p; lift (from_bytes b) BadJson)) with (w := w);
      [|done|done|].
    + eapply triple_bind; [apply sget_spec|]. intros b. apply triple_lift.
      intros sub w1 Hs _ [v Hv]. exists (b, v). by rewrite Ha.
    + rewrite <- Heq. unfold load_manifest_from_path, mbind, M_bind.
      destruct (cached_manifest p w) as [? [[?|]|?]]; [done| |done].
      by destruct (sget env p _) as [? [?|?]].
Qed.

Lemma cores_at_stable p cs : stable (fun w => cores_at (w_store w) p = Some cs).
Proof. intros w w' [[Hm _] _]. by apply cores_at_mono. Qed.
Lemma mapM_cores_stable l css :
  stable (fun w => mapM (fun f => cores_at (w_store w) (file_path_of f)) l = Some css).
Proof. intros w w' [[Hm _] _]. by apply mapM_cores_mono. Qed.
Lemma list_at_stable ps l : stable (fun w => list_at (w_store w) ps = Some l).
Proof. intros w w' [[Hm _] _]. by apply list_at_mono. Qed.
Lemma snapshot_stable m cm : stable (fun w => snapshot (w_store w) m = Some cm).
Proof. intros w w' [[Hm _] _]. by apply snapshot_mono. Qed.

(** [subs] are the manifest files of [l], decoded. *)
Definition decodes (st : S) (l : list ManifestListEntry) (subs : list Manifest) : Prop :=
  Forall2 (fun f sub => good_manifest st (file_path_of f) sub) l subs.

Lemma decodes_stable l subs : stable (fun w => decodes (w_store w) l subs).
Proof.
  intros w w' [[Hm _] _] Hd. eapply Forall2_impl; [exact Hd|]. intros f sub.
  by apply good_manifest_mono.
Qed.

Lemma decodes_cores st l subs :
  decodes st l subs →
  mapM (fun f => cores_at st (file_path_of f)) l = Some ((fun sub => core <$> m_entries sub) <$> subs).
Proof.
  intros Hd. apply mapM_Some, Forall2_fmap_r. eapply Forall2_impl; [exact Hd|].
  intros f sub. apply good_cores.
Qed.

Lemma load_manifest_files_spec m fs acc :
  triple (fun _ => True) (load_manifest_files clock mm env m fs acc)
    (fun w r => ∃ subs, decodes (w_store w) fs subs ∧
       r = foldl ins acc (concat (m_entries <$> subs))).
Proof.
  revert acc. induction fs as [|f fs IH]; intros acc; simpl.
  - apply triple_ret. intros w _ _. exists []. by split; [constructor|].
  - eapply triple_bind; [apply load_manifest_file_spec|]. intros sub.
    eapply triple_conseq; [apply triple_keep; [|apply IH]|intros w _ Hc; exact Hc|].
    + intros w w' [[Hm _] _]. by apply good_manifest_mono.
    + intros w r _ ([subs [Hd ->]] & Hc). exists (sub :: subs). split; [by constructor|].
      simpl. by rewrite foldl_app.
Qed.

Lemma overlay_inline_core m acc :
  core <$> overlay_inline mm m acc =
  foldl ins (core <$> acc) (core ∘ relativized <$> m_entries m).
Proof.
  unfold overlay_inline. set (acc' := foldl _ acc (m_entries m)).
  assert (core <$> acc' = foldl ins (core <$> acc) (core ∘ relativized <$> m_entries m)) as Hacc.
  { unfold acc'. clear acc'. revert acc. induction (m_entries m) as [|e es IH]; intros acc; [done|].
    simpl. rewrite IH. by rewrite fmap_insert. }
  destruct (m_delete_files m); [done|]. rewrite <- Hacc, <- map_fmap_compose.
  apply map_fmap_ext. done.
Qed.

Lemma overlay_inline_keyed m acc : keyed acc → keyed (overlay_inline mm m acc).
Proof.
  intros Hk. unfold overlay_inline. set (acc' := foldl _ acc (m_entries m)).
  assert (keyed acc') as Hk'.
  { unfold acc'. clear acc'. revert acc Hk. induction (m_entries m) as [|e es IH]; intros acc Hk; [done|].
    apply IH. intros k e' [[<- <-]|[_ Hl]]%lookup_insert_Some; [done|by apply Hk]. }
  destruct (m_delete_files m); [done|]. intros k e. rewrite lookup_fmap, fmap_Some.
  intros (e' & He' & ->). by apply Hk' in He'.
Qed.

Lemma foldl_ins_inv acc es k e : foldl ins acc es !! k = Some e → e ∈ es ∨ acc !! k = Some e.
Proof.
  revert acc. induction es as [|x es IH]; intros acc; simpl; [by right|].
  intros [He|[[_ <-]|[_ He]]%lookup_insert_Some]%IH; [left; by right|left; by left|by right].
Qed.

(** An entry of one of the manifest files a manifest lists. *)
Definition listed_entry (st : S) (m : Manifest) (e : ManifestEntry) : Prop :=
  ∃ l f sub, head_list st m = Some l ∧ f ∈ l ∧ good_manifest st (file_path_of f) sub ∧
    e ∈ m_entries sub.

(** The delete files of an entry: those of the manifest with the entry's partition
    values; the entry's own when the manifest has none. *)
Definition attached (m : Manifest) (e : ManifestEntry) : ManifestEntry :=
  with_delete_files e
    (match m_delete_files m with
     | [] => me_delete_files e
     | ds => filter (fun d => me_partition_values e = df_partition_values d) ds
     end).

Lemma overlay_inline_attached m acc :
  overlay_inline mm m acc = attached m <$> foldl ins acc (relativized <$> m_entries m).
Proof.
  unfold overlay_inline.
  assert (∀ es acc, foldl (fun a e => let e := with_file_path e
      (relativize_file_path (mm_root mm) (me_file_path e)) in <[me_file_path e := e]> a) acc es =
    foldl ins acc (relativized <$> es)) as ->.
  { intros es. induction es as [|x es IH]; intros a; [done|]. apply IH. }
  unfold attached. destruct (m_delete_files m) as [|d ds]; [|done].
  rewrite <- (map_fmap_id (foldl ins acc _)) at 1. apply map_fmap_ext. by intros k [] _.
Qed.

Lemma overlay_inline_inv m acc k e :
  overlay_inline mm m acc !! k = Some e →
  ∃ e0, (e0 ∈ relativized <$> m_entries m ∨ acc !! k = Some e0) ∧ e = attached m e0.
Proof.
  rewrite overlay_inline_attached, lookup_fmap, fmap_Some.
  intros (e0 & He%foldl_ins_inv & ->). by exists e0.
Qed.

(** The inline entry of a path, the last one. *)
Definition inline (m : Manifest) : entry_map := map_by_path (relativized <$> m_entries m).

Lemma foldl_ins_acc (acc acc' : entry_map) es k e :
  (acc !! k = Some e → acc' !! k = Some e) →
  foldl ins acc es !! k = Some e → foldl ins acc' es !! k = Some e.
Proof.
  revert acc acc'. induction es as [|x es IH]; intros acc acc' Ha; [done|]. simpl.
  apply IH. rewrite !lookup_insert. case_decide; auto.
Qed.

Lemma overlay_inline_last m acc k i :
  inline m !! k = Some i → overlay_inline mm m acc !! k = Some (attached m i).
Proof.
  intros Hi. rewrite overlay_inline_attached, lookup_fmap.
  by rewrite (foldl_ins_acc ∅ acc _ k i).
Qed.

Definition entry_of (st : S) (m : Manifest) (e : ManifestEntry) : Prop :=
  ∃ e0, (e0 ∈ relativized <$> m_entries m ∨ listed_entry st m e0) ∧ e = attached m e0.

Lemma head_list_stable m l : stable (fun w => head_list (w_store w) m = Some l).
Proof. intros w w' [[Hm _] _]. by apply head_list_mono. Qed.

Lemma load_list_spec m :
  triple (fun _ => True)
    (match m_manifest_list_path m with
     | Some list_path => l ← load_manifest_list list_from_json mm env list_path;
                         load_manifest_files clock mm env m l ∅
     | None => mret ∅
     end)
    (fun w acc => ∃ l subs, head_list (w_store w) m = Some l ∧ decodes (w_store w) l subs ∧
       acc = map_by_path (concat (m_entries <$> subs))).
Proof.
  unfold head_list. destruct (m_manifest_list_path m) as [ps|] eqn:Hps.
  - eapply triple_bind; [apply load_manifest_list_spec|]. intros l.
    eapply triple_conseq; [apply triple_keep; [apply list_at_stable|apply load_manifest_files_spec]
      |intros w _ Hc; exact Hc|].
    intros w r _ [[subs [Hd ->]] Hl]. by exists l, subs.
  - apply triple_ret. intros w _ _. exists [], []. by split_and!; [|constructor|].
Qed.

Lemma load_all_entries_spec m :
  triple (fun _ => True) (load_all_entries list_from_json clock mm env m)
    (fun w es => ∃ mp, es = (map_to_list mp).*2 ∧ keyed mp ∧
                       snapshot (w_store w) m = Some (core <$> mp) ∧
                       map_Forall (fun _ e => entry_of (w_store w) m e) mp ∧
                       ∀ k i, inline m !! k = Some i → mp !! k = Some (attached m i)).
Proof.
  unfold load_all_entries. eapply triple_bind; [apply load_list_spec|].
  intros acc. apply triple_ret. intros w _ (l & subs & Hl & Hd & ->).
  eexists. split; [done|]. split_and!.
  - apply overlay_inline_keyed, keyed_map_by_path.
  - unfold snapshot, listed. rewrite Hl. simpl. rewrite (decodes_cores _ _ _ Hd). simpl.
    rewrite overlay_inline_core, core_map_by_path, concat_fmap, <- list_fmap_compose. done.
  - intros k e (e0 & He0 & ->)%overlay_inline_inv. exists e0. split; [|done].
    destruct He0 as [?|[He|?]%foldl_ins_inv]; [by left|right|done].
    apply list_elem_of_In, in_concat in He as (es & Hes & He).
    apply list_elem_of_In, list_elem_of_fmap in Hes as (sub & -> & Hsub).
    apply list_elem_of_lookup in Hsub as [i Hi].
    destruct (Forall2_lookup_r _ _ _ _ _ Hd Hi) as (f & Hf & Hg).
    exists l, f, sub. split_and!; [done|by eapply list_elem_of_lookup_2|done|by apply list_elem_of_In].
  - intros k i. apply overlay_inline_last.
Qed.

(** ** Writing a snapshot *)

Lemma trim_start_child d f :
  has_char slash f = false →
  (∃ d', trim_start slash (d +:+ "/" +:+ f) = d' +:+ "/" +:+ f) ∨
  trim_start slash (d +:+ "/" +:+ f) = f.
Proof.
  intros Hf. induction d as [|c d IH].
  - right. change (trim_start slash f = f). apply trim_start_id. destruct f as [|c f]; [done|].
    simpl in Hf. apply orb_false_iff in Hf as [Hc%bool_decide_eq_false _].
    unfold starts_with. simpl. rewrite decide_False; [done|]. intros <-. by apply Hc.
  - change (String.String c d +:+ "/" +:+ f) with (String.String c (d +:+ "/" +:+ f)). simpl.
    case_decide; [done|]. left. by exists (String.String c d).
Qed.

Lemma file_path_of_list_entry f len sid c ver a e r :
  has_char slash f = false →
  file_path_of (list_entry mm (manifest_path mm f) len sid c ver a e r) = manifest_path mm f.
Proof.
  intros Hf. unfold file_path_of, list_entry. simpl. f_equal. unfold manifest_path.
  destruct (trim_start_child (mm_dir mm) f Hf) as [[d' ->]| ->].
  - assert (∀ q, q +:+ "/" +:+ d' +:+ "/" +:+ f = (q +:+ "/" +:+ d') +:+ "/" +:+ f) as ->
      by (intros q; by rewrite !string_app_assoc).
    by apply file_name_child.
  - by apply file_name_child.
Qed.

Abbreviation cores st l := (mapM (M:=option) (fun f => cores_at st (file_path_of f)) l).

Lemma chunk_name_ok u (idx : nat) : has_char slash u = false →
  has_char slash (u +:+ "-m" +:+ u64_to_string (Z.of_nat idx) +:+ ".avro") = false.
Proof.
  intros Hu. rewrite !has_char_app, Hu.
  by rewrite (all_digits_no_char slash (u64_to_string _)) by (try apply all_digits_u64; done).
Qed.

Lemma avro_cores_at st p b v cs :
  ends_with ".avro" p = true → os_objs st p = Some (b, v) →
  data_cores <$> read_objects TableSchema_default PartitionSpec_default b = Some cs →
  cores_at st p = Some (relativized <$> cs).
Proof.
  intros Ha Hp Hr. unfold cores_at. rewrite Hp. simpl. rewrite Ha.
  destruct (read_objects _ _ b); simplify_eq/=. done.
Qed.

Abbreviation stable_entry := (fun e => stable_path (me_file_path e)).

Definition relativized_chunks (css : list (list ManifestEntry)) : list (list ManifestEntry) :=
  map (map relativized) css.

(** A chunk whose decoding names no delete file. *)
Definition data_chunk (c : bytes * Z * Z) : Prop :=
  ∀ sch spec objs, read_objects sch spec c.1.1 = Some objs → deletes_no_file objs.

Lemma upload_chunks_spec sid ver idx (chunks : list (bytes * Z * Z)) css :
  Forall2 (fun (c : bytes * Z * Z) (cs : list ManifestEntry) =>
             data_cores <$> read_objects TableSchema_default PartitionSpec_default c.1.1
                       = Some cs) chunks css →
  Forall data_chunk chunks → Forall (Forall stable_entry) (relativized_chunks css) →
  triple (fun _ => True) (upload_chunks new_uuid mm env sid ver idx chunks)
    (fun w data => wf_files (w_store w) data (relativized_chunks css)).
Proof.
  intros Hcss. revert idx.
  induction Hcss as [|[[b fc] rc] cs chunks css Hc _ IH]; intros idx Hdc Hst; simpl.
  - apply triple_ret. intros. constructor.
  - apply Forall_cons in Hst as [Hcs Hst]. apply Forall_cons in Hdc as [Hdb Hdc].
    eapply triple_bind; [apply sput_fresh_spec|].
    { intros u. unfold manifest_path. rewrite !string_app_assoc. apply ends_with_app. }
    { intros u. unfold manifest_path. exists (mm_dir mm +:+ "/"),
        ("-m" +:+ u64_to_string (Z.of_nat idx) +:+ ".avro"). by rewrite string_app_assoc. }
    intros p. simpl. eapply triple_bind.
    + eapply triple_conseq with (P' := fun w => (∃ f, has_char slash f = false ∧ p = manifest_path mm f) ∧
        ends_with ".avro" p = true ∧ ∃ v, os_objs (w_store w) p = Some (b, v)).
      * apply triple_keep; [|by apply (IH (Datatypes.S idx))].
        intros w w' Hs (? & ? & v & Hp). split_and!; [done|done|]. exists v. by eapply present_stable.
      * intros w _ (Ha & (u & Hu & ->) & v & Hv). split_and!; [|done|by exists v].
        eexists. split; [by apply chunk_name_ok|done].
      * intros w data _ Hq. exact Hq.
    + intros data. apply triple_ret. intros w _ [Hd ((f & Hf & ->) & Ha & v & Hp)].
      constructor; [|done]. rewrite file_path_of_list_entry by done.
      split_and!; [by eapply avro_cores_at|done| |done].
      intros _ x Hx. rewrite Ha. simplify_eq. exact Hdb.
Qed.

Lemma wf_files_stable l css : stable (fun w => wf_files (w_store w) l css).
Proof. intros w w' [[Hm _] _]. by apply wf_files_mono. Qed.

Lemma snap_name_ok u ver : has_char slash u = false →
  has_char slash ("snap-" +:+ u64_to_string ver +:+ "-" +:+ u +:+ ".avro") = false.
Proof.
  intros Hu. rewrite !has_char_app, Hu.
  by rewrite (all_digits_no_char slash (u64_to_string _)) by (try apply all_digits_u64; done).
Qed.

Lemma file_name_manifest_path f : has_char slash f = false →
  manifest_path mm (file_name (manifest_path mm f)) = manifest_path mm f.
Proof. intros Hf. unfold manifest_path. by rewrite file_name_child. Qed.

Lemma upload_deletes_spec spec sch ver deletes previous :
  triple (fun _ => True) (upload_deletes new_uuid mm env spec sch ver deletes previous)
    (fun w dels => ∃ css, wf_files (w_store w) dels css ∧ concat css = [] ∧
                          Forall (fun f => ml_content f ≠ 0%Z) dels).
Proof.
  unfold upload_deletes. eapply triple_bind; [apply triple_lift with
    (Q := fun w r => write_delete_manifest deletes previous spec sch ver = Some r); done|].
  intros [[[b added] existing]|].
  2: { apply triple_ret. intros. exists []. split_and!; [constructor|done|constructor]. }
  intros w w' r Hw Hd. revert w w' r Hw Hd.
  eapply triple_bind; [apply (triple_keep (fun _ => write_delete_manifest deletes previous spec sch ver
     = Some (Some (b, added, existing)))); [by intros ? ? _|apply sput_fresh_spec]|].
  { intros u. unfold manifest_path. change "-d0.avro" with ("-d0" +:+ ".avro").
    rewrite !string_app_assoc. apply ends_with_app. }
  { intros u. unfold manifest_path. exists (mm_dir mm +:+ "/"), "-d0.avro".
    by rewrite string_app_assoc. }
  intros p. apply triple_ret. intros w _ [(Ha & (u & Hu & ->) & v & Hv) Hd].
  exists [[]]. split_and!; [|done|by repeat constructor].
  constructor; [|constructor]. rewrite file_path_of_list_entry by (by rewrite has_char_app, Hu).
  split_and!; [|done|done|done]. by eapply (avro_cores_at _ _ _ _ []), deletes_read.
Qed.

Lemma core_qualified e :
  stable_path (me_file_path e) → relativized (core (qualified (mm_root mm) e)) = core e.
Proof. intros [Hs _]. unfold relativized, qualified, core, with_file_path. simpl. by rewrite Hs. Qed.

(** The list file written for a snapshot holds the kept manifests and the new entries. *)
Lemma write_snapshot_spec md cur ver kept kcss entries deletes :
  Forall stable_entry entries →
  triple (fun w => wf_files (w_store w) kept kcss)
    (write_snapshot new_uuid mm env md cur ver kept entries deletes)
    (fun w ps => ∃ l css, list_at (w_store w) ps = Some l ∧ wf_files (w_store w) l css ∧
       concat css = concat kcss ++ (core <$> entries)).
Proof.
  intros Hst. unfold write_snapshot. eapply triple_bind with (Q := fun w chunks =>
    wf_files (w_store w) kept kcss ∧
    write_manifest_chunks (qualified (mm_root mm) <$> entries) (m_partition_spec cur)
      (write_schema md cur) ver = Some chunks).
  { by apply triple_lift. }
  intros chunks w0 w1 r0 Hw0 [Hk Hch]. revert w0 w1 r0 Hw0 Hk.
  destruct (chunks_read _ _ _ _ _ TableSchema_default PartitionSpec_default Hch) as (css & Hcss & Hcc).
  assert (concat (relativized_chunks css) = core <$> entries) as Hrc.
  { unfold relativized_chunks. rewrite <- List.concat_map, Hcc.
    change (relativized <$> (core <$> (qualified (mm_root mm) <$> entries)) = core <$> entries).
    rewrite <- !list_fmap_compose. apply list_fmap_ext. intros i e He. simpl.
    apply core_qualified. by eapply Forall_lookup_1 in Hst. }
  assert (Forall (Forall stable_entry) (relativized_chunks css)) as Hst'.
  { rewrite <- Forall_concat, Hrc. by apply Forall_fmap. }
  eapply triple_bind.
  { apply triple_keep; [apply wf_files_stable|apply upload_chunks_spec; [done| |done]].
    apply Forall_forall. intros c Hc sch' spec' objs. by eapply chunks_data. }
  intros data. eapply triple_bind.
  { eapply triple_conseq; [apply triple_keep; [|apply upload_deletes_spec]| |intros ? ? _ Hq; exact Hq].
    2: { intros w _ Hw. exact Hw. }
    intros w w' Hs [? ?]. split; by eapply wf_files_stable. }
  intros dels. eapply triple_bind with (Q := fun w b =>
    read_manifest_list b = Some (kept ++ data ++ dels) ∧ ∃ css,
    wf_files (w_store w) (kept ++ data ++ dels) css ∧ concat css = concat kcss ++ (core <$> entries)).
  { apply triple_lift. intros b w Hb _ [(dcss & Hd & Hdc & _) [Hda Hke]].
    split; [by apply list_read|]. exists (kcss ++ relativized_chunks css ++ dcss). split.
    - by repeat apply Forall2_app.
    - by rewrite !concat_app, Hdc, app_nil_r, Hrc. }
  intros b. eapply triple_conseq.
  - apply (triple_keep (fun w => read_manifest_list b = Some (kept ++ data ++ dels) ∧ ∃ css,
      wf_files (w_store w) (kept ++ data ++ dels) css ∧
      concat css = concat kcss ++ (core <$> entries))).
    { intros w w' Hs (? & css' & Hf & ?). split; [done|]. exists css'. split; [|done].
      by eapply wf_files_stable. }
    apply (sput_fresh_spec (fun u => "snap-" +:+ u64_to_string ver +:+ "-" +:+ u +:+ ".avro") b).
    + intros u. unfold manifest_path. rewrite !string_app_assoc. apply ends_with_app.
    + intros u. unfold manifest_path.
      exists (mm_dir mm +:+ "/" +:+ "snap-" +:+ u64_to_string ver +:+ "-"), ".avro".
      by rewrite !string_app_assoc.
  - intros w _ Hq. exact Hq.
  - intros w p _ [(Ha & (u & Hu & ->) & v & Hv) (Hb & css' & Hf & Hc)].
    exists (kept ++ data ++ dels), css'. split_and!; [|done|done].
    unfold list_at. rewrite file_name_manifest_path, Hv by (by apply snap_name_ok). simpl.
    by rewrite Ha.
Qed.

(** ** Planning a commit *)

Lemma wf_files_cores st l css : wf_files st l css → cores st l = Some css.
Proof.
  intros Hf. apply mapM_Some. eapply Forall2_impl; [exact Hf|]. by intros f cs [? _].
Qed.

Lemma wf_listed st m :
  wf_manifest st m → ∃ l css, head_list st m = Some l ∧ wf_files st l css ∧
    listed st m = Some (map_by_path (concat css)).
Proof.
  intros [_ Hl]. unfold listed, head_list. destruct (m_manifest_list_path m) as [ps|].
  - destruct Hl as (l & css & Hl & Hf). exists l, css. rewrite Hl. simpl.
    by rewrite (wf_files_cores _ _ _ Hf).
  - exists [], []. by split_and!; [|constructor|].
Qed.

(** Without inline entries the listed ones are the snapshot. *)
Lemma listed_snapshot st m : m_entries m = [] → snapshot st m = listed st m.
Proof. intros He. unfold snapshot. rewrite He. by destruct (listed st m). Qed.

(** A listed entry brings no delete files. *)
Lemma listed_entry_deletes st m e :
  wf_manifest st m → listed_entry st m e → me_delete_files e = [].
Proof.
  intros (l & css & Hl & Hf & _)%wf_listed (l' & f & sub & Hl' & Hin & Hg & He). simplify_eq.
  apply list_elem_of_lookup in Hin as [i Hi].
  destruct (Forall2_lookup_l _ _ _ _ _ Hf Hi) as (cs & _ & Hc & Hz & Hd & _).
  rewrite (good_cores _ _ _ Hg) in Hc. injection Hc as <-.
  assert (ml_content f = 0%Z) as Hz0.
  { destruct (decide (ml_content f = 0%Z)); [done|]. specialize (Hz ltac:(done)).
    apply fmap_nil_inv in Hz. rewrite Hz in He. by apply elem_of_nil in He. }
  destruct Hg as (x & Hx & Hg). specialize (Hd Hz0 x Hx). destruct (ends_with ".avro" _).
  - destruct Hg as (sch & spec & objs & now & Ho & ->). specialize (Hd _ _ _ Ho).
    unfold avro_manifest in He. simpl in He. apply list_elem_of_fmap in He as (e0 & -> & _).
    simpl. match goal with |- filter _ (dedupe_deletes ?d) = [] =>
      assert (d = []) as -> end; [|done].
    unfold deletes_no_file in Hd. induction Hd as [|[z [e|d]] os Ho' _ IH]; [done| |done].
    rewrite bind_cons. simpl in Ho' |- *. by rewrite Ho'.
  - specialize (Hd _ Hg). rewrite Forall_forall in Hd. by apply Hd.
Qed.

Definition stable_map (mp : entry_map) : Prop := map_Forall (fun k _ => stable_path k) mp.

Lemma stable_map_ins acc es : stable_map acc → Forall stable_entry es → stable_map (foldl ins acc es).
Proof.
  intros Ha He. revert acc Ha. induction He as [|e es He Hes IH]; intros acc Ha; [done|].
  apply IH. by apply map_Forall_insert_2.
Qed.

Lemma stable_map_by_path es : Forall stable_entry es → stable_map (map_by_path es).
Proof. intros. apply stable_map_ins; [apply map_Forall_empty|done]. Qed.

Lemma stable_map_remove_all md mp removes mp' :
  stable_map mp → remove_all md mp removes = Some mp' → stable_map mp'.
Proof.
  intros Hs Hr k e. rewrite (remove_all_lookup _ _ _ _ k Hr). case_decide; [done|]. apply Hs.
Qed.

Lemma stable_map_add_all mp adds :
  stable_map mp → Forall stable_entry adds → stable_map (add_all mp adds).
Proof.
  intros Hs Ha. revert mp Hs. induction Ha as [|e adds He Ha IH]; intros mp Hs; [done|].
  apply IH. by apply map_Forall_insert_2.
Qed.

Lemma stable_map_core mp : stable_map (core <$> mp) → stable_map mp.
Proof. intros Hs k e He. apply (Hs k (core e)). by rewrite lookup_fmap, He. Qed.

Lemma stable_map_values mp :
  keyed mp → stable_map mp → Forall stable_entry (map_to_list mp).*2.
Proof.
  intros Hk Hs. apply Forall_forall. intros e ([k e'] & -> & He%elem_of_map_to_list)%list_elem_of_fmap.
  simpl. rewrite (Hk _ _ He). by apply (Hs _ _ He).
Qed.

(** Dropping the delete manifests drops no data. *)
Lemma wf_files_data st l css :
  wf_files st l css →
  ∃ css', wf_files st (filter (fun f => ml_content f = 0%Z) l) css' ∧ concat css' = concat css.
Proof.
  induction 1 as [|f cs l css (Hc & Hz & Hs) Hf IH].
  - exists []. split; [constructor|done].
  - destruct IH as (css' & Hf' & Hcc). rewrite filter_cons. case_decide as Hfc.
    + exists (cs :: css'). split; [by constructor|]. simpl. by rewrite Hcc.
    + exists css'. split; [done|]. simpl. by rewrite Hz, Hcc.
Qed.

(** A list file and its manifests, as the snapshot of the manifest that names them. *)
Lemma snapshot_of_list st m ps l css :
  m_entries m = [] → m_manifest_list_path m = Some ps → list_at st ps = Some l → wf_files st l css →
  wf_manifest st m ∧ snapshot st m = Some (map_by_path (concat css)).
Proof.
  intros He Hp Hl Hf. split.
  - split; [by rewrite He|]. rewrite Hp. eauto.
  - rewrite listed_snapshot by done. unfold listed, head_list. rewrite Hp, Hl. simpl.
    by rewrite (wf_files_cores _ _ _ Hf).
Qed.

Context (max_manifest_files : nat).

(** The head's entries are [mp], as the store holds them. *)
Definition head_is (cur : Manifest) (mp : entry_map) (w : world) : Prop :=
  wf_manifest (w_store w) cur ∧ snapshot (w_store w) cur = Some (core <$> mp).
Lemma head_is_stable cur mp : stable (head_is cur mp).
Proof.
  intros w w' [[Hm _] _] [Hwf Hs]. split; [by eapply wf_manifest_mono|by eapply snapshot_mono].
Qed.

(** Any manifest that names [lp] as its list denotes [cm]. *)
Definition written (lp : option string) (cm : entry_map) (w : world) : Prop :=
  ∀ m, m_entries m = [] → m_manifest_list_path m = lp →
    wf_manifest (w_store w) m ∧ snapshot (w_store w) m = Some cm.
Lemma written_stable lp cm : stable (written lp cm).
Proof.
  intros w w' [[Hm _] _] Hwr m He Hp. destruct (Hwr m He Hp).
  split; [by eapply wf_manifest_mono|by eapply snapshot_mono].
Qed.

Lemma head_is_map_stable cur mp w : head_is cur mp w → stable_map mp.
Proof.
  intros [Hwf Hs]. destruct (wf_listed _ _ Hwf) as (l & css & _ & Hf & Hls).
  unfold snapshot in Hs. rewrite Hls in Hs. injection Hs as Hs.
  apply stable_map_core. rewrite <- Hs. apply stable_map_ins.
  - apply stable_map_by_path, Forall_concat. clear Hs Hls.
    by induction Hf as [|f cs l css (_ & _ & _ & ?) _ IH]; constructor.
  - apply Forall_fmap. apply Hwf.
Qed.

(** Is the append-only path taken on the head [cur], whose list has [n] files? *)
Definition appends (cur : Manifest) (n : nat) (active : entry_map) (removes : list string)
    (adds : list ManifestEntry) : bool :=
  bool_decide (removes = []) && all_new active adds && negb (bool_decide (adds = [])) &&
  match m_manifest_list_path cur with
  | Some _ => bool_decide (n < max_manifest_files)
  | None => true
  end.

Lemma append_plan_spec cur mp mp' removes adds :
  triple (head_is cur mp)
    (append_plan list_from_json mm env max_manifest_files cur mp' removes adds)
    (fun w ap => head_is cur mp w ∧ ∃ l, head_list (w_store w) cur = Some l ∧
       ap.1 && negb (bool_decide (adds = [])) = appends cur (length l) mp' removes adds ∧
       (ap.1 = true → ap.2 = l)).
Proof.
  unfold append_plan, appends.
  destruct (bool_decide (removes = []) && all_new mp' adds) eqn:E; simpl.
  2: { apply triple_ret. intros w _ Hh. split; [done|].
       destruct (wf_listed _ _ (proj1 Hh)) as (l & css & Hl & _). by exists l. }
  unfold head_list. destruct (m_manifest_list_path cur) as [ps|] eqn:Hps.
  - eapply triple_bind; [apply triple_keep; [apply head_is_stable|apply load_manifest_list_spec]|].
    intros l. case_decide; apply triple_ret; intros w _ [Hl Hh]; (split; [done|]); exists l;
      (split; [done|]).
    + rewrite (bool_decide_eq_false_2 (length l < _)) by lia. by rewrite andb_false_r.
    + rewrite (bool_decide_eq_true_2 (length l < _)) by lia. by rewrite andb_true_r.
  - apply triple_ret. intros w _ Hh. split; [done|]. exists []. by rewrite andb_true_r.
Qed.

(** The full rewrite. *)
Lemma write_full_spec md cur ver mp deletes :
  keyed mp → stable_map mp →
  triple (fun _ => True)
    (p ← write_snapshot new_uuid mm env md cur ver [] (map_to_list mp).*2 deletes; mret (Some p))
    (fun w lp => written lp (core <$> mp) w).
Proof.
  intros Hk Hs. eapply triple_bind.
  { eapply triple_conseq; [apply (write_snapshot_spec md cur ver [] [])
      | |intros ? ? _ Hq; exact Hq]; [by apply stable_map_values|].
    intros. constructor. }
  intros p. apply triple_ret. intros w _ (l & css & Hl & Hf & Hc) m He Hp.
  destruct (snapshot_of_list _ m p l css He Hp Hl Hf) as [Hwf Hsn]. split; [done|].
  rewrite Hsn, Hc. simpl. by rewrite <- core_map_by_path, map_by_path_values.
Qed.

Lemma foldl_ins_None acc es k : foldl ins acc es !! k = None → acc !! k = None.
Proof.
  revert acc. induction es as [|e es IH]; intros acc; [done|]. simpl. intros Hk%IH.
  by apply lookup_insert_None in Hk as [? _].
Qed.

Lemma all_new_core mp adds : all_new (core <$> mp) adds = all_new mp adds.
Proof.
  unfold all_new. induction adds as [|e adds IH]; [done|]. simpl. rewrite IH. f_equal.
  apply bool_decide_ext. rewrite lookup_fmap. apply core_lookup_None.
Qed.
Lemma all_new_cores mp adds : all_new mp (core <$> adds) = all_new mp adds.
Proof. unfold all_new. induction adds as [|e adds IH]; [done|]. exact (f_equal2 andb eq_refl IH). Qed.
Lemma all_new_ins acc es adds : all_new (foldl ins acc es) adds = true → all_new acc adds = true.
Proof.
  unfold all_new. rewrite !forallb_elem_of. intros Hn e He. specialize (Hn e He).
  apply bool_decide_eq_true in Hn. apply bool_decide_eq_true. by eapply foldl_ins_None.
Qed.

(** The append-only path: the listed manifests are kept, the added entries follow. *)
Lemma write_append_spec md cur ver fs css adds deletes :
  NoDup (me_file_path <$> adds) → Forall stable_entry adds →
  all_new (map_by_path (concat css)) adds = true →
  triple (fun w => wf_files (w_store w) fs css)
    (p ← write_snapshot new_uuid mm env md cur ver (filter (fun f => ml_content f = 0%Z) fs) adds deletes;
     mret (Some p))
    (fun w lp => written lp (add_all (map_by_path (concat css)) (core <$> adds)) w).
Proof.
  intros Hnd Hst Hnew.
  eapply triple_bind with (Q := fun w ps => ∃ l css', list_at (w_store w) ps = Some l ∧
    wf_files (w_store w) l css' ∧ concat css' = concat css ++ (core <$> adds)).
  { intros w w' r Hw Hf Heq. destruct (wf_files_data _ _ _ Hf) as (kcss & Hk & Hkc).
    rewrite <- Hkc. exact (write_snapshot_spec md cur ver _ _ adds deletes Hst w w' r Hw Hk Heq). }
  intros p. apply triple_ret. intros w _ (l & css' & Hl & Hf & Hc) m He Hp.
  destruct (snapshot_of_list _ m p l css' He Hp Hl Hf) as [Hwf Hsn]. split; [done|].
  rewrite Hsn, Hc, add_all_new.
  - unfold map_by_path. by rewrite foldl_app.
  - by rewrite <- list_fmap_compose.
  - by rewrite all_new_cores.
Qed.

(** What the added entries are put on: the head's entries less the removed ones; on the
    append-only path the listed entries of the head, without the inline ones. *)
Definition commit_base (st : S) (cur : Manifest) (cm' : entry_map) (removes : list string)
    (adds : list ManifestEntry) : option entry_map :=
  l ← head_list st cur; lm ← listed st cur;
  Some (if appends cur (length l) cm' removes adds then lm else cm').

Lemma commit_base_mono st st' cur cm' removes adds base :
  mono st st' → commit_base st cur cm' removes adds = Some base →
  commit_base st' cur cm' removes adds = Some base.
Proof.
  intros Hm. unfold commit_base. destruct (head_list st cur) as [l|] eqn:Hl; [|done].
  rewrite (head_list_mono _ _ _ _ Hm Hl). simpl.
  destruct (listed st cur) as [lm|] eqn:Hlm; [|done]. by rewrite (listed_mono _ _ _ _ Hm Hlm).
Qed.
Lemma commit_base_stable cur cm' removes adds base :
  stable (fun w => commit_base (w_store w) cur cm' removes adds = Some base).
Proof. intros w w' [[Hm _] _]. by apply commit_base_mono. Qed.

Lemma commit_base_plain md st cur cm cm' removes adds base :
  m_entries cur = [] → snapshot st cur = Some cm → remove_all md cm removes = Some cm' →
  commit_base st cur cm' removes adds = Some base → base = cm'.
Proof.
  intros He Hs Hr. rewrite listed_snapshot in Hs by done. unfold commit_base, appends.
  destruct (head_list st cur) as [l|]; [|done]. rewrite Hs. simpl.
  destruct (decide (removes = [])) as [->|Hne]; [|by rewrite (bool_decide_eq_false_2 (removes = [])); [intros [= <-]|]].
  simpl in Hr. injection Hr as <-. by case_match; intros [= <-].
Qed.

(** One attempt: nothing to do, or a manifest that denotes the rebased snapshot. *)
Definition planned (adds : list ManifestEntry) (removes : list string) (md : CommitMetadata)
    (cur : Manifest) (ver : Z) (w : world) (r : Manifest + Manifest) : Prop :=
  ∃ cm, snapshot (w_store w) cur = Some cm ∧
  match r with
  | inl m => m = cur ∧ discards md cm removes = true
  | inr next => discards md cm removes = false ∧ wf_manifest (w_store w) next ∧
      ∃ cm' base now lp, remove_all md cm removes = Some cm' ∧
      commit_base (w_store w) cur cm' removes adds = Some base ∧
      next = next_manifest now md cur ver (collect_deletes (m_delete_files cur) adds) lp ∧
      check_properties md cur next (negb (bool_decide (dom cm = (∅ : gset string))) || negb (bool_decide (adds = []))) = Ok () ∧
      snapshot (w_store w) next = Some (add_all base (core <$> adds))
  end.

Section Commit.
Context (adds : list ManifestEntry) (removes : list string) (md : CommitMetadata).
Hypothesis adds_nodup : NoDup (me_file_path <$> adds).
Hypothesis adds_stable : Forall stable_entry adds.

Lemma add_all_empty mp es : add_all mp es = ∅ → mp = ∅ ∧ es = [].
Proof.
  destruct es as [|e es]; [done|]. intros He. exfalso.
  assert (∀ l acc, is_Some (acc !! me_file_path e) → is_Some (add_all acc l !! me_file_path e)) as Hl.
  { intros l. induction l as [|x l IH]; intros acc Ha; [done|]. apply (IH (add_entry acc x)).
    unfold add_entry. destruct (decide (me_file_path x = me_file_path e)) as [->|].
    - rewrite lookup_insert_eq. eauto.
    - by rewrite lookup_insert_ne. }
  destruct (Hl es (add_entry mp e)) as [x Hx].
  - unfold add_entry. rewrite lookup_insert_eq. eauto.
  - change (add_all (add_entry mp e) es = ∅) in He. by rewrite He in Hx.
Qed.

(** What [append_plan] established. *)
Definition append_planned (cur : Manifest) (mp mp' : entry_map) (ap : bool * list ManifestListEntry)
    (w : world) : Prop :=
  head_is cur mp w ∧ ∃ l, head_list (w_store w) cur = Some l ∧
    ap.1 && negb (bool_decide (adds = [])) = appends cur (length l) mp' removes adds ∧
    (ap.1 = true → ap.2 = l).

(** The base of the commit is fixed before anything is written. *)
Lemma append_planned_base cur mp mp' ap w :
  remove_all md mp removes = Some mp' → append_planned cur mp mp' ap w →
  let append := ap.1 && negb (bool_decide (adds = [])) in
  ∃ css, (append = true → wf_files (w_store w) ap.2 css ∧
                          all_new (map_by_path (concat css)) adds = true) ∧
    commit_base (w_store w) cur (core <$> mp') removes adds =
      Some (if append then map_by_path (concat css) else core <$> mp').
Proof.
  intros Hr [[Hwf Hs] (l & Hl & Happ & Hap)]. cbv zeta.
  destruct (wf_listed _ _ Hwf) as (l' & css & Hl' & Hf & Hls). simplify_eq. exists css. split.
  - intros Ha. rewrite Ha in Happ. symmetry in Happ.
    rewrite Hap by (by apply andb_true_iff in Ha as [? _]). split; [done|].
    unfold appends in Happ. apply andb_true_iff in Happ as [Happ _].
    apply andb_true_iff in Happ as [Happ _].
    apply andb_true_iff in Happ as [Hre%bool_decide_eq_true Hnew].
    rewrite Hre in Hr. injection Hr as <-. unfold snapshot in Hs. rewrite Hls in Hs.
    injection Hs as Hs. rewrite <- all_new_core, <- Hs in Hnew. by eapply all_new_ins.
  - unfold commit_base. rewrite Hl, Hls. simpl. rewrite Happ. unfold appends. by rewrite all_new_core.
Qed.

(** The list file of the next manifest. *)
Lemma write_list_spec cur ver mp mp' ap deletes :
  keyed mp → remove_all md mp removes = Some mp' →
  triple (append_planned cur mp mp' ap)
    (match (map_to_list (add_all mp' adds)).*2 with
     | [] => mret None
     | _ =>
         if (ap.1 : bool) && negb (bool_decide (adds = []))
         then p ← write_snapshot new_uuid mm env md cur (ver + 1)
                    (filter (fun f => ml_content f = 0%Z) ap.2) adds deletes;
              mret (Some p)
         else p ← write_snapshot new_uuid mm env md cur (ver + 1) []
                    (map_to_list (add_all mp' adds)).*2 deletes;
              mret (Some p)
     end)
    (fun w lp => ∃ base, (commit_base (w_store w) cur (core <$> mp') removes adds = Some base ∧
       head_is cur mp w) ∧ written lp (add_all base (core <$> adds)) w).
Proof.
  intros Hk Hr. assert (keyed (add_all mp' adds)) as Hk'.
  { eapply keyed_add_all, keyed_remove_all; eauto. }
  intros w0 w1 r0 Hw0 Hpl. destruct (append_planned_base _ _ _ _ _ Hr Hpl) as (css & Hcss & Hbase).
  pose proof (proj1 Hpl) as Hh. pose proof (head_is_map_stable _ _ _ Hh) as Hst. clear Hpl.
  assert (∀ base, stable (fun w => commit_base (w_store w) cur (core <$> mp') removes adds = Some base ∧
    head_is cur mp w)) as Hkeep.
  { intros base w w' Hs [? ?]. split; [by eapply commit_base_stable|by eapply head_is_stable]. }
  assert (stable_map (add_all mp' adds)) as Hst'.
  { apply stable_map_add_all; [by eapply stable_map_remove_all|done]. }
  set (append := ap.1 && negb (bool_decide (adds = []))) in *.
  assert (adds = [] → append = false) as Hnil.
  { intros ->. unfold append. by rewrite andb_false_r. }
  clearbody append.
  set (base := if append then map_by_path (concat css) else core <$> mp') in *.
  cut (triple (fun w => (append = true → wf_files (w_store w) ap.2 css) ∧
      (commit_base (w_store w) cur (core <$> mp') removes adds = Some base ∧ head_is cur mp w))
    (match (map_to_list (add_all mp' adds)).*2 with
     | [] => mret None
     | _ =>
         if append
         then p ← write_snapshot new_uuid mm env md cur (ver + 1)
                    (filter (fun f => ml_content f = 0%Z) ap.2) adds deletes;
              mret (Some p)
         else p ← write_snapshot new_uuid mm env md cur (ver + 1) []
                    (map_to_list (add_all mp' adds)).*2 deletes;
              mret (Some p)
     end)
    (fun w lp => written lp (add_all base (core <$> adds)) w ∧
       (commit_base (w_store w) cur (core <$> mp') removes adds = Some base ∧ head_is cur mp w))).
  { intros Ht Heq. destruct (Ht w0 w1 r0 Hw0) as [? Hq]; [naive_solver|done|]. split; [done|].
    intros lp Hlp. exists base. destruct (Hq lp Hlp). done. }
  apply triple_frame; [apply Hkeep|].
  destruct (map_to_list (add_all mp' adds)).*2 as [|e es] eqn:Hes.
  - apply fmap_nil_inv, map_to_list_empty_iff in Hes.
    pose proof (add_all_empty _ _ Hes) as [-> Hadds]. unfold base. rewrite (Hnil Hadds), Hadds.
    apply triple_ret. intros w _ _ m Hm Hl. simpl. rewrite fmap_empty.
    split; [split; [by rewrite Hm|by rewrite Hl]|].
    rewrite listed_snapshot by done. unfold listed, head_list. by rewrite Hl.
  - rewrite <- Hes. clear Hes e es. subst base. destruct append.
    + eapply triple_conseq; [by apply write_append_spec; [..|apply Hcss]|naive_solver|done].
    + rewrite <- core_add_all. by apply triple_pre, write_full_spec.
Qed.

Lemma values_nil_dom (mp : entry_map) :
  bool_decide ((map_to_list mp).*2 = []) = bool_decide (dom (core <$> mp) = (∅ : gset string)).
Proof.
  apply bool_decide_ext. rewrite dom_fmap_L, dom_empty_iff_L. split.
  - by intros He%fmap_nil_inv%map_to_list_empty_iff.
  - intros ->. by rewrite map_to_list_empty.
Qed.

Lemma plan_commit_spec cur ver :
  triple (fun w => wf_manifest (w_store w) cur)
    (plan_commit list_from_json new_uuid clock mm env max_manifest_files adds removes md cur ver)
    (fun w r => planned adds removes md cur ver w r).
Proof.
  unfold plan_commit. eapply triple_bind with (Q := fun w es => ∃ mp, es = (map_to_list mp).*2 ∧
    keyed mp ∧ head_is cur mp w).
  { eapply triple_conseq; [apply triple_keep with (F := fun w => wf_manifest (w_store w) cur);
      [|apply load_all_entries_spec]|intros w _ Hw; exact Hw|].
    - intros w w' [[Hm _] _]. by apply wf_manifest_mono.
    - intros w es _ [(mp & -> & Hk & Hs & _) Hwf]. by exists mp. }
  intros es. eapply triple_fact with (φ := ∃ mp, es = (map_to_list mp).*2 ∧ keyed mp); [naive_solver|].
  intros (mp & -> & Hk). eapply triple_conseq with (P' := head_is cur mp) (Q' := _);
    [|intros w _ (mp' & Heq & Hk' & Hh)|done].
  2: { by rewrite <- (map_by_path_values mp Hk), Heq, map_by_path_values. }
  rewrite map_by_path_values by done.
  destruct (discards md mp removes) eqn:Hd.
  { apply triple_ret. intros w _ Hh. exists (core <$> mp). split; [apply Hh|].
    split; [done|]. by rewrite core_discards. }
  eapply triple_bind with (Q := fun w mp' => head_is cur mp w ∧ remove_all md mp removes = Some mp').
  { by apply triple_lift. }
  intros mp'. eapply triple_fact with (φ := remove_all md mp removes = Some mp'); [naive_solver|].
  intros Hr. eapply triple_bind.
  { eapply triple_conseq; [apply (append_plan_spec cur mp mp' removes adds)
      |by intros w _ [Hh _]|intros w ap _ Hq; exact Hq]. }
  intros ap. simpl. eapply triple_bind; [by apply write_list_spec|].
  intros lp. eapply triple_bind; [apply triple_read with (Q := fun w _ => ∃ base,
    (commit_base (w_store w) cur (core <$> mp') removes adds = Some base ∧ head_is cur mp w) ∧
    written lp (add_all base (core <$> adds)) w); done|].
  intros now. set (next := next_manifest _ _ _ _ _ _). case_match eqn:Hck; [|apply triple_fail].
  apply triple_ret. intros w _ (base & [Hb [Hwf Hs]] & Hwr). exists (core <$> mp). split; [done|].
  destruct (Hwr next eq_refl eq_refl) as [Hwn Hsn].
  split_and!; [by rewrite core_discards|done|]. exists (core <$> mp'), base, now, lp.
  rewrite core_remove_all, Hr. split_and!; [done|done|done| |done].
  rewrite <- (values_nil_dom mp). by destruct a.
Qed.
End Commit.
(** ** The optimistic commit loop *)

(** [cur] is the head, at version [h]. *)
Definition head (st : S) (h : Z) (cur : Manifest) : Prop :=
  ((1 ≤ h)%Z ∧ stored st h = Some cur) ∨ (h = 0%Z ∧ genesis cur).

Lemma loaded_head st cur ver :
  (∃ b h, versions st b h) → loaded st cur ver → os_objs st (vpath (ver + 1)) = None →
  ∃ b, versions st b ver ∧ head st ver cur.
Proof.
  intros (b & h & Hv) Hl Hn. assert (¬ (b ≤ ver + 1 ≤ h)%Z) as Hout.
  { destruct Hv as [_ Hv]. rewrite <- Hv, Hn. by intros [? ?]. }
  destruct Hl as [[H1 Hs]|(-> & Hg & h' & Hh')].
  - pose proof (stored_present _ _ _ Hs) as Hp. pose proof Hv as [Hb Hvv]. apply Hvv in Hp.
    assert (h = ver) as -> by lia. exists b. split; [done|]. by left.
  - destruct (versions_unique _ _ _ _ _ Hh' Hv) as [-> ->].
    assert (h' = 0%Z) as -> by (destruct Hh' as [? _]; lia).
    exists 1%Z. split; [done|]. by right.
Qed.

Lemma version_path_eq v h : (1 ≤ h)%Z → vpath v = vpath h → v = h.
Proof.
  intros Hh Heq. destruct (decide (0 ≤ v)%Z) as [Hv|Hv]; [by apply (version_path_inj mm); [|lia|]|].
  assert (vpath v = vpath 0) as Hz.
  { unfold version_path, version_file, u64_to_string. by replace (Z.to_N v) with 0%N by lia. }
  rewrite Hz in Heq. apply version_path_inj in Heq; lia.
Qed.

Lemma versions_push st st' b h x :
  versions st b h → os_upd st (vpath (h + 1)) (Some x) st' → versions st' b (h + 1).
Proof.
  intros [Hb Hv] [Hn Ho]. split; [lia|]. intros v. destruct (decide (v = h + 1)%Z) as [->|Hne].
  - rewrite Hn. split; [lia|done].
  - rewrite Ho, Hv; [lia|]. intros Heq. apply Hne, version_path_eq; [lia|done].
Qed.

(** Writing the next version file of the current head. *)
Lemma push_step (w : world) st' cur ver next x :
  wok w → loaded (w_store w) cur ver → wf_manifest (w_store w) next →
  os_objs (w_store w) (vpath (ver + 1)) = None →
  os_upd (w_store w) (vpath (ver + 1)) (Some (to_bytes next, x)) st' →
  step w (set_store w st') ∧
  ∃ b, versions (w_store w) b ver ∧ head (w_store w) ver cur ∧
       versions st' b (ver + 1) ∧ stored st' (ver + 1) = Some next.
Proof.
  intros Hw Hl Hwf Hn Hu.
  destruct (loaded_head _ _ _ (wok_versions _ Hw) Hl Hn) as (b & Hv & Hh).
  assert (1 ≤ ver + 1)%Z as Hpos by (destruct Hv as [? _]; lia).
  assert (mono (w_store w) st') as Hm.
  { intros q y Hq. destruct (decide (q = vpath (ver + 1))) as [->|Hne]; [congruence|].
    by rewrite (proj2 Hu). }
  pose proof (versions_push _ _ _ _ _ Hv Hu) as Hv'.
  assert (stored st' (ver + 1) = Some next) as Hs.
  { unfold stored. rewrite (proj1 Hu). simpl. apply from_to_bytes. }
  split; [|by exists b]. apply step_store.
  - split; [done|]. intros b' h' Hb'. destruct (versions_unique _ _ _ _ _ Hv Hb') as [-> ->].
    exists (ver + 1)%Z. split; [lia|done].
  - intros Hnm q v Hq Hd Hvq. destruct (decide (q = vpath (ver + 1))) as [->|Hne].
    + by rewrite (version_of_path_inv mm (ver + 1) v) by (done || lia).
    + rewrite (proj2 Hu) in Hq by done. by apply Hnm.
  - intros v m Hsv. destruct (decide (vpath v = vpath (ver + 1))) as [Heq|Hne].
    + right. unfold stored in Hs, Hsv. rewrite Heq, Hs in Hsv. simplify_eq.
      by eapply wf_manifest_mono.
    + left. unfold stored in *. by rewrite (proj2 Hu) in Hsv.
Qed.
(** [m] was committed on top of the head [cur]: at one instant between [st0] and now,
    [cur] was the head and the next version was created, holding [m]. *)
Definition linearized (R : S → Manifest → Z → Manifest → Prop) (st0 st1 : S) (m : Manifest) : Prop :=
  ∃ st st' b ver cur,
    reach st0 st ∧ versions st b ver ∧ head st ver cur ∧ R st cur ver m ∧
    reach st st' ∧ versions st' b (ver + 1) ∧ stored st' (ver + 1) = Some m ∧ reach st' st1.

(** The put of the version file, whatever the store answers. *)
Lemma sput_version_spec (R : S → Manifest → Z → Manifest → Prop) st0 cur ver next :
  (∀ st st', reach st st' → R st cur ver next → R st' cur ver next) →
  triple (fun w => reach st0 (w_store w) ∧ loaded (w_store w) cur ver ∧
                   wf_manifest (w_store w) next ∧ R (w_store w) cur ver next)
    (sput env (vpath (ver + 1)) (to_bytes next) Create)
    (fun w r => ∀ v : V, r = Ok v →
       linearized R st0 (w_store w) next ∧ stored (w_store w) (ver + 1) = Some next).
Proof.
  intros HR w w' r Hw (H1 & Hl & Hwf & HRw) Heq. unfold sput in Heq.
  pose proof (suspend_step w Hw) as Hs. set (w1 := suspend env w) in *.
  assert (wok w1) as Hw1 by (by apply Hs).
  assert (reach st0 (w_store w1)) as H1' by (etrans; [exact H1|apply Hs]).
  assert (loaded (w_store w1) cur ver) as Hl' by (by eapply loaded_stable).
  assert (wf_manifest (w_store w1) next) as Hwf' by (eapply wf_manifest_mono; [apply Hs|done]).
  assert (R (w_store w1) cur ver next) as HR' by (eapply HR; [apply Hs|done]).
  destruct (os_put (w_store w1) (vpath (ver + 1)) (to_bytes next) Create) as [st ro] eqn:Hput.
  simplify_eq. destruct ro as [v|e].
  - apply os_put_ok in Hput as [Hu Hn].
    destruct (push_step w1 st cur ver next v Hw1 Hl' Hwf' Hn Hu) as [Hst (b & Hv & Hh & Hv' & Hsn)].
    split; [by etrans|]. intros a [= <-] v' _. split; [|done]. exists (w_store w1), st, b, ver, cur.
    split_and!; try done. apply Hst.
  - split; [|by intros a [= <-] v']. etrans; [exact Hs|].
    apply os_put_err in Hput as [Hsame|(_ & v & Hu & Hn)].
    + apply step_store.
      * apply reach_same_versions; [intros q x; by rewrite Hsame|intros v; by rewrite Hsame].
      * intros Hnm q v. rewrite Hsame. apply Hnm.
      * intros v m. unfold stored. rewrite Hsame. by left.
    + by destruct (push_step w1 st cur ver next v Hw1 Hl' Hwf' Hn Hu).
Qed.

(** What a plan must establish; [R] relates head and successor, [E] is the early return. *)
Definition plan_ok (R E : S → Manifest → Z → Manifest → Prop)
    (plan : Manifest → Z → M (Manifest + Manifest)) : Prop :=
  ∀ cur ver, triple (fun w => loaded (w_store w) cur ver) (plan cur ver) (fun w r =>
    match r with
    | inl m => E (w_store w) cur ver m
    | inr next => m_version next = (ver + 1)%Z ∧ wf_manifest (w_store w) next ∧
                  R (w_store w) cur ver next
    end).

Definition returned_early (E : S → Manifest → Z → Manifest → Prop) (st0 st1 : S) (m : Manifest) :
    Prop :=
  ∃ st cur ver, reach st0 st ∧ loaded st cur ver ∧ E st cur ver m ∧ reach st st1.

Lemma load_head_spec pol n :
  triple (fun _ => True) (load_head clock mm env pol n) (fun w mv => loaded (w_store w) mv.1 mv.2).
Proof.
  unfold load_head. case_decide; [apply load_latest_spec|].
  case_match; [apply load_latest_direct_spec|apply load_latest_spec].
Qed.

Lemma reach_stable st0 : stable (fun w => reach st0 (w_store w)).
Proof. intros w w' [Hr _] H1. by etrans. Qed.

Lemma stored_good st v m : stored st v = Some m → good_manifest st (vpath v) m.
Proof.
  unfold stored, good_manifest. rewrite version_path_not_avro.
  destruct (os_objs st (vpath v)) as [x|]; [|done]. eauto.
Qed.

Lemma committed_stable R st0 m v :
  stable (fun w => linearized R st0 (w_store w) m ∧ stored (w_store w) v = Some m).
Proof.
  intros w w' [Hr _] [(st & st' & b & ver & cur & Hlin) Hs]. split; [|by eapply stored_mono; [apply Hr|]].
  exists st, st', b, ver, cur. destruct_and! Hlin. split_and!; try done. by etrans.
Qed.

Context (conflict_text : os_error → bool).

Lemma occ_loop_spec R E pol plan fuel n st0 :
  (∀ st st' cur ver m, reach st st' → R st cur ver m → R st' cur ver m) →
  plan_ok R E plan →
  triple (fun w => reach st0 (w_store w)) (occ_loop conflict_text clock mm env pol plan fuel n)
    (fun w m => linearized R st0 (w_store w) m ∨ returned_early E st0 (w_store w) m).
Proof.
  intros HR Hplan. revert n. induction fuel as [|fuel IH]; intros n; [apply triple_fail|].
  simpl. eapply triple_bind; [apply triple_keep; [apply reach_stable|apply load_head_spec]|].
  intros [cur ver]. simpl. eapply triple_bind.
  { eapply triple_conseq; [apply triple_frame; [|apply (Hplan cur ver)]
      |intros w _ Hw; split; [apply Hw|exact Hw]|intros w r _ Hq; exact Hq].
    intros w w' Hs [? ?]. split; [by eapply loaded_stable|by eapply reach_stable]. }
  intros [early|next].
  - apply triple_ret. intros w _ (He & Hl & Hr). right. exists (w_store w), cur, ver. done.
  - eapply triple_fact with (φ := m_version next = (ver + 1)%Z); [by intros w _ [[? _] _]|]. intros ->.
    eapply triple_bind.
    { eapply triple_conseq with (P' := fun w => (reach st0 (w_store w) ∧ loaded (w_store w) cur ver ∧
        wf_manifest (w_store w) next ∧ R (w_store w) cur ver next) ∧ reach st0 (w_store w));
        [apply triple_frame; [apply reach_stable|apply (sput_version_spec R); eauto]|tauto|].
      intros w r _ Hq. exact Hq. }
    intros [v|e].
    + eapply triple_bind.
      { eapply triple_conseq; [apply triple_keep; [apply (committed_stable R st0 next (ver + 1))
          |apply set_latest_spec]|intros w _ [Hc _]; by apply (Hc v)|intros w ? _ Hq; exact Hq]. }
      intros []. eapply triple_bind.
      { eapply triple_conseq with (P' := fun w => good_manifest (w_store w) (vpath (ver + 1)) next ∧
          (linearized R st0 (w_store w) next ∧ stored (w_store w) (ver + 1) = Some next)).
        - apply triple_frame; [apply (committed_stable R st0 next (ver + 1))|apply cache_manifest_spec].
        - intros w _ [_ Hc]. split; [by apply stored_good, Hc|done].
        - intros w ? _ Hq. exact Hq. }
      intros []. apply triple_ret. intros w _ [_ [Hlin _]]. by left.
    + case_match; [|apply triple_fail]. eapply triple_bind with (Q := fun w _ => reach st0 (w_store w)).
      { case_match; [|by apply triple_ret; intros w _ [_ ?]].
        eapply triple_conseq; [apply triple_keep; [apply (reach_stable st0)|apply set_latest_spec]
          |by intros w _ [_ ?]|by intros w ? _ [_ ?]]. }
      intros _. apply IH.
Qed.
(** ** Commits are linearizable *)

Section Linearizable.
Context (adds : list ManifestEntry) (removes : list string) (md : CommitMetadata).

(** The effect of [commit] on the head: the next manifest, with the metadata of the
    change, the delete files of the head and of the added entries, and, of the removed
    and added files, the snapshot.  On a head without inline entries the added entries
    are put on all that is left of it. *)
Definition rebased (st : S) (cur : Manifest) (ver : Z) (m : Manifest) : Prop :=
  ∃ cm cm' base now lp,
    snapshot st cur = Some cm ∧ discards md cm removes = false ∧
    remove_all md cm removes = Some cm' ∧
    commit_base st cur cm' removes adds = Some base ∧ (m_entries cur = [] → base = cm') ∧
    m = next_manifest now md cur ver (collect_deletes (m_delete_files cur) adds) lp ∧
    check_properties md cur m
      (negb (bool_decide (dom cm = (∅ : gset string))) || negb (bool_decide (adds = []))) = Ok () ∧
    snapshot st m = Some (add_all base (core <$> adds)).

(** The rebase found one of the files to replace gone: nothing is committed. *)
Definition discarded (st : S) (cur : Manifest) (ver : Z) (m : Manifest) : Prop :=
  m = cur ∧ ∃ cm, snapshot st cur = Some cm ∧ discards md cm removes = true.

Lemma loaded_wf (w : world) cur ver : wok w → loaded (w_store w) cur ver → wf_manifest (w_store w) cur.
Proof.
  intros Hw [[_ Hs]|(_ & [->|[now ->]] & _)]; [by eapply wok_wf|by split; [constructor|]..].
Qed.

Lemma plan_commit_ok :
  NoDup (me_file_path <$> adds) → Forall stable_entry adds →
  plan_ok rebased discarded
    (plan_commit list_from_json new_uuid clock mm env max_manifest_files adds removes md).
Proof.
  intros Hnd Hst cur ver. eapply triple_conseq; [by apply plan_commit_spec| |].
  - intros w Hw Hl. by eapply loaded_wf.
  - intros w [m|m] _ (cm & Hcm & Hr).
    + destruct Hr as [-> Hd]. split; [done|eauto].
    + destruct Hr as (Hd & Hwf & cm' & base & now & lp & Hr & Hb & Hm & Hck & Hs).
      split_and!; [by rewrite Hm|done|]. exists cm, cm', base, now, lp. split_and!; try done.
      intros He. by eapply commit_base_plain.
Qed.

Lemma rebased_mono st st' cur ver m : reach st st' → rebased st cur ver m → rebased st' cur ver m.
Proof.
  intros [Hm _] (cm & cm' & base & now & lp & Hc & Hd & Hr & Hb & Hp & Hn & Hck & Hs).
  exists cm, cm', base, now, lp.
  split_and!; eauto using snapshot_mono, commit_base_mono.
Qed.

(** A commit linearizes, and it is a step of the system for everybody else whatever its
    outcome. *)
Lemma commit_spec w w' r :
  wok w → NoDup (me_file_path <$> adds) → Forall stable_entry adds →
  commit list_from_json conflict_text new_uuid clock mm env max_manifest_files adds removes md w
    = (w', r) →
  step w w' ∧ ∀ m, r = Ok m →
    linearized rebased (w_store w) (w_store w') m ∨
    returned_early discarded (w_store w) (w_store w') m.
Proof.
  intros Hw Hnd Hst Hc.
  exact (occ_loop_spec rebased discarded commit_policy _ _ 0 (w_store w) rebased_mono
    (plan_commit_ok Hnd Hst) w w' r Hw (reflexivity _) Hc).
Qed.

(** C1: commits are linearizable.  Let the table start sound (consecutive version files,
    readable manifests, caches that hold what the store holds), let the other processes
    keep it so and only add objects while the commit runs (commits, imports,
    synchronizations and metadata updates do; vacuum does not, see
    [vacuum_race_loses_commit]), and let the added files have distinct paths and the
    UUIDs be fresh.  Then a commit that returns success took
    effect at one instant: its version file directly succeeds the version that was the
    head then, and it holds the next manifest for that head, with the head's and the
    added entries' delete files, after the property check against that head.  Its
    snapshot is the head's with the removed paths gone and the added entries in, when the
    head has no inline entries; on a head with inline entries the append-only path keeps
    the listed entries only ([append_drops_built_indexes]).  The only other success is the discarded compaction.
    Entries are compared by path, size, row count, checksum, row id and indexes.  Success
    or not, the table stays sound. *)
Theorem commit_linearizes w w' r :
  wok w → NoDup (me_file_path <$> adds) → Forall stable_entry adds →
  commit list_from_json conflict_text new_uuid clock mm env max_manifest_files adds removes md w
    = (w', r) →
  step w w' ∧ ∀ m, r = Ok m →
    linearized rebased (w_store w) (w_store w') m ∨
    returned_early discarded (w_store w) (w_store w') m.
Proof. apply commit_spec. Qed.
End Linearizable.

Lemma linearized_impl (R R' : S → Manifest → Z → Manifest → Prop) st0 st1 m :
  (∀ st cur ver, R st cur ver m → R' st cur ver m) → linearized R st0 st1 m → linearized R' st0 st1 m.
Proof.
  intros HR (st & st' & b & ver & cur & H1 & H2 & H3 & H4 & H5).
  exists st, st', b, ver, cur. by split_and!; auto; apply H5.
Qed.

(** The head's own entries are gone: the snapshot of [m] has exactly the added files. *)
Definition replaces_inline (adds : list ManifestEntry) (st : S) (cur : Manifest) (ver : Z)
    (m : Manifest) : Prop :=
  m_manifest_list_path cur = None →
  ∃ cm, snapshot st cur = Some cm ∧
    (all_new cm adds = true →
     snapshot st m = Some (map_by_path (core <$> adds)) ∧
     ∀ p, is_Some (cm !! p) → map_by_path (core <$> adds) !! p = None).

(** C39: an append replaces a table whose entries are all inline.  Whenever a commit
    that removes nothing and adds new files lands on a head without a manifest list (as
    [commit_synced_snapshot] leaves a table it filled), the snapshot it installs holds
    the added files only: no file of the head is in it.  Conditions: the table starts
    sound (consecutive version files, readable manifests, caches that hold what the store
    holds), other processes keep it so and only add objects meanwhile, the added files
    have distinct paths and the UUIDs are fresh. *)
Theorem append_replaces_inline_table adds md w w' m :
  wok w → NoDup (me_file_path <$> adds) → Forall stable_entry adds → adds ≠ [] →
  commit list_from_json conflict_text new_uuid clock mm env max_manifest_files adds [] md w
    = (w', Ok m) →
  linearized (replaces_inline adds) (w_store w) (w_store w') m.
Proof.
  intros Hw Hnd Hst Hne Hc. destruct (commit_spec adds [] md w w' _ Hw Hnd Hst Hc) as [_ Hr].
  destruct (Hr m eq_refl) as [Hl|(st & cur & ver & _ & _ & [_ (cm & _ & Hd)] & _)].
  2: { unfold discards in Hd. simpl in Hd. by rewrite andb_false_r in Hd. }
  eapply linearized_impl; [|exact Hl]. intros st cur ver
    (cm & cm' & base & now & lp & Hcm & _ & Hrm & Hb & _ & _ & _ & Hs) Hlp.
  exists cm. split; [done|]. intros Hnew. simpl in Hrm. injection Hrm as <-.
  assert (base = ∅) as ->.
  { unfold commit_base, listed, head_list, appends in Hb. rewrite Hlp, Hnew in Hb. simpl in Hb.
    rewrite (bool_decide_eq_false_2 (adds = [])) in Hb by done. by injection Hb as <-. }
  rewrite Hs, add_all_new; [|by rewrite <- list_fmap_compose|].
  2: { unfold all_new. apply forallb_elem_of. intros e _. by apply bool_decide_eq_true. }
  split; [done|]. intros p [x Hx]. destruct (map_by_path (core <$> adds) !! p) as [e|] eqn:He; [|done].
  pose proof (keyed_map_by_path _ _ _ He) as Hk. apply foldl_ins_inv in He as [He|He]; [|done].
  apply list_elem_of_fmap in He as (a & -> & Ha). unfold all_new in Hnew.
  rewrite forallb_elem_of in Hnew. specialize (Hnew a Ha). apply bool_decide_eq_true in Hnew.
  simpl in Hk. congruence.
Qed.
(** A manifest that takes entries and list from a sound one is sound and denotes the same. *)
Lemma same_files st m m' :
  m_entries m' = m_entries m → m_manifest_list_path m' = m_manifest_list_path m →
  wf_manifest st m → wf_manifest st m' ∧ snapshot st m' = snapshot st m.
Proof. unfold wf_manifest, snapshot, listed, head_list. by intros -> ->. Qed.

(** *** The other commits are steps of the system too *)

Section Others.
Abbreviation any := (fun (_ : S) (_ : Manifest) (_ : Z) (_ : Manifest) => True).

Lemma occ_step pol plan w w' r :
  plan_ok any any plan → wok w → occ conflict_text clock mm env pol plan w = (w', r) → step w w'.
Proof.
  intros Hp Hw Hc.
  apply (occ_loop_spec any any pol plan (oc_tries pol) 0 (w_store w) ltac:(done) Hp w w' r Hw
    (reflexivity _) Hc).
Qed.

(** A manifest with the list of a sound head and stable inline entries is sound. *)
Lemma inline_wf st cur m :
  wf_manifest st cur → m_manifest_list_path m = m_manifest_list_path cur →
  Forall stable_entry (m_entries m) → wf_manifest st m.
Proof.
  intros [_ Hl] Hp He. split; [|by rewrite Hp]. eapply Forall_impl; [exact He|].
  intros e [Hq Hr]. simpl. by rewrite Hr.
Qed.

(** Planning on the entries of the head. *)
Lemma inline_plan (next : Z → Manifest → Z → list ManifestEntry → Manifest) :
  (∀ now cur ver mp, keyed mp → stable_map mp →
     let m := next now cur ver (map_to_list mp).*2 in
     m_version m = (ver + 1)%Z ∧ m_manifest_list_path m = m_manifest_list_path cur ∧
     Forall stable_entry (m_entries m)) →
  plan_ok any any (fun cur ver =>
    es ← load_all_entries list_from_json clock mm env cur;
    now ← now_millis clock;
    mret (inr (next now cur ver es))).
Proof.
  intros Hnext cur ver. eapply triple_bind with (Q := fun w es => ∃ mp, es = (map_to_list mp).*2 ∧
    keyed mp ∧ head_is cur mp w).
  { eapply triple_conseq; [apply triple_keep with (F := fun w => wf_manifest (w_store w) cur);
      [|apply load_all_entries_spec]|by intros w Hw Hl; eapply loaded_wf|].
    - intros w w' [[Hm _] _]. by apply wf_manifest_mono.
    - intros w es _ [(mp & -> & Hk & Hs & _) Hwf]. by exists mp. }
  intros es. eapply triple_bind; [by apply triple_read with (Q := fun w _ => ∃ mp,
    es = (map_to_list mp).*2 ∧ keyed mp ∧ head_is cur mp w)|].
  intros now. apply triple_ret. intros w _ (mp & -> & Hk & Hh).
  destruct (Hnext now cur ver mp Hk (head_is_map_stable _ _ _ Hh)) as (Hv & Hp & He).
  split_and!; [done| |done]. by eapply inline_wf; [apply Hh|..].
Qed.

Lemma update_existing_kept mp es :
  keyed mp → stable_map mp →
  keyed (foldl update_existing mp es) ∧ stable_map (foldl update_existing mp es).
Proof.
  revert mp. induction es as [|e es IH]; intros mp Hk Hs; [done|]. simpl. unfold update_existing.
  destruct (mp !! me_file_path e) eqn:He; [|by apply IH].
  apply IH; [by apply keyed_insert|]. apply map_Forall_insert_2; [|done]. by apply (Hs _ _ He).
Qed.

Lemma commit_imported_step entries w w' r :
  wok w → commit_imported_entries list_from_json conflict_text clock mm env entries w = (w', r) →
  step w w'.
Proof.
  intros Hw. apply occ_step; [|done].
  apply (inline_plan (fun now cur ver es => imported_manifest now cur ver es entries)).
  intros now cur ver mp Hk Hs. split_and!; [done|done|]. simpl.
  rewrite map_by_path_values by done.
  destruct (update_existing_kept mp entries Hk Hs). by apply stable_map_values.
Qed.

Lemma sync_entries_paths existing es :
  me_file_path <$> sync_entries existing es = me_file_path <$> es.
Proof.
  revert existing. induction es as [|e es IH]; intros existing; [done|].
  rewrite fmap_cons. simpl. rewrite <- (IH (delete (me_file_path e) existing)). f_equal.
  repeat case_match; done.
Qed.

Lemma commit_synced_step entries w w' r :
  wok w → Forall stable_entry entries →
  commit_synced_snapshot list_from_json conflict_text clock mm env entries w = (w', r) → step w w'.
Proof.
  intros Hw He. apply occ_step; [|done].
  apply (inline_plan (fun now cur ver es => synced_manifest now cur ver es entries)).
  intros now cur ver mp _ _. split_and!; [done|done|]. simpl.
  change (Forall (stable_path ∘ me_file_path) (sync_entries (map_by_path (map_to_list mp).*2) entries)).
  by rewrite <- Forall_fmap, sync_entries_paths, Forall_fmap.
Qed.

(** A plan that keeps list and inline entries of the head. *)
Lemma metadata_plan (next : Z → Manifest → Z → Manifest) :
  (∀ now cur ver, let m := next now cur ver in m_version m = (ver + 1)%Z ∧
     m_manifest_list_path m = m_manifest_list_path cur ∧ m_entries m = m_entries cur) →
  plan_ok any any (fun cur ver => now ← now_millis clock; mret (inr (next now cur ver))).
Proof.
  intros Hnext cur ver. eapply triple_bind; [apply triple_read with
    (Q := fun w _ => wf_manifest (w_store w) cur); intros w Hw Hl; by eapply loaded_wf|].
  intros now. apply triple_ret. intros w _ Hwf. destruct (Hnext now cur ver) as (Hv & Hp & He).
  split_and!; [done| |done]. by apply (same_files _ cur).
Qed.

Lemma update_partition_spec_step spec w w' r :
  wok w → update_partition_spec conflict_text clock mm env spec w = (w', r) → step w w'.
Proof.
  intros Hw. apply occ_step; [|done].
  by apply (metadata_plan (fun now cur ver => respecced_manifest now cur ver spec)).
Qed.

Lemma update_schema_step schemas id last w w' r :
  wok w → update_schema conflict_text clock mm env schemas id last w = (w', r) → step w w'.
Proof.
  intros Hw. apply occ_step; [|done].
  by apply (metadata_plan (fun now cur ver => reschemaed_manifest now cur ver schemas id last)).
Qed.
End Others.

Section Metadata.

(** [m] is [cur] with other properties, and the transition is allowed. *)
Definition reproperties (props : gmap string string) (st : S) (cur : Manifest) (ver : Z)
    (m : Manifest) : Prop :=
  ∃ now, m = with_properties now cur ver (normalize_embedding_properties props) ∧
    validate_embedding_property_transition (m_properties cur)
      (normalize_embedding_properties props)
      (negb (bool_decide (m_entries cur = [])) ||
       bool_decide (is_Some (m_manifest_list_path cur))) = Ok ().

(** Property updates are linearizable: a successful update replaced the properties
    of the manifest that was the head at one instant, kept everything else of it, and
    passed the embedding-space check against that head's properties, not against an
    older version's. *)
Theorem update_properties_linearizes props w w' r :
  wok w → update_properties conflict_text clock mm env props w = (w', r) →
  step w w' ∧ ∀ m, r = Ok m → linearized (reproperties props) (w_store w) (w_store w') m.
Proof.
  intros Hw Hc.
  assert (plan_ok (reproperties props) (fun _ _ _ _ => False)
    (fun current ver =>
      let properties := normalize_embedding_properties props in
      let has_data := negb (bool_decide (m_entries current = [])) ||
                      bool_decide (is_Some (m_manifest_list_path current)) in
      match validate_embedding_property_transition (m_properties current) properties has_data with
      | Ok _ => now ← now_millis clock; mret (inr (with_properties now current ver properties))
      | Err e => fail (PropertyErr e)
      end)) as Hplan.
  { intros cur ver. cbv zeta. destruct (validate_embedding_property_transition _ _ _) as [[]|e] eqn:Hval;
      [|apply triple_fail].
    eapply triple_bind; [apply triple_read with (Q := fun w _ => wf_manifest (w_store w) cur)|].
    { intros w1 Hw1 Hl. by eapply loaded_wf. }
    intros now. apply triple_ret. intros w1 _ Hwf. split; [done|].
    split; [by apply (same_files _ cur)|]. by exists now. }
  destruct (occ_loop_spec (reproperties props) (fun _ _ _ _ => False) retry11 _ _ 0 (w_store w)
    ltac:(done) Hplan w w' r Hw (reflexivity _) Hc) as [Hs Hr].
  split; [done|]. intros m Hm. destruct (Hr m Hm) as [?|(st & cur & ver & _ & _ & [] & _)]. done.
Qed.

(** [m] is the stored version [target] under a new number. *)
Definition rolled (target : Z) (st : S) (cur : Manifest) (ver : Z) (m : Manifest) : Prop :=
  ∃ t, stored st target = Some t ∧ m = rolled_back t ver ∧ snapshot st m = snapshot st t.

(** A successful rollback installs, as the direct successor of the version that was
    the head at that instant, a manifest that denotes exactly the snapshot of the
    target version. *)
Theorem rollback_linearizes target w w' r :
  wok w → rollback_to_snapshot conflict_text clock mm env target w = (w', r) →
  step w w' ∧ ∀ m, r = Ok m → linearized (rolled target) (w_store w) (w_store w') m.
Proof.
  intros Hw Hc.
  assert (plan_ok (rolled target) (fun _ _ _ _ => False)
    (fun (_ : Manifest) ver => t ← load_version mm env target; mret (inr (rolled_back t ver)))) as Hplan.
  { intros cur ver. eapply triple_bind; [apply triple_pre, load_version_spec|].
    intros t. apply triple_ret. intros w1 Hw1 Hs. pose proof (wok_wf _ Hw1 _ _ Hs) as Hwf.
    destruct (same_files _ t (rolled_back t ver) eq_refl eq_refl Hwf). split_and!; [done|done|]. by exists t. }
  assert (∀ st st' cur ver m, reach st st' → rolled target st cur ver m → rolled target st' cur ver m)
    as Hmono.
  { intros st st' cur ver m [Hm _] (t & Ht & -> & _). exists t.
    split_and!; [by eapply stored_mono|done|done]. }
  destruct (occ_loop_spec (rolled target) (fun _ _ _ _ => False) retry10_cached _ _ 0 (w_store w)
    Hmono Hplan w w' r Hw (reflexivity _) Hc) as [Hs Hr].
  split; [done|]. intros m Hm. destruct (Hr m Hm) as [?|(st & cur & ver & _ & _ & [] & _)]. done.
Qed.

(** C2: readers see whole snapshots.  Let the table be sound (readable manifests, caches
    that hold what the store holds, delete files recorded in manifests and not in data
    manifest files) and let other processes only add objects (any commits, no vacuum)
    while a reader loads.  Then the manifest [load_latest_full] returns is one committed
    version (or the empty table), its entries are that version's snapshot, one per path
    (path, size, row count, checksum, row id, indexes), and each entry is an entry the
    store holds for that version, inline or decoded from a listed file under some reader's
    schema, with exactly the delete files of that manifest that have the entry's partition
    values; a manifest without delete files adds none to a listed entry. *)
Theorem load_latest_full_consistent w w' m entries ver :
  wok w → load_latest_full list_from_json clock mm env w = (w', Ok (m, entries, ver)) →
  loaded (w_store w') m ver ∧
  (∃ mp, entries = (map_to_list mp).*2 ∧ keyed mp ∧ snapshot (w_store w') m = Some (core <$> mp)) ∧
  ∀ e, e ∈ entries → ∃ e0, e = attached m e0 ∧
    (e0 ∈ relativized <$> m_entries m ∨
     listed_entry (w_store w') m e0 ∧ me_delete_files e0 = []).
Proof.
  intros Hw Hc.
  assert (triple (fun _ => True) (load_latest_full list_from_json clock mm env) (fun w r =>
    (∃ mp, r.1.2 = (map_to_list mp).*2 ∧ keyed mp ∧ snapshot (w_store w) r.1.1 = Some (core <$> mp) ∧
      map_Forall (fun _ e => entry_of (w_store w) r.1.1 e) mp ∧
      ∀ k i, inline r.1.1 !! k = Some i → mp !! k = Some (attached r.1.1 i)) ∧
    loaded (w_store w) r.1.1 r.2)) as Ht.
  { unfold load_latest_full. eapply triple_bind; [apply load_latest_spec|]. intros [m1 v1]. simpl.
    eapply triple_bind; [apply triple_keep; [apply loaded_stable|apply load_all_entries_spec]|].
    intros es. by apply triple_ret. }
  destruct (Ht w w' _ Hw I Hc) as [Hs Hq].
  destruct (Hq (m, entries, ver) eq_refl) as [(mp & He & Hk & Hsn & Hall & _) Hl]. simpl in *.
  split_and!; [done|by exists mp|]. intros e Hin. subst entries.
  apply list_elem_of_fmap in Hin as ([k e'] & -> & Hin%elem_of_map_to_list).
  destruct (Hall k e' Hin) as (e0 & [Hi|Hi] & ->); exists e0; (split; [done|]); [by left|right].
  split; [done|]. eapply listed_entry_deletes; [|done]. eapply loaded_wf; [by apply Hs|done].
Qed.
End Metadata.
(** ** Vacuum *)

Section Vacuum.
(** These proofs do not depend on the parameters of commits. *)
Ltac only_env := clear uuid_fresh uuid_no_slash new_uuid max_manifest_files conflict_text.

Context (age : nat → string → Z) (min_age : Z).
(** While vacuum deletes, the others still only add objects. *)
Hypothesis env_keeps : ∀ n w p x, os_objs (w_store w) p = Some x →
  os_objs (w_store (env n w)) p = Some x.

(** The paths a version records: data files, index files, the delete files of the
    manifest, and those of the inline entries when the manifest has none. *)
Definition recorded (st : S) (m : Manifest) (p : string) : Prop :=
  ∃ cm, snapshot st m = Some cm ∧
    (p ∈ manifest_files m (map_to_list cm).*2 ∨
     m_delete_files m = [] ∧
     ∃ k i, inline m !! k = Some i ∧ p ∈ df_file_path <$> me_delete_files i).

Lemma inline_delete_file m (mp : entry_map) k i p :
  (∀ k i, inline m !! k = Some i → mp !! k = Some (attached m i)) → m_delete_files m = [] →
  inline m !! k = Some i → p ∈ df_file_path <$> me_delete_files i →
  p ∈ manifest_files m (map_to_list mp).*2.
Proof.
  only_env.
  intros Hin Hm Hi Hp. apply Hin in Hi. unfold attached in Hi. rewrite Hm in Hi.
  apply elem_of_app. left. apply list_elem_of_bind. eexists. split.
  2: { apply list_elem_of_fmap. exists (k, with_delete_files i (me_delete_files i)).
       split; [done|]. by apply elem_of_map_to_list. }
  unfold entry_files. simpl. set_solver.
Qed.

Lemma manifest_files_core m (mp : entry_map) p :
  p ∈ manifest_files m (map_to_list (core <$> mp)).*2 → p ∈ manifest_files m (map_to_list mp).*2.
Proof.
  only_env.
  unfold manifest_files. rewrite !elem_of_app, !list_elem_of_bind.
  intros [(e & He & Hin)|?]; [left|by right].
  apply list_elem_of_fmap in Hin as ([k e'] & -> & Hin%elem_of_map_to_list). simpl in He.
  rewrite lookup_fmap, fmap_Some in Hin. destruct Hin as (e & Hin & ->). exists e. split.
  - unfold entry_files in *. simpl in He. rewrite app_nil_r in He. set_solver.
  - apply list_elem_of_fmap. exists (k, e). by rewrite elem_of_map_to_list.
Qed.

Lemma sdelete_other q p x w w' r :
  sdelete env q w = (w', r) → q ≠ p → os_objs (w_store w) p = Some x → os_objs (w_store w') p = Some x.
Proof.
  only_env.
  unfold sdelete. intros Heq Hne Hp.
  assert (os_objs (w_store (suspend env w)) p = Some x) as Hp1 by (by apply (env_keeps (w_tick w))).
  destruct (os_delete (w_store (suspend env w)) q) as [st ro] eqn:Hd. simplify_eq. simpl.
  by rewrite (os_delete_other _ _ _ _ p Hd).
Qed.

Lemma delete_manifests_keeps keep ps n p x w w' r :
  delete_manifests env keep ps n w = (w', r) → (p ∈ ps → p ∈ keep) →
  os_objs (w_store w) p = Some x → os_objs (w_store w') p = Some x.
Proof.
  only_env.
  revert n w. induction ps as [|q ps IH]; intros n w; [by intros [= <- _]|]. simpl. intros Heq Hk Hp.
  case_decide as Hq; [eapply IH; eauto; set_solver|].
  unfold mbind, M_bind in Heq. destruct (sdelete env q w) as [w1 [[]|e]] eqn:Hd.
  - eapply IH; [exact Heq|set_solver|]. eapply sdelete_other; eauto. set_solver.
  - simplify_eq. eapply sdelete_other; eauto. set_solver.
Qed.

Lemma delete_data_keeps active ps n p x w w' r :
  delete_data env age min_age active ps n w = (w', r) → (p ∈ ps → p ∈ active) →
  os_objs (w_store w) p = Some x → os_objs (w_store w') p = Some x.
Proof.
  only_env.
  revert n w. induction ps as [|q ps IH]; intros n w; [by intros [= <- _]|]. simpl. intros Heq Hk Hp.
  case_decide as Hq; [eapply IH; eauto; set_solver|].
  unfold mbind, M_bind in Heq. case_decide; [eapply IH; eauto; set_solver|].
  destruct (sdelete env q w) as [w1 [[]|e]] eqn:Hd.
  - eapply IH; [exact Heq|set_solver|]. eapply sdelete_other; eauto. set_solver.
  - simplify_eq. eapply sdelete_other; eauto. set_solver.
Qed.

Lemma load_version_not_found v w w' :
  load_version mm env v w = (w', Err (StoreErr NotFound)) → os_objs (w_store w') (vpath v) = None.
Proof.
  only_env.
  unfold load_version, cached_manifest, mbind, M_bind. destruct (w_manifests w !! vpath v); [done|].
  unfold sget. destruct (os_get _ _) as [[b t]|e] eqn:Hg.
  - unfold lift. destruct (from_bytes (A:=Manifest) b); done.
  - intros [= <- ->]. by apply os_get_not_found.
Qed.

(** The scan collects every file of every version of the window. *)
Definition covers (active keep : gset string) (v : Z) (w : world) : Prop :=
  ∀ m, stored (w_store w) v = Some m →
    vpath v ∈ keep ∧ ∀ p, recorded (w_store w) m p → p ∈ active.

Lemma stored_back (w w' : world) v m m' :
  step w w' → stored (w_store w) v = Some m → stored (w_store w') v = Some m' → m' = m.
Proof. intros [[Hm _] _] Hs Hs'. apply (stored_mono _ _ _ _ Hm) in Hs. congruence. Qed.

Lemma covers_back active keep v w w' :
  step w w' → covers active keep v w' → covers active keep v w.
Proof.
  only_env.
  intros [[Hm _] _] Hc m Hs. destruct (Hc m) as [Hk Hp]; [by eapply stored_mono|]. split; [done|].
  intros p (cm & Hcm & Hin). apply Hp. exists cm. split; [by eapply snapshot_mono|done].
Qed.

Lemma scan_versions_spec vs active keep w w' r :
  wok w → scan_versions list_from_json clock mm env vs active keep w = (w', r) →
  step w w' ∧ ∀ ak, r = Ok ak → active ⊆ ak.1 ∧ keep ⊆ ak.2 ∧
    ∀ v, v ∈ vs → covers ak.1 ak.2 v w.
Proof.
  only_env.
  revert active keep w. induction vs as [|v vs IH]; intros active keep w Hw; simpl.
  { intros [= <- <-]. split; [done|]. intros ak [= <-]. set_solver. }
  unfold mbind, M_bind, attempt.
  destruct (load_version mm env v w) as [w1 [m|e]] eqn:Hl.
  - destruct (load_version_spec v w w1 _ Hw I Hl) as [Hs1 Hm]. specialize (Hm m eq_refl).
    assert (wok w1) as Hw1 by (by apply Hs1).
    destruct (load_all_entries list_from_json clock mm env m w1) as [w2 [es|e]] eqn:Hes.
    + destruct (load_all_entries_spec m w1 w2 _ Hw1 I Hes) as [Hs2 Hq].
      destruct (Hq es eq_refl) as (mp & -> & Hk & Hsn & _ & Hinl). intros Hrec.
      assert (wok w2) as Hw2 by (by apply Hs2).
      destruct (IH _ _ _ Hw2 Hrec) as [Hs3 HR]. split; [etrans; [exact Hs1|by etrans]|].
      intros ak Hak. destruct (HR ak Hak) as (Ha & Hkp & Hc).
      split_and!; [set_solver|set_solver|]. intros u [->|Hu]%elem_of_cons m' Hsm.
      * rewrite (stored_back w w1 v m' m Hs1 Hsm Hm) in *.
        split; [set_solver|]. intros p (cm & Hcm & Hp).
        assert (cm = core <$> mp) as ->.
        { eapply (snapshot_stable m' cm w w1 Hs1), (snapshot_stable m' cm w1 w2 Hs2) in Hcm. congruence. }
        assert (p ∈ manifest_files m' (map_to_list mp).*2) as Hp';
          [|by apply Ha, elem_of_union_r, elem_of_list_to_set].
        destruct Hp as [?%manifest_files_core|(Hm0 & k & i & Hi & Hp)]; [done|].
        by eapply inline_delete_file.
      * eapply covers_back; [etrans; [exact Hs1|exact Hs2]|by apply Hc|done].
    + destruct (load_all_entries_spec m w1 w2 _ Hw1 I Hes) as [Hs2 _].
      intros [= <- <-]. split; [by etrans|done].
  - destruct (load_version_spec v w w1 _ Hw I Hl) as [Hs1 _].
    destruct e as [[]| | | | | | | | |]; try by intros [= <- <-].
    intros Hrec. assert (wok w1) as Hw1 by (by apply Hs1).
    destruct (IH _ _ _ Hw1 Hrec) as [Hs2 HR]. split; [by etrans|].
    intros ak Hak. destruct (HR ak Hak) as (Ha & Hkp & Hc). split_and!; [done|done|].
    intros u [->|Hu]%elem_of_cons; [|by eapply covers_back, Hc].
    intros m Hs%(stored_mono _ _ _ _ (proj1 (proj1 Hs1)))%stored_present.
    apply load_version_not_found in Hl. rewrite Hl in Hs. by destruct Hs.
Qed.

Lemma version_path_not_data v : is_data_file (vpath v) = false.
Proof.
  only_env.
  unfold is_data_file. apply existsb_false. intros s Hs.
  destruct (ends_with s (vpath v)) eqn:E; [|done]. exfalso.
  apply ends_with_inv in E as [t E]. revert E.
  unfold version_path, manifest_path, version_file. change ".json" with (".jso" +:+ "n").
  assert (∃ s', s = s' +:+ "t" ∨ s = s' +:+ "w" ∨ s = s' +:+ "x" ∨ s = s' +:+ "p") as [s' Hs'].
  { set_unfold in Hs. destruct Hs as [->|[->|[->|[->|[]]]]];
      [by exists ".parque"; left|by exists ".hns"; right; left|by exists ".id"; auto|by exists ".tm"; auto]. }
  rewrite !string_app_assoc.
  destruct Hs' as [->|[->|[->| ->]]]; rewrite !string_app_assoc; intros E;
    by apply string_suffix_eq in E.
Qed.

(** An object survives [c] and then [f]. *)
Lemma kept_bind {A B} P (c : M A) (f : A → M B) Q p x w w' r :
  triple P c Q → wok w → P w → (c ≫= f) w = (w', r) → os_objs (w_store w) p = Some x →
  (∀ a w1, wok w1 → step w w1 → Q w1 a → os_objs (w_store w1) p = Some x →
     f a w1 = (w', r) → os_objs (w_store w') p = Some x) →
  os_objs (w_store w') p = Some x.
Proof.
  only_env.
  intros Hc Hw HP Heq Hp Hf. unfold mbind, M_bind in Heq.
  destruct (c w) as [w1 [a|e]] eqn:E; destruct (Hc w w1 _ Hw HP E) as [Hs HQ];
    assert (os_objs (w_store w1) p = Some x) as Hp1 by (by apply Hs).
  - apply (Hf a w1); [by apply Hs|done|by apply HQ|done|done].
  - by simplify_eq.
Qed.

(** What the delete phase leaves alone. *)
Lemma delete_phase_keeps keep active ms ds p x w w' r :
  (n ← delete_manifests env keep ms 0; delete_data env age min_age active ds n) w = (w', r) →
  (p ∈ ms → p ∈ keep) → (p ∈ ds → p ∈ active) →
  os_objs (w_store w) p = Some x → os_objs (w_store w') p = Some x.
Proof.
  only_env.
  unfold mbind, M_bind. intros Heq Hm Hd Hp.
  destruct (delete_manifests env keep ms 0 w) as [w1 [n|e]] eqn:E.
  - eapply delete_data_keeps; [exact Heq|done|]. by eapply delete_manifests_keeps.
  - simplify_eq. by eapply delete_manifests_keeps.
Qed.

(** C18: vacuum deletes no object that a retained version records under the object's own
    path.  Of the versions in the retention window of the head it loads, the version file
    keeps its contents, and so does every object whose store-relative path the version
    records literally as a data, index or delete file and does not contain
    "_manifest/v"; whatever commits run concurrently (but no other vacuum) and whether
    vacuum succeeds or aborts halfway.  The table starts sound (consecutive version files,
    readable manifests, caches that hold what the store holds).  A file
    recorded under another name is not protected: position-delete files are recorded as
    absolute URIs, see [ManifestHistories.vacuum_deletes_live_delete_file]. *)
Theorem vacuum_keeps_window retention w w1 w' m1 latest r v m p x :
  wok w → load_latest clock mm env w = (w1, Ok (m1, latest)) →
  vacuum list_from_json clock mm env age min_age retention w = (w', r) →
  (vacuum_window retention latest ≤ v ≤ latest)%Z → stored (w_store w) v = Some m →
  p = vpath v ∨ (recorded (w_store w) m p ∧ str_contains "_manifest/v" p = false) →
  os_objs (w_store w) p = Some x → os_objs (w_store w') p = Some x.
Proof.
  only_env.
  intros Hw Hl Hv Hwin Hs Hp Hx. unfold vacuum in Hv.
  case_decide as Hr; [by injection Hv as <- _|].
  eapply (kept_bind (eq w) _ _ (fun w2 mv => w2 = w1 ∧ mv = (m1, latest)));
    [|exact Hw|done|exact Hv|exact Hx|]; clear Hv.
  { intros w2 w3 r2 Hw2 <- Heq. destruct (load_latest_spec w w3 r2 Hw I Heq). split; [done|].
    intros a ->. rewrite Hl in Heq. by simplify_eq. }
  intros mv w2 Hw2 Hs2 [-> ->] Hx1 Hv. cbn [fst snd] in Hv.
  case_decide as Hz; [by injection Hv as <- _|].
  eapply (kept_bind (eq w1) _ _ (fun _ ak => covers ak.1 ak.2 v w1));
    [|exact Hw2|done|exact Hv|exact Hx1|]; clear Hv.
  { intros w2 w3 r2 _ <- Heq. destruct (scan_versions_spec _ _ _ _ _ _ Hw2 Heq) as [Hst Hcov].
    split; [done|]. intros ak Hak. apply (Hcov ak Hak), elem_of_seqZ. lia. }
  intros [active keep] w2 Hw3 Hs3 Hcov Hx2 Hv.
  destruct (covers_back _ _ _ _ _ Hs2 Hcov m Hs) as [Hkeep Hact].
  eapply kept_bind; [apply slist_spec|exact Hw3|done|exact Hv|exact Hx2|]; clear Hv.
  intros l w3 Hw4 _ _ Hx3 Hv.
  eapply kept_bind; [apply load_latest_spec|exact Hw4|done|exact Hv|exact Hx3|]; clear Hv.
  intros mv' w4 Hw5 _ _ Hx4 Hv.
  eapply kept_bind; [exact (triple_attempt _ _ _ (load_all_entries_spec (fst mv')))|exact Hw5|done|exact Hv|exact Hx4|];
    clear Hv.
  intros [es|e] w5 _ _ _ Hx5 Hv; [|by injection Hv as <- _].
  eapply delete_phase_keeps; [exact Hv| | |exact Hx5].
  - intros [Hc _]%list_elem_of_filter. destruct Hp as [->|[_ Hc']]; [set_solver|congruence].
  - intros [(_ & _ & Hd) _]%list_elem_of_filter.
    destruct Hp as [->|[Href _]]; [by rewrite version_path_not_data in Hd|set_solver].
Qed.
End Vacuum.
End Spec.
