(* ===== verification/ManifestCodec.v ===== *)
(** * A concrete serialization of manifests

    The manager is parametric in the JSON encoding of manifests and in the Avro writer
    and reader.  This file gives one encoding, field by field, and shows that it
    satisfies the laws the manager's theorems assume; the concrete histories of
    [ManifestHistories] run on it. *)

From S2P Require Import Prelude Json ManifestTypes ManifestStore.

(** ** Records as lists of encoded fields *)

#[export] Program Instance DeleteContent_countable : Countable DeleteContent :=
  inj_countable' (fun c => match c with
                  | Position => inl ()
                  | Equality ids => inr (inl ids)
                  | DeletionVector p o n => inr (inr (p, (o, n)))
                  end)
    (fun x => match x with
              | inl _ => Position
              | inr (inl ids) => Equality ids
              | inr (inr (p, (o, n))) => DeletionVector p o n
              end) _.
Next Obligation. by intros []. Qed.

Ltac fields of_fields to_fields r :=
  unfold of_fields, to_fields; repeat (rewrite decode_encode; cbn [mbind option_bind]); by destruct r.

Definition IndexFile_fields (r : IndexFile) : list positive :=
  [encode (if_format_version r); encode (if_index_id r); encode (if_index_category r);
             encode (if_algorithm r); encode (if_column_name r); encode (if_source_snapshot_id
             r); encode (if_source_data_checksum r); encode (if_source_record_count r); encode
             (if_index_checksum r); encode (if_file_path r); encode (if_blob_type r); encode
             (if_blob_offset r); encode (if_blob_length r); encode (if_compression r)].
Definition IndexFile_of_fields (l : list positive) : option IndexFile :=
  match l with
  | [x0; x1; x2; x3; x4; x5; x6; x7; x8; x9; x10; x11; x12; x13] =>
      x0 ← decode x0; x1 ← decode x1; x2 ← decode x2; x3 ← decode x3; x4 ← decode x4; x5 ←
      decode x5; x6 ← decode x6; x7 ← decode x7; x8 ← decode x8; x9 ← decode x9; x10 ← decode
      x10; x11 ← decode x11; x12 ← decode x12; x13 ← decode x13;
      Some {| if_format_version := x0; if_index_id := x1; if_index_category := x2; if_algorithm
              := x3; if_column_name := x4; if_source_snapshot_id := x5; if_source_data_checksum
              := x6; if_source_record_count := x7; if_index_checksum := x8; if_file_path := x9;
              if_blob_type := x10; if_blob_offset := x11; if_blob_length := x12; if_compression
              := x13 |}
  | _ => None
  end.
Lemma IndexFile_of_to_fields r : IndexFile_of_fields (IndexFile_fields r) = Some r.
Proof. fields IndexFile_of_fields IndexFile_fields r. Qed.
#[export] Instance IndexFile_countable : Countable IndexFile := inj_countable _ _ IndexFile_of_to_fields.

Definition DeleteFile_fields (r : DeleteFile) : list positive :=
  [encode (df_file_path r); encode (df_content r); encode (df_file_size_bytes r);
             encode (df_record_count r); encode (df_partition_values r)].
Definition DeleteFile_of_fields (l : list positive) : option DeleteFile :=
  match l with
  | [x0; x1; x2; x3; x4] =>
      x0 ← decode x0; x1 ← decode x1; x2 ← decode x2; x3 ← decode x3; x4 ← decode x4;
      Some {| df_file_path := x0; df_content := x1; df_file_size_bytes := x2; df_record_count
              := x3; df_partition_values := x4 |}
  | _ => None
  end.
Lemma DeleteFile_of_to_fields r : DeleteFile_of_fields (DeleteFile_fields r) = Some r.
Proof. fields DeleteFile_of_fields DeleteFile_fields r. Qed.
#[export] Instance DeleteFile_countable : Countable DeleteFile := inj_countable _ _ DeleteFile_of_to_fields.

Definition PartitionField_fields (r : PartitionField) : list positive :=
  [encode (pf_source_ids r); encode (pf_source_id r); encode (pf_field_id r); encode
             (pf_name r); encode (pf_transform r)].
Definition PartitionField_of_fields (l : list positive) : option PartitionField :=
  match l with
  | [x0; x1; x2; x3; x4] =>
      x0 ← decode x0; x1 ← decode x1; x2 ← decode x2; x3 ← decode x3; x4 ← decode x4;
      Some {| pf_source_ids := x0; pf_source_id := x1; pf_field_id := x2; pf_name := x3;
              pf_transform := x4 |}
  | _ => None
  end.
Lemma PartitionField_of_to_fields r : PartitionField_of_fields (PartitionField_fields r) = Some r.
Proof. fields PartitionField_of_fields PartitionField_fields r. Qed.
#[export] Instance PartitionField_countable : Countable PartitionField := inj_countable _ _ PartitionField_of_to_fields.

Definition PartitionSpec_fields (r : PartitionSpec) : list positive :=
  [encode (ps_spec_id r); encode (ps_fields r)].
Definition PartitionSpec_of_fields (l : list positive) : option PartitionSpec :=
  match l with
  | [x0; x1] =>
      x0 ← decode x0; x1 ← decode x1;
      Some {| ps_spec_id := x0; ps_fields := x1 |}
  | _ => None
  end.
Lemma PartitionSpec_of_to_fields r : PartitionSpec_of_fields (PartitionSpec_fields r) = Some r.
Proof. fields PartitionSpec_of_fields PartitionSpec_fields r. Qed.
#[export] Instance PartitionSpec_countable : Countable PartitionSpec := inj_countable _ _ PartitionSpec_of_to_fields.

Definition SortField_fields (r : SortField) : list positive :=
  [encode (so_source_id r); encode (so_transform r); encode (so_asc r); encode
             (so_nulls_first r)].
Definition SortField_of_fields (l : list positive) : option SortField :=
  match l with
  | [x0; x1; x2; x3] =>
      x0 ← decode x0; x1 ← decode x1; x2 ← decode x2; x3 ← decode x3;
      Some {| so_source_id := x0; so_transform := x1; so_asc := x2; so_nulls_first := x3 |}
  | _ => None
  end.
Lemma SortField_of_to_fields r : SortField_of_fields (SortField_fields r) = Some r.
Proof. fields SortField_of_fields SortField_fields r. Qed.
#[export] Instance SortField_countable : Countable SortField := inj_countable _ _ SortField_of_to_fields.

Definition SortOrder_fields (r : SortOrder) : list positive :=
  [encode (so_order_id r); encode (so_fields r)].
Definition SortOrder_of_fields (l : list positive) : option SortOrder :=
  match l with
  | [x0; x1] =>
      x0 ← decode x0; x1 ← decode x1;
      Some {| so_order_id := x0; so_fields := x1 |}
  | _ => None
  end.
Lemma SortOrder_of_to_fields r : SortOrder_of_fields (SortOrder_fields r) = Some r.
Proof. fields SortOrder_of_fields SortOrder_fields r. Qed.
#[export] Instance SortOrder_countable : Countable SortOrder := inj_countable _ _ SortOrder_of_to_fields.

#[export] Program Instance VectorStats_countable : Countable VectorStats :=
  inj_countable'
    (fun v => (vs_min_norm v, (vs_max_norm v, (vs_mean_norm v, (vs_dim_min v, vs_dim_max v)))))
    (fun '(a, (b, (c, (d, e)))) => {| vs_min_norm := a; vs_max_norm := b; vs_mean_norm := c;
                                      vs_dim_min := d; vs_dim_max := e |}) _.
Next Obligation. by intros []. Qed.

Definition ColumnStats_fields (r : ColumnStats) : list positive :=
  [encode (cs_min r); encode (cs_max r); encode (cs_null_count r); encode
             (cs_distinct_count r); encode (cs_vector_stats r)].
Definition ColumnStats_of_fields (l : list positive) : option ColumnStats :=
  match l with
  | [x0; x1; x2; x3; x4] =>
      x0 ← decode x0; x1 ← decode x1; x2 ← decode x2; x3 ← decode x3; x4 ← decode x4;
      Some {| cs_min := x0; cs_max := x1; cs_null_count := x2; cs_distinct_count := x3;
              cs_vector_stats := x4 |}
  | _ => None
  end.
Lemma ColumnStats_of_to_fields r : ColumnStats_of_fields (ColumnStats_fields r) = Some r.
Proof. fields ColumnStats_of_fields ColumnStats_fields r. Qed.
#[export] Instance ColumnStats_countable : Countable ColumnStats := inj_countable _ _ ColumnStats_of_to_fields.

Definition Clustering_fields (r : Clustering) : list positive :=
  [encode (cl_strategy r); encode (cl_columns r); encode (cl_min_score r); encode
             (cl_max_score r); encode (cl_norm_mins r); encode (cl_norm_maxs r)].
Definition Clustering_of_fields (l : list positive) : option Clustering :=
  match l with
  | [x0; x1; x2; x3; x4; x5] =>
      x0 ← decode x0; x1 ← decode x1; x2 ← decode x2; x3 ← decode x3; x4 ← decode x4; x5 ←
      decode x5;
      Some {| cl_strategy := x0; cl_columns := x1; cl_min_score := x2; cl_max_score := x3;
              cl_norm_mins := x4; cl_norm_maxs := x5 |}
  | _ => None
  end.
Lemma Clustering_of_to_fields r : Clustering_of_fields (Clustering_fields r) = Some r.
Proof. fields Clustering_of_fields Clustering_fields r. Qed.
#[export] Instance Clustering_countable : Countable Clustering := inj_countable _ _ Clustering_of_to_fields.

Definition ManifestEntry_fields (r : ManifestEntry) : list positive :=
  [encode (me_file_path r); encode (me_file_size_bytes r); encode (me_record_count r);
             encode (me_file_checksum r); encode (me_index_files r); encode (me_delete_files r);
             encode (me_column_stats r); encode (me_partition_values r); encode (me_clustering
             r); encode (me_first_row_id r)].
Definition ManifestEntry_of_fields (l : list positive) : option ManifestEntry :=
  match l with
  | [x0; x1; x2; x3; x4; x5; x6; x7; x8; x9] =>
      x0 ← decode x0; x1 ← decode x1; x2 ← decode x2; x3 ← decode x3; x4 ← decode x4; x5 ←
      decode x5; x6 ← decode x6; x7 ← decode x7; x8 ← decode x8; x9 ← decode x9;
      Some {| me_file_path := x0; me_file_size_bytes := x1; me_record_count := x2;
              me_file_checksum := x3; me_index_files := x4; me_delete_files := x5;
              me_column_stats := x6; me_partition_values := x7; me_clustering := x8;
              me_first_row_id := x9 |}
  | _ => None
  end.
Lemma ManifestEntry_of_to_fields r : ManifestEntry_of_fields (ManifestEntry_fields r) = Some r.
Proof. fields ManifestEntry_of_fields ManifestEntry_fields r. Qed.
#[export] Instance ManifestEntry_countable : Countable ManifestEntry := inj_countable _ _ ManifestEntry_of_to_fields.

Definition ManifestListEntry_fields (r : ManifestListEntry) : list positive :=
  [encode (ml_manifest_path r); encode (ml_manifest_length r); encode
             (ml_partition_spec_id r); encode (ml_content r); encode (ml_sequence_number r);
             encode (ml_min_sequence_number r); encode (ml_added_snapshot_id r); encode
             (ml_added_files_count r); encode (ml_existing_files_count r); encode
             (ml_deleted_files_count r); encode (ml_added_rows_count r); encode
             (ml_existing_rows_count r); encode (ml_deleted_rows_count r)].
Definition ManifestListEntry_of_fields (l : list positive) : option ManifestListEntry :=
  match l with
  | [x0; x1; x2; x3; x4; x5; x6; x7; x8; x9; x10; x11; x12] =>
      x0 ← decode x0; x1 ← decode x1; x2 ← decode x2; x3 ← decode x3; x4 ← decode x4; x5 ←
      decode x5; x6 ← decode x6; x7 ← decode x7; x8 ← decode x8; x9 ← decode x9; x10 ← decode
      x10; x11 ← decode x11; x12 ← decode x12;
      Some {| ml_manifest_path := x0; ml_manifest_length := x1; ml_partition_spec_id := x2;
              ml_content := x3; ml_sequence_number := x4; ml_min_sequence_number := x5;
              ml_added_snapshot_id := x6; ml_added_files_count := x7; ml_existing_files_count
              := x8; ml_deleted_files_count := x9; ml_added_rows_count := x10;
              ml_existing_rows_count := x11; ml_deleted_rows_count := x12 |}
  | _ => None
  end.
Lemma ManifestListEntry_of_to_fields r : ManifestListEntry_of_fields (ManifestListEntry_fields r) = Some r.
Proof. fields ManifestListEntry_of_fields ManifestListEntry_fields r. Qed.
#[export] Instance ManifestListEntry_countable : Countable ManifestListEntry := inj_countable _ _ ManifestListEntry_of_to_fields.

Definition SchemaField_fields (r : SchemaField) : list positive :=
  [encode (sf_id r); encode (sf_name r); encode (sf_type_str r); encode (sf_required
             r); encode (sf_nested r); encode (sf_initial_default r); encode (sf_write_default
             r); encode (sf_indexes r)].
Definition SchemaField_of_fields (l : list positive) : option SchemaField :=
  match l with
  | [x0; x1; x2; x3; x4; x5; x6; x7] =>
      x0 ← decode x0; x1 ← decode x1; x2 ← decode x2; x3 ← decode x3; x4 ← decode x4; x5 ←
      decode x5; x6 ← decode x6; x7 ← decode x7;
      Some {| sf_id := x0; sf_name := x1; sf_type_str := x2; sf_required := x3; sf_nested :=
              x4; sf_initial_default := x5; sf_write_default := x6; sf_indexes := x7 |}
  | _ => None
  end.
Lemma SchemaField_of_to_fields r : SchemaField_of_fields (SchemaField_fields r) = Some r.
Proof. fields SchemaField_of_fields SchemaField_fields r. Qed.
#[export] Instance SchemaField_countable : Countable SchemaField := inj_countable _ _ SchemaField_of_to_fields.

Definition TableSchema_fields (r : TableSchema) : list positive :=
  [encode (sc_schema_id r); encode (sc_table_fields r); encode
             (sc_identifier_field_ids r)].
Definition TableSchema_of_fields (l : list positive) : option TableSchema :=
  match l with
  | [x0; x1; x2] =>
      x0 ← decode x0; x1 ← decode x1; x2 ← decode x2;
      Some {| sc_schema_id := x0; sc_table_fields := x1; sc_identifier_field_ids := x2 |}
  | _ => None
  end.
Lemma TableSchema_of_to_fields r : TableSchema_of_fields (TableSchema_fields r) = Some r.
Proof. fields TableSchema_of_fields TableSchema_fields r. Qed.
#[export] Instance TableSchema_countable : Countable TableSchema := inj_countable _ _ TableSchema_of_to_fields.

Definition Manifest_fields (r : Manifest) : list positive :=
  [encode (m_version r); encode (m_format_version r); encode (m_timestamp_ms r);
             encode (m_manifest_list_path r); encode (m_entries r); encode (m_delete_files r);
             encode (m_prev_version r); encode (m_schemas r); encode (m_current_schema_id r);
             encode (m_partition_spec r); encode (m_partition_specs r); encode
             (m_default_spec_id r); encode (m_sort_orders r); encode (m_default_sort_order_id
             r); encode (m_properties r); encode (m_last_column_id r)].
Definition Manifest_of_fields (l : list positive) : option Manifest :=
  match l with
  | [x0; x1; x2; x3; x4; x5; x6; x7; x8; x9; x10; x11; x12; x13; x14; x15] =>
      x0 ← decode x0; x1 ← decode x1; x2 ← decode x2; x3 ← decode x3; x4 ← decode x4; x5 ←
      decode x5; x6 ← decode x6; x7 ← decode x7; x8 ← decode x8; x9 ← decode x9; x10 ← decode
      x10; x11 ← decode x11; x12 ← decode x12; x13 ← decode x13; x14 ← decode x14; x15 ← decode
      x15;
      Some {| m_version := x0; m_format_version := x1; m_timestamp_ms := x2;
              m_manifest_list_path := x3; m_entries := x4; m_delete_files := x5; m_prev_version
              := x6; m_schemas := x7; m_current_schema_id := x8; m_partition_spec := x9;
              m_partition_specs := x10; m_default_spec_id := x11; m_sort_orders := x12;
              m_default_sort_order_id := x13; m_properties := x14; m_last_column_id := x15 |}
  | _ => None
  end.
Lemma Manifest_of_to_fields r : Manifest_of_fields (Manifest_fields r) = Some r.
Proof. fields Manifest_of_fields Manifest_fields r. Qed.
#[export] Instance Manifest_countable : Countable Manifest := inj_countable _ _ Manifest_of_to_fields.

#[export] Instance Manifest_codec : Codec Manifest := countable_codec.

(** ** Avro manifests *)

#[export] Instance object_eq_dec : EqDecision IcebergManifestObject.
Proof. solve_decision. Defined.
#[export] Program Instance object_countable : Countable IcebergManifestObject :=
  inj_countable' (fun o => match o with Data e => inl e | Delete d => inr d end)
    (fun x => match x with inl e => Data e | inr d => Delete d end) _.
Next Obligation. by intros []. Qed.

#[export] Instance object_list_codec : Codec (list (Z * IcebergManifestObject)) := countable_codec.
#[export] Instance manifest_list_codec : Codec (list ManifestListEntry) := countable_codec.

(** One chunk; every entry is written with status 1 (added). *)
#[export] Instance avro : Iceberg := {|
  write_manifest_chunks es _ _ _ :=
    Some [(to_bytes ((fun e => (1%Z, Data (core e))) <$> es), Z.of_nat (length es),
           foldr Z.add 0%Z (me_record_count <$> es))];
  write_delete_manifest ds _ _ _ _ :=
    match ds with
    | [] => Some None
    | _ => Some (Some (to_bytes ((fun d => (1%Z, Delete d)) <$> ds), Z.of_nat (length ds), 0%Z))
    end;
  write_manifest_list l := Some (to_bytes l);
  read_manifest_list := from_bytes;
  read_objects _ _ := from_bytes;
|}.

Lemma data_cores_written es :
  data_cores ((fun e => (1%Z, Data (core e))) <$> es) = core <$> es.
Proof.
  unfold data_cores, live_datas, live_objects. induction es as [|e es IH]; [done|].
  rewrite fmap_cons, filter_cons, decide_True by (by right). exact (f_equal (cons (core e)) IH).
Qed.

Lemma data_cores_deletes ds : data_cores ((fun d => (1%Z, Delete d)) <$> ds) = [].
Proof.
  unfold data_cores, live_datas, live_objects. induction ds as [|d ds IH]; [done|].
  rewrite fmap_cons, filter_cons, decide_True by (by right). exact IH.
Qed.

#[export] Instance avro_laws : IcebergLaws.
Proof.
  split.
  - done.
  - intros es spec sch ver chunks sch' spec' [= <-]. exists [core <$> es]. split.
    + constructor; [|constructor]. cbn [fst].
      transitivity (data_cores <$> Some ((fun e => (1%Z, Data (core e))) <$> es));
        [f_equal; exact (from_to_bytes ((fun e => (1%Z, Data (core e))) <$> es))|]. simpl. by rewrite data_cores_written.
    + apply app_nil_r.
  - intros es spec sch ver chunks c sch' spec' objs [= <-] ->%list_elem_of_singleton Hr.
    change (from_bytes (to_bytes ((fun e => (1%Z, Data (core e))) <$> es)) = Some objs) in Hr.
    rewrite (from_to_bytes (A:=list (Z * IcebergManifestObject))) in Hr. injection Hr as <-.
    apply Forall_forall. intros o [_ (e & -> & _)%list_elem_of_fmap]%list_elem_of_filter. done.
  - intros ds prev spec sch ver b n k sch' spec' Hw. destruct ds as [|d ds]; [done|].
    injection Hw as <- _ _.
    transitivity (data_cores <$> Some ((fun d => (1%Z, Delete d)) <$> (d :: ds)));
      [f_equal; exact (from_to_bytes ((fun d => (1%Z, Delete d)) <$> (d :: ds)))|].
    cbn [fmap option_fmap option_map]. by rewrite data_cores_deletes.
  - intros l b [= <-]. exact (from_to_bytes l).
Qed.
