(* ===== verification/ManifestHistories.v ===== *)
(** * Concrete histories of the manifest manager

    The theorems of [ManifestSpec] instantiated: an in-memory store, the serialization
    of [ManifestCodec], UUIDs that occur in no name of the store, and another committer
    that interferes.  The second part runs the histories in which commits lose data or
    metadata. *)

From S2P Require Import Prelude Json ObjectStore ManifestTypes Properties Manifest ManifestStore ManifestSpec ManifestCodec.

Import MemStore.
Abbreviation store := (gmap string bytes).
Abbreviation mworld := (world (S:=store)).
Abbreviation MM := (M (S:=store)).

(** ** The setting *)

Definition mm0 : ManifestManager := ManifestManager_new "" "s3://lake/t".
Definition w0 : mworld :=
  {| w_store := ∅; w_tick := 0; w_latest := None; w_manifests := ∅; w_lists := ∅ |}.
Definition quiet (_ : nat) (w : mworld) : mworld := w.
Definition no_json (_ : bytes) : option (list ManifestListEntry) := None.
Definition no_text (_ : os_error) : bool := false.
Definition clock0 (n : nat) : Z := Z.of_nat n.

(** A name longer than every name of the store. *)
Fixpoint letters (n : nat) : string :=
  match n with 0 => "" | Datatypes.S n => "u" +:+ letters n end.
Definition longest (st : store) : nat :=
  foldr Nat.max 0 (String.length <$> (map_to_list st).*1).
Definition uuid0 (st : store) : string := letters (Datatypes.S (longest st)).

Lemma length_letters n : String.length (letters n) = n.
Proof. induction n as [|n IH]; [done|]. exact (f_equal Datatypes.S IH). Qed.

Lemma longest_spec (st : store) p b : st !! p = Some b → String.length p ≤ longest st.
Proof.
  intros Hp. assert (String.length p ∈ String.length <$> (map_to_list st).*1) as Hin.
  { apply list_elem_of_fmap. exists p. split; [done|]. apply list_elem_of_fmap. exists (p, b).
    by rewrite elem_of_map_to_list. }
  unfold longest. induction Hin as [|x y l Hin IH]; simpl; lia.
Qed.

Lemma uuid0_fresh (st : store) pre post : os_objs st (pre +:+ uuid0 st +:+ post) = None.
Proof.
  simpl. destruct (st !! (pre +:+ uuid0 st +:+ post)) as [b|] eqn:Hp; [|done]. exfalso.
  apply longest_spec in Hp. unfold uuid0 in Hp.
  rewrite !length_string_app, length_letters in Hp. lia.
Qed.

Lemma uuid0_no_slash (st : store) : has_char slash (uuid0 st) = false.
Proof. unfold uuid0. induction (Datatypes.S (longest st)) as [|n IH]; [done|]. exact IH. Qed.

Lemma w0_ok : wok no_json mm0 w0.
Proof.
  split; simpl; try done.
  - intros p v [? ?]. done.
  - exists 1%Z, 0%Z. split; [lia|]. intros v. simpl. rewrite lookup_empty.
    split; [by intros [? ?]|lia].
Qed.

Section Run.
Context (env : nat → mworld → mworld).
Definition hcommit (adds : list ManifestEntry) (removes : list string) : MM Manifest :=
  commit no_json no_text uuid0 clock0 mm0 env 32 adds removes CommitMetadata_default.
Definition hfull : MM (Manifest * list ManifestEntry * Z) :=
  load_latest_full no_json clock0 mm0 env.
End Run.

Definition data (p : string) : ManifestEntry := ManifestEntry_default p.
Definition index (p : string) : IndexFile :=
  {| if_format_version := 1; if_index_id := ""; if_index_category := "vector"; if_algorithm := "";
     if_column_name := "v"; if_source_snapshot_id := 0; if_source_data_checksum := "";
     if_source_record_count := 0; if_index_checksum := None; if_file_path := p;
     if_blob_type := None; if_blob_offset := None; if_blob_length := None; if_compression := "" |}.

(** Paths and number of indexes, for reading. *)
Definition view (es : list ManifestEntry) : gmap string nat :=
  list_to_map ((fun e => (me_file_path e, length (me_index_files e))) <$> es).

(** Another process commits [b.parquet] just before our third store call. *)
Definition rival (n : nat) (w : mworld) : mworld :=
  if decide (n = 2) then (hcommit quiet [data "b.parquet"] [] w).1 else w.

(** ** Witnesses *)

Lemma quiet_step n w : wok no_json mm0 w → step no_json mm0 w (quiet n w).
Proof. reflexivity. Qed.

(** The outcome of a run, from its evaluation. *)
Lemma run_ok {A} (c : mworld * result merr A) (P : A → Prop) :
  match c with (_, Ok a) => P a | _ => False end → ∃ w a, c = (w, Ok a) ∧ P a.
Proof. destruct c as [w [a|e]]; [eauto|done]. Qed.

Lemma hcommit_step adds removes w :
  wok no_json mm0 w → NoDup (me_file_path <$> adds) →
  Forall (fun e => stable_path mm0 (me_file_path e)) adds →
  step no_json mm0 w (hcommit quiet adds removes w).1.
Proof.
  intros Hw Hn Hp. destruct (hcommit quiet adds removes w) as [w' r] eqn:E.
  exact (proj1 (commit_spec no_json mm0 uuid0 clock0 quiet quiet_step uuid0_fresh uuid0_no_slash
    32 no_text adds removes CommitMetadata_default w w' r Hw Hn Hp E)).
Qed.

Lemma stable_one p : stable_path mm0 p → Forall (fun e => stable_path mm0 (me_file_path e)) [data p].
Proof. by constructor. Qed.
Ltac one_file := first [apply NoDup_singleton | apply stable_one; vm_compute; split; reflexivity].

(** Under contention: the rival took version 1, the commit lands as version 2. *)
Lemma commit_linearizes_witness :
  ∃ w' m, hcommit rival [data "a.parquet"] [] w0 = (w', Ok m) ∧ m_version m = 2%Z ∧
    (linearized mm0 (rebased no_json mm0 32 [data "a.parquet"] [] CommitMetadata_default)
       (w_store w0) (w_store w') m ∨
     returned_early mm0 (discarded no_json mm0 [] CommitMetadata_default)
       (w_store w0) (w_store w') m).
Proof.
  assert (∀ n w, wok no_json mm0 w → step no_json mm0 w (rival n w)) as Hrival.
  { intros n w Hw. unfold rival. case_decide; [|reflexivity].
    apply hcommit_step; [done|one_file..]. }
  destruct (run_ok (hcommit rival [data "a.parquet"] [] w0) (fun m => m_version m = 2%Z))
    as (w' & m & E & Hv); [vm_compute; reflexivity|].
  exists w', m. split; [exact E|]. split; [exact Hv|].
  assert (NoDup (me_file_path <$> [data "a.parquet"])) as Hn by one_file.
  assert (Forall (fun e => stable_path mm0 (me_file_path e)) [data "a.parquet"]) as Hst by one_file.
  exact (proj2 (commit_linearizes no_json mm0 uuid0 clock0 rival Hrival uuid0_fresh
    uuid0_no_slash 32 no_text [data "a.parquet"] [] CommitMetadata_default w0 w' (Ok m) w0_ok Hn Hst E)
    m eq_refl).
Defined.

Definition hprops (props : list (string * string)) : MM Manifest :=
  update_properties no_text clock0 mm0 quiet (list_to_map props).

Lemma update_properties_linearizes_witness :
  ∃ w' m, hprops [("owner", "ops")] w0 = (w', Ok m) ∧ m_properties m !! "owner" = Some "ops" ∧
    linearized mm0 (reproperties (list_to_map [("owner", "ops")])) (w_store w0) (w_store w') m.
Proof.
  destruct (run_ok (hprops [("owner", "ops")] w0) (fun m => m_properties m !! "owner" = Some "ops"))
    as (w' & m & E & Hm); [vm_compute; reflexivity|].
  exists w', m. split; [exact E|]. split; [exact Hm|].
  exact (proj2 (update_properties_linearizes no_json mm0 clock0 quiet quiet_step no_text
    (list_to_map [("owner", "ops")]) w0 w' (Ok m) w0_ok E) m eq_refl).
Defined.

(** Two versions. *)
Definition w2 : mworld :=
  (hcommit quiet [data "b.parquet"] [] (hcommit quiet [data "a.parquet"] [] w0).1).1.

Lemma w2_ok : wok no_json mm0 w2.
Proof.
  assert (wok no_json mm0 (hcommit quiet [data "a.parquet"] [] w0).1) as Hw1.
  { apply (hcommit_step [data "a.parquet"] [] w0 w0_ok); [one_file..|apply w0_ok]. }
  apply (hcommit_step [data "b.parquet"] [] _ Hw1); [one_file..|exact Hw1].
Qed.

Lemma rollback_linearizes_witness :
  ∃ w' m, rollback_to_snapshot no_text clock0 mm0 quiet 1 w2 = (w', Ok m) ∧ m_version m = 3%Z ∧
    linearized mm0 (rolled no_json mm0 1) (w_store w2) (w_store w') m.
Proof.
  destruct (run_ok (rollback_to_snapshot no_text clock0 mm0 quiet 1 w2) (fun m => m_version m = 3%Z))
    as (w' & m & E & Hm); [vm_compute; reflexivity|].
  exists w', m. split; [exact E|]. split; [exact Hm|].
  exact (proj2 (rollback_linearizes no_json mm0 clock0 quiet quiet_step no_text 1 w2 w' (Ok m) w2_ok E)
    m eq_refl).
Defined.

(** A table with a delete file. *)
Definition pos_delete (p : string) : DeleteFile :=
  {| df_file_path := p; df_content := Position; df_file_size_bytes := 0; df_record_count := 1;
     df_partition_values := ∅ |}.
Definition with_delete (p d : string) : ManifestEntry :=
  with_delete_files (data p) [pos_delete d].
Definition w3 : mworld := (hcommit quiet [with_delete "c.parquet" "c-del.parquet"] [] w2).1.

Lemma w3_ok : wok no_json mm0 w3.
Proof.
  apply (hcommit_step [with_delete "c.parquet" "c-del.parquet"] [] w2 w2_ok); [| |exact w2_ok].
  - apply NoDup_singleton.
  - constructor; [vm_compute; split; reflexivity|constructor].
Qed.

Lemma load_latest_full_consistent_witness :
  ∃ w' m es, hfull quiet w3 = (w', Ok (m, es, 3%Z)) ∧
    bool_decide (view es = {["a.parquet" := 0; "b.parquet" := 0; "c.parquet" := 0]}) = true ∧
    m_delete_files m = [pos_delete "c-del.parquet"] ∧ loaded mm0 (w_store w') m 3 ∧
    ∀ e, e ∈ es → ∃ e0, e = attached m e0 ∧ (e0 ∈ relativized mm0 <$> m_entries m ∨
      listed_entry no_json mm0 (w_store w') m e0 ∧ me_delete_files e0 = []).
Proof.
  destruct (run_ok (hfull quiet w3) (fun r => r.2 = 3%Z ∧
    bool_decide (view r.1.2 = {["a.parquet" := 0; "b.parquet" := 0; "c.parquet" := 0]}) = true ∧
    m_delete_files r.1.1 = [pos_delete "c-del.parquet"])) as (w' & [[m es] v] & E & Hv & Hes & Hd);
    [vm_compute; split_and!; reflexivity|]. simpl in Hv, Hes, Hd. subst v.
  exists w', m, es. split; [exact E|]. split; [exact Hes|]. split; [exact Hd|].
  destruct (load_latest_full_consistent no_json mm0 clock0 quiet quiet_step w3 w' m es 3 w3_ok E)
    as (Hl & _ & He). split; [exact Hl|exact He].
Defined.

(** A table whose only file is live, next to an orphan. *)
Definition files : store := {["a.parquet" := []; "z.parquet" := []]}.
Definition wf0 : mworld := set_store w0 files.
Definition wf1 : mworld := (hcommit quiet [data "a.parquet"] [] wf0).1.
Definition hvacuum : MM nat := vacuum no_json clock0 mm0 quiet (V:=bytes) (fun _ _ => 7200%Z) 3600 1.

Lemma files_names p : is_Some (os_objs (V:=bytes) files p) → p = "a.parquet" ∨ p = "z.parquet".
Proof.
  intros [x Hx]. simpl in Hx. apply fmap_Some in Hx as (b & Hb & _).
  unfold files in Hb.
  apply lookup_insert_Some in Hb as [[<- _]|[_ Hb]]; [by left|].
  apply lookup_singleton_Some in Hb as [<- _]. by right.
Qed.

Lemma wf0_ok : wok no_json mm0 wf0.
Proof.
  assert (∀ v, os_objs (V:=bytes) files (version_path mm0 v) = None) as Hno.
  { intros v. destruct (os_objs files (version_path mm0 v)) eqn:E; [|done]. exfalso.
    pose proof (version_path_json mm0 v) as Hj.
    destruct (files_names (version_path mm0 v)) as [Hp|Hp]; [by eexists|..]; by rewrite Hp in Hj. }
  split; simpl; try done.
  - intros p v [->| ->]%files_names Hd; by vm_compute in Hd.
  - exists 1%Z, 0%Z. split; [lia|]. intros v. rewrite Hno. split; [by intros [? ?]|lia].
Qed.

Lemma vacuum_keeps_window_witness :
  os_objs (V:=bytes) (w_store (hvacuum wf1).1) "a.parquet" = Some ([], []) ∧
  os_objs (V:=bytes) (w_store (hvacuum wf1).1) "z.parquet" = None.
Proof.
  split; [|vm_compute; reflexivity].
  assert (wok no_json mm0 wf1) as Hw.
  { apply (hcommit_step [data "a.parquet"] [] wf0 wf0_ok); [one_file..|apply wf0_ok]. }
  destruct (run_ok (load_latest clock0 mm0 quiet wf1) (fun mv => mv.2 = 1%Z))
    as (w1 & [m1 v1] & E & Hv); [vm_compute; reflexivity|]. simpl in Hv. subst v1.
  destruct (hvacuum wf1) as [w' r] eqn:Ev. simpl.
  destruct (stored mm0 (w_store wf1) 1) as [m|] eqn:Em; [|vm_compute in Em; discriminate].
  refine (vacuum_keeps_window no_json mm0 clock0 quiet quiet_step (fun _ _ => 7200%Z) 3600
    ltac:(done) 1 wf1 w1 w' m1 1 r 1 m "a.parquet" ([], []) Hw E Ev _ Em _ _).
  - vm_compute. split; discriminate.
  - right. split; [|by vm_compute].
    assert (match stored mm0 (w_store wf1) 1 with
            | Some m => match snapshot no_json mm0 (w_store wf1) m with
                        | Some cm => bool_decide ("a.parquet" ∈ manifest_files m (map_to_list cm).*2)
                        | None => false end
            | None => false end = true) as Hr by (vm_compute; reflexivity).
    rewrite Em in Hr. unfold recorded. destruct (snapshot no_json mm0 (w_store wf1) m) as [cm|]; [|done].
    exists cm. split; [done|]. left. by apply bool_decide_eq_true in Hr.
  - vm_compute. reflexivity.
Defined.

(** ** Histories in which commits lose data or metadata *)

Definition himport (es : list ManifestEntry) : MM Manifest :=
  commit_imported_entries no_json no_text clock0 mm0 quiet es.
Definition hsync (es : list ManifestEntry) : MM Manifest :=
  commit_synced_snapshot no_json no_text clock0 mm0 quiet es.
(** The result of a history on a fresh table. *)
Definition outcome {A} (c : MM A) : result merr A := (c w0).2.
Definition yields {A} `{EqDecision A} (c : MM A) (a : A) : bool :=
  match outcome c with Ok a' => bool_decide (a' = a) | Err _ => false end.
Definition hview : MM (gmap string nat) := r ← hfull quiet; mret (view r.1.2).

(** An append loses every index built before it.  Index builds publish their result
    as inline entries next to the manifest list ([commit_imported_entries]); the
    append-only path of the next commit references the listed manifests, which know of
    no index, and drops the inline entries. *)
Theorem append_drops_built_indexes :
  let built := _ ← hcommit quiet [data "a.parquet"] [];
               himport [with_index_files (data "a.parquet") [index "a.hnsw"]] in
  yields (_ ← built; hview) {["a.parquet" := 1]} = true ∧
  yields (_ ← built; _ ← hcommit quiet [data "b.parquet"] []; hview)
    {["a.parquet" := 0; "b.parquet" := 0]} = true.
Proof. vm_compute. split; reflexivity. Qed.

(** On a table filled by an external snapshot ([commit_synced_snapshot], entries inline
    and no manifest list) the first append replaces the whole table. *)
Theorem append_after_sync_loses_table :
  let synced := hsync [data "x.parquet"; data "y.parquet"] in
  yields (_ ← synced; hview) {["x.parquet" := 0; "y.parquet" := 0]} = true ∧
  yields (_ ← synced; _ ← hcommit quiet [data "b.parquet"] []; hview) {["b.parquet" := 0]} = true.
Proof. vm_compute. split; reflexivity. Qed.

Lemma append_replaces_inline_table_witness :
  let w1 := (hsync [data "x.parquet"; data "y.parquet"] w0).1 in
  ∃ w' m, hcommit quiet [data "b.parquet"] [] w1 = (w', Ok m) ∧ m_version m = 2%Z ∧
    linearized mm0 (replaces_inline no_json mm0 [data "b.parquet"]) (w_store w1) (w_store w') m.
Proof.
  intros w1. assert (wok no_json mm0 w1) as Hw1.
  { unfold w1. destruct (hsync [data "x.parquet"; data "y.parquet"] w0) as [w r] eqn:E.
    apply (commit_synced_step no_json mm0 clock0 quiet quiet_step no_text
      [data "x.parquet"; data "y.parquet"] w0 w r w0_ok); [|exact E|exact w0_ok].
    constructor; [vm_compute; split; reflexivity|]. by apply stable_one; vm_compute. }
  destruct (run_ok (hcommit quiet [data "b.parquet"] [] w1) (fun m => m_version m = 2%Z))
    as (w' & m & E & Hv); [vm_compute; reflexivity|].
  exists w', m. split; [exact E|]. split; [exact Hv|].
  refine (append_replaces_inline_table no_json mm0 uuid0 clock0 quiet quiet_step uuid0_fresh
    uuid0_no_slash 32 no_text [data "b.parquet"] CommitMetadata_default w1 w' m Hw1 _ _ _ E);
    [one_file..|done].
Defined.

(** Vacuum deletes the position-delete file of the live snapshot: it compares the
    recorded absolute URI ([IcebergDeleteWriter::metadata_uri], [Merge.metadata_uri] here)
    with the store-relative path of the listed object. *)
Theorem vacuum_deletes_live_delete_file :
  let w := set_store w0 {["a.parquet" := []; "a-del.parquet" := []]} in
  let uri := "s3://lake/t/a-del.parquet" in
  let committed := _ ← hcommit quiet [with_delete "a.parquet" uri] []; hfull quiet in
  match (r ← committed; n ← hvacuum; mret (r.1.2, n)) w with
  | (w', Ok (es, n)) =>
      ((fun e => df_file_path <$> me_delete_files e) <$> es, n,
       relativize_file_path (mm_root mm0) uri,
       bool_decide (is_Some (os_objs (V:=bytes) (w_store w') "a.parquet")),
       bool_decide (is_Some (os_objs (V:=bytes) (w_store w') "a-del.parquet"))) =
      ([[uri]], 1, "a-del.parquet", true, false)
  | _ => False
  end.
Proof. vm_compute. reflexivity. Qed.

(** A synchronized snapshot does not retire files.  The manifest it writes lists
    only the authoritative files, but keeps the manifest list of its predecessor, so
    every reader still sees the files the external engine removed. *)
Theorem sync_keeps_retired_files :
  yields (_ ← hcommit quiet [data "a.parquet"; data "b.parquet"] [];
          m ← hsync [data "a.parquet"; data "c.parquet"];
          v ← hview; mret (view (m_entries m), v))
    ({["a.parquet" := 0; "c.parquet" := 0]},
     {["a.parquet" := 0; "b.parquet" := 0; "c.parquet" := 0]}) = true.
Proof. vm_compute. reflexivity. Qed.

(** A schema update discards every table property, so the embedding space of a
    table with data, which cannot be changed directly, can be changed after any schema
    update; the WAL watermark property is lost in the same way. *)
Theorem schema_update_unfreezes_embedding :
  let model m := [(EMBEDDING_MODEL_PROP, m)] in
  let filled := _ ← hprops (model "A"); hcommit quiet [data "a.parquet"] [] in
  is_ok (outcome (_ ← filled; hprops (model "B"))) = false ∧
  outcome (_ ← filled; m ← update_schema no_text clock0 mm0 quiet [TableSchema_default] 0 None;
   mret (map_to_list (m_properties m))) = Ok [] ∧
  is_ok (outcome (_ ← filled; _ ← update_schema no_text clock0 mm0 quiet [TableSchema_default] 0 None;
          hprops (model "B"))) = true.
Proof. vm_compute. split_and!; reflexivity. Qed.

(** Another process: it shares the store and not the caches. *)
Definition elsewhere (c : MM nat) (w : mworld) : mworld :=
  set_store w (w_store (c {| w_store := w_store w; w_tick := 0; w_latest := None;
                             w_manifests := ∅; w_lists := ∅ |}).1).
Definition read_elsewhere : MM (gmap string nat) := fun w =>
  (w, (hview {| w_store := w_store w; w_tick := 0; w_latest := None;
                w_manifests := ∅; w_lists := ∅ |}).2).

(** Two commits and a vacuum that retains one version, just before the commit uploads
    its manifest list. *)
Definition vacuumer (n : nat) (w : mworld) : mworld :=
  if decide (n = 7) then
    elsewhere (_ ← hcommit quiet [data "b.parquet"] []; _ ← hcommit quiet [data "c.parquet"] [];
               vacuum no_json clock0 mm0 quiet (fun _ _ => 0%Z) 3600 1) w
  else w.

(** A commit concurrent with other commits and a vacuum can be acknowledged and
    lost.  Vacuum deletes the version file the commit conflicts with, so its
    [PutMode::Create] succeeds at a version below the head; it returns success and no
    reader ever sees its file. *)
Theorem vacuum_race_loses_commit :
  yields (_ ← hcommit quiet [data "x.parquet"] [];
          m ← hcommit vacuumer [data "a.parquet"] [];
          v ← read_elsewhere;
          mret (m_version m, v))
    (2%Z, {["x.parquet" := 0; "b.parquet" := 0; "c.parquet" := 0]}) = true.
Proof. vm_compute. reflexivity. Qed.

Definition col (id : Z) (name : string) : SchemaField :=
  {| sf_id := id; sf_name := name; sf_type_str := "long"; sf_required := false; sf_nested := "";
     sf_initial_default := None; sf_write_default := None; sf_indexes := [] |}.
Definition schema (id : Z) (fs : list SchemaField) : TableSchema :=
  {| sc_schema_id := id; sc_table_fields := fs; sc_identifier_field_ids := [] |}.

(** Another process adds column [y] just before our put. *)
Definition widener (n : nat) (w : mworld) : mworld :=
  if decide (n = 2) then
    elsewhere (_ ← update_schema no_text clock0 mm0 quiet
                     [schema 0 [col 1 "x"]; schema 1 [col 1 "x"; col 2 "y"]] 1 (Some 2%Z);
               mret 0) w
  else w.

(** Setting the identifier fields loses a concurrent schema change.  The new schema
    list is computed once, before the optimistic loop, so the retry after a conflict
    writes it over the column another client has just added. *)
Theorem identifier_update_drops_column :
  outcome (_ ← update_schema no_text clock0 mm0 quiet [schema 0 [col 1 "x"]] 0 (Some 1%Z);
           m ← update_identifier_fields no_text clock0 mm0 widener [1%Z];
           mret (m_version m, (fun s => sf_name <$> sc_table_fields s) <$> m_schemas m)) =
  Ok (3%Z, [["x"]; ["x"]]).
Proof. vm_compute. reflexivity. Qed.
