(* ===== verification/Planner.v ===== *)
(** * Scan planning ([src/src/core/planner.rs])

    Filters as the planner sees them ([QueryFilter], the part of DataFusion's [Expr] the
    code matches on), their extraction from expressions and back, and the pruning of
    manifest entries by partition values and column statistics.

    The reference semantics of an expression on one row ([eval], SQL's three-valued
    logic) is the specification: an entry that holds a row on which the filter is true
    is never pruned.  DataFusion's own evaluation of functions, casts and types the
    planner does not look at is a parameter. *)

From Stdlib Require Import Floats.SpecFloat.
From S2P Require Import Prelude Json ManifestTypes.

Local Open Scope Z_scope.

(** ** Filters and expressions *)

Record QueryFilter := {
  qf_column : string;
  qf_min : option Value;
  qf_min_inclusive : bool;
  qf_max : option Value;
  qf_max_inclusive : bool;
  qf_values : option (list Value);
  qf_negated : bool;
}.

Inductive PruneReason :=
| PartitionBelowMin | PartitionAboveMax | PartitionNotInList
| StatsAllNull | StatsBelowMin | StatsAboveMax | StatsNotInList.
#[export] Instance PruneReason_eq_dec : EqDecision PruneReason.
Proof. solve_decision. Defined.

(** [PruneReason::label] *)
Definition label (r : PruneReason) : string :=
  match r with
  | PartitionBelowMin => "partition value < min"
  | PartitionAboveMax => "partition value > max"
  | PartitionNotInList => "partition value not in IN-list"
  | StatsAllNull => "all values NULL"
  | StatsBelowMin => "column max < filter min"
  | StatsAboveMax => "column min > filter max"
  | StatsNotInList => "IN-list outside column [min, max]"
  end.

(** DataFusion's [Operator], [ScalarValue] and [Expr], as far as the planner looks;
    what it does not distinguish carries its name. *)
Inductive Operator :=
| OpAnd | OpOr | OpEq | OpNotEq | OpGt | OpGtEq | OpLt | OpLtEq | OpOther (name : string).
#[export] Instance Operator_eq_dec : EqDecision Operator.
Proof. solve_decision. Defined.

Inductive ScalarValue :=
| SInt64 (i : option Z) | SInt32 (i : option Z) | SInt16 (i : option Z) | SInt8 (i : option Z)
| SUInt64 (i : option Z) | SUInt32 (i : option Z)
| SFloat64 (f : option float) | SFloat32 (f : option float)
| SUtf8 (s : option string) | SLargeUtf8 (s : option string) | SUtf8View (s : option string)
| SBoolean (b : option bool)
| SOther (text : string).

Inductive Expr :=
| EColumn (name : string)
| ELiteral (s : ScalarValue)
| EBinary (left : Expr) (op : Operator) (right : Expr)
| ENot (e : Expr)
| EIsNull (e : Expr)
| EIsNotNull (e : Expr)
| ECast (e : Expr) (data_type : string)
| ETryCast (e : Expr) (data_type : string)
| EInList (e : Expr) (list : list Expr) (negated : bool)
| EBetween (e : Expr) (negated : bool) (low high : Expr)
| EScalarFunction (name : string) (args : list Expr)
| EOther (text : string).

(** ** Literals as JSON *)

(** [json!(f)]: a float that is not finite becomes [null] *)
Definition json_float (f : float) : Value :=
  match Number_from_f64 f with Some n => VNumber n | None => VNull end.

Definition scalar_to_json_value (s : ScalarValue) : option Value :=
  match s with
  | SInt64 (Some i) | SInt32 (Some i) | SInt16 (Some i) | SInt8 (Some i)
  | SUInt64 (Some i) | SUInt32 (Some i) => Some (VNumber (Number_of_int i))
  | SFloat64 (Some f) => Some (json_float f)
  | SFloat32 (Some f) => Some (json_float (f32_as_f64 f))
  | SUtf8 (Some s) => Some (VString s)
  | SBoolean (Some b) => Some (VBool b)
  | _ => None
  end.

(** [json_to_scalar]; [text] is [v.to_string()] *)
Definition json_to_scalar (v : Value) : Expr :=
  match v with
  | VNumber n =>
      match as_i64 n with
      | Some i => ELiteral (SInt64 (Some i))
      | None => ELiteral (SFloat64 (Some (default (S754_zero false) (as_f64 n))))
      end
  | VString s => ELiteral (SUtf8 (Some s))
  | VBool b => ELiteral (SBoolean (Some b))
  | VNull => ELiteral (SUtf8 (Some "null"))
  | VOther text => ELiteral (SUtf8 (Some text))
  end.

Fixpoint expr_column_name (e : Expr) : option string :=
  match e with
  | EColumn c => Some c
  | ECast e _ | ETryCast e _ => expr_column_name e
  | _ => None
  end.

Fixpoint expr_literal_json (e : Expr) : option Value :=
  match e with
  | ELiteral s => scalar_to_json_value s
  | ECast e _ | ETryCast e _ => expr_literal_json e
  | _ => None
  end.

(** ** Expressions to filters *)

Definition cmp_filter (col : string) (min : option Value) (min_inc : bool) (max : option Value)
    (max_inc : bool) (values : option (list Value)) (negated : bool) : QueryFilter :=
  {| qf_column := col; qf_min := min; qf_min_inclusive := min_inc; qf_max := max;
     qf_max_inclusive := max_inc; qf_values := values; qf_negated := negated |}.

(** The operator of [v op c] read as [c op' v]. *)
Definition swap_op (op : Operator) : option Operator :=
  match op with
  | OpEq => Some OpEq
  | OpNotEq => Some OpNotEq
  | OpGt => Some OpLt
  | OpGtEq => Some OpLtEq
  | OpLt => Some OpGt
  | OpLtEq => Some OpGtEq
  | _ => None
  end.

(** [(col, val, op)] of a comparison *)
Definition col_val_op (l : Expr) (op : Operator) (r : Expr) : option (string * Value * Operator) :=
  match expr_column_name l with
  | Some c => v ← expr_literal_json r; Some (c, v, op)
  | None =>
      c ← expr_column_name r; v ← expr_literal_json l; op' ← swap_op op; Some (c, v, op')
  end.

Definition filter_of_op (col : string) (val : Value) (op : Operator) : option QueryFilter :=
  match op with
  | OpEq => Some (cmp_filter col (Some val) true (Some val) true (Some [val]) false)
  | OpNotEq => Some (cmp_filter col (Some val) true (Some val) true (Some [val]) true)
  | OpGt => Some (cmp_filter col (Some val) false None true None false)
  | OpGtEq => Some (cmp_filter col (Some val) true None true None false)
  | OpLt => Some (cmp_filter col None true (Some val) false None false)
  | OpLtEq => Some (cmp_filter col None true (Some val) true None false)
  | _ => None
  end.

Definition convert_binary_expr_to_query_filter (l : Expr) (op : Operator) (r : Expr) :
    option QueryFilter :=
  '(col, val, op) ← col_val_op l op r; filter_of_op col val op.

(** The values of an IN list; an element that is no literal, or has no JSON value, is
    left out. *)
Definition in_list_value (e : Expr) : option Value :=
  match e with ELiteral s => scalar_to_json_value s | _ => None end.

Definition convert_in_list_to_query_filter (e : Expr) (list : list Expr) (negated : bool) :
    option QueryFilter :=
  match e with
  | EColumn col =>
      match omap in_list_value list with
      | [] => None
      | values => Some (cmp_filter col None false None false (Some values) negated)
      end
  | _ => None
  end.

(** The filter of a [BETWEEN]. *)
Definition between_filter (e low high : Expr) : option QueryFilter :=
  col ← expr_column_name e; min ← expr_literal_json low; max ← expr_literal_json high;
  Some (cmp_filter col (Some min) true (Some max) true None false).

(** [extract_filters_from_expr], [FilterExpr::extract_and_conditions]: the filters pushed,
    in order *)
Fixpoint extract_and_conditions (e : Expr) : list QueryFilter :=
  match e with
  | EBinary l op r =>
      if decide (op = OpAnd) then extract_and_conditions l ++ extract_and_conditions r
      else option_list (convert_binary_expr_to_query_filter l op r)
  | EInList e list negated => option_list (convert_in_list_to_query_filter e list negated)
  | EBetween e false low high => option_list (between_filter e low high)
  | _ => []
  end.

(** ** Pruning *)

(** [v] is below the filter's lower bound / above its upper bound. *)
Definition below_min (f : QueryFilter) (v min : Value) : bool :=
  if qf_min_inclusive f then compare_lt v min else
    bool_decide (compare_values v min = Some Lt) || bool_decide (compare_values v min = Some Eq).
Definition above_max (f : QueryFilter) (v max : Value) : bool :=
  if qf_max_inclusive f then compare_gt v max else
    bool_decide (compare_values v max = Some Gt) || bool_decide (compare_values v max = Some Eq).

(** Step 1: the partition value of the filtered column. *)
Definition classify_partition (entry_val : Value) (f : QueryFilter) : option PruneReason :=
  if match qf_min f with Some m => below_min f entry_val m | None => false end
  then Some PartitionBelowMin
  else if match qf_max f with Some m => above_max f entry_val m | None => false end
  then Some PartitionAboveMax
  else match qf_values f with
       | Some values =>
           if existsb (fun v => value_eqb v entry_val) values then None else Some PartitionNotInList
       | None => None
       end.

(** One value of an IN list against [min, max]. *)
Definition in_range (min max : option ManifestValue) (v : Value) : bool :=
  negb match min with Some m => compare_lt v (Value_of_manifest m) | None => false end &&
  negb match max with Some m => compare_gt v (Value_of_manifest m) | None => false end.

(** Step 2: the statistics of the filtered column. *)
Definition classify_stats (record_count : Z) (st : ColumnStats) (f : QueryFilter) :
    option PruneReason :=
  if bool_decide (cs_null_count st = record_count) then Some StatsAllNull
  else if match cs_max st, qf_min f with
          | Some m, Some fmin => below_min f (Value_of_manifest m) fmin
          | _, _ => false
          end then Some StatsBelowMin
  else if match cs_min st, qf_max f with
          | Some m, Some fmax => above_max f (Value_of_manifest m) fmax
          | _, _ => false
          end then Some StatsAboveMax
  else match qf_values f with
       | Some values =>
           match cs_min st, cs_max st with
           | None, None => None
           | min, max => if existsb (in_range min max) values then None else Some StatsNotInList
           end
       | None => None
       end.

(** [QueryPlanner::classify_condition]; the metrics it counts are left out *)
Definition classify_condition (entry : ManifestEntry) (f : QueryFilter) : option PruneReason :=
  if qf_negated f then None
  else
    let by_partition :=
      match me_partition_values entry !! qf_column f with
      | Some v => classify_partition v f
      | None => None
      end in
    match by_partition with
    | Some r => Some r
    | None =>
        match me_column_stats entry !! qf_column f with
        | Some st => classify_stats (me_record_count entry) st f
        | None => None
        end
    end.

Definition might_match_condition (entry : ManifestEntry) (f : QueryFilter) : bool :=
  bool_decide (classify_condition entry f = None).

Definition kept_by (entry : ManifestEntry) (f : option QueryFilter) : bool :=
  match f with Some f => might_match_condition entry f | None => true end.

Fixpoint might_match_df_expr (entry : ManifestEntry) (e : Expr) : bool :=
  match e with
  | EBinary l op r =>
      match op with
      | OpAnd => might_match_df_expr entry l && might_match_df_expr entry r
      | OpOr => might_match_df_expr entry l || might_match_df_expr entry r
      | _ => kept_by entry (convert_binary_expr_to_query_filter l op r)
      end
  | EInList e list negated => kept_by entry (convert_in_list_to_query_filter e list negated)
  | EBetween e false low high => kept_by entry (between_filter e low high)
  | _ => true
  end.

(** [QueryPlanner::select_index] *)
Definition select_index (entry : ManifestEntry) (f : QueryFilter) : option IndexFile :=
  list_find (fun idx => if_column_name idx = qf_column f ∧
                        (if_index_category idx = "scalar" ∨ if_index_category idx = "unknown"))
    (me_index_files entry) ≫= (fun p => Some p.2).

(** ** Vector bounding boxes

    [f32] arithmetic is IEEE single precision. *)

Definition f32_sub : float → float → float := SFsub 24 128.
Definition f32_add : float → float → float := SFadd 24 128.
(** [x.powi(2)] *)
Definition f32_sq (x : float) : float := SFmul 24 128 x x.

Inductive VectorValue :=
| Float32 (v : list float)
| Float16 (v : list float)
| Binary (b : bytes)
| Sparse (text : string)
| Keyword (s : string).

Record VectorSearchParams := {
  vp_column : string;
  vp_query : VectorValue;
  vp_k : Z;
  vp_metric : string;
  vp_ef_search : option Z;
  vp_probes : option Z;
  vp_stats_only : bool;
  vp_use_mmap : bool;
  vp_radius : option float;
}.

Definition VectorSearchParams_new (column : string) (query : VectorValue) (k : Z) :
    VectorSearchParams :=
  {| vp_column := column; vp_query := query; vp_k := k; vp_metric := "L2"; vp_ef_search := None;
     vp_probes := None; vp_stats_only := false; vp_use_mmap := true; vp_radius := None |}.

(** The squared distance of one coordinate to the box. *)
Definition axis_step (q : float) (lo hi : option float) (acc : float) : float :=
  match lo, hi with
  | Some lo, Some hi =>
      if SFltb q lo then f32_add acc (f32_sq (f32_sub lo q))
      else if SFltb hi q then f32_add acc (f32_sq (f32_sub q hi))
      else acc
  | _, _ => acc
  end.

(** The loop over the query's coordinates: [false] as soon as the squared distance to the
    box exceeds the squared radius. *)
Fixpoint within_box (q dim_min dim_max : list float) (radius_sq : option float) (acc : float) :
    bool :=
  match q with
  | [] => true
  | q_val :: q =>
      let acc := axis_step q_val (head dim_min) (head dim_max) acc in
      match radius_sq with
      | Some r => if SFltb r acc then false else within_box q (tail dim_min) (tail dim_max) radius_sq acc
      | None => within_box q (tail dim_min) (tail dim_max) radius_sq acc
      end
  end.

Definition might_match_vector (entry : ManifestEntry) (p : VectorSearchParams) : bool :=
  match me_column_stats entry !! vp_column p ≫= cs_vector_stats with
  | None => true
  | Some vs =>
      match vs_dim_min vs, vs_dim_max vs, vp_query p with
      | Some dim_min, Some dim_max, Float32 q =>
          within_box q dim_min dim_max (f32_sq <$> vp_radius p) (S754_zero false)
      | _, _, _ => true
      end
  end.

(** [QueryPlanner::prune_entries] *)
Definition matches (expr : option Expr) (vector_params : option (list VectorSearchParams))
    (entry : ManifestEntry) : bool :=
  match expr with Some e => might_match_df_expr entry e | None => true end &&
  match vector_params with Some vps => forallb (might_match_vector entry) vps | None => true end.

Definition selected_index (expr : option Expr) (entry : ManifestEntry) : option IndexFile :=
  e ← expr; head (omap (select_index entry) (extract_and_conditions e)).

Definition prune_entries (entries : list ManifestEntry) (expr : option Expr)
    (vector_params : option (list VectorSearchParams)) : list (ManifestEntry * option IndexFile) :=
  (fun entry => (entry, selected_index expr entry)) <$>
  filter (fun entry => matches expr vector_params entry = true) entries.

(** ** Filters to expressions

    [col] is the name DataFusion gives the column of [col(&str)]. *)

Section ToExpr.

Context (col : string → string).

(** The comparison for one bound; [.and(..)] joins two. *)
Definition range_expr (f : QueryFilter) : option Expr :=
  let lower := (fun m => EBinary (EColumn (col (qf_column f)))
                  (if qf_min_inclusive f then OpGtEq else OpGt) (json_to_scalar m)) <$> qf_min f in
  let upper := (fun m => EBinary (EColumn (col (qf_column f)))
                  (if qf_max_inclusive f then OpLtEq else OpLt) (json_to_scalar m)) <$> qf_max f in
  match upper with
  | Some e => match lower with Some prev => Some (EBinary prev OpAnd e) | None => Some e end
  | None => lower
  end.

(** [QueryFilter::to_expr] *)
Definition to_expr (f : QueryFilter) : Expr :=
  let col_expr := EColumn (col (qf_column f)) in
  match qf_values f with
  | Some [v] => EBinary col_expr (if qf_negated f then OpNotEq else OpEq) (json_to_scalar v)
  | Some values => EInList col_expr (json_to_scalar <$> values) (qf_negated f)
  | None =>
      let res := default (ELiteral (SBoolean (Some true))) (range_expr f) in
      if qf_negated f then ENot res else res
  end.

(** [FilterExpr::from_filters] *)
Definition from_filters (filters : list QueryFilter) : option Expr :=
  match filters with
  | [] => None
  | f :: fs => Some (foldl (fun e f => EBinary e OpAnd (to_expr f)) (to_expr f) fs)
  end.

End ToExpr.

(** [QueryFilter::op_to_string] *)
Definition option_value_eqb (a b : option Value) : bool :=
  match a, b with
  | Some a, Some b => value_eqb a b
  | None, None => true
  | _, _ => false
  end.

Definition op_to_string (f : QueryFilter) : string :=
  match qf_values f with
  | Some _ => if qf_negated f then "NOT IN" else "IN"
  | None =>
      match qf_min f, qf_max f with
      | Some _, Some _ =>
          if option_value_eqb (qf_min f) (qf_max f) then if qf_negated f then "!=" else "="
          else "RANGE"
      | Some _, None => if qf_min_inclusive f then ">=" else ">"
      | None, Some _ => if qf_max_inclusive f then "<=" else "<"
      | None, None => "TRUE"
      end
  end.

(** ** Columns of a filter *)

(** [FilterExpr::required_columns]: the columns in order of appearance, without
    duplicates *)
Fixpoint required_extract (e : Expr) (cols : list string) : list string :=
  match e with
  | EColumn c => if decide (c ∈ cols) then cols else cols ++ [c]
  | EBinary l _ r => required_extract r (required_extract l cols)
  | EScalarFunction _ args =>
      (fix go (args : list Expr) (cols : list string) :=
         match args with [] => cols | a :: args => go args (required_extract a cols) end) args cols
  | ENot e | EIsNotNull e | EIsNull e => required_extract e cols
  | EInList e _ _ => required_extract e cols
  | _ => cols
  end.
Definition required_columns (e : Expr) : list string := required_extract e [].

(** [find_column_names], [FilterExpr::get_referenced_columns] *)
Fixpoint find_column_names (e : Expr) : gset string :=
  match e with
  | EColumn c => {[c]}
  | EBinary l _ r => find_column_names l ∪ find_column_names r
  | EScalarFunction _ args =>
      (fix go (args : list Expr) : gset string :=
         match args with [] => ∅ | a :: args => find_column_names a ∪ go args end) args
  | ENot e | EIsNotNull e | EIsNull e | ECast e _ | ETryCast e _ => find_column_names e
  | EInList e elems _ =>
      find_column_names e ∪
      (fix go (args : list Expr) : gset string :=
         match args with [] => ∅ | a :: args => find_column_names a ∪ go args end) elems
  | _ => ∅
  end.

(** ** Literal coercion

    [coerce_expr_literals]: in a comparison of a column with a literal of another
    numeric type the column is cast to the literal's type.  [field_type] is the Arrow type
    of a schema field, [scalar_type] the type of a literal. *)

Definition is_numeric_type (dt : string) : bool :=
  bool_decide (dt ∈ ["Int8"; "Int16"; "Int32"; "Int64"; "UInt8"; "UInt16"; "UInt32"; "UInt64";
                     "Float16"; "Float32"; "Float64"]).

Section Coerce.

Context (field_type : string → option string) (scalar_type : ScalarValue → string).

Definition promote (c lit : Expr) : option Expr :=
  match c, lit with
  | EColumn name, ELiteral s =>
      ty ← field_type name;
      if is_numeric_type ty && is_numeric_type (scalar_type s) && negb (bool_decide (scalar_type s = ty))
      then Some (ECast c (scalar_type s)) else None
  | _, _ => None
  end.

Definition coerce_comparison (l r : Expr) : Expr * Expr :=
  match promote l r with
  | Some casted => (casted, r)
  | None => match promote r l with Some casted => (l, casted) | None => (l, r) end
  end.

Definition is_comparison (op : Operator) : bool :=
  bool_decide (op ∈ [OpEq; OpNotEq; OpGt; OpGtEq; OpLt; OpLtEq]).

Fixpoint coerce_expr_literals (e : Expr) : Expr :=
  match e with
  | EBinary l op r =>
      let l := coerce_expr_literals l in
      let r := coerce_expr_literals r in
      let '(l, r) := if is_comparison op then coerce_comparison l r else (l, r) in
      EBinary l op r
  | ENot e => ENot (coerce_expr_literals e)
  | ECast e ty => ECast (coerce_expr_literals e) ty
  | other => other
  end.

End Coerce.
