(* ===== verification/PlannerSpec.v ===== *)
(** * Pruning is sound

    SQL's meaning of a filter on one row, and the theorem that an entry holding a row on
    which the filter is true survives [prune_entries].  The hypotheses are the ones the
    pruning rules rely on: the statistics bound the rows, a partition value is the value
    of its rows, the casts of a comparison do not change its outcome, and the literals
    have a JSON value. *)

From Stdlib Require Import Floats.SpecFloat.
From S2P Require Import Prelude Json ManifestTypes Planner.

Local Open Scope Z_scope.

(** ** SQL values and their order *)

Inductive Cell :=
| CNull | CBool (b : bool) | CInt (z : Z) | CFloat (f : float) | CString (s : string).

(** The comparison of two values; an integer against a float is compared as [f64]. *)
Definition cell_cmp (a b : Cell) : option comparison :=
  match a, b with
  | CInt x, CInt y => Some (x ?= y)
  | CInt x, CFloat g => Some (float_cmp (Z_as_f64 x) g)
  | CFloat f, CInt y => Some (float_cmp f (Z_as_f64 y))
  | CFloat f, CFloat g => Some (float_cmp f g)
  | CString s, CString t => Some (String.compare s t)
  | CBool b, CBool c => Some (bool_cmp b c)
  | _, _ => None
  end.

Definition cell_of_manifest (v : ManifestValue) : Cell :=
  match v with
  | MString s => CString s
  | MInt32 i | MInt64 i => CInt i
  | MFloat32 f => CFloat (f32_as_f64 f)
  | MFloat64 f => CFloat f
  | MBoolean b => CBool b
  | MNull => CNull
  end.

Definition cell_of_value (v : Value) : Cell :=
  match v with
  | VString s => CString s
  | VNumber (PosInt n) | VNumber (NegInt n) => CInt n
  | VNumber (Float f) => CFloat f
  | VBool b => CBool b
  | VNull | VOther _ => CNull
  end.

(** A JSON value as [serde_json] builds it from an [i64] or a float. *)
Definition plain (v : Value) : Prop :=
  match v with
  | VNumber (PosInt n) => 0 ≤ n ≤ i64_max
  | VNumber (NegInt n) => - 2 ^ 63 ≤ n < 0
  | VNumber (Float f) => is_finite f = true
  | _ => True
  end.

Definition not_nan (f : float) : bool := match f with S754_nan => false | _ => true end.

Lemma finite_not_nan f : is_finite f = true → f ≠ S754_nan.
Proof. by destruct f. Qed.

(** ** The planner's comparison is SQL's *)

(** A plain number is an [i64] with its value, or a float. *)
Lemma plain_number n :
  plain (VNumber n) →
  (∃ z, as_i64 n = Some z ∧ is_f64 n = false ∧ as_f64 n = Some (Z_as_f64 z) ∧
        cell_of_value (VNumber n) = CInt z) ∨
  (∃ f, as_i64 n = None ∧ is_f64 n = true ∧ as_f64 n = Some f ∧ f ≠ S754_nan ∧
        cell_of_value (VNumber n) = CFloat f).
Proof.
  destruct n as [n|n|f]; simpl; intros Hn.
  - left. exists n. by rewrite bool_decide_true by lia.
  - left. by exists n.
  - right. exists f. repeat split; try done. by apply finite_not_nan.
Qed.

Lemma compare_values_cell a b :
  plain a → plain b → compare_values a b = cell_cmp (cell_of_value a) (cell_of_value b).
Proof.
  intros Ha Hb. destruct a as [|x|n|s|?], b as [|y|m|t|?]; try done; try by destruct n.
  1, 3: by destruct m.
  cbn [compare_values]. unfold is_i64.
  destruct (plain_number n Ha) as [(z & -> & -> & -> & ->)|(f & -> & -> & -> & Hf & ->)],
    (plain_number m Hb) as [(z' & -> & -> & -> & ->)|(g & -> & -> & -> & Hg & ->)]; simpl;
    rewrite ?SFcompare_float_cmp; auto using finite_not_nan, Z_as_f64_finite.
Qed.

(** ** Order lemmas *)

Definition rank (c : comparison) : Z := match c with Lt => -1 | Eq => 0 | Gt => 1 end.

(** Values of one type, in order. *)
Definition cell_le (a b : Cell) : Prop :=
  match a, b with
  | CInt x, CInt y => x ≤ y
  | CFloat f, CFloat g => float_cmp f g ≠ Gt
  | CString s, CString t => String.compare s t ≠ Gt
  | CBool b, CBool c => bool_cmp b c ≠ Gt
  | _, _ => False
  end.

Lemma lex_rank a b v : lex a b ≠ Gt → rank (lex a v) ≤ rank (lex b v).
Proof. unfold lex. intros H. lex_cases. Qed.

Lemma string_rank s t u :
  String.compare s t ≠ Gt → rank (String.compare s u) ≤ rank (String.compare t u).
Proof.
  revert t u. induction s as [|a s IH]; intros [|b t] [|c u] H; simpl in *; try done.
  - by destruct (Ascii.compare b c), (String.compare t u).
  - unfold Ascii.compare in *.
    destruct (N.compare_spec (Ascii.N_of_ascii a) (Ascii.N_of_ascii b)) as [E|E|E];
      destruct (N.compare_spec (Ascii.N_of_ascii a) (Ascii.N_of_ascii c));
      destruct (N.compare_spec (Ascii.N_of_ascii b) (Ascii.N_of_ascii c)); simpl in *; try done; try lia.
    + by apply IH.
    + by destruct (String.compare s u).
    + by destruct (String.compare t u).
Qed.

Lemma bool_rank a b c : bool_cmp a b ≠ Gt → rank (bool_cmp a c) ≤ rank (bool_cmp b c).
Proof. by destruct a, b, c. Qed.

Lemma Z_rank x y z : x ≤ y → rank (x ?= z) ≤ rank (y ?= z).
Proof. intros H. lex_cases. Qed.

(** A smaller value compares lower with every literal. *)
Lemma cell_cmp_rank a b v :
  cell_le a b →
  match cell_cmp a v, cell_cmp b v with
  | Some o, Some o' => rank o ≤ rank o'
  | None, None => True
  | _, _ => False
  end.
Proof.
  destruct a, b; simpl; try done; intros Hle; destruct v; simpl;
    auto using bool_rank, Z_rank, string_rank, lex_rank, Z_as_f64_mono.
  all: apply lex_rank; auto using Z_as_f64_mono; by apply Z_as_f64_mono.
Qed.

Lemma cell_cmp_mono a b v o :
  cell_le a b → cell_cmp b v = Some o → ∃ o', cell_cmp a v = Some o' ∧ rank o' ≤ rank o.
Proof.
  intros Hle Ho. pose proof (cell_cmp_rank a b v Hle) as Hr. rewrite Ho in Hr.
  destruct (cell_cmp a v); [eauto|done].
Qed.

Lemma cell_cmp_mono_r a b v o :
  cell_le a b → cell_cmp a v = Some o → ∃ o', cell_cmp b v = Some o' ∧ rank o ≤ rank o'.
Proof.
  intros Hle Ho. pose proof (cell_cmp_rank a b v Hle) as Hr. rewrite Ho in Hr.
  destruct (cell_cmp b v); [eauto|done].
Qed.

Lemma cell_cmp_antisym a b : cell_cmp b a = CompOpp <$> cell_cmp a b.
Proof.
  destruct a, b; simpl; try done; f_equal.
  - by destruct b0, b.
  - apply Z.compare_antisym.
  - apply lex_antisym.
  - apply lex_antisym.
  - apply lex_antisym.
  - apply String.compare_antisym.
Qed.

(** ** Statistics as JSON *)

Definition manifest_plain (m : ManifestValue) : Prop :=
  match m with MInt32 i | MInt64 i => is_i64_range i | _ => True end.

Lemma Number_of_int_plain i : is_i64_range i → plain (VNumber (Number_of_int i)).
Proof. unfold is_i64_range, Number_of_int. case_bool_decide; simpl; lia. Qed.

Lemma cell_of_int i : cell_of_value (VNumber (Number_of_int i)) = CInt i.
Proof. unfold Number_of_int. by case_bool_decide. Qed.

Lemma json_float_plain f : plain (json_float f).
Proof. unfold json_float, Number_from_f64. by destruct (is_finite f) eqn:E. Qed.

Lemma Value_of_manifest_plain m : manifest_plain m → plain (Value_of_manifest m).
Proof.
  destruct m; intros Hm; try done; first [by apply Number_of_int_plain | apply json_float_plain].
Qed.

Lemma Value_of_manifest_cell m :
  Value_of_manifest m = VNull ∨ cell_of_value (Value_of_manifest m) = cell_of_manifest m.
Proof.
  destruct m; cbn [Value_of_manifest]; rewrite ?cell_of_int; auto; unfold Number_from_f64;
    destruct (is_finite _); auto.
Qed.

Lemma compare_null_l v : compare_values VNull v = None.
Proof. done. Qed.
Lemma compare_null_r v : compare_values v VNull = None.
Proof. by destruct v. Qed.

(** ** What a filter means for one value *)

Definition sat_min (f : QueryFilter) (c : Cell) (m : Value) : bool :=
  match cell_cmp c (cell_of_value m) with
  | Some Gt => true
  | Some Eq => qf_min_inclusive f
  | _ => false
  end.
Definition sat_max (f : QueryFilter) (c : Cell) (m : Value) : bool :=
  match cell_cmp c (cell_of_value m) with
  | Some Lt => true
  | Some Eq => qf_max_inclusive f
  | _ => false
  end.
Definition equals (c : Cell) (v : Value) : bool :=
  bool_decide (cell_cmp c (cell_of_value v) = Some Eq).

Definition filter_holds (c : Cell) (f : QueryFilter) : bool :=
  match qf_min f with Some m => sat_min f c m | None => true end &&
  match qf_max f with Some m => sat_max f c m | None => true end &&
  match qf_values f with Some vs => existsb (equals c) vs | None => true end.

(** The literals of a filter. *)
Definition filter_literals (f : QueryFilter) : list Value :=
  option_list (qf_min f) ++ option_list (qf_max f) ++ default [] (qf_values f).

(** Integers against integers, floats against floats. *)
Definition same_kind (v w : Value) : bool :=
  match v, w with
  | VNumber a, VNumber b => Bool.eqb (is_f64 a) (is_f64 b)
  | _, _ => true
  end.

(** The statistics bound the value; a column counted as all null has no value. *)
Record stats_cover (record_count : Z) (st : ColumnStats) (c : Cell) : Prop := {
  cover_null : c ≠ CNull → cs_null_count st ≠ record_count;
  cover_min m : cs_min st = Some m →
    manifest_plain m ∧ (c ≠ CNull → cell_le (cell_of_manifest m) c);
  cover_max m : cs_max st = Some m →
    manifest_plain m ∧ (c ≠ CNull → cell_le c (cell_of_manifest m));
}.

Lemma below_min_sound f v m c :
  plain v → plain m → v = VNull ∨ cell_le c (cell_of_value v) → sat_min f c m = true →
  below_min f v m = false.
Proof.
  intros Hv Hm [->|Hle] Hs; [by unfold below_min, compare_lt; destruct (qf_min_inclusive f)|].
  unfold below_min, compare_lt, sat_min in *. rewrite compare_values_cell by done.
  destruct (cell_cmp (cell_of_value v) (cell_of_value m)) as [o|] eqn:Ho;
    [|by destruct (qf_min_inclusive f)].
  destruct (cell_cmp_mono _ _ _ _ Hle Ho) as (o' & Ho' & Hr). rewrite Ho' in Hs.
  by destruct o', o, (qf_min_inclusive f).
Qed.

Lemma above_max_sound f v m c :
  plain v → plain m → v = VNull ∨ cell_le (cell_of_value v) c → sat_max f c m = true →
  above_max f v m = false.
Proof.
  intros Hv Hm [->|Hle] Hs; [by unfold above_max, compare_gt; destruct (qf_max_inclusive f)|].
  unfold above_max, compare_gt, sat_max in *. rewrite compare_values_cell by done.
  destruct (cell_cmp (cell_of_value v) (cell_of_value m)) as [o|] eqn:Ho;
    [|by destruct (qf_max_inclusive f)].
  destruct (cell_cmp_mono_r _ _ _ _ Hle Ho) as (o' & Ho' & Hr). rewrite Ho' in Hs.
  by destruct o', o, (qf_max_inclusive f).
Qed.

Lemma string_compare_refl s : String.compare s s = Eq.
Proof.
  induction s as [|a s IH]; [done|]. simpl. unfold Ascii.compare. by rewrite N.compare_refl.
Qed.

Lemma cell_le_refl c : c ≠ CNull → cell_le c c.
Proof.
  destruct c; simpl; try done.
  - by destruct b.
  - unfold float_cmp. by rewrite lex_refl.
  - by rewrite string_compare_refl.
Qed.

(** Equal values of one kind are equal for the code. *)
Lemma equals_value_eqb c v pv :
  plain v → plain pv → same_kind v pv = true → cell_of_value pv = c → equals c v = true →
  value_eqb v pv = true.
Proof.
  intros Hv Hpv Hk <- He. apply bool_decide_eq_true in He.
  destruct pv as [|b|n|s|?], v as [|b'|m|s'|?]; try done;
    try (exfalso; destruct n; discriminate He); try (exfalso; destruct m; discriminate He).
  - by destruct b, b'.
  - destruct (plain_number n Hpv) as [(z & Hn & Hf & _ & ->)|(f & Hn & Hf & Ef & Hnan & ->)] in He;
      destruct (plain_number m Hv) as [(z' & Hm & Hg & _ & ->)|(g & Hm & Hg & Eg & Hnan' & ->)] in He;
      simpl in Hk; rewrite Hf, Hg in Hk; try done; injection He as He.
    + apply Z.compare_eq in He as ->.
      destruct n, m; simpl in *; repeat case_bool_decide; simplify_eq; try lia;
        by apply bool_decide_eq_true.
    + destruct n, m; try done. injection Ef as ->. injection Eg as ->. simpl. unfold SFeqb.
      rewrite SFcompare_float_cmp by done.
      apply lex_eq in He. unfold float_cmp. by rewrite He, lex_refl.
  - injection He as He. apply String.compare_eq_iff in He as ->. by apply bool_decide_eq_true.
Qed.

Lemma filter_holds_parts c f :
  filter_holds c f = true →
  (∀ m, qf_min f = Some m → sat_min f c m = true) ∧
  (∀ m, qf_max f = Some m → sat_max f c m = true) ∧
  (∀ vs, qf_values f = Some vs → ∃ v, v ∈ vs ∧ equals c v = true).
Proof.
  unfold filter_holds. intros [[Hm Hx]%andb_true_iff Hv]%andb_true_iff.
  split_and!; [by intros m E; rewrite E in Hm|by intros m E; rewrite E in Hx|].
  intros vs E. rewrite E in Hv. apply existsb_exists in Hv as (v & Hv & He).
  exists v. by rewrite list_elem_of_In.
Qed.

Lemma literals_Forall (P : Value → Prop) f :
  Forall P (filter_literals f) →
  (∀ m, qf_min f = Some m → P m) ∧ (∀ m, qf_max f = Some m → P m) ∧
  (∀ vs v, qf_values f = Some vs → v ∈ vs → P v).
Proof.
  unfold filter_literals. rewrite Forall_forall. intros H.
  split_and!; [intros m E|intros m E|intros vs v E Hv]; apply H; rewrite E; set_solver.
Qed.

Lemma classify_partition_sound pv f :
  plain pv → cell_of_value pv ≠ CNull → Forall plain (filter_literals f) →
  Forall (fun v => same_kind v pv = true) (default [] (qf_values f)) →
  filter_holds (cell_of_value pv) f = true → classify_partition pv f = None.
Proof.
  intros Hpv Hnn (Pm & Px & Pv)%literals_Forall Hk (Hm & Hx & Hv)%filter_holds_parts.
  unfold classify_partition.
  replace (match qf_min f with Some m => below_min f pv m | None => false end) with false
    by (destruct (qf_min f); [symmetry; eapply below_min_sound; eauto using cell_le_refl|done]).
  replace (match qf_max f with Some m => above_max f pv m | None => false end) with false
    by (destruct (qf_max f); [symmetry; eapply above_max_sound; eauto using cell_le_refl|done]).
  destruct (qf_values f) as [vs|]; [|done]. destruct (Hv vs eq_refl) as (v & Hin & He).
  rewrite (proj2 (existsb_exists _ _)); [done|]. exists v. split; [by apply list_elem_of_In|].
  eapply equals_value_eqb; eauto. by apply (proj1 (Forall_forall _ _) Hk).
Qed.

Lemma in_range_sound min max c v :
  plain v → equals c v = true →
  (∀ m, min = Some m → manifest_plain m ∧ cell_le (cell_of_manifest m) c) →
  (∀ m, max = Some m → manifest_plain m ∧ cell_le c (cell_of_manifest m)) →
  in_range min max v = true.
Proof.
  intros Hv He%bool_decide_eq_true Hmin Hmax. unfold in_range, compare_lt, compare_gt.
  apply andb_true_iff. split; apply negb_true_iff.
  - destruct min as [m|]; [|done]. destruct (Hmin m eq_refl) as [Pm Hle].
    destruct (Value_of_manifest_cell m) as [->|E]; [by rewrite compare_null_r|].
    rewrite compare_values_cell, E, cell_cmp_antisym by auto using Value_of_manifest_plain.
    destruct (cell_cmp_mono _ _ _ _ Hle He) as (o & -> & Hr). by destruct o.
  - destruct max as [m|]; [|done]. destruct (Hmax m eq_refl) as [Pm Hle].
    destruct (Value_of_manifest_cell m) as [->|E]; [by rewrite compare_null_r|].
    rewrite compare_values_cell, E, cell_cmp_antisym by auto using Value_of_manifest_plain.
    destruct (cell_cmp_mono_r _ _ _ _ Hle He) as (o & -> & Hr). by destruct o.
Qed.

Lemma manifest_le m c :
  cell_le c (cell_of_manifest m) →
  Value_of_manifest m = VNull ∨ cell_le c (cell_of_value (Value_of_manifest m)).
Proof. intros Hle. destruct (Value_of_manifest_cell m) as [-> | ->]; auto. Qed.

Lemma manifest_ge m c :
  cell_le (cell_of_manifest m) c →
  Value_of_manifest m = VNull ∨ cell_le (cell_of_value (Value_of_manifest m)) c.
Proof. intros Hle. destruct (Value_of_manifest_cell m) as [-> | ->]; auto. Qed.

Lemma classify_stats_sound rc st f c :
  stats_cover rc st c → c ≠ CNull → Forall plain (filter_literals f) →
  filter_holds c f = true → classify_stats rc st f = None.
Proof.
  intros [Hn Hmin Hmax] Hc (Pm & Px & Pv)%literals_Forall (Hm & Hx & Hv)%filter_holds_parts.
  unfold classify_stats. rewrite bool_decide_false by auto.
  replace (match cs_max st, qf_min f with
           | Some m, Some fmin => below_min f (Value_of_manifest m) fmin | _, _ => false end) with false.
  2:{ destruct (cs_max st) as [m|]; [|done]. destruct (qf_min f) as [fm|]; [|done].
      destruct (Hmax m eq_refl) as [Pm' Hle]. symmetry.
      eapply below_min_sound; eauto using Value_of_manifest_plain, manifest_le. }
  replace (match cs_min st, qf_max f with
           | Some m, Some fmax => above_max f (Value_of_manifest m) fmax | _, _ => false end) with false.
  2:{ destruct (cs_min st) as [m|]; [|done]. destruct (qf_max f) as [fm|]; [|done].
      destruct (Hmin m eq_refl) as [Pm' Hle]. symmetry.
      eapply above_max_sound; eauto using Value_of_manifest_plain, manifest_ge. }
  destruct (qf_values f) as [vs|]; [|done]. destruct (Hv vs eq_refl) as (v & Hin & He).
  assert (existsb (in_range (cs_min st) (cs_max st)) vs = true) as Hex.
  { apply existsb_exists. exists v. split; [by apply list_elem_of_In|].
    eapply in_range_sound; eauto; naive_solver. }
  by destruct (cs_min st), (cs_max st); rewrite ?Hex.
Qed.

(** ** SQL's meaning of an expression on one row

    [cast] and [opaque] are DataFusion's casts and its evaluation of the expressions the
    planner does not look into. *)

Definition cell_of_scalar (s : ScalarValue) : option Cell :=
  match s with
  | SInt64 o | SInt32 o | SInt16 o | SInt8 o | SUInt64 o | SUInt32 o =>
      Some (from_option CInt CNull o)
  | SFloat64 o => Some (from_option CFloat CNull o)
  | SFloat32 o => Some (from_option (fun f => CFloat (f32_as_f64 f)) CNull o)
  | SUtf8 o | SLargeUtf8 o | SUtf8View o => Some (from_option CString CNull o)
  | SBoolean o => Some (from_option CBool CNull o)
  | SOther _ => None
  end.

(** The outcome of a comparison operator. *)
Definition test_op (op : Operator) (c : comparison) : option bool :=
  match op with
  | OpEq => Some (match c with Eq => true | _ => false end)
  | OpNotEq => Some (match c with Eq => false | _ => true end)
  | OpGt => Some (match c with Gt => true | _ => false end)
  | OpGtEq => Some (match c with Lt => false | _ => true end)
  | OpLt => Some (match c with Lt => true | _ => false end)
  | OpLtEq => Some (match c with Gt => false | _ => true end)
  | _ => None
  end.

Definition and3 (a b : option bool) : option bool :=
  match a, b with
  | Some false, _ | _, Some false => Some false
  | Some true, Some true => Some true
  | _, _ => None
  end.
Definition or3 (a b : option bool) : option bool :=
  match a, b with
  | Some true, _ | _, Some true => Some true
  | Some false, Some false => Some false
  | _, _ => None
  end.
Definition in3 (a : Cell) (bs : list Cell) : option bool :=
  if existsb (fun b => bool_decide (cell_cmp a b = Some Eq)) bs then Some true
  else if existsb (fun b => bool_decide (cell_cmp a b = None)) bs then None
  else Some false.

Section Row.

Context (row : string → Cell) (cast : string → Cell → Cell) (opaque : Expr → option bool).

Fixpoint operand (e : Expr) : option Cell :=
  match e with
  | EColumn c => Some (row c)
  | ELiteral s => cell_of_scalar s
  | ECast e ty | ETryCast e ty => cast ty <$> operand e
  | _ => None
  end.

Definition compare3 (op : Operator) (a b : Cell) : option bool :=
  c ← cell_cmp a b; test_op op c.

Fixpoint eval (e : Expr) : option bool :=
  match e with
  | EBinary l OpAnd r => and3 (eval l) (eval r)
  | EBinary l OpOr r => or3 (eval l) (eval r)
  | EBinary l op r =>
      match operand l, operand r, test_op op Eq with
      | Some a, Some b, Some _ => compare3 op a b
      | _, _, _ => opaque e
      end
  | ENot e => negb <$> eval e
  | ELiteral (SBoolean o) => o
  | EInList x list negated =>
      match operand x, mapM operand list with
      | Some a, Some bs => (if negated : bool then negb else id) <$> in3 a bs
      | _, _ => opaque e
      end
  | EBetween x negated low high =>
      match operand x, operand low, operand high with
      | Some a, Some lo, Some hi =>
          (if negated : bool then negb else id) <$> and3 (compare3 OpGtEq a lo) (compare3 OpLtEq a hi)
      | _, _, _ => opaque e
      end
  | e => opaque e
  end.

(** The entry describes the row. *)
Record entry_covers (entry : ManifestEntry) : Prop := {
  covers_stats c st :
    me_column_stats entry !! c = Some st → stats_cover (me_record_count entry) st (row c);
  covers_partition c pv :
    me_partition_values entry !! c = Some pv → plain pv ∧ cell_of_value pv = row c;
}.

(** A comparison of column [c] with literal [v] has the outcome it has without the
    casts around them. *)
Definition transparent (col_expr lit_expr : Expr) (c : string) (v : Value) : Prop :=
  plain v ∧
  ∀ a b, operand col_expr = Some a → operand lit_expr = Some b →
         cell_cmp a b = cell_cmp (row c) (cell_of_value v).

Definition partition_kind (entry : ManifestEntry) (c : string) (v : Value) : Prop :=
  ∀ pv, me_partition_values entry !! c = Some pv → same_kind v pv = true.

(** The literals of an IN list that the planner can read. *)
Definition readable (entry : ManifestEntry) (c : string) (x : Expr) : Prop :=
  ∃ s, x = ELiteral s ∧
       (cell_of_scalar s = Some CNull ∨
        ∃ v, scalar_to_json_value s = Some v ∧ cell_of_scalar s = Some (cell_of_value v) ∧
             plain v ∧ partition_kind entry c v).

Fixpoint expr_ok (entry : ManifestEntry) (e : Expr) : Prop :=
  match e with
  | EBinary l OpAnd r | EBinary l OpOr r => expr_ok entry l ∧ expr_ok entry r
  | EBinary l op r =>
      (∀ c v, expr_column_name l = Some c → expr_literal_json r = Some v →
              transparent l r c v ∧ (op = OpEq → partition_kind entry c v)) ∧
      (∀ c v, expr_column_name r = Some c → expr_literal_json l = Some v →
              transparent r l c v ∧ (op = OpEq → partition_kind entry c v))
  | EInList (EColumn c) list _ => Forall (readable entry c) list
  | EBetween x _ low high =>
      ∀ c, expr_column_name x = Some c →
        (∀ v, expr_literal_json low = Some v → transparent x low c v) ∧
        (∀ v, expr_literal_json high = Some v → transparent x high c v)
  | _ => True
  end.

(** *** Operands the planner reads have a value *)

Lemma operand_column e c : expr_column_name e = Some c → ∃ a, operand e = Some a.
Proof.
  induction e; simpl; intros; simplify_eq; eauto; destruct IHe as [a ->]; simpl; eauto.
Qed.

Lemma scalar_has_cell s v : scalar_to_json_value s = Some v → ∃ a, cell_of_scalar s = Some a.
Proof. destruct s; simpl; intros; simplify_eq; eauto. Qed.

Lemma operand_literal e v : expr_literal_json e = Some v → ∃ a, operand e = Some a.
Proof.
  induction e; simpl; intros; simplify_eq; eauto using scalar_has_cell;
    destruct IHe as [a ->]; simpl; eauto.
Qed.

(** *** One condition *)

Lemma classify_sound entry f :
  entry_covers entry → row (qf_column f) ≠ CNull → Forall plain (filter_literals f) →
  Forall (partition_kind entry (qf_column f)) (default [] (qf_values f)) →
  filter_holds (row (qf_column f)) f = true → classify_condition entry f = None.
Proof.
  intros [Hst Hpt] Hn Hp Hk Hf. unfold classify_condition. destruct (qf_negated f); [done|].
  replace (match me_partition_values entry !! qf_column f with
           | Some v => classify_partition v f | None => None end) with (@None PruneReason).
  - destruct (me_column_stats entry !! qf_column f) as [st|] eqn:E; [|done].
    eauto using classify_stats_sound.
  - destruct (me_partition_values entry !! qf_column f) as [pv|] eqn:E; [|done].
    destruct (Hpt _ _ E) as [Ppv Ec]. symmetry. apply classify_partition_sound; rewrite ?Ec; auto.
    eapply Forall_impl; [exact Hk|]. intros v Hv. by apply Hv.
Qed.

Lemma compare3_swap op op' a b : swap_op op = Some op' → compare3 op a b = compare3 op' b a.
Proof.
  intros Hs. unfold compare3. rewrite (cell_cmp_antisym a b).
  destruct (cell_cmp a b) as [o|]; [|done]. by destruct op; simplify_eq/=; destruct o.
Qed.

(** A condition that is not negated holds on the row, and the planner can read its literals. *)
Definition condition_true (entry : ManifestEntry) (f : QueryFilter) : Prop :=
  qf_negated f = false → row (qf_column f) ≠ CNull ∧ filter_holds (row (qf_column f)) f = true
    ∧ Forall plain (filter_literals f) ∧ Forall (partition_kind entry (qf_column f)) (default [] (qf_values f)).

Lemma condition_kept entry o :
  entry_covers entry → (∀ f, o = Some f → condition_true entry f) → kept_by entry o = true.
Proof.
  intros He Hf. unfold kept_by, might_match_condition. destruct o as [f|]; [|done]. apply bool_decide_eq_true.
  destruct (qf_negated f) eqn:Hn; [unfold classify_condition; by rewrite Hn|].
  destruct (Hf f eq_refl Hn) as (? & ? & ? & ?). by apply classify_sound.
Qed.

Lemma filter_of_op_true entry c v op f :
  plain v → (op = OpEq → partition_kind entry c v) →
  filter_of_op c v op = Some f → compare3 op (row c) (cell_of_value v) = Some true →
  condition_true entry f.
Proof.
  intros Hv Hk Hf Ht Hneg. unfold compare3 in Ht.
  destruct (cell_cmp (row c) (cell_of_value v)) as [o|] eqn:Ho; [|done]. simpl in Ht.
  assert (row c ≠ CNull) as Hn by (intros E; by rewrite E in Ho).
  destruct op; simplify_eq/=; try done;
    (split_and!; simpl; auto using Forall_nil_2; [|by repeat constructor];
     unfold filter_holds, sat_min, sat_max, equals; simpl; rewrite ?Ho; by destruct o).
Qed.

Lemma swap_op_eq op op' : swap_op op = Some op' → op' = OpEq → op = OpEq.
Proof. by destruct op; intros; simplify_eq/=. Qed.

Lemma binary_true entry l op r f :
  expr_ok entry (EBinary l op r) → op ≠ OpAnd → op ≠ OpOr → eval (EBinary l op r) = Some true →
  convert_binary_expr_to_query_filter l op r = Some f → condition_true entry f.
Proof.
  intros Hok Ha Ho Ht. unfold convert_binary_expr_to_query_filter.
  destruct (col_val_op l op r) as [[[c v] op']|] eqn:Hcv; [|done]. simpl. intros Hf.
  assert ((∀ c v, expr_column_name l = Some c → expr_literal_json r = Some v →
              transparent l r c v ∧ (op = OpEq → partition_kind entry c v)) ∧
      (∀ c v, expr_column_name r = Some c → expr_literal_json l = Some v →
              transparent r l c v ∧ (op = OpEq → partition_kind entry c v))) as [H1 H2]
    by (by destruct op).
  assert (match operand l, operand r, test_op op Eq with
          | Some a, Some b, Some _ => compare3 op a b | _, _, _ => opaque (EBinary l op r) end = Some true)
    as Ht' by (by destruct op). clear Hok Ht.
  unfold col_val_op in Hcv. destruct (expr_column_name l) as [cl|] eqn:Hl.
  - destruct (expr_literal_json r) as [vr|] eqn:Hr; simplify_eq/=.
    destruct (H1 c v eq_refl eq_refl) as [[Hp Htr] Hk].
    destruct (operand_column _ _ Hl) as [a Ea], (operand_literal _ _ Hr) as [b Eb].
    rewrite Ea, Eb in Ht'. apply (filter_of_op_true entry c v op'); try done.
    unfold compare3 in *. rewrite <- (Htr a b) by done. destruct op'; by simplify_eq/=.
  - destruct (expr_column_name r) as [cr|] eqn:Hr; [|done]. simpl in Hcv.
    destruct (expr_literal_json l) as [vl|] eqn:Hll; [|done]. simpl in Hcv.
    destruct (swap_op op) as [op0|] eqn:Hs; simplify_eq/=.
    destruct (H2 c v eq_refl eq_refl) as [[Hp Htr] Hk].
    destruct (operand_column _ _ Hr) as [a Ea], (operand_literal _ _ Hll) as [b Eb].
    rewrite Ea, Eb in Ht'. apply (filter_of_op_true entry c v op'); eauto using swap_op_eq.
    assert (compare3 op b a = Some true) as Hc by (destruct op; by simplify_eq/=).
    rewrite (compare3_swap _ _ _ _ Hs) in Hc. unfold compare3 in *. by rewrite <- (Htr a b).
Qed.

Lemma readable_values entry c list bs :
  Forall (readable entry c) list → mapM operand list = Some bs →
  Forall plain (omap in_list_value list) ∧
  Forall (partition_kind entry c) (omap in_list_value list) ∧
  ∀ b, b ∈ bs → b ≠ CNull → ∃ v, v ∈ omap in_list_value list ∧ b = cell_of_value v.
Proof.
  intros Hl Hm%mapM_Some.
  induction Hm as [|x b l bs Hb Hm IH]; [split_and!; try constructor; set_solver|].
  apply Forall_cons in Hl as [(s & -> & Hs) Hl]. simpl in Hb.
  destruct (IH Hl) as (Hp & Hk & Hv). simpl.
  destruct Hs as [Hs|(v & Ev & Ec & Pv & Kv)].
  - rewrite Hs in Hb. injection Hb as <-.
    destruct (scalar_to_json_value s) as [v|] eqn:Ev; [|split_and!; [done..|set_solver]].
    exfalso. destruct s as [[]|[]|[]|[]|[]|[]|[]|[]|[]|[]|[]|[]|]; done.
  - rewrite Ev. rewrite Ec in Hb. injection Hb as <-. split_and!; [by constructor..|].
    intros b [->|Hin]%elem_of_cons Hb; [set_solver|]. destruct (Hv b Hin Hb) as (w & ? & ->). set_solver.
Qed.

Lemma in3_true a bs : in3 a bs = Some true → ∃ b, b ∈ bs ∧ cell_cmp a b = Some Eq.
Proof.
  unfold in3. destruct (existsb _ bs) eqn:E; [|by case_match]. intros _.
  apply existsb_exists in E as (b & Hb & He%bool_decide_eq_true). exists b.
  by rewrite list_elem_of_In.
Qed.

Lemma in_list_true entry x list negated f :
  expr_ok entry (EInList x list negated) → eval (EInList x list negated) = Some true →
  convert_in_list_to_query_filter x list negated = Some f → condition_true entry f.
Proof.
  intros Hok Ht. unfold convert_in_list_to_query_filter.
  destruct x as [c| | | | | | | | | | |]; try done.
  destruct (omap in_list_value list) as [|v0 vs] eqn:Hvs; [done|]. rewrite <- Hvs.
  intros [= <-]. destruct negated; [done|]. intros _. simpl in Ht, Hok.
  destruct (mapM operand list) as [bs|] eqn:Hm.
  2:{ exfalso. clear - Hok Hm. induction Hok as [|x l (s & -> & Hs) _ IH]; [done|].
      simpl in Hm. destruct Hs as [Hs|(v & _ & Hs & _)]; rewrite Hs in Hm; simpl in Hm;
        (destruct (mapM operand l); [done|by apply IH]). }
  destruct (readable_values _ _ _ _ Hok Hm) as (Hp & Hk & Hv).
  destruct (in3 (row c) bs) as [[]|] eqn:Hin; simplify_eq/=.
  apply in3_true in Hin as (b & Hb & Hcmp).
  assert (b ≠ CNull) as Hbn by (intros ->; by destruct (row c)).
  destruct (Hv b Hb Hbn) as (v & Hvin & ->).
  split_and!; simpl; auto.
  - intros E. by rewrite E in Hcmp.
  - unfold filter_holds. simpl. apply existsb_exists. exists v. split; [by apply list_elem_of_In|].
    unfold equals. by apply bool_decide_eq_true.
Qed.

Lemma and3_true a b : and3 a b = Some true → a = Some true ∧ b = Some true.
Proof. destruct a as [[]|], b as [[]|]; naive_solver. Qed.
Lemma or3_true a b : or3 a b = Some true → a = Some true ∨ b = Some true.
Proof. destruct a as [[]|], b as [[]|]; naive_solver. Qed.

Lemma between_true entry x low high f :
  expr_ok entry (EBetween x false low high) → eval (EBetween x false low high) = Some true →
  between_filter x low high = Some f → condition_true entry f.
Proof.
  intros Hok Ht. unfold between_filter.
  destruct (expr_column_name x) as [c|] eqn:Hx; [|done]. simpl.
  destruct (expr_literal_json low) as [lo|] eqn:Hlo; [|done].
  destruct (expr_literal_json high) as [hi|] eqn:Hhi; [|done]. simpl. intros [= <-] _.
  destruct (Hok c Hx) as [H1 H2]. destruct (H1 lo Hlo) as [Plo Tlo], (H2 hi Hhi) as [Phi Thi].
  destruct (operand_column _ _ Hx) as [a Ea], (operand_literal _ _ Hlo) as [b Eb],
    (operand_literal _ _ Hhi) as [d Ed].
  simpl in Ht. rewrite Ea, Eb, Ed in Ht. simpl in Ht. unfold compare3 in Ht.
  rewrite (Tlo a b), (Thi a d) in Ht by done.
  rewrite option_fmap_id in Ht. apply and3_true in Ht as [Hge Hle].
  destruct (cell_cmp (row c) (cell_of_value lo)) as [o|] eqn:Eo; [|done].
  destruct (cell_cmp (row c) (cell_of_value hi)) as [o'|] eqn:Eo'; [|done]. simpl in Hge, Hle.
  split_and!; simpl.
  - intros E. by rewrite E in Eo.
  - unfold filter_holds, sat_min, sat_max. simpl. rewrite Eo, Eo'. by destruct o, o'.
  - by repeat constructor.
  - constructor.
Qed.

Lemma elem_of_option_list {A} (o : option A) x : x ∈ option_list o ↔ o = Some x.
Proof. destruct o as [y|]; cbn; [rewrite list_elem_of_singleton; naive_solver|]. split; [by intros ?%not_elem_of_nil|done]. Qed.
(** Every condition that is extracted from a filter that is true. *)
Lemma conditions_true entry e f :
  expr_ok entry e → eval e = Some true → f ∈ extract_and_conditions e → condition_true entry f.
Proof.
  induction e as [| |l IHl op r IHr| | | | | |x _ list negated|x _ [] lo _ hi _| |];
    intros Hok Ht Hf; cbn [extract_and_conditions] in Hf; try (by apply not_elem_of_nil in Hf).
  - case_decide as Hop.
    + subst op. destruct Hok as [Hl Hr]. apply and3_true in Ht as [H1 H2]. apply elem_of_app in Hf as [Hf|Hf]; auto.
    + destruct (decide (op = OpOr)) as [->|Hor]; [|apply elem_of_option_list in Hf; by eapply binary_true].
      unfold convert_binary_expr_to_query_filter, col_val_op in Hf. exfalso. revert Hf. clear.
      destruct (expr_column_name l), (expr_literal_json r), (expr_column_name r), (expr_literal_json l); cbn; apply not_elem_of_nil.
  - apply elem_of_option_list in Hf. by eapply in_list_true.
  - apply elem_of_option_list in Hf. by eapply between_true.
Qed.

Lemma might_match_sound entry e :
  entry_covers entry → expr_ok entry e → eval e = Some true → might_match_df_expr entry e = true.
Proof.
  intros He. induction e as [| |l IHl op r IHr| | | | | |x _ list negated|x _ [] lo _ hi _| |];
    intros Hok Ht; try done.
  - destruct op; try (by apply condition_kept; [done|intros f; by apply binary_true]); destruct Hok as [Hl Hr].
    + apply and3_true in Ht as [H1 H2]. simpl. by rewrite IHl, IHr.
    + apply or3_true in Ht as [H1|H1]; simpl; [by rewrite IHl|]. rewrite IHr by done. apply orb_true_r.
  - apply condition_kept; [done|]. intros f. by apply in_list_true.
  - apply condition_kept; [done|]. intros f. by apply between_true.
Qed.

End Row.

(** ** The scan keeps every matching row *)

Lemma within_box_no_radius q lo hi acc : within_box q lo hi None acc = true.
Proof. revert lo hi acc. induction q as [|x q IH]; intros lo hi acc; simpl; [done|apply IH]. Qed.

Lemma might_match_vector_no_radius entry p : vp_radius p = None → might_match_vector entry p = true.
Proof.
  intros Hr. unfold might_match_vector. rewrite Hr. simpl.
  repeat case_match; auto using within_box_no_radius.
Qed.

(** C4: An entry is among the candidates of [prune_entries], whatever the other entries, if
    it holds a row on which the filter is true (SQL, three-valued), under these conditions:
    the entry's statistics bound the row ([stats_cover]); its partition values are plain
    values equal to the row's columns, so identity transforms only
    ([bucket_partition_is_pruned] otherwise); every comparison of a column with a literal has
    the outcome it has without its casts ([cast_is_ignored_by_pruning]); a literal of an
    equality or IN list on a partition column is of the kind of the partition value
    ([float_literal_misses_int_partition]); every element of an IN list on a column is a
    readable literal or null ([in_list_drops_unreadable]); and vector searches carry no
    radius. *)
Theorem prune_keeps_matching row cast opaque entries entry e vps :
  entry ∈ entries →
  entry_covers row entry →
  expr_ok row cast entry e →
  Forall (fun p => vp_radius p = None) (default [] vps) →
  eval row cast opaque e = Some true →
  ∃ idx, (entry, idx) ∈ prune_entries entries (Some e) vps.
Proof.
  intros Hin Hc Hok Hv Ht. exists (selected_index (Some e) entry).
  unfold prune_entries. apply list_elem_of_fmap. exists entry. split; [done|].
  apply list_elem_of_filter. split; [|done]. unfold matches.
  rewrite (might_match_sound row cast opaque) by done. simpl.
  destruct vps as [vps|]; [|done]. apply forallb_forall. intros p Hp.
  apply might_match_vector_no_radius. rewrite Forall_forall in Hv. by apply Hv, list_elem_of_In.
Qed.

(** ** EXPLAIN

    EXPLAIN reports, for a pruned entry, the first filter of the AND-list that rules it
    out. *)

Definition explain_reason (entry : ManifestEntry) (e : Expr) : option PruneReason :=
  head (omap (classify_condition entry) (extract_and_conditions e)).

(** Neither OR nor anything the AND-list leaves out. *)
Fixpoint or_free (e : Expr) : bool :=
  match e with
  | EBinary l op r => negb (bool_decide (op = OpOr)) && (if decide (op = OpAnd) then or_free l && or_free r else true)
  | _ => true
  end.

Lemma head_omap_None {A B} (f : A → option B) l : head (omap f l) = None ↔ Forall (fun x => f x = None) l.
Proof.
  induction l as [|x l IH]; simpl; [by split; [constructor|]|].
  destruct (f x) eqn:E; simpl; [by split; [|inversion 1; congruence]|].
  rewrite IH. split; [by constructor|by inversion 1].
Qed.

Lemma kept_by_list entry o :
  kept_by entry o = true ↔ Forall (fun f => classify_condition entry f = None) (option_list o).
Proof.
  destruct o as [f|]; simpl; [|by split; [constructor|]].
  unfold might_match_condition. rewrite bool_decide_eq_true, Forall_singleton. done.
Qed.

Lemma might_match_conditions entry e :
  might_match_df_expr entry e = true →
  or_free e = true →
  Forall (fun f => classify_condition entry f = None) (extract_and_conditions e).
Proof.
  induction e as [| |l IHl op r IHr| | | | | |x _ list negated|x _ [] lo _ hi _| |];
    intros Hm Ho; try constructor.
  - simpl in *. apply andb_true_iff in Ho as [Hor Ho].
    destruct op; simpl in *; try done; try by apply kept_by_list.
    apply andb_true_iff in Hm as [? ?], Ho as [? ?]. apply Forall_app. split; auto.
  - by apply kept_by_list.
  - by apply kept_by_list.
Qed.

Lemma conditions_might_match entry e :
  Forall (fun f => classify_condition entry f = None) (extract_and_conditions e) →
  or_free e = true → might_match_df_expr entry e = true.
Proof.
  induction e as [| |l IHl op r IHr| | | | | |x _ list negated|x _ [] lo _ hi _| |];
    intros Hf Ho; try done.
  - simpl in *. apply andb_true_iff in Ho as [Hor Ho].
    destruct op; simpl in *; try done; try by apply kept_by_list.
    apply Forall_app in Hf as [? ?]. apply andb_true_iff in Ho as [? ?]. apply andb_true_iff. auto.
  - by apply kept_by_list.
  - by apply kept_by_list.
Qed.

(** On a filter without OR, EXPLAIN names a reason for an entry exactly when the
    scan prunes it. *)
Theorem explain_agrees_with_scan entry e :
  or_free e = true → is_Some (explain_reason entry e) ↔ might_match_df_expr entry e = false.
Proof.
  intros Ho. rewrite <- not_eq_None_Some. unfold explain_reason. rewrite head_omap_None.
  destruct (might_match_df_expr entry e) eqn:Hm; split; try done.
  - intros Hn. destruct Hn. by apply might_match_conditions.
  - intros _ Hf. apply conditions_might_match in Hf; [congruence|done].
Qed.

(** ** Coercion of literals does not change the plan *)

Section Coercion.

Context (field_type : string → option string) (scalar_type : ScalarValue → string).

Abbreviation coerce := (coerce_expr_literals field_type scalar_type).

Lemma promote_Some c lit e :
  promote field_type scalar_type c lit = Some e → ∃ ty, e = ECast c ty.
Proof.
  unfold promote. intros H. destruct c as [n| | | | | | | | | | |]; try done.
  destruct lit as [|s| | | | | | | | | |]; try done.
  destruct (field_type n); simpl in H; [|done]. case_match; simplify_eq. eauto.
Qed.

Lemma coerce_comparison_names l r l' r' :
  coerce_comparison field_type scalar_type l r = (l', r') →
  expr_column_name l' = expr_column_name l ∧ expr_column_name r' = expr_column_name r ∧
  expr_literal_json l' = expr_literal_json l ∧ expr_literal_json r' = expr_literal_json r.
Proof.
  unfold coerce_comparison. destruct (promote _ _ l r) as [e|] eqn:H1.
  - intros [= <- <-]. apply promote_Some in H1 as [ty ->]. done.
  - destruct (promote _ _ r l) as [e|] eqn:H2; intros [= <- <-]; [|done].
    apply promote_Some in H2 as [ty ->]. done.
Qed.

Lemma coerce_names e :
  expr_column_name (coerce e) = expr_column_name e ∧ expr_literal_json (coerce e) = expr_literal_json e.
Proof.
  induction e; simpl; try done. destruct (is_comparison op); [|done].
  destruct (coerce_comparison _ _ _ _). done.
Qed.

Lemma coerce_binary l op r :
  ∃ l' r', coerce (EBinary l op r) = EBinary l' op r' ∧
    convert_binary_expr_to_query_filter l' op r' = convert_binary_expr_to_query_filter l op r ∧
    (is_comparison op = false → l' = coerce l ∧ r' = coerce r).
Proof.
  destruct (coerce_names l) as [Hcl Hll], (coerce_names r) as [Hcr Hlr].
  unfold convert_binary_expr_to_query_filter, col_val_op. simpl.
  destruct (is_comparison op) eqn:Hop.
  - destruct (coerce_comparison field_type scalar_type (coerce l) (coerce r)) as [l' r'] eqn:Hc.
    apply coerce_comparison_names in Hc as (E1 & E2 & E3 & E4).
    exists l', r'. rewrite E1, E2, E3, E4, Hcl, Hcr, Hll, Hlr. done.
  - exists (coerce l), (coerce r). rewrite Hcl, Hcr, Hll, Hlr. done.
Qed.

(** Casting the columns of a filter to the types of its literals, as the read
    path does before it evaluates the filter, changes neither which entries the plan
    keeps nor the filters extracted for index lookups. *)
Theorem coerce_keeps_plan entry e :
  might_match_df_expr entry (coerce e) = might_match_df_expr entry e ∧
  extract_and_conditions (coerce e) = extract_and_conditions e.
Proof.
  induction e as [| |l IHl op r IHr| | | | | | | | |]; try done.
  destruct (coerce_binary l op r) as (l' & r' & -> & Hc & Hlr).
  destruct IHl as [Ml El], IHr as [Mr Er]. simpl. rewrite Hc.
  destruct op; try done; destruct (Hlr eq_refl) as [-> ->]; by rewrite ?Ml, ?Mr, ?El, ?Er.
Qed.

End Coercion.

(** ** Filters as expressions *)

(** The three-valued meaning of a filter, negation included. *)
Definition filter_meaning (c : Cell) (f : QueryFilter) : option bool :=
  (if qf_negated f then negb else id) <$>
  match qf_values f with
  | Some vs => in3 c (cell_of_value <$> vs)
  | None =>
      and3 (match qf_min f with
            | Some m => compare3 (if qf_min_inclusive f then OpGtEq else OpGt) c (cell_of_value m)
            | None => Some true
            end)
           (match qf_max f with
            | Some m => compare3 (if qf_max_inclusive f then OpLtEq else OpLt) c (cell_of_value m)
            | None => Some true
            end)
  end.

(** A literal that has a scalar of its own. *)
Definition scalar_literal (v : Value) : Prop :=
  plain v ∧ match v with VNull | VOther _ => False | _ => True end.

Section Meaning.

Context (col : string → string).
Context (row : string → Cell) (cast : string → Cell → Cell) (opaque : Expr → option bool).

Lemma json_to_scalar_literal v :
  scalar_literal v →
  ∃ s, json_to_scalar v = ELiteral s ∧ operand row cast (ELiteral s) = Some (cell_of_value v).
Proof.
  intros [Hp Hv]. destruct v as [|b|n|s|?]; try done; [by eexists..| |by eexists].
  simpl. destruct n as [n|n|f]; simpl in *; [rewrite bool_decide_true by lia| |]; by eexists.
Qed.

Lemma eval_compare op c v :
  scalar_literal v → is_comparison op = true →
  eval row cast opaque (EBinary (EColumn c) op (json_to_scalar v)) =
  compare3 op (row c) (cell_of_value v).
Proof.
  intros (s & -> & Hs)%json_to_scalar_literal Hop. simpl in *. rewrite Hs.
  by destruct op.
Qed.

Lemma mapM_literals vs :
  Forall scalar_literal vs → mapM (operand row cast) (json_to_scalar <$> vs) = Some (cell_of_value <$> vs).
Proof.
  intros Hvs. apply mapM_Some. induction Hvs as [|v vs Hv Hvs IH]; [constructor|].
  constructor; [|done]. destruct (json_to_scalar_literal v Hv) as (s & -> & Hs). done.
Qed.

Lemma and3_true_l b : and3 (Some true) b = b.
Proof. by destruct b as [[]|]. Qed.
Lemma and3_true_r b : and3 b (Some true) = b.
Proof. by destruct b as [[]|]. Qed.

Lemma in3_singleton c v : in3 c [v] = compare3 OpEq c v.
Proof.
  unfold in3, compare3. simpl. destruct (cell_cmp c v) as [[]|]; done.
Qed.

Lemma not_eq_negates c v : compare3 OpNotEq c v = negb <$> compare3 OpEq c v.
Proof. unfold compare3. by destruct (cell_cmp c v) as [[]|]. Qed.

Lemma eval_and l r :
  eval row cast opaque (EBinary l OpAnd r) = and3 (eval row cast opaque l) (eval row cast opaque r).
Proof. done. Qed.

Lemma eval_range f :
  Forall scalar_literal (filter_literals f) → qf_values f = None →
  eval row cast opaque (default (ELiteral (SBoolean (Some true))) (range_expr col f)) =
  and3 (match qf_min f with
        | Some m => compare3 (if qf_min_inclusive f then OpGtEq else OpGt) (row (col (qf_column f))) (cell_of_value m)
        | None => Some true
        end)
       (match qf_max f with
        | Some m => compare3 (if qf_max_inclusive f then OpLtEq else OpLt) (row (col (qf_column f))) (cell_of_value m)
        | None => Some true
        end).
Proof.
  unfold range_expr. intros (Hmin & Hmax & _)%literals_Forall Hv.
  destruct (qf_min f) as [m|], (qf_max f) as [x|];
    cbn [fmap option_fmap option_map default from_option id].
  - rewrite eval_and, !eval_compare by (auto || by destruct (qf_min_inclusive f), (qf_max_inclusive f)). done.
  - rewrite eval_compare, and3_true_r by (auto || by destruct (qf_min_inclusive f)). done.
  - rewrite eval_compare, and3_true_l by (auto || by destruct (qf_max_inclusive f)). done.
  - done.
Qed.

(** The expression of a filter has the filter's meaning. *)
Lemma to_expr_meaning f :
  Forall scalar_literal (filter_literals f) →
  eval row cast opaque (to_expr col f) = filter_meaning (row (col (qf_column f))) f.
Proof.
  intros Hl. unfold to_expr, filter_meaning.
  destruct (qf_values f) as [vs|] eqn:Hv.
  - assert (Forall scalar_literal vs) as Hvs.
    { apply literals_Forall in Hl as (_ & _ & Hvs). apply Forall_forall. eauto. }
    assert (∀ vs, Forall scalar_literal vs →
      eval row cast opaque (EInList (EColumn (col (qf_column f))) (json_to_scalar <$> vs) (qf_negated f)) =
      (if qf_negated f then negb else id) <$> in3 (row (col (qf_column f))) (cell_of_value <$> vs)) as Hin.
    { intros vs' Hvs'. cbn [eval operand]. by rewrite mapM_literals. }
    destruct vs as [|v [|v' vs]]; [by apply (Hin [])| |by apply (Hin (v :: v' :: vs))].
    apply Forall_cons in Hvs as [Hv1 _]. rewrite eval_compare; [|done|by destruct (qf_negated f)].
    cbn [fmap list_fmap]. rewrite in3_singleton. destruct (qf_negated f);
      [apply not_eq_negates|by rewrite option_fmap_id].
  - destruct (qf_negated f); [cbn [eval]|]; rewrite eval_range by done;
      [done|by rewrite option_fmap_id].
Qed.

Lemma eval_fold fs e :
  Forall (fun f => Forall scalar_literal (filter_literals f)) fs →
  eval row cast opaque (foldl (fun e f => EBinary e OpAnd (to_expr col f)) e fs) = Some true ↔
  eval row cast opaque e = Some true ∧
  Forall (fun f => filter_meaning (row (col (qf_column f))) f = Some true) fs.
Proof.
  intros Hfs. revert e. induction Hfs as [|f fs Hf Hfs IH]; intros e; simpl.
  { rewrite Forall_nil. tauto. }
  rewrite IH, Forall_cons, eval_and, to_expr_meaning by done. split.
  - intros [[H1 H2]%and3_true H3]. done.
  - intros (-> & -> & H3). done.
Qed.

(** C36: the expression [from_filters] builds from a list of filters is true on a row
    exactly when every filter, negations included, is true on it. *)
Theorem from_filters_meaning fs e :
  Forall (fun f => Forall scalar_literal (filter_literals f)) fs →
  from_filters col fs = Some e →
  eval row cast opaque e = Some true ↔
  Forall (fun f => filter_meaning (row (col (qf_column f))) f = Some true) fs.
Proof.
  destruct fs as [|f fs]; [done|]. intros [Hf Hfs]%Forall_cons [= <-].
  by rewrite eval_fold, to_expr_meaning, Forall_cons.
Qed.

End Meaning.

(** ** The columns a filter reads *)

(** No BETWEEN inside. *)
Fixpoint between_free (e : Expr) : bool :=
  match e with
  | EBinary l _ r => between_free l && between_free r
  | ENot e => between_free e
  | EBetween _ _ _ _ => false
  | _ => true
  end.

Definition agree (cols : gset string) (r r' : string → Cell) : Prop := ∀ c, c ∈ cols → r c = r' c.

Lemma agree_mono cols cols' r r' : cols ⊆ cols' → agree cols' r r' → agree cols r r'.
Proof. intros H Ha c Hc. apply Ha. set_solver. Qed.

Section Columns.

Context (cast : string → Cell → Cell) (opaque : (string → Cell) → Expr → option bool).
Context (opaque_reads : ∀ e r r', agree (find_column_names e) r r' → opaque r e = opaque r' e).

Lemma operand_reads e r r' :
  agree (find_column_names e) r r' → operand r cast e = operand r' cast e.
Proof.
  induction e; simpl; intros Ha; try done; [by rewrite (Ha name) by set_solver|..];
    by rewrite IHe.
Qed.

Lemma operands_read elems e n r r' :
  agree (find_column_names (EInList e elems n)) r r' →
  mapM (operand r cast) elems = mapM (operand r' cast) elems.
Proof.
  intros Ha. apply (agree_mono (find_column_names (EInList (EOther "") elems n))) in Ha; [|set_solver].
  induction elems as [|x elems IH]; [done|]. cbn [mapM].
  rewrite (operand_reads x r r') by (eapply agree_mono; [|exact Ha]; simpl; set_solver).
  rewrite IH; [done|]. eapply agree_mono; [|exact Ha]. simpl. set_solver.
Qed.

(** A filter without BETWEEN depends on no column outside
    [get_referenced_columns], so reading those columns is enough to evaluate it. *)
Theorem referenced_columns_suffice e r r' :
  between_free e = true → agree (find_column_names e) r r' →
  eval r cast (opaque r) e = eval r' cast (opaque r') e.
Proof.
  induction e as [|s|l IHl op r0 IHr|e IHe| | | | |x _ elems n| | |]; intros Hb Ha; try done;
    try (by apply (opaque_reads _ r r')).
  - destruct s; try done; by apply (opaque_reads _ r r').
  - simpl in Hb. apply andb_true_iff in Hb as [Hbl Hbr].
    assert (agree (find_column_names l) r r' ∧ agree (find_column_names r0) r r') as [Hl Hr]
      by (split; (eapply agree_mono; [|exact Ha]; simpl; set_solver)).
    pose proof (opaque_reads _ _ _ Ha) as Ho. simpl.
    rewrite (operand_reads l r r'), (operand_reads r0 r r'), IHl, IHr, Ho by done. done.
  - simpl in *. by rewrite IHe.
  - cbn [eval]. rewrite (operands_read elems x n r r') by done.
    rewrite (operand_reads x r r') by (eapply agree_mono; [|exact Ha]; simpl; set_solver).
    by rewrite (opaque_reads _ _ _ Ha).
Qed.

End Columns.

(** BETWEEN is not looked into: the column of [id BETWEEN 1 AND 2] is not among those
    read, nor does [required_columns] see through a cast. *)
Example between_column_not_referenced :
  find_column_names (EBetween (EColumn "id") false (ELiteral (SInt64 (Some 1))) (ELiteral (SInt64 (Some 2)))) = ∅.
Proof. done. Qed.
Example cast_column_not_required :
  required_columns (EBinary (ECast (EColumn "id") "Int64") OpGt (ELiteral (SInt64 (Some 1)))) = [].
Proof. done. Qed.

(** ** Concrete plans *)

Definition four_and_half : float := S754_finite false (9 * 2 ^ 49) (-50).

(** A file of the partition [name = a] with [id] between 0 and 9. *)
Definition entry0 : ManifestEntry :=
  {| me_file_path := "seg.parquet"; me_file_size_bytes := 1; me_record_count := 10;
     me_file_checksum := None; me_index_files := []; me_delete_files := [];
     me_column_stats :=
       {["id" := {| cs_min := Some (MInt64 0); cs_max := Some (MInt64 9); cs_null_count := 0;
                    cs_distinct_count := None; cs_vector_stats := None |}]};
     me_partition_values := {["name" := VString "a"]}; me_clustering := Clustering_default;
     me_first_row_id := None |}.
Definition row0 (c : string) : Cell :=
  if bool_decide (c = "id") then CInt 5
  else if bool_decide (c = "name") then CString "a" else CNull.
Definition cast0 (ty : string) (c : Cell) : Cell :=
  match c with CInt z => if bool_decide (ty = "Float64") then CFloat (Z_as_f64 z) else c | c => c end.

(** [CAST(id AS Float64) > 4.5 AND (name = 'a' OR 7 < id)] *)
Definition expr0 : Expr :=
  EBinary (EBinary (ECast (EColumn "id") "Float64") OpGt (ELiteral (SFloat64 (Some four_and_half))))
    OpAnd
    (EBinary (EBinary (EColumn "name") OpEq (ELiteral (SUtf8 (Some "a")))) OpOr
             (EBinary (ELiteral (SInt64 (Some 7))) OpLt (EColumn "id"))).

Lemma entry0_covers : entry_covers row0 entry0.
Proof.
  split; intros c x Hx; simpl in Hx; apply lookup_singleton_Some in Hx as [<- <-].
  - split; [by vm_compute|intros m [= <-]|intros m [= <-]]; (split; [by vm_compute|done]).
  - by vm_compute.
Qed.

Lemma expr0_ok : expr_ok row0 cast0 entry0 expr0.
Proof.
  simpl. unfold transparent, partition_kind.
  split_and!; intros c v Hc Hv; try done; injection Hc as <-; injection Hv as <-;
    (split; [|try done]); try (split; [by vm_compute|by intros a b [= <-] [= <-]; vm_compute]).
Qed.

Lemma prune_keeps_matching_witness :
  eval row0 cast0 (fun _ => None) expr0 = Some true ∧
  ∃ idx, (entry0, idx) ∈ prune_entries [entry0] (Some expr0) None.
Proof.
  split; [by vm_compute|].
  apply (prune_keeps_matching row0 cast0 (fun _ => None));
    [by constructor|apply entry0_covers|apply expr0_ok|by constructor|by vm_compute].
Defined.

Lemma referenced_columns_suffice_witness :
  let r c := if bool_decide (c = "unused") then CInt 1 else row0 c in
  find_column_names expr0 = {["id"; "name"]} ∧
  eval r cast0 (fun _ => None) expr0 = eval row0 cast0 (fun _ => None) expr0.
Proof.
  intros r. split; [by vm_compute|].
  apply (referenced_columns_suffice cast0 (fun _ _ => None)); [done|by vm_compute|].
  intros c Hc. unfold r. rewrite bool_decide_false; [done|]. intros ->. by vm_compute in Hc.
Defined.

Lemma from_filters_meaning_witness :
  let fs := [cmp_filter "id" (Some (VNumber (PosInt 3))) true None true None false;
             cmp_filter "name" None false None false (Some [VString "b"; VString "c"]) true] in
  ∃ e, from_filters id fs = Some e ∧
    (eval row0 cast0 (fun _ => None) e = Some true ↔
     Forall (fun f => filter_meaning (row0 (qf_column f)) f = Some true) fs).
Proof.
  intros fs. eexists. split; [reflexivity|].
  apply (from_filters_meaning id row0 cast0 (fun _ => None) fs); [|reflexivity].
  repeat constructor; done.
Defined.

Lemma explain_agrees_with_scan_witness :
  let e := EBetween (EColumn "id") false (ELiteral (SInt64 (Some 20))) (ELiteral (SInt64 (Some 32))) in
  explain_reason entry0 e = Some StatsBelowMin ∧
  (is_Some (explain_reason entry0 e) ↔ might_match_df_expr entry0 e = false).
Proof. intros e. split; [by vm_compute|]. by apply explain_agrees_with_scan. Defined.

(** ** Filters whose matching rows are pruned

    Each hypothesis of [prune_keeps_matching] is needed. *)

(** An element of an IN list that is not a readable literal is left out of the
    filter: [id IN (20, n)] prunes a file whose rows have [id = n = 5]. *)
Theorem in_list_drops_unreadable :
  let e := EInList (EColumn "id") [ELiteral (SInt64 (Some 20)); EColumn "n"] false in
  let row c := if bool_decide (c = "n") then CInt 5 else row0 c in
  entry_covers row entry0 ∧
  (∀ cast opaque, eval row cast opaque e = Some true) ∧
  prune_entries [entry0] (Some e) None = [].
Proof.
  intros e row. split_and!; [|done|by vm_compute].
  split; intros c x Hx; simpl in Hx; apply lookup_singleton_Some in Hx as [<- <-].
  - split; [by vm_compute|intros m [= <-]|intros m [= <-]]; (split; [by vm_compute|done]).
  - by vm_compute.
Qed.

(** A file whose only value of [x] is 4.5. *)
Definition entry_half : ManifestEntry :=
  {| me_file_path := "seg.parquet"; me_file_size_bytes := 1; me_record_count := 10;
     me_file_checksum := None; me_index_files := []; me_delete_files := [];
     me_column_stats :=
       {["x" := {| cs_min := Some (MFloat64 four_and_half); cs_max := Some (MFloat64 four_and_half);
                   cs_null_count := 0; cs_distinct_count := None; cs_vector_stats := None |}]};
     me_partition_values := ∅; me_clustering := Clustering_default; me_first_row_id := None |}.

(** A cast around the column is dropped: [CAST(x AS Int64) = 4] prunes the file
    whose only value of [x] is 4.5, although the cast makes it 4. *)
Theorem cast_is_ignored_by_pruning :
  let e := EBinary (ECast (EColumn "x") "Int64") OpEq (ELiteral (SInt64 (Some 4))) in
  let row (_ : string) := CFloat four_and_half in
  let truncate (_ : string) (c : Cell) :=
    match c with CFloat (S754_finite false m e) => CInt (Zpos m / 2 ^ (- e)) | c => c end in
  entry_covers row entry_half ∧
  eval row truncate (fun _ => None) e = Some true ∧
  prune_entries [entry_half] (Some e) None = [].
Proof.
  intros e row truncate. split_and!; [|by vm_compute|by vm_compute].
  split; intros c x Hx; simpl in Hx; [|by rewrite lookup_empty in Hx].
  apply lookup_singleton_Some in Hx as [<- <-].
  split; [by vm_compute|intros m [= <-]|intros m [= <-]]; (split; [by vm_compute|by vm_compute]).
Qed.

(** An integer partition value is not equal to the float literal of the same
    value: [n = 1.0] prunes the partition [n = 1], whose rows satisfy it. *)
Theorem float_literal_misses_int_partition :
  let e := EBinary (ECast (EColumn "n") "Float64") OpEq (ELiteral (SFloat64 (Some (Z_as_f64 1)))) in
  let entry := {| me_file_path := "n=1/seg.parquet"; me_file_size_bytes := 1; me_record_count := 10;
     me_file_checksum := None; me_index_files := []; me_delete_files := []; me_column_stats := ∅;
     me_partition_values := {["n" := VNumber (PosInt 1)]}; me_clustering := Clustering_default;
     me_first_row_id := None |} in
  let row (_ : string) := CInt 1 in
  entry_covers row entry ∧
  eval row cast0 (fun _ => None) e = Some true ∧
  prune_entries [entry] (Some e) None = [].
Proof.
  intros e entry row. split_and!; [|by vm_compute|by vm_compute].
  split; intros c x Hx; simpl in Hx; [by rewrite lookup_empty in Hx|].
  apply lookup_singleton_Some in Hx as [<- <-]. by vm_compute.
Qed.
