(* ===== verification/FilterText.v ===== *)
(** * Filters as text ([src/src/core/planner.rs], [QueryFilter::parse])

    The standard library's parsers the planner and the reader use ([str::parse::<i64>],
    [str::parse::<f64>], [split_whitespace], [str::from_utf8]), and the filter syntax
    [column op value] with its AND-joined form. *)

From Stdlib Require Import Floats.SpecFloat.
From Stdlib Require Import Strings.Ascii.
From S2P Require Import Prelude Json ManifestTypes Planner PlannerSpec.

Local Open Scope Z_scope.

(** ** Numbers *)

(** [str::parse::<i64>]: an optional sign, at least one digit, no overflow *)
Definition parse_i64 (s : string) : option Z :=
  let '(neg, digits) :=
    match s with
    | String.String "-"%char s' => (true, s')
    | String.String "+"%char s' => (false, s')
    | _ => (false, s)
    end in
  match digits with
  | EmptyString => None
  | _ => n ← parse_digits 0 digits;
         let z := if neg : bool then - n else n in
         if decide (- 2 ^ 63 ≤ z ≤ i64_max) then Some z else None
  end.

(** The digits a text starts with, as (value, count), and the rest. *)
Fixpoint take_digits (s : string) (acc count : Z) : Z * Z * string :=
  match s with
  | String.String c s' =>
      match digit_val c with
      | Some d => take_digits s' (acc * 10 + d) (count + 1)
      | None => (acc, count, s)
      end
  | EmptyString => (acc, count, s)
  end.

(** [n / d] to the nearest [f64], ties to even. *)
Definition ratio_as_f64 (neg : bool) (n d : Z) : float :=
  if bool_decide (n = 0) then S754_zero neg
  else
    let e := Z.log2 n - Z.log2 d - 54 in
    let num := if bool_decide (e < 0) then n * 2 ^ (- e) else n in
    let den := if bool_decide (e < 0) then d else d * 2 ^ e in
    let r := num mod den in
    binary_round_aux 53 1024 neg (num / den) e
      (if bool_decide (r = 0) then loc_Exact else loc_Inexact (2 * r ?= den)).

(** [m * 10^e], of [count] digits; out of range it is infinite or zero. *)
Definition decimal_as_f64 (neg : bool) (m count e : Z) : float :=
  if bool_decide (m = 0) then S754_zero neg
  else if bool_decide (400 < count + e) then S754_infinity neg
  else if bool_decide (count + e < -400) then S754_zero neg
  else if bool_decide (0 ≤ e) then ratio_as_f64 neg (m * 10 ^ e) 1
  else ratio_as_f64 neg m (10 ^ (- e)).

(** The exponent part, at the end of a number. *)
Definition parse_exponent (s : string) : option Z :=
  match s with
  | EmptyString => Some 0
  | String.String c s =>
      if ascii_to_lower c =? "e"%char then
        let '(neg, digits) :=
          match s with
          | String.String "-"%char s' => (true, s')
          | String.String "+"%char s' => (false, s')
          | _ => (false, s)
          end in
        match digits with
        | EmptyString => None
        | _ => n ← parse_digits 0 digits; Some (if neg : bool then - n else n)
        end
      else None
  end%char.

(** [str::parse::<f64>] *)
Definition parse_f64 (s : string) : option float :=
  let '(neg, s) :=
    match s with
    | String.String "-"%char s' => (true, s')
    | String.String "+"%char s' => (false, s')
    | _ => (false, s)
    end in
  let low := to_ascii_lowercase s in
  if bool_decide (low = "inf" ∨ low = "infinity") then Some (S754_infinity neg)
  else if bool_decide (low = "nan") then Some S754_nan
  else
    let '(int, int_count, rest) := take_digits s 0 0 in
    let '(m, frac_count, rest) :=
      match rest with
      | String.String "."%char rest => take_digits rest int 0
      | _ => (int, 0, rest)
      end in
    if bool_decide (int_count + frac_count = 0) then None
    else e ← parse_exponent rest; Some (decimal_as_f64 neg m (int_count + frac_count) (e - frac_count)).

Example parse_f64_half : parse_f64 "-4.5" = Some (S754_finite true (9 * 2 ^ 49) (-50)).
Proof. reflexivity. Qed.
Example parse_f64_exp : parse_f64 "1e3" = Some (Z_as_f64 1000).
Proof. reflexivity. Qed.
Example parse_f64_tenth : parse_f64 ".1" = Some (S754_finite false 7205759403792794 (-56)).
Proof. reflexivity. Qed.
Example parse_f64_point : parse_f64 "." = None. Proof. reflexivity. Qed.
Example parse_f64_big : parse_f64 "9007199254740993" = Some (Z_as_f64 9007199254740992).
Proof. reflexivity. Qed.

(** ** Text *)

Definition bytes_of (s : string) : list Z :=
  (fun c => Z.of_N (Ascii.N_of_ascii c)) <$> String.list_ascii_of_string s.
Definition of_bytes (l : list Z) : string :=
  String.string_of_list_ascii ((fun b => Ascii.ascii_of_N (Z.to_N b)) <$> l).

(** [split_whitespace]: [cur] is the current word, reversed; each step consumes a byte, so
    the length is enough fuel. *)
Fixpoint words (fuel : nat) (l cur : list Z) : list (list Z) :=
  let flush := match cur with [] => [] | _ => [reverse cur] end in
  match fuel, l with
  | _, [] | O, _ => flush
  | S fuel, b :: l' =>
      match ws_head l with
      | Some rest => flush ++ words fuel rest []
      | None => words fuel l' (b :: cur)
      end
  end.
Definition split_whitespace (s : string) : list string :=
  of_bytes <$> words (length (bytes_of s)) (bytes_of s) [].

(** [split(" AND ")]; the length is enough fuel *)
Fixpoint split_on (sep : string) (fuel : nat) (s cur : string) : list string :=
  match fuel, s with
  | _, EmptyString | O, _ => [cur]
  | S fuel, String.String c s' =>
      match strip_prefix sep s with
      | Some rest => cur :: split_on sep fuel rest EmptyString
      | None => split_on sep fuel s' (cur +:+ String.String c EmptyString)
      end
  end.

(** [str::from_utf8]: well-formed UTF-8 *)
Definition is_cont (b : Z) : bool := bool_decide (128 ≤ b ≤ 191).
Fixpoint utf8_valid (fuel : nat) (l : list Z) : bool :=
  match fuel with
  | O => bool_decide (l = [])
  | S fuel =>
      match l with
      | [] => true
      | b :: l1 =>
          if bool_decide (b ≤ 127) then utf8_valid fuel l1
          else if bool_decide (194 ≤ b ≤ 223) then
            match l1 with c :: l2 => is_cont c && utf8_valid fuel l2 | _ => false end
          else if bool_decide (224 ≤ b ≤ 239) then
            match l1 with
            | c :: d :: l3 =>
                is_cont c && is_cont d &&
                negb (bool_decide (b = 224 ∧ c < 160)) && negb (bool_decide (b = 237 ∧ 160 ≤ c)) &&
                utf8_valid fuel l3
            | _ => false
            end
          else if bool_decide (240 ≤ b ≤ 244) then
            match l1 with
            | c :: d :: e :: l4 =>
                is_cont c && is_cont d && is_cont e &&
                negb (bool_decide (b = 240 ∧ c < 144)) && negb (bool_decide (b = 244 ∧ 144 ≤ c)) &&
                utf8_valid fuel l4
            | _ => false
            end
          else false
      end
  end.
Definition from_utf8 (s : string) : option string :=
  if utf8_valid (length (bytes_of s)) (bytes_of s) then Some s else None.

(** ** Filters *)

(** [trim_matches(c)] *)
Definition trim_matches (c : ascii) (s : string) : string := trim_end c (trim_start c s).

(** The literal of a filter: an integer, a float, or a string without its quotes.  A
    float that is not finite becomes [null]. *)
Definition parse_literal (val_str : string) : Value :=
  match parse_i64 val_str with
  | Some i => VNumber (Number_of_int i)
  | None =>
      match parse_f64 val_str with
      | Some f => json_float f
      | None => VString (trim_matches (ascii_of_nat 34) (trim_matches "'"%char val_str))
      end
  end.

(** [QueryFilter::parse] *)
Definition parse_filter (filter : string) : option QueryFilter :=
  match split_whitespace filter with
  | [col; op; val_str] =>
      let val := parse_literal val_str in
      if bool_decide (op = "=" ∨ op = "==") then
        Some (cmp_filter col (Some val) true (Some val) true None false)
      else if bool_decide (op = ">") then Some (cmp_filter col (Some val) false None true None false)
      else if bool_decide (op = ">=") then Some (cmp_filter col (Some val) true None true None false)
      else if bool_decide (op = "<") then Some (cmp_filter col None true (Some val) false None false)
      else if bool_decide (op = "<=") then Some (cmp_filter col None true (Some val) true None false)
      else None
  | _ => None
  end.

(** [QueryFilter::parse_multi] *)
Definition parse_multi (filter : string) : list QueryFilter :=
  omap (fun s => parse_filter (trim s)) (split_on " AND " (String.length filter) filter EmptyString).

Example parse_multi_ex :
  parse_multi "age > 30 AND name = 'bob'" =
  [cmp_filter "age" (Some (VNumber (PosInt 30))) false None true None false;
   cmp_filter "name" (Some (VString "bob")) true (Some (VString "bob")) true None false].
Proof. reflexivity. Qed.

(** A conjunct that is not of the form [column op value] is left out, here the one whose
    string has a space. *)
Example parse_multi_drops_conjunct :
  parse_multi "age > 30 AND city = 'New York'" =
  [cmp_filter "age" (Some (VNumber (PosInt 30))) false None true None false].
Proof. reflexivity. Qed.

(** ** Printing and parsing *)

(** [Display] of an [i64]. *)
Definition i64_to_string (z : Z) : string :=
  if bool_decide (z < 0) then "-" +:+ u64_to_string (- z) else u64_to_string z.

Definition op_text (op : Operator) : string :=
  match op with
  | OpEq => "=" | OpGt => ">" | OpGtEq => ">=" | OpLt => "<" | OpLtEq => "<=" | _ => "?"
  end.

Definition print_filter (col : string) (op : Operator) (z : Z) : string :=
  col +:+ " " +:+ op_text op +:+ " " +:+ i64_to_string z.

(** Visible ASCII. *)
Definition graphic (s : string) : Prop := Forall (fun b => 33 ≤ b ≤ 126) (bytes_of s).

Lemma bytes_of_app s t : bytes_of (s +:+ t) = bytes_of s ++ bytes_of t.
Proof.
  unfold bytes_of. rewrite <- fmap_app. f_equal.
  induction s as [|c s IH]; [done|]. simpl. by f_equal.
Qed.

Lemma of_bytes_of s : of_bytes (bytes_of s) = s.
Proof.
  unfold of_bytes, bytes_of. rewrite <- list_fmap_compose. induction s as [|c s IH]; [done|].
  simpl. rewrite N2Z.id, Ascii.ascii_N_embedding. f_equal. exact IH.
Qed.

Lemma bytes_of_ne s : s ≠ EmptyString → bytes_of s ≠ [].
Proof. by destruct s. Qed.

Lemma strip_seqs_none b l seqs :
  Forall (fun p => match p with x :: _ => x ≠ b | [] => False end) seqs →
  omap (fun p => strip_seq p (b :: l)) seqs = [].
Proof.
  induction 1 as [|[|x p] seqs Hx Hs IH]; [done..|]. simpl. by rewrite bool_decide_false.
Qed.

Lemma ws_head_graphic b l : 33 ≤ b ≤ 126 → ws_head (b :: l) = None.
Proof.
  intros Hb. unfold ws_head. rewrite strip_seqs_none; [done|].
  unfold ws_seqs. repeat (constructor; [lia|]). constructor.
Qed.

(** A visible word is read up to the next space or the end. *)
Lemma words_graphic w rest cur fuel :
  Forall (fun b => 33 ≤ b ≤ 126) w →
  words (length w + fuel) (w ++ rest) cur = words fuel rest (reverse w ++ cur).
Proof.
  intros Hw. revert cur. induction Hw as [|b w Hb Hw IH]; intros cur; [done|].
  simpl. rewrite ws_head_graphic by done. rewrite IH, reverse_cons, <- app_assoc. done.
Qed.

Lemma words_space w rest fuel :
  Forall (fun b => 33 ≤ b ≤ 126) w → w ≠ [] →
  words (length w + S fuel) (w ++ 32 :: rest) [] = w :: words fuel rest [].
Proof.
  intros Hw Hne. rewrite words_graphic, app_nil_r by done. simpl.
  destruct (reverse w) as [|x l] eqn:E.
  - by apply (f_equal reverse) in E; rewrite reverse_involutive in E.
  - rewrite <- E, reverse_involutive. done.
Qed.

Lemma words_end w : Forall (fun b => 33 ≤ b ≤ 126) w → w ≠ [] → words (length w) w [] = [w].
Proof.
  intros Hw Hne. pose proof (words_graphic w [] [] 0 Hw) as H.
  rewrite Nat.add_0_r, !app_nil_r in H. rewrite H. simpl.
  destruct (reverse w) as [|x l] eqn:E.
  - by apply (f_equal reverse) in E; rewrite reverse_involutive in E.
  - by rewrite <- E, reverse_involutive.
Qed.

Lemma split_three a b c :
  graphic a → graphic b → graphic c → a ≠ "" → b ≠ "" → c ≠ "" →
  split_whitespace (a +:+ " " +:+ b +:+ " " +:+ c) = [a; b; c].
Proof.
  intros Ha Hb Hc Na%bytes_of_ne Nb%bytes_of_ne Nc%bytes_of_ne. unfold split_whitespace.
  rewrite !bytes_of_app. change (bytes_of " ") with [32]. cbn [app].
  replace (length (bytes_of a ++ 32 :: bytes_of b ++ 32 :: bytes_of c)) with
    (length (bytes_of a) + S (length (bytes_of b) + S (length (bytes_of c))))%nat
    by (rewrite length_app; simpl; rewrite length_app; simpl; lia).
  rewrite words_space, words_space, words_end by done. simpl. by rewrite !of_bytes_of.
Qed.

Lemma digit_graphic c d : digit_val c = Some d → 33 ≤ Z.of_N (Ascii.N_of_ascii c) ≤ 126.
Proof. destruct c as [[] [] [] [] [] [] [] []]; by vm_compute. Qed.

Lemma all_digits_graphic s : all_digits s = true → graphic s.
Proof.
  unfold graphic. induction s as [|c s IH]; simpl; intros H; [constructor|].
  apply andb_true_iff in H as [[d Hd]%bool_decide_eq_true H]. constructor; eauto using digit_graphic.
Qed.

Lemma u64_to_string_ne n : 0 ≤ n → u64_to_string n ≠ "".
Proof.
  intros Hn E. pose proof (parse_digits_u64 n Hn) as H. rewrite E in H. simpl in H. simplify_eq.
Qed.

Lemma i64_text z : graphic (i64_to_string z) ∧ i64_to_string z ≠ "".
Proof.
  unfold i64_to_string. case_bool_decide.
  - split; [|done]. unfold graphic. rewrite bytes_of_app. apply Forall_app. split.
    + by repeat constructor.
    + apply all_digits_graphic, all_digits_u64.
  - split; [apply all_digits_graphic, all_digits_u64|apply u64_to_string_ne; lia].
Qed.

Lemma digits_head s c s' : all_digits s = true → s = String.String c s' → c ≠ "-"%char ∧ c ≠ "+"%char.
Proof.
  intros H ->. simpl in H. apply andb_true_iff in H as [[d Hd]%bool_decide_eq_true _].
  split; intros ->; by vm_compute in Hd.
Qed.

Lemma parse_i64_to_string z : is_i64_range z → parse_i64 (i64_to_string z) = Some z.
Proof.
  unfold is_i64_range, i64_to_string. intros Hz. case_bool_decide as Hneg.
  - pose proof (parse_digits_u64 (- z) ltac:(lia)) as Hp.
    pose proof (u64_to_string_ne (- z) ltac:(lia)) as Hne.
    change ("-" +:+ u64_to_string (- z)) with (String.String "-"%char (u64_to_string (- z))).
    cbn [parse_i64]. destruct (u64_to_string (- z)) as [|c s]; [done|]. rewrite Hp. simpl.
    rewrite Z.opp_involutive. by rewrite decide_True.
  - pose proof (parse_digits_u64 z ltac:(lia)) as Hp.
    pose proof (u64_to_string_ne z ltac:(lia)) as Hne. pose proof (all_digits_u64 z) as Hd.
    destruct (u64_to_string z) as [|c s]; [done|].
    destruct (digits_head _ c s Hd eq_refl) as [H1 H2]. unfold parse_i64.
    assert (match String.String c s with
            | String.String "-"%char s' => (true, s')
            | String.String "+"%char s' => (false, s')
            | _ => (false, String.String c s) end = (false, String.String c s)) as ->.
    { destruct c as [[] [] [] [] [] [] [] []]; done. }
    rewrite Hp. simpl. by rewrite decide_True.
Qed.

(** C37: parsing the text of a comparison with an integer gives a filter that means the
    comparison: on every value, the filter and SQL's operator have the same
    three-valued outcome. *)
Theorem parse_print_filter col op z :
  graphic col → col ≠ "" → op ∈ [OpEq; OpGt; OpGtEq; OpLt; OpLtEq] → is_i64_range z →
  ∃ f, parse_filter (print_filter col op z) = Some f ∧ qf_column f = col ∧
       ∀ c, filter_meaning c f = compare3 op c (CInt z).
Proof.
  intros Hc Hne Hop Hz. destruct (i64_text z) as [Hg Hn].
  assert (graphic (op_text op) ∧ op_text op ≠ "") as [Ho Hon].
  { destruct op; (split; [|done]); by repeat constructor. }
  unfold parse_filter, print_filter. rewrite split_three by done.
  unfold parse_literal. rewrite parse_i64_to_string by done.
  assert (∀ c o, compare3 o c (cell_of_value (VNumber (Number_of_int z))) = compare3 o c (CInt z)) as Hcell
    by (intros; by rewrite cell_of_int).
  destruct op; try (exfalso; clear -Hop; set_solver); cbn [op_text];
    (eexists; split; [reflexivity|]; split; [done|]; intros c; unfold filter_meaning;
     cbn [cmp_filter qf_negated qf_values qf_min qf_max qf_min_inclusive qf_max_inclusive];
     rewrite ?Hcell, option_fmap_id, ?and3_true_l, ?and3_true_r; try done).
  unfold compare3. by destruct (cell_cmp c (CInt z)) as [[]|].
Qed.

Lemma parse_print_filter_witness :
  print_filter "age" OpGtEq (-30) = "age >= -30" ∧
  ∃ f, parse_filter "age >= -30" = Some f ∧ qf_column f = "age" ∧
       ∀ c, filter_meaning c f = compare3 OpGtEq c (CInt (-30)).
Proof.
  split; [reflexivity|]. apply (parse_print_filter "age" OpGtEq (-30)).
  - by repeat constructor.
  - done.
  - set_solver.
  - done.
Defined.
