(* ===== verification/RowGroups.v ===== *)
(** * Row-group pruning ([src/src/core/reader/scan.rs])

    Inside a file, the flat vector search skips row groups by the Parquet statistics of
    the AND-ed conditions.  Numeric statistics are compared as [f64], others as
    strings. *)

From Stdlib Require Import Floats.SpecFloat.
From S2P Require Import Prelude Json ManifestTypes Planner PlannerSpec FilterText.

Local Open Scope Z_scope.

(** ** Parquet metadata *)

(** [parquet::file::statistics::Statistics]: the minimum and maximum by physical type *)
Inductive ParquetStats :=
| PInt32 (min max : option Z)
| PInt64 (min max : option Z)
| PFloat (min max : option float)
| PDouble (min max : option float)
| PByteArray (min max : option string)
| PBoolean (min max : option bool)
| POther.

Record ChunkStats := {
  ch_null_count : option Z;
  ch_distinct_count : option Z;
  ch_stats : ParquetStats;
}.

Record RowGroup := { rg_num_rows : Z; rg_columns : list (option ChunkStats) }.

Record ParquetMetaData := { pm_columns : list string; pm_row_groups : list RowGroup }.

(** ** Statistics *)

Definition has_stats (s : ParquetStats) : bool :=
  match s with
  | PInt32 min max | PInt64 min max => bool_decide (is_Some min) || bool_decide (is_Some max)
  | PFloat min max | PDouble min max => bool_decide (is_Some min) || bool_decide (is_Some max)
  | PByteArray min max => bool_decide (is_Some min) || bool_decide (is_Some max)
  | PBoolean min max => bool_decide (is_Some min) || bool_decide (is_Some max)
  | POther => false
  end.

Definition both {A B} (f : A → B) (min max : option A) : option (B * B) :=
  a ← min; b ← max; Some (f a, f b).

Definition extract_min_max_as_f64 (s : ParquetStats) : option (float * float) :=
  match s with
  | PInt32 min max | PInt64 min max => both Z_as_f64 min max
  | PFloat min max => both f32_as_f64 min max
  | PDouble min max => both id min max
  | PByteArray min max =>
      a ← min; b ← max; a ← from_utf8 a; b ← from_utf8 b;
      x ← parse_f64 a; y ← parse_f64 b; Some (x, y)
  | _ => None
  end.

Definition extract_min_max_as_str (s : ParquetStats) : option (string * string) :=
  match s with
  | PByteArray min max => a ← min; b ← max; a ← from_utf8 a; b ← from_utf8 b; Some (a, b)
  | _ => None
  end.

(** [Value::as_f64], [Value::as_str] *)
Definition value_as_f64 (v : Value) : option float :=
  match v with VNumber n => as_f64 n | _ => None end.
Definition value_as_str (v : Value) : option string :=
  match v with VString s => Some s | _ => None end.

Definition str_lt (a b : string) : bool := bool_decide (String.compare a b = Lt).

(** One branch of [row_group_might_match_condition]: the bounds of the group and the
    reading of a literal ([as_f64] or [as_str]), with [lt] its order. *)
Definition range_might_match {A} (lt le : A → A → bool) (read : Value → option A) (lo hi : A)
    (f : QueryFilter) : bool :=
  if match qf_min f ≫= read with
     | Some m => if qf_min_inclusive f then lt hi m else le hi m
     | None => false
     end then false
  else if match qf_max f ≫= read with
          | Some m => if qf_max_inclusive f then lt m lo else le m lo
          | None => false
          end then false
  else match qf_values f with
       | Some values =>
           existsb (fun v => match read v with Some x => negb (lt x lo || lt hi x) | None => false end)
             values
       | None => true
       end.

Definition row_group_might_match_condition (s : ParquetStats) (f : QueryFilter) : bool :=
  match extract_min_max_as_f64 s with
  | Some (lo, hi) => range_might_match SFltb SFleb value_as_f64 lo hi f
  | None =>
      match extract_min_max_as_str s with
      | Some (lo, hi) =>
          range_might_match str_lt (fun a b => negb (str_lt b a)) value_as_str lo hi f
      | None => true
      end
  end.

(** One condition on one row group. *)
Definition group_keeps (columns : list string) (rg : RowGroup) (cond : QueryFilter) : bool :=
  match list_find (fun c => c = qf_column cond) columns with
  | None => true
  | Some (pos, _) =>
      match rg_columns rg !! pos with
      | Some (Some s) =>
          if bool_decide (rg_num_rows rg ≤ default 0 (ch_null_count s)) then false
          else negb (has_stats (ch_stats s) && negb (row_group_might_match_condition (ch_stats s) cond))
      | _ => true
      end
  end.

(** [HybridReader::prune_row_groups]: the indices of the surviving groups *)
Definition prune_row_groups (m : ParquetMetaData) (filter : Expr) : list nat :=
  let conditions := extract_and_conditions filter in
  match conditions with
  | [] => seq 0 (length (pm_row_groups m))
  | _ =>
      omap (fun p => if forallb (group_keeps (pm_columns m) p.2) conditions then Some p.1 else None)
        (imap (fun i rg => (i, rg)) (pm_row_groups m))
  end.

(** ** Soundness *)

(** The bounds of a column chunk as values. *)
Definition pq_bounds (s : ParquetStats) : option Cell * option Cell :=
  match s with
  | PInt32 min max | PInt64 min max => (CInt <$> min, CInt <$> max)
  | PFloat min max => ((fun f => CFloat (f32_as_f64 f)) <$> min, (fun f => CFloat (f32_as_f64 f)) <$> max)
  | PDouble min max => (CFloat <$> min, CFloat <$> max)
  | PByteArray min max => (CString <$> min, CString <$> max)
  | PBoolean min max => (CBool <$> min, CBool <$> max)
  | POther => (None, None)
  end.

Record chunk_covers (num_rows : Z) (s : ChunkStats) (c : Cell) : Prop := {
  chunk_null : c ≠ CNull → default 0 (ch_null_count s) < num_rows;
  chunk_min m : (pq_bounds (ch_stats s)).1 = Some m → c ≠ CNull → cell_le m c;
  chunk_max m : (pq_bounds (ch_stats s)).2 = Some m → c ≠ CNull → cell_le c m;
}.

(** Integers convert to [f64] without rounding. *)
Definition exact (c : Cell) : Prop := match c with CInt z => small z | _ => True end.

(** A text column whose bounds do not read as numbers. *)
Definition not_numeric_text (s : ParquetStats) : Prop :=
  match s with PByteArray _ _ => extract_min_max_as_f64 s = None | _ => True end.

Section Range.

Context {A : Type} (lt le : A → A → bool) (read : Value → option A) (lo hi : A) (c : Cell).
Context (Hread : ∀ v o, plain v → cell_cmp c (cell_of_value v) = Some o → is_Some (read v)).
Context (Hhi : ∀ v x o, plain v → exact (cell_of_value v) → read v = Some x →
  cell_cmp c (cell_of_value v) = Some o → (o ≠ Lt → lt hi x = false) ∧ (o = Gt → le hi x = false)).
Context (Hlo : ∀ v x o, plain v → exact (cell_of_value v) → read v = Some x →
  cell_cmp c (cell_of_value v) = Some o → (o ≠ Gt → lt x lo = false) ∧ (o = Lt → le x lo = false)).

Lemma range_might_match_sound f :
  Forall (fun v => plain v ∧ exact (cell_of_value v)) (filter_literals f) →
  filter_holds c f = true → range_might_match lt le read lo hi f = true.
Proof.
  intros (Pm & Px & Pv)%literals_Forall (Hm & Hx & Hv)%filter_holds_parts.
  unfold range_might_match.
  replace (match qf_min f ≫= read with
           | Some m => if qf_min_inclusive f then lt hi m else le hi m | None => false end) with false.
  2:{ destruct (qf_min f) as [v|]; [|done]. simpl. destruct (read v) as [x|] eqn:E; [|done].
      destruct (Pm v eq_refl). specialize (Hm v eq_refl). unfold sat_min in Hm.
      destruct (cell_cmp c (cell_of_value v)) as [o|] eqn:Ho; [|done].
      destruct (Hhi v x o) as [H1 H2]; try done.
      destruct o; destruct (qf_min_inclusive f); rewrite ?H1, ?H2 by done; done. }
  replace (match qf_max f ≫= read with
           | Some m => if qf_max_inclusive f then lt m lo else le m lo | None => false end) with false.
  2:{ destruct (qf_max f) as [v|]; [|done]. simpl. destruct (read v) as [x|] eqn:E; [|done].
      destruct (Px v eq_refl). specialize (Hx v eq_refl). unfold sat_max in Hx.
      destruct (cell_cmp c (cell_of_value v)) as [o|] eqn:Ho; [|done].
      destruct (Hlo v x o) as [H1 H2]; try done.
      destruct o; destruct (qf_max_inclusive f); rewrite ?H1, ?H2 by done; done. }
  destruct (qf_values f) as [vs|]; [|done]. destruct (Hv vs eq_refl) as (v & Hin & He).
  apply bool_decide_eq_true in He. destruct (Pv vs v eq_refl Hin) as [Pl Ex].
  apply existsb_exists. exists v. split; [by apply list_elem_of_In|].
  destruct (Hread v Eq) as [x E]; try done. rewrite E.
  destruct (Hhi v x Eq) as [H1 _]; try done. destruct (Hlo v x Eq) as [H2 _]; try done.
  by rewrite H1, H2.
Qed.

End Range.

(** The [f64] a number is compared as. *)
Definition num_f64 (c : Cell) : option float :=
  match c with CInt z => Some (Z_as_f64 z) | CFloat f => Some f | _ => None end.

Lemma cell_cmp_f64 c v o :
  exact c → plain v → exact (cell_of_value v) → is_Some (num_f64 c) →
  cell_cmp c (cell_of_value v) = Some o →
  ∃ fc x, num_f64 c = Some fc ∧ value_as_f64 v = Some x ∧ o = float_cmp fc x.
Proof.
  intros Hc Pv Hv [fc Hfc] Ho. exists fc.
  destruct v as [|b|n|s|?]; [by destruct c|by destruct c| |by destruct c|by destruct c].
  destruct (plain_number n Pv) as [(z & _ & _ & E & E')|(f & _ & _ & E & _ & E')];
    rewrite E' in Ho, Hv; [exists (Z_as_f64 z)|exists f]; (split; [done|]; split; [exact E|]);
    destruct c; try done; simpl in Hfc, Ho; injection Hfc as <-; injection Ho as <-; try done.
  by rewrite Z_as_f64_exact_cmp.
Qed.

Lemma numeric_sound lo hi c f fc :
  exact c → num_f64 c = Some fc → float_cmp lo fc ≠ Gt → float_cmp fc hi ≠ Gt →
  Forall (fun v => plain v ∧ exact (cell_of_value v)) (filter_literals f) →
  filter_holds c f = true → range_might_match SFltb SFleb value_as_f64 lo hi f = true.
Proof.
  intros Hc Hfc Hl Hh. apply range_might_match_sound.
  - intros v o Pv Ho. destruct c, v as [|?|n|?|?]; simplify_eq/=; try done; by destruct n.
  - intros v x o Pv Ev Hx Ho.
    destruct (cell_cmp_f64 c v o) as (fc' & x' & E1 & E2 & ->); [done..|by rewrite Hfc|done|].
    simplify_eq. pose proof (lex_rank _ _ (float_key x) Hh) as Hr. unfold float_cmp in *.
    split; intros Ho'; [apply SFltb_false|apply SFleb_false]; unfold float_cmp;
      destruct (lex (float_key fc) (float_key x)), (lex (float_key hi) (float_key x)); done.
  - intros v x o Pv Ev Hx Ho.
    destruct (cell_cmp_f64 c v o) as (fc' & x' & E1 & E2 & ->); [done..|by rewrite Hfc|done|].
    simplify_eq. pose proof (lex_rank _ _ (float_key x) Hl) as Hr. unfold float_cmp in *.
    split; intros Ho'; [apply SFltb_false|apply SFleb_false]; unfold float_cmp; rewrite lex_antisym;
      destruct (lex (float_key fc) (float_key x)), (lex (float_key lo) (float_key x)); done.
Qed.

Lemma string_sound lo hi s f :
  String.compare lo s ≠ Gt → String.compare s hi ≠ Gt →
  Forall (fun v => plain v ∧ exact (cell_of_value v)) (filter_literals f) →
  filter_holds (CString s) f = true →
  range_might_match str_lt (fun a b => negb (str_lt b a)) value_as_str lo hi f = true.
Proof.
  intros Hl Hh. apply range_might_match_sound; unfold str_lt.
  - intros v o Pv Ho. destruct v as [|?|[]|?|?]; simplify_eq/=; by eexists.
  - intros v x o Pv Ev Hx Ho. destruct v; simplify_eq/=.
    pose proof (string_rank _ _ x Hh) as Hr. rewrite (String.compare_antisym x hi).
    destruct (String.compare s x), (String.compare hi x); simpl in *; split; intros; done || lia.
  - intros v x o Pv Ev Hx Ho. destruct v; simplify_eq/=.
    pose proof (string_rank _ _ x Hl) as Hr. rewrite (String.compare_antisym x lo).
    destruct (String.compare s x), (String.compare lo x); simpl in *; split; intros; done || lia.
Qed.

Lemma both_Some {A B} (g : A → B) min max lo hi :
  both g min max = Some (lo, hi) → ∃ a b, min = Some a ∧ max = Some b ∧ lo = g a ∧ hi = g b.
Proof.
  unfold both. destruct min as [a|], max as [b|]; simpl; intros; simplify_eq. eauto 6.
Qed.

Lemma extract_str_Some min max lo hi :
  extract_min_max_as_str (PByteArray min max) = Some (lo, hi) → min = Some lo ∧ max = Some hi.
Proof.
  simpl. destruct min as [a|]; [|done]. destruct max as [b|]; [|done]. simpl. unfold from_utf8.
  repeat case_match; simpl; intros; by simplify_eq.
Qed.

Lemma chunk_might_match num_rows s c f :
  chunk_covers num_rows s c → c ≠ CNull → exact c → not_numeric_text (ch_stats s) →
  Forall (fun v => plain v ∧ exact (cell_of_value v)) (filter_literals f) →
  filter_holds c f = true → row_group_might_match_condition (ch_stats s) f = true.
Proof.
  intros [_ Hmin Hmax] Hn Hc Ht Hl Hf. unfold row_group_might_match_condition.
  destruct (extract_min_max_as_f64 (ch_stats s)) as [[lo hi]|] eqn:E.
  - destruct (ch_stats s) as [mn mx|mn mx|mn mx|mn mx|mn mx|mn mx|]; try done;
      [..|by unfold not_numeric_text in Ht; rewrite Ht in E];
      apply both_Some in E as (a & b & -> & -> & -> & ->);
      specialize (Hmin _ eq_refl Hn); specialize (Hmax _ eq_refl Hn);
      destruct c; try done; (eapply numeric_sound; [done|reflexivity|..]; try done);
      by apply Z_as_f64_mono.
  - destruct (extract_min_max_as_str (ch_stats s)) as [[lo hi]|] eqn:E'; [|done].
    destruct (ch_stats s) as [| | | |mn mx| |]; try done.
    apply extract_str_Some in E' as [-> ->].
    specialize (Hmin _ eq_refl Hn). specialize (Hmax _ eq_refl Hn). destruct c as [| | | |t]; try done.
    by apply (string_sound lo hi t).
Qed.

(** The chunk of a column in a row group. *)
Definition chunk_of (m : ParquetMetaData) (rg : RowGroup) (col : string) : option ChunkStats :=
  '(pos, _) ← list_find (fun c => c = col) (pm_columns m); s ← rg_columns rg !! pos; s.

(** A condition is true of a row: a filter that is not negated holds of its column. *)
Definition condition_true (row : string → Cell) (f : QueryFilter) : Prop :=
  qf_negated f = false ∧ row (qf_column f) ≠ CNull ∧ filter_holds (row (qf_column f)) f = true.

Lemma group_keeps_sound m rg row f :
  (∀ col s, chunk_of m rg col = Some s → chunk_covers (rg_num_rows rg) s (row col) ∧ not_numeric_text (ch_stats s)) →
  exact (row (qf_column f)) →
  Forall (fun v => plain v ∧ exact (cell_of_value v)) (filter_literals f) →
  condition_true row f → group_keeps (pm_columns m) rg f = true.
Proof.
  intros Hch He Hl (_ & Hn & Hf). unfold group_keeps.
  destruct (list_find (fun c => c = qf_column f) (pm_columns m)) as [[pos nm]|] eqn:Hp; [|done].
  destruct (rg_columns rg !! pos) as [[s|]|] eqn:Hs; [|done..].
  destruct (Hch (qf_column f) s) as [Hcov Ht]; [by unfold chunk_of; rewrite Hp; simpl; rewrite Hs|].
  rewrite bool_decide_false by (pose proof (chunk_null _ _ _ Hcov Hn); lia).
  rewrite (chunk_might_match (rg_num_rows rg) s (row (qf_column f))) by done.
  by rewrite andb_false_r.
Qed.

(** C28: a row group that holds a row satisfying all AND-ed conditions survives
    [prune_row_groups], when no condition is negated, the integers compared are below
    2^53 in magnitude, and no text column has bounds that read as numbers. *)
Theorem prune_row_groups_keeps_matching m e i rg row :
  pm_row_groups m !! i = Some rg →
  (∀ col s, chunk_of m rg col = Some s → chunk_covers (rg_num_rows rg) s (row col) ∧ not_numeric_text (ch_stats s)) →
  (∀ col, exact (row col)) →
  Forall (fun f => Forall (fun v => plain v ∧ exact (cell_of_value v)) (filter_literals f))
    (extract_and_conditions e) →
  Forall (condition_true row) (extract_and_conditions e) →
  i ∈ prune_row_groups m e.
Proof.
  intros Hi Hch He Hl Hc. unfold prune_row_groups.
  destruct (extract_and_conditions e) as [|f fs] eqn:Hfs.
  { apply elem_of_seq. apply lookup_lt_Some in Hi. lia. }
  rewrite <- Hfs in *. apply list_elem_of_omap. exists (i, rg). split.
  - apply elem_of_lookup_imap. eauto.
  - simpl. rewrite (proj2 (forallb_elem_of _ _)); [done|]. intros g Hg.
    rewrite Forall_forall in Hl, Hc. by apply (group_keeps_sound m rg row g); auto.
Qed.

(** ** Concrete groups *)

(** A file with one column and one row group of ten rows. *)
Definition one_group (col : string) (s : ParquetStats) : ParquetMetaData :=
  {| pm_columns := [col];
     pm_row_groups := [{| rg_num_rows := 10;
                          rg_columns := [Some {| ch_null_count := Some 0; ch_distinct_count := None; ch_stats := s |}] |}] |}.
Definition column_is (op : Operator) (col : string) (s : ScalarValue) : Expr :=
  EBinary (EColumn col) op (ELiteral s).

Lemma one_group_covers col s c r col' st :
  r = {| rg_num_rows := 10; rg_columns := [Some {| ch_null_count := Some 0; ch_distinct_count := None; ch_stats := s |}] |} →
  (∀ m, (pq_bounds s).1 = Some m → c ≠ CNull → cell_le m c) →
  (∀ m, (pq_bounds s).2 = Some m → c ≠ CNull → cell_le c m) →
  not_numeric_text s →
  chunk_of (one_group col s) r col' = Some st → chunk_covers (rg_num_rows r) st c ∧ not_numeric_text (ch_stats st).
Proof.
  intros -> Hmin Hmax Ht. unfold chunk_of. simpl. case_decide; simpl; intros; simplify_eq/=.
  split; [|done]. split; simpl; [lia|done|done].
Qed.

Lemma prune_row_groups_keeps_matching_witness :
  let m := one_group "id" (PInt64 (Some 0) (Some 9)) in
  (0%nat ∈ prune_row_groups m (column_is OpGt "id" (SInt64 (Some 4)))) ∧
  prune_row_groups m (column_is OpGt "id" (SInt64 (Some 9))) = [].
Proof.
  intros m. split; [|by vm_compute].
  eapply (prune_row_groups_keeps_matching m _ 0 _ (fun _ => CInt 5)); [reflexivity|..].
  - intros col s. apply (one_group_covers "id" (PInt64 (Some 0) (Some 9))); [done| | |done];
      intros x [= <-] _; done.
  - intros _. simpl. unfold small. lia.
  - repeat constructor; simpl; unfold small; by vm_compute.
  - repeat constructor; by vm_compute.
Defined.

Lemma Z_as_f64_ltb x y : small x → small y → x < y → SFltb (Z_as_f64 x) (Z_as_f64 y) = true.
Proof.
  intros Hx Hy Hlt. unfold SFltb.
  rewrite SFcompare_float_cmp by (apply finite_not_nan, Z_as_f64_finite).
  by rewrite Z_as_f64_lt.
Qed.

(** [id <> z] prunes exactly the wrong row groups: when [z] is outside a group's
    bounds, every row of the group satisfies the filter, and the group is skipped
    (the negation of the condition is not looked at). *)
Theorem not_equal_skips_matching_group z lo hi :
  small z → small lo → small hi → z < lo ∨ hi < z →
  let e := column_is OpNotEq "id" (SInt64 (Some z)) in
  (∀ x cast opaque, lo ≤ x ≤ hi → eval (fun _ => CInt x) cast opaque e = Some true) ∧
  prune_row_groups (one_group "id" (PInt64 (Some lo) (Some hi))) e = [].
Proof.
  intros Hz Hlo Hhi Hout e. split.
  { intros x cast opaque Hx. simpl. unfold compare3. simpl.
    destruct (Z.compare_spec x z); [lia|done|done]. }
  unfold prune_row_groups, e, column_is. simpl. unfold group_keeps. simpl.
  unfold row_group_might_match_condition, range_might_match. simpl.
  assert (match Number_of_int z with PosInt n | NegInt n => Z_as_f64 n | Float f => f end = Z_as_f64 z) as ->
    by (unfold Number_of_int; by case_bool_decide).
  destruct Hout as [H|H].
  - rewrite (Z_as_f64_ltb z lo) by done. by destruct (SFltb _ _).
  - by rewrite (Z_as_f64_ltb hi z).
Qed.

Lemma not_equal_skips_matching_group_witness :
  prune_row_groups (one_group "id" (PInt64 (Some 10) (Some 20))) (column_is OpNotEq "id" (SInt64 (Some 5))) = [].
Proof.
  apply (not_equal_skips_matching_group 5 10 20); unfold small; lia.
Defined.

(** Above 2^53 integers are rounded before they are compared: [id > 2^53] skips
    the group whose only value is 2^53 + 1. *)
Theorem big_integers_skip_matching_group :
  let e := column_is OpGt "id" (SInt64 (Some (2 ^ 53))) in
  (∀ cast opaque, eval (fun _ => CInt (2 ^ 53 + 1)) cast opaque e = Some true) ∧
  prune_row_groups (one_group "id" (PInt64 (Some (2 ^ 53 + 1)) (Some (2 ^ 53 + 1)))) e = [].
Proof. intros e. split; [done|by vm_compute]. Qed.

(** A text column whose bounds read as numbers is compared as a number, and a
    string literal is no number: [zip = '12345'] skips the group with zips between
    00000 and 99999. *)
Theorem numeric_text_skips_matching_group :
  let e := column_is OpEq "zip" (SUtf8 (Some "12345")) in
  (∀ cast opaque, eval (fun _ => CString "12345") cast opaque e = Some true) ∧
  cell_le (CString "00000") (CString "12345") ∧ cell_le (CString "12345") (CString "99999") ∧
  prune_row_groups (one_group "zip" (PByteArray (Some "00000") (Some "99999"))) e = [].
Proof. intros e. split_and!; [done|by vm_compute|by vm_compute|by vm_compute]. Qed.
