(* ===== verification/SegmentStats.v ===== *)
(** * Column statistics of a written segment ([src/src/core/segment.rs])

    The writer copies the Parquet statistics of a new file into the manifest entry, where
    the planner reads them.  For a file of one row group they satisfy what pruning
    assumes; the other row groups of a larger file are not looked at. *)

From S2P Require Import Prelude Json ManifestTypes Planner PlannerSpec FilterText RowGroups.

Local Open Scope Z_scope.

(** ** From Parquet to the manifest *)

Definition manifest_min_max (s : ParquetStats) : option ManifestValue * option ManifestValue :=
  match s with
  | PInt32 min max => (MInt32 <$> min, MInt32 <$> max)
  | PInt64 min max => (MInt64 <$> min, MInt64 <$> max)
  | PFloat min max => (MFloat32 <$> min, MFloat32 <$> max)
  | PDouble min max => (MFloat64 <$> min, MFloat64 <$> max)
  | PByteArray (Some min_val) (Some max_val) =>
      (MString <$> from_utf8 min_val, MString <$> from_utf8 max_val)
  | PByteArray _ _ => (None, None)
  | PBoolean min max => (MBoolean <$> min, MBoolean <$> max)
  | POther => (None, None)
  end.

(** [ColumnStats::default()] *)
Definition ColumnStats_default : ColumnStats :=
  {| cs_min := None; cs_max := None; cs_null_count := 0; cs_distinct_count := None;
     cs_vector_stats := None |}.

Definition column_stats_of (s : option ChunkStats) (v_stats : option VectorStats) : ColumnStats :=
  match s with
  | Some s =>
      {| cs_min := (manifest_min_max (ch_stats s)).1; cs_max := (manifest_min_max (ch_stats s)).2;
         cs_null_count := default 0 (ch_null_count s); cs_distinct_count := ch_distinct_count s;
         cs_vector_stats := v_stats |}
  | None => {| cs_min := None; cs_max := None; cs_null_count := 0; cs_distinct_count := None;
               cs_vector_stats := v_stats |}
  end.

(** [SegmentWriter::merge_parquet_stats] *)
Definition merge_parquet_stats (m : ParquetMetaData) (vector_stats_map : gmap string VectorStats)
    (final_stats : gmap string ColumnStats) : gmap string ColumnStats :=
  match pm_row_groups m with
  | [] => final_stats
  | rg :: _ =>
      foldl (fun acc '(col_name, s) => <[col_name := column_stats_of s (vector_stats_map !! col_name)]> acc)
        final_stats (zip (pm_columns m) (rg_columns rg))
  end.

(** ** What the planner relies on *)

Ltac bounds_cases H :=
  match type of H with
  | context [manifest_min_max ?s] =>
      destruct s as [a b|a b|a b|a b|[a|] [b|]|a b|]; simpl in *; unfold from_utf8 in *;
      repeat case_match; try destruct a; try destruct b; simplify_eq/=; done
  end.

Lemma manifest_min_cell s m :
  (manifest_min_max s).1 = Some m → (pq_bounds s).1 = Some (cell_of_manifest m).
Proof. intros H. bounds_cases H. Qed.
Lemma manifest_max_cell s m :
  (manifest_min_max s).2 = Some m → (pq_bounds s).2 = Some (cell_of_manifest m).
Proof. intros H. bounds_cases H. Qed.

(** The bounds of integer columns are [i64] values. *)
Definition int_bounds (s : ParquetStats) : Prop :=
  ∀ z, (pq_bounds s).1 = Some (CInt z) ∨ (pq_bounds s).2 = Some (CInt z) → is_i64_range z.

Lemma manifest_min_plain s m : int_bounds s → (manifest_min_max s).1 = Some m → manifest_plain m.
Proof.
  intros Hr H. pose proof (manifest_min_cell s m H) as Hc.
  destruct m; try done; apply Hr; by left.
Qed.
Lemma manifest_max_plain s m : int_bounds s → (manifest_min_max s).2 = Some m → manifest_plain m.
Proof.
  intros Hr H. pose proof (manifest_max_cell s m H) as Hc.
  destruct m; try done; apply Hr; by right.
Qed.

(** The statistics taken from a chunk bound what the chunk's own statistics bound. *)
Lemma column_stats_cover num_rows s v c :
  chunk_covers num_rows s c → int_bounds (ch_stats s) →
  stats_cover num_rows (column_stats_of (Some s) v) c.
Proof.
  intros [Hn Hmin Hmax] Hr. split; simpl.
  - intros Hc. specialize (Hn Hc). lia.
  - intros m Hm. split; [by eapply manifest_min_plain|]. apply Hmin. by apply manifest_min_cell.
  - intros m Hm. split; [by eapply manifest_max_plain|]. apply Hmax. by apply manifest_max_cell.
Qed.

(** A column without statistics is never pruned by them, unless the file is empty. *)
Lemma no_stats_cover num_rows v c : 0 < num_rows → stats_cover num_rows (column_stats_of None v) c.
Proof. intros H. split; simpl; [lia|done|done]. Qed.

Lemma fold_stats_lookup vs l (final : gmap string ColumnStats) col st :
  foldl (fun acc '(col_name, s) => <[col_name := column_stats_of s (vs !! col_name)]> acc) final l !! col
    = Some st →
  final !! col = Some st ∨
  ∃ s : option ChunkStats, (col, s) ∈ l ∧ st = column_stats_of s ((vs : gmap string VectorStats) !! col).
Proof.
  revert final. induction l as [|[n s] l IH]; intros final H; [by left|]. simpl in H.
  destruct (IH _ H) as [Hi|(s' & Hin & ->)].
  - apply lookup_insert_Some in Hi as [[<- <-]|[_ ?]]; [right|by left].
    exists s. split; [by constructor|done].
  - right. exists s'. split; [by constructor|done].
Qed.

Lemma merge_lookup m vs final col st :
  merge_parquet_stats m vs final !! col = Some st →
  final !! col = Some st ∨
  ∃ rg rgs s, pm_row_groups m = rg :: rgs ∧ (col, s) ∈ zip (pm_columns m) (rg_columns rg) ∧
              st = column_stats_of s (vs !! col).
Proof.
  unfold merge_parquet_stats. destruct (pm_row_groups m) as [|rg rgs]; [by left|].
  intros [?|(s & ? & ?)]%fold_stats_lookup; [by left|right]. by exists rg, rgs, s.
Qed.

(** The statistics the writer records for a file of one row group cover every row
    the Parquet statistics cover, on every column: the entry of such a file satisfies
    the hypothesis of [prune_keeps_matching]. *)
Theorem single_group_stats_cover m rg vs col st row :
  pm_row_groups m = [rg] → 0 < rg_num_rows rg →
  (∀ col s, (col, Some s) ∈ zip (pm_columns m) (rg_columns rg) →
            chunk_covers (rg_num_rows rg) s (row col) ∧ int_bounds (ch_stats s)) →
  merge_parquet_stats m vs ∅ !! col = Some st →
  stats_cover (rg_num_rows rg) st (row col).
Proof.
  intros Hm Hpos Hcov Hst.
  destruct (merge_lookup _ _ _ _ _ Hst) as [H|(rg' & rgs & s & E & Hin & ->)];
    [by rewrite lookup_empty in H|].
  rewrite Hm in E. injection E as <- _. destruct s as [s|]; [|by apply no_stats_cover].
  destruct (Hcov _ _ Hin). by apply column_stats_cover.
Qed.

(** ** Concrete files *)

Definition int_group (lo hi : Z) : RowGroup :=
  {| rg_num_rows := 10;
     rg_columns := [Some {| ch_null_count := Some 0; ch_distinct_count := None;
                            ch_stats := PInt64 (Some lo) (Some hi) |}] |}.

Lemma single_group_stats_cover_witness :
  let m := {| pm_columns := ["id"]; pm_row_groups := [int_group 0 9] |} in
  ∃ st, merge_parquet_stats m ∅ ∅ !! "id" = Some st ∧ cs_max st = Some (MInt64 9) ∧
        stats_cover 10 st (CInt 5).
Proof.
  intros m. eexists. split; [reflexivity|]. split; [reflexivity|].
  apply (single_group_stats_cover m (int_group 0 9) ∅ "id" _ (fun _ => CInt 5)); [done|done| |done].
  intros col s [= -> ->]%list_elem_of_singleton. split.
  - split; simpl; [lia|by intros m' [= <-]|by intros m' [= <-]].
  - by intros z [[= <-]|[= <-]].
Defined.

(** The statistics of a file with two row groups are those of the first: a row of the
    second group is pruned by a filter it satisfies. *)
Theorem second_row_group_is_pruned :
  let m := {| pm_columns := ["id"]; pm_row_groups := [int_group 0 9; int_group 10 19] |} in
  let entry :=
    {| me_file_path := "seg.parquet"; me_file_size_bytes := 1; me_record_count := 20;
       me_file_checksum := None; me_index_files := []; me_delete_files := [];
       me_column_stats := merge_parquet_stats m ∅ ∅; me_partition_values := ∅;
       me_clustering := Clustering_default; me_first_row_id := None |} in
  let e := column_is OpEq "id" (SInt64 (Some 15)) in
  (∀ cast opaque, eval (fun _ => CInt 15) cast opaque e = Some true) ∧
  chunk_covers 10 {| ch_null_count := Some 0; ch_distinct_count := None;
                     ch_stats := PInt64 (Some 10) (Some 19) |} (CInt 15) ∧
  prune_entries [entry] (Some e) None = [].
Proof.
  intros m entry e. split_and!; [done| |by vm_compute].
  split; simpl; [lia|by intros x [= <-]|by intros x [= <-]].
Qed.
