(* ===== verification/Partitioning.v ===== *)
(** * Partition transforms and the partitioning of batches

    [IcebergTransform] ([src/src/core/iceberg/transform.rs]) and
    [PartitionSpec::partition_batch] ([src/src/core/manifest/manager/partition.rs]).

    A batch is its fields and its rows; a cell is [None] when null and carries its Arrow
    type otherwise.  The murmur3 hash and chrono's calendar are parameters. *)

From Stdlib Require Import Strings.Ascii.
From coqutil Require Import Word.LittleEndianList.
From S2P Require Import Prelude Json ManifestTypes Planner PlannerSpec.

Local Open Scope Z_scope.

(** ** Transforms *)

Inductive IcebergTransform :=
| Identity | Bucket (n : Z) | Truncate (w : Z) | Year | Month | Day | Hour | Void.
#[export] Instance IcebergTransform_eq_dec : EqDecision IcebergTransform.
Proof. solve_decision. Defined.

(** [trim_start_matches] of a text; each step shortens the text. *)
Fixpoint trim_start_str (p : string) (fuel : nat) (s : string) : string :=
  match fuel with
  | O => s
  | S fuel => match strip_prefix p s with Some s' => trim_start_str p fuel s' | None => s end
  end.

(** [str::parse::<u32>] *)
Definition parse_u32 (s : string) : option Z :=
  n ← parse_u64 s; if decide (n < 2 ^ 32) then Some n else None.

(** The argument of [name(N)] or [name[N]], 0 when it does not parse. *)
Definition transform_arg (name lower : string) : Z :=
  let s := trim_start_str (name +:+ "[") (String.length lower) lower in
  let s := trim_start_str (name +:+ "(") (String.length s) s in
  default 0 (parse_u32 (trim_end ")"%char (trim_end "]"%char s))).

Definition has_arg (name lower : string) : bool :=
  starts_with (name +:+ "[") lower || starts_with (name +:+ "(") lower.

(** [IcebergTransform::parse] *)
Definition parse_transform (s : string) : IcebergTransform :=
  let lower := to_ascii_lowercase (trim s) in
  if bool_decide (lower = "identity") then Identity
  else if bool_decide (lower = "year") then Year
  else if bool_decide (lower = "month") then Month
  else if bool_decide (lower = "day") then Day
  else if bool_decide (lower = "hour") then Hour
  else if bool_decide (lower = "void") then Void
  else if has_arg "bucket" lower then Bucket (transform_arg "bucket" lower)
  else if has_arg "truncate" lower then Truncate (transform_arg "truncate" lower)
  else Void.

Example parse_bucket : parse_transform " Bucket(16)" = Bucket 16. Proof. reflexivity. Qed.
Example parse_truncate : parse_transform "truncate[10]" = Truncate 10. Proof. reflexivity. Qed.
Example parse_bucket_bad : parse_transform "bucket(x)" = Bucket 0. Proof. reflexivity. Qed.
Example parse_unknown : parse_transform "years" = Void. Proof. reflexivity. Qed.

(** ** Cells *)

Inductive TimeUnit := Second | Millisecond | Microsecond | Nanosecond.
#[export] Instance TimeUnit_eq_dec : EqDecision TimeUnit.
Proof. solve_decision. Defined.

Inductive ArrowCell :=
| AInt32 (i : Z) | AInt64 (i : Z)
| AUtf8 (s : string) | ALargeUtf8 (s : string) | AUtf8View (s : string)
| ADate32 (days : Z) | ATimestamp (unit : TimeUnit) (t : Z)
| ABoolean (b : bool) | AFloat32 (f : float) | AFloat64 (f : float)
| AOther (text : string).
#[export] Instance ArrowCell_eq_dec : EqDecision ArrowCell.
Proof. solve_decision. Defined.

(** What applying a transform can end in besides a value: [bail!] for a field, or a panic. *)
Inductive perr := MissingSource (field : string) | Panicked.

(** [&s[..limit]]: a panic when the limit is inside a character *)
Definition char_boundary (s : string) (n : nat) : bool :=
  match String.get n s with
  | Some c => let b := N_of_ascii c in negb (bool_decide (128 ≤ b < 192)%N)
  | None => true
  end.
Definition str_prefix (s : string) (w : Z) : result perr Value :=
  let limit := Nat.min (Z.to_nat w) (String.length s) in
  if char_boundary s limit then Ok (VString (String.substring 0 limit s)) else Err Panicked.

Definition json_int (z : Z) : Value := VNumber (Number_of_int z).

Definition wrap_i32 (z : Z) : Z := (z + 2 ^ 31) mod 2 ^ 32 - 2 ^ 31.

(** [v - (v % w)] with [w] cast to the width of [v]: the remainder of zero, and of the
    least value by [-1], panics. *)
Definition truncate_int (width v w : Z) : result perr Value :=
  if bool_decide (w = 0) then Err Panicked
  else if bool_decide (w = -1 ∧ v = - 2 ^ (width - 1)) then Err Panicked
  else Ok (json_int (v - Z.rem v w)).

Section Apply.

(** [murmur3::murmur3_32], [NaiveDate::from_num_days_from_ce_opt] and
    [DateTime::from_timestamp], the last two as (year, month). *)
Context (murmur3_32 : bytes → Z → Z) (date_of_ce : Z → option (Z * Z))
        (datetime_of : Z → option (Z * Z)).

Definition str_bytes (s : string) : bytes := String.list_byte_of_string s.

Definition field_hash (c : ArrowCell) (seed : Z) : Z :=
  match c with
  | AInt32 v | AInt64 v | ADate32 v => murmur3_32 (le_split 8 v) seed
  | AUtf8 s | ALargeUtf8 s | AUtf8View s => murmur3_32 (str_bytes s) seed
  | _ => 0
  end.

(** The (year, month) of a date or a timestamp. *)
Definition year_month (c : ArrowCell) : option (Z * Z) :=
  match c with
  | ADate32 days => date_of_ce (wrap_i32 (days + 719163))
  | ATimestamp Microsecond micros => datetime_of (Z.quot micros 1000000)
  | _ => None
  end.

Definition apply_cells (t : IcebergTransform) (first : ArrowCell) (cells : list ArrowCell) :
    result perr Value :=
  match t with
  | Identity =>
      Ok match first with
         | AInt32 v | AInt64 v | ADate32 v | ATimestamp Microsecond v => json_int v
         | AUtf8 s | ALargeUtf8 s | AUtf8View s => VString s
         | _ => VNull
         end
  | Bucket n =>
      let hash_val := foldl (fun seed c => field_hash c seed) 0 cells in
      if bool_decide (n = 0) then Err Panicked
      else Ok (json_int (Z.land hash_val (2 ^ 31 - 1) mod n))
  | Truncate w =>
      match first with
      | AUtf8 s | ALargeUtf8 s | AUtf8View s => str_prefix s w
      | AInt32 v => truncate_int 32 v (wrap_i32 w)
      | AInt64 v => truncate_int 64 v w
      | _ => Ok VNull
      end
  | Year => Ok match year_month first with Some (y, _) => json_int (y - 1970) | None => VNull end
  | Month =>
      Ok match year_month first with Some (y, m) => json_int ((y - 1970) * 12 + m - 1) | None => VNull end
  | Day =>
      Ok match first with
         | ADate32 v => json_int v
         | ATimestamp Microsecond micros => json_int (Z.quot micros (1000000 * 60 * 60 * 24))
         | _ => VNull
         end
  | Hour =>
      Ok match first with
         | ATimestamp Microsecond micros => json_int (Z.quot micros (1000000 * 60 * 60))
         | _ => VNull
         end
  | Void => Ok VNull
  end.

(** [IcebergTransform::apply_multi] on the cells of one row *)
Definition apply_multi (t : IcebergTransform) (row : list (option ArrowCell)) : result perr Value :=
  match row, mapM id row with
  | [], _ => Ok VNull
  | _, None => Ok VNull
  | _, Some [] => Ok VNull
  | _, Some (first :: rest) => apply_cells t first (first :: rest)
  end.

(** ** Batches *)

Record Field := { fd_name : string; fd_iceberg_id : option string }.
Record RecordBatch := { rb_fields : list Field; rb_rows : list (list (option ArrowCell)) }.

(** [str::parse::<i32>] of the [iceberg.id] metadata *)
Definition parse_i32 (s : string) : option Z :=
  let '(neg, digits) :=
    match s with
    | String.String "-"%char s' => (true, s')
    | String.String "+"%char s' => (false, s')
    | _ => (false, s)
    end in
  match digits with
  | EmptyString => None
  | _ => n ← parse_digits 0 digits;
         let z := if neg : bool then - n else n in
         if decide (- 2 ^ 31 ≤ z < 2 ^ 31) then Some z else None
  end.

Definition has_id (id : Z) (f : Field) : Prop := (fd_iceberg_id f ≫= parse_i32) = Some id.
#[export] Instance has_id_dec id f : Decision (has_id id f).
Proof. unfold has_id. apply _. Defined.

(** The positions of the source columns of a partition field: by name, and by Iceberg id
    only when there is no column of that name. *)
Definition source_columns (fields : list Field) (f : PartitionField) : list nat :=
  match list_find (fun fd => fd_name fd = pf_name f) fields with
  | Some (idx, _) => [idx]
  | None => omap (fun id => fst <$> list_find (has_id id) fields) (get_source_ids f)
  end.

Definition cell_of_row (row : list (option ArrowCell)) (i : nat) : option ArrowCell :=
  default None (row !! i).

(** The partition value of one field for one row. *)
Definition field_key (fields : list Field) (row : list (option ArrowCell)) (f : PartitionField) :
    result perr Value :=
  match source_columns fields f with
  | [] => Err (MissingSource (pf_name f))
  | cols => apply_multi (parse_transform (pf_transform f)) (cell_of_row row <$> cols)
  end.

Fixpoint mapM_result {A B} (f : A → result perr B) (l : list A) : result perr (list B) :=
  match l with
  | [] => Ok []
  | x :: l => y ← f x; ys ← mapM_result f l; Ok (y :: ys)
  end.

Definition row_key (spec : PartitionSpec) (fields : list Field) (row : list (option ArrowCell)) :
    result perr (list Value) :=
  mapM_result (field_key fields row) (ps_fields spec).

(** [row_groups.entry(key).or_default().push(i)] (a batch has fewer than 2^32 rows); a hash
    map, kept as the association list of its keys in the order they are first seen. *)
Fixpoint push_row (key : list Value) (i : nat) (groups : list (list Value * list nat)) :
    list (list Value * list nat) :=
  match groups with
  | [] => [(key, [i])]
  | (k, idxs) :: groups =>
      if decide (k = key) then (k, idxs ++ [i]) :: groups else (k, idxs) :: push_row key i groups
  end.

Fixpoint group_rows (spec : PartitionSpec) (fields : list Field)
    (rows : list (list (option ArrowCell))) (i : nat) (groups : list (list Value * list nat)) :
    result perr (list (list Value * list nat)) :=
  match rows with
  | [] => Ok groups
  | row :: rows =>
      key ← row_key spec fields row; group_rows spec fields rows (S i) (push_row key i groups)
  end.

(** [partition_values.insert(field.name, key_vec[idx])]: a later field of the same name wins *)
Definition partition_values_of (spec : PartitionSpec) (key : list Value) : gmap string Value :=
  foldl (fun m '(f, v) => <[pf_name f := v]> m) ∅ (zip (ps_fields spec) key).

(** [take]: the rows at the indices *)
Definition take_rows (b : RecordBatch) (idxs : list nat) : RecordBatch :=
  {| rb_fields := rb_fields b; rb_rows := omap (fun i => rb_rows b !! i) idxs |}.

(** [PartitionSpec::partition_batch]; the order of the result is the hash map's and not
    specified *)
Definition partition_batch (spec : PartitionSpec) (b : RecordBatch) :
    result perr (list (gmap string Value * RecordBatch)) :=
  match ps_fields spec with
  | [] => Ok [(∅, b)]
  | _ =>
      (fun groups : list (list Value * list nat) =>
         (fun '(key, idxs) => (partition_values_of spec key, take_rows b idxs)) <$> groups) <$>
      group_rows spec (rb_fields b) (rb_rows b) 0 []
  end.

(** ** Values of transforms *)

(** Transform values are strings, integers or null: [Value]'s equality is that of keys. *)
Definition key_value (v : Value) : Prop :=
  match v with VNumber (Float _) | VBool _ | VOther _ => False | _ => True end.

Lemma json_int_key z : key_value (json_int z).
Proof. unfold json_int, Number_of_int. by case_bool_decide. Qed.

Lemma apply_multi_key t row v : apply_multi t row = Ok v → key_value v.
Proof.
  unfold apply_multi. destruct row as [|c row]; [by intros [= <-]|].
  destruct (mapM id (c :: row)) as [[|first rest]|]; [by intros [= <-]| |by intros [= <-]].
  unfold apply_cells, str_prefix, truncate_int.
  repeat case_match; intros Hv; simplify_eq; try done; apply json_int_key.
Qed.

(** A bucket is a number below the bucket count, whatever the cells and the
    hash function; a bucket count of zero (which an unreadable argument becomes) is
    a panic for every row without a null. *)
Theorem bucket_bounds n first rest :
  0 ≤ n →
  match apply_cells (Bucket n) first rest with
  | Ok v => ∃ b, v = VNumber (PosInt b) ∧ 0 ≤ b < n
  | Err e => e = Panicked ∧ n = 0
  end.
Proof.
  intros Hn. simpl. case_bool_decide as H0; [done|].
  set (h := foldl _ 0 rest). assert (0 ≤ Z.land h (2 ^ 31 - 1)) by (apply Z.land_nonneg; lia).
  pose proof (Z.mod_pos_bound (Z.land h (2 ^ 31 - 1)) n ltac:(lia)).
  exists (Z.land h (2 ^ 31 - 1) mod n). unfold json_int, Number_of_int.
  by rewrite bool_decide_false by lia.
Qed.

(** [truncate(w)] of an integer is a multiple of [w] next to it: below a value that is
    not negative, above a negative one. *)
Lemma truncate_int_spec width v w :
  0 < w →
  ∃ t, truncate_int width v w = Ok (json_int t) ∧ Z.rem t w = 0 ∧ Z.abs (v - t) < w ∧
       (0 ≤ v → 0 ≤ t ≤ v) ∧ (v ≤ 0 → v ≤ t ≤ 0).
Proof.
  intros Hw. unfold truncate_int. rewrite !bool_decide_false by lia.
  exists (v - Z.rem v w). split; [done|].
  pose proof (Z.quot_rem v w ltac:(lia)) as Hq.
  assert (v - Z.rem v w = w * Z.quot v w) as -> by lia.
  split; [by rewrite Z.mul_comm, Z.rem_mul by lia|].
  pose proof (Z.rem_bound_abs v w ltac:(lia)).
  split; [rewrite Hq at 1; lia|]. split; intros Hv.
  - pose proof (Z.rem_bound_pos_pos v w Hw Hv). pose proof (Z.quot_pos v w Hv Hw). nia.
  - pose proof (Z.rem_bound_pos_neg v w Hw Hv) as Hr.
    assert (Z.quot v w ≤ 0) by nia. nia.
Qed.

(** ** Batches *)

Definition row_at (b : RecordBatch) (i : nat) := rb_rows b !! i.

Lemma push_row_keys key i groups :
  (push_row key i groups).*1 = if decide (key ∈ groups.*1) then groups.*1 else groups.*1 ++ [key].
Proof.
  induction groups as [|[k idxs] groups IH]; csimpl; [done|].
  destruct (decide (k = key)) as [->|Hk]; csimpl.
  - rewrite decide_True by set_solver. done.
  - rewrite IH. destruct (decide (key ∈ groups.*1)).
    + by rewrite decide_True by set_solver.
    + by rewrite decide_False by set_solver.
Qed.

Lemma push_row_indices key i groups :
  concat (push_row key i groups).*2 ≡ₚ concat groups.*2 ++ [i].
Proof.
  induction groups as [|[k idxs] groups IH]; csimpl; [done|].
  case_decide; csimpl; [|by rewrite IH, app_assoc].
  rewrite <- !app_assoc. apply Permutation_app_head. apply Permutation_app_comm.
Qed.

Lemma push_row_elem key i groups k idxs j :
  (k, idxs) ∈ push_row key i groups → j ∈ idxs →
  (k = key ∧ j = i) ∨ ∃ idxs', (k, idxs') ∈ groups ∧ j ∈ idxs'.
Proof.
  induction groups as [|[k' idxs'] groups IH]; simpl.
  { intros [= -> ->]%list_elem_of_singleton ->%list_elem_of_singleton. by left. }
  case_decide as Hk; intros [[= -> ->]|Hin]%elem_of_cons Hj; subst.
  - apply elem_of_app in Hj as [Hj|Hj]; [|set_solver]. right. exists idxs'. set_solver.
  - right. exists idxs. set_solver.
  - right. exists idxs'. set_solver.
  - destruct (IH Hin Hj) as [?|(idxs2 & ? & ?)]; [by left|]. right. exists idxs2. set_solver.
Qed.

(** The groups of the first [n] rows. *)
Record groups_ok (spec : PartitionSpec) (b : RecordBatch) (n : nat)
    (groups : list (list Value * list nat)) : Prop := {
  groups_keys : NoDup groups.*1;
  groups_rows : concat groups.*2 ≡ₚ seq 0 n;
  groups_key k idxs i : (k, idxs) ∈ groups → i ∈ idxs →
    ∃ row, rb_rows b !! i = Some row ∧ row_key spec (rb_fields b) row = Ok k;
}.

Lemma group_rows_ok spec b rows done groups groups' :
  rb_rows b = done ++ rows → groups_ok spec b (length done) groups →
  group_rows spec (rb_fields b) rows (length done) groups = Ok groups' →
  groups_ok spec b (length (rb_rows b)) groups'.
Proof.
  revert done groups. induction rows as [|row rows IH]; intros dn groups Hb Hg Hr; simpl in Hr.
  { injection Hr as <-. by rewrite Hb, app_nil_r. }
  destruct (row_key spec (rb_fields b) row) as [key|e] eqn:Hk; [|done]. simpl in Hr.
  apply (IH (dn ++ [row]) (push_row key (length dn) groups)); [by rewrite Hb, <- app_assoc| |].
  2:{ by rewrite length_app, Nat.add_comm. }
  destruct Hg as [Hnd Hrows Hkey]. split.
  - rewrite push_row_keys. case_decide as Hin; [done|].
    apply NoDup_app. split_and!; [done|set_solver|apply NoDup_singleton].
  - rewrite push_row_indices, Hrows, length_app. simpl. by rewrite seq_app.
  - intros k idxs i Hin Hi. destruct (push_row_elem _ _ _ _ _ _ Hin Hi) as [[-> ->]|(idxs' & ? & ?)].
    + exists row. split; [|done]. rewrite Hb. by apply list_lookup_middle.
    + by apply (Hkey k idxs').
Qed.

Lemma mapM_result_Forall2 {A B} (f : A → result perr B) l k :
  mapM_result f l = Ok k → Forall2 (fun x y => f x = Ok y) l k.
Proof.
  revert k. induction l as [|x l IH]; intros k Hk; simpl in Hk; [injection Hk as <-; constructor|].
  destruct (f x) as [y|] eqn:Hy; [|done]. simpl in Hk.
  destruct (mapM_result f l) as [ys|]; [|done]. injection Hk as <-. constructor; auto.
Qed.

Lemma foldl_insert_ne (l : list (PartitionField * Value)) (m : gmap string Value) n :
  n ∉ (fun p => pf_name p.1) <$> l →
  foldl (fun m '(f, v) => <[pf_name f := v]> m) m l !! n = m !! n.
Proof.
  revert m. induction l as [|[f v] l IH]; intros m Hn; [done|]. csimpl in *.
  rewrite IH by set_solver. apply lookup_insert_ne. set_solver.
Qed.

(** With distinct field names, each field has its component of the key. *)
Lemma partition_values_lookup spec key i f v :
  NoDup (pf_name <$> ps_fields spec) → ps_fields spec !! i = Some f → key !! i = Some v →
  partition_values_of spec key !! pf_name f = Some v.
Proof.
  unfold partition_values_of. generalize (∅ : gmap string Value). generalize (ps_fields spec).
  intros fs m Hnd. revert key i m. induction fs as [|f0 fs IH]; intros [|v0 key] i m Hf Hv; try done.
  csimpl in *. apply NoDup_cons in Hnd as [Hn Hnd].
  destruct i as [|i]; simplify_eq/=; [|by apply (IH Hnd key i)].
  rewrite foldl_insert_ne; [apply lookup_insert_eq|].
  intros Hin. apply Hn. apply list_elem_of_fmap in Hin as ([g w] & Hg & Hin).
  apply list_elem_of_fmap. exists g. split; [done|].
  apply list_elem_of_lookup in Hin as [j Hj]. apply lookup_zip_Some in Hj as [Hj _].
  by apply list_elem_of_lookup_2 in Hj.
Qed.

Lemma row_key_length spec fields row key :
  row_key spec fields row = Ok key → length key = length (ps_fields spec).
Proof. intros H%mapM_result_Forall2. by apply Forall2_length in H. Qed.

(** The groups behind the parts. *)
Lemma partition_batch_groups spec b parts :
  ps_fields spec ≠ [] → partition_batch spec b = Ok parts →
  ∃ groups, groups_ok spec b (length (rb_rows b)) groups ∧
    parts = (fun '(key, idxs) => (partition_values_of spec key, take_rows b idxs)) <$> groups ∧
    ∀ k idxs row, (k, idxs) ∈ groups → row ∈ rb_rows (take_rows b idxs) →
                  row_key spec (rb_fields b) row = Ok k.
Proof.
  intros Hne Hp. unfold partition_batch in Hp.
  destruct (ps_fields spec) as [|f0 fs] eqn:Hfs; [done|]. rewrite <- Hfs in *.
  destruct (group_rows spec (rb_fields b) (rb_rows b) 0 []) as [groups|] eqn:Hg; [|done].
  injection Hp as <-. exists groups.
  apply (group_rows_ok spec b (rb_rows b) [] []) in Hg;
    [|done|split; [constructor|done|set_solver]].
  split; [done|]. split; [done|].
  intros k idxs row Hin Hrow. simpl in Hrow. apply list_elem_of_omap in Hrow as (i & Hi & Hl).
  destruct (groups_key _ _ _ _ Hg k idxs i Hin Hi) as (row' & Hl' & Hkey). congruence.
Qed.

Lemma parts_keys spec b parts pv sub row :
  ps_fields spec ≠ [] → partition_batch spec b = Ok parts → (pv, sub) ∈ parts → row ∈ rb_rows sub →
  ∃ key, row_key spec (rb_fields b) row = Ok key ∧ pv = partition_values_of spec key.
Proof.
  intros Hne Hp Hin Hrow. destruct (partition_batch_groups _ _ _ Hne Hp) as (groups & _ & -> & Hk).
  apply list_elem_of_fmap in Hin as ([k idxs] & [= -> ->] & Hin). exists k.
  split; [by apply (Hk k idxs)|done].
Qed.

(** The rows of the parts are those of the batch. *)
Lemma partition_batch_rows spec b parts :
  partition_batch spec b = Ok parts → (parts ≫= fun p => rb_rows p.2) ≡ₚ rb_rows b.
Proof.
  destruct (decide (ps_fields spec = [])) as [Hnil|Hne].
  { unfold partition_batch. rewrite Hnil. intros [= <-]. csimpl. by rewrite app_nil_r. }
  intros Hp. destruct (partition_batch_groups _ _ _ Hne Hp) as (groups & [Hk Hr He] & -> & _).
  rewrite list_fmap_bind. unfold compose.
  transitivity (omap (fun i => rb_rows b !! i) (concat groups.*2)).
  - clear. induction groups as [|[k idxs] groups IH]; [done|]. csimpl. rewrite omap_app, <- IH. done.
  - rewrite Hr. by rewrite omap_lookup_all.
Qed.

(** C27: partitioning a batch loses and repeats no row: the rows of the parts are a
    permutation of the batch's, every row lies in the part of its own key, and
    different parts have different partition values. *)
Theorem partition_batch_partitions spec b parts :
  ps_fields spec ≠ [] → NoDup (pf_name <$> ps_fields spec) →
  partition_batch spec b = Ok parts →
  (parts ≫= (fun p => rb_rows p.2)) ≡ₚ rb_rows b ∧
  (∀ pv sub row, (pv, sub) ∈ parts → row ∈ rb_rows sub →
     ∃ key, row_key spec (rb_fields b) row = Ok key ∧ pv = partition_values_of spec key) ∧
  (∀ i j pv pv' sub sub', i ≠ j → parts !! i = Some (pv, sub) → parts !! j = Some (pv', sub') →
     rb_rows sub ≠ [] → rb_rows sub' ≠ [] → pv ≠ pv').
Proof.
  intros Hne Hnd Hp.
  destruct (partition_batch_groups _ _ _ Hne Hp) as (groups & [Hk Hr He] & -> & Hrow).
  split_and!.
  - by eapply partition_batch_rows.
  - intros pv sub row Hin Hrw. by eapply parts_keys.
  - intros i j pv pv' sub sub' Hij Hi Hj Hn Hn' ->.
    rewrite list_lookup_fmap in Hi, Hj.
    destruct (groups !! i) as [[k idxs]|] eqn:Ei; simplify_eq/=.
    destruct (groups !! j) as [[k' idxs']|] eqn:Ej; simplify_eq/=.
    apply Hij. apply (NoDup_lookup groups.*1 i j k); [done|by rewrite list_lookup_fmap, Ei|].
    rewrite list_lookup_fmap, Ej. simpl. f_equal.
    destruct (omap _ idxs) as [|row ?] eqn:Eo in Hn; [done|].
    destruct (omap _ idxs') as [|row' ?] eqn:Eo' in Hn'; [done|].
    pose proof (Hrow k idxs row (list_elem_of_lookup_2 _ _ _ Ei)) as H1.
    pose proof (Hrow k' idxs' row' (list_elem_of_lookup_2 _ _ _ Ej)) as H2.
    simpl in H1, H2. rewrite Eo in H1. rewrite Eo' in H2.
    specialize (H1 ltac:(by constructor)). specialize (H2 ltac:(by constructor)).
    apply row_key_length in H1. apply row_key_length in H2.
    apply list_eq. intros n. destruct (ps_fields spec !! n) as [f|] eqn:Ef.
    + destruct (lookup_lt_is_Some_2 k n) as [v Hv]; [apply lookup_lt_Some in Ef; lia|].
      destruct (lookup_lt_is_Some_2 k' n) as [v' Hv']; [apply lookup_lt_Some in Ef; lia|].
      pose proof (partition_values_lookup spec k n f v Hnd Ef Hv).
      pose proof (partition_values_lookup spec k' n f v' Hnd Ef Hv'). congruence.
    + apply lookup_ge_None in Ef. rewrite !lookup_ge_None_2 by lia. done.
Qed.

(** ** Partition values and pruning *)

Definition sql_cell (c : option ArrowCell) : Cell :=
  match c with
  | Some (AInt32 z) | Some (AInt64 z) => CInt z
  | Some (AUtf8 s) | Some (ALargeUtf8 s) | Some (AUtf8View s) => CString s
  | Some (ABoolean b) => CBool b
  | Some (AFloat32 f) => CFloat (f32_as_f64 f)
  | Some (AFloat64 f) => CFloat f
  | _ => CNull
  end.

(** The row as the filter sees it: the first column of a name. *)
Definition sql_row (fields : list Field) (row : list (option ArrowCell)) (c : string) : Cell :=
  match list_find (fun fd => fd_name fd = c) fields with
  | Some (idx, _) => sql_cell (cell_of_row row idx)
  | None => CNull
  end.

(** Null, an integer, or a text. *)
Definition keyable (c : option ArrowCell) : Prop :=
  match c with
  | None | Some (AUtf8 _) | Some (ALargeUtf8 _) | Some (AUtf8View _) => True
  | Some (AInt32 z) | Some (AInt64 z) => is_i64_range z
  | _ => False
  end.

Lemma identity_value c :
  keyable c →
  ∃ v, apply_multi Identity [c] = Ok v ∧ plain v ∧ cell_of_value v = sql_cell c.
Proof.
  intros Hc. destruct c as [[z|z|t|t|t|d|u t|bb|g|g|t]|]; try done; unfold apply_multi; simpl;
    try (eexists; split; [reflexivity|]; split; [done|done]);
    (eexists; split; [reflexivity|]; split; [by apply Number_of_int_plain|apply cell_of_int]).
Qed.

Lemma partition_values_inv spec key n v :
  partition_values_of spec key !! n = Some v →
  ∃ i f, ps_fields spec !! i = Some f ∧ key !! i = Some v ∧ pf_name f = n.
Proof.
  unfold partition_values_of.
  assert (∀ l (m : gmap string Value), foldl (fun m '(f, v) => <[pf_name f := v]> m) m l !! n = Some v →
            m !! n = Some v ∨ ∃ i f, l !! i = Some (f, v) ∧ pf_name f = n) as Hl.
  { induction l as [|[f w] l IH]; intros m Hm; [by left|]. simpl in Hm.
    destruct (IH _ Hm) as [Hi|(i & g & ? & ?)]; [|right; by exists (S i), g].
    apply lookup_insert_Some in Hi as [[<- ->]|[_ ?]]; [right; by exists 0%nat, f|by left]. }
  intros [Hm|(i & f & Hz & Hn)]%Hl; [by rewrite lookup_empty in Hm|].
  apply lookup_zip_Some in Hz as [? ?]. eauto.
Qed.

(** The partition values of an identity-partitioned part are the values of its
    rows, on integer and text columns: the hypothesis under which pruning by
    partition values is sound holds of the files [partition_batch] makes. *)
Theorem identity_partition_values spec b parts pv sub row :
  ps_fields spec ≠ [] → NoDup (pf_name <$> ps_fields spec) →
  partition_batch spec b = Ok parts → (pv, sub) ∈ parts → row ∈ rb_rows sub →
  Forall (fun f => parse_transform (pf_transform f) = Identity ∧
                   ∃ idx fd, list_find (fun fd => fd_name fd = pf_name f) (rb_fields b) = Some (idx, fd) ∧
                             keyable (cell_of_row row idx)) (ps_fields spec) →
  ∀ c v, pv !! c = Some v → plain v ∧ cell_of_value v = sql_row (rb_fields b) row c.
Proof.
  intros Hne Hnd Hp Hin Hrow Hf c v Hv.
  assert (∃ key, row_key spec (rb_fields b) row = Ok key ∧ pv = partition_values_of spec key)
    as (key & Hk & ->) by (eapply parts_keys; eauto).
  apply partition_values_inv in Hv as (i & f & Hi & Hkv & <-).
  pose proof (Forall_lookup_1 _ _ _ _ Hf Hi) as (Ht & idx & fd & Hfind & Hkey).
  apply mapM_result_Forall2 in Hk. pose proof (Forall2_lookup_lr _ _ _ _ _ _ Hk Hi Hkv) as Hfk.
  unfold field_key, source_columns in Hfk. rewrite Hfind, Ht in Hfk. simpl in Hfk.
  destruct (identity_value _ Hkey) as (v' & Hv' & Hpl & Hc). unfold sql_row. rewrite Hfind.
  simpl in Hv'. rewrite Hv' in Hfk. injection Hfk as <-. done.
Qed.

End Apply.

(** ** Concrete batches *)

Definition murmur0 (_ : bytes) (seed : Z) : Z := seed + 12345.
Definition no_date (_ : Z) : option (Z * Z) := None.

Definition spec_on (name transform : string) : PartitionSpec :=
  {| ps_spec_id := 0; ps_fields := [new_single 1 (Some 1000) name transform] |}.
Definition one_column (name : string) (cells : list (option ArrowCell)) : RecordBatch :=
  {| rb_fields := [{| fd_name := name; fd_iceberg_id := None |}]; rb_rows := (fun c => [c]) <$> cells |}.

Lemma bucket_bounds_witness :
  match apply_cells murmur0 no_date no_date (Bucket 8) (AUtf8 "a") [AUtf8 "a"] with
  | Ok v => ∃ b, v = VNumber (PosInt b) ∧ 0 ≤ b < 8
  | Err e => e = Panicked ∧ 8 = 0
  end.
Proof. apply (bucket_bounds murmur0 no_date no_date 8). lia. Defined.

Lemma partition_batch_partitions_witness :
  let b := one_column "n" [Some (AInt64 123); Some (AInt64 200); Some (AInt64 127); None] in
  match partition_batch murmur0 no_date no_date (spec_on "n" "truncate(10)") b with
  | Ok parts =>
      length parts = 3%nat ∧
      (parts ≫= (fun p => rb_rows p.2)) ≡ₚ rb_rows b
  | Err _ => False
  end.
Proof.
  intros b.
  destruct (partition_batch murmur0 no_date no_date (spec_on "n" "truncate(10)") b) as [parts|] eqn:E.
  - split; [vm_compute in E; by injection E as <-|].
    refine (proj1 (partition_batch_partitions murmur0 no_date no_date (spec_on "n" "truncate(10)") b parts _ _ E)).
    + done.
    + apply NoDup_singleton.
  - by vm_compute in E.
Defined.

Lemma identity_partition_values_witness :
  let b := one_column "n" [Some (AInt64 123); Some (AUtf8 "x")] in
  match partition_batch murmur0 no_date no_date (spec_on "n" "identity") b with
  | Ok ((pv, sub) :: _) =>
      pv !! "n" = Some (VNumber (PosInt 123)) ∧
      ∀ c v, pv !! c = Some v → plain v ∧ cell_of_value v = sql_row (rb_fields b) [Some (AInt64 123)] c
  | _ => False
  end.
Proof.
  intros b.
  destruct (partition_batch murmur0 no_date no_date (spec_on "n" "identity") b) as [parts|] eqn:E;
    [|by vm_compute in E].
  pose proof E as E'. vm_compute in E'. injection E' as <-. split; [by vm_compute|].
  eapply (identity_partition_values murmur0 no_date no_date (spec_on "n" "identity") b _ _ _ _ _ _ E).
  - by constructor.
  - by constructor.
  - constructor; [|constructor]. split; [by vm_compute|]. exists 0%nat. eexists. split; [by vm_compute|].
    by vm_compute.
  Unshelve.
  + done.
  + apply NoDup_singleton.
Defined.

(** ** Partitions whose rows pruning cannot find

    The partition value of a transformed column is stored under the column's own name and
    compared with the filter's literal as if it were the column's value. *)

(** The entry of a file of one part. *)
Definition part_entry (pv : gmap string Value) (rows : Z) : ManifestEntry :=
  {| me_file_path := "part.parquet"; me_file_size_bytes := 1; me_record_count := rows;
     me_file_checksum := None; me_index_files := []; me_delete_files := []; me_column_stats := ∅;
     me_partition_values := pv; me_clustering := Clustering_default; me_first_row_id := None |}.

Definition eq_filter (col : string) (s : ScalarValue) : Expr := EBinary (EColumn col) OpEq (ELiteral s).

Lemma number_partition_is_pruned col pv rows n s :
  pv !! col = Some (VNumber n) →
  prune_entries [part_entry pv rows] (Some (eq_filter col (SUtf8 (Some s)))) None = [].
Proof.
  intros Hpv.
  assert (classify_condition (part_entry pv rows)
            (cmp_filter col (Some (VString s)) true (Some (VString s)) true (Some [VString s]) false)
          = Some PartitionNotInList) as Hc.
  { unfold classify_condition. cbn [cmp_filter qf_negated qf_column me_partition_values part_entry].
    rewrite Hpv. done. }
  unfold prune_entries, matches, eq_filter, filter. cbn -[classify_condition].
  unfold might_match_condition, cmp_filter in *. by rewrite Hc.
Qed.

(** A table bucketed on a text column cannot be queried by that column: whatever the
    hash function, the part that holds the rows with value [s] is pruned by [col = s],
    because its partition value is the bucket number. *)
Theorem bucket_partition_is_pruned murmur date_of_ce datetime_of s :
  let b := one_column "category" [Some (AUtf8 s)] in
  ∃ pv, partition_batch murmur date_of_ce datetime_of (spec_on "category" "bucket(8)") b = Ok [(pv, b)] ∧
    (∀ cast opaque, eval (sql_row (rb_fields b) [Some (AUtf8 s)]) cast opaque
                      (eq_filter "category" (SUtf8 (Some s))) = Some true) ∧
    prune_entries [part_entry pv 1] (Some (eq_filter "category" (SUtf8 (Some s)))) None = [].
Proof.
  intros b. eexists. split; [reflexivity|]. split.
  - intros cast opaque. change (compare3 OpEq (CString s) (CString s) = Some true).
    unfold compare3, cell_cmp. by rewrite string_compare_refl.
  - eapply number_partition_is_pruned. by apply lookup_insert_eq.
Qed.

(** So are integers in truncated partitions: [n = 127] prunes the part [120] that
    holds the row. *)
Theorem truncate_partition_is_pruned murmur date_of_ce datetime_of :
  let b := one_column "n" [Some (AInt64 127)] in
  ∃ pv, partition_batch murmur date_of_ce datetime_of (spec_on "n" "truncate(10)") b = Ok [(pv, b)] ∧
    (∀ cast opaque, eval (sql_row (rb_fields b) [Some (AInt64 127)]) cast opaque
                      (eq_filter "n" (SInt64 (Some 127))) = Some true) ∧
    prune_entries [part_entry pv 1] (Some (eq_filter "n" (SInt64 (Some 127)))) None = [].
Proof. intros b. eexists. split; [reflexivity|]. split; [done|by vm_compute]. Qed.

(** An identity partition on a boolean column has the value null for every row, and
    [flag = true] prunes it. *)
Theorem boolean_partition_is_pruned murmur date_of_ce datetime_of :
  let b := one_column "flag" [Some (ABoolean true); Some (ABoolean false)] in
  ∃ pv, partition_batch murmur date_of_ce datetime_of (spec_on "flag" "identity") b = Ok [(pv, b)] ∧
    (∀ cast opaque, eval (sql_row (rb_fields b) [Some (ABoolean true)]) cast opaque
                      (eq_filter "flag" (SBoolean (Some true))) = Some true) ∧
    prune_entries [part_entry pv 2] (Some (eq_filter "flag" (SBoolean (Some true)))) None = [].
Proof. intros b. eexists. split; [reflexivity|]. split; [done|by vm_compute]. Qed.

(** Integer division rounds to zero, so negative values share the partition of zero, and
    a moment before 1970 the partition of its first day. *)
Example truncate_negative : truncate_int 64 (-7) 10 = Ok (json_int 0).
Proof. reflexivity. Qed.
Example day_before_epoch :
  apply_cells murmur0 no_date no_date Day (ATimestamp Microsecond (-1)) [] = Ok (json_int 0).
Proof. reflexivity. Qed.
(** A prefix that ends inside a character is a panic. *)
Example truncate_splits_character :
  str_prefix (String.string_of_list_ascii (ascii_of_nat <$> [104; 195; 169]%nat)) 2 = Err Panicked.
Proof. reflexivity. Qed.
