(* ===== verification/Clustering.v ===== *)
(** * Space-filling curves ([src/src/core/clustering.rs])

    The Z-order score of a row (the bits of its normalized coordinates, interleaved from
    the highest), the Gray-code variant, the normalization of a column to [bits] bits,
    and the clustering of a batch by its scores.  Words are [u64]: a shift drops the bits
    above 64 and takes its amount modulo 64 (the release profile). *)

From Stdlib Require Import Floats.SpecFloat Sorting.Sorted.
From S2P Require Import Prelude Json.

Local Open Scope Z_scope.

(** ** Scores *)

Definition shl_u64 (a s : Z) : Z := wrap_u64 (Z.shiftl a (s mod 64)).

(** One level of bits: [interleaved = (interleaved << 1) | bit_val] for each coordinate. *)
Definition zorder_level (coords : list Z) (shift : nat) (interleaved : Z) : Z :=
  foldl (fun acc val => Z.lor (shl_u64 acc 1) (Z.land (Z.shiftr val (Z.of_nat shift)) 1)) interleaved coords.

Definition compute_zorder_score (bits_per_col : nat) (coords : list Z) : Z :=
  foldl (fun acc bit => zorder_level coords (bits_per_col - 1 - bit) acc) 0 (seq 0 bits_per_col).

Example zorder_ex : compute_zorder_score 2 [2; 1] = 9. Proof. reflexivity. Qed.

(** [q]: bit [i] is set when coordinate [i] has the bit [m] *)
Definition gray_level (n : nat) (x : list Z) (m : Z) : Z :=
  foldl (fun q '(i, xi) => if bool_decide (Z.land xi m ≠ 0) then Z.lor q (shl_u64 1 (Z.of_nat i)) else q)
    0 (take n (imap (fun i xi => (i, xi)) x)).

(** The loop: [m] is halved in each round. *)
Fixpoint gray_loop (rounds n : nat) (x : list Z) (m h : Z) : Z :=
  match rounds with
  | O => h
  | S rounds =>
      let q := gray_level n x m in
      let p := Z.lxor q (Z.shiftr q 1) in
      gray_loop rounds n x (Z.shiftr m 1) (Z.lor (shl_u64 h (Z.of_nat n)) p)
  end.

Definition gray_code_interleave_index (n bits : nat) (x : list Z) : Z :=
  gray_loop bits n x (shl_u64 1 (Z.of_nat bits - 1)) 0.

(** ** The Z-order score as a number

    Without overflow the loop computes [zval]: the level's bits as a number, then the
    levels below. *)

Definition bit (v : Z) (s : nat) : Z := Z.land (Z.shiftr v (Z.of_nat s)) 1.
Definition level_bits (coords : list Z) (s : nat) (acc : Z) : Z :=
  foldl (fun a v => 2 * a + bit v s) acc coords.
Fixpoint zval (b : nat) (coords : list Z) : Z :=
  match b with
  | O => 0
  | S b => level_bits coords b 0 * 2 ^ (Z.of_nat (length coords * b)) + zval b coords
  end.

Lemma bit_range v s : 0 ≤ bit v s ≤ 1.
Proof.
  unfold bit. change 1 with (Z.ones 1) at 1 2. rewrite Z.land_ones by lia.
  pose proof (Z.mod_pos_bound (Z.shiftr v (Z.of_nat s)) (2 ^ 1)). lia.
Qed.

(** A coordinate below [2^(s+1)] is its bit [s] and the rest. *)
Lemma bit_split v s : v mod 2 ^ Z.of_nat (S s) = bit v s * 2 ^ Z.of_nat s + v mod 2 ^ Z.of_nat s.
Proof.
  unfold bit. change 1 with (Z.ones 1). rewrite Z.land_ones by lia.
  rewrite Z.shiftr_div_pow2 by lia. rewrite Nat2Z.inj_succ, Z.pow_succ_r by lia.
  rewrite (Z.mul_comm 2), Z.rem_mul_r by lia. change (2 ^ 1) with 2. lia.
Qed.

Lemma level_bits_acc coords s acc :
  level_bits coords s acc = acc * 2 ^ Z.of_nat (length coords) + level_bits coords s 0.
Proof.
  unfold level_bits. revert acc. induction coords as [|v coords IH]; intros acc; cbn [foldl length].
  { change (2 ^ Z.of_nat 0) with 1. lia. }
  rewrite (IH (2 * acc + bit v s)), (IH (2 * 0 + bit v s)).
  rewrite Nat2Z.inj_succ, Z.pow_succ_r by lia. lia.
Qed.

Lemma level_bits_range coords s : 0 ≤ level_bits coords s 0 < 2 ^ Z.of_nat (length coords).
Proof.
  induction coords as [|v coords IH]; [by vm_compute|]. cbn [length].
  change (level_bits (v :: coords) s 0) with (level_bits coords s (2 * 0 + bit v s)).
  rewrite level_bits_acc, Nat2Z.inj_succ, Z.pow_succ_r by lia.
  pose proof (bit_range v s). nia.
Qed.

Lemma lor_bit a b : 0 ≤ b ≤ 1 → Z.lor (2 * a) b = 2 * a + b.
Proof.
  intros Hb. assert (b = 0 ∨ b = 1) as [-> | ->] by lia; [by rewrite Z.lor_0_r, Z.add_0_r|].
  rewrite <- Z.add_lor_land.
  assert (Z.land (2 * a) 1 = 0) as ->; [|lia].
  change 1 with (Z.ones 1). rewrite Z.land_ones by lia. rewrite Z.mul_comm. apply Z.mod_mul. lia.
Qed.

(** A level of the loop does not overflow below 64 bits. *)
Lemma zorder_level_spec coords s acc k :
  0 ≤ acc < 2 ^ Z.of_nat k → (k + length coords ≤ 64)%nat →
  zorder_level coords s acc = level_bits coords s acc.
Proof.
  unfold zorder_level, level_bits. revert acc k.
  induction coords as [|v coords IH]; intros acc k Ha Hk; simpl in *; [done|].
  assert (shl_u64 acc 1 = 2 * acc) as E.
  { unfold shl_u64. change (1 mod 64) with 1. rewrite Z.shiftl_mul_pow2 by lia.
    rewrite Z.mul_comm, wrap_u64_small; [done|]. split; [lia|].
    apply Z.lt_le_trans with (2 * 2 ^ Z.of_nat k); [change (2 ^ 1) with 2; lia|].
    rewrite <- Z.pow_succ_r by lia. apply Z.pow_le_mono_r; lia. }
  pose proof (bit_range v s) as Hb. unfold bit in Hb. rewrite E, lor_bit by done.
  apply (IH _ (S k)); [|lia]. rewrite Nat2Z.inj_succ, Z.pow_succ_r by lia. unfold bit. lia.
Qed.

Lemma zval_range b coords : 0 ≤ zval b coords < 2 ^ Z.of_nat (length coords * b).
Proof.
  induction b as [|b IH]; simpl; [rewrite Nat.mul_0_r; by vm_compute|].
  pose proof (level_bits_range coords b). rewrite Nat.mul_succ_r, Nat2Z.inj_add, Z.pow_add_r by lia.
  pose proof (Z.pow_pos_nonneg 2 (Z.of_nat (length coords * b))). nia.
Qed.

(** The levels from [b - 1] down. *)
Fixpoint zorder_down (coords : list Z) (b : nat) (acc : Z) : Z :=
  match b with O => acc | S b => zorder_down coords b (zorder_level coords b acc) end.

Lemma foldl_levels coords b start acc :
  foldl (fun acc i => zorder_level coords (start + b - 1 - i) acc) acc (seq start b) =
  zorder_down coords b acc.
Proof.
  revert start acc. induction b as [|b IH]; intros start acc; [done|]. cbn [seq foldl zorder_down].
  replace (start + S b - 1 - start)%nat with b by lia.
  rewrite <- (IH (S start)). by replace (start + S b)%nat with (S start + b)%nat by lia.
Qed.

Lemma zorder_down_spec coords b acc k :
  0 ≤ acc < 2 ^ Z.of_nat k → (k + length coords * b ≤ 64)%nat →
  zorder_down coords b acc = acc * 2 ^ Z.of_nat (length coords * b) + zval b coords.
Proof.
  revert acc k. induction b as [|b IH]; intros acc k Ha Hk.
  { simpl. rewrite Nat.mul_0_r. change (2 ^ Z.of_nat 0) with 1. lia. }
  cbn [zorder_down zval]. rewrite (zorder_level_spec _ _ _ k) by lia.
  pose proof (level_bits_range coords b) as Hl.
  pose proof (level_bits_acc coords b acc) as El.
  rewrite (IH _ (k + length coords)%nat); [|split|lia].
  - rewrite El, Nat.mul_succ_r, Nat2Z.inj_add, Z.pow_add_r by lia. lia.
  - nia.
  - rewrite El, Nat2Z.inj_add, Z.pow_add_r by lia. nia.
Qed.

Lemma zorder_score_zval bits coords :
  (length coords * bits ≤ 64)%nat → compute_zorder_score bits coords = zval bits coords.
Proof.
  intros H. etransitivity; [apply (foldl_levels coords bits 0 0)|].
  rewrite (zorder_down_spec _ _ _ 0); [done|by vm_compute|lia].
Qed.

(** ** Order and injectivity *)

Lemma Forall2_conj {A B} (P Q : A → B → Prop) l k :
  Forall2 P l k → Forall2 Q l k → Forall2 (fun x y => P x y ∧ Q x y) l k.
Proof. intros H. induction H; inversion 1; constructor; auto. Qed.

Lemma level_bits_inj s xs ys a a' :
  length xs = length ys → level_bits xs s a = level_bits ys s a' →
  a = a' ∧ Forall2 (fun x y => bit x s = bit y s) xs ys.
Proof.
  unfold level_bits. revert ys a a'. induction xs as [|x xs IH]; intros [|y ys] a a' Hl He; try done.
  simpl in Hl. injection Hl as Hl. destruct (IH _ _ _ Hl He) as [E HF].
  pose proof (bit_range x s). pose proof (bit_range y s).
  assert (bit x s = bit y s) by lia. split; [lia|by constructor].
Qed.

Lemma level_bits_mono s xs ys a a' :
  Forall2 (fun x y => bit x s ≤ bit y s) xs ys → a ≤ a' → level_bits xs s a ≤ level_bits ys s a'.
Proof.
  intros H. unfold level_bits. revert a a'. induction H as [|x y xs ys Hxy H IH]; intros a a' Ha; simpl; [done|].
  apply IH. lia.
Qed.

Lemma bit_mono x y s :
  x mod 2 ^ Z.of_nat (S s) ≤ y mod 2 ^ Z.of_nat (S s) →
  bit x s ≤ bit y s ∧ (bit x s = bit y s → x mod 2 ^ Z.of_nat s ≤ y mod 2 ^ Z.of_nat s).
Proof.
  rewrite !bit_split. intros H. pose proof (bit_range x s). pose proof (bit_range y s).
  pose proof (Z.mod_pos_bound x (2 ^ Z.of_nat s) ltac:(lia)).
  pose proof (Z.mod_pos_bound y (2 ^ Z.of_nat s) ltac:(lia)).
  split; [nia|]. intros E. rewrite E in H. lia.
Qed.

Lemma zval_mono b xs ys :
  Forall2 (fun x y => x mod 2 ^ Z.of_nat b ≤ y mod 2 ^ Z.of_nat b) xs ys → zval b xs ≤ zval b ys.
Proof.
  induction b as [|b IH]; intros H; [done|].
  pose proof (Forall2_length _ _ _ H) as Hlen.
  assert (Forall2 (fun x y => bit x b ≤ bit y b) xs ys) as Hb
    by (eapply Forall2_impl; [exact H|]; intros x y Hxy; by apply bit_mono).
  pose proof (level_bits_mono b xs ys 0 0 Hb ltac:(lia)) as Hl.
  pose proof (zval_range b xs) as Rx. pose proof (zval_range b ys) as Ry.
  cbn [zval]. rewrite <- Hlen in *.
  destruct (Z.eq_dec (level_bits xs b 0) (level_bits ys b 0)) as [E|E]; [|nia].
  rewrite E. apply Z.add_le_mono_l, IH.
  apply level_bits_inj in E as [_ E]; [|done].
  eapply Forall2_impl; [exact (Forall2_conj _ _ _ _ H E)|].
  intros x y [Hxy Exy]. by apply bit_mono.
Qed.

Lemma zval_inj b xs ys :
  length xs = length ys → zval b xs = zval b ys →
  Forall2 (fun x y => x mod 2 ^ Z.of_nat b = y mod 2 ^ Z.of_nat b) xs ys.
Proof.
  intros Hlen. induction b as [|b IH]; intros H.
  { apply Forall2_same_length_lookup_2; [done|]. intros. by rewrite !Z.mod_1_r. }
  pose proof (zval_range b xs) as Rx. pose proof (zval_range b ys) as Ry.
  cbn [zval] in H. rewrite <- Hlen in *.
  assert (level_bits xs b 0 = level_bits ys b 0) as E by nia.
  assert (zval b xs = zval b ys) as E' by nia.
  apply level_bits_inj in E as [_ E]; [|done].
  eapply Forall2_impl; [exact (Forall2_conj _ _ _ _ (IH E') E)|].
  intros x y [Hxy Exy]. by rewrite !bit_split, Hxy, Exy.
Qed.

(** Coordinates of [bits] bits. *)
Definition coords_ok (bits : nat) (xs : list Z) : Prop := Forall (fun x => 0 ≤ x < 2 ^ Z.of_nat bits) xs.

Lemma coords_ok_mod (R : Z → Z → Prop) bits xs ys :
  coords_ok bits xs → coords_ok bits ys →
  Forall2 (fun x y => R (x mod 2 ^ Z.of_nat bits) (y mod 2 ^ Z.of_nat bits)) xs ys ↔ Forall2 R xs ys.
Proof.
  intros Hx Hy. split; intros H; induction H as [|x y xs ys H1 H2 IH]; constructor;
    apply Forall_cons in Hx as [? ?]; apply Forall_cons in Hy as [? ?]; auto.
  - by rewrite !Z.mod_small in H1.
  - by rewrite !Z.mod_small.
Qed.

(** The Z-order score of coordinates that fit into 64 bits together is below
    [2^(n * bits)], determines the coordinates, and is monotone in each of them: the rows
    of a box lie between the scores of its corners. *)
Theorem zorder_score_spec bits xs ys :
  (length xs * bits ≤ 64)%nat → length xs = length ys →
  coords_ok bits xs → coords_ok bits ys →
  0 ≤ compute_zorder_score bits xs < 2 ^ Z.of_nat (length xs * bits) ∧
  (compute_zorder_score bits xs = compute_zorder_score bits ys → xs = ys) ∧
  (Forall2 Z.le xs ys → compute_zorder_score bits xs ≤ compute_zorder_score bits ys).
Proof.
  intros H64 Hlen Hx Hy. rewrite !zorder_score_zval by lia. split_and!.
  - apply zval_range.
  - apply zval_range.
  - intros H%zval_inj; [|done]. apply (coords_ok_mod eq bits) in H; [|done..].
    apply list_eq_Forall2; done.
  - intros H. apply zval_mono. by apply (coords_ok_mod Z.le bits).
Qed.

Lemma zorder_score_spec_witness :
  compute_zorder_score 2 [1; 2] = 6 ∧ compute_zorder_score 2 [3; 2] = 14 ∧
  compute_zorder_score 2 [1; 2] ≤ compute_zorder_score 2 [3; 2].
Proof.
  split; [reflexivity|]. split; [reflexivity|].
  apply (zorder_score_spec 2 [1; 2] [3; 2]); [simpl; lia|done|by repeat constructor..].
Defined.

(** The Gray-code score is not monotone: [(0, 1)] lies below [(1, 1)] in both
    coordinates and has the larger score, so the scores of a box's corners do not
    bound the rows inside it. *)
Theorem gray_score_not_monotone :
  Forall2 Z.le [0; 1] [1; 1] ∧
  gray_code_interleave_index 2 1 [1; 1] < gray_code_interleave_index 2 1 [0; 1].
Proof. split; [by repeat constructor|by vm_compute]. Qed.

(** ** Normalization and batches *)

(** The supported columns; a cell is [None] when null. *)
Inductive NumColumn :=
| NInt32 (v : list (option Z)) | NInt64 (v : list (option Z))
| NFloat32 (v : list (option float)) | NFloat64 (v : list (option float))
| NOther (data_type : string) (len : nat).

Definition f64_sub : float → float → float := SFsub 53 1024.
Definition f64_div : float → float → float := SFdiv 53 1024.
Definition f64_mul : float → float → float := SFmul 53 1024.

(** [f as u64]: toward zero, saturating, NaN to 0 *)
Definition f64_as_u64 (f : float) : Z :=
  match f with
  | S754_finite false m e =>
      Z.min u64_max (if bool_decide (0 ≤ e) then Zpos m * 2 ^ e else Zpos m / 2 ^ (- e))
  | S754_infinity false => u64_max
  | _ => 0
  end.

Section Normalize.

(** One numeric type: its order, its conversion to [f64], and its extreme values. *)
Context {A : Type} (lt : A → A → bool) (to_f64 : A → float) (type_max type_min : A).

Definition min_max (arr : list (option A)) : A * A :=
  foldl (fun '(mn, mx) c =>
           match c with
           | Some v => (if lt v mn then v else mn, if lt mx v then v else mx)
           | None => (mn, mx)
           end) (type_max, type_min) arr.

Definition normalize_primitive (max_val : Z) (arr : list (option A)) : list Z * A * A :=
  let '(mn, mx) := min_max arr in
  let range := f64_sub (to_f64 mx) (to_f64 mn) in
  ((fun c => match c with
             | Some v =>
                 if SFltb (S754_zero false) range
                 then f64_as_u64 (f64_mul (f64_div (f64_sub (to_f64 v) (to_f64 mn)) range) (Z_as_f64 max_val))
                 else 0
             | None => 0
             end) <$> arr, mn, mx).

End Normalize.

Definition i32_min : Z := - 2 ^ 31.
Definition i32_max : Z := 2 ^ 31 - 1.
Definition i64_min : Z := - 2 ^ 63.
Definition f32_max : float := S754_finite false (2 ^ 24 - 1) 104.
Definition f32_min : float := S754_finite true (2 ^ 24 - 1) 104.
Definition f64_max : float := S754_finite false (2 ^ 53 - 1) 971.
Definition f64_min : float := S754_finite true (2 ^ 53 - 1) 971.

Definition json_of_float (f : float) : Value :=
  match Number_from_f64 f with Some n => VNumber n | None => VNull end.

(** [(1u64 << bits) - 1] *)
Definition norm_max (bits : nat) : Z := wrap_u64 (shl_u64 1 (Z.of_nat bits) - 1).

(** [normalize_to_u64]: the normalized column with the minimum and the maximum *)
Definition normalize_to_u64 (c : NumColumn) (bits : nat) : result string (list Z * Value * Value) :=
  let max_val := norm_max bits in
  match c with
  | NInt32 v =>
      let '(n, mn, mx) := normalize_primitive Z.ltb Z_as_f64 i32_max i32_min max_val v in
      Ok (n, VNumber (Number_of_int mn), VNumber (Number_of_int mx))
  | NInt64 v =>
      let '(n, mn, mx) := normalize_primitive Z.ltb Z_as_f64 i64_max i64_min max_val v in
      Ok (n, VNumber (Number_of_int mn), VNumber (Number_of_int mx))
  | NFloat32 v =>
      let '(n, mn, mx) := normalize_primitive SFltb f32_as_f64 f32_max f32_min max_val v in
      Ok (n, json_of_float (f32_as_f64 mn), json_of_float (f32_as_f64 mx))
  | NFloat64 v =>
      let '(n, mn, mx) := normalize_primitive SFltb id f64_max f64_min max_val v in
      Ok (n, json_of_float mn, json_of_float mx)
  | NOther ty _ => Err ("Unsupported type for clustering: " +:+ ty)
  end.

Definition column_len (c : NumColumn) : nat :=
  match c with
  | NInt32 v | NInt64 v => length v
  | NFloat32 v | NFloat64 v => length v
  | NOther _ n => n
  end.

(** A batch by its columns. *)
Record NumBatch := { nb_columns : list (string * NumColumn); nb_rows : nat }.

Definition column_by_name (b : NumBatch) (name : string) : result string NumColumn :=
  match list_find (fun c => c.1 = name) (nb_columns b) with
  | Some (_, (_, c)) => Ok c
  | None => Err ("Unable to get field named " +:+ name)
  end.

Fixpoint normalize_columns (b : NumBatch) (bits : nat) (columns : list string) :
    result string (list (list Z) * list Value * list Value) :=
  match columns with
  | [] => Ok ([], [], [])
  | name :: columns =>
      c ← column_by_name b name;
      '(norm, mn, mx) ← normalize_to_u64 c bits;
      '(norms, mins, maxs) ← normalize_columns b bits columns;
      Ok (norm :: norms, mn :: mins, mx :: maxs)
  end.

(** The rows' scores, with the score function of the curve. *)
Definition compute_scores (score : nat → nat → list Z → Z) (b : NumBatch) (columns : list string) :
    result string (list Z * list Value * list Value) :=
  match columns with
  | [] => Ok (replicate (nb_rows b) 0, [], [])
  | _ =>
      let n_cols := length columns in
      let bits_per_col := (64 / n_cols)%nat in
      '(norms, mins, maxs) ← normalize_columns b bits_per_col columns;
      Ok ((fun i => score n_cols bits_per_col ((fun col => default 0 (col !! i)) <$> norms)) <$> seq 0 (nb_rows b),
          mins, maxs)
  end.

Definition compute_zorder_scores : NumBatch → list string → result string (list Z * list Value * list Value) :=
  compute_scores (fun _ bits coords => compute_zorder_score bits coords).
Definition compute_hilbert_scores : NumBatch → list string → result string (list Z * list Value * list Value) :=
  compute_scores gray_code_interleave_index.

(** [take] of every column. *)
Definition take_indices {A} (idxs : list nat) (v : list A) : list A := omap (fun i => v !! i) idxs.
Definition take_column (idxs : list nat) (c : NumColumn) : NumColumn :=
  match c with
  | NInt32 v => NInt32 (take_indices idxs v)
  | NInt64 v => NInt64 (take_indices idxs v)
  | NFloat32 v => NFloat32 (take_indices idxs v)
  | NFloat64 v => NFloat64 (take_indices idxs v)
  | NOther ty _ => NOther ty (length idxs)
  end.

Section Apply.

(** Arrow's [sort_to_indices]: a permutation of the row numbers that sorts the scores; the
    order of equal scores is not specified. *)
Context (sort_to_indices : list Z → list nat).
Context (sort_permutes : ∀ scores, sort_to_indices scores ≡ₚ seq 0 (length scores)).
Context (sort_sorts : ∀ scores, Sorted Z.le (take_indices (sort_to_indices scores) scores)).

Definition apply_scores (score : nat → nat → list Z → Z) (b : NumBatch) (columns : list string) :
    result string NumBatch :=
  match columns with
  | [] => Ok b
  | _ =>
      '(scores, _, _) ← compute_scores score b columns;
      let idxs := sort_to_indices scores in
      Ok {| nb_columns := (fun '(n, c) => (n, take_column idxs c)) <$> nb_columns b; nb_rows := length idxs |}
  end.
Definition apply_zorder : NumBatch → list string → result string NumBatch :=
  apply_scores (fun _ bits coords => compute_zorder_score bits coords).
Definition apply_hilbert : NumBatch → list string → result string NumBatch :=
  apply_scores gray_code_interleave_index.

Lemma take_indices_permutes {A} (scores : list Z) (v : list A) :
  length v = length scores → take_indices (sort_to_indices scores) v ≡ₚ v.
Proof.
  intros Hl. unfold take_indices. rewrite sort_permutes, <- Hl. by rewrite omap_lookup_all.
Qed.

Lemma compute_scores_length score b columns scores mins maxs :
  compute_scores score b columns = Ok (scores, mins, maxs) → length scores = nb_rows b.
Proof.
  unfold compute_scores. destruct columns as [|c cs]; [intros [= <- <- <-]; apply length_replicate|].
  destruct (normalize_columns _ _ _) as [[[norms mn] mx]|]; [|done]. cbn [mbind result_bind].
  generalize (64 / length (c :: cs))%nat as bits. intros bits H.
  assert (scores = (fun i => score (length (c :: cs)) bits ((fun col => default 0 (col !! i)) <$> norms)) <$>
            seq 0 (nb_rows b)) as -> by congruence.
  by rewrite length_fmap, length_seq.
Qed.

(** Clustering rearranges the rows of a batch by one permutation of all columns,
    under which the scores are in order; no row is lost. *)
Theorem apply_scores_permutes score b columns b' :
  columns ≠ [] → apply_scores score b columns = Ok b' →
  ∃ scores idxs,
    res_ok (compute_scores score b columns) = Some scores ∧
    idxs ≡ₚ seq 0 (nb_rows b) ∧
    nb_columns b' = (fun '(n, c) => (n, take_column idxs c)) <$> nb_columns b ∧
    nb_rows b' = nb_rows b ∧
    Sorted Z.le (take_indices idxs scores.1.1).
Proof.
  intros Hne. unfold apply_scores. destruct columns as [|c cs]; [done|].
  destruct (compute_scores score b (c :: cs)) as [[[scores mins] maxs]|] eqn:E; [|done].
  intros [= <-]. exists (scores, mins, maxs), (sort_to_indices scores). simpl.
  pose proof (compute_scores_length _ _ _ _ _ _ E) as Hl. split_and!; [done| |done| |done].
  - by rewrite <- Hl.
  - by rewrite sort_permutes, length_seq.
Qed.

End Apply.

(** ** One clustering column *)

Lemma f64_mul_zero f : f64_as_u64 (f64_mul f (Z_as_f64 0)) = 0.
Proof. by destruct f as [[]|[]| |[] m e]. Qed.

Lemma normalize_zero {A} (lt : A → A → bool) to_f64 a b arr n mn mx :
  normalize_primitive lt to_f64 a b 0 arr = (n, mn, mx) → Forall (fun x => x = 0) n.
Proof.
  unfold normalize_primitive. destruct (min_max lt a b arr) as [m m']. intros [= <- _ _].
  apply Forall_fmap, Forall_true. intros [v|]; simpl; [|done].
  destruct (SFltb _ _); [apply f64_mul_zero|done].
Qed.

Lemma norm_max_one_column : norm_max (64 / 1) = 0.
Proof. reflexivity. Qed.

Lemma zorder_zero : compute_zorder_score 64 [0] = 0.
Proof. reflexivity. Qed.

(** With a single clustering column every row has the score 0: the column gets 64
    bits, [1u64 << 64] wraps, and the normalization range is empty. *)
Theorem single_column_scores_are_zero b name scores mins maxs :
  compute_zorder_scores b [name] = Ok (scores, mins, maxs) → Forall (fun s => s = 0) scores.
Proof.
  unfold compute_zorder_scores, compute_scores. cbn [normalize_columns length].
  change (64 / 1)%nat with 64%nat.
  destruct (column_by_name b name) as [c|]; [|done]. simpl.
  destruct (normalize_to_u64 c 64) as [[[norm mn] mx]|] eqn:E; [|done]. simpl.
  intros [= <- _ _].
  assert (Forall (fun x => x = 0) norm) as Hn.
  { unfold normalize_to_u64 in E. change (norm_max 64) with 0 in E. destruct c; [..|done];
      destruct (normalize_primitive _ _ _ _ 0 v) as [[n a] a'] eqn:En; injection E as <- _ _;
      by eapply normalize_zero. }
  apply Forall_fmap, Forall_true. intros i. simpl.
  replace (default 0 (norm !! i)) with 0; [apply zorder_zero|].
  destruct (norm !! i) as [x|] eqn:Ex; [|done]. simpl. by rewrite (Forall_lookup_1 _ _ _ _ Hn Ex).
Qed.

Lemma single_column_scores_are_zero_witness :
  let b := {| nb_columns := [("x", NInt64 [Some 1; Some 500; None])]; nb_rows := 3 |} in
  ∃ mins maxs, compute_zorder_scores b ["x"] = Ok ([0; 0; 0], mins, maxs) ∧ Forall (fun s => s = 0) [0; 0; 0].
Proof.
  intros b. eexists _, _. split; [vm_compute; reflexivity|].
  eapply (single_column_scores_are_zero b "x"). vm_compute. reflexivity.
Defined.

(** A sorting of row numbers with the assumed behaviour. *)
Definition by_score (scores : list Z) (i j : nat) : Prop := default 0 (scores !! i) ≤ default 0 (scores !! j).
#[export] Instance by_score_dec scores i j : Decision (by_score scores i j).
Proof. unfold by_score. apply _. Defined.
Definition sort_indices (scores : list Z) : list nat :=
  merge_sort (by_score scores) (seq 0 (length scores)).

Lemma sort_indices_permutes scores : sort_indices scores ≡ₚ seq 0 (length scores).
Proof. apply merge_sort_Permutation. Qed.

Lemma sort_indices_sorts scores : Sorted Z.le (take_indices (sort_indices scores) scores).
Proof.
  assert (Sorted (by_score scores) (sort_indices scores)) as Hs.
  { apply Sorted_merge_sort. intros i j. unfold by_score. lia. }
  assert (Forall (fun i => (i < length scores)%nat) (sort_indices scores)) as Hf.
  { rewrite sort_indices_permutes. apply Forall_forall. intros i Hi%elem_of_seq. lia. }
  revert Hs Hf. generalize (sort_indices scores) as l. intros l Hs.
  induction Hs as [|i l Hs IH Hd]; intros Hf; [constructor|].
  apply Forall_cons in Hf as [Hi Hf]. unfold take_indices in *. simpl.
  destruct (lookup_lt_is_Some_2 scores i Hi) as [x Hx]. rewrite Hx. constructor; [by apply IH|].
  destruct Hd as [|j l Hij]; [constructor|]. apply Forall_cons in Hf as [Hj _].
  destruct (lookup_lt_is_Some_2 scores j Hj) as [y Hy]. simpl. rewrite Hy. constructor.
  unfold by_score in Hij. by rewrite Hx, Hy in Hij.
Qed.

Lemma apply_scores_permutes_witness :
  let b := {| nb_columns := [("x", NInt64 [Some 9; Some 0; Some 5]); ("y", NInt32 [Some 9; Some 0; Some 1])];
              nb_rows := 3 |} in
  ∃ b', apply_zorder sort_indices b ["x"; "y"] = Ok b' ∧
    nb_columns b' = [("x", NInt64 [Some 0; Some 5; Some 9]); ("y", NInt32 [Some 0; Some 1; Some 9])] ∧
    ∃ idxs, idxs ≡ₚ seq 0 3 ∧ nb_columns b' = (fun '(n, c) => (n, take_column idxs c)) <$> nb_columns b.
Proof.
  intros b. eexists. split; [vm_compute; reflexivity|]. split; [reflexivity|].
  destruct (apply_scores_permutes sort_indices sort_indices_permutes sort_indices_sorts
              (fun _ bits coords => compute_zorder_score bits coords) b ["x"; "y"] _ ltac:(done)
              ltac:(vm_compute; reflexivity)) as (scores & idxs & _ & Hp & Hc & _).
  exists idxs. split; [exact Hp|exact Hc].
Defined.
