(* ===== verification/Graph.v ===== *)
(** * Graph views ([src/src/core/sql/graph_udf/graph_view.rs])

    The interface every graph algorithm is written against ([GraphView]), what it promises
    ([GraphViewLaws]), the in-memory adjacency map, the view restricted to a region, and
    the neighbor cache in front of an out-of-core graph.  Nodes are [u64]; neighbor lists
    are vectors, and an edge [u -> v] is a [v] in the list of [u]. *)

From S2P Require Import Prelude.

Open Scope Z_scope.

(** ** [sort_unstable] and [dedup] on vectors of [u64] *)

Definition sort_u64 : list Z → list Z := merge_sort Z.le.

(** [Vec::dedup]: of consecutive equal elements the first is kept. *)
Fixpoint dedup_from (x : Z) (l : list Z) : list Z :=
  match l with
  | [] => []
  | y :: l => if decide (y = x) then dedup_from x l else y :: dedup_from y l
  end.
Definition dedup (l : list Z) : list Z :=
  match l with [] => [] | x :: l => x :: dedup_from x l end.

Definition sort_dedup (l : list Z) : list Z := dedup (sort_u64 l).

Lemma sort_u64_perm l : sort_u64 l ≡ₚ l.
Proof. apply merge_sort_Permutation. Qed.

Lemma sort_u64_sorted l : StronglySorted Z.le (sort_u64 l).
Proof. apply StronglySorted_merge_sort; [apply _|]. intros x y. lia. Qed.

Lemma elem_of_sort_u64 x l : x ∈ sort_u64 l ↔ x ∈ l.
Proof. by rewrite sort_u64_perm. Qed.

Lemma elem_of_dedup_from y x l : y ∈ x :: dedup_from x l ↔ y ∈ x :: l.
Proof.
  revert x. induction l as [|z l IH]; intros x; simpl; [done|].
  case_decide as Hz; [subst; rewrite IH; set_solver|].
  specialize (IH z). set_solver.
Qed.

Lemma elem_of_dedup y l : y ∈ dedup l ↔ y ∈ l.
Proof. destruct l; [done|]. apply elem_of_dedup_from. Qed.

Lemma elem_of_sort_dedup y l : y ∈ sort_dedup l ↔ y ∈ l.
Proof. unfold sort_dedup. by rewrite elem_of_dedup, elem_of_sort_u64. Qed.

Lemma dedup_from_sorted x l :
  StronglySorted Z.le (x :: l) → StronglySorted Z.lt (x :: dedup_from x l).
Proof.
  revert x. induction l as [|y l IH]; intros x Hs; simpl; [repeat constructor|].
  inversion_clear Hs as [|?? Hs' Hx]. inversion Hx as [|?? Hxy Hx']; subst.
  inversion_clear Hs' as [|?? Hs'' Hy].
  case_decide as E; [subst; apply IH; by constructor|].
  specialize (IH y ltac:(by constructor)). constructor; [done|].
  assert (x < y) by lia. constructor; [done|].
  inversion_clear IH as [|?? _ Hlt]. eapply Forall_impl; [exact Hlt|]. simpl. lia.
Qed.

Lemma sort_dedup_sorted l : StronglySorted Z.lt (sort_dedup l).
Proof.
  unfold sort_dedup. pose proof (sort_u64_sorted l) as Hs.
  destruct (sort_u64 l); [constructor|]. by apply dedup_from_sorted.
Qed.

(** Strictly increasing lists are determined by their elements. *)
Lemma sorted_lt_NoDup l : StronglySorted Z.lt l → NoDup l.
Proof.
  induction 1 as [|x l _ IH Hx]; constructor; [|done].
  rewrite Forall_forall in Hx. intros Hin. specialize (Hx x Hin). lia.
Qed.

Lemma sorted_lt_unique l k :
  StronglySorted Z.lt l → StronglySorted Z.lt k → (∀ x, x ∈ l ↔ x ∈ k) → l = k.
Proof.
  intros Hl Hk Heq. apply (StronglySorted_unique_strong Z.lt); [lia|done|done|].
  apply NoDup_Permutation; auto using sorted_lt_NoDup.
Qed.

Lemma sort_u64_strict l : NoDup l → StronglySorted Z.lt (sort_u64 l).
Proof.
  rewrite <- (sort_u64_perm l) at 1. induction (sort_u64_sorted l) as [|x k Hs IH Hx];
    [constructor|]. intros [Hxk Hn]%NoDup_cons. constructor; [auto|].
  rewrite Forall_forall in *. intros y Hy. specialize (Hx y Hy).
  assert (x ≠ y) by (intros ->; done). lia.
Qed.

Lemma sort_dedup_id l : StronglySorted Z.lt l → sort_dedup l = l.
Proof.
  intros Hl. apply sorted_lt_unique; [apply sort_dedup_sorted|done|intros x; apply elem_of_sort_dedup].
Qed.

Lemma NoDup_sort_dedup l : NoDup (sort_dedup l).
Proof. apply sorted_lt_NoDup, sort_dedup_sorted. Qed.

#[export] Instance sort_u64_proper : Proper ((≡ₚ) ==> eq) sort_u64.
Proof.
  intros l k Hlk. apply (StronglySorted_unique Z.le); auto using sort_u64_sorted.
  by rewrite !sort_u64_perm.
Qed.

#[export] Instance sort_dedup_proper : Proper ((≡ₚ) ==> eq) sort_dedup.
Proof. intros l k Hlk. unfold sort_dedup. by rewrite Hlk. Qed.

(** ** The interface *)

Class GraphView (G : Type) := {
  get_neighbors : G → Z → list Z;
  get_neighbors_into : G → Z → list Z → list Z;
  get_degree : G → Z → nat;
  all_nodes : G → list Z;
  num_edges : G → nat
}.

(** The trait's default methods. *)
Definition all_edges {G} `{!GraphView G} (g : G) : list (Z * Z) :=
  all_nodes g ≫= fun u => pair u <$> get_neighbors g u.
Definition sum_degrees (f : Z → nat) (l : list Z) : nat := sum_list (f <$> l).

(** What every view promises about a well-formed graph: the scratch-buffer accessor
    appends, the degree is the number of neighbors, and the nodes are the sorted sources. *)
Class GraphViewLaws (G : Type) `{!GraphView G} := {
  gv_wf : G → Prop;
  gv_into g u out : gv_wf g → get_neighbors_into g u out = out ++ get_neighbors g u;
  gv_degree g u : gv_wf g → get_degree g u = length (get_neighbors g u);
  gv_sorted g : gv_wf g → StronglySorted Z.lt (all_nodes g);
  gv_nodes g u : gv_wf g → u ∈ all_nodes g ↔ get_neighbors g u ≠ [];
  gv_num_edges g : gv_wf g → num_edges g = sum_degrees (get_degree g) (all_nodes g)
}.

(** The edge relation an algorithm sees. *)
Definition edge {G} `{!GraphView G} (g : G) (u v : Z) : Prop := v ∈ get_neighbors g u.

#[export] Instance edge_dec {G} `{!GraphView G} (g : G) u v : Decision (edge g u v).
Proof. unfold edge. apply _. Defined.

Lemma elem_of_all_edges {G} `{GraphViewLaws G} (g : G) u v :
  gv_wf g → (u, v) ∈ all_edges g ↔ edge g u v.
Proof.
  intros Hwf. unfold all_edges, edge. rewrite list_elem_of_bind. split.
  - intros (w & Hin & _). by apply list_elem_of_fmap in Hin as (? & [= -> ->] & ?).
  - intros Hv. exists u. rewrite list_elem_of_fmap, gv_nodes by done.
    split; [by exists v|]. by intros E; rewrite E in Hv; apply not_elem_of_nil in Hv.
Qed.

Lemma length_all_edges {G} `{GraphViewLaws G} (g : G) :
  gv_wf g → length (all_edges g) = num_edges g.
Proof.
  intros Hwf. rewrite gv_num_edges by done. unfold all_edges, sum_degrees.
  induction (all_nodes g) as [|u l IH]; [done|]. csimpl.
  rewrite length_app, length_fmap, gv_degree by done. simpl. f_equal. apply IH.
Qed.

(** ** The in-memory graph *)

Record SimpleGraph := { adjacency : gmap Z (list Z) }.

(** [adj.entry(u).or_default().push(v)] *)
Definition push_edge (adj : gmap Z (list Z)) (e : Z * Z) : gmap Z (list Z) :=
  <[e.1 := default [] (adj !! e.1) ++ [e.2]]> adj.

Definition finalize (adj : gmap Z (list Z)) : SimpleGraph :=
  {| adjacency := sort_dedup <$> adj |}.

Definition from_directed_edges (edges : list (Z * Z)) : SimpleGraph :=
  finalize (foldl push_edge ∅ edges).
Definition from_undirected_edges (edges : list (Z * Z)) : SimpleGraph :=
  finalize (foldl (fun adj e => push_edge (push_edge adj e) (e.2, e.1)) ∅ edges).
Definition from_edge_vecs (sources targets : list Z) : SimpleGraph :=
  finalize (foldl push_edge ∅ (zip sources targets)).
Definition from_edges_iter (edges : list (Z * Z)) : SimpleGraph :=
  finalize (foldl push_edge ∅ edges).

#[export] Instance SimpleGraph_view : GraphView SimpleGraph := {
  get_neighbors g u := default [] (adjacency g !! u);
  get_neighbors_into g u out :=
    match adjacency g !! u with Some ns => out ++ ns | None => out end;
  get_degree g u := match adjacency g !! u with Some v => length v | None => 0%nat end;
  all_nodes g := sort_u64 (map_to_list (adjacency g)).*1;
  num_edges g := sum_list (length <$> (map_to_list (adjacency g)).*2)
}.

Lemma foldl_push_lookup es adj u :
  default [] (foldl push_edge adj es !! u)
  = default [] (adj !! u) ++ (filter (fun e : Z * Z => e.1 = u) es).*2.
Proof.
  revert adj. induction es as [|[a b] es IH]; intros adj; [by rewrite app_nil_r|].
  csimpl. rewrite IH, filter_cons. unfold push_edge at 1. simpl.
  destruct (decide (a = u)) as [->|Ha].
  - by rewrite lookup_insert_eq; csimpl; rewrite <- app_assoc.
  - by rewrite lookup_insert_ne.
Qed.

Lemma foldl_push_None es adj u :
  foldl push_edge adj es !! u = None ↔ adj !! u = None ∧ u ∉ es.*1.
Proof.
  revert adj. induction es as [|[a b] es IH]; intros adj; csimpl; [set_solver|].
  rewrite IH. unfold push_edge. simpl. rewrite lookup_insert_None. set_solver.
Qed.

Lemma get_neighbors_directed es u :
  get_neighbors (from_directed_edges es) u
  = sort_dedup (filter (fun e : Z * Z => e.1 = u) es).*2.
Proof.
  unfold get_neighbors, from_directed_edges. simpl. rewrite lookup_fmap.
  pose proof (foldl_push_lookup es ∅ u) as H. rewrite lookup_empty in H. simpl in H.
  rewrite <- H. by destruct (foldl push_edge ∅ es !! u).
Qed.

(** Every edge goes in both directions. *)
Lemma from_undirected_both es :
  from_undirected_edges es = from_directed_edges (es ≫= fun e => [e; (e.2, e.1)]).
Proof.
  unfold from_undirected_edges, from_directed_edges. f_equal.
  generalize (∅ : gmap Z (list Z)). induction es as [|e es IH]; intros adj; [done|].
  csimpl. apply IH.
Qed.

(** A graph whose lists are those a constructor makes: non-empty, sorted, distinct. *)
Definition simple_wf (g : SimpleGraph) : Prop :=
  map_Forall (fun _ l => l ≠ [] ∧ StronglySorted Z.lt l) (adjacency g).

Lemma from_directed_wf es : simple_wf (from_directed_edges es).
Proof.
  intros u l. unfold from_directed_edges, finalize. simpl. rewrite lookup_fmap.
  intros (l' & Hl & ->)%fmap_Some. split; [|apply sort_dedup_sorted].
  pose proof (foldl_push_None es ∅ u) as Hn. pose proof (foldl_push_lookup es ∅ u) as Hd.
  rewrite Hl, lookup_empty in Hd. simpl in Hd. subst l'.
  assert (u ∈ es.*1) as (e & -> & He)%list_elem_of_fmap
    by (rewrite Hl in Hn; destruct (decide (u ∈ es.*1)); [done|naive_solver]).
  assert (e.2 ∈ sort_dedup (filter (λ e0 : Z * Z, e0.1 = e.1) es).*2) as Hin.
  { rewrite elem_of_sort_dedup, list_elem_of_fmap. exists e.
    by rewrite list_elem_of_filter. }
  intros E. by rewrite E in Hin; apply not_elem_of_nil in Hin.
Qed.

#[export] Program Instance SimpleGraph_laws : GraphViewLaws SimpleGraph := {
  gv_wf := simple_wf
}.
Next Obligation.
  intros g u out _. unfold get_neighbors_into, get_neighbors. simpl.
  by destruct (adjacency g !! u); simpl; rewrite ?app_nil_r.
Qed.
Next Obligation.
  intros g u _. unfold get_degree, get_neighbors. simpl. by destruct (adjacency g !! u).
Qed.
Next Obligation.
  intros g _. apply sort_u64_strict. apply NoDup_fst_map_to_list.
Qed.
Next Obligation.
  intros g u Hwf. unfold all_nodes, get_neighbors. simpl.
  rewrite elem_of_sort_u64, list_elem_of_fmap. split.
  - intros ([k l] & -> & Hk%elem_of_map_to_list). simpl. rewrite Hk. simpl.
    by destruct (Hwf k l Hk).
  - destruct (adjacency g !! u) as [l|] eqn:E; [|done]. intros _.
    exists (u, l). by rewrite elem_of_map_to_list.
Qed.
Next Obligation.
  intros g _. unfold num_edges, sum_degrees, all_nodes. simpl.
  rewrite sort_u64_perm, <- !list_fmap_compose. f_equal.
  apply Forall_fmap_ext, Forall_forall. intros [k l] Hk%elem_of_map_to_list. simpl.
  unfold get_degree. simpl. by rewrite Hk.
Qed.

(** ** A graph restricted to a region *)

Record SubgraphView (G : Type) := { sv_backing : G; sv_nodes : gset Z }.
Arguments sv_backing {G} _.
Arguments sv_nodes {G} _.

(** The in-place compaction of [out[start..]]: [reads] are the indices still to read. *)
Fixpoint compact_tail (nodes : gset Z) (reads : list nat) (write : nat) (out : list Z) : nat * list Z :=
  match reads with
  | [] => (write, out)
  | read :: reads =>
      match out !! read with
      | Some x =>
          if decide (x ∈ nodes) then compact_tail nodes reads (S write) (<[write := x]> out)
          else compact_tail nodes reads write out
      | None => (write, out)
      end
  end.

Section Subgraph.
Context {G : Type} `{!GraphView G}.

Definition sub_neighbors (g : SubgraphView G) (node : Z) : list Z :=
  if decide (node ∈ sv_nodes g) then
    filter (fun n => n ∈ sv_nodes g) (get_neighbors (sv_backing g) node)
  else [].

Definition sub_neighbors_into (g : SubgraphView G) (node : Z) (out : list Z) : list Z :=
  if decide (node ∈ sv_nodes g) then
    let start := length out in
    let out := get_neighbors_into (sv_backing g) node out in
    let '(write, out) := compact_tail (sv_nodes g) (seq start (length out - start)) start out in
    take write out
  else out.

Definition sub_degree (g : SubgraphView G) (node : Z) : nat :=
  if decide (node ∈ sv_nodes g) then length (sub_neighbors_into g node []) else 0%nat.

#[export] Instance SubgraphView_view : GraphView (SubgraphView G) := {
  get_neighbors := sub_neighbors;
  get_neighbors_into := sub_neighbors_into;
  get_degree := sub_degree;
  all_nodes g :=
    sort_u64 (filter (fun n => (0 < sub_degree g n)%nat) (elements (sv_nodes g)));
  num_edges g := sum_degrees (sub_degree g) (elements (sv_nodes g))
}.
End Subgraph.

(** The kept prefix grows by the members of what is read. *)
Lemma compact_spec nodes n read write out :
  (write ≤ read)%nat → (read + n = length out)%nat →
  let '(w, out') := compact_tail nodes (seq read n) write out in
  take w out' = take write out ++ filter (fun x => x ∈ nodes) (drop read out).
Proof.
  revert read write out. induction n as [|n IH]; intros read write out Hw Hl.
  { simpl. rewrite drop_ge by lia. by rewrite filter_nil, app_nil_r. }
  simpl. destruct (out !! read) as [x|] eqn:Hx;
    [|apply lookup_ge_None in Hx; lia].
  rewrite (drop_S _ x) by done. rewrite filter_cons. case_decide as Hin.
  - specialize (IH (S read) (S write) (<[write:=x]> out)). rewrite length_insert in IH.
    destruct (compact_tail _ _ _ _) as [w out']. rewrite IH by lia.
    rewrite (take_S_r _ _ x) by (apply list_lookup_insert_eq; lia).
    rewrite take_insert_ge by lia. rewrite drop_insert_lt by lia. by rewrite <- app_assoc.
  - specialize (IH (S read) write out). destruct (compact_tail _ _ _ _) as [w out'].
    by rewrite IH by lia.
Qed.

Lemma sum_filter_zero {A} (f : A → nat) (P : A → Prop) `{!∀ x, Decision (P x)} l :
  (∀ x, x ∈ l → ¬ P x → f x = 0%nat) → sum_list (f <$> filter P l) = sum_list (f <$> l).
Proof.
  induction l as [|x l IH]; intros Hz; [done|]. rewrite filter_cons. csimpl.
  rewrite <- IH by set_solver. case_decide; [done|]. by rewrite (Hz x) by set_solver.
Qed.

#[export] Instance sum_degrees_proper f : Proper ((≡ₚ) ==> eq) (sum_degrees f).
Proof. intros l k Hlk. unfold sum_degrees. by rewrite Hlk. Qed.

Section SubgraphLaws.
Context {G : Type} `{GraphViewLaws G}.

Lemma sub_into_spec (g : SubgraphView G) u out :
  gv_wf (sv_backing g) → sub_neighbors_into g u out = out ++ sub_neighbors g u.
Proof.
  intros Hwf. unfold sub_neighbors_into, sub_neighbors. case_decide; [|by rewrite app_nil_r].
  rewrite gv_into by done.
  pose proof (compact_spec (sv_nodes g) (length (get_neighbors (sv_backing g) u))
    (length out) (length out) (out ++ get_neighbors (sv_backing g) u)) as Hc.
  rewrite length_app in *. rewrite take_app_length, drop_app_length in Hc.
  replace (length out + _ - length out)%nat with (length (get_neighbors (sv_backing g) u)) by lia.
  destruct (compact_tail _ _ _ _) as [w out']. by apply Hc.
Qed.

Lemma sub_degree_spec (g : SubgraphView G) u :
  gv_wf (sv_backing g) → sub_degree g u = length (sub_neighbors g u).
Proof.
  intros Hwf. unfold sub_degree. rewrite sub_into_spec by done. simpl.
  unfold sub_neighbors. by case_decide.
Qed.

#[export] Program Instance SubgraphView_laws : GraphViewLaws (SubgraphView G) := {
  gv_wf g := gv_wf (sv_backing g)
}.
Next Obligation. intros. by apply sub_into_spec. Qed.
Next Obligation. intros. by apply sub_degree_spec. Qed.
Next Obligation. intros g _. apply sort_u64_strict. apply NoDup_filter, NoDup_elements. Qed.
Next Obligation.
  intros g u Hwf. unfold all_nodes, get_neighbors. simpl.
  rewrite elem_of_sort_u64, list_elem_of_filter, elem_of_elements, sub_degree_spec by done.
  unfold sub_neighbors. case_decide as Hu; [|naive_solver lia].
  destruct (filter _ _); simpl; naive_solver lia.
Qed.
Next Obligation.
  intros g Hwf. unfold num_edges, all_nodes. simpl.
  rewrite sort_u64_perm. symmetry. apply sum_filter_zero. intros. lia.
Qed.
End SubgraphLaws.

(** ** The neighbor cache in front of an out-of-core graph *)

Record CacheState := {
  cs_map : gmap Z (list Z);
  cs_order : list Z;
  cs_used_bytes : Z
}.
Definition cache_new : CacheState :=
  {| cs_map := ∅; cs_order := []; cs_used_bytes := 0 |}.

Definition neighbor_bytes (len : nat) : Z :=
  Z.min u64_max (Z.min u64_max (Z.of_nat len * 8) + 24).

(** The eviction loop: oldest first, until the new entry fits or nothing is left. *)
Fixpoint evict (budget bytes : Z) (m : gmap Z (list Z)) (order : list Z) (used : Z) : CacheState :=
  match order with
  | [] => {| cs_map := m; cs_order := []; cs_used_bytes := used |}
  | old :: order' =>
      if decide (budget < used + bytes) then
        match m !! old with
        | Some v =>
            evict budget bytes (delete old m) order'
              (saturating_sub used (neighbor_bytes (length v)))
        | None => evict budget bytes m order' used
        end
      else {| cs_map := m; cs_order := order; cs_used_bytes := used |}
  end.

(** The second critical section of [get_neighbors_shared] and [get_neighbors_into]: the
    list read from the backing graph is stored.  Another thread may have stored the same
    node since the lookup missed. *)
Definition cache_put (budget : Z) (s : CacheState) (node : Z) (neighbors : list Z) : CacheState :=
  let bytes := neighbor_bytes (length neighbors) in
  let s := evict budget bytes (cs_map s) (cs_order s) (cs_used_bytes s) in
  {| cs_map := <[node := neighbors]> (cs_map s); cs_order := cs_order s ++ [node];
     cs_used_bytes := cs_used_bytes s + bytes |}.

(** [get_neighbors_shared] and [get_neighbors_into] without interference. *)
Definition cache_get_shared {G} `{!GraphView G} (budget : Z) (g : G) (s : CacheState) (node : Z)
  : CacheState * list Z :=
  match cs_map s !! node with
  | Some v => (s, v)
  | None =>
      let neighbors := get_neighbors g node in
      (cache_put budget s node neighbors, neighbors)
  end.

Definition cache_get_into {G} `{!GraphView G} (budget : Z) (g : G) (s : CacheState) (node : Z)
    (out : list Z) : CacheState * list Z :=
  match cs_map s !! node with
  | Some v => (s, out ++ v)
  | None =>
      let start := length out in
      let out := get_neighbors_into g node out in
      (cache_put budget s node (drop start out), out)
  end.

Section Cache.
Context {G : Type} `{GraphViewLaws G} (budget : Z) (g : G).

Definition entry_bytes (k : Z) : Z := neighbor_bytes (length (get_neighbors g k)).
Definition total_bytes (l : list Z) : Z := foldr Z.add 0 (entry_bytes <$> l).

(** Every cached list is the backing graph's. *)
Definition cache_true (s : CacheState) : Prop :=
  ∀ k l, cs_map s !! k = Some l → l = get_neighbors g k.

(** The queue lists the cached nodes once each and [used_bytes] is their size. *)
Definition cache_exact (s : CacheState) : Prop :=
  cache_true s ∧ NoDup (cs_order s) ∧ (∀ k, k ∈ cs_order s ↔ is_Some (cs_map s !! k))
  ∧ cs_used_bytes s = total_bytes (cs_order s).

Lemma neighbor_bytes_pos n : 0 < neighbor_bytes n.
Proof. unfold neighbor_bytes, u64_max. lia. Qed.

Lemma total_bytes_nonneg l : 0 ≤ total_bytes l.
Proof.
  induction l as [|k l IH]; [done|]. unfold total_bytes in *. csimpl.
  pose proof (neighbor_bytes_pos (length (get_neighbors g k))). unfold entry_bytes at 1. lia.
Qed.

Lemma total_bytes_app l k : total_bytes (l ++ k) = total_bytes l + total_bytes k.
Proof.
  unfold total_bytes. rewrite fmap_app. induction l as [|x l IH]; [done|]. csimpl.
  rewrite IH. lia.
Qed.

Lemma evict_submap bytes m order used k l :
  cs_map (evict budget bytes m order used) !! k = Some l → m !! k = Some l.
Proof.
  revert m used. induction order as [|old order IH]; intros m used; simpl; [done|].
  case_decide; [|done]. destruct (m !! old); [|apply IH].
  intros [_ ?]%IH%lookup_delete_Some. done.
Qed.

Lemma cache_put_true s node :
  cache_true s → cache_true (cache_put budget s node (get_neighbors g node)).
Proof.
  intros Hs k l. unfold cache_put. simpl. intros [[<- <-]|[_ Hk]]%lookup_insert_Some; [done|].
  by eapply Hs, evict_submap.
Qed.

(** Eviction keeps the books and stops within the budget or empty. *)
Lemma evict_exact bytes m order :
  let s := evict budget bytes m order (total_bytes order) in
  cache_exact {| cs_map := m; cs_order := order; cs_used_bytes := total_bytes order |} →
  cache_exact s ∧ (cs_used_bytes s + bytes ≤ budget ∨ cs_order s = []).
Proof.
  revert m. induction order as [|old order IH]; intros m; simpl; [auto|].
  intros (Ht & Hnd & Hdom & Hu). case_decide as Hb; [|split; [by split_and!|left; simpl; lia]].
  simpl in *. apply NoDup_cons in Hnd as [Hold Hnd].
  destruct (proj1 (Hdom old) ltac:(left)) as [v Hv]. rewrite Hv.
  rewrite (Ht old v Hv) in *. fold (entry_bytes old).
  assert (saturating_sub (total_bytes (old :: order)) (entry_bytes old) = total_bytes order) as ->.
  { unfold total_bytes at 1. csimpl. fold (total_bytes order).
    pose proof (total_bytes_nonneg order). unfold saturating_sub. lia. }
  apply IH. split_and!; [|done| |done]; simpl.
  - intros k l. simpl. intros [_ Hk]%lookup_delete_Some. by apply Ht.
  - intros k. rewrite lookup_delete_is_Some, <- Hdom, elem_of_cons. naive_solver.
Qed.

Lemma cache_put_exact s node :
  cache_exact s → cs_map s !! node = None →
  let s' := cache_put budget s node (get_neighbors g node) in
  cache_exact s' ∧ cs_used_bytes s' ≤ Z.max budget (entry_bytes node).
Proof.
  intros (Ht & Hnd & Hdom & Hu) Hnone. unfold cache_put. fold (entry_bytes node).
  rewrite Hu. pose proof (evict_exact (entry_bytes node) (cs_map s) (cs_order s)) as He.
  pose proof (evict_submap (entry_bytes node) (cs_map s) (cs_order s)
    (total_bytes (cs_order s)) node) as Hsub.
  destruct (evict _ _ _ _ _) as [m order used]. simpl in *.
  destruct He as [(Ht' & Hnd' & Hdom' & Hu') Hend]; [by rewrite <- Hu in *|]. simpl in *.
  assert (m !! node = None) as Hnone'.
  { destruct (m !! node) eqn:E; [|done]. specialize (Hsub _ eq_refl). congruence. }
  split; [split_and!|]; simpl.
  - intros k l. simpl. intros [[<- <-]|[_ Hk]]%lookup_insert_Some; [done|]. by apply Ht'.
  - apply NoDup_app. split_and!; [done| |apply NoDup_singleton].
    intros k Hk%Hdom' ->%list_elem_of_singleton. rewrite Hnone' in Hk. by destruct Hk.
  - intros k. rewrite elem_of_app, list_elem_of_singleton, Hdom'.
    destruct (decide (k = node)) as [->|Hne];
      [rewrite lookup_insert_eq; naive_solver|rewrite lookup_insert_ne by done; naive_solver].
  - rewrite total_bytes_app, Hu'. unfold total_bytes at 3. csimpl. lia.
  - destruct Hend as [?| ->]; [lia|]. subst used. unfold total_bytes. csimpl. lia.
Qed.

(** Whatever the nodes asked for so far, the answer is the backing graph's. *)
Lemma cache_get_shared_spec s node :
  cache_true s →
  let '(s', l) := cache_get_shared budget g s node in l = get_neighbors g node ∧ cache_true s'.
Proof.
  intros Hs. unfold cache_get_shared. destruct (cs_map s !! node) as [v|] eqn:E; [auto|].
  eauto using cache_put_true.
Qed.

Lemma cache_get_into_spec s node out :
  gv_wf g → cache_true s →
  let '(s', l) := cache_get_into budget g s node out in
  l = out ++ get_neighbors g node ∧ cache_true s'.
Proof.
  intros Hwf Hs. unfold cache_get_into. destruct (cs_map s !! node) as [v|] eqn:E.
  - by rewrite (Hs _ _ E).
  - rewrite gv_into, drop_app_length by done. eauto using cache_put_true.
Qed.
End Cache.

(** The answers to a sequence of [get_neighbors] calls. *)
Fixpoint cache_run {G} `{!GraphView G} (budget : Z) (g : G) (s : CacheState) (nodes : list Z)
  : CacheState * list (list Z) :=
  match nodes with
  | [] => (s, [])
  | node :: nodes =>
      let '(s, l) := cache_get_shared budget g s node in
      let '(s, ls) := cache_run budget g s nodes in (s, l :: ls)
  end.

Definition within_budget {G} `{!GraphView G} (budget : Z) (g : G) (s : CacheState) : Prop :=
  cs_used_bytes s ≤ budget ∨ ∃ k, k ∈ cs_order s ∧ cs_used_bytes s ≤ entry_bytes g k.

(** Through the cache an algorithm sees exactly the backing graph, whatever it asks for
    and in whatever order; the bytes accounted are those of the lists held, and they stay
    within the budget unless a single list is larger than it. *)
Theorem caching_graph_transparent {G} `{!GraphView G} budget (g : G) nodes :
  0 ≤ budget →
  let '(s, answers) := cache_run budget g cache_new nodes in
  answers = get_neighbors g <$> nodes ∧ cache_exact g s ∧ within_budget budget g s.
Proof.
  intros Hb.
  assert (∀ s, cache_exact g s → within_budget budget g s →
    let '(s', answers) := cache_run budget g s nodes in
    answers = get_neighbors g <$> nodes ∧ cache_exact g s' ∧ within_budget budget g s')
    as Hrun.
  { induction nodes as [|u nodes IH]; intros s Hs Hw; simpl; [done|].
    unfold cache_get_shared. destruct (cs_map s !! u) as [l|] eqn:E.
    - specialize (IH s Hs Hw). destruct (cache_run _ _ _ _) as [s' ls].
      destruct IH as (-> & ? & ?). by rewrite (proj1 Hs _ _ E).
    - destruct (cache_put_exact budget g s u Hs E) as [Hs' Hle].
      specialize (IH _ Hs'). destruct (cache_run _ _ _ _) as [s' ls].
      destruct IH as (-> & ? & ?); [|done].
      destruct (Z.max_spec budget (entry_bytes g u)) as [[? Hm]|[? Hm]];
        rewrite Hm in Hle; [right|by left].
      exists u. unfold cache_put at 1. simpl. split; [set_solver|done]. }
  apply Hrun; [|by left].
  split_and!; simpl; [|constructor| |done]; [by intros k l; simpl; rewrite lookup_empty|].
  intros k. rewrite lookup_empty. split; [by intros ?%elem_of_nil|by intros []].
Qed.

Module GraphExamples.

Definition path4 : SimpleGraph := from_directed_edges [(1, 2); (2, 3); (3, 4)].

Lemma caching_graph_transparent_witness :
  (0 ≤ 64) ∧
  let '(s, answers) := cache_run 64 path4 cache_new [1; 2; 1; 3; 3] in
  answers = get_neighbors path4 <$> [1; 2; 1; 3; 3]
  ∧ cache_exact path4 s ∧ within_budget 64 path4 s.
Proof. split; [lia|]. apply (caching_graph_transparent 64 path4). lia. Defined.

(** Two threads that miss on the same node both store it.  The second entry of the queue
    then frees nothing, so the bytes of one copy are never given back: with room for two
    lists the cache holds one from then on. *)
Example cache_race_leaks_budget :
  let s := cache_put 64 cache_new 1 [2] in
  let s := cache_put 64 s 1 [2] in
  let s := foldl (fun s k => (cache_get_shared 64 path4 s k).1) s [2; 3; 2; 3] in
  cs_order s = [3] ∧ cs_used_bytes s = 64 ∧ total_bytes path4 (cs_order s) = 32.
Proof. vm_compute. done. Qed.

(** A list larger than the whole budget is cached all the same. *)
Example oversized_list_is_cached :
  let s := (cache_get_shared 16 path4 cache_new 1).1 in
  cs_map s !! 1 = Some [2] ∧ cs_used_bytes s = 32.
Proof. vm_compute. done. Qed.

End GraphExamples.
