(* ===== verification/CsrGraph.v ===== *)
(** * CSR graph indexes ([src/src/core/index/csr_graph.rs])

    The on-disk adjacency of a segment: the array of offsets, the array of edges (16 bytes
    each, four of them padding) and the sorted dictionary of node ids.  [build_from_file]
    makes the three files from the edge records the writer has spooled; a graph reads them
    back.  [None] is a panic (an index out of range, a slice of the wrong size).  The
    buffers are taken to be aligned for [u64], as a map or an allocation is. *)

From S2P Require Import Prelude Graph.
From coqutil Require Import Word.LittleEndianList.

Open Scope Z_scope.
#[local] Arguments Nat.div : simpl never.
#[local] Arguments Nat.modulo : simpl never.

(** ** Slices of plain data *)

(** [chunks_exact]: full chunks of [k] bytes; the length is enough fuel. *)
Fixpoint chunks_from (k fuel : nat) (l : bytes) : list bytes :=
  match fuel with
  | O => []
  | S fuel =>
      if decide (k ≤ length l)%nat then take k l :: chunks_from k fuel (drop k l) else []
  end.
Definition chunks_exact (k : nat) (l : bytes) : list bytes := chunks_from k (length l) l.

Definition u64_to_le (n : Z) : bytes := le_split 8 n.
Definition u64_from_le (b : bytes) : Z := le_combine b.
Arguments u64_to_le : simpl never.
Arguments u64_from_le : simpl never.

(** [bytemuck::cast_slice::<u8, u64>] *)
Definition cast_u64 (l : bytes) : option (list Z) :=
  if decide (length l mod 8 = 0)%nat then Some (u64_from_le <$> chunks_exact 8 l) else None.

Record CsrEdge := { ce_dst_id : Z; ce_row_id : Z }.

Definition csr_edge_of (b : bytes) : CsrEdge :=
  {| ce_dst_id := u64_from_le (take 8 b); ce_row_id := u32_from_le_bytes (take 4 (drop 8 b)) |}.
Definition cast_edges (l : bytes) : option (list CsrEdge) :=
  if decide (length l mod 16 = 0)%nat then Some (csr_edge_of <$> chunks_exact 16 l) else None.

(** [slice::binary_search]: the interval [base, base + size) is halved until one element
    is left; the length is enough fuel. *)
Fixpoint bsearch_loop (fuel : nat) (l : list Z) (x : Z) (base size : nat) : nat :=
  match fuel with
  | O => base
  | S fuel =>
      if decide (1 < size)%nat then
        let half := (size / 2)%nat in
        let mid := (base + half)%nat in
        let base := if decide (x < default 0 (l !! mid)) then base else mid in
        bsearch_loop fuel l x base (size - half)
      else base
  end.
Definition binary_search (l : list Z) (x : Z) : option nat :=
  let i := bsearch_loop (length l) l x 0 (length l) in
  if decide (l !! i = Some x) then Some i else None.

(** ** The graph of one segment *)

Record MmapCsrGraph := {
  cg_offsets : bytes;
  cg_edges : bytes;
  cg_dict : bytes;
  cg_num_nodes : Z;
  cg_num_edges : nat
}.

Definition csr_from_bytes (offsets edges dict : bytes) : MmapCsrGraph :=
  {| cg_offsets := offsets; cg_edges := edges; cg_dict := dict;
     cg_num_nodes := wrap_u64 (Z.of_nat (length offsets / 8) - 1);
     cg_num_edges := length edges / 16 |}.

Definition csr_size_in_bytes (g : MmapCsrGraph) : nat :=
  length (cg_offsets g) + length (cg_edges g) + length (cg_dict g).

Definition to_dense (g : MmapCsrGraph) (original_id : Z) : option (option nat) :=
  dict ← cast_u64 (cg_dict g); Some (binary_search dict original_id).

Definition to_original (g : MmapCsrGraph) (dense_id : nat) : option Z :=
  dict ← cast_u64 (cg_dict g); dict !! dense_id.

Definition get_neighbors_raw (g : MmapCsrGraph) (d : nat) : option (list CsrEdge) :=
  if decide (cg_num_nodes g ≤ Z.of_nat d) then Some [] else
  offsets ← cast_u64 (cg_offsets g);
  if decide (length offsets ≤ d + 1)%nat then Some [] else
  start ← offsets !! d;
  stop ← offsets !! (d + 1)%nat;
  edges ← cast_edges (cg_edges g);
  let len := length edges in
  let start := Nat.min (Z.to_nat start) len in
  let stop := Nat.min (Z.to_nat stop) len in
  if decide (stop ≤ start)%nat then Some [] else Some (take (stop - start) (drop start edges)).

Definition csr_neighbors (g : MmapCsrGraph) (node : Z) : option (list Z) :=
  dense ← to_dense g node;
  match dense with
  | Some d =>
      es ← get_neighbors_raw g d;
      mapM (fun e => to_original g (Z.to_nat (ce_dst_id e))) es
  | None => Some []
  end.

Definition csr_degree (g : MmapCsrGraph) (node : Z) : option Z :=
  dense ← to_dense g node;
  match dense with
  | Some d =>
      if decide (cg_num_nodes g ≤ Z.of_nat d) then Some 0 else
      offsets ← cast_u64 (cg_offsets g);
      start ← offsets !! d;
      stop ← offsets !! (d + 1)%nat;
      Some (wrap_u64 (stop - start))
  | None => Some 0
  end.

(** The loop of [all_nodes] over the dense ids [ds]. *)
Fixpoint csr_sources (g : MmapCsrGraph) (ds : list nat) : option (list Z) :=
  match ds with
  | [] => Some []
  | d :: ds =>
      es ← get_neighbors_raw g d;
      match es with
      | [] => csr_sources g ds
      | _ => u ← to_original g d; rest ← csr_sources g ds; Some (u :: rest)
      end
  end.
Definition csr_all_nodes (g : MmapCsrGraph) : option (list Z) :=
  sort_u64 <$> csr_sources g (seq 0 (Z.to_nat (cg_num_nodes g))).

(** The view; a panic, excluded for the graphs [build_from_file] makes, reads as empty. *)
#[export] Instance MmapCsrGraph_view : GraphView MmapCsrGraph := {
  get_neighbors g u := default [] (csr_neighbors g u);
  get_neighbors_into g u out := out ++ default [] (csr_neighbors g u);
  get_degree g u := Z.to_nat (default 0 (csr_degree g u));
  all_nodes g := default [] (csr_all_nodes g);
  num_edges := cg_num_edges
}.

(** Several segments. *)
Record MultiSegmentCsrGraph := { segments : list MmapCsrGraph }.

#[export] Instance MultiSegmentCsrGraph_view : GraphView MultiSegmentCsrGraph := {
  get_neighbors g u := segments g ≫= fun seg => get_neighbors seg u;
  get_neighbors_into g u out := foldl (fun out seg => get_neighbors_into seg u out) out (segments g);
  get_degree g u := sum_list ((fun seg => get_degree seg u) <$> segments g);
  all_nodes g := sort_dedup (segments g ≫= all_nodes);
  num_edges g := sum_list (num_edges <$> segments g)
}.

(** ** Building the index *)

Record raw_edge := { re_src : Z; re_dst : Z; re_row : Z }.

Definition raw_edge_of (chunk : bytes) : raw_edge :=
  {| re_src := u64_from_le (take 8 chunk);
     re_dst := u64_from_le (take 8 (drop 8 chunk));
     re_row := u32_from_le_bytes (take 4 (drop 16 chunk)) |}.
Definition read_raw_edges (buffer : bytes) : list raw_edge :=
  raw_edge_of <$> chunks_exact 20 buffer.

(** The record the segment writer spools ([build_graph_index]). *)
Definition raw_edge_bytes (e : raw_edge) : bytes :=
  u64_to_le (re_src e) ++ u64_to_le (re_dst e) ++ u32_to_le_bytes (re_row e).

Definition dense_or_raw (dict : list Z) (x : Z) : Z :=
  match binary_search dict x with Some i => Z.of_nat i | None => x end.
Definition densify (dict : list Z) (e : raw_edge) : raw_edge :=
  {| re_src := dense_or_raw dict (re_src e); re_dst := dense_or_raw dict (re_dst e);
     re_row := re_row e |}.

(** [n] iterations of [offsets[current_src + 1] = current_offset; current_src += 1]. *)
Fixpoint fill_offsets (n current_src : nat) (current_offset : Z) (offsets : list Z)
  : option (list Z) :=
  match n with
  | O => Some offsets
  | S n =>
      if decide (current_src + 1 < length offsets)%nat then
        fill_offsets n (S current_src) current_offset
          (<[(current_src + 1)%nat := current_offset]> offsets)
      else None
  end.

(** The loop over the sorted edges; a [while] that starts at or above its bound runs no
    iteration. *)
Fixpoint offsets_loop (es : list raw_edge) (current_src : nat) (current_offset : Z)
    (offsets : list Z) : option (nat * Z * list Z) :=
  match es with
  | [] => Some (current_src, current_offset, offsets)
  | e :: es =>
      let n := (Z.to_nat (re_src e) - current_src)%nat in
      offsets ← fill_offsets n current_src current_offset offsets;
      offsets_loop es (current_src + n) (current_offset + 1) offsets
  end.

Section Build.
(** [sort_unstable_by_key] on the dense source, and the padding bytes of a written edge. *)
Context (sort_by_src : list raw_edge → list raw_edge) (padding : CsrEdge → bytes).

Definition csr_edge_bytes (e : CsrEdge) : bytes :=
  u64_to_le (ce_dst_id e) ++ u32_to_le_bytes (ce_row_id e) ++ padding e.

Definition csr_build (buffer : bytes) : option (list Z * list CsrEdge * list Z) :=
  let raw_edges := read_raw_edges buffer in
  let unique_ids := sort_dedup (raw_edges ≫= fun e => [re_src e; re_dst e]) in
  let raw_edges := sort_by_src (densify unique_ids <$> raw_edges) in
  let max_src_id := (length unique_ids - 1)%nat in
  let offsets := replicate (max_src_id + 2) 0 in
  '(current_src, current_offset, offsets) ← offsets_loop raw_edges 0 0 offsets;
  offsets ← fill_offsets (max_src_id + 1 - current_src) current_src current_offset offsets;
  Some (offsets, (fun e => {| ce_dst_id := re_dst e; ce_row_id := re_row e |}) <$> raw_edges,
        unique_ids).

(** The files written, with their contents. *)
Definition build_from_file (buffer : bytes) (base : string) : option (list (string * bytes)) :=
  '(offsets, edges, dict) ← csr_build buffer;
  Some [(base +:+ ".graph_v2.csr.offsets", offsets ≫= u64_to_le);
        (base +:+ ".graph_v2.csr.edges", edges ≫= csr_edge_bytes);
        (base +:+ ".graph_v2.csr.dict", dict ≫= u64_to_le)].

End Build.

(** ** Binary search *)

Lemma sorted_lookup_lt l i j x y :
  StronglySorted Z.lt l → l !! i = Some x → l !! j = Some y → (i < j)%nat → x < y.
Proof.
  intros Hs. revert i j. induction Hs as [|z l Hs IH Hz]; intros i j Hi Hj Hij; [done|].
  destruct j as [|j]; [lia|]. destruct i as [|i]; simplify_eq/=.
  - rewrite Forall_forall in Hz. by eapply Hz, list_elem_of_lookup_2.
  - by eapply (IH i j); [..|lia].
Qed.

Lemma bsearch_loop_spec l x i fuel base size :
  StronglySorted Z.lt l → l !! i = Some x →
  (base ≤ i < base + size)%nat → (base + size ≤ length l)%nat → (size ≤ S fuel)%nat →
  bsearch_loop fuel l x base size = i.
Proof.
  intros Hs Hi. revert base size. induction fuel as [|fuel IH]; intros base size Hb Hl Hf;
    simpl; [lia|].
  case_decide as Hsz; [|lia].
  assert (1 ≤ size / 2 ∧ 2 * (size / 2) ≤ size)%nat as [Hhalf Hhalf2].
  { split; [apply Nat.div_le_lower_bound; lia|apply Nat.Div0.mul_div_le]. }
  destruct (lookup_lt_is_Some_2 l (base + size / 2)%nat) as [y Hy]; [lia|].
  rewrite Hy. simpl. case_decide as Hxy.
  - assert (i < base + size / 2)%nat; [|apply IH; lia].
    destruct (decide (i < base + size / 2)%nat); [done|].
    destruct (decide (i = base + size / 2)%nat) as [->|]; [simplify_eq; lia|].
    assert (y < x) by (eapply sorted_lookup_lt; [done|exact Hy|exact Hi|lia]). lia.
  - assert (base + size / 2 ≤ i)%nat; [|apply IH; lia].
    destruct (decide (i < base + size / 2)%nat); [|lia].
    assert (x < y) by (eapply sorted_lookup_lt; [done|exact Hi|exact Hy|lia]). lia.
Qed.

Lemma binary_search_lookup l x i : binary_search l x = Some i → l !! i = Some x.
Proof. unfold binary_search. case_decide; [|done]. by intros [= <-]. Qed.

Lemma binary_search_spec l x i :
  StronglySorted Z.lt l → binary_search l x = Some i ↔ l !! i = Some x.
Proof.
  intros Hs. split; [apply binary_search_lookup|]. intros Hi. unfold binary_search.
  pose proof (lookup_lt_Some _ _ _ Hi).
  by rewrite (bsearch_loop_spec l x i) by (done || lia); rewrite decide_True.
Qed.

Lemma binary_search_None l x : StronglySorted Z.lt l → binary_search l x = None ↔ x ∉ l.
Proof.
  intros Hs. rewrite eq_None_not_Some. apply not_iff_compat.
  rewrite list_elem_of_lookup. split; intros [i Hi]; exists i; by apply binary_search_spec.
Qed.

(** ** Arrays of fixed-size records *)

Lemma chunks_from_app k fuel (cs : list bytes) tail :
  (0 < k)%nat → Forall (fun c => length c = k) cs → (length tail < k)%nat →
  (length cs ≤ fuel)%nat → chunks_from k fuel (concat cs ++ tail) = cs.
Proof.
  intros Hk Hcs Ht. revert fuel. induction Hcs as [|c cs Hc Hcs IH]; intros fuel Hf; simpl.
  { destruct fuel; [done|]. simpl. rewrite decide_False by lia. done. }
  destruct fuel as [|fuel]; simpl in *; [lia|].
  rewrite <- app_assoc, decide_True by (rewrite length_app; lia).
  rewrite take_app_length', drop_app_length' by done. f_equal. apply IH. lia.
Qed.

Lemma length_concat_const {A} k (cs : list (list A)) :
  Forall (fun c => length c = k) cs → length (concat cs) = (k * length cs)%nat.
Proof. induction 1; simpl; [lia|]. rewrite length_app. lia. Qed.

Lemma chunks_exact_app k (cs : list bytes) tail :
  (0 < k)%nat → Forall (fun c => length c = k) cs → (length tail < k)%nat →
  chunks_exact k (concat cs ++ tail) = cs.
Proof.
  intros Hk Hcs Ht. apply chunks_from_app; try done.
  rewrite length_app, (length_concat_const k) by done. nia.
Qed.

Lemma bind_concat_fmap {A B} (f : A → list B) l : l ≫= f = concat (f <$> l).
Proof. induction l as [|x l IH]; [done|]. csimpl. by rewrite IH. Qed.

Lemma length_u64_to_le n : length (u64_to_le n) = 8%nat.
Proof. apply length_le_split. Qed.

Lemma u64_le_roundtrip n : is_u64 n → u64_from_le (u64_to_le n) = n.
Proof.
  intros H. unfold u64_from_le, u64_to_le. rewrite le_combine_split.
  apply Z.mod_small. unfold is_u64 in H. lia.
Qed.

Definition is_u32 (z : Z) : Prop := 0 ≤ z < 2 ^ 32.

(** Records written one after the other are read back, by a cast or by chunks. *)
Lemma read_records {A} k (enc : A → bytes) (dec : bytes → A) l :
  (0 < k)%nat → (∀ a, length (enc a) = k) → Forall (fun a => dec (enc a) = a) l →
  length (l ≫= enc) = (k * length l)%nat ∧ dec <$> chunks_exact k (l ≫= enc) = l.
Proof.
  intros Hk Hlen Hdec. rewrite bind_concat_fmap.
  assert (Forall (fun c => length c = k) (enc <$> l)) as Hall
    by (rewrite Forall_fmap; apply Forall_true; intros a; apply Hlen).
  split; [by rewrite (length_concat_const k), length_fmap|].
  rewrite <- (app_nil_r (concat _)), chunks_exact_app by (done || (simpl; lia)).
  rewrite <- list_fmap_compose. induction Hdec as [|a l Ha Hl IH]; [done|].
  csimpl. rewrite Ha. f_equal. apply IH. by inversion Hall.
Qed.

Lemma cast_u64_written l : Forall is_u64 l → cast_u64 (l ≫= u64_to_le) = Some l.
Proof.
  intros Hl. destruct (read_records 8 u64_to_le u64_from_le l) as [Hlen Hread];
    [lia|apply length_u64_to_le|eapply Forall_impl; [exact Hl|apply u64_le_roundtrip]|].
  unfold cast_u64. by rewrite Hlen, Nat.mul_comm, Nat.Div0.mod_mul, decide_True, Hread by done.
Qed.

(** ** The offsets of edges sorted by source *)

Abbreviation src_le := (fun a b : raw_edge => re_src a ≤ re_src b).
Definition below (k : nat) (es : list raw_edge) : list raw_edge :=
  filter (fun e => re_src e < Z.of_nat k) es.
Definition out_edges (k : nat) (es : list raw_edge) : list raw_edge :=
  filter (fun e => re_src e = Z.of_nat k) es.

Lemma sorted_split_below k es :
  StronglySorted src_le es → es = below k es ++ filter (fun e => ¬ re_src e < Z.of_nat k) es.
Proof.
  unfold below. induction 1 as [|e es Hs IH He]; [done|].
  rewrite !filter_cons. case_decide as Hlt.
  - rewrite decide_False by tauto. by rewrite <- app_comm_cons, <- IH.
  - rewrite decide_True by done. rewrite Forall_forall in He.
    rewrite filter_none, filter_all; [done|..]; intros x Hx%He; lia.
Qed.

Lemma length_below_S k es :
  length (below (S k) es) = (length (below k es) + length (out_edges k es))%nat.
Proof.
  unfold below, out_edges. induction es as [|e es IH]; [done|]. rewrite !filter_cons.
  repeat case_decide; simpl; lia.
Qed.

(** The slice between two consecutive offsets holds the edges of the source. *)
Lemma slice_out_edges k es :
  StronglySorted src_le es →
  take (length (below (S k) es) - length (below k es)) (drop (length (below k es)) es)
  = out_edges k es.
Proof.
  intros Hs. rewrite length_below_S.
  replace (_ + _ - _)%nat with (length (out_edges k es)) by lia.
  rewrite (sorted_split_below k es Hs) at 3. rewrite drop_app_length.
  rewrite (sorted_split_below (S k) (filter _ es)).
  2:{ induction Hs as [|e es Hs IH He]; [constructor|]. rewrite filter_cons.
      case_decide; [|done]. constructor; [done|].
      rewrite Forall_forall in *. intros x [_ Hx]%list_elem_of_filter. auto. }
  unfold below. rewrite list_filter_filter.
  assert (out_edges k es = filter (fun e => re_src e < Z.of_nat (S k) ∧ ¬ re_src e < Z.of_nat k) es)
    as -> by (apply list_filter_iff; lia).
  apply take_app_length.
Qed.

Lemma below_all k es : Forall (fun e => re_src e < Z.of_nat k) es → below k es = es.
Proof. rewrite Forall_forall. apply filter_all. Qed.

Lemma below_app k es fs : below k (es ++ fs) = below k es ++ below k fs.
Proof. apply filter_app. Qed.

Lemma below_none k es : Forall (fun e => Z.of_nat k ≤ re_src e) es → below k es = [].
Proof. rewrite Forall_forall. intros H. apply filter_none. intros e He%H. lia. Qed.

Lemma fill_offsets_spec n cur off offsets :
  (cur + n < length offsets)%nat →
  ∃ offsets', fill_offsets n cur off offsets = Some offsets'
    ∧ length offsets' = length offsets
    ∧ ∀ k, offsets' !! k = if decide (cur < k ≤ cur + n)%nat then Some off else offsets !! k.
Proof.
  revert cur offsets. induction n as [|n IH]; intros cur offsets Hl; simpl.
  { exists offsets. split_and!; [done|done|]. intros k. by rewrite decide_False by lia. }
  rewrite decide_True by lia.
  destruct (IH (S cur) (<[(cur + 1)%nat:=off]> offsets)) as (o & -> & Hlen & Hk);
    rewrite ?length_insert in *; [lia|].
  exists o. split_and!; [done|done|]. intros k. rewrite Hk.
  destruct (decide (k = (cur + 1)%nat)) as [->|Hne].
  - rewrite decide_False, decide_True by lia. apply list_lookup_insert_eq. lia.
  - rewrite list_lookup_insert_ne by done. by repeat case_decide; try lia.
Qed.

(** What the array holds once the sources up to [cur] are closed. *)
Definition offsets_upto (cur : nat) (es : list raw_edge) (offsets : list Z) : Prop :=
  ∀ k, (k ≤ cur)%nat → offsets !! k = Some (Z.of_nat (length (below k es))).

Lemma fill_offsets_upto n cur pre es offsets :
  (cur + n < length offsets)%nat → offsets_upto cur (pre ++ es) offsets →
  Forall (fun e => re_src e ≤ Z.of_nat cur) pre →
  Forall (fun e => Z.of_nat (cur + n) ≤ re_src e) es →
  ∃ offsets', fill_offsets n cur (Z.of_nat (length pre)) offsets = Some offsets'
    ∧ length offsets' = length offsets ∧ offsets_upto (cur + n) (pre ++ es) offsets'.
Proof.
  intros Hl Hup Hpre Hes.
  destruct (fill_offsets_spec n cur (Z.of_nat (length pre)) offsets Hl) as (o & Ho & Hlen & Hk).
  exists o. split_and!; [done|done|]. intros k Hkn. rewrite Hk.
  case_decide as Hd; [|apply Hup; lia].
  rewrite below_app, below_all, below_none, app_nil_r; [done|..];
    (eapply Forall_impl; [eassumption|]); simpl; lia.
Qed.

Lemma offsets_loop_spec N es pre cur offsets :
  StronglySorted src_le es → Forall (fun e => Z.of_nat cur ≤ re_src e < Z.of_nat N) es →
  Forall (fun e => re_src e ≤ Z.of_nat cur) pre → length offsets = S N → (cur < N)%nat →
  offsets_upto cur (pre ++ es) offsets →
  ∃ cur' offsets',
    offsets_loop es cur (Z.of_nat (length pre)) offsets
      = Some (cur', Z.of_nat (length (pre ++ es)), offsets')
    ∧ (cur' < N)%nat ∧ length offsets' = S N ∧ offsets_upto cur' (pre ++ es) offsets'
    ∧ Forall (fun e => re_src e ≤ Z.of_nat cur') (pre ++ es).
Proof.
  intros Hs. revert pre cur offsets. induction Hs as [|e es Hs IH He];
    intros pre cur offsets Hr Hpre Hlen Hcur Hup.
  { rewrite app_nil_r in *. by exists cur, offsets. }
  apply Forall_cons in Hr as [Hre Hr]. cbn [offsets_loop].
  set (n := (Z.to_nat (re_src e) - cur)%nat).
  assert (Z.of_nat (cur + n) = re_src e) as Hn by lia.
  destruct (fill_offsets_upto n cur pre (e :: es) offsets) as (o & -> & Hlen' & Hup');
    [lia|done|done| |].
  { rewrite Hn. constructor; [lia|done]. }
  simpl. rewrite (cons_middle e pre es), (assoc_L (++)) in Hup' |- *.
  destruct (IH (pre ++ [e]) (cur + n)%nat o) as (cur' & o' & Hloop & ?); [..|done|].
  - rewrite Forall_forall in *. intros x Hx. specialize (He x Hx). specialize (Hr x Hx). lia.
  - apply Forall_app. split; [|repeat constructor; lia].
    eapply Forall_impl; [exact Hpre|]. simpl. lia.
  - lia.
  - lia.
  - exists cur', o'. split; [|done].
    rewrite <- Hloop. f_equal. rewrite length_app. simpl. lia.
Qed.

(** The finished array: one offset per source and one past the last. *)
Definition offsets_of (N : nat) (es : list raw_edge) : list Z :=
  (fun k => Z.of_nat (length (below k es))) <$> seq 0 (S N).

Lemma build_offsets_spec N es :
  StronglySorted src_le es → Forall (fun e => 0 ≤ re_src e < Z.of_nat N) es → (0 < N)%nat →
  ∃ cur off offsets, offsets_loop es 0 0 (replicate (S N) 0) = Some (cur, off, offsets)
    ∧ fill_offsets (N - cur) cur off offsets = Some (offsets_of N es).
Proof.
  intros Hs Hr HN.
  destruct (offsets_loop_spec N es [] 0 (replicate (S N) 0))
    as (cur & o & Hloop & Hcur & Hlen & Hup & Hall); [done|done|done|len|done| |].
  { intros k Hk. assert (k = 0%nat) as -> by lia. simpl. rewrite below_none; [done|].
    eapply Forall_impl; [exact Hr|]. simpl. lia. }
  exists cur, (Z.of_nat (length ([] ++ es))), o. split; [done|].
  destruct (fill_offsets_upto (N - cur) cur es [] o) as (o' & Ho & Hlen' & Hup');
    [lia|by rewrite app_nil_r|done|constructor|].
  simpl. rewrite Ho. f_equal. rewrite app_nil_r in Hup'.
  apply list_eq_same_length with (n := S N); [|lia|].
  { unfold offsets_of. by rewrite length_fmap, length_seq. }
  intros i x y Hi Hx Hy. rewrite Hup' in Hx by lia.
  unfold offsets_of in Hy. rewrite list_lookup_fmap, lookup_seq_lt in Hy by lia.
  simpl in Hy. congruence.
Qed.

(** ** What a graph on disk denotes *)

(** Lookup in the dictionary, as [to_original] does. *)
Definition orig (D : list Z) (i : Z) : Z := default 0 (D !! Z.to_nat i).
Definition orig_edge (D : list Z) (e : raw_edge) : Z * Z := (orig D (re_src e), orig D (re_dst e)).

Definition csr_edge (e : raw_edge) : CsrEdge :=
  {| ce_dst_id := re_dst e; ce_row_id := re_row e |}.

(** The three arrays hold the dictionary [D] and the dense edges [es]. *)
Record csr_repr (g : MmapCsrGraph) (D : list Z) (es : list raw_edge) : Prop := {
  cr_dict : cast_u64 (cg_dict g) = Some D;
  cr_sorted : StronglySorted Z.lt D;
  cr_nodes : cg_num_nodes g = Z.of_nat (Nat.max 1 (length D));
  cr_offsets : cast_u64 (cg_offsets g) = Some (offsets_of (Nat.max 1 (length D)) es);
  cr_edges : cast_edges (cg_edges g) = Some (csr_edge <$> es);
  cr_num_edges : cg_num_edges g = length es;
  cr_by_src : StronglySorted src_le es;
  cr_dense : Forall (fun e => 0 ≤ re_src e < Z.of_nat (length D)
                            ∧ 0 ≤ re_dst e < Z.of_nat (length D)) es;
  cr_small : Z.of_nat (length es) < 2 ^ 64
}.

Lemma orig_lookup D i : 0 ≤ i < Z.of_nat (length D) → D !! Z.to_nat i = Some (orig D i).
Proof.
  intros Hi. unfold orig.
  by destruct (lookup_lt_is_Some_2 D (Z.to_nat i) ltac:(lia)) as [x ->].
Qed.

Lemma length_below_le k es : (length (below k es) ≤ length es)%nat.
Proof. apply length_filter. Qed.

Section Repr.
Context (g : MmapCsrGraph) (D : list Z) (es : list raw_edge) (Hg : csr_repr g D es).

Lemma offsets_of_lookup N k :
  (k ≤ N)%nat → offsets_of N es !! k = Some (Z.of_nat (length (below k es))).
Proof.
  intros Hk. unfold offsets_of. rewrite list_lookup_fmap, lookup_seq_lt by lia. done.
Qed.

Lemma raw_neighbors_spec d :
  get_neighbors_raw g d = Some (csr_edge <$> out_edges d es).
Proof.
  destruct Hg as [HD HDs Hn Ho He Hne Hs Hd Hsm]. unfold get_neighbors_raw. rewrite Hn.
  case_decide as Hdn.
  { unfold out_edges. rewrite filter_none; [done|]. rewrite Forall_forall in Hd.
    intros e Hin%Hd. lia. }
  rewrite Ho. simpl. rewrite decide_False
    by (unfold offsets_of; rewrite length_fmap, length_seq; lia).
  rewrite !offsets_of_lookup by lia. simpl. rewrite He. simpl.
  rewrite !Nat2Z.id, length_fmap, Nat.add_1_r.
  pose proof (length_below_le d es). pose proof (length_below_le (S d) es).
  rewrite !Nat.min_l by done. pose proof (length_below_S d es) as HS. case_decide.
  - destruct (out_edges d es); simpl in *; [done|lia].
  - by rewrite <- fmap_drop, <- fmap_take, slice_out_edges.
Qed.

Lemma to_dense_spec u : to_dense g u = Some (binary_search D u).
Proof. unfold to_dense. by rewrite (cr_dict _ _ _ Hg). Qed.

Lemma to_original_spec i :
  0 ≤ i < Z.of_nat (length D) → to_original g (Z.to_nat i) = Some (orig D i).
Proof. intros Hi. unfold to_original. rewrite (cr_dict _ _ _ Hg). by apply orig_lookup. Qed.

(** The edges that leave the [d]-th node of the dictionary. *)
Lemma out_edges_orig d u :
  D !! d = Some u →
  filter (fun e : Z * Z => e.1 = u) (orig_edge D <$> es) = orig_edge D <$> out_edges d es.
Proof.
  intros Hu. pose proof (cr_sorted _ _ _ Hg) as HDs. unfold out_edges.
  pose proof (cr_dense _ _ _ Hg) as Hd. clear Hg.
  induction Hd as [|e l [He _] Hl IH]; [done|]. csimpl. rewrite !filter_cons, IH. pose proof (orig_lookup D (re_src e) He) as Ho.
  pose proof (sorted_lt_NoDup _ HDs) as Hnd. simpl.
  destruct (decide (re_src e = Z.of_nat d)) as [E|E].
  - rewrite decide_True; [done|]. rewrite E, Nat2Z.id in Ho. rewrite <- E in Ho.
    rewrite Hu in Ho. by injection Ho as <-.
  - rewrite decide_False; [done|]. intros Heq. rewrite Heq in Ho.
    assert (Z.to_nat (re_src e) = d) by (eapply NoDup_lookup; [exact Hnd|done|done]). lia.
Qed.

Lemma no_out_edges u :
  u ∉ D → filter (fun e : Z * Z => e.1 = u) (orig_edge D <$> es) = [].
Proof.
  intros Hu. apply filter_none. intros [a b] (e & [= -> ->] & He)%list_elem_of_fmap. simpl.
  intros <-. apply Hu. pose proof (cr_dense _ _ _ Hg) as Hd. rewrite Forall_forall in Hd.
  destruct (Hd e He) as [Hr _]. eapply list_elem_of_lookup_2. by apply orig_lookup.
Qed.

Lemma csr_neighbors_spec u :
  csr_neighbors g u
  = Some (filter (fun e : Z * Z => e.1 = u) (orig_edge D <$> es)).*2.
Proof.
  unfold csr_neighbors. rewrite to_dense_spec. simpl.
  destruct (binary_search D u) as [d|] eqn:Hb.
  - apply binary_search_lookup in Hb. rewrite raw_neighbors_spec. simpl.
    rewrite (out_edges_orig d u Hb).
    assert (Forall (fun e => 0 ≤ re_dst e < Z.of_nat (length D)) (out_edges d es)) as Hd.
    { pose proof (cr_dense _ _ _ Hg) as Hd. rewrite Forall_forall in *.
      intros e [_ He]%list_elem_of_filter. by apply Hd. }
    apply mapM_Some. rewrite !Forall2_fmap_l, !Forall2_fmap_r.
    apply Forall_Forall2_diag. eapply Forall_impl; [exact Hd|].
    intros e He. by apply to_original_spec.
  - rewrite no_out_edges; [done|]. apply binary_search_None; [apply Hg|done].
Qed.

Lemma csr_degree_spec u :
  csr_degree g u
  = Some (Z.of_nat (length (filter (fun e : Z * Z => e.1 = u) (orig_edge D <$> es)))).
Proof.
  unfold csr_degree. rewrite to_dense_spec. simpl.
  destruct (binary_search D u) as [d|] eqn:Hb.
  - apply binary_search_lookup in Hb. pose proof (lookup_lt_Some _ _ _ Hb).
    rewrite (out_edges_orig d u Hb), (cr_nodes _ _ _ Hg), decide_False by lia.
    rewrite (cr_offsets _ _ _ Hg). simpl. rewrite !offsets_of_lookup by lia. simpl.
    rewrite Nat.add_1_r, length_fmap. pose proof (length_below_S d es).
    rewrite wrap_u64_small; [f_equal; lia|].
    pose proof (cr_small _ _ _ Hg). pose proof (length_below_le (S d) es).
    unfold is_u64. lia.
  - rewrite no_out_edges; [done|]. apply binary_search_None; [apply Hg|done].
Qed.

(** The nodes [all_nodes] collects before it sorts them. *)
Definition sources : list nat :=
  filter (fun d => out_edges d es ≠ []) (seq 0 (Nat.max 1 (length D))).

Lemma source_lookup d : d ∈ sources → D !! d = Some (orig D (Z.of_nat d)).
Proof.
  unfold sources. intros [Hd _]%list_elem_of_filter.
  destruct (out_edges d es) as [|e l] eqn:E; [done|].
  assert (e ∈ out_edges d es) as [Hsrc He]%list_elem_of_filter by (rewrite E; left).
  pose proof (cr_dense _ _ _ Hg) as Hd'. rewrite Forall_forall in Hd'.
  destruct (Hd' e He) as [Hr _]. rewrite <- (orig_lookup D (Z.of_nat d)), Nat2Z.id; [done|lia].
Qed.

Lemma csr_sources_spec ds :
  (∀ d, d ∈ ds → d ∈ sources ∨ out_edges d es = []) →
  csr_sources g ds
  = Some ((fun d : nat => orig D (Z.of_nat d)) <$> filter (fun d => out_edges d es ≠ []) ds).
Proof.
  induction ds as [|d ds IH]; intros Hds; [done|]. simpl.
  rewrite raw_neighbors_spec, filter_cons. cbn [mbind option_bind].
  rewrite IH by (intros; apply Hds; by right).
  destruct (Hds d) as [Hd|Hd]; [left| |].
  - assert (out_edges d es ≠ []) as Hne by by apply list_elem_of_filter in Hd as [? _].
    rewrite decide_True by done. destruct (out_edges d es); [done|]. csimpl.
    unfold to_original. rewrite (cr_dict _ _ _ Hg). simpl. by rewrite source_lookup.
  - by rewrite Hd, decide_False by tauto.
Qed.

Lemma csr_all_nodes_spec :
  csr_all_nodes g = Some (sort_u64 ((fun d : nat => orig D (Z.of_nat d)) <$> sources)).
Proof.
  unfold csr_all_nodes. rewrite (cr_nodes _ _ _ Hg), Nat2Z.id, csr_sources_spec; [done|].
  intros d Hd. destruct (decide (out_edges d es = [])); [by right|].
  left. by apply list_elem_of_filter.
Qed.

Lemma NoDup_sources : NoDup ((fun d : nat => orig D (Z.of_nat d)) <$> sources).
Proof.
  apply NoDup_fmap_2_strong.
  - intros i j Hi%source_lookup Hj%source_lookup Heq. rewrite Heq in Hi.
    eapply NoDup_lookup; [apply sorted_lt_NoDup, (cr_sorted _ _ _ Hg)|done|done].
  - apply NoDup_filter, NoDup_seq.
Qed.

Lemma elem_of_sources u :
  u ∈ ((fun d : nat => orig D (Z.of_nat d)) <$> sources)
  ↔ filter (fun e : Z * Z => e.1 = u) (orig_edge D <$> es) ≠ [].
Proof.
  rewrite list_elem_of_fmap. split.
  - intros (d & -> & Hd). rewrite (out_edges_orig d) by by apply source_lookup.
    apply list_elem_of_filter in Hd as [Hd _]. by destruct (out_edges d es).
  - intros Hu. destruct (decide (u ∈ D)) as [Hin|Hin]; [|by apply no_out_edges in Hin].
    apply list_elem_of_lookup in Hin as [d Hd]. rewrite (out_edges_orig d u Hd) in Hu.
    assert (d ∈ sources) as Hs.
    { apply list_elem_of_filter. split; [by destruct (out_edges d es)|].
      apply elem_of_seq. apply lookup_lt_Some in Hd. lia. }
    exists d. split; [|done]. pose proof (source_lookup d Hs) as E. rewrite Hd in E.
    by injection E.
Qed.

Lemma sum_out_edges N :
  sum_list ((fun d => length (out_edges d es)) <$> seq 0 N) = length (below N es).
Proof.
  induction N as [|N IH].
  - simpl. rewrite below_none; [done|]. eapply Forall_impl; [apply (cr_dense _ _ _ Hg)|].
    simpl. lia.
  - rewrite seq_S, fmap_app, sum_list_with_app, IH, length_below_S. simpl. lia.
Qed.
End Repr.

#[export] Program Instance MmapCsrGraph_laws : GraphViewLaws MmapCsrGraph := {
  gv_wf g := ∃ D es, csr_repr g D es
}.
Next Obligation. done. Qed.
Next Obligation.
  intros g u (D & es & Hg). unfold get_degree, get_neighbors. simpl.
  rewrite (csr_degree_spec g D es Hg), (csr_neighbors_spec g D es Hg). simpl.
  by rewrite Nat2Z.id, length_fmap.
Qed.
Next Obligation.
  intros g (D & es & Hg). unfold all_nodes. simpl. rewrite (csr_all_nodes_spec g D es Hg).
  apply sort_u64_strict. by eapply NoDup_sources.
Qed.
Next Obligation.
  intros g u (D & es & Hg). unfold all_nodes, get_neighbors. simpl.
  rewrite (csr_all_nodes_spec g D es Hg), (csr_neighbors_spec g D es Hg). simpl.
  rewrite elem_of_sort_u64, (elem_of_sources g D es Hg). by destruct (filter _ _).
Qed.
Next Obligation.
  intros g (D & es & Hg). unfold num_edges, all_nodes. simpl.
  rewrite (csr_all_nodes_spec g D es Hg), (cr_num_edges _ _ _ Hg). simpl.
  rewrite sort_u64_perm. unfold sum_degrees. rewrite <- list_fmap_compose.
  transitivity (sum_list ((fun d => length (out_edges d es)) <$> sources D es)).
  - unfold sources. rewrite sum_filter_zero
      by (intros d _; destruct (out_edges d es); [done|intros []; done]).
    rewrite (sum_out_edges g D es Hg), below_all; [done|].
    eapply Forall_impl; [apply (cr_dense _ _ _ Hg)|]. simpl. lia.
  - f_equal. apply Forall_fmap_ext, Forall_forall. intros d Hd. simpl.
    unfold get_degree. simpl. rewrite (csr_degree_spec g D es Hg). simpl.
    by rewrite (out_edges_orig g D es Hg d), length_fmap, Nat2Z.id
      by by eapply source_lookup.
Qed.

(** ** Several segments behave as one graph *)

Lemma sum_list_add {A} (f h : A → nat) l :
  sum_list ((fun x => f x + h x)%nat <$> l) = (sum_list (f <$> l) + sum_list (h <$> l))%nat.
Proof. induction l as [|x l IH]; [done|]. csimpl. rewrite IH. lia. Qed.

Lemma sum_list_swap {A B} (f : A → B → nat) la lb :
  sum_list ((fun b => sum_list ((fun a => f a b) <$> la)) <$> lb)
  = sum_list ((fun a => sum_list (f a <$> lb)) <$> la).
Proof.
  induction la as [|a la IH]; csimpl.
  - by induction lb.
  - rewrite sum_list_add, IH. done.
Qed.

(** Degrees summed over any list that contains every source count every edge. *)
Lemma sum_degrees_superset {G} `{GraphViewLaws G} (g : G) l :
  gv_wf g → NoDup l → (∀ u, u ∈ all_nodes g → u ∈ l) →
  sum_degrees (get_degree g) l = num_edges g.
Proof.
  intros Hwf Hnd Hsub. rewrite gv_num_edges by done. unfold sum_degrees.
  rewrite <- (sum_filter_zero (get_degree g) (fun u => u ∈ all_nodes g) l).
  - apply sum_list_with_Permutation_proper, fmap_Permutation, NoDup_Permutation.
    + by apply NoDup_filter.
    + by apply sorted_lt_NoDup, gv_sorted.
    + intros u. rewrite list_elem_of_filter. naive_solver.
  - intros u _ Hu. rewrite gv_degree by done. rewrite gv_nodes in Hu by done.
    by destruct (get_neighbors g u); [|destruct Hu].
Qed.

#[export] Program Instance MultiSegmentCsrGraph_laws : GraphViewLaws MultiSegmentCsrGraph := {
  gv_wf g := Forall gv_wf (segments g)
}.
Next Obligation.
  intros [segs] u out Hwf. unfold get_neighbors_into, get_neighbors. simpl in *.
  revert out. induction Hwf as [|s segs Hs Hss IH]; intros out; csimpl; [by rewrite app_nil_r|].
  by rewrite IH, (assoc_L (++)).
Qed.
Next Obligation.
  intros [segs] u Hwf. change (sum_list ((fun seg => get_degree seg u) <$> segs)
    = length (segs ≫= fun seg => get_neighbors seg u)).
  cbn [segments] in Hwf. induction Hwf as [|s segs Hs Hss IH]; [done|].
  rewrite fmap_cons, bind_cons, length_app, <- IH, <- gv_degree by done. done.
Qed.
Next Obligation. intros g _. apply sort_dedup_sorted. Qed.
Next Obligation.
  intros [segs] u Hwf. change (u ∈ sort_dedup (segs ≫= all_nodes)
    ↔ (segs ≫= fun seg => get_neighbors seg u) ≠ []). cbn [segments] in Hwf.
  rewrite elem_of_sort_dedup, list_elem_of_bind. rewrite Forall_forall in Hwf. split.
  - intros (s & Hu & Hs) E. rewrite gv_nodes in Hu by auto. apply Hu.
    destruct (get_neighbors s u) as [|v l] eqn:Ev; [done|].
    assert (v ∈ segs ≫= (fun seg => get_neighbors seg u)) as Hv
      by (apply list_elem_of_bind; exists s; rewrite Ev; split; [left|done]).
    by rewrite E in Hv; apply not_elem_of_nil in Hv.
  - intros Hne. destruct (segs ≫= _) as [|v l] eqn:E; [done|].
    assert (v ∈ segs ≫= (fun seg => get_neighbors seg u)) as (s & Hv & Hs)%list_elem_of_bind
      by (rewrite E; left).
    exists s. rewrite gv_nodes by auto. split; [|done].
    intros E'. by rewrite E' in Hv; apply not_elem_of_nil in Hv.
Qed.
Next Obligation.
  intros [segs] Hwf. change (sum_list (num_edges <$> segs)
    = sum_list ((fun u => sum_list ((fun seg => get_degree seg u) <$> segs))
        <$> sort_dedup (segs ≫= all_nodes))). cbn [segments] in Hwf.
  rewrite sum_list_swap. f_equal. apply Forall_fmap_ext.
  rewrite Forall_forall in *. intros s Hs. symmetry. apply sum_degrees_superset; [auto| |].
  - apply NoDup_sort_dedup.
  - intros u Hu. apply elem_of_sort_dedup, list_elem_of_bind. eauto.
Qed.

(** ** Building and reading back *)

Definition raw_edge_ok (e : raw_edge) : Prop :=
  is_u64 (re_src e) ∧ is_u64 (re_dst e) ∧ is_u32 (re_row e).
Definition endpoints (e : raw_edge) : Z * Z := (re_src e, re_dst e).
Definition dict_of (es : list raw_edge) : list Z :=
  sort_dedup (es ≫= fun e => [re_src e; re_dst e]).

Lemma length_raw_edge_bytes e : length (raw_edge_bytes e) = 20%nat.
Proof.
  unfold raw_edge_bytes. by rewrite !length_app, !length_u64_to_le, length_u32_to_le_bytes.
Qed.

Lemma raw_edge_roundtrip e : raw_edge_ok e → raw_edge_of (raw_edge_bytes e) = e.
Proof.
  destruct e as [s d r]. intros (Hs & Hd & Hr). unfold raw_edge_of, raw_edge_bytes.
  cbn [re_src re_dst re_row] in *.
  rewrite take_app_length' by (by rewrite length_u64_to_le).
  rewrite drop_app_length' by (by rewrite length_u64_to_le).
  rewrite take_app_length' by (by rewrite length_u64_to_le).
  rewrite (drop_app_ge _ _ 16), length_u64_to_le by (rewrite length_u64_to_le; lia).
  rewrite drop_app_length' by (by rewrite length_u64_to_le).
  rewrite take_ge by (rewrite length_u32_to_le_bytes; lia).
  by rewrite !u64_le_roundtrip, u32_le_roundtrip.
Qed.

(** A torn record at the end of the spool file is not read. *)
Lemma read_raw_edges_written es tail :
  Forall raw_edge_ok es → (length tail < 20)%nat →
  read_raw_edges ((es ≫= raw_edge_bytes) ++ tail) = es.
Proof.
  intros Hes Ht. unfold read_raw_edges. rewrite bind_concat_fmap, chunks_exact_app;
    [|lia|by rewrite Forall_fmap; apply Forall_true, length_raw_edge_bytes|done].
  rewrite <- list_fmap_compose. induction Hes as [|e es He Hes IH]; [done|].
  csimpl. by rewrite raw_edge_roundtrip, IH.
Qed.

Lemma elem_of_dict es x :
  x ∈ dict_of es ↔ ∃ e, e ∈ es ∧ (x = re_src e ∨ x = re_dst e).
Proof.
  unfold dict_of. rewrite elem_of_sort_dedup, list_elem_of_bind. split.
  - intros (e & Hx & He). exists e. set_solver.
  - intros (e & He & Hx). exists e. set_solver.
Qed.

Lemma length_dict es : (length (dict_of es) ≤ 2 * length es)%nat.
Proof.
  transitivity (length (es ≫= fun e => [re_src e; re_dst e])).
  - apply submseteq_length, NoDup_submseteq; [apply NoDup_sort_dedup|].
    intros x Hx. unfold dict_of in Hx. by rewrite elem_of_sort_dedup in Hx.
  - induction es as [|e es IH]; [done|]. csimpl. lia.
Qed.

Lemma dense_or_raw_spec D x :
  StronglySorted Z.lt D → x ∈ D →
  0 ≤ dense_or_raw D x < Z.of_nat (length D) ∧ orig D (dense_or_raw D x) = x.
Proof.
  intros HD Hx. unfold dense_or_raw.
  destruct (binary_search D x) as [i|] eqn:E; [|by apply binary_search_None in E].
  apply binary_search_lookup in E. unfold orig. rewrite Nat2Z.id, E.
  apply lookup_lt_Some in E. split; [lia|done].
Qed.

Lemma densify_dict es e :
  e ∈ es →
  (0 ≤ re_src (densify (dict_of es) e) < Z.of_nat (length (dict_of es))
   ∧ 0 ≤ re_dst (densify (dict_of es) e) < Z.of_nat (length (dict_of es)))
  ∧ orig_edge (dict_of es) (densify (dict_of es) e) = endpoints e.
Proof.
  intros He. destruct (dense_or_raw_spec (dict_of es) (re_src e)) as [Hs Hs'];
    [apply sort_dedup_sorted|apply elem_of_dict; eauto|].
  destruct (dense_or_raw_spec (dict_of es) (re_dst e)) as [Hd Hd'];
    [apply sort_dedup_sorted|apply elem_of_dict; eauto|].
  unfold orig_edge, endpoints. simpl. by rewrite Hs', Hd'.
Qed.

Section BuildSpec.
Context (sort_by_src : list raw_edge → list raw_edge) (padding : CsrEdge → bytes).
Context (sort_perm : ∀ l, sort_by_src l ≡ₚ l).
Context (sort_sorted : ∀ l, StronglySorted src_le (sort_by_src l)).
Context (padding_length : ∀ e, length (padding e) = 4%nat).

Lemma cast_edges_written l :
  Forall (fun e => is_u64 (ce_dst_id e) ∧ is_u32 (ce_row_id e)) l →
  cast_edges (l ≫= csr_edge_bytes padding) = Some l
  ∧ length (l ≫= csr_edge_bytes padding) = (16 * length l)%nat.
Proof.
  intros Hl. destruct (read_records 16 (csr_edge_bytes padding) csr_edge_of l)
    as [Hlen Hread]; [lia| | |].
  - intros e. unfold csr_edge_bytes.
    by rewrite !length_app, length_u64_to_le, length_u32_to_le_bytes, padding_length.
  - eapply Forall_impl; [exact Hl|]. intros [d r] [Hd Hr].
    unfold csr_edge_of, csr_edge_bytes. cbn [ce_dst_id ce_row_id] in *.
    rewrite take_app_length' by (by rewrite length_u64_to_le).
    rewrite drop_app_length' by (by rewrite length_u64_to_le).
    rewrite take_app_length' by (by rewrite length_u32_to_le_bytes).
    by rewrite u64_le_roundtrip, u32_le_roundtrip.
  - split; [|done]. unfold cast_edges.
    by rewrite Hlen, Nat.mul_comm, Nat.Div0.mod_mul, decide_True, Hread by done.
Qed.

Definition dense_edges (es : list raw_edge) : list raw_edge :=
  sort_by_src (densify (dict_of es) <$> es).

Lemma dense_edges_range es :
  Forall (fun e => 0 ≤ re_src e < Z.of_nat (length (dict_of es))
                 ∧ 0 ≤ re_dst e < Z.of_nat (length (dict_of es))) (dense_edges es).
Proof.
  unfold dense_edges. rewrite sort_perm, Forall_fmap. apply Forall_forall.
  intros e He. by apply densify_dict.
Qed.

Lemma csr_build_spec es tail :
  Forall raw_edge_ok es → (length tail < 20)%nat →
  csr_build sort_by_src ((es ≫= raw_edge_bytes) ++ tail)
  = Some (offsets_of (Nat.max 1 (length (dict_of es))) (dense_edges es),
          csr_edge <$> dense_edges es, dict_of es).
Proof.
  intros Hes Ht. unfold csr_build. rewrite read_raw_edges_written by done.
  fold (dict_of es) (dense_edges es).
  set (N := Nat.max 1 (length (dict_of es))).
  assert (length (dict_of es) - 1 + 2 = S N)%nat as -> by lia.
  assert (length (dict_of es) - 1 + 1 = N)%nat as -> by lia.
  destruct (build_offsets_spec N (dense_edges es)) as (cur & off & o & -> & Hfill);
    [apply sort_sorted| |lia|].
  - eapply Forall_impl; [apply dense_edges_range|]. simpl. lia.
  - simpl. by rewrite Hfill.
Qed.

Lemma endpoints_perm es : orig_edge (dict_of es) <$> dense_edges es ≡ₚ endpoints <$> es.
Proof.
  unfold dense_edges. rewrite sort_perm, <- list_fmap_compose. apply reflexive_eq.
  apply Forall_fmap_ext, Forall_forall. intros e He. by apply densify_dict.
Qed.

Lemma length_dense_edges es : length (dense_edges es) = length es.
Proof. unfold dense_edges. by rewrite sort_perm, length_fmap. Qed.

Lemma built_repr es :
  Forall raw_edge_ok es → Z.of_nat (length es) < 2 ^ 60 →
  csr_repr
    (csr_from_bytes (offsets_of (Nat.max 1 (length (dict_of es))) (dense_edges es) ≫= u64_to_le)
       ((csr_edge <$> dense_edges es) ≫= csr_edge_bytes padding) (dict_of es ≫= u64_to_le))
    (dict_of es) (dense_edges es).
Proof.
  intros Hes Hsm. pose proof (length_dict es) as HlD. pose proof (length_dense_edges es) as Hle.
  destruct (cast_edges_written (csr_edge <$> dense_edges es)) as [He Hel].
  { rewrite Forall_fmap. unfold dense_edges. rewrite sort_perm, Forall_fmap.
    rewrite Forall_forall in *. intros e Hin. destruct (densify_dict es e Hin) as [[_ Hd] _].
    simpl in *. split; [unfold is_u64; lia|apply (Hes e Hin)]. }
  set (N := Nat.max 1 (length (dict_of es))).
  assert (Forall is_u64 (offsets_of N (dense_edges es))) as Ho64.
  { unfold offsets_of. rewrite Forall_fmap. apply Forall_true. intros k.
    pose proof (length_below_le k (dense_edges es)). simpl. unfold is_u64. lia. }
  split; cbn [csr_from_bytes cg_offsets cg_edges cg_dict cg_num_nodes cg_num_edges].
  - apply cast_u64_written, Forall_forall. intros x (e & Hin & Hx)%elem_of_dict.
    rewrite Forall_forall in Hes. destruct (Hes e Hin) as (? & ? & _). by destruct Hx as [-> | ->].
  - apply sort_dedup_sorted.
  - rewrite bind_concat_fmap, (length_concat_const 8), length_fmap, (Nat.mul_comm _ (length _)), Nat.div_mul;
      [|lia|rewrite Forall_fmap; apply Forall_true, length_u64_to_le].
    unfold offsets_of. rewrite length_fmap, length_seq.
    rewrite wrap_u64_small; [lia|]. unfold is_u64. lia.
  - by apply cast_u64_written.
  - done.
  - rewrite Hel, length_fmap, (Nat.mul_comm _ (length _)), Nat.div_mul by lia. done.
  - apply sort_sorted.
  - apply dense_edges_range.
  - lia.
Qed.
End BuildSpec.

(** C26: Spooled edges, with a possibly torn record at the end, are turned into three files
    that read back as the same graph: no access panics, the neighbors of a node are the
    targets of its edges with their multiplicity, its degree is their number, and the nodes
    are the sources in increasing order.  Any sort by source and any padding bytes will do. *)
Theorem csr_index_denotes_edges sort_by_src padding es tail base :
  (∀ l, sort_by_src l ≡ₚ l) → (∀ l, StronglySorted src_le (sort_by_src l)) →
  (∀ e, length (padding e) = 4%nat) →
  Forall raw_edge_ok es → (length tail < 20)%nat → Z.of_nat (length es) < 2 ^ 60 →
  ∃ o e d,
    build_from_file sort_by_src padding ((es ≫= raw_edge_bytes) ++ tail) base
      = Some [(base +:+ ".graph_v2.csr.offsets", o); (base +:+ ".graph_v2.csr.edges", e);
              (base +:+ ".graph_v2.csr.dict", d)]
    ∧ let g := csr_from_bytes o e d in
      gv_wf g
      ∧ (∀ u, ∃ l, csr_neighbors g u = Some l
           ∧ l ≡ₚ (filter (fun p : Z * Z => p.1 = u) (endpoints <$> es)).*2
           ∧ csr_degree g u = Some (Z.of_nat (length l)))
      ∧ csr_all_nodes g = Some (sort_dedup (re_src <$> es))
      ∧ cg_num_edges g = length es.
Proof.
  intros Hperm Hsort Hpad Hes Ht Hsm. unfold build_from_file.
  rewrite csr_build_spec by done. cbn [mbind option_bind]. do 3 eexists. split; [done|].
  pose proof (built_repr sort_by_src padding Hperm Hsort Hpad es Hes Hsm) as Hg.
  set (g := csr_from_bytes _ _ _) in *. clearbody g.
  assert (gv_wf g) as Hwf by (by do 2 eexists).
  pose proof (endpoints_perm sort_by_src Hperm es) as Hp.
  split_and!; [done| | |].
  - intros u. eexists. rewrite (csr_neighbors_spec g _ _ Hg), (csr_degree_spec g _ _ Hg).
    split_and!; [done| |by rewrite length_fmap]. by rewrite Hp.
  - pose proof (gv_sorted g Hwf) as Hs. pose proof (gv_nodes g) as Hn.
    unfold all_nodes, get_neighbors in Hs, Hn. simpl in Hs, Hn.
    destruct (csr_all_nodes g) as [nodes|] eqn:E;
      [|by rewrite (csr_all_nodes_spec g _ _ Hg) in E].
    simpl in *. f_equal. apply sorted_lt_unique; [done|apply sort_dedup_sorted|].
    intros u. rewrite Hn by done. rewrite (csr_neighbors_spec g _ _ Hg), elem_of_sort_dedup.
    simpl. split.
    + intros Hne. destruct (filter _ _) as [|p l] eqn:Ef; [done|].
      assert (p ∈ filter (fun e : Z * Z => e.1 = u)
        (orig_edge (dict_of es) <$> dense_edges sort_by_src es)) as Hin by (rewrite Ef; left).
      rewrite Hp in Hin. apply list_elem_of_filter in Hin as [<- Hin].
      apply list_elem_of_fmap in Hin as (x & -> & Hx). apply list_elem_of_fmap. by exists x.
    + intros (x & -> & Hx)%list_elem_of_fmap Hnil.
      assert (endpoints x ∈ filter (fun e : Z * Z => e.1 = re_src x)
        (orig_edge (dict_of es) <$> dense_edges sort_by_src es)) as Hin.
      { rewrite Hp. apply list_elem_of_filter. split; [done|]. by apply list_elem_of_fmap_2. }
      apply (list_elem_of_fmap_2 snd) in Hin. rewrite Hnil in Hin.
      by apply not_elem_of_nil in Hin.
  - by rewrite (cr_num_edges _ _ _ Hg), length_dense_edges.
Qed.

(** ** The region of a query in memory and on disk

    [graph_view_with_columns] ([src/src/core/table/graph.rs]) copies the edges inside the
    region into a [SimpleGraph], or wraps the index in a [SubgraphView]. *)

(** The part of [subgraph_edges_with_columns] that reads the index: the edges between nodes
    of the region, as a sorted set. *)
Definition pair_le (p q : Z * Z) : Prop := p.1 < q.1 ∨ p.1 = q.1 ∧ p.2 ≤ q.2.
#[export] Instance pair_le_dec p q : Decision (pair_le p q).
Proof. unfold pair_le. apply _. Defined.

Definition region_edges {G} `{!GraphView G} (g : G) (nodes : gset Z) : list (Z * Z) :=
  merge_sort pair_le (elements (list_to_set
    (elements nodes ≫= fun u => pair u <$> filter (fun v => v ∈ nodes) (get_neighbors g u))
    : gset (Z * Z))).

Lemma elem_of_region_edges {G} `{!GraphView G} (g : G) nodes u v :
  (u, v) ∈ region_edges g nodes ↔ u ∈ nodes ∧ v ∈ nodes ∧ edge g u v.
Proof.
  unfold region_edges, edge.
  rewrite merge_sort_Permutation, elem_of_elements, elem_of_list_to_set, list_elem_of_bind.
  split.
  - intros (w & (x & [= -> ->] & [Hx Hin]%list_elem_of_filter)%list_elem_of_fmap & Hw).
    by rewrite elem_of_elements in Hw.
  - intros (Hu & Hv & He). exists u. rewrite elem_of_elements. split; [|done].
    apply list_elem_of_fmap. exists v. by rewrite list_elem_of_filter.
Qed.

(** The in-memory and the out-of-core view of a region show an algorithm the same
    nodes and the same edges; when no edge occurs twice they also agree on degrees and on
    the number of edges. *)
Theorem graph_modes_agree {G} `{GraphViewLaws G} (g : G) nodes :
  gv_wf g →
  let sub := {| sv_backing := g; sv_nodes := nodes |} in
  let mem := from_directed_edges (region_edges g nodes) in
  all_nodes sub = all_nodes mem
  ∧ (∀ u, sort_dedup (get_neighbors sub u) = get_neighbors mem u)
  ∧ ((∀ u, NoDup (get_neighbors g u)) →
       (∀ u, get_degree sub u = get_degree mem u) ∧ num_edges sub = num_edges mem).
Proof.
  intros Hwf sub mem.
  assert (gv_wf sub) as Hsub by done. assert (gv_wf mem) as Hmem by apply from_directed_wf.
  assert (∀ u v, edge sub u v ↔ edge mem u v) as Hedge.
  { intros u v. unfold edge, mem. rewrite get_neighbors_directed, elem_of_sort_dedup.
    rewrite list_elem_of_fmap. unfold get_neighbors. simpl. unfold sub_neighbors. simpl. split.
    - case_decide; [|by intros ?%not_elem_of_nil].
      intros [Hv Hin]%list_elem_of_filter. exists (u, v).
      by rewrite list_elem_of_filter, elem_of_region_edges.
    - intros ([a b] & -> & [Ha Hin]%list_elem_of_filter). simpl in *. subst a.
      apply elem_of_region_edges in Hin as (Hu & Hv & He). rewrite decide_True by done.
      by apply list_elem_of_filter. }
  assert (all_nodes sub = all_nodes mem) as Hnodes.
  { apply sorted_lt_unique; [by apply gv_sorted..|]. intros u. rewrite !gv_nodes by done.
    specialize (Hedge u). unfold edge in Hedge.
    destruct (get_neighbors sub u) as [|v l]; destruct (get_neighbors mem u) as [|w k];
      [done|specialize (Hedge w)|specialize (Hedge v)|done]; set_solver. }
  split_and!; [done| |].
  - intros u. apply sorted_lt_unique; [apply sort_dedup_sorted| |].
    + unfold mem. rewrite get_neighbors_directed. apply sort_dedup_sorted.
    + intros v. rewrite elem_of_sort_dedup. apply Hedge.
  - intros Hnd. assert (∀ u, get_degree sub u = get_degree mem u) as Hdeg.
    { intros u. rewrite !gv_degree by done. apply Permutation_length, NoDup_Permutation.
      - unfold get_neighbors. simpl. unfold sub_neighbors.
        case_decide; [by apply NoDup_filter|constructor].
      - unfold mem. rewrite get_neighbors_directed. apply NoDup_sort_dedup.
      - apply Hedge. }
    split; [done|]. rewrite !gv_num_edges, Hnodes by done. unfold sum_degrees.
    f_equal. apply list_fmap_ext. intros i u _. apply Hdeg.
Qed.

Module CsrExamples.

Definition src_order (a b : raw_edge) : Prop := re_src a ≤ re_src b.
#[export] Instance src_order_dec a b : Decision (src_order a b).
Proof. unfold src_order. apply _. Defined.
Definition sort_src : list raw_edge → list raw_edge := merge_sort src_order.
Definition zero_padding (_ : CsrEdge) : bytes := replicate 4 Byte.x00.

Lemma sort_src_perm l : sort_src l ≡ₚ l.
Proof. apply merge_sort_Permutation. Qed.
Lemma sort_src_sorted l : StronglySorted src_le (sort_src l).
Proof.
  assert (Transitive src_order) by (intros ???; unfold src_order; lia).
  assert (Total src_order) by (intros ??; unfold src_order; lia).
  apply (StronglySorted_merge_sort src_order).
Qed.

Definition raw (s d r : Z) : raw_edge := {| re_src := s; re_dst := d; re_row := r |}.
Definition some_edges : list raw_edge := [raw 900 7 0; raw 7 42 1; raw 900 42 2; raw 7 42 3].

Lemma csr_index_denotes_edges_witness :
  Forall raw_edge_ok some_edges ∧
  ∃ o e d,
    build_from_file sort_src zero_padding ((some_edges ≫= raw_edge_bytes) ++ [Byte.x01]) "seg"
      = Some [("seg.graph_v2.csr.offsets", o); ("seg.graph_v2.csr.edges", e);
              ("seg.graph_v2.csr.dict", d)]
    ∧ csr_all_nodes (csr_from_bytes o e d) = Some [7; 900].
Proof.
  assert (Forall raw_edge_ok some_edges) as Hok
    by (repeat constructor; unfold is_u64, is_u32; simpl; lia).
  split; [done|].
  destruct (csr_index_denotes_edges sort_src zero_padding some_edges [Byte.x01] "seg")
    as (o & e & d & Hb & _ & _ & Hn & _);
    [exact sort_src_perm|exact sort_src_sorted|done|done|simpl; lia|simpl; lia|].
  exists o, e, d. split; [exact Hb|exact Hn].
Defined.

(** The index of [es] as the code reads it. *)
Definition graph_of (es : list raw_edge) : option MmapCsrGraph :=
  files ← build_from_file sort_src zero_padding (es ≫= raw_edge_bytes) "seg";
  match files with
  | [(_, o); (_, e); (_, d)] => Some (csr_from_bytes o e d)
  | _ => None
  end.

Definition graph1 : SimpleGraph := from_directed_edges [(1, 2); (1, 3); (2, 3)].

Lemma graph_modes_agree_witness :
  gv_wf graph1 ∧
  let sub := {| sv_backing := graph1; sv_nodes := {[1; 3]} |} in
  all_nodes sub = all_nodes (from_directed_edges (region_edges graph1 {[1; 3]})).
Proof.
  assert (gv_wf graph1) as Hwf by apply from_directed_wf. split; [done|].
  by apply (graph_modes_agree graph1 {[1; 3]}).
Defined.

(** With a repeated edge the modes disagree: the index keeps both copies and the in-memory
    graph one, so the degree of node 7 is 2 or 1. *)
Example parallel_edges_break_mode_invariance :
  ∃ g, graph_of some_edges = Some g
    ∧ get_degree {| sv_backing := g; sv_nodes := {[7; 42; 900]} |} 7 = 2%nat
    ∧ get_degree (from_directed_edges (region_edges g {[7; 42; 900]})) 7 = 1%nat.
Proof. eexists. split; [vm_compute; reflexivity|]. split; vm_compute; reflexivity. Qed.

(** The index of no edges has one node and an empty dictionary. *)
Example empty_index_has_a_node :
  ∃ g, graph_of [] = Some g ∧ cg_num_nodes g = 1 ∧ to_original g 0 = None
    ∧ csr_all_nodes g = Some [].
Proof. eexists. split; [vm_compute; reflexivity|]. split_and!; vm_compute; reflexivity. Qed.

(** The index [build_from_file] makes of [es]. *)
Definition index_of (es : list raw_edge) : MmapCsrGraph :=
  csr_from_bytes
    (offsets_of (Nat.max 1 (length (dict_of es))) (dense_edges sort_src es) ≫= u64_to_le)
    ((csr_edge <$> dense_edges sort_src es) ≫= csr_edge_bytes zero_padding)
    (dict_of es ≫= u64_to_le).

Lemma index_of_repr es :
  Forall raw_edge_ok es → Z.of_nat (length es) < 2 ^ 60 →
  csr_repr (index_of es) (dict_of es) (dense_edges sort_src es).
Proof.
  exact (built_repr sort_src zero_padding sort_src_perm sort_src_sorted (fun _ => eq_refl) es).
Qed.

Definition seg_a := index_of [raw 3 8 0; raw 5 6 1].
Definition seg_b := index_of [raw 9 8 0; raw 6 5 1].
Definition two_segments : MultiSegmentCsrGraph := {| segments := [seg_a; seg_b] |}.

#[export] Instance raw_edge_ok_dec e : Decision (raw_edge_ok e).
Proof. unfold raw_edge_ok, is_u64, is_u32. apply _. Defined.

Lemma index_wf es :
  bool_decide (Forall raw_edge_ok es ∧ Z.of_nat (length es) < 2 ^ 60) = true → gv_wf (index_of es).
Proof. intros [? ?]%bool_decide_eq_true. eexists _, _. by apply index_of_repr. Qed.

Lemma two_segments_wf : gv_wf two_segments.
Proof. by apply Forall_cons_2; [|apply Forall_cons_2; [|constructor]]; apply index_wf. Qed.

End CsrExamples.
