(* ===== verification/UnionFind.v ===== *)
(** * Disjoint sets as parent pointers

    The forests behind the two connected-components algorithms
    ([src/src/core/algorithms/connected_components.rs] and
    [src/src/core/sql/graph_udf/connected_components.rs]): a parent function that is the
    identity on roots, path compression and linking of roots, and the equivalence relation
    a forest represents.  The algorithms themselves are in [Components]. *)

From S2P Require Import Prelude.
From stdpp Require Import functions relations.

Section Forest.
Context {A : Type} `{EqDecision A}.
Implicit Types (p : A → A) (R : relation A).

(** [r] is the root above [x], [n] steps away. *)
Inductive root_at p : nat → A → A → Prop :=
| root_here r : p r = r → root_at p 0 r r
| root_up n x r : p x ≠ x → root_at p n (p x) r → root_at p (S n) x r.

Definition rooted p (x r : A) : Prop := ∃ n, root_at p n x r.
Definition forest p : Prop := ∀ x, ∃ r, rooted p x r.
Definition same_tree p (x y : A) : Prop := ∃ r, rooted p x r ∧ rooted p y r.

Lemma root_at_ext p q n x r :
  (∀ y, p y = q y) → root_at p n x r → root_at q n x r.
Proof. intros Hpq. induction 1; constructor; by rewrite <- ?Hpq. Qed.

Lemma root_at_root p n x r : root_at p n x r → p r = r.
Proof. by induction 1. Qed.

Lemma root_at_fun p n m x r s : root_at p n x r → root_at p m x s → n = m ∧ r = s.
Proof.
  intros Hr. revert m. induction Hr as [r Hp|n x r Hp Hr IH]; intros m Hs;
    inversion Hs; subst; try done. edestruct IH as [-> ->]; eauto.
Qed.

Lemma rooted_fun p x r s : rooted p x r → rooted p x s → r = s.
Proof. intros [n Hr] [m Hs]. by destruct (root_at_fun _ _ _ _ _ _ Hr Hs). Qed.

Lemma rooted_self p r : p r = r → rooted p r r.
Proof. intros Hp. exists 0. by constructor. Qed.

Lemma rooted_root p x r : rooted p x r → p r = r.
Proof. intros [n Hr]. by eapply root_at_root. Qed.

Lemma rooted_parent p x r : rooted p (p x) r → rooted p x r.
Proof.
  intros [n Hr]. destruct (decide (p x = x)) as [Hx|Hx]; [rewrite Hx in Hr; by exists n|].
  exists (S n). by constructor.
Qed.

(** The steps to a root are at most as many as there are non-roots. *)
Lemma root_at_bound p n x r (dom : list A) :
  (∀ y, p y ≠ y → y ∈ dom) → root_at p n x r → n ≤ length dom.
Proof.
  intros Hdom Hr.
  assert (∃ path, length path = n ∧ NoDup path ∧ (∀ y, y ∈ path → y ∈ dom)
    ∧ ∀ y, y ∈ path → ∃ m s, root_at p m y s ∧ m ≤ n) as (path & <- & Hnd & Hin & _).
  { induction Hr as [r Hp|n x r Hp Hr IH].
    { exists []. split_and!; [done|constructor|set_solver|set_solver]. }
    destruct IH as (path & Hlen & Hnd & Hin & Hm). exists (x :: path).
    split_and!; [by simpl; f_equal| | |].
    - constructor; [|done]. intros Hx. destruct (Hm x Hx) as (m & s & Hs & Hle).
      assert (root_at p (S n) x r) as Hx' by by constructor.
      destruct (root_at_fun _ _ _ _ _ _ Hs Hx') as [-> _]. lia.
    - intros y [->|Hy]%elem_of_cons; auto.
    - intros y [->|Hy]%elem_of_cons.
      + exists (S n), r. split; [by constructor|lia].
      + destruct (Hm y Hy) as (m & s & ? & ?). exists m, s. split; [done|lia]. }
  by apply submseteq_length, NoDup_submseteq.
Qed.

(** ** Path compression *)

Lemma compress_root_at p c r n x s :
  rooted p c r → root_at p n x s → ∃ m, m ≤ n ∧ root_at (<[c := r]> p) m x s.
Proof.
  intros Hc Hx. induction Hx as [s Hs|n x s Hs Hx IH].
  - exists 0. split; [done|]. constructor. destruct (decide (c = s)) as [->|Hne].
    + rewrite fn_lookup_insert. eapply rooted_fun; [exact Hc|by apply rooted_self].
    + by rewrite fn_lookup_insert_ne.
  - destruct (decide (c = x)) as [->|Hne].
    + assert (r = s) as ->.
      { eapply rooted_fun; [exact Hc|]. exists (S n). by constructor. }
      assert (p s = s) as Hr by by eapply root_at_root.
      assert (x ≠ s) by by intros ->.
      exists 1. split; [lia|]. constructor; rewrite fn_lookup_insert; [done|].
      constructor. by rewrite fn_lookup_insert_ne.
    + destruct IH as (m & Hle & Hm). exists (S m). split; [lia|].
      constructor; by rewrite fn_lookup_insert_ne.
Qed.

Lemma compress_rooted p c r x s :
  rooted p c r → rooted p x s → rooted (<[c := r]> p) x s.
Proof. intros Hc [n Hx]. destruct (compress_root_at p c r n x s Hc Hx) as (m & _ & ?). by exists m. Qed.

(** Forests that give every element the same root. *)
Definition same_roots p q : Prop := ∀ x r, rooted p x r → rooted q x r.

#[export] Instance same_roots_preorder : PreOrder same_roots.
Proof. split; [by intros p x r|]. intros p q s H1 H2 x r H. by apply H2, H1. Qed.

Lemma same_roots_forest p q : same_roots p q → forest p → forest q.
Proof. intros Hs Hp x. destruct (Hp x) as [r Hr]. exists r. by apply Hs. Qed.

Lemma same_roots_tree p q x y :
  same_roots p q → forest p → same_tree p x y ↔ same_tree q x y.
Proof.
  intros Hs Hp. split; [intros (r & ? & ?); exists r; auto|].
  intros (r & Hx & Hy). destruct (Hp x) as [rx Hrx], (Hp y) as [ry Hry].
  assert (rx = r) as -> by (eapply rooted_fun; [by apply Hs|done]).
  assert (ry = r) as -> by (eapply rooted_fun; [by apply Hs|done]). by exists r.
Qed.

(** ** Linking two roots *)

Lemma link_rooted p a b x s :
  p a = a → p b = b → a ≠ b → rooted p x s →
  rooted (<[b := a]> p) x (if decide (s = b) then a else s).
Proof.
  intros Ha Hb Hne [n Hx].
  assert (rooted (<[b := a]> p) a a) as Ha'.
  { apply rooted_self. by rewrite fn_lookup_insert_ne. }
  induction Hx as [s Hs|n x s Hs Hx IH].
  - case_decide as E; [subst s|].
    + apply rooted_parent. by rewrite fn_lookup_insert.
    + apply rooted_self. by rewrite fn_lookup_insert_ne.
  - assert (b ≠ x) by by intros ->.
    apply rooted_parent. by rewrite fn_lookup_insert_ne.
Qed.

Lemma link_forest p a b : forest p → p a = a → p b = b → a ≠ b → forest (<[b := a]> p).
Proof. intros Hp Ha Hb Hne x. destruct (Hp x) as [s Hs]. eexists. by apply link_rooted. Qed.

(** ** The relation a forest represents *)

Definition represents p R : Prop := forest p ∧ ∀ x y, same_tree p x y ↔ rtsc R x y.

Lemma represents_id : represents id (fun _ _ => False).
Proof.
  split; [intros x; exists x; by apply rooted_self|]. intros x y. split.
  - intros (r & Hx & Hy). assert (rooted id x x) as Hx' by by apply rooted_self.
    assert (rooted id y y) as Hy' by by apply rooted_self.
    by rewrite (rooted_fun _ _ _ _ Hx' Hx), (rooted_fun _ _ _ _ Hy' Hy).
  - induction 1 as [x|x z y [] _ _]; try done. exists x. split; by apply rooted_self.
Qed.

Lemma represents_same_roots p q R : same_roots p q → represents p R → represents q R.
Proof.
  intros Hs [Hf Hp]. split; [by eapply same_roots_forest|]. intros x y.
  by rewrite <- same_roots_tree.
Qed.

Definition add_edge R (i j : A) : relation A := fun x y => R x y ∨ x = i ∧ y = j.

(** Connectivity after one more edge. *)
Lemma rtsc_add_edge R i j x y :
  rtsc (add_edge R i j) x y
  ↔ rtsc R x y ∨ (rtsc R x i ∧ rtsc R j y) ∨ (rtsc R x j ∧ rtsc R i y).
Proof.
  split.
  - induction 1 as [x|x z y Hxz Hzy IH]; [by left|].
    assert (rtsc R x z ∨ x = i ∧ z = j ∨ x = j ∧ z = i) as Hstep.
    { destruct Hxz as [[H|H]|[H|H]]; [|naive_solver| |naive_solver];
        left; apply rtc_once; [by left|by right]. }
    destruct Hstep as [H|[[-> ->]|[-> ->]]].
    + destruct IH as [?|[[??]|[??]]]; [left|right; left|right; right];
        try (split; [|done]); by etrans.
    + destruct IH as [?|[[Hz ?]|[??]]]; [by right; left| |by left].
      right. left. done.
    + destruct IH as [?|[[??]|[Hz ?]]]; [by right; right|by left|].
      right. right. done.
  - assert (∀ a b, rtsc R a b → rtsc (add_edge R i j) a b) as Hmono.
    { intros a b. induction 1 as [a|a c b Hac Hcb IH]; [done|].
      eapply rtc_l; [|exact IH]. destruct Hac; [left|right]; by left. }
    assert (rtsc (add_edge R i j) i j) as Hij by (apply rtc_once; left; by right).
    assert (rtsc (add_edge R i j) j i) as Hji by (apply rtc_once; right; by right).
    intros [H|[[H1 H2]|[H1 H2]]]; [by apply Hmono|..];
      (etrans; [by apply Hmono|]; etrans; [|by apply Hmono]; done).
Qed.

Lemma rtsc_sym_iff R x y : rtsc R x y ↔ rtsc R y x.
Proof. split; by intros ?%symmetry. Qed.

(** Linking the roots of two elements adds the edge between them. *)
Lemma represents_link p R i j a b :
  represents p R → rooted p i a → rooted p j b → a ≠ b →
  represents (<[b := a]> p) (add_edge R i j) ∧ represents (<[a := b]> p) (add_edge R i j).
Proof.
  intros [Hf Hp] Hi Hj Hne.
  assert (p a = a) as Ha by by eapply rooted_root.
  assert (p b = b) as Hb by by eapply rooted_root.
  assert (∀ c x, rooted p c x → ∀ y, rooted p y x ↔ rtsc R c y) as Hiff.
  { intros c x Hc y. rewrite <- Hp. split; [by exists x|]. intros (r & Hr1 & Hr2).
    by rewrite (rooted_fun _ _ _ _ Hc Hr1). }
  assert (∀ (q : A → A) (f : A → A), (∀ x s, rooted p x s → rooted q x (f s)) →
    (∀ s t, p s = s → p t = t → f s = f t ↔ s = t ∨ (s = a ∧ t = b) ∨ (s = b ∧ t = a)) →
    represents q (add_edge R i j)) as Hgen.
  { intros q f Hq Hfs. split.
    { intros x. destruct (Hf x) as [s Hs]. eauto. }
    intros x y. destruct (Hf x) as [s Hs], (Hf y) as [t Ht]. rewrite rtsc_add_edge.
    rewrite <- (Hp x y), (rtsc_sym_iff R x i), (rtsc_sym_iff R x j).
    rewrite <- !(Hiff i a Hi), <- !(Hiff j b Hj).
    assert (same_tree q x y ↔ f s = f t) as ->.
    { split; [|intros E; exists (f s); split; [auto|rewrite E; auto]].
      intros (r & Hx & Hy). rewrite (rooted_fun _ _ _ _ (Hq _ _ Hs) Hx).
      by rewrite (rooted_fun _ _ _ _ (Hq _ _ Ht) Hy). }
    rewrite Hfs by by eapply rooted_root.
    assert (∀ z u v, rooted p z u → rooted p z v ↔ u = v) as Hu.
    { intros z u v Hz. split; [by apply rooted_fun|by intros <-]. }
    rewrite (Hu x s a), (Hu x s b), (Hu y t a), (Hu y t b) by done.
    assert (same_tree p x y ↔ s = t) as ->; [|naive_solver].
    split; [|intros ->; by exists t]. intros (r & Hx & Hy).
    by rewrite (rooted_fun _ _ _ _ Hs Hx), (rooted_fun _ _ _ _ Ht Hy). }
  split.
  - apply (Hgen _ (fun s => if decide (s = b) then a else s)).
    + intros x s Hx. by apply link_rooted.
    + intros s t _ _. repeat case_decide; naive_solver.
  - apply (Hgen _ (fun s => if decide (s = a) then b else s)).
    + intros x s Hx. by apply link_rooted.
    + intros s t _ _. repeat case_decide; naive_solver.
Qed.

(** An edge inside a tree adds nothing. *)
Lemma represents_inner p R i j r :
  represents p R → rooted p i r → rooted p j r → represents p (add_edge R i j).
Proof.
  intros [Hf Hp] Hi Hj. split; [done|]. intros x y. rewrite rtsc_add_edge, <- Hp.
  assert (rtsc R i j) as Hij by (apply Hp; by exists r).
  split; [auto|]. intros [?|[[??]|[??]]]; [done|..]; apply Hp.
  - by transitivity i; [|transitivity j].
  - by transitivity j; [|transitivity i; [symmetry|]].
Qed.

End Forest.
