(* ===== verification/Components.v ===== *)
(** * Connected components

    The two union-find algorithms: [connected_components_csr] over graph indexes
    ([src/src/core/algorithms/connected_components.rs], union by rank) and the aggregate
    function over edges ([src/src/core/sql/graph_udf/connected_components.rs], the smaller
    root wins).  [None] is a panic or a loop that has used its fuel; both are excluded by the
    theorems.  The specification is the same for both: every node is labelled with the
    smallest node connected to it, ignoring directions. *)

From S2P Require Import Prelude Graph CsrGraph UnionFind.
From stdpp Require Import functions relations.

Open Scope Z_scope.

(** [m] is the smallest node weakly connected to [v]. *)
Definition component_min (R : relation Z) (v m : Z) : Prop :=
  rtsc R v m ∧ ∀ w, rtsc R v w → m ≤ w.

Lemma component_min_unique R v m m' : component_min R v m → component_min R v m' → m = m'.
Proof. intros [H1 H2] [H3 H4]. specialize (H2 _ H3). specialize (H4 _ H1). lia. Qed.

(** ** Union-find over vectors *)

(** [while root != parent[root] { root = parent[root] }] *)
Fixpoint find_root (fuel : nat) (parent : list nat) (root : nat) : option nat :=
  match fuel with
  | O => None
  | S fuel =>
      q ← parent !! root;
      if decide (root = q) then Some root else find_root fuel parent q
  end.

(** [while i != root { let nxt = parent[i]; parent[i] = root; i = nxt }] *)
Fixpoint compress_path (fuel : nat) (parent : list nat) (i root : nat) : option (list nat) :=
  match fuel with
  | O => None
  | S fuel =>
      if decide (i = root) then Some parent else
      nxt ← parent !! i;
      compress_path fuel (<[i := root]> parent) nxt root
  end.

(** A path has at most as many steps as there are elements. *)
Definition find (i : nat) (parent : list nat) : option (nat * list nat) :=
  root ← find_root (S (length parent)) parent i;
  parent ← compress_path (S (length parent)) parent i root;
  Some (root, parent).

(** [u8] ranks: an increment wraps. *)
Definition union (i j : nat) (parent : list nat) (rank : list Z) : option (list nat * list Z) :=
  '(root_i, parent) ← find i parent;
  '(root_j, parent) ← find j parent;
  if decide (root_i = root_j) then Some (parent, rank) else
  ri ← rank !! root_i;
  rj ← rank !! root_j;
  if decide (ri < rj) then Some (<[root_i := root_j]> parent, rank)
  else if decide (rj < ri) then Some (<[root_j := root_i]> parent, rank)
  else Some (<[root_j := root_i]> parent, <[root_i := (ri + 1) mod 256]> rank).

(** The parent function of a vector; out of range every number is its own root. *)
Definition pfun (parent : list nat) (i : nat) : nat := default i (parent !! i).

Definition parents_in_range (parent : list nat) : Prop := Forall (fun q => (q < length parent)%nat) parent.

Lemma pfun_insert parent i q :
  (i < length parent)%nat → ∀ x, pfun (<[i := q]> parent) x = (<[i := q]> (pfun parent)) x.
Proof.
  intros Hi x. unfold pfun. destruct (decide (i = x)) as [->|Hne].
  - by rewrite list_lookup_insert_eq, fn_lookup_insert.
  - by rewrite list_lookup_insert_ne, fn_lookup_insert_ne.
Qed.

Lemma same_roots_ext {A} (p q : A → A) : (∀ y, p y = q y) → same_roots p q.
Proof. intros Hpq x r [n Hr]. exists n. by eapply root_at_ext. Qed.

Lemma pfun_lookup parent i :
  parents_in_range parent → (i < length parent)%nat →
  parent !! i = Some (pfun parent i) ∧ (pfun parent i < length parent)%nat.
Proof.
  intros Hr Hi. unfold pfun. destruct (lookup_lt_is_Some_2 parent i Hi) as [q Hq].
  rewrite Hq. simpl. split; [done|]. by eapply Forall_lookup_1 in Hr.
Qed.

Lemma pfun_bound parent n x r : root_at (pfun parent) n x r → (n ≤ length parent)%nat.
Proof.
  intros Hr. rewrite <- (length_seq (length parent) 0). eapply root_at_bound; [|exact Hr].
  intros y Hy. apply elem_of_seq. unfold pfun in Hy.
  destruct (parent !! y) eqn:E; [|done]. apply lookup_lt_Some in E. lia.
Qed.

Lemma find_root_spec parent n x r fuel :
  parents_in_range parent → root_at (pfun parent) n x r → (x < length parent)%nat → (n < fuel)%nat →
  find_root fuel parent x = Some r ∧ (r < length parent)%nat.
Proof.
  intros Hr Hx. revert fuel. induction Hx as [r Hp|n x r Hp Hx IH]; intros fuel Hl Hf;
    (destruct fuel as [|fuel]; [lia|]); simpl;
    destruct (pfun_lookup parent _ Hr Hl) as [-> Hlt]; simpl.
  - by rewrite Hp, decide_True.
  - rewrite decide_False by done. apply IH; [done|lia].
Qed.

Lemma compress_path_spec parent n x r fuel :
  parents_in_range parent → root_at (pfun parent) n x r → (x < length parent)%nat →
  (r < length parent)%nat → (n < fuel)%nat →
  ∃ parent', compress_path fuel parent x r = Some parent' ∧ parents_in_range parent'
    ∧ length parent' = length parent ∧ same_roots (pfun parent) (pfun parent').
Proof.
  revert parent n x. induction fuel as [|fuel IH]; intros parent n x Hr Hx Hl Hrl Hf; [lia|].
  simpl. case_decide as E; [by exists parent|].
  inversion Hx as [|n' ?? Hp Hx']; subst; [done|].
  destruct (pfun_lookup parent x Hr Hl) as [-> Hlt]. simpl.
  assert (rooted (pfun parent) x r) as Hroot by (by eexists).
  destruct (compress_root_at (pfun parent) x r n' (pfun parent x) r Hroot Hx') as (m & Hm & Hc).
  assert (∀ y, (<[x:=r]> (pfun parent)) y = pfun (<[x:=r]> parent) y) as Hext
    by (intros; by rewrite pfun_insert).
  destruct (IH (<[x:=r]> parent) m (pfun parent x)) as (parent' & -> & Hin & Hlen & Hs);
    rewrite ?length_insert in *; [| |done|done|lia|].
  - unfold parents_in_range. rewrite length_insert. by apply Forall_insert.
  - by eapply root_at_ext.
  - exists parent'. split_and!; [done|done|done|]. etrans; [|exact Hs].
    etrans; [|by apply same_roots_ext, Hext]. intros y s Hy. by apply compress_rooted.
Qed.

Lemma find_spec parent x r :
  parents_in_range parent → rooted (pfun parent) x r → (x < length parent)%nat →
  ∃ parent', find x parent = Some (r, parent') ∧ parents_in_range parent'
    ∧ length parent' = length parent ∧ same_roots (pfun parent) (pfun parent')
    ∧ (r < length parent)%nat.
Proof.
  intros Hr [n Hx] Hl. pose proof (pfun_bound _ _ _ _ Hx) as Hb. unfold find.
  destruct (find_root_spec parent n x r (S (length parent)) Hr Hx Hl) as [-> Hrl]; [lia|].
  cbn [mbind option_bind].
  destruct (compress_path_spec parent n x r (S (length parent)) Hr Hx Hl Hrl)
    as (parent' & -> & ?); [lia|]. exists parent'. naive_solver.
Qed.

(** The state of the algorithm over [n] elements after the edges [R]. *)
Definition uf_inv (n : nat) (R : relation nat) (s : list nat * list Z) : Prop :=
  parents_in_range s.1 ∧ length s.1 = n ∧ length s.2 = n ∧ represents (pfun s.1) R.

Lemma represents_ext {A} `{EqDecision A} (p q : A → A) (R R' : relation A) :
  (∀ x, p x = q x) → (∀ x y, R x y ↔ R' x y) → represents p R → represents q R'.
Proof.
  intros Hpq HR Hp. apply (represents_same_roots p q R (same_roots_ext p q Hpq)) in Hp.
  destruct Hp as [Hf Hs]. split; [done|]. intros x y. rewrite Hs.
  assert (∀ S S' : relation A, (∀ x y, S x y ↔ S' x y) → rtsc S x y → rtsc S' x y) as Hmono.
  { intros S S' HS. apply rtc_subrel. intros a b [?|?]; [left|right]; by apply HS. }
  split; apply Hmono; intros; by rewrite HR.
Qed.

Lemma union_spec n R i j s :
  uf_inv n R s → (i < n)%nat → (j < n)%nat →
  ∃ s', union i j s.1 s.2 = Some s' ∧ uf_inv n (add_edge R i j) s'.
Proof.
  destruct s as [parent rank]. intros (Hr & Hlp & Hlr & Hrep) Hi Hj. simpl in *.
  destruct (proj1 Hrep i) as [a Ha].
  destruct (find_spec parent i a Hr Ha ltac:(lia)) as (p1 & Hf1 & Hr1 & Hl1 & Hs1 & Hal).
  apply (represents_same_roots _ _ _ Hs1) in Hrep as Hrep1. destruct (proj1 Hrep1 j) as [b Hb].
  destruct (find_spec p1 j b Hr1 Hb ltac:(lia)) as (p2 & Hf2 & Hr2 & Hl2 & Hs2 & Hbl).
  apply (represents_same_roots _ _ _ Hs2) in Hrep1 as Hrep2.
  assert (rooted (pfun p2) i a) as Ha2 by by apply Hs2, Hs1.
  assert (rooted (pfun p2) j b) as Hb2 by by apply Hs2.
  unfold union. rewrite Hf1. simpl. rewrite Hf2. simpl. case_decide as Hab.
  { subst b. eexists. split; [done|]. split_and!; simpl; [done|lia|lia|].
    by eapply represents_inner. }
  destruct (represents_link _ _ _ _ _ _ Hrep2 Ha2 Hb2 Hab) as [Hba Hab'].
  destruct (lookup_lt_is_Some_2 rank a ltac:(lia)) as [ra ->].
  destruct (lookup_lt_is_Some_2 rank b ltac:(lia)) as [rb ->]. simpl.
  assert (∀ x y rk, (x < length p2)%nat → (y < length p2)%nat → length rk = n →
    represents (<[x:=y]> (pfun p2)) (add_edge R i j) →
    uf_inv n (add_edge R i j) (<[x:=y]> p2, rk)) as Hmk.
  { intros x y rk Hx Hy Hk Hrep'. split_and!; simpl; rewrite ?length_insert; [|lia|done|].
    - unfold parents_in_range. rewrite length_insert. by apply Forall_insert.
    - eapply represents_ext; [| |exact Hrep']; [|done]. intros z. by rewrite pfun_insert. }
  repeat case_decide; eexists; (split; [done|]); apply Hmk; rewrite ?length_insert; (lia || done).
Qed.

(** ** Components of graph indexes *)

(** The first node seen gets the next index. *)
Definition add_node (s : gmap Z nat * list Z) (node_id : Z) : gmap Z nat * list Z :=
  match s.1 !! node_id with
  | Some _ => s
  | None => (<[node_id := length s.2]> s.1, s.2 ++ [node_id])
  end.

(** The edges of one node. *)
Fixpoint union_neighbors (node_to_idx : gmap Z nat) (dict : list Z) (u_idx : nat)
    (es : list CsrEdge) (s : list nat * list Z) : option (list nat * list Z) :=
  match es with
  | [] => Some s
  | e :: es =>
      v ← dict !! Z.to_nat (ce_dst_id e);
      s ← match node_to_idx !! v with
          | Some v_idx => union u_idx v_idx s.1 s.2
          | None => Some s
          end;
      union_neighbors node_to_idx dict u_idx es s
  end.

(** The nodes [ds] of one segment. *)
Fixpoint union_nodes (node_to_idx : gmap Z nat) (seg : MmapCsrGraph) (dict : list Z)
    (ds : list nat) (s : list nat * list Z) : option (list nat * list Z) :=
  match ds with
  | [] => Some s
  | d :: ds =>
      u ← dict !! d;
      s ← match node_to_idx !! u with
          | Some u_idx =>
              es ← get_neighbors_raw seg d; union_neighbors node_to_idx dict u_idx es s
          | None => Some s
          end;
      union_nodes node_to_idx seg dict ds s
  end.

Fixpoint union_segments (node_to_idx : gmap Z nat) (segs : list MmapCsrGraph)
    (s : list nat * list Z) : option (list nat * list Z) :=
  match segs with
  | [] => Some s
  | seg :: segs =>
      dict ← cast_u64 (cg_dict seg);
      s ← union_nodes node_to_idx seg dict (seq 0 (Z.to_nat (cg_num_nodes seg))) s;
      union_segments node_to_idx segs s
  end.

(** [comp_min[root] = min(comp_min[root], idx_to_node[i])] for the indices [ixs]. *)
Fixpoint min_loop (idx_to_node : list Z) (ixs : list nat) (comp_min : list Z) (parent : list nat)
  : option (list Z * list nat) :=
  match ixs with
  | [] => Some (comp_min, parent)
  | i :: ixs =>
      '(root, parent) ← find i parent;
      x ← idx_to_node !! i;
      m ← comp_min !! root;
      min_loop idx_to_node ixs (if decide (x < m) then <[root := x]> comp_min else comp_min) parent
  end.

Fixpoint label_loop (idx_to_node : list Z) (ixs : list nat) (comp_min : list Z)
    (parent : list nat) : option (list Z * list Z) :=
  match ixs with
  | [] => Some ([], [])
  | i :: ixs =>
      x ← idx_to_node !! i;
      '(root, parent) ← find i parent;
      m ← comp_min !! root;
      '(nodes, components) ← label_loop idx_to_node ixs comp_min parent;
      Some (x :: nodes, m :: components)
  end.

Definition all_segments (forward : MultiSegmentCsrGraph) (reverse : option MultiSegmentCsrGraph)
  : list MmapCsrGraph :=
  segments forward ++ match reverse with Some r => segments r | None => [] end.

Definition connected_components_csr (forward : MultiSegmentCsrGraph)
    (reverse : option MultiSegmentCsrGraph) : option (list Z * list Z) :=
  let segs := all_segments forward reverse in
  dicts ← mapM (fun seg => cast_u64 (cg_dict seg)) segs;
  let '(node_to_idx, idx_to_node) := foldl add_node (∅, []) (mjoin dicts) in
  let n := length idx_to_node in
  if decide (n = 0)%nat then Some ([], []) else
  '(parent, rank) ← union_segments node_to_idx segs (seq 0 n, replicate n 0);
  '(comp_min, parent) ← min_loop idx_to_node (seq 0 n) idx_to_node parent;
  label_loop idx_to_node (seq 0 n) comp_min parent.

(** ** Numbering the nodes *)

Definition numbering (node_to_idx : gmap Z nat) (idx_to_node : list Z) : Prop :=
  NoDup idx_to_node ∧ ∀ x i, node_to_idx !! x = Some i ↔ idx_to_node !! i = Some x.

Lemma add_node_numbering m nodes x :
  numbering m nodes →
  let '(m', nodes') := add_node (m, nodes) x in
  numbering m' nodes' ∧ ∀ y, y ∈ nodes' ↔ y ∈ nodes ∨ y = x.
Proof.
  intros [Hnd Hiff]. unfold add_node. simpl. destruct (m !! x) as [i|] eqn:E.
  - split; [by split|]. intros y. split; [auto|]. intros [?|Hy]; [done|subst y].
    apply Hiff in E. by eapply list_elem_of_lookup_2.
  - assert (x ∉ nodes) as Hx.
    { intros [i Hi]%list_elem_of_lookup. apply Hiff in Hi. congruence. }
    split; [split|].
    + apply NoDup_app. split_and!; [done|set_solver|apply NoDup_singleton].
    + intros y i. destruct (decide (y = x)) as [->|Hne].
      * rewrite lookup_insert_eq, lookup_app_Some, list_lookup_singleton_Some. split.
        -- intros [= <-]. right. split; [lia|]. split; [lia|done].
        -- intros [Hi|(Hle & Hi & _)]; [by apply list_elem_of_lookup_2 in Hi|]. f_equal. lia.
      * rewrite lookup_insert_ne, Hiff by done. split.
        -- intros Hi. by apply lookup_app_l_Some.
        -- intros [?|[Hle Hi]]%lookup_app_Some; [done|].
           apply list_lookup_singleton_Some in Hi as [_ ->]. done.
    + set_solver.
Qed.

Lemma gather_numbering l m nodes :
  numbering m nodes →
  let '(m', nodes') := foldl add_node (m, nodes) l in
  numbering m' nodes' ∧ ∀ y, y ∈ nodes' ↔ y ∈ nodes ∨ y ∈ l.
Proof.
  revert m nodes. induction l as [|x l IH]; intros m nodes Hn; simpl; [set_solver|].
  pose proof (add_node_numbering m nodes x Hn) as Hx. destruct (add_node (m, nodes) x) as [m1 n1].
  destruct Hx as [Hn1 Hy1]. specialize (IH m1 n1 Hn1).
  destruct (foldl add_node (m1, n1) l) as [m' n']. destruct IH as [? Hy]. split; [done|].
  intros y. rewrite Hy, Hy1. set_solver.
Qed.

(** ** The edges joined *)

Lemma uf_inv_ext n (R R' : relation nat) s :
  (∀ i j, R i j ↔ R' i j) → uf_inv n R s → uf_inv n R' s.
Proof.
  intros HR (? & ? & ? & Hrep). split_and!; [done..|]. by eapply represents_ext.
Qed.

Section Edges.
Context (n : nat) (m : gmap Z nat) (Hm : ∀ x i, m !! x = Some i → (i < n)%nat).

(** The index pairs of a set of edges. *)
Definition idx_edges (E : Z → Z → Prop) (i j : nat) : Prop :=
  ∃ u v, E u v ∧ m !! u = Some i ∧ m !! v = Some j.

Lemma union_neighbors_spec D u ui es s R :
  uf_inv n R s → m !! u = Some ui → (∀ x, x ∈ D → is_Some (m !! x)) →
  Forall (fun e => 0 ≤ re_dst e < Z.of_nat (length D)) es →
  ∃ s', union_neighbors m D ui (csr_edge <$> es) s = Some s'
    ∧ uf_inv n (fun i j => R i j ∨ idx_edges (fun a b => a = u ∧ ∃ e, e ∈ es ∧ b = orig D (re_dst e)) i j) s'.
Proof.
  intros Hs Hu HD Hes. revert s R Hs. induction Hes as [|e es He Hes IH]; intros s R Hs.
  { exists s. split; [done|]. eapply uf_inv_ext; [|exact Hs]. intros i j.
    split; [auto|]. intros [?|(a & b & (_ & e & Hin & _) & _)]; [done|]. set_solver. }
  csimpl. pose proof (orig_lookup D (re_dst e) He) as Ho. rewrite Ho. simpl.
  destruct (HD (orig D (re_dst e))) as [vi Hv]; [by eapply list_elem_of_lookup_2|].
  rewrite Hv. destruct (union_spec n R ui vi s) as (s1 & Hu1 & Hs1); [done|by eapply Hm..|].
  rewrite Hu1. simpl. destruct (IH s1 (add_edge R ui vi) Hs1) as (s' & Hr & Hs').
  exists s'. split; [done|]. eapply uf_inv_ext; [|exact Hs']. intros i j. unfold add_edge. split.
  - intros [[?|[-> ->]]|(a & b & (-> & e' & Hin & ->) & ? & ?)]; [by left|right|right].
    + exists u, (orig D (re_dst e)). split_and!; [done| |done|done]. exists e. set_solver.
    + do 2 eexists. split_and!; [done| |done|done]. exists e'. set_solver.
  - intros [?|(a & b & (-> & e' & Hin & ->) & Hi & Hj)]; [by left; left|].
    apply elem_of_cons in Hin as [-> |Hin].
    + left. right. split; congruence.
    + right. do 2 eexists. split_and!; [done| |done|done]. by exists e'.
Qed.

Lemma union_nodes_spec seg D es ds s R :
  csr_repr seg D es → uf_inv n R s → (∀ x, x ∈ D → is_Some (m !! x)) →
  Forall (fun d => (d < length D)%nat) ds →
  ∃ s', union_nodes m seg D ds s = Some s'
    ∧ uf_inv n (fun i j => R i j
        ∨ idx_edges (fun a b => ∃ d e, d ∈ ds ∧ e ∈ out_edges d es ∧ (a, b) = orig_edge D e) i j) s'.
Proof.
  intros Hg Hs HD Hds. revert s R Hs. induction Hds as [|d ds Hd Hds IH]; intros s R Hs.
  { exists s. split; [done|]. eapply uf_inv_ext; [|exact Hs]. intros i j.
    split; [auto|]. intros [?|(a & b & (d & e & Hin & _) & _)]; [done|]. set_solver. }
  simpl. destruct (lookup_lt_is_Some_2 D d Hd) as [u Hu]. rewrite Hu. simpl.
  destruct (HD u) as [ui Hui]; [by eapply list_elem_of_lookup_2|]. rewrite Hui.
  rewrite (raw_neighbors_spec seg D es Hg). cbn [mbind option_bind].
  assert (∀ e, e ∈ out_edges d es → orig D (re_src e) = u ∧ e ∈ es) as Hsrc.
  { intros e [He Hin]%list_elem_of_filter. split; [|done]. unfold orig.
    by rewrite He, Nat2Z.id, Hu. }
  destruct (union_neighbors_spec D u ui (out_edges d es) s R Hs Hui HD) as (s1 & -> & Hs1).
  { pose proof (cr_dense _ _ _ Hg) as Hd'. rewrite Forall_forall in *.
    intros e [_ Hin]%Hsrc. by apply Hd'. }
  simpl. destruct (IH s1 _ Hs1) as (s' & -> & Hs'). exists s'. split; [done|].
  eapply uf_inv_ext; [|exact Hs']. intros i j. split.
  - intros [[?|(a & b & (-> & e & He & ->) & ? & ?)]|(a & b & (d' & e & Hd' & He & Heq) & ? & ?)];
      [by left|right|right]; do 2 eexists; (split_and!; [|done|done]).
    + exists d, e. unfold orig_edge. destruct (Hsrc e He) as [-> _]. set_solver.
    + exists d', e. set_solver.
  - intros [?|(a & b & (d' & e & Hd' & He & [= -> ->]) & Hi & Hj)]; [by left; left|].
    apply elem_of_cons in Hd' as [->|Hd'].
    + left. right. destruct (Hsrc e He) as [Hsu _].
      exists (orig D (re_src e)), (orig D (re_dst e)). split_and!; [done|by exists e|done|done].
    + right. do 2 eexists. split_and!; [|done|done]. by exists d', e.
Qed.
End Edges.

(** A segment's index, as the writer makes it: of at least one edge. *)
Definition seg_ok (seg : MmapCsrGraph) : Prop :=
  ∃ D es, csr_repr seg D es ∧ D ≠ [].

(** The weak edges of the graph: those of every segment, forward and reverse. *)
Definition seg_edge (segs : list MmapCsrGraph) (u v : Z) : Prop :=
  ∃ seg, seg ∈ segs ∧ edge seg u v.

Lemma csr_edge_iff seg D es u v :
  csr_repr seg D es → edge seg u v ↔ (u, v) ∈ orig_edge D <$> es.
Proof.
  intros Hg. unfold edge, get_neighbors. simpl. rewrite (csr_neighbors_spec seg D es Hg). simpl.
  rewrite list_elem_of_fmap. split.
  - intros ([a b] & -> & [Ha Hin]%list_elem_of_filter). simpl in *. by subst a.
  - intros Hin. exists (u, v). by rewrite list_elem_of_filter.
Qed.

Lemma union_segments_spec n m segs s R :
  (∀ x i, m !! x = Some i → (i < n)%nat) → uf_inv n R s →
  Forall (fun seg => seg_ok seg ∧ ∀ D x, cast_u64 (cg_dict seg) = Some D → x ∈ D → is_Some (m !! x)) segs →
  ∃ s', union_segments m segs s = Some s'
    ∧ uf_inv n (fun i j => R i j ∨ idx_edges m (seg_edge segs) i j) s'.
Proof.
  intros Hm Hs Hsegs. revert s R Hs.
  induction Hsegs as [|seg segs [(D & es & Hg & HD) Hin] Hsegs IH]; intros s R Hs.
  { exists s. split; [done|]. eapply uf_inv_ext; [|exact Hs]. intros i j.
    split; [auto|]. intros [?|(a & b & (seg & Hseg & _) & _)]; [done|]. set_solver. }
  simpl. rewrite (cr_dict _ _ _ Hg). simpl.
  rewrite (cr_nodes _ _ _ Hg), Nat2Z.id.
  assert (Nat.max 1 (length D) = length D) as -> by (destruct D; simpl; [done|lia]).
  destruct (union_nodes_spec n m Hm seg D es (seq 0 (length D)) s R Hg Hs)
    as (s1 & -> & Hs1).
  { intros x. by apply Hin, (cr_dict _ _ _ Hg). }
  { apply Forall_forall. intros d Hd%elem_of_seq. lia. }
  simpl. destruct (IH s1 _ Hs1) as (s' & -> & Hs'). exists s'. split; [done|].
  assert (∀ a b, (∃ d e, d ∈ seq 0 (length D) ∧ e ∈ out_edges d es ∧ (a, b) = orig_edge D e)
    ↔ edge seg a b) as Heq.
  { intros a b. rewrite (csr_edge_iff seg D es a b Hg), list_elem_of_fmap. split.
    - intros (d & e & _ & [_ He]%list_elem_of_filter & ->). by exists e.
    - intros (e & -> & He). pose proof (cr_dense _ _ _ Hg) as Hd. rewrite Forall_forall in Hd.
      destruct (Hd e He) as [Hr _]. exists (Z.to_nat (re_src e)), e.
      rewrite elem_of_seq. unfold out_edges. rewrite list_elem_of_filter.
      split_and!; [lia|lia|lia|done|done]. }
  eapply uf_inv_ext; [|exact Hs']. intros i j. unfold idx_edges, seg_edge. split.
  - intros [[?|(a & b & Hab%Heq & ? & ?)]|(a & b & (g & Hgin & Hab) & ? & ?)];
      [by left|right|right]; exists a, b; (split_and!; [|done|done]).
    + exists seg. split; [left|done].
    + exists g. split; [by right|done].
  - intros [?|(a & b & (g & [->|Hgin]%elem_of_cons & Hab) & ? & ?)]; [by left; left|..].
    + left. right. exists a, b. split_and!; [by apply Heq|done|done].
    + right. exists a, b. split_and!; [by exists g|done|done].
Qed.

(** Connectivity of indices is connectivity of nodes. *)
Lemma idx_connected m nodes (E : relation Z) i j u v :
  numbering m nodes → (∀ a b, E a b → a ∈ nodes ∧ b ∈ nodes) →
  nodes !! i = Some u → nodes !! j = Some v →
  rtsc (idx_edges m E) i j ↔ rtsc E u v.
Proof.
  intros [Hnd Hiff] HE Hi Hj. split.
  - intros Hij. revert u Hi. induction Hij as [i|i k j Hik Hkj IH]; intros u Hi.
    { rewrite Hi in Hj. by injection Hj as ->. }
    destruct Hik as [(a & b & Hab & Ha & Hb)|(a & b & Hab & Ha & Hb)];
      apply Hiff in Ha, Hb; simplify_eq.
    + eapply rtc_l; [|by apply IH]. by left.
    + eapply rtc_l; [|by apply IH]. by right.
  - intros Huv. revert i Hi. induction Huv as [u|u w v Huw Hwv IH]; intros i Hi.
    { assert (i = j) as -> by (by eapply NoDup_lookup). done. }
    assert (w ∈ nodes) as [k Hk]%list_elem_of_lookup by (destruct Huw as [?%HE|?%HE]; tauto).
    eapply rtc_l; [|by apply (IH Hj k)].
    destruct Huw; [left; exists u, w|right; exists w, u]; split_and!; try done; by apply Hiff.
Qed.

(** ** Labels *)

Section Labels.
Context (nodes : list Z) (p0 : nat → nat) (Hforest : forest p0).

(** The parents, compressed further and further, keep the roots of [p0]. *)
Definition parent_ok (parent : list nat) : Prop :=
  parents_in_range parent ∧ length parent = length nodes ∧ same_roots p0 (pfun parent).

Lemma find_parent_ok parent i :
  parent_ok parent → (i < length nodes)%nat →
  ∃ r parent', find i parent = Some (r, parent') ∧ parent_ok parent' ∧ rooted p0 i r
    ∧ (r < length nodes)%nat.
Proof.
  intros (Hr & Hl & Hs) Hi. destruct (Hforest i) as [r Hir].
  destruct (find_spec parent i r Hr (Hs _ _ Hir) ltac:(lia)) as (p' & -> & Hr' & Hl' & Hs' & Hrl).
  exists r, p'. split_and!; [done| |done|lia]. split_and!; [done|lia|by etrans].
Qed.

(** For every root, [comp_min] holds a member of its tree that is below the members seen. *)
Definition mins (P : nat → Prop) (comp_min : list Z) : Prop :=
  ∀ r m, p0 r = r → comp_min !! r = Some m →
    (∃ i, rooted p0 i r ∧ nodes !! i = Some m)
    ∧ (∀ i x, P i → rooted p0 i r → nodes !! i = Some x → m ≤ x).

Lemma mins_start : mins (fun _ => False) nodes.
Proof. intros r m Hr Hm. split; [|done]. exists r. split; [by apply rooted_self|done]. Qed.

Lemma mins_step P cm i r x m :
  mins P cm → rooted p0 i r → nodes !! i = Some x → cm !! r = Some m →
  mins (fun k => P k ∨ k = i) (if decide (x < m) then <[r := x]> cm else cm).
Proof.
  intros Hmins Hir Hx Hm r' m' Hr' Hm'. destruct (decide (r' = r)) as [->|Hne].
  - destruct (Hmins r m Hr' Hm) as [Hex Hle]. case_decide as Hlt.
    + rewrite list_lookup_insert_eq in Hm' by by eapply lookup_lt_Some.
      injection Hm' as <-. split; [by exists i|].
      intros k y [Hk| ->] Hkr Hy; [|simplify_eq; lia]. specialize (Hle k y Hk Hkr Hy). lia.
    + simplify_eq. split; [done|]. intros k y [Hk| ->] Hkr Hy; [eauto|simplify_eq; lia].
  - assert (cm !! r' = Some m') as Hm'' by (case_decide; [by rewrite list_lookup_insert_ne in Hm'|done]).
    destruct (Hmins r' m' Hr' Hm'') as [Hex Hle]. split; [done|].
    intros k y [Hk| ->] Hkr Hy; [eauto|]. by destruct Hne; eapply rooted_fun.
Qed.

Lemma min_loop_spec ixs P cm parent :
  parent_ok parent → length cm = length nodes → Forall (fun i => (i < length nodes)%nat) ixs →
  mins P cm →
  ∃ cm' parent', min_loop nodes ixs cm parent = Some (cm', parent') ∧ parent_ok parent'
    ∧ length cm' = length nodes ∧ mins (fun k => P k ∨ k ∈ ixs) cm'.
Proof.
  intros Hp Hl Hixs. revert P cm parent Hp Hl.
  induction Hixs as [|i ixs Hi Hixs IH]; intros P cm parent Hp Hl Hmins.
  { exists cm, parent. split_and!; [done|done|done|]. intros r m Hr Hm.
    destruct (Hmins r m Hr Hm) as [? Hle]. split; [done|]. intros k x [Hk|Hk]; [eauto|]. by apply not_elem_of_nil in Hk. }
  simpl. destruct (find_parent_ok parent i Hp Hi) as (r & parent' & -> & Hp' & Hir & Hrl). simpl.
  destruct (lookup_lt_is_Some_2 nodes i Hi) as [x Hx]. rewrite Hx. simpl.
  destruct (lookup_lt_is_Some_2 cm r ltac:(lia)) as [m Hm]. rewrite Hm. simpl.
  destruct (IH (fun k => P k ∨ k = i) (if decide (x < m) then <[r:=x]> cm else cm) parent')
    as (cm' & p' & Hloop & ? & ? & Hmins'); [done| |by eapply mins_step|].
  { case_decide; by rewrite ?length_insert. }
  exists cm', p'. split_and!; [done|done|done|]. intros r' m' Hr' Hm'.
  destruct (Hmins' r' m' Hr' Hm') as [? Hle]. split; [done|].
  intros k y Hk. apply Hle. set_solver.
Qed.

Lemma label_loop_spec ixs cm parent :
  parent_ok parent → length cm = length nodes → Forall (fun i => (i < length nodes)%nat) ixs →
  ∃ ns cs, label_loop nodes ixs cm parent = Some (ns, cs)
    ∧ Forall2 (fun i x => nodes !! i = Some x) ixs ns
    ∧ Forall2 (fun i c => ∃ r, rooted p0 i r ∧ cm !! r = Some c) ixs cs.
Proof.
  intros Hp Hl Hixs. revert parent Hp.
  induction Hixs as [|i ixs Hi Hixs IH]; intros parent Hp.
  { exists [], []. split_and!; [done|constructor|constructor]. }
  simpl. destruct (lookup_lt_is_Some_2 nodes i Hi) as [x Hx]. rewrite Hx. simpl.
  destruct (find_parent_ok parent i Hp Hi) as (r & parent' & -> & Hp' & Hir & Hrl). simpl.
  destruct (lookup_lt_is_Some_2 cm r ltac:(lia)) as [m Hm]. rewrite Hm. simpl.
  destruct (IH parent' Hp') as (ns & cs & -> & ? & ?). simpl.
  exists (x :: ns), (m :: cs). split_and!; [done|by constructor|constructor; eauto].
Qed.
End Labels.

Lemma Forall2_seq_lookup {A} (P : nat → A → Prop) n l :
  Forall2 P (seq 0 n) l → length l = n ∧ ∀ i x, l !! i = Some x → P i x.
Proof.
  intros Hl. pose proof (Forall2_length _ _ _ Hl) as Hn. rewrite length_seq in Hn.
  split; [done|]. intros i x Hx.
  destruct (Forall2_lookup_r _ _ _ _ _ Hl Hx) as (k & Hk & HP).
  apply lookup_seq in Hk as [-> _]. done.
Qed.

(** The relation of the empty forest. *)
Lemma uf_inv_start n : uf_inv n (fun _ _ => False) (seq 0 n, replicate n 0).
Proof.
  split_and!; simpl; [|apply length_seq|apply length_replicate|].
  - unfold parents_in_range. rewrite length_seq. apply Forall_forall. intros x Hx%elem_of_seq. lia.
  - eapply represents_ext; [| |apply represents_id]; [|done]. intros i. unfold pfun, id.
    destruct (seq 0 n !! i) as [q|] eqn:E; [|done]. apply lookup_seq in E as [-> _]. done.
Qed.

(** The edges of the segments join known nodes. *)
Lemma seg_edge_nodes segs (dicts : list (list Z)) :
  Forall seg_ok segs → mapM (fun seg => cast_u64 (cg_dict seg)) segs = Some dicts →
  ∀ u v, seg_edge segs u v → u ∈ mjoin dicts ∧ v ∈ mjoin dicts.
Proof.
  intros Hok Hd u v (seg & Hseg & Hedge). apply mapM_Some in Hd.
  apply list_elem_of_lookup in Hseg as [k Hk].
  destruct (Forall2_lookup_l _ _ _ _ _ Hd Hk) as (D' & HD' & Hcast).
  rewrite Forall_lookup in Hok. destruct (Hok k seg Hk) as (D & es & Hg & _).
  rewrite (cr_dict _ _ _ Hg) in Hcast. injection Hcast as <-.
  rewrite (csr_edge_iff seg D es) in Hedge by done.
  apply list_elem_of_fmap in Hedge as (e & [= -> ->] & He).
  pose proof (cr_dense _ _ _ Hg) as Hdense. rewrite Forall_forall in Hdense.
  destruct (Hdense e He) as [H1%orig_lookup H2%orig_lookup].
  split; apply list_elem_of_join; exists D; split; eauto using list_elem_of_lookup_2.
Qed.

Lemma seg_ok_dicts segs :
  Forall seg_ok segs → ∃ dicts, mapM (fun seg => cast_u64 (cg_dict seg)) segs = Some dicts.
Proof.
  induction 1 as [|seg segs (D & es & Hg & _) _ [dicts IH]]; [by exists []|].
  exists (D :: dicts). simpl. rewrite (cr_dict _ _ _ Hg). simpl. by rewrite IH.
Qed.

(** Once trees and components agree, the last two loops label every node with the smallest
    one of its component. *)
Lemma labels_correct nodes parent (E : relation Z) :
  parents_in_range parent → length parent = length nodes → forest (pfun parent) →
  (∀ u v, E u v → u ∈ nodes ∧ v ∈ nodes) →
  (∀ i j u v, nodes !! i = Some u → nodes !! j = Some v →
     same_tree (pfun parent) i j ↔ rtsc E u v) →
  let ixs := seq 0 (length nodes) in
  ∃ cm parent' components,
    min_loop nodes ixs nodes parent = Some (cm, parent')
    ∧ label_loop nodes ixs cm parent' = Some (nodes, components)
    ∧ length components = length nodes
    ∧ ∀ i u c, nodes !! i = Some u → components !! i = Some c → component_min E u c.
Proof.
  intros Hr Hlp Hf HE Htree ixs.
  assert (Forall (fun i => (i < length nodes)%nat) ixs) as Hseq.
  { apply Forall_forall. intros i Hi%elem_of_seq. lia. }
  destruct (min_loop_spec nodes (pfun parent) Hf ixs (fun _ => False)
    nodes parent) as (cm & parent' & Hml & Hp' & Hlc & Hmins);
    [by split_and!|done|done|apply mins_start|].
  destruct (label_loop_spec nodes (pfun parent) Hf ixs cm parent' Hp' Hlc Hseq)
    as (ns & cs & Hll & Hns & Hcs).
  exists cm, parent', cs. apply Forall2_seq_lookup in Hns as [Hlns Hns].
  apply Forall2_seq_lookup in Hcs as [Hlcs Hcs].
  assert (ns = nodes) as ->.
  { apply list_eq_same_length with (n := length nodes); [done|done|].
    intros i x y _ Hx%Hns Hy. congruence. }
  split_and!; [done|done|done|]. intros i u c Hu Hc.
  destruct (Hcs i c Hc) as (r & Hir & Hm).
  destruct (Hmins r c) as [(j & Hj & Hjc) Hle]; [by eapply rooted_root|done|]. split.
  - apply (Htree i j); [done|done|]. by exists r.
  - intros w Hw. assert (w ∈ nodes) as [k Hk]%list_elem_of_lookup.
    { destruct (rtc_inv_r _ _ Hw) as [->|(z & _ & [Hz|Hz])];
        [by eapply list_elem_of_lookup_2|apply HE in Hz; tauto..]. }
    destruct (proj2 (Htree i k u w Hu Hk) Hw) as (s & His & Hks).
    rewrite (rooted_fun _ _ _ _ His Hir) in Hks.
    eapply Hle; [|exact Hks|exact Hk]. right. apply elem_of_seq.
    apply lookup_lt_Some in Hk. lia.
Qed.

(** C23: On indexes the writer has made, [connected_components_csr] neither panics nor
    diverges; it lists every node of the dictionaries once, with the smallest node that is
    connected to it by forward and reverse edges taken in either direction. *)
Theorem csr_components_correct forward reverse :
  Forall seg_ok (all_segments forward reverse) →
  let E := seg_edge (all_segments forward reverse) in
  ∃ nodes components,
    connected_components_csr forward reverse = Some (nodes, components)
    ∧ NoDup nodes ∧ length components = length nodes
    ∧ (∀ u v, E u v → u ∈ nodes ∧ v ∈ nodes)
    ∧ ∀ i u c, nodes !! i = Some u → components !! i = Some c → component_min E u c.
Proof.
  intros Hok E. unfold connected_components_csr.
  set (segs := all_segments forward reverse) in *.
  destruct (seg_ok_dicts segs Hok) as [dicts Hd]. rewrite Hd. cbn [mbind option_bind].
  pose proof (gather_numbering (mjoin dicts) ∅ []) as Hnum.
  destruct (foldl add_node (∅, []) (mjoin dicts)) as [m nodes].
  destruct Hnum as [Hnum Hin].
  { split; [constructor|]. intros x i. by rewrite lookup_empty. }
  assert (∀ x, x ∈ nodes ↔ x ∈ mjoin dicts) as Hin'.
  { intros x. rewrite Hin. split; [|by right]. by intros [?%not_elem_of_nil|?]. }
  assert (∀ u v, E u v → u ∈ nodes ∧ v ∈ nodes) as HE.
  { intros u v Huv. rewrite !Hin'. by eapply seg_edge_nodes. }
  case_decide as Hn.
  { apply length_zero_iff_nil in Hn as ->. exists [], [].
    split_and!; [done|constructor|done|done|]. by intros i u c Hu. }
  set (n := length nodes) in *.
  destruct (union_segments_spec n m segs (seq 0 n, replicate n 0) (fun _ _ => False))
    as ([parent rank] & Hus & (Hr & Hlp & _ & Hrep)).
  { intros x i Hx%Hnum. by eapply lookup_lt_Some. }
  { apply uf_inv_start. }
  { rewrite Forall_forall in Hok |- *. intros seg Hseg. split; [by apply Hok|].
    intros D x HD Hx. destruct (Hin' x) as [_ Hx'].
    assert (x ∈ nodes) as [i Hi]%list_elem_of_lookup; [|exists i; by apply Hnum].
    apply Hx', list_elem_of_join. apply mapM_Some in Hd.
    apply list_elem_of_lookup in Hseg as [k Hk].
    destruct (Forall2_lookup_l _ _ _ _ _ Hd Hk) as (D' & HD' & Hcast).
    rewrite HD in Hcast. injection Hcast as <-. exists D. eauto using list_elem_of_lookup_2. }
  rewrite Hus. cbn [mbind option_bind]. simpl in Hr, Hlp, Hrep.
  assert (∀ i j u v, nodes !! i = Some u → nodes !! j = Some v →
    same_tree (pfun parent) i j ↔ rtsc E u v) as Htree.
  { intros i j u v Hu Hv. rewrite <- (idx_connected m nodes E i j) by done.
    eapply represents_ext in Hrep as [_ Hrep]; [apply Hrep|done|].
    intros a b. split; [by intros [[]|?]|by right]. }
  destruct (labels_correct nodes parent E Hr Hlp (proj1 Hrep) HE Htree)
    as (cm & parent' & components & Hml & Hll & Hlen & Hmin).
  fold n in Hml, Hll. rewrite Hml. cbn [mbind option_bind]. rewrite Hll. exists nodes, components.
  split_and!; [done|apply Hnum|done..].
Qed.

(** ** The aggregate function over edges *)

Module Udaf.

(** [while parent[&root] != root { root = parent[&root] }] *)
Fixpoint udaf_root (fuel : nat) (parent : gmap Z Z) (root : Z) : option Z :=
  match fuel with
  | O => None
  | S fuel =>
      q ← parent !! root;
      if decide (q = root) then Some root else udaf_root fuel parent q
  end.

(** [while parent[&cur] != root { let next = parent[&cur]; parent.insert(cur, root); .. }] *)
Fixpoint udaf_compress (fuel : nat) (parent : gmap Z Z) (cur root : Z) : option (gmap Z Z) :=
  match fuel with
  | O => None
  | S fuel =>
      next ← parent !! cur;
      if decide (next = root) then Some parent
      else udaf_compress fuel (<[cur := root]> parent) next root
  end.

Definition udaf_find (parent : gmap Z Z) (x : Z) : option (Z * gmap Z Z) :=
  root ← udaf_root (S (size parent)) parent x;
  parent ← udaf_compress (S (size parent)) parent x root;
  Some (root, parent).

(** [parent.entry(u).or_insert(u)] *)
Definition or_insert (parent : gmap Z Z) (u : Z) : gmap Z Z :=
  match parent !! u with Some _ => parent | None => <[u := u]> parent end.

Definition join (parent : gmap Z Z) (e : Z * Z) : option (gmap Z Z) :=
  let parent := or_insert (or_insert parent e.1) e.2 in
  '(ru, parent) ← udaf_find parent e.1;
  '(rv, parent) ← udaf_find parent e.2;
  if decide (ru = rv) then Some parent
  else Some (<[Z.max ru rv := Z.min ru rv]> parent).

Fixpoint join_all (edges : list (Z * Z)) (parent : gmap Z Z) : option (gmap Z Z) :=
  match edges with
  | [] => Some parent
  | e :: edges => parent ← join parent e; join_all edges parent
  end.

(** The output list: every node followed by its root. *)
Fixpoint collect (nodes : list Z) (parent : gmap Z Z) : option (list Z) :=
  match nodes with
  | [] => Some []
  | n :: nodes =>
      '(root, parent) ← udaf_find parent n;
      out ← collect nodes parent;
      Some (n :: root :: out)
  end.

Definition evaluate {G} `{!GraphView G} (graph : G) : option (list Z) :=
  parent ← join_all (all_edges graph) ∅;
  collect (sort_u64 (map_to_list parent).*1) parent.

(** *** Invariant *)

Definition udaf_pfun (parent : gmap Z Z) (x : Z) : Z := default x (parent !! x).

(** Pointers stay inside the map and never go up. *)
Definition closed (parent : gmap Z Z) : Prop :=
  ∀ x q, parent !! x = Some q → is_Some (parent !! q) ∧ q ≤ x.

Lemma udaf_pfun_insert parent x q y : udaf_pfun (<[x := q]> parent) y = (<[x := q]> (udaf_pfun parent)) y.
Proof.
  unfold udaf_pfun. destruct (decide (x = y)) as [->|Hne].
  - by rewrite lookup_insert_eq, fn_lookup_insert.
  - by rewrite lookup_insert_ne, fn_lookup_insert_ne.
Qed.

Lemma udaf_pfun_lookup parent x :
  is_Some (parent !! x) → parent !! x = Some (udaf_pfun parent x).
Proof. intros [q Hq]. unfold udaf_pfun. by rewrite Hq. Qed.

Lemma udaf_pfun_bound parent n x r : root_at (udaf_pfun parent) n x r → (n ≤ size parent)%nat.
Proof.
  intros Hr. rewrite <- size_dom. unfold size, set_size.
  eapply root_at_bound; [|exact Hr]. intros y Hy. simpl. apply elem_of_elements, elem_of_dom.
  unfold udaf_pfun in Hy. by destruct (parent !! y).
Qed.

Lemma closed_root parent n x r :
  closed parent → is_Some (parent !! x) → root_at (udaf_pfun parent) n x r →
  is_Some (parent !! r) ∧ r ≤ x.
Proof.
  intros Hc Hx Hr. induction Hr as [r Hp|n x r Hp Hr IH]; [split; [done|lia]|].
  destruct (Hc x _ (udaf_pfun_lookup parent x Hx)) as [Hq Hle]. destruct (IH Hq). split; [done|lia].
Qed.

Lemma closed_insert parent x q :
  closed parent → is_Some (parent !! q) → q ≤ x → closed (<[x := q]> parent).
Proof.
  intros Hc Hq Hle y s. rewrite !lookup_insert_is_Some'.
  intros [[-> ->]|[_ Hy]]%lookup_insert_Some; [naive_solver|].
  destruct (Hc y s Hy). naive_solver.
Qed.

Lemma udaf_find_root_spec parent n x r fuel :
  closed parent → root_at (udaf_pfun parent) n x r → is_Some (parent !! x) → (n < fuel)%nat →
  udaf_root fuel parent x = Some r.
Proof.
  intros Hc Hx. revert fuel. induction Hx as [r Hp|n x r Hp Hx IH]; intros fuel Hs Hf;
    (destruct fuel as [|fuel]; [lia|]); simpl; rewrite udaf_pfun_lookup by done; simpl.
  - by rewrite Hp, decide_True.
  - rewrite decide_False by done. apply IH; [|lia]. by eapply Hc, udaf_pfun_lookup.
Qed.

Lemma udaf_compress_path_spec parent n x r fuel :
  closed parent → root_at (udaf_pfun parent) n x r → is_Some (parent !! x) → (n < fuel)%nat →
  ∃ parent', udaf_compress fuel parent x r = Some parent' ∧ closed parent'
    ∧ dom parent' = dom parent ∧ same_roots (udaf_pfun parent) (udaf_pfun parent').
Proof.
  revert parent n x. induction fuel as [|fuel IH]; intros parent n x Hc Hx Hs Hf; [lia|].
  simpl. rewrite udaf_pfun_lookup by done. simpl. case_decide as E; [by exists parent|].
  inversion Hx as [? Hp|n' ?? Hp Hx']; subst; [congruence|].
  assert (rooted (udaf_pfun parent) x r) as Hroot by by eexists.
  destruct (compress_root_at (udaf_pfun parent) x r n' (udaf_pfun parent x) r Hroot Hx') as (m & Hm & Hr).
  destruct (closed_root parent _ x r Hc Hs Hx) as [Hrs Hrx].
  destruct (IH (<[x:=r]> parent) m (udaf_pfun parent x)) as (parent' & -> & Hc' & Hd & Hsame).
  - by apply closed_insert.
  - eapply root_at_ext; [|exact Hr]. intros y. by rewrite udaf_pfun_insert.
  - apply lookup_insert_is_Some'. right. by eapply Hc, udaf_pfun_lookup.
  - lia.
  - exists parent'. split_and!; [done|done| |].
    + rewrite Hd, dom_insert_L. apply elem_of_dom in Hs. set_solver.
    + etrans; [|exact Hsame]. intros y s Hy.
      eapply same_roots_ext; [intros z; symmetry; apply udaf_pfun_insert|by apply compress_rooted].
Qed.

Lemma udaf_find_spec parent x r :
  closed parent → rooted (udaf_pfun parent) x r → is_Some (parent !! x) →
  ∃ parent', udaf_find parent x = Some (r, parent') ∧ closed parent' ∧ dom parent' = dom parent
    ∧ same_roots (udaf_pfun parent) (udaf_pfun parent').
Proof.
  intros Hc [n Hx] Hs. pose proof (udaf_pfun_bound _ _ _ _ Hx). unfold udaf_find.
  rewrite (udaf_find_root_spec parent n x r) by (done || lia). cbn [mbind option_bind].
  destruct (udaf_compress_path_spec parent n x r (S (size parent)) Hc Hx Hs) as (p' & -> & ?);
    [lia|]. exists p'. naive_solver.
Qed.

(** After the edges [R], whose endpoints are the keys. *)
Definition inv (R : relation Z) (parent : gmap Z Z) : Prop :=
  closed parent ∧ represents (udaf_pfun parent) R.

Lemma or_insert_spec parent u R :
  inv R parent → inv R (or_insert parent u) ∧ dom (or_insert parent u) = dom parent ∪ {[u]}.
Proof.
  intros [Hc Hrep]. unfold or_insert. destruct (parent !! u) as [q|] eqn:E.
  - split; [done|]. apply elem_of_dom_2 in E. set_solver.
  - split; [split|].
    + intros y s. rewrite !lookup_insert_is_Some'.
      intros [[-> ->]|[_ Hy]]%lookup_insert_Some; [split; [naive_solver|lia]|].
      destruct (Hc y s Hy). naive_solver.
    + eapply represents_ext; [| |exact Hrep]; [|done]. intros y. rewrite udaf_pfun_insert.
      destruct (decide (u = y)) as [->|]; [|by rewrite fn_lookup_insert_ne].
      rewrite fn_lookup_insert. unfold udaf_pfun. by rewrite E.
    + rewrite dom_insert_L. set_solver.
Qed.

Lemma link_inv parent R x q :
  closed parent → represents (<[x := q]> (udaf_pfun parent)) R → is_Some (parent !! x) →
  is_Some (parent !! q) → q ≤ x →
  inv R (<[x := q]> parent) ∧ dom (<[x := q]> parent) = dom parent.
Proof.
  intros Hc Hrep Hx Hq Hle. split; [split; [by apply closed_insert|]|].
  - eapply represents_ext; [| |exact Hrep]; [|done]. intros y. by rewrite udaf_pfun_insert.
  - rewrite dom_insert_L. apply elem_of_dom in Hx. set_solver.
Qed.

Lemma join_spec parent R u v :
  inv R parent →
  ∃ parent', join parent (u, v) = Some parent' ∧ inv (add_edge R u v) parent'
    ∧ dom parent' = dom parent ∪ {[u; v]}.
Proof.
  intros Hinv. unfold join. simpl.
  destruct (or_insert_spec parent u R Hinv) as [Hinv1 Hd1].
  destruct (or_insert_spec _ v R Hinv1) as [[Hc Hrep] Hd2].
  set (p0 := or_insert (or_insert parent u) v) in *.
  assert (∀ x, x ∈ dom parent ∪ {[u; v]} → is_Some (p0 !! x)) as Hdom.
  { intros x Hx. apply elem_of_dom. rewrite Hd2, Hd1. set_solver. }
  destruct (proj1 Hrep u) as [a Ha].
  destruct (udaf_find_spec p0 u a Hc Ha) as (p1 & -> & Hc1 & Hdp1 & Hs1);
    [apply Hdom; set_solver|]. simpl.
  apply (represents_same_roots _ _ _ Hs1) in Hrep as Hrep1.
  destruct (proj1 Hrep1 v) as [b Hb].
  assert (is_Some (p1 !! u) ∧ is_Some (p1 !! v)) as [Hu1 Hv1].
  { split; apply elem_of_dom; rewrite Hdp1; apply elem_of_dom, Hdom; set_solver. }
  destruct (udaf_find_spec p1 v b Hc1 Hb Hv1) as (p2 & -> & Hc2 & Hdp2 & Hs2). simpl.
  apply (represents_same_roots _ _ _ Hs2) in Hrep1 as Hrep2.
  assert (rooted (udaf_pfun p2) u a) as Ha2 by by apply Hs2, Hs1.
  assert (rooted (udaf_pfun p2) v b) as Hb2 by by apply Hs2.
  assert (dom p2 = dom parent ∪ {[u; v]}) as Hd by (rewrite Hdp2, Hdp1, Hd2, Hd1; set_solver).
  case_decide as Hab.
  { subst b. exists p2. split_and!; [done|split; [done|by eapply represents_inner]|done]. }
  destruct (represents_link _ _ _ _ _ _ Hrep2 Ha2 Hb2 Hab) as [Hl1 Hl2].
  assert (∀ x, x ∈ dom parent ∪ {[u; v]} → is_Some (p2 !! x)) as Hdom2
    by (intros x Hx; apply elem_of_dom; by rewrite Hd).
  assert (is_Some (p2 !! a) ∧ is_Some (p2 !! b)) as [Has Hbs].
  { destruct Ha2 as [n Ha2], Hb2 as [m Hb2].
    split; eapply closed_root; eauto; apply Hdom2; set_solver. }
  eexists. split; [done|]. rewrite <- Hd.
  destruct (Z.max_spec a b) as [[? ->]|[? ->]];
    [rewrite Z.min_l by lia|rewrite Z.min_r by lia]; by apply link_inv; try lia.
Qed.

Lemma join_all_spec edges parent R :
  inv R parent →
  ∃ parent', join_all edges parent = Some parent'
    ∧ inv (fun x y => R x y ∨ (x, y) ∈ edges) parent'
    ∧ ∀ x, x ∈ dom parent' ↔ x ∈ dom parent ∨ ∃ e, e ∈ edges ∧ (x = e.1 ∨ x = e.2).
Proof.
  revert parent R. induction edges as [|[u v] edges IH]; intros parent R Hinv; simpl.
  { exists parent. split_and!; [done| |set_solver]. destruct Hinv as [Hc Hrep]. split; [done|].
    eapply represents_ext; [done| |exact Hrep]. set_solver. }
  destruct (join_spec parent R u v Hinv) as (p1 & Hj & Hinv1 & Hd1). rewrite Hj. simpl.
  destruct (IH p1 _ Hinv1) as (p' & -> & [Hc Hrep] & Hd). exists p'. split_and!; [done| |].
  - split; [done|]. eapply represents_ext; [done| |exact Hrep]. intros x y. unfold add_edge.
    rewrite elem_of_cons. naive_solver.
  - intros x. rewrite Hd, Hd1. split.
    + intros [Hx|(e & ? & ?)]; [|right; exists e; set_solver].
      rewrite !elem_of_union, !elem_of_singleton in Hx. destruct Hx as [?|Hx]; [by left|].
      right. exists (u, v). simpl. set_solver.
    + intros [?|(e & He & Hx)]; [set_solver|]. apply elem_of_cons in He as [->|He];
        [simpl in Hx; set_solver|]. right. eauto.
Qed.

Lemma collect_spec p0 nodes parent :
  closed parent → forest p0 → same_roots p0 (udaf_pfun parent) →
  Forall (fun x => is_Some (parent !! x)) nodes →
  ∃ labels, collect nodes parent = Some (mjoin (zip_with (fun n r => [n; r]) nodes labels))
    ∧ Forall2 (rooted p0) nodes labels.
Proof.
  intros Hc Hf. revert parent Hc. induction nodes as [|x nodes IH]; intros parent Hc Hs Hin.
  { exists []. split; [done|constructor]. }
  apply Forall_cons in Hin as [Hx Hin]. simpl. destruct (Hf x) as [r Hr].
  destruct (udaf_find_spec parent x r Hc (Hs _ _ Hr) Hx) as (p1 & -> & Hc1 & Hd & Hs1). simpl.
  destruct (IH p1 Hc1) as (labels & -> & Hl); [by etrans| |].
  { eapply Forall_impl; [exact Hin|]. intros y. by rewrite <- !elem_of_dom, Hd. }
  exists (r :: labels). simpl. split; [done|by constructor].
Qed.

(** The root of a tree is the smallest node of its component. *)
Lemma root_is_min parent R x r :
  inv R parent → rooted (udaf_pfun parent) x r → component_min R x r.
Proof.
  intros [Hc [Hf Hrep]] Hx. assert (udaf_pfun parent r = r) as Hr by by eapply rooted_root. split.
  - apply Hrep. exists r. split; [done|by apply rooted_self].
  - intros w (s & Hxs & [n Hw])%Hrep. rewrite (rooted_fun _ _ _ _ Hxs Hx) in Hw.
    destruct (parent !! w) as [q|] eqn:E; [by eapply closed_root|].
    assert (rooted (udaf_pfun parent) w w) as Hww by (apply rooted_self; unfold udaf_pfun; by rewrite E).
    assert (w = r) as -> by (eapply rooted_fun; [done|by exists n]). lia.
Qed.

End Udaf.

(** The aggregate function lists the endpoints of the edges in increasing order, each
    followed by the smallest node of its component; it neither panics nor diverges on any
    graph view. *)
Theorem udaf_components_correct {G} `{GraphViewLaws G} (g : G) :
  gv_wf g →
  ∃ nodes labels,
    Udaf.evaluate g = Some (mjoin (zip_with (fun n r => [n; r]) nodes labels))
    ∧ StronglySorted Z.lt nodes ∧ (∀ x, x ∈ nodes ↔ ∃ y, edge g x y ∨ edge g y x)
    ∧ Forall2 (component_min (edge g)) nodes labels.
Proof.
  intros Hwf. unfold Udaf.evaluate.
  destruct (Udaf.join_all_spec (all_edges g) ∅ (fun _ _ => False)) as (p & -> & Hinv & Hd).
  { split; [by intros x q; rewrite lookup_empty|].
    eapply represents_ext; [| |apply represents_id]; [|done].
    intros x. unfold Udaf.udaf_pfun. by rewrite lookup_empty. }
  cbn [mbind option_bind]. pose proof Hinv as [Hc Hrep].
  destruct (Udaf.collect_spec (Udaf.udaf_pfun p) (sort_u64 (map_to_list p).*1) p)
    as (labels & -> & Hl); [done|apply Hrep|done| |].
  { apply Forall_forall. intros x. rewrite elem_of_sort_u64, list_elem_of_fmap.
    intros ([k q] & -> & Hk%elem_of_map_to_list). by exists q. }
  exists (sort_u64 (map_to_list p).*1), labels.
  split_and!; [done|apply sort_u64_strict, NoDup_fst_map_to_list| |].
  - intros x. rewrite elem_of_sort_u64.
    assert (x ∈ (map_to_list p).*1 ↔ x ∈ dom p) as ->.
    { rewrite list_elem_of_fmap, elem_of_dom. split.
      - intros ([k q] & -> & Hk%elem_of_map_to_list). by exists q.
      - intros [q Hq]. exists (x, q). by rewrite elem_of_map_to_list. }
    rewrite Hd. split.
    + intros [?|([a b] & Hab & Hx)]; [set_solver|]. rewrite elem_of_all_edges in Hab by done.
      simpl in Hx. destruct Hx as [-> | ->]; eauto.
    + intros [y [Hy|Hy]]; right; [exists (x, y)|exists (y, x)];
        rewrite elem_of_all_edges by done; auto.
  - eapply Forall2_impl; [exact Hl|]. intros x r Hr.
    assert (∀ a b, (False ∨ (a, b) ∈ all_edges g) ↔ edge g a b) as HE
      by (intros a b; rewrite elem_of_all_edges by done; tauto).
    apply (Udaf.root_is_min p); [|done]. split; [done|].
    eapply represents_ext; [done|exact HE|exact Hrep].
Qed.

Lemma flat_pairs_inj (l l' k k' : list Z) :
  length l = length k → length l' = length k' →
  mjoin (zip_with (fun n r => [n; r]) l k) = mjoin (zip_with (fun n r => [n; r]) l' k') →
  l = l' ∧ k = k'.
Proof.
  revert l' k k'. induction l as [|x l IH]; intros [|x' l'] [|y k] [|y' k'] Hl Hl' Heq;
    simplify_eq/=; [done|]. destruct (IH l' k k') as [-> ->]; [lia|lia|done|done].
Qed.

Lemma seg_edge_multi g u v : seg_edge (segments g) u v ↔ edge g u v.
Proof.
  unfold seg_edge, edge. change (get_neighbors g u) with (segments g ≫= fun s => get_neighbors s u).
  rewrite list_elem_of_bind. naive_solver.
Qed.

Lemma seg_ok_wf g : Forall seg_ok (segments g) → gv_wf g.
Proof. intros Hok. eapply Forall_impl; [exact Hok|]. intros seg (D & es & ? & _). by exists D, es. Qed.

(** The two union-find algorithms give every node the same label, so a query returns the
    same components whether it runs over rows or over graph indexes. *)
Theorem components_agree forward nodes components out_nodes labels i k u c l :
  Forall seg_ok (segments forward) →
  connected_components_csr forward None = Some (nodes, components) →
  Udaf.evaluate forward = Some (mjoin (zip_with (fun n r => [n; r]) out_nodes labels)) →
  length labels = length out_nodes →
  nodes !! i = Some u → components !! i = Some c →
  out_nodes !! k = Some u → labels !! k = Some l → c = l.
Proof.
  intros Hok Hcsr Hudaf Hlen Hi Hc Hk Hl.
  destruct (csr_components_correct forward None) as (ns & cs & Hcsr' & _ & _ & _ & Hmin);
    [unfold all_segments; by rewrite app_nil_r|].
  rewrite Hcsr in Hcsr'. injection Hcsr' as <- <-. specialize (Hmin i u c Hi Hc).
  destruct (udaf_components_correct forward (seg_ok_wf _ Hok)) as (os & ls & Hu' & _ & _ & Hls).
  rewrite Hudaf in Hu'. injection Hu' as Hu'.
  destruct (flat_pairs_inj out_nodes os labels ls) as [<- <-];
    [done|by eapply Forall2_length|done|].
  destruct (Forall2_lookup_lr _ _ _ _ _ _ Hls Hk Hl) as [Hul Hule].
  unfold all_segments in Hmin. rewrite app_nil_r in Hmin.
  assert (∀ a b, seg_edge (segments forward) a b ↔ edge forward a b) as HE by apply seg_edge_multi.
  eapply component_min_unique; [exact Hmin|].
  assert (∀ x y, rtsc (seg_edge (segments forward)) x y ↔ rtsc (edge forward) x y) as HR.
  { intros x y. split; apply rtc_subrel; intros a b [?|?]; [left|right|left|right]; by apply HE. }
  split; [by apply HR|]. intros w Hw. by apply Hule, HR.
Qed.

Module ComponentsExamples.
Import CsrExamples.

Lemma index_of_ok es :
  Forall raw_edge_ok es → Z.of_nat (length es) < 2 ^ 60 → dict_of es ≠ [] →
  seg_ok (index_of es).
Proof.
  intros Hes Hlen HD. exists (dict_of es), (dense_edges sort_src es).
  split; [by apply index_of_repr|done].
Qed.

Lemma two_segments_ok : Forall seg_ok (segments two_segments).
Proof.
  apply Forall_cons. split; [|apply Forall_cons; split; [|constructor]]; 
    (apply index_of_ok; [|simpl; lia|by vm_compute]);
    apply Forall_cons; (split; [|apply Forall_cons; split; [|constructor]]);
    unfold raw_edge_ok, is_u64, is_u32; simpl; lia.
Qed.

Example two_segments_components :
  connected_components_csr two_segments None = Some ([3; 5; 6; 8; 9], [3; 5; 5; 3; 3]).
Proof. vm_compute. done. Qed.

Lemma csr_components_correct_witness :
  Forall seg_ok (all_segments two_segments None)
  ∧ component_min (seg_edge (segments two_segments)) 9 3.
Proof.
  assert (Forall seg_ok (all_segments two_segments None)) as Hok by exact two_segments_ok.
  split; [done|].
  destruct (csr_components_correct two_segments None Hok) as (ns & cs & Hcc & _ & _ & _ & Hmin).
  rewrite two_segments_components in Hcc. injection Hcc as <- <-.
  exact (Hmin 4%nat 9 3 eq_refl eq_refl).
Defined.

Example two_segments_udaf :
  Udaf.evaluate two_segments = Some [3; 3; 5; 5; 6; 5; 8; 3; 9; 3].
Proof. vm_compute. done. Qed.

Lemma udaf_components_correct_witness :
  gv_wf two_segments ∧ ∃ nodes labels,
    Udaf.evaluate two_segments = Some (mjoin (zip_with (fun n r => [n; r]) nodes labels))
    ∧ Forall2 (component_min (edge two_segments)) nodes labels.
Proof.
  assert (gv_wf two_segments) as Hwf by apply seg_ok_wf, two_segments_ok. split; [done|].
  destruct (udaf_components_correct two_segments Hwf) as (ns & ls & He & _ & _ & Hl).
  exists ns, ls. split; [exact He|exact Hl].
Defined.

Lemma components_agree_witness :
  connected_components_csr two_segments None = Some ([3; 5; 6; 8; 9], [3; 5; 5; 3; 3])
  ∧ (3 : Z) = 3.
Proof.
  split; [exact two_segments_components|].
  apply (components_agree two_segments [3; 5; 6; 8; 9] [3; 5; 5; 3; 3] [3; 5; 6; 8; 9]
    [3; 5; 5; 3; 3] 4 4 9 3 3 two_segments_ok two_segments_components two_segments_udaf);
    reflexivity.
Defined.

End ComponentsExamples.
