(* ===== verification/LabelComponents.v ===== *)
(** * Connected components by SQL ([compute_connected_components])

    The out-of-core algorithm of [src/src/core/algorithms/connected_components.rs]: label
    propagation with pointer jumping and edge contraction, each step a query whose result
    is materialized.  A state table has one row per id, so it is a map from ids to labels;
    an edge table is made by [SELECT DISTINCT], so it is a set of pairs.  DataFusion's
    [SUM] over doubles, on which the convergence test relies, is a parameter. *)

From S2P Require Import Prelude Json Graph UnionFind Components.
From stdpp Require Import relations.
From Stdlib Require Import SpecFloat.

Open Scope Z_scope.

Abbreviation state := (gmap Z Z).
Abbreviation edge_set := (gset (Z * Z)).

(** [SELECT src UNION SELECT dst] *)
Definition endpoint_set (edges : list (Z * Z)) : gset Z :=
  list_to_set edges.*1 ∪ list_to_set edges.*2.

Definition state_0 (edges : list (Z * Z)) : state :=
  set_to_map (fun x => (x, x)) (endpoint_set edges).

(** Both directions, [WHERE a <> b]. *)
Definition edges_0 (edges : list (Z * Z)) : edge_set :=
  list_to_set (filter (fun e : Z * Z => e.1 ≠ e.2)
    (edges ++ ((fun e : Z * Z => (e.2, e.1)) <$> edges))).

(** One row of the join [edges e JOIN state s ON e.src = s.id], grouped by [e.dst]. *)
Definition prop_row (s acc : state) (e : Z * Z) : state :=
  match s !! e.1 with
  | Some lab =>
      <[e.2 := match acc !! e.2 with Some c => Z.min c lab | None => lab end]> acc
  | None => acc
  end.
(** [SELECT id, MIN(lab) ... GROUP BY id] over the state and the join. *)
Definition propagate (E : edge_set) (s : state) : state :=
  foldl (prop_row s) s (elements E).

(** [COALESCE(j.component_id, s.component_id)] *)
Definition jump (s : state) : state := (fun c => default c (s !! c)) <$> s.

(** The edges between different labels. *)
Definition contract (E : edge_set) (s : state) : edge_set :=
  list_to_set (omap (fun e : Z * Z =>
    sl ← s !! e.1; dl ← s !! e.2;
    if decide (sl = dl) then None else Some (sl, dl)) (elements E)).

Section Run.
(** [SUM(CAST(component_id AS DOUBLE))] over the rows of a state. *)
Context (sum_f64 : list Z → float).

Definition checksum (s : state) : float * nat :=
  (sum_f64 (map_to_list s).*2, size s).

(** [chk == prev_checksum] on [(f64, i64)] *)
Definition checksum_eqb (a b : float * nat) : bool :=
  SFeqb a.1 b.1 && bool_decide (a.2 = b.2).

Definition round (E : edge_set) (s : state) : state := jump (jump (propagate E s)).

(** The loop with [n] rounds left. *)
Fixpoint rounds (n : nat) (E : edge_set) (s : state) (prev_checksum : float * nat) : state :=
  match n with
  | O => s
  | S n =>
      let state_new := round E s in
      let chk := checksum state_new in
      if checksum_eqb chk prev_checksum then state_new
      else rounds n (contract E state_new) state_new chk
  end.

Definition compute_connected_components (edges : list (Z * Z)) (max_iterations : nat) : state :=
  rounds max_iterations (edges_0 edges) (state_0 edges) (checksum (state_0 edges)).

End Run.

(** ** One round *)

(** The label of an id; an id outside the table is its own. *)
Definition lab (s : state) (x : Z) : Z := default x (s !! x).

Lemma prop_fold_spec s l acc x :
  let p := foldl (prop_row s) acc l in
  (x ∈ dom p ↔ x ∈ dom acc ∨ ∃ u, (u, x) ∈ l ∧ u ∈ dom s)
  ∧ ∀ c, p !! x = Some c →
      (acc !! x = Some c ∨ ∃ u, (u, x) ∈ l ∧ s !! u = Some c)
      ∧ (∀ c0, acc !! x = Some c0 → c ≤ c0)
      ∧ ∀ u d, (u, x) ∈ l → s !! u = Some d → c ≤ d.
Proof.
  revert acc. induction l as [|[u v] l IH]; intros acc; simpl.
  { split; [set_solver|]. intros c Hc. split_and!; [by left| |set_solver].
    intros c0 Hc0. simplify_eq. lia. }
  destruct (IH (prop_row s acc (u, v))) as [Hd Hc]. clear IH.
  assert (x ∈ dom (prop_row s acc (u, v)) ↔ x ∈ dom acc ∨ x = v ∧ u ∈ dom s) as Hd'.
  { unfold prop_row. simpl. destruct (s !! u) eqn:Eu.
    - apply elem_of_dom_2 in Eu. rewrite dom_insert_L. set_solver.
    - apply not_elem_of_dom in Eu. set_solver. }
  split; [rewrite Hd, Hd'; set_solver|]. intros c Hpc.
  destruct (Hc c Hpc) as (Hfrom & Hacc & Hedge). clear Hc Hd Hd' Hpc. unfold prop_row in *.
  simpl in *. destruct (s !! u) as [du|] eqn:Eu;
    [|split_and!; [set_solver|done|intros w d [?|?]%elem_of_cons; naive_solver]].
  destruct (decide (v = x)) as [->|Hne].
  - rewrite lookup_insert_eq in Hfrom, Hacc. specialize (Hacc _ eq_refl).
    assert (c ≤ du ∧ ∀ c0, acc !! x = Some c0 → c ≤ c0) as [Hcu Hca]
      by (destruct (acc !! x); split; [lia|naive_solver lia|lia|done]).
    split_and!; [|done|intros w d [?|?]%elem_of_cons Hw; naive_solver].
    destruct Hfrom as [[= Heq]|(w & ? & ?)]; [|right; exists w; set_solver].
    destruct (acc !! x) as [ca|]; [|right; exists u; simplify_eq; set_solver].
    destruct (Z.min_spec ca du) as [[? Hm]|[? Hm]]; rewrite Hm in Heq; subst;
      [by left|right; exists u; set_solver].
  - rewrite lookup_insert_ne in Hfrom, Hacc by done. split_and!; [set_solver|done|].
    intros w d [?|?]%elem_of_cons Hw; [simplify_eq|naive_solver].
Qed.

Section Round.
Context (V : gset Z) (E : edge_set) (s : state).
Context (Hdom : dom s = V) (HE : ∀ u v, (u, v) ∈ E → u ∈ V ∧ v ∈ V ∧ (v, u) ∈ E).
Context (Hlab : ∀ x, x ∈ V → lab s x ∈ V ∧ lab s x ≤ x).

Abbreviation p := (lab (propagate E s)).

Lemma lab_lookup (t : state) x : x ∈ dom t → t !! x = Some (lab t x).
Proof. intros [c Hc]%elem_of_dom. unfold lab. by rewrite Hc. Qed.

Lemma propagate_dom : dom (propagate E s) = V.
Proof.
  apply set_eq. intros x. unfold propagate.
  rewrite (proj1 (prop_fold_spec s (elements E) s x)), Hdom. split; [|auto].
  intros [?|(u & Hu & _)]; [done|]. apply elem_of_elements in Hu. by apply HE in Hu as (_ & ? & _).
Qed.

Lemma propagate_spec x :
  x ∈ V →
  (p x = lab s x ∨ ∃ u, (u, x) ∈ E ∧ p x = lab s u)
  ∧ p x ≤ lab s x ∧ ∀ u, (u, x) ∈ E → p x ≤ lab s u.
Proof.
  intros Hx. destruct (prop_fold_spec s (elements E) s x) as [_ Hp].
  destruct (Hp (p x)) as (Hfrom & Hs & Hedge).
  { apply lab_lookup. by rewrite propagate_dom. }
  split_and!.
  - destruct Hfrom as [Hc|(u & Hu & Hc)]; [left|right].
    + unfold lab at 2. by rewrite Hc.
    + exists u. rewrite elem_of_elements in Hu. split; [done|]. unfold lab at 2. by rewrite Hc.
  - apply Hs, lab_lookup. by rewrite Hdom.
  - intros u Hu. apply (Hedge u); [by apply elem_of_elements|].
    apply lab_lookup. rewrite Hdom. by apply HE in Hu as [? _].
Qed.

Lemma p_in_V x : x ∈ V → p x ∈ V ∧ p x ≤ x.
Proof.
  intros Hx. destruct (propagate_spec x Hx) as (Hfrom & Hle & _).
  destruct (Hlab x Hx). split; [|lia].
  destruct Hfrom as [->|(u & Hu & ->)]; [done|]. apply Hlab. by apply HE in Hu as [? _].
Qed.

Lemma lab_jump (t : state) x : lab (jump t) x = lab t (lab t x).
Proof. unfold lab at 1, jump. rewrite lookup_fmap. unfold lab. by destruct (t !! x) eqn:E'; simpl; rewrite ?E'. Qed.

Lemma lab_round x : lab (round E s) x = p (p (p (p x))).
Proof. unfold round. by rewrite !lab_jump. Qed.

Lemma round_dom : dom (round E s) = V.
Proof. unfold round, jump. rewrite !dom_fmap_L. apply propagate_dom. Qed.

Lemma round_in_V x : x ∈ V → lab (round E s) x ∈ V ∧ lab (round E s) x ≤ lab s x.
Proof.
  intros Hx. rewrite lab_round. destruct (propagate_spec x Hx) as (_ & Hle & _).
  destruct (p_in_V x Hx) as [H1 _]. destruct (p_in_V _ H1) as [H2 ?].
  destruct (p_in_V _ H2) as [H3 ?]. destruct (p_in_V _ H3) as [H4 ?]. split; [done|lia].
Qed.
End Round.

(** ** Connectivity is preserved *)

Definition linked (E : edge_set) : relation Z := fun a b => (a, b) ∈ E.
Definition links (E : edge_set) (s : state) : relation Z := fun a b => (a, b) ∈ E ∨ b = lab s a.

Lemma rtsc_mono {A} (R S : relation A) x y :
  (∀ a b, R a b → rtsc S a b) → rtsc R x y → rtsc S x y.
Proof.
  intros HRS. induction 1 as [x|x z y Hxz _ IH]; [done|]. etrans; [|exact IH].
  destruct Hxz as [H|H]; [by apply HRS|symmetry; by apply HRS].
Qed.

Lemma elem_of_contract E s u v :
  (u, v) ∈ contract E s
  ↔ u ≠ v ∧ ∃ a b, (a, b) ∈ E ∧ s !! a = Some u ∧ s !! b = Some v.
Proof.
  unfold contract. rewrite elem_of_list_to_set, list_elem_of_omap. split.
  - intros ([a b] & Hab%elem_of_elements & Heq). simpl in Heq.
    destruct (s !! a) eqn:Ea, (s !! b) eqn:Eb; simpl in Heq; try done.
    case_decide; [done|]. simplify_eq. eauto 10.
  - intros (Hne & a & b & Hab & Ha & Hb). exists (a, b).
    rewrite elem_of_elements. simpl. rewrite Ha. simpl. rewrite Hb. simpl.
    by rewrite decide_False.
Qed.

(** What holds between rounds: the edges and the labels together connect exactly what the
    input connects, and an id that still has an edge reaches its label through edges. *)
Record label_inv (V : gset Z) (G : relation Z) (E : edge_set) (s : state) : Prop := {
  li_dom : dom s = V;
  li_pos : ∀ x, x ∈ V → 0 ≤ x;
  li_lab : ∀ x, x ∈ V → lab s x ∈ V ∧ lab s x ≤ x;
  li_edges : ∀ u v, (u, v) ∈ E → u ∈ V ∧ v ∈ V ∧ (v, u) ∈ E;
  li_conn : ∀ x y, rtsc G x y ↔ rtsc (links E s) x y;
  li_touch : ∀ x y, (x, y) ∈ E → rtsc (linked E) x (lab s x)
}.

Section Step.
Context (V : gset Z) (G : relation Z) (E : edge_set) (s : state) (Hinv : label_inv V G E s).

Abbreviation p := (lab (propagate E s)).
Abbreviation s' := (round E s).
Abbreviation E' := (contract E s').

Lemma step_p x : x ∈ V → p x ∈ V ∧ p x ≤ x.
Proof. intros Hx. destruct Hinv. by apply (p_in_V V). Qed.

Lemma step_edge u v : (u, v) ∈ E → lab s' u = lab s' v ∨ (lab s' u, lab s' v) ∈ E'.
Proof.
  intros Huv. destruct Hinv as [Hd _ Hl He _ _].
  destruct (decide (lab s' u = lab s' v)) as [|Hne]; [by left|right].
  apply elem_of_contract. split; [done|]. exists u, v. split; [done|].
  destruct (He u v Huv) as (? & ? & _).
  split; apply lab_lookup; by rewrite (round_dom V).
Qed.

Lemma step_lab x : rtsc (links E' s') x (lab s' x).
Proof. apply rtc_once. left. by right. Qed.

(** An id and what propagation gives it stay connected: follow both chains of labels down. *)
Lemma step_p_linked x : x ∈ V → rtsc (links E' s') x (p x).
Proof.
  induction x as [x IH] using (well_founded_induction (Z.lt_wf 0)). intros Hx.
  destruct (step_p x Hx) as [H1 Hle1]. destruct (decide (p x = x)) as [->|Hne]; [done|].
  destruct (step_p _ H1) as [H2 Hle2]. destruct (step_p _ H2) as [H3 Hle3].
  destruct (step_p _ H3) as [H4 Hle4].
  etrans; [apply step_lab|]. rewrite lab_round. etrans; [|symmetry; apply step_lab].
  rewrite lab_round. apply IH; [|done]. split; [by apply (li_pos _ _ _ _ Hinv)|lia].
Qed.

Lemma step_edge_linked u v : (u, v) ∈ E → rtsc (links E' s') u v.
Proof.
  intros Huv. etrans; [apply step_lab|]. etrans; [|symmetry; apply step_lab].
  destruct (step_edge u v Huv) as [->|He]; [done|]. apply rtc_once. left. by left.
Qed.

(** What the round joins was joined before. *)
Lemma old_p x : x ∈ V → rtsc (links E s) x (p x).
Proof.
  intros Hx. destruct Hinv as [Hd _ Hl He _ _].
  assert (∀ y, rtsc (links E s) y (lab s y)) as Hlab by (intros y; apply rtc_once; left; by right).
  destruct (propagate_spec V E s Hd He x Hx) as ([->|(u & Hu & ->)] & _); [done|].
  transitivity u; [|done]. apply rtc_once. right. by left.
Qed.

Lemma old_lab x : rtsc (links E s) x (lab s' x).
Proof.
  destruct (decide (x ∈ V)) as [Hx|Hx].
  - rewrite lab_round. destruct (step_p x Hx) as [H1 _]. destruct (step_p _ H1) as [H2 _].
    destruct (step_p _ H2) as [H3 _].
    do 3 (etrans; [by apply old_p|]). by apply old_p.
  - unfold lab. destruct Hinv as [Hd _ _ He _ _].
    rewrite <- (round_dom V E s Hd He) in Hx. apply not_elem_of_dom in Hx. by rewrite Hx.
Qed.

(** Ids that touch an edge reach their new label through the old edges. *)
Lemma touch_p x y : (x, y) ∈ E → rtsc (linked E) x (p x) ∧ ∃ z, (p x, z) ∈ E.
Proof.
  intros Hxy. destruct Hinv as [Hd _ Hl He _ Ht].
  destruct (He x y Hxy) as (Hx & _ & Hyx).
  assert (rtsc (linked E) x (p x)) as Hp.
  { destruct (propagate_spec V E s Hd He x Hx) as ([->|(u & Hu & ->)] & _); [by eapply Ht|].
    transitivity u; [apply rtc_once; by right|by eapply Ht]. }
  split; [done|]. destruct (rtc_inv_r _ _ Hp) as [<-|(z & _ & [Hz|Hz])]; [by exists y| |by exists z].
  exists z. by apply He in Hz as (_ & _ & ?).
Qed.

Lemma touch_lab x y : (x, y) ∈ E → rtsc (linked E) x (lab s' x).
Proof.
  intros Hxy. rewrite lab_round. destruct (touch_p x y Hxy) as [H1 [z1 Hz1]].
  destruct (touch_p _ z1 Hz1) as [H2 [z2 Hz2]]. destruct (touch_p _ z2 Hz2) as [H3 [z3 Hz3]].
  destruct (touch_p _ z3 Hz3) as [H4 _]. etrans; [exact H1|]. etrans; [exact H2|]. by etrans.
Qed.

Lemma step_path x y : rtsc (linked E) x y → rtsc (linked E') (lab s' x) (lab s' y).
Proof.
  induction 1 as [x|x z y Hxz _ IH]; [done|]. etrans; [|exact IH].
  destruct Hxz as [H|H]; destruct (step_edge _ _ H) as [->|He]; try done;
    apply rtc_once; [by left|by right].
Qed.

Lemma label_inv_step : label_inv V G E' s'.
Proof.
  pose proof Hinv as [Hd Hpos Hl He Hc Ht].
  assert (dom s' = V) as Hd' by by apply round_dom.
  assert (∀ x c, s' !! x = Some c → c = lab s' x ∧ x ∈ V) as Hlook.
  { intros x c Hx. split; [unfold lab; by rewrite Hx|]. rewrite <- Hd'. by eapply elem_of_dom_2. }
  assert (∀ x, x ∈ V → lab s' x ∈ V ∧ lab s' x ≤ lab s x) as HV by (intros; by apply round_in_V).
  split; [done|done| | | |].
  - intros x Hx. destruct (HV x Hx), (Hl x Hx). split; [done|lia].
  - intros u v (Hne & a & b & Hab & [-> Ha]%Hlook & [-> Hb]%Hlook)%elem_of_contract.
    split_and!; [by apply HV..|]. apply elem_of_contract. split; [done|].
    exists b, a. split_and!; [by apply He in Hab as (_ & _ & ?)|..]; apply lab_lookup; by rewrite Hd'.
  - intros x y. rewrite Hc. split; apply rtsc_mono.
    + intros a b [Hab| ->]; [by apply step_edge_linked|].
      destruct (decide (a ∈ V)) as [Ha|Ha];
        [|rewrite <- Hd in Ha; apply not_elem_of_dom in Ha; unfold lab; by rewrite Ha].
      destruct (propagate_spec V E s Hd He a Ha) as ([<-|(u & Hu & _)] & _);
        [by apply step_p_linked|]. apply He in Hu as (_ & _ & Hu).
      eapply rtsc_mono; [|by eapply Ht]. intros c d Hcd. by apply step_edge_linked.
    + intros a b [(Hne & c & d & Hcd & [-> Hc']%Hlook & [-> Hd'']%Hlook)%elem_of_contract| ->];
        [|apply old_lab].
      etrans; [symmetry; apply old_lab|]. etrans; [|apply old_lab].
      apply rtc_once. left. by left.
  - intros x y (Hne & a & b & Hab & [-> Ha]%Hlook & _)%elem_of_contract.
    apply step_path. by eapply touch_lab.
Qed.

(** At a fixed point every label is the smallest id of its component. *)
Lemma fixpoint_correct x :
  (∀ y, y ∈ V → lab s' y = lab s y) → x ∈ V → component_min G x (lab s x).
Proof.
  intros Hfix Hx. pose proof Hinv as [Hd Hpos Hl He Hc Ht].
  assert (∀ y, y ∈ V → p y = lab s y) as Hp.
  { intros y Hy. specialize (Hfix y Hy). rewrite lab_round in Hfix.
    destruct (propagate_spec V E s Hd He y Hy) as (_ & Hle & _).
    destruct (step_p y Hy) as [H1 _]. destruct (step_p _ H1) as [H2 ?].
    destruct (step_p _ H2) as [H3 ?]. destruct (step_p _ H3) as [H4 ?]. lia. }
  assert (∀ y, y ∈ V → lab s (lab s y) = lab s y) as Hidem.
  { intros y Hy. pose proof (Hfix y Hy) as Hf. rewrite lab_round in Hf.
    destruct (Hl y Hy) as [H1 _]. destruct (Hl _ H1) as [H2 ?].
    destruct (Hl _ H2) as [H3 ?]. destruct (Hl _ H3) as [H4 ?].
    rewrite (Hp y Hy), (Hp _ H1), (Hp _ H2), (Hp _ H3) in Hf. lia. }
  assert (∀ a b, links E s a b → lab s a = lab s b ∧ (a ∈ V ↔ b ∈ V)) as Hconst.
  { intros a b [Hab| ->].
    - destruct (He a b Hab) as (Ha & Hb & Hba). split; [|done].
      destruct (propagate_spec V E s Hd He b Hb) as (_ & _ & Hmb).
      destruct (propagate_spec V E s Hd He a Ha) as (_ & _ & Hma).
      specialize (Hmb a Hab). specialize (Hma b Hba). rewrite Hp in Hma, Hmb by done. lia.
    - destruct (decide (a ∈ V)) as [Ha|Ha]; [split; [by rewrite Hidem|split; [by apply Hl|done]]|].
      rewrite <- Hd in Ha. pose proof Ha as Ha'. apply not_elem_of_dom in Ha'. rewrite <- Hd.
      assert (lab s a = a) as Hla by (unfold lab; by rewrite Ha'). by rewrite !Hla. }
  split.
  - apply Hc, rtc_once. left. by right.
  - intros w Hw%Hc. assert (lab s x = lab s w ∧ w ∈ V) as [-> Hw'].
    { clear -Hconst Hw Hx. revert Hx. induction Hw as [x|x z y Hxz _ IH]; intros Hx; [done|].
      destruct Hxz as [H|H]; apply Hconst in H as [Heq Hiff]; [rewrite Heq|rewrite <- Heq];
        apply IH; by apply Hiff. }
    by apply Hl.
Qed.
End Step.

(** ** Sums of labels *)

Definition sum_Z (l : list Z) : Z := foldr Z.add 0 l.

#[export] Instance sum_Z_proper : Proper ((≡ₚ) ==> eq) sum_Z.
Proof.
  induction 1 as [|x l k _ IH|x y l|l k m _ IH1 _ IH2]; simpl; [done|by rewrite IH|lia|congruence].
Qed.

Lemma sum_Z_mono (f h : Z → Z) l :
  (∀ x, x ∈ l → f x ≤ h x) →
  sum_Z (f <$> l) ≤ sum_Z (h <$> l)
  ∧ (sum_Z (f <$> l) = sum_Z (h <$> l) → ∀ x, x ∈ l → f x = h x).
Proof.
  induction l as [|y l IH]; intros Hle; csimpl; [split; [done|set_solver]|].
  destruct IH as [Hs Heq]; [set_solver|]. pose proof (Hle y ltac:(left)).
  cbn [sum_Z foldr]. fold (sum_Z (f <$> l)) (sum_Z (h <$> l)). split; [lia|].
  intros Hsum x [->|Hx]%elem_of_cons; [lia|]. apply Heq; [lia|done].
Qed.

Lemma sum_Z_pos (f : Z → Z) l : (∀ x, x ∈ l → 0 ≤ f x) → 0 ≤ sum_Z (f <$> l).
Proof.
  induction l as [|y l IH]; intros Hp; csimpl; [done|].
  cbn [sum_Z foldr]. fold (sum_Z (f <$> l)).
  pose proof (Hp y ltac:(left)). specialize (IH ltac:(set_solver)). lia.
Qed.

Lemma labels_of_state (s : state) V :
  dom s = V → (map_to_list s).*2 ≡ₚ lab s <$> elements V.
Proof.
  intros <-. assert ((map_to_list s).*2 = lab s <$> (map_to_list s).*1) as ->.
  { rewrite <- list_fmap_compose. apply Forall_fmap_ext, Forall_forall.
    intros [k c] Hk%elem_of_map_to_list. simpl. unfold lab. by rewrite Hk. }
  apply fmap_Permutation, NoDup_Permutation; [apply NoDup_fst_map_to_list|apply NoDup_elements|].
  intros x. rewrite elem_of_elements, list_elem_of_fmap, elem_of_dom. split.
  - intros ([k c] & -> & Hk%elem_of_map_to_list). by exists c.
  - intros [c Hc]. exists (x, c). by rewrite elem_of_map_to_list.
Qed.

Definition total (V : gset Z) (s : state) : Z := sum_Z (lab s <$> elements V).

Section Converge.
Context (sum_f64 : list Z → float).
Context (sum_exact : ∀ l, Forall (fun x => 0 ≤ x) l → sum_Z l < 2 ^ 53 →
  sum_f64 l = Z_as_f64 (sum_Z l)).
Context (V : gset Z) (G : relation Z).

(** Whether the loop ends by its test. *)
Fixpoint converges (n : nat) (E : edge_set) (s : state) (prev : float * nat) : bool :=
  match n with
  | O => false
  | S n =>
      let s' := round E s in
      let chk := checksum sum_f64 s' in
      checksum_eqb chk prev || converges n (contract E s') s' chk
  end.

Lemma checksum_small E s :
  label_inv V G E s → total V s < 2 ^ 53 →
  checksum sum_f64 s = (Z_as_f64 (total V s), size V) ∧ 0 ≤ total V s.
Proof.
  intros [Hd Hpos Hl _ _ _] Hsm.
  assert (∀ x, x ∈ elements V → 0 ≤ lab s x) as H0
    by (intros x Hx%elem_of_elements; apply Hpos, Hl, Hx).
  pose proof (labels_of_state s V Hd) as Hperm. unfold checksum. rewrite sum_exact.
  - rewrite Hperm, <- Hd, size_dom, Hd. split; [done|]. by apply sum_Z_pos.
  - rewrite Hperm, Forall_fmap. by apply Forall_forall.
  - by rewrite Hperm.
Qed.

Lemma SFeqb_small x y :
  0 ≤ x < 2 ^ 53 → 0 ≤ y < 2 ^ 53 → SFeqb (Z_as_f64 x) (Z_as_f64 y) = bool_decide (x = y).
Proof.
  intros Hx Hy. pose proof (Z_as_f64_finite x) as Hfx. pose proof (Z_as_f64_finite y) as Hfy.
  unfold SFeqb. rewrite SFcompare_float_cmp;
    [|intros E; by rewrite E in Hfx|intros E; by rewrite E in Hfy].
  rewrite Z_as_f64_exact_cmp by (unfold small; lia).
  destruct (Z.compare_spec x y); case_bool_decide; done || lia.
Qed.

Lemma round_total E s :
  label_inv V G E s →
  total V (round E s) ≤ total V s
  ∧ (total V (round E s) = total V s → ∀ x, x ∈ V → lab (round E s) x = lab s x).
Proof.
  intros Hinv. destruct (sum_Z_mono (lab (round E s)) (lab s) (elements V)) as [Hle Heq].
  { intros x Hx%elem_of_elements. destruct Hinv. by apply (round_in_V V). }
  split; [done|]. intros Ht x Hx. apply Heq; [done|]. by apply elem_of_elements.
Qed.

(** The test succeeds exactly when the round changed nothing. *)
Lemma checksum_test E s :
  label_inv V G E s → total V s < 2 ^ 53 →
  checksum_eqb (checksum sum_f64 (round E s)) (checksum sum_f64 s)
  = bool_decide (total V (round E s) = total V s).
Proof.
  intros Hinv Hsm. destruct (checksum_small E s Hinv Hsm) as [-> ?].
  pose proof (label_inv_step V G E s Hinv) as Hinv'. destruct (round_total E s Hinv) as [Hle _].
  destruct (checksum_small _ _ Hinv') as [-> ?]; [lia|].
  unfold checksum_eqb. simpl. rewrite SFeqb_small by lia.
  by rewrite (bool_decide_true (size V = size V)), andb_true_r.
Qed.

Lemma rounds_spec n E s :
  label_inv V G E s → total V s < 2 ^ 53 →
  converges n E s (checksum sum_f64 s) = true →
  let r := rounds sum_f64 n E s (checksum sum_f64 s) in
  dom r = V ∧ ∀ x, x ∈ V → component_min G x (lab r x).
Proof.
  revert E s. induction n as [|n IH]; intros E s Hinv Hsm; simpl; [done|].
  rewrite checksum_test by done. destruct (round_total E s Hinv) as [Hle Hfix].
  pose proof (label_inv_step V G E s Hinv) as Hinv'.
  case_bool_decide as Ht; simpl.
  - intros _. split; [apply Hinv'|]. intros x Hx. rewrite Hfix by done.
    apply (fixpoint_correct V G E s); auto.
  - intros Hc. apply IH; [done|lia|done].
Qed.

(** Every round but the last lowers the sum. *)
Lemma converges_enough n E s :
  label_inv V G E s → total V s < 2 ^ 53 → total V s < Z.of_nat n →
  converges n E s (checksum sum_f64 s) = true.
Proof.
  revert E s. induction n as [|n IH]; intros E s Hinv Hsm Hn; simpl.
  { destruct (checksum_small E s Hinv Hsm). lia. }
  rewrite checksum_test by done. destruct (round_total E s Hinv) as [Hle _].
  case_bool_decide as Ht; [done|]. simpl. apply IH; [by apply label_inv_step|lia..].
Qed.
End Converge.

(** ** The whole computation *)

Definition sql_edge (edges : list (Z * Z)) (u v : Z) : Prop := (u, v) ∈ edges.

Lemma lab_state_0 edges x : lab (state_0 edges) x = x.
Proof.
  unfold lab, state_0. destruct (_ !! x) as [c|] eqn:E; [|done].
  apply lookup_set_to_map in E as (y & _ & [= -> ->]); done.
Qed.

Lemma label_inv_start edges :
  (∀ e, e ∈ edges → 0 ≤ e.1 ∧ 0 ≤ e.2) →
  label_inv (endpoint_set edges) (sql_edge edges) (edges_0 edges) (state_0 edges).
Proof.
  intros Hpos.
  assert (∀ x, x ∈ endpoint_set edges ↔ ∃ e, e ∈ edges ∧ (x = e.1 ∨ x = e.2)) as HV.
  { intros x. unfold endpoint_set. rewrite elem_of_union, !elem_of_list_to_set, !list_elem_of_fmap.
    naive_solver. }
  assert (∀ u v, (u, v) ∈ edges_0 edges ↔ u ≠ v ∧ ((u, v) ∈ edges ∨ (v, u) ∈ edges)) as HE.
  { intros u v. unfold edges_0. rewrite elem_of_list_to_set, list_elem_of_filter, elem_of_app,
      list_elem_of_fmap. split.
    - intros [Hne [?|([a b] & [= -> ->] & ?)]]; auto.
    - intros [Hne [?|?]]; (split; [done|]); [by left|right; by exists (v, u)]. }
  split.
  - unfold state_0. apply set_eq. intros x. rewrite elem_of_dom. split.
    + intros [c (y & ? & [= -> ->])%lookup_set_to_map]; done.
    + intros Hx. exists x. by apply lookup_set_to_map; [|exists x].
  - intros x (e & He & [-> | ->])%HV; by apply Hpos.
  - intros x Hx. rewrite lab_state_0. split; [done|lia].
  - intros u v [Hne Huv]%HE. rewrite HE, !HV. split_and!; [| |done|tauto];
      (destruct Huv as [Huv|Huv]; eexists; (split; [exact Huv|]); simpl; auto).
  - intros x y. split; apply rtsc_mono.
    + intros u v Huv. destruct (decide (u = v)) as [->|Hne]; [done|].
      apply rtc_once. left. left. apply HE. auto.
    + intros u v [[_ Huv]%HE| ->]; [|by rewrite lab_state_0].
      destruct Huv; apply rtc_once; [by left|by right].
  - intros x y _. by rewrite lab_state_0.
Qed.

(** C29: When the labels add up to less than 2^53, so that the sums of doubles are exact, the
    loop that ends by its convergence test has labelled every endpoint with the smallest id
    of its component; it does end so within one round more than the sum of the ids. *)
Theorem label_components_correct sum_f64 edges n :
  (∀ l, Forall (fun x => 0 ≤ x) l → sum_Z l < 2 ^ 53 → sum_f64 l = Z_as_f64 (sum_Z l)) →
  (∀ e, e ∈ edges → 0 ≤ e.1 ∧ 0 ≤ e.2) → sum_Z (elements (endpoint_set edges)) < 2 ^ 53 →
  let s0 := state_0 edges in
  (converges sum_f64 n (edges_0 edges) s0 (checksum sum_f64 s0) = true →
   let r := compute_connected_components sum_f64 edges n in
   dom r = endpoint_set edges
   ∧ ∀ x c, r !! x = Some c → component_min (sql_edge edges) x c)
  ∧ (sum_Z (elements (endpoint_set edges)) < Z.of_nat n →
     converges sum_f64 n (edges_0 edges) s0 (checksum sum_f64 s0) = true).
Proof.
  intros Hsum Hpos Hsm s0. pose proof (label_inv_start edges Hpos) as Hinv.
  assert (total (endpoint_set edges) s0 = sum_Z (elements (endpoint_set edges))) as Ht.
  { unfold total. f_equal. rewrite <- list_fmap_id. apply list_fmap_ext.
    intros i x _. apply lab_state_0. }
  assert (total (endpoint_set edges) (state_0 edges) < 2 ^ 53) as Hsm' by (fold s0; lia).
  split.
  - intros Hc. destruct (rounds_spec sum_f64 Hsum _ _ n _ _ Hinv Hsm' Hc) as [Hd Hmin].
    split; [done|]. intros x c Hx.
    assert (x ∈ endpoint_set edges) as Hx' by (rewrite <- Hd; by eapply elem_of_dom_2).
    specialize (Hmin x Hx').
    unfold lab in Hmin. unfold compute_connected_components in Hx. by rewrite Hx in Hmin.
  - intros Hn. eapply converges_enough; [done|exact Hinv|done|]. fold s0. lia.
Qed.

Module LabelExamples.

(** A sum that is rounded once, at the end. *)
Definition sum_once (l : list Z) : float := Z_as_f64 (sum_Z l).

Definition small_edges : list (Z * Z) := [(4, 3); (3, 9); (7, 8); (8, 12)].

Lemma label_components_correct_witness :
  component_min (sql_edge small_edges) 12 7.
Proof.
  destruct (label_components_correct sum_once small_edges 5) as [Hc _];
    [done| |vm_compute; reflexivity|].
  - intros e He. repeat (apply elem_of_cons in He as [->|He]; [simpl; lia|]).
    by apply not_elem_of_nil in He.
  - destruct Hc as [_ Hmin]; [vm_compute; reflexivity|].
    apply Hmin. vm_compute. reflexivity.
Defined.

(** Seven nodes in a line. *)
Definition big : Z := 2 ^ 60.
Definition big_path : list (Z * Z) :=
  (fun i => (big + Z.of_nat i, big + Z.of_nat (S i))) <$> seq 0 6.

(** Ids near 2^60: seven nodes in a line need two rounds, but the first round changes the
    sum by less than the spacing of doubles there, so the loop stops after it.  The last node
    keeps a label that is not the smallest of its component, with any number of iterations
    allowed. *)
Theorem big_ids_stop_too_early n :
  compute_connected_components sum_once big_path (S n) !! (big + 6) = Some (big + 2)
  ∧ rtsc (sql_edge big_path) (big + 6) big.
Proof.
  split.
  - unfold compute_connected_components. cbn [rounds].
    assert (checksum_eqb (checksum sum_once (round (edges_0 big_path) (state_0 big_path)))
      (checksum sum_once (state_0 big_path)) = true) as -> by (vm_compute; reflexivity).
    vm_compute. reflexivity.
  - assert (∀ k, (k ≤ 6)%nat → rtsc (sql_edge big_path) (big + Z.of_nat k) big) as Hk;
      [|by apply (Hk 6%nat)].
    induction k as [|k IH]; intros Hk; [by rewrite Z.add_0_r|].
    eapply rtc_l; [right|apply IH; lia]. unfold sql_edge, big_path.
    apply list_elem_of_fmap. exists k. rewrite elem_of_seq. split; [done|lia].
Qed.

End LabelExamples.
