(* ===== verification/ShortestPath.v ===== *)
(** * Breadth-first shortest paths

    [Table::shortest_path_with_columns] ([src/src/core/table/graph.rs]: over graph indexes
    or over the scanned rows, with limits on nodes and degrees) and the aggregate function
    [graph_shortest_path] ([src/src/core/sql/graph_udf/shortest_path.rs]).  The edge relation
    is given by a neighbor function; the fuel of the loops is one more than the number of
    nodes that can be discovered. *)

From S2P Require Import Prelude Graph CsrGraph UnionFind.
From stdpp Require Import functions relations.

Open Scope Z_scope.

(** ** Walks *)

Section Walks.
Context (nbrs : Z → list Z).

Inductive walk : nat → Z → Z → Prop :=
| walk_nil x : walk 0 x x
| walk_snoc n x y z : walk n x y → z ∈ nbrs y → walk (S n) x z.

(** [d] is the length of the shortest walk. *)
Definition distance (d : nat) (x y : Z) : Prop := walk d x y ∧ ∀ n, walk n x y → (d ≤ n)%nat.

(** Consecutive nodes of the list are joined by edges. *)
Inductive is_path : list Z → Prop :=
| path_one x : is_path [x]
| path_cons x y l : y ∈ nbrs x → is_path (y :: l) → is_path (x :: y :: l).

(** A shortest path from [x] to [y]. *)
Definition shortest (l : list Z) (x y : Z) : Prop :=
  is_path l ∧ head l = Some x ∧ head (reverse l) = Some y
  ∧ ∀ n, walk n x y → (length l ≤ S n)%nat.

End Walks.

(** ** The search over a table *)

(** One neighbor: [Entry::Vacant] inserts its predecessor and enqueues it. *)
Definition discover (current : Z) (s : gmap Z Z * list Z) (n : Z) : gmap Z Z * list Z :=
  match s.1 !! n with
  | Some _ => s
  | None => (<[n := current]> s.1, s.2 ++ [n])
  end.

Inductive bfs_result := Found (visited : gmap Z Z) | Exhausted | Aborted.

(** The loop; [limit] is [MAX_SHORTEST_PATH_NODES].  [None]: the fuel is used up. *)
Fixpoint bfs (nbrs : Z → list Z) (limit : option nat) (target : Z) (fuel : nat)
    (visited : gmap Z Z) (queue : list Z) : option bfs_result :=
  match queue with
  | [] => Some Exhausted
  | current :: queue =>
      match fuel with
      | O => None
      | S fuel =>
          if decide (current = target) then Some (Found visited)
          else if match limit with Some l => bool_decide (l ≤ size visited)%nat | None => false end
          then Some Aborted
          else
            let '(visited, queue) := foldl (discover current) (visited, queue) (nbrs current) in
            bfs nbrs limit target fuel visited queue
      end
  end.

(** [while curr != start { path.push(curr); curr = visited[&curr] }]: what is pushed. *)
Fixpoint trace (visited : gmap Z Z) (start : Z) (fuel : nat) (curr : Z) : option (list Z) :=
  if decide (curr = start) then Some [] else
  match fuel with
  | O => None
  | S fuel => prev ← visited !! curr; rest ← trace visited start fuel prev; Some (curr :: rest)
  end.

(** [fuel] iterations of the search; a predecessor chain is no longer than the map. *)
Definition search (nbrs : Z → list Z) (limit : option nat) (fuel : nat) (start target : Z)
  : option (list Z) :=
  if decide (start = target) then Some [start] else
  r ← bfs nbrs limit target fuel {[start := start]} [start];
  match r with
  | Found visited =>
      path ← trace visited start (size visited) target;
      Some (reverse (path ++ [start]))
  | Exhausted | Aborted => Some []
  end.

Definition MAX_SHORTEST_PATH_NODES : nat := Z.to_nat 100000.
Definition MAX_BFS_DEGREE : nat := Z.to_nat 10000.

(** The search over graph indexes. *)
Definition csr_nbrs (forward : MultiSegmentCsrGraph) (reverse : option MultiSegmentCsrGraph)
    (current : Z) : list Z :=
  take MAX_BFS_DEGREE (get_neighbors forward current)
  ++ match reverse with
     | Some rev => take MAX_BFS_DEGREE (get_neighbors rev current)
     | None => []
     end.
Definition csr_fuel (forward : MultiSegmentCsrGraph) (reverse : option MultiSegmentCsrGraph) : nat :=
  2 + num_edges forward + match reverse with Some rev => num_edges rev | None => 0 end.
Definition shortest_path_csr (forward : MultiSegmentCsrGraph)
    (reverse : option MultiSegmentCsrGraph) (start target : Z) : option (list Z) :=
  search (csr_nbrs forward reverse) (Some MAX_SHORTEST_PATH_NODES) (csr_fuel forward reverse)
    start target.

(** The search over the scanned rows. *)
Definition scan_adjacency (rows : list (Z * Z)) (directed : bool) : gmap Z (list Z) :=
  foldl (fun adj e =>
    let adj := push_edge adj e in
    if directed then adj else push_edge adj (e.2, e.1)) ∅ rows.
Definition shortest_path_scan (rows : list (Z * Z)) (directed : bool) (start target : Z)
  : option (list Z) :=
  let adj := scan_adjacency rows directed in
  search (fun current => take MAX_BFS_DEGREE (default [] (adj !! current)))
    (Some MAX_SHORTEST_PATH_NODES) (2 + 2 * length rows) start target.

(** [forward] and [reverse] are the loaded graph indexes, [rows] what the scan reads. *)
Definition shortest_path_with_columns (forward reverse : option MultiSegmentCsrGraph)
    (rows : list (Z * Z)) (directed : bool) (start target : Z) : option (list Z) :=
  if decide (start = target) then Some [start] else
  match forward with
  | Some forward =>
      let reverse := if directed then None else reverse in
      if directed || bool_decide (is_Some reverse)
      then shortest_path_csr forward reverse start target
      else shortest_path_scan rows directed start target
  | None => shortest_path_scan rows directed start target
  end.

(** ** The aggregate function *)

(** [if visited.insert(n) { prev.insert(n, curr); q.push_back(n) }] *)
Definition udaf_discover (curr : Z) (s : gset Z * gmap Z Z * list Z) (n : Z)
  : gset Z * gmap Z Z * list Z :=
  let '(visited, prev, q) := s in
  if decide (n ∈ visited) then s else ({[n]} ∪ visited, <[n := curr]> prev, q ++ [n]).

Fixpoint udaf_bfs {G} `{!GraphView G} (graph : G) (target : Z) (fuel : nat)
    (visited : gset Z) (prev : gmap Z Z) (q : list Z) : option (option (gmap Z Z)) :=
  match q with
  | [] => Some None
  | curr :: q =>
      match fuel with
      | O => None
      | S fuel =>
          if decide (curr = target) then Some (Some prev)
          else
            let neighbors := get_neighbors_into graph curr [] in
            let '(visited, prev, q) := foldl (udaf_discover curr) (visited, prev, q) neighbors in
            udaf_bfs graph target fuel visited prev q
      end
  end.

(** The predecessor chain; a missing predecessor is the error the code reports. *)
Fixpoint udaf_trace (prev : gmap Z Z) (start : Z) (fuel : nat) (curr : Z)
  : option (result string (list Z)) :=
  if decide (curr = start) then Some (Ok []) else
  match fuel with
  | O => None
  | S fuel =>
      match prev !! curr with
      | Some p =>
          r ← udaf_trace prev start fuel p;
          Some (match r with Ok path => Ok (p :: path) | Err e => Err e end)
      | None => Some (Err "shortest_path: broken predecessor chain")
      end
  end.

(** [evaluate] with both arguments given: [Ok None] is the null list. *)
Definition udaf_shortest_path {G} `{!GraphView G} (graph : G) (start target : Z)
  : option (result string (option (list Z))) :=
  if decide (start = target) then Some (Ok (Some [start])) else
  r ← udaf_bfs graph target (2 + num_edges graph) {[start]} ∅ [start];
  match r with
  | Some prev =>
      path ← udaf_trace prev start (size prev) target;
      Some (match path with Ok l => Ok (Some (reverse (target :: l))) | Err e => Err e end)
  | None => Some (Ok None)
  end.

(** ** Correctness of the search *)

Section Correct.
Context (nbrs : Z → list Z) (start : Z).

Abbreviation dist := (fun d x => distance nbrs d start x).

Lemma distance_fun d e x : dist d x → dist e x → d = e.
Proof. intros [H1 H2] [H3 H4]. specialize (H2 _ H3). specialize (H4 _ H1). lia. Qed.

(** The predecessors as a forest with root [start]. *)
Definition pred (v : gmap Z Z) (x : Z) : Z := default x (v !! x).

(** What holds of every map of predecessors. *)
Record preds_ok (v : gmap Z Z) : Prop := {
  po_start : v !! start = Some start;
  po_depth : ∀ x, x ∈ dom v → ∃ d, root_at (pred v) d x start ∧ dist d x;
  po_edge : ∀ x y, v !! x = Some y → x ≠ start → x ∈ nbrs y
}.

(** The queue holds discovered nodes of two consecutive distances, nearest first. *)
Definition levels (q : list Z) (k : nat) : Prop :=
  ∃ q1 q2, q = q1 ++ q2 ∧ Forall (dist k) q1 ∧ Forall (dist (S k)) q2.

Definition explored (v : gmap Z Z) (x : Z) : Prop := ∀ z, z ∈ nbrs x → z ∈ dom v.

(** Nodes up to the distance of the head of the queue are discovered. *)
Lemma near_discovered v q k :
  preds_ok v → levels q k → (∀ x, x ∈ dom v → x ∉ q → explored v x) →
  ∀ m x, walk nbrs m start x → (m ≤ k)%nat → x ∈ dom v.
Proof.
  intros Hok (q1 & q2 & -> & H1 & H2) Hex m x Hw. remember start as st eqn:Est.
  induction Hw as [x|m x y z Hw IH Hz]; intros Hm; subst.
  { eapply elem_of_dom_2, po_start, Hok. }
  assert (y ∈ dom v) as Hy by (apply IH; [done..|lia]).
  apply (Hex y); [done| |done]. destruct (po_depth v Hok y Hy) as (d & _ & Hd).
  assert (d ≤ m)%nat by by apply Hd. rewrite Forall_forall in H1, H2.
  intros [Hq|Hq]%elem_of_app;
    [specialize (H1 y Hq)|specialize (H2 y Hq)].
  - assert (k = d) by by eapply distance_fun. lia.
  - assert (S k = d) by by eapply distance_fun. lia.
Qed.

Lemma root_at_insert {A} `{EqDecision A} (p : A → A) m x s b a :
  p b = b → s ≠ b → root_at p m x s → root_at (<[b := a]> p) m x s.
Proof.
  intros Hb Hs. induction 1 as [r Hr|n x r Hp Hx IH].
  - constructor. by rewrite fn_lookup_insert_ne.
  - assert (b ≠ x) by by intros ->. constructor; rewrite fn_lookup_insert_ne by done; auto.
Qed.

(** Discovering one new node at the next distance. *)
Lemma preds_ok_insert v k c n :
  preds_ok v → c ∈ dom v → dist k c → n ∈ nbrs c → n ∉ dom v → dist (S k) n →
  preds_ok (<[n := c]> v).
Proof.
  intros [Hs Hd He] Hc Hkc Hn Hnew Hdn.
  assert (n ≠ start) as Hns by (intros ->; by apply Hnew; eapply elem_of_dom_2).
  assert (∀ y, (<[n := c]> (pred v)) y = pred (<[n := c]> v) y) as Hext.
  { intros y. unfold pred. destruct (decide (n = y)) as [->|Hne].
    - by rewrite fn_lookup_insert, lookup_insert_eq.
    - by rewrite fn_lookup_insert_ne, lookup_insert_ne. }
  assert (pred v n = n) as Hpn by (unfold pred; by rewrite (proj1 (not_elem_of_dom _ _) Hnew)).
  assert (∀ m x, root_at (pred v) m x start → root_at (pred (<[n := c]> v)) m x start) as Hmono.
  { intros m x Hx. eapply root_at_ext; [exact Hext|]. by apply root_at_insert. }
  split.
  - by rewrite lookup_insert_ne.
  - intros x. rewrite dom_insert_L. intros [->%elem_of_singleton|Hx]%elem_of_union.
    + exists (S k). split; [|done]. destruct (Hd c Hc) as (d & Hrd & Hdd).
      rewrite (distance_fun _ _ _ Hdd Hkc) in Hrd.
      assert (pred (<[n := c]> v) n = c) as Hp by (unfold pred; by rewrite lookup_insert_eq).
      constructor; rewrite Hp; [by intros ->|by apply Hmono].
    + destruct (Hd x Hx) as (d & ? & ?). exists d. auto.
  - intros x y [[<- <-]|[_ Hxy]]%lookup_insert_Some; [done|by apply He].
Qed.

(** The inner loop over the neighbors of [c], with [done] those already looked at. *)
Lemma discover_all v k c ns q1 q2 :
  preds_ok v → c ∈ dom v → dist k c → (∀ n, n ∈ ns → n ∈ nbrs c) →
  Forall (dist k) q1 → Forall (dist (S k)) q2 →
  (∀ m x, walk nbrs m start x → (m ≤ k)%nat → x ∈ dom v) →
  (∀ x, x ∈ q1 ++ q2 → x ∈ dom v) →
  let '(v', q') := foldl (discover c) (v, q1 ++ q2) ns in
  preds_ok v' ∧ levels q' k ∧ dom v ⊆ dom v' ∧ (∀ x, x ∈ q' → x ∈ dom v')
  ∧ (∀ n, n ∈ ns → n ∈ dom v')
  ∧ (∀ x, x ∈ dom v' → x ∈ dom v ∨ x ∈ q' ∧ x ∈ ns)
  ∧ (∀ x, x ∈ q1 ++ q2 → x ∈ q')
  ∧ (size v' + length (q1 ++ q2) = size v + length q')%nat.
Proof.
  intros Hok Hc Hkc Hns H1 H2 Hnear Hq. revert v q2 Hok Hc H2 Hnear Hq.
  induction ns as [|n ns IH]; intros v q2 Hok Hc H2 Hnear Hq; simpl.
  { split_and!; [done|by exists q1, q2|done|done|set_solver|auto|done|done]. }
  unfold discover at 2. simpl. destruct (v !! n) as [y|] eqn:E.
  - specialize (IH ltac:(set_solver) v q2 Hok Hc H2 Hnear Hq).
    destruct (foldl _ _ _) as [v' q']. destruct IH as (? & ? & Hsub & ? & Hall & Hnew & ? & ?).
    apply elem_of_dom_2 in E. split_and!; [done|done|done|done|set_solver| |done|done].
    intros x Hx. destruct (Hnew x Hx) as [?|[??]]; [by left|right; split; set_solver].
  - apply not_elem_of_dom in E.
    assert (dist (S k) n) as Hdn.
    { split; [eapply walk_snoc; [apply Hkc|apply Hns; left]|]. intros m Hm.
      destruct (decide (S k ≤ m)%nat); [done|]. destruct E. eapply Hnear; [exact Hm|lia]. }
    assert (preds_ok (<[n := c]> v)) as Hok'
      by (apply (preds_ok_insert v k); try done; apply Hns; left).
    specialize (IH ltac:(set_solver) (<[n := c]> v) (q2 ++ [n]) Hok').
    rewrite (assoc_L (++)) in IH.
    destruct (foldl _ _ _) as [v' q'].
    destruct IH as (? & ? & Hsub & ? & Hall & Hnew & Hkeep & Hsize).
    + set_solver.
    + apply Forall_app. by split; [|constructor].
    + intros m x Hm Hle. rewrite dom_insert_L. specialize (Hnear m x Hm Hle). set_solver.
    + intros x. rewrite dom_insert_L. set_solver.
    + rewrite dom_insert_L in Hsub, Hnew. split_and!; [done|done|set_solver|done| | | |].
      * intros x [->|?]%elem_of_cons; [set_solver|auto].
      * intros x Hx. destruct (Hnew x Hx) as [[->%elem_of_singleton|?]%elem_of_union|[??]];
          [|by left|right; split; set_solver]. right. split; [apply Hkeep; set_solver|left].
      * intros x Hx. apply Hkeep. set_solver.
      * rewrite map_size_insert_None in Hsize by by apply not_elem_of_dom.
        rewrite !length_app in *. simpl in *. lia.
Qed.

Section Search.
Context (limit : option nat) (target : Z) (U : gset Z).
Context (HU : start ∈ U) (HUn : ∀ x z, x ∈ U → z ∈ nbrs x → z ∈ U).

(** The loop invariant: what is discovered and not queued is explored, and the target has
    not been taken from the queue. *)
Definition bfs_inv (v : gmap Z Z) (q : list Z) : Prop :=
  preds_ok v ∧ (∃ k, levels q k) ∧ (∀ x, x ∈ q → x ∈ dom v) ∧ dom v ⊆ U
  ∧ (∀ x, x ∈ dom v → x ∉ q → explored v x) ∧ (target ∈ dom v → target ∈ q).

Lemma levels_head c q k : levels (c :: q) k → ∃ k', dist k' c ∧ levels (c :: q) k'
  ∧ ∃ q1 q2, q = q1 ++ q2 ∧ Forall (dist k') q1 ∧ Forall (dist (S k')) q2.
Proof.
  intros ([|c' q1] & q2 & Heq & H1 & H2); simplify_eq/=.
  - inversion_clear H2 as [|?? Hc Hq]. exists (S k). split; [done|]. split.
    + exists (c :: q), []. rewrite app_nil_r. split_and!; [done|by constructor|constructor].
    + exists q, []. rewrite app_nil_r. split_and!; [done|done|constructor].
  - inversion_clear H1 as [|?? Hc Hq]. exists k. split; [done|]. split.
    + exists (c' :: q1), q2. split_and!; [done|by constructor|done].
    + by exists q1, q2.
Qed.

Lemma bfs_inv_step v c q :
  bfs_inv v (c :: q) → c ≠ target →
  let '(v', q') := foldl (discover c) (v, q) (nbrs c) in
  bfs_inv v' q' ∧ (size v' + length q = size v + length q')%nat.
Proof.
  intros (Hok & (k0 & Hlev) & Hq & HvU & Hex & Ht) Hct.
  destruct (levels_head c q k0 Hlev) as (k & Hkc & Hlev' & q1 & q2 & -> & H1 & H2).
  assert (c ∈ dom v) as Hc by (apply Hq; left).
  pose proof (discover_all v k c (nbrs c) q1 q2 Hok Hc Hkc ltac:(done) H1 H2
    (near_discovered v _ k Hok Hlev' Hex)) as Hdisc.
  destruct (foldl _ _ _) as [v' q'].
  destruct Hdisc as (Hok' & Hl & Hsub & Hq' & Hall & Hnew & Hkeep & Hsize); [set_solver|].
  split; [|done]. split_and!; [done|by exists k|done| | |].
  - intros x Hx. destruct (Hnew x Hx) as [?|[_ Hxc]]; [by apply HvU|].
    eapply HUn; [|exact Hxc]. by apply HvU.
  - intros x Hx Hxq z Hz. destruct (Hnew x Hx) as [Hxv|[? _]]; [|done].
    destruct (decide (x = c)) as [->|Hxc]; [by apply Hall|].
    apply Hsub, (Hex x Hxv); [|done]. intros [?|Hin]%elem_of_cons; [done|]. by apply Hxq, Hkeep.
  - intros Htv. destruct (Hnew _ Htv) as [Hv|[? _]]; [|done].
    apply Hkeep. specialize (Ht Hv). set_solver.
Qed.

(** With an empty queue everything reachable is discovered, and the target is not. *)
Lemma bfs_exhausted v : bfs_inv v [] → ∀ n, ¬ walk nbrs n start target.
Proof.
  intros (Hok & _ & _ & _ & Hex & Ht) n Hw.
  assert (∀ x, walk nbrs n start x → x ∈ dom v) as Hall.
  { clear Hw. intros x Hw. remember start as st eqn:Est.
    induction Hw as [|n x y z Hw IH Hz]; subst; [eapply elem_of_dom_2, po_start, Hok|].
    apply (Hex y); [by apply IH|set_solver|done]. }
  specialize (Ht (Hall _ Hw)). by apply not_elem_of_nil in Ht.
Qed.

Lemma bfs_spec fuel v q :
  bfs_inv v q → (length q + size U ≤ fuel + size v)%nat →
  match bfs nbrs limit target fuel v q with
  | Some (Found v') => preds_ok v' ∧ target ∈ dom v'
  | Some Exhausted => ∀ n, ¬ walk nbrs n start target
  | Some Aborted => ∃ l, limit = Some l ∧ (l ≤ size U)%nat
  | None => False
  end.
Proof.
  revert v q. induction fuel as [|fuel IH]; intros v q Hinv Hf;
    assert (size v ≤ size U)%nat as HvU
      by (rewrite <- size_dom; apply subseteq_size, Hinv);
    (destruct q as [|c q]; simpl in *; [by eapply bfs_exhausted|]).
  { lia. }
  case_decide as Hct; [subst; split; [apply Hinv|]; apply Hinv; left|].
  destruct limit as [l|] eqn:El; [case_bool_decide as Hl; [exists l; split; [done|lia]|]|];
    (pose proof (bfs_inv_step v c q Hinv Hct) as Hstep;
     destruct (foldl _ _ _) as [v' q']; destruct Hstep as [Hinv' Hsize];
     apply IH; [done|lia]).
Qed.
End Search.

(** The predecessor chain of a discovered node is a shortest path. *)
Lemma trace_spec v d x fuel :
  preds_ok v → root_at (pred v) d x start → (d ≤ fuel)%nat →
  ∃ path, trace v start fuel x = Some path ∧ length path = d
    ∧ is_path nbrs (reverse (path ++ [start])) ∧ head (path ++ [start]) = Some x.
Proof.
  intros Hok Hx. remember start as st eqn:Est. revert fuel.
  induction Hx as [r Hr|d x r Hp Hx IH]; intros fuel Hf; subst r.
  { exists []. destruct fuel; simpl; rewrite decide_True by done;
      (split_and!; [done|done|constructor|done]). }
  destruct fuel as [|fuel]; [lia|]. assert (x ≠ start) as Hxs.
  { intros ->. apply Hp. unfold pred. by rewrite (po_start v Hok). }
  simpl. rewrite decide_False by done.
  destruct (v !! x) as [y|] eqn:E; [|unfold pred in Hp; by rewrite E in Hp]. simpl.
  assert (pred v x = y) as Hy by (unfold pred; by rewrite E). rewrite Hy in *.
  destruct (IH eq_refl fuel ltac:(lia)) as (path & -> & Hlen & Hpath & Hhead).
  exists (x :: path). simpl. split_and!; [done|lia| |done].
  rewrite reverse_cons. destruct (path ++ [start]) as [|y' l] eqn:El; [done|].
  simpl in Hhead. injection Hhead as ->. rewrite reverse_cons in *. clear -Hpath E Hok Hxs.
  pose proof (po_edge v Hok x y E Hxs) as Hedge. generalize (reverse l) Hpath.
  intros m. induction m as [|a m IH]; simpl; intros Hm.
  - constructor; [done|constructor].
  - destruct m as [|b m]; simpl in *; inversion Hm; subst; constructor; auto.
Qed.
End Correct.

Lemma start_preds nbrs start : preds_ok nbrs start {[start := start]}.
Proof.
  split.
  - by rewrite lookup_singleton_eq.
  - intros x. rewrite dom_singleton_L. intros ->%elem_of_singleton. exists 0%nat.
    split; [constructor; unfold pred; by rewrite lookup_singleton_eq|].
    split; [constructor|]. intros n _. lia.
  - intros x y [<- <-]%lookup_singleton_Some. done.
Qed.

Lemma bfs_inv_start nbrs start target U :
  start ∈ U → bfs_inv nbrs start target U {[start := start]} [start].
Proof.
  intros HU. split_and!; [apply start_preds| | | | |].
  - exists 0%nat, [start], []. split_and!; [done| |constructor]. repeat constructor.
    intros n _. lia.
  - intros x ->%list_elem_of_singleton. set_solver.
  - set_solver.
  - set_solver.
  - set_solver.
Qed.

(** What a search over the edge relation [nbrs] has to return. *)
Definition search_spec (nbrs : Z → list Z) (start target : Z) (l : list Z) : Prop :=
  (l ≠ [] → shortest nbrs l start target) ∧ (l = [] → ∀ n, ¬ walk nbrs n start target).

Lemma search_spec_refl nbrs x : search_spec nbrs x x [x].
Proof.
  split; [|done]. intros _. split_and!; [constructor|done|done|]. intros n _. simpl. lia.
Qed.

Lemma found_shortest nbrs start target v fuel :
  preds_ok nbrs start v → target ∈ dom v → (size (delete start v) ≤ fuel)%nat →
  ∃ path, trace v start fuel target = Some path
    ∧ shortest nbrs (reverse (path ++ [start])) start target.
Proof.
  intros Hok Ht Hf. destruct (po_depth nbrs start v Hok target Ht) as (d & Hr & Hd).
  assert (d ≤ size (delete start v))%nat as Hb.
  { rewrite <- size_dom. unfold size, set_size. simpl. eapply root_at_bound; [|exact Hr].
    intros y Hy. apply elem_of_elements, elem_of_dom. unfold pred in Hy.
    rewrite lookup_delete_ne; [by destruct (v !! y)|].
    intros <-. by rewrite (po_start _ _ _ Hok) in Hy. }
  destruct (trace_spec nbrs start v d target fuel Hok Hr) as (path & Htr & Hlen & Hp & Hh);
    [lia|]. exists path. split; [done|]. split_and!; [done| | |].
  - by rewrite reverse_app.
  - by rewrite reverse_involutive.
  - intros n Hn. rewrite length_reverse, length_app, Hlen. simpl.
    destruct Hd as [_ Hmin]. specialize (Hmin n Hn). lia.
Qed.

(** Enough fuel, and a universe smaller than the limit, make the search complete. *)
Lemma search_correct nbrs limit start target (U : gset Z) fuel :
  start ∈ U → (∀ x z, x ∈ U → z ∈ nbrs x → z ∈ U) → (size U ≤ fuel)%nat →
  (∀ l, limit = Some l → (size U < l)%nat) →
  ∃ l, search nbrs limit fuel start target = Some l ∧ search_spec nbrs start target l.
Proof.
  intros HU HUn Hf Hlim. unfold search. case_decide as Heq.
  { subst target. exists [start]. split; [done|]. split; [|done]. intros _.
    split_and!; [constructor|done|done|]. intros n _. simpl. lia. }
  pose proof (bfs_spec nbrs start limit target U HU HUn fuel {[start := start]} [start]
    (bfs_inv_start nbrs start target U HU)) as Hb.
  destruct (bfs _ _ _ _ _ _) as [[v| |]|];
    [|..|by destruct Hb; rewrite map_size_singleton; simpl; lia].
  - destruct Hb as [Hok Ht]; [rewrite map_size_singleton; simpl; lia|].
    destruct (found_shortest nbrs start target v (size v) Hok Ht) as (path & Htr & Hs).
    { rewrite <- !size_dom. apply subseteq_size. set_solver. }
    cbn [mbind option_bind]. rewrite Htr. simpl. eexists. split; [done|].
    split; [done|]. intros E. destruct Hs as (_ & Hh & _). by rewrite E in Hh.
  - exists []. split; [done|]. split; [done|]. intros _. apply Hb.
    rewrite map_size_singleton; simpl; lia.
  - destruct Hb as (l & Hl & Hle); [rewrite map_size_singleton; simpl; lia|].
    specialize (Hlim l Hl). lia.
Qed.

Lemma walk_ext nbrs nbrs' n x y :
  (∀ u v, v ∈ nbrs u → v ∈ nbrs' u) → walk nbrs n x y → walk nbrs' n x y.
Proof. intros Hsub. induction 1; econstructor; eauto. Qed.

(** Only the edges matter, not the order of the neighbors. *)
Lemma search_spec_ext nbrs nbrs' start target l :
  (∀ u v, v ∈ nbrs u ↔ v ∈ nbrs' u) →
  search_spec nbrs start target l → search_spec nbrs' start target l.
Proof.
  intros Heq [H1 H2]. split.
  - intros Hl. destruct (H1 Hl) as (Hp & Hh & Hlast & Hmin). split_and!; [|done|done|].
    + clear -Hp Heq. induction Hp; constructor; [by apply Heq|done].
    + intros n Hn. apply Hmin. eapply walk_ext; [|exact Hn]. intros u v. by apply Heq.
  - intros Hl n Hn. apply (H2 Hl n). eapply walk_ext; [|exact Hn]. intros u v. by apply Heq.
Qed.

Lemma size_list_to_set_le (l : list Z) : (size (list_to_set l : gset Z) ≤ length l)%nat.
Proof.
  unfold size, set_size. simpl. apply submseteq_length, NoDup_submseteq; [apply NoDup_elements|].
  intros x. by rewrite elem_of_elements, elem_of_list_to_set.
Qed.

Lemma size_union_le (X Y : gset Z) : (size (X ∪ Y) ≤ size X + size Y)%nat.
Proof.
  rewrite size_union_alt. apply Nat.add_le_mono_l, subseteq_size. set_solver.
Qed.

(** The nodes a graph view can lead to. *)
Definition targets {G} `{!GraphView G} (g : G) : gset Z := list_to_set (all_edges g).*2.

Lemma targets_spec {G} `{GraphViewLaws G} (g : G) :
  gv_wf g → (∀ x z, z ∈ get_neighbors g x → z ∈ targets g) ∧ (size (targets g) ≤ num_edges g)%nat.
Proof.
  intros Hwf. unfold targets. split.
  - intros x z Hz. apply elem_of_list_to_set, list_elem_of_fmap. exists (x, z).
    by rewrite elem_of_all_edges.
  - rewrite <- length_all_edges by done.
    rewrite <- (length_fmap snd (all_edges g)). apply size_list_to_set_le.
Qed.

Definition rev_neighbors (reverse : option MultiSegmentCsrGraph) (x : Z) : list Z :=
  match reverse with Some rev => get_neighbors rev x | None => [] end.
Definition rev_edges (reverse : option MultiSegmentCsrGraph) : nat :=
  match reverse with Some rev => num_edges rev | None => 0 end.

(** Over graph indexes within the limits, the search returns a shortest path of forward
    and reverse edges, or the empty list exactly when the target is unreachable; it never
    panics and always ends. *)
Theorem shortest_path_csr_correct forward reverse start target :
  gv_wf forward → (∀ rev, reverse = Some rev → gv_wf rev) →
  (∀ x, (length (get_neighbors forward x) ≤ MAX_BFS_DEGREE)%nat
      ∧ (length (rev_neighbors reverse x) ≤ MAX_BFS_DEGREE)%nat) →
  (1 + num_edges forward + rev_edges reverse < MAX_SHORTEST_PATH_NODES)%nat →
  ∃ l, shortest_path_csr forward reverse start target = Some l
    ∧ search_spec (fun x => get_neighbors forward x ++ rev_neighbors reverse x) start target l.
Proof.
  intros Hf Hr Hdeg Hsize.
  assert (∀ x, csr_nbrs forward reverse x = get_neighbors forward x ++ rev_neighbors reverse x)
    as Hnbrs.
  { intros x. unfold csr_nbrs. destruct (Hdeg x) as [H1 H2].
    rewrite (take_ge (get_neighbors forward x)) by done. f_equal.
    unfold rev_neighbors in *. destruct reverse; [|done]. by rewrite take_ge. }
  set (U := {[start]} ∪ targets forward ∪
    match reverse with Some rev => targets rev | None => ∅ end : gset Z).
  destruct (targets_spec forward Hf) as [Htf Hsf].
  assert (∀ x z, z ∈ rev_neighbors reverse x → z ∈ U) as Htr.
  { intros x z Hz. unfold U, rev_neighbors in *.
    destruct reverse as [rev|]; [|by apply not_elem_of_nil in Hz].
    destruct (targets_spec rev (Hr _ eq_refl)) as [Ht _]. apply elem_of_union_r. by eapply Ht. }
  assert (size U ≤ 1 + num_edges forward + rev_edges reverse)%nat as HU.
  { unfold U. etrans; [apply size_union_le|]. apply Nat.add_le_mono.
    - etrans; [apply size_union_le|]. rewrite size_singleton. by apply Nat.add_le_mono_l.
    - unfold rev_edges. destruct reverse as [rev|]; [|by rewrite size_empty].
      by destruct (targets_spec rev (Hr _ eq_refl)). }
  destruct (search_correct (csr_nbrs forward reverse) (Some MAX_SHORTEST_PATH_NODES) start target
    U (csr_fuel forward reverse)) as (l & Hl & Hspec).
  - by apply elem_of_union_l, elem_of_union_l, elem_of_singleton.
  - intros x z _. rewrite Hnbrs, elem_of_app. intros [Hz|Hz]; [|by eapply Htr].
    apply elem_of_union_l, elem_of_union_r. by eapply Htf.
  - unfold csr_fuel. fold (rev_edges reverse). lia.
  - intros lim [= <-]. lia.
  - exists l. split; [done|]. eapply search_spec_ext; [|exact Hspec].
    intros u v. by rewrite Hnbrs.
Qed.

(** The rows of a scan as edges. *)
Definition row_edge (rows : list (Z * Z)) (directed : bool) (u v : Z) : Prop :=
  (u, v) ∈ rows ∨ (directed = false ∧ (v, u) ∈ rows).

Lemma scan_adjacency_pushes rows directed :
  scan_adjacency rows directed
  = foldl push_edge ∅ (if directed then rows else rows ≫= fun e => [e; (e.2, e.1)]).
Proof.
  unfold scan_adjacency. generalize (∅ : gmap Z (list Z)).
  induction rows as [|e rows IH]; intros adj; [by destruct directed|].
  destruct directed; csimpl; apply IH.
Qed.

Lemma scan_adjacency_spec rows directed u v :
  v ∈ default [] (scan_adjacency rows directed !! u) ↔ row_edge rows directed u v.
Proof.
  rewrite scan_adjacency_pushes, foldl_push_lookup, lookup_empty. simpl. rewrite list_elem_of_fmap. unfold row_edge.
  destruct directed.
  - split.
    + intros ([a b] & -> & [<- ?]%list_elem_of_filter). by left.
    + intros [?|[? _]]; [|done]. exists (u, v). by rewrite list_elem_of_filter.
  - split.
    + intros ([a b] & -> & [<- (e & He & ?)%list_elem_of_bind]%list_elem_of_filter). simpl in *.
      rewrite !elem_of_cons, elem_of_nil in He. destruct e as [c d].
      destruct He as [[= -> ->]|[[= -> ->]|[]]]; [by left|by right].
    + intros [Hin|[_ Hin]]; exists (u, v); (split; [done|]); apply list_elem_of_filter;
        (split; [done|]); apply list_elem_of_bind.
      * exists (u, v). split; [left|done].
      * exists (v, u). split; [right; left|done].
Qed.

(** The search over scanned rows, when no node has more neighbors than the limit. *)
Theorem shortest_path_scan_correct rows directed start target :
  (∀ u, (length (default [] (scan_adjacency rows directed !! u)) ≤ MAX_BFS_DEGREE)%nat) →
  (1 + 2 * length rows < MAX_SHORTEST_PATH_NODES)%nat →
  ∃ l nbrs, shortest_path_scan rows directed start target = Some l
    ∧ (∀ u v, v ∈ nbrs u ↔ row_edge rows directed u v) ∧ search_spec nbrs start target l.
Proof.
  intros Hdeg Hsize. unfold shortest_path_scan.
  set (nbrs := fun current => take MAX_BFS_DEGREE
    (default [] (scan_adjacency rows directed !! current))).
  assert (∀ u v, v ∈ nbrs u ↔ row_edge rows directed u v) as Hn.
  { intros u v. unfold nbrs. rewrite take_ge by apply Hdeg. apply scan_adjacency_spec. }
  set (U := {[start]} ∪ list_to_set (rows.*1 ++ rows.*2) : gset Z).
  assert (size U ≤ 1 + 2 * length rows)%nat as HU.
  { unfold U. etrans; [apply size_union_le|]. rewrite size_singleton.
    apply Nat.add_le_mono_l. etrans; [apply size_list_to_set_le|].
    rewrite length_app, !length_fmap. lia. }
  destruct (search_correct nbrs (Some MAX_SHORTEST_PATH_NODES) start target U
    (2 + 2 * length rows)) as (l & Hl & Hspec).
  - by apply elem_of_union_l, elem_of_singleton.
  - intros x z _ Hz%Hn. apply elem_of_union_r, elem_of_list_to_set, elem_of_app.
    destruct Hz as [Hz|[_ Hz]]; [right|left]; apply list_elem_of_fmap; eexists; (split; [|exact Hz]); done.
  - lia.
  - intros lim [= <-]. lia.
  - by exists l, nbrs.
Qed.

(** ** The table's dispatch *)

Definition swap_edge (e : Z * Z) : Z * Z := (e.2, e.1).

(** The loaded graph indexes hold the rows, and the rows turned around. *)
Definition indexed_rows (forward reverse : option MultiSegmentCsrGraph) (rows : list (Z * Z))
  : Prop :=
  (∀ g, forward = Some g → gv_wf g ∧ all_edges g ≡ₚ rows)
  ∧ (∀ g, reverse = Some g → gv_wf g ∧ all_edges g ≡ₚ swap_edge <$> rows).

Lemma filter_bind {A B} (P : B → Prop) `{!∀ x, Decision (P x)} (f : A → list B) l :
  filter P (l ≫= f) = l ≫= fun x => filter P (f x).
Proof. induction l as [|x l IH]; [done|]. rewrite !bind_cons, filter_app, IH. done. Qed.

Lemma filter_all_edges {G} `{GraphViewLaws G} (g : G) u :
  gv_wf g → (filter (fun e : Z * Z => e.1 = u) (all_edges g)).*2 = get_neighbors g u.
Proof.
  intros Hwf. unfold all_edges. rewrite filter_bind.
  assert (∀ w, filter (fun e : Z * Z => e.1 = u) (pair w <$> get_neighbors g w)
    = if decide (w = u) then pair w <$> get_neighbors g w else []) as Hf.
  { intros w. case_decide as E; induction (get_neighbors g w) as [|x l IH]; csimpl;
      [done| |done|].
    - rewrite filter_cons_True by done. by rewrite IH.
    - by rewrite filter_cons_False. }
  assert (∀ l, NoDup l → (l ≫= fun w => filter (fun e : Z * Z => e.1 = u) (pair w <$> get_neighbors g w)).*2
    = if decide (u ∈ l) then get_neighbors g u else []) as Hl.
  { induction 1 as [|w l Hw Hnd IH]; [done|]. rewrite bind_cons, fmap_app, IH, Hf.
    destruct (decide (w = u)) as [->|E].
    - rewrite decide_False by done. rewrite decide_True by left.
      rewrite app_nil_r, <- list_fmap_compose. apply list_fmap_id.
    - simpl. destruct (decide (u ∈ l)); [by rewrite decide_True by by right|].
      rewrite decide_False; [done|]. rewrite elem_of_cons. intros [->|]; done. }
  rewrite Hl by by apply sorted_lt_NoDup, gv_sorted.
  case_decide as E; [done|]. rewrite gv_nodes in E by done.
  destruct (get_neighbors g u); [done|]. by destruct E.
Qed.

Lemma index_degree {G} `{GraphViewLaws G} (g : G) rows u :
  gv_wf g → all_edges g ≡ₚ rows →
  length (get_neighbors g u) = length (filter (fun e : Z * Z => e.1 = u) rows).
Proof.
  intros Hwf Hp. rewrite <- filter_all_edges, length_fmap by done. by rewrite Hp.
Qed.

Lemma index_edge {G} `{GraphViewLaws G} (g : G) rows u v :
  gv_wf g → all_edges g ≡ₚ rows → v ∈ get_neighbors g u ↔ (u, v) ∈ rows.
Proof. intros Hwf Hp. rewrite <- Hp. symmetry. by apply elem_of_all_edges. Qed.

Lemma elem_of_swapped (u v : Z) (rows : list (Z * Z)) :
  (u, v) ∈ swap_edge <$> rows ↔ (v, u) ∈ rows.
Proof.
  rewrite list_elem_of_fmap. split; [by intros ([a b] & [= -> ->] & ?)|].
  intros Hin. by exists (v, u).
Qed.

(** The edges the search over indexes follows. *)
Lemma indexed_edge forward reverse g rows directed u v :
  indexed_rows forward reverse rows → forward = Some g →
  directed || bool_decide (is_Some (if directed then None else reverse)) = true →
  v ∈ get_neighbors g u ++ rev_neighbors (if directed then None else reverse) u
  ↔ row_edge rows directed u v.
Proof.
  intros [Hf Hr] Hg Hd. destruct (Hf g Hg) as [Hwf Hp]. unfold row_edge.
  rewrite elem_of_app, (index_edge g rows) by done.
  destruct directed; simpl in *; [set_solver|].
  apply bool_decide_eq_true in Hd as [r Hr']. destruct (Hr r Hr') as [Hwr Hpr].
  rewrite Hr'. cbn [rev_neighbors]. rewrite (index_edge r (swap_edge <$> rows)) by done.
  rewrite elem_of_swapped. naive_solver.
Qed.

(** How many neighbors the scanned adjacency has of [u]. *)
Lemma scan_degree rows directed u :
  length (default [] (scan_adjacency rows directed !! u))
  = (length (filter (fun e : Z * Z => e.1 = u) rows)
     + if directed then 0 else length (filter (fun e : Z * Z => e.1 = u) (swap_edge <$> rows)))%nat.
Proof.
  rewrite scan_adjacency_pushes, foldl_push_lookup, lookup_empty. simpl. rewrite length_fmap.
  destruct directed; [lia|]. rewrite <- length_app, <- filter_app.
  apply Permutation_length, filter_Permutation.
  induction rows as [|e rows IH]; [done|]. csimpl. constructor. rewrite IH.
  apply Permutation_middle.
Qed.

(** C25: Within the limits on nodes and neighbors the shortest path of a table is found over
    the graph indexes (when they hold the rows) and by a scan alike: a path of edges from
    the start to the target with as few edges as possible, or the empty list exactly when
    the target is unreachable.  The loops end and no predecessor is missing. *)
Theorem shortest_path_correct forward reverse rows directed start target nbrs :
  indexed_rows forward reverse rows →
  (∀ u, (length (default [] (scan_adjacency rows directed !! u)) ≤ MAX_BFS_DEGREE)%nat) →
  (1 + 2 * length rows < MAX_SHORTEST_PATH_NODES)%nat →
  (∀ u v, v ∈ nbrs u ↔ row_edge rows directed u v) →
  ∃ l, shortest_path_with_columns forward reverse rows directed start target = Some l
    ∧ search_spec nbrs start target l.
Proof.
  intros [Hf Hr] Hdeg Hsize Hn.
  assert (∃ l, shortest_path_scan rows directed start target = Some l
    ∧ search_spec nbrs start target l) as Hscan.
  { destruct (shortest_path_scan_correct rows directed start target Hdeg Hsize)
      as (l & nbrs' & Hl & Hn' & Hs). exists l. split; [done|].
    eapply search_spec_ext; [|exact Hs]. intros u v. by rewrite Hn, Hn'. }
  unfold shortest_path_with_columns. case_decide as E.
  { exists [start]. split; [done|]. subst. apply search_spec_refl. }
  destruct forward as [g|]; [|done]. destruct (directed || _) eqn:Hd; [|done].
  destruct (Hf g eq_refl) as [Hwf Hg].
  set (rev := if directed then None else reverse) in *.
  assert (∀ r, rev = Some r → gv_wf r ∧ all_edges r ≡ₚ swap_edge <$> rows) as Hrev.
  { intros r Hrr. apply Hr. unfold rev in Hrr. by destruct directed. }
  destruct (shortest_path_csr_correct g rev start target) as (l & Hl & Hs).
  - done.
  - intros r Hrr. by apply Hrev.
  - intros u. specialize (Hdeg u). rewrite scan_degree in Hdeg.
    rewrite (index_degree g rows u) by done. split; [lia|]. unfold rev_neighbors, rev in *.
    destruct directed; [simpl; lia|]. destruct reverse as [r|]; [|simpl; lia].
    destruct (Hrev r eq_refl). rewrite (index_degree r (swap_edge <$> rows) u) by done. lia.
  - rewrite <- (length_all_edges g) by done. rewrite Hg. unfold rev_edges.
    destruct rev as [r|]; [|lia]. destruct (Hrev r eq_refl) as [Hwr Hrr].
    rewrite <- (length_all_edges r) by done. rewrite Hrr, length_fmap. lia.
  - exists l. split; [done|]. eapply search_spec_ext; [|exact Hs].
    intros u v. rewrite Hn. by apply (indexed_edge (Some g) reverse).
Qed.

(** ** The aggregate function runs the same search *)

Section Udaf.
Context {G : Type} `{GraphViewLaws G} (g : G) (Hwf : gv_wf g) (start : Z).

(** Its set of visited nodes and map of predecessors, as one map. *)
Definition udaf_sim (visited : gset Z) (prev v : gmap Z Z) : Prop :=
  dom v = visited ∧ prev = delete start v ∧ v !! start = Some start.

Lemma udaf_discover_sim c ns visited prev v q :
  udaf_sim visited prev v →
  let '(visited', prev', q') := foldl (udaf_discover c) (visited, prev, q) ns in
  let '(v', q'') := foldl (discover c) (v, q) ns in
  udaf_sim visited' prev' v' ∧ q' = q''.
Proof.
  revert visited prev v q. induction ns as [|n ns IH]; intros visited prev v q Hsim; [done|].
  cbn [foldl]. destruct Hsim as (Hd & Hp & Hs). unfold udaf_discover at 2, discover at 2.
  cbn [fst snd].
  destruct (v !! n) as [y|] eqn:E.
  - rewrite decide_True by (rewrite <- Hd; by eapply elem_of_dom_2). by apply IH.
  - rewrite decide_False by (rewrite <- Hd; by apply not_elem_of_dom).
    apply IH. split_and!.
    + rewrite dom_insert_L. by rewrite Hd.
    + rewrite Hp. assert (n ≠ start) by (intros ->; congruence). by rewrite delete_insert_ne.
    + rewrite lookup_insert_ne; [done|]. intros ->. congruence.
Qed.

Lemma udaf_bfs_sim target fuel visited prev v q :
  udaf_sim visited prev v →
  match udaf_bfs g target fuel visited prev q, bfs (get_neighbors g) None target fuel v q with
  | Some (Some prev'), Some (Found v') => ∃ visited', udaf_sim visited' prev' v'
  | Some None, Some Exhausted => True
  | None, None => True
  | _, _ => False
  end.
Proof.
  revert visited prev v q. induction fuel as [|fuel IH]; intros visited prev v q Hsim;
    destruct q as [|c q]; simpl; try done.
  case_decide; [by exists visited|]. rewrite gv_into by done. simpl.
  pose proof (udaf_discover_sim c (get_neighbors g c) visited prev v q Hsim) as Hd.
  destruct (foldl (udaf_discover c) _ _) as [[visited' prev'] q'].
  destruct (foldl (discover c) _ _) as [v' q'']. destruct Hd as [Hsim' ->]. by apply IH.
Qed.

Lemma udaf_trace_sim v fuel x path :
  trace v start fuel x = Some path →
  ∃ l, udaf_trace (delete start v) start fuel x = Some (Ok l) ∧ x :: l = path ++ [start].
Proof.
  revert x path. induction fuel as [|fuel IH]; intros x path; simpl; case_decide as Hx;
    try (intros [= <-]; exists []; split; [done|by subst]); [done|].
  rewrite lookup_delete_ne by done. destruct (v !! x) as [p|]; [|done]. simpl.
  destruct (trace v start fuel p) as [rest|] eqn:E; [|done]. simpl. intros [= <-].
  destruct (IH p rest E) as (l & -> & Hl). simpl. exists (p :: l). split; [done|].
  simpl. by rewrite Hl.
Qed.
End Udaf.

(** On every graph view the aggregate function returns a shortest path, or the null
    list exactly when there is none; the broken-chain error cannot occur and the loops
    end. *)
Theorem udaf_shortest_path_correct {G} `{GraphViewLaws G} (g : G) start target :
  gv_wf g →
  ∃ r, udaf_shortest_path g start target = Some (Ok r)
    ∧ search_spec (get_neighbors g) start target (default [] r) ∧ r ≠ Some [].
Proof.
  intros Hwf. unfold udaf_shortest_path. case_decide as Heq.
  { subst target. exists (Some [start]). split; [done|]. split; [apply search_spec_refl|done]. }
  set (U := {[start]} ∪ targets g : gset Z).
  destruct (targets_spec g Hwf) as [Ht Hs].
  assert (start ∈ U) as HU by by apply elem_of_union_l, elem_of_singleton.
  assert (∀ x z, x ∈ U → z ∈ get_neighbors g x → z ∈ U) as HUn.
  { intros x z _ Hz. apply elem_of_union_r. by eapply Ht. }
  assert (size U ≤ 1 + num_edges g)%nat as Hsize.
  { etrans; [apply size_union_le|]. rewrite size_singleton. by apply Nat.add_le_mono_l. }
  assert (1 + size U ≤ 2 + num_edges g + size ({[start := start]} : gmap Z Z))%nat as Hfuel
    by (rewrite map_size_singleton; lia).
  pose proof (bfs_spec (get_neighbors g) start None target U HU HUn (2 + num_edges g)
    {[start := start]} [start] (bfs_inv_start _ start target U HU) Hfuel) as Hb.
  assert (udaf_sim start {[start]} ∅ {[start := start]}) as Hs0
    by (split_and!; [apply dom_singleton_L|by rewrite delete_singleton_eq|apply lookup_singleton_eq]).
  pose proof (udaf_bfs_sim g Hwf start target (2 + num_edges g) _ _ _ [start] Hs0) as Hsim.
  destruct (bfs _ _ _ _ _ _) as [[v| |]|]; [| |by destruct Hb as (? & ? & ?)|done];
    destruct (udaf_bfs _ _ _ _ _ _) as [[prev|]|]; try done; cbn [mbind option_bind].
  - destruct Hsim as (visited & _ & -> & Hst), Hb as [Hok Htg].
    destruct (found_shortest (get_neighbors g) start target v (size (delete start v)) Hok Htg)
      as (path & Htr & Hsh); [done|].
    destruct (udaf_trace_sim start v _ target path Htr) as (l & -> & Hl). simpl.
    eexists. split; [done|]. simpl. rewrite Hl. split.
    + split; [done|]. intros E. destruct Hsh as (_ & Hh & _). by rewrite E in Hh.
    + intros [= E]. destruct Hsh as (_ & Hh & _). by rewrite E in Hh.
  - exists None. split; [done|]. split; [|done]. split; [done|]. intros _. exact Hb.
Qed.

(** ** Instances *)

Module ShortestPathExamples.
Import CsrExamples.

Example two_segments_path :
  shortest_path_csr two_segments None 9 8 = Some [9; 8]
  ∧ shortest_path_csr two_segments None 3 9 = Some [].
Proof. split; vm_compute; done. Qed.

Definition some_rows : list (Z * Z) := [(3, 8); (5, 6); (9, 8); (6, 5)].
Definition rows_reversed : MultiSegmentCsrGraph :=
  {| segments := index_of <$> [[raw 8 3 0; raw 6 5 1]; [raw 8 9 0; raw 5 6 1]] |}.

Lemma rows_reversed_wf : gv_wf rows_reversed.
Proof. by apply Forall_cons_2; [|apply Forall_cons_2; [|constructor]]; apply index_wf. Qed.

Lemma some_rows_indexed : indexed_rows (Some two_segments) (Some rows_reversed) some_rows.
Proof.
  split; intros g [= <-]; (split; [apply two_segments_wf || apply rows_reversed_wf|]);
    apply (bool_decide_unpack _); vm_compute; exact I.
Qed.

Lemma shortest_path_correct_witness :
  indexed_rows (Some two_segments) (Some rows_reversed) some_rows
  ∧ shortest (fun u => default [] (scan_adjacency some_rows false !! u)) [3; 8; 9] 3 9.
Proof.
  split; [exact some_rows_indexed|].
  destruct (shortest_path_correct (Some two_segments) (Some rows_reversed) some_rows false 3 9
    (fun u => default [] (scan_adjacency some_rows false !! u))) as (l & Hl & Hs & _).
  - exact some_rows_indexed.
  - intros u. rewrite scan_degree. unfold MAX_BFS_DEGREE.
    pose proof (length_filter (fun e : Z * Z => e.1 = u) some_rows) as H1.
    pose proof (length_filter (fun e : Z * Z => e.1 = u) (swap_edge <$> some_rows)) as H2.
    simpl in *. lia.
  - unfold MAX_SHORTEST_PATH_NODES. simpl. lia.
  - intros u v. apply scan_adjacency_spec.
  - assert (shortest_path_with_columns (Some two_segments) (Some rows_reversed) some_rows false 3 9
      = Some [3; 8; 9]) as E by (vm_compute; reflexivity).
    rewrite E in Hl. injection Hl as <-. by apply Hs.
Defined.

Definition diamond : SimpleGraph := from_directed_edges [(1, 2); (1, 3); (2, 4); (3, 4); (4, 5)].

Example diamond_paths :
  udaf_shortest_path diamond 1 5 = Some (Ok (Some [1; 2; 4; 5]))
  ∧ udaf_shortest_path diamond 5 1 = Some (Ok None).
Proof. split; vm_compute; done. Qed.

Lemma udaf_shortest_path_correct_witness :
  gv_wf diamond ∧ shortest (get_neighbors diamond) [1; 2; 4; 5] 1 5.
Proof.
  assert (gv_wf diamond) as Hwf by apply from_directed_wf. split; [done|].
  destruct (udaf_shortest_path_correct diamond 1 5 Hwf) as (r & Hr & [Hs _] & Hne).
  rewrite (proj1 diamond_paths) in Hr. injection Hr as <-. by apply Hs.
Defined.

End ShortestPathExamples.
