(* ===== verification/Neighborhood.v ===== *)
(** * Neighborhoods of seed nodes

    The three breadth-first expansions: over graph indexes level by level
    ([csr_bfs_visited], [src/src/core/table/graph.rs]), over scanned rows with a queue
    ([graph_neighborhood_scan], same file) and by SQL with materialized frontiers
    ([bfs_visited], [src/src/core/algorithms/frontier.rs]).  All are compared with the set of
    nodes within a number of hops.  Hash sets are iterated in an arbitrary order. *)

From S2P Require Import Prelude Graph CsrGraph ShortestPath.

Open Scope Z_scope.

(** ** Reference *)

(** Nodes at most [k] hops from a seed. *)
Definition within (nbrs : Z → list Z) (seeds : gset Z) (k : nat) (x : Z) : Prop :=
  ∃ s n, s ∈ seeds ∧ (n ≤ k)%nat ∧ walk nbrs n s x.

Lemma within_0 nbrs seeds x : within nbrs seeds 0 x ↔ x ∈ seeds.
Proof.
  split; [|intros ?; exists x, 0%nat; split_and!; [done|done|constructor]].
  intros (s & n & Hs & Hn & Hw). assert (n = 0%nat) as -> by lia. by inversion Hw; subst.
Qed.

Lemma within_S nbrs seeds k x :
  within nbrs seeds (S k) x ↔ within nbrs seeds k x ∨ ∃ y, within nbrs seeds k y ∧ x ∈ nbrs y.
Proof.
  split.
  - intros (s & n & Hs & Hn & Hw). destruct (decide (n ≤ k)%nat); [left; by exists s, n|].
    inversion Hw as [|m ? y ? Hy Hx]; subst; [lia|]. right. exists y. split; [|done].
    exists s, m. split_and!; [done|lia|done].
  - intros [(s & n & Hs & Hn & Hw)|(y & (s & n & Hs & Hn & Hw) & Hx)].
    + exists s, n. split_and!; [done|lia|done].
    + exists s, (S n). split_and!; [done|lia|by econstructor].
Qed.

Lemma within_mono nbrs seeds k l x : (k ≤ l)%nat → within nbrs seeds k x → within nbrs seeds l x.
Proof. intros Hle (s & n & Hs & Hn & Hw). exists s, n. split_and!; [done|lia|done]. Qed.

Lemma within_ext nbrs nbrs' seeds k x :
  (∀ u v, v ∈ nbrs u → v ∈ nbrs' u) → within nbrs seeds k x → within nbrs' seeds k x.
Proof. intros Hsub (s & n & Hs & Hn & Hw). exists s, n. split_and!; [done|done|by eapply walk_ext]. Qed.

(** ** Adding neighbors within a budget *)

Definition budget_exhausted (max_nodes : option nat) (visited : gset Z) : bool :=
  match max_nodes with Some cap => bool_decide (cap ≤ size visited)%nat | None => false end.

(** [for n in neighbors { if exhausted { break } if visited.insert(n) { next.push(n) } }] *)
Fixpoint add_neighbors {A} (tag : Z → A) (max_nodes : option nat) (ns : list Z)
    (s : gset Z * list A) : gset Z * list A :=
  match ns with
  | [] => s
  | n :: ns =>
      if budget_exhausted max_nodes s.1 then s
      else if decide (n ∈ s.1) then add_neighbors tag max_nodes ns s
      else add_neighbors tag max_nodes ns ({[n]} ∪ s.1, s.2 ++ [tag n])
  end.

(** ** Over graph indexes *)

Section Csr.
Context (hash_iter : gset Z → list Z).
Context (forward : MultiSegmentCsrGraph) (reverse : option MultiSegmentCsrGraph).
Context (directed : bool) (max_degree max_nodes : option nat).

Definition use_reverse : option MultiSegmentCsrGraph := if directed then None else reverse.

Definition over_degree (node : Z) : bool :=
  match max_degree with
  | Some limit =>
      let degree := (get_degree forward node
        + match use_reverse with Some rev => get_degree rev node | None => 0 end)%nat in
      bool_decide (limit < degree)%nat
  | None => false
  end.

(** One level: the loop over the frontier. *)
Fixpoint expand_level (frontier : list Z) (s : gset Z * list Z) : gset Z * list Z :=
  match frontier with
  | [] => s
  | node :: frontier =>
      if budget_exhausted max_nodes s.1 then s
      else if over_degree node then expand_level frontier s
      else
        let s := add_neighbors id max_nodes (get_neighbors forward node) s in
        let s := match use_reverse with
                 | Some rev => add_neighbors id max_nodes (get_neighbors rev node) s
                 | None => s
                 end in
        expand_level frontier s
  end.

Fixpoint expand_hops (hops : nat) (frontier : list Z) (visited : gset Z) : gset Z :=
  match hops with
  | O => visited
  | S hops =>
      let '(visited, next) := expand_level frontier (visited, []) in
      match next with [] => visited | _ => expand_hops hops next visited end
  end.

Definition csr_bfs_visited (seeds : list Z) (hops : nat) : list Z :=
  let visited := list_to_set seeds in
  sort_u64 (hash_iter (expand_hops hops (hash_iter visited) visited)).
End Csr.

(** ** Over scanned rows *)

Section Scan.
Context (hash_iter : gset Z → list Z) (adj : gmap Z (list Z)).
Context (hops : nat) (max_degree max_nodes : option nat).

(** The queue of nodes with their depths; [None] when the fuel is used up. *)
Fixpoint scan_loop (fuel : nat) (queue : list (Z * nat)) (visited : gset Z) : option (gset Z) :=
  match queue with
  | [] => Some visited
  | (node, depth) :: queue =>
      match fuel with
      | O => None
      | S fuel =>
          if budget_exhausted max_nodes visited then Some visited
          else if bool_decide (hops ≤ depth)%nat then scan_loop fuel queue visited
          else
            match adj !! node with
            | Some neighbors =>
                if match max_degree with
                   | Some limit => bool_decide (limit < length neighbors)%nat
                   | None => false
                   end
                then scan_loop fuel queue visited
                else
                  let '(visited, queue) :=
                    add_neighbors (fun n => (n, S depth)) max_nodes neighbors (visited, queue) in
                  scan_loop fuel queue visited
            | None => scan_loop fuel queue visited
            end
      end
  end.

(** [for &seed in seeds { if visited.insert(seed) { queue.push_back((seed, 0)) } }] *)
Definition scan_seeds (seeds : list Z) : gset Z * list (Z * nat) :=
  add_neighbors (fun n => (n, 0%nat)) None seeds (∅, []).

Definition scan_bfs (fuel : nat) (seeds : list Z) : option (list Z) :=
  let '(visited, queue) := scan_seeds seeds in
  visited ← scan_loop fuel queue visited;
  Some (sort_u64 (hash_iter visited)).
End Scan.

Definition graph_neighborhood_scan (hash_iter : gset Z → list Z) (rows : list (Z * Z))
    (directed : bool) (seeds : list Z) (hops : nat) (max_degree max_nodes : option nat)
  : option (list Z) :=
  scan_bfs hash_iter (scan_adjacency rows directed) hops max_degree max_nodes
    (length seeds + 2 * length rows) seeds.

(** ** By SQL *)

(** [SELECT DISTINCT] of the edges, in both directions unless directed. *)
Definition sql_adjacency (rows : list (Z * Z)) (directed : bool) : gset (Z * Z) :=
  list_to_set (if directed then rows else rows ++ ((fun e : Z * Z => (e.2, e.1)) <$> rows)).

(** [adj JOIN frontier LEFT JOIN visited WHERE v.id IS NULL] *)
Definition sql_next (adj : gset (Z * Z)) (frontier visited : gset Z) : gset Z :=
  list_to_set (filter (fun e : Z * Z => e.1 ∈ frontier ∧ e.2 ∉ visited) (elements adj)).*2.

Fixpoint sql_hops (adj : gset (Z * Z)) (hops : nat) (frontier visited : gset Z) : gset Z :=
  match hops with
  | O => visited
  | S hops =>
      let next := sql_next adj frontier visited in
      if decide (next = ∅) then visited else sql_hops adj hops next (visited ∪ next)
  end.

Definition bfs_visited (rows : list (Z * Z)) (seeds : list Z) (hops : nat) (directed : bool)
  : list Z :=
  match seeds with
  | [] => []
  | _ =>
      let visited := list_to_set seeds in
      sort_dedup (elements (sql_hops (sql_adjacency rows directed) hops visited visited))
  end.

(** ** The dispatch

    [forward] and [reverse] are the graph indexes loaded for the column, [rows] what the
    scan reads. *)
Definition graph_neighborhood (hash_iter : gset Z → list Z) (relations_given : bool)
    (forward reverse : option MultiSegmentCsrGraph) (rows : list (Z * Z)) (directed : bool)
    (seeds : list Z) (hops : nat) (max_degree max_nodes : option nat) : option (list Z) :=
  let scan := graph_neighborhood_scan hash_iter rows directed seeds hops max_degree max_nodes in
  match seeds with
  | [] => Some []
  | _ =>
      if relations_given then scan
      else
        match forward with
        | Some forward =>
            let reverse := if directed then None else reverse in
            if directed || bool_decide (is_Some reverse)
            then Some (csr_bfs_visited hash_iter forward reverse directed max_degree max_nodes
                         seeds hops)
            else scan
        | None => scan
        end
  end.

(** ** Edges around seeds *)

Definition sort_edges : list (Z * Z) → list (Z * Z) := merge_sort pair_le.

(** [node_indexes] are the graph indexes of [graph_column] when it is given, [edge_index] the
    one of [graph_column] or else of the source column. *)
Definition subgraph_edges_with_columns (hash_iter : gset Z → list Z)
    (node_forward node_reverse edge_index : option MultiSegmentCsrGraph) (rows : list (Z * Z))
    (directed : bool) (seeds : list Z) (hops : nat) (max_degree max_nodes : option nat)
  : option (list (Z * Z)) :=
  match seeds with
  | [] =>
      match edge_index with
      | Some forward => Some (sort_edges (all_edges forward))
      | None => Some (sort_edges (elements (list_to_set rows : gset (Z * Z))))
      end
  | _ =>
      visited_nodes ← graph_neighborhood hash_iter false node_forward node_reverse rows directed
        seeds hops max_degree max_nodes;
      let node_set : gset Z := list_to_set visited_nodes in
      if decide (node_set = ∅) then Some [] else
      match edge_index with
      | Some forward => Some (region_edges forward node_set)
      | None =>
          Some (sort_edges (elements (list_to_set
            (filter (fun e : Z * Z => e.1 ∈ node_set ∧ e.2 ∈ node_set) rows) : gset (Z * Z))))
      end
  end.

(** ** Adding neighbors *)

Lemma add_neighbors_spec {A} (tag : Z → A) max_nodes ns s :
  ∃ new, (add_neighbors tag max_nodes ns s).2 = s.2 ++ (tag <$> new)
    ∧ (∀ x, x ∈ (add_neighbors tag max_nodes ns s).1 ↔ x ∈ s.1 ∨ x ∈ new)
    ∧ (∀ x, x ∈ new → x ∈ ns ∧ x ∉ s.1)
    ∧ size (add_neighbors tag max_nodes ns s).1 = (size s.1 + length new)%nat
    ∧ (max_nodes = None → ∀ x, x ∈ ns → x ∈ (add_neighbors tag max_nodes ns s).1)
    ∧ (∀ cap, max_nodes = Some cap →
         (size (add_neighbors tag max_nodes ns s).1 ≤ cap `max` size s.1)%nat).
Proof.
  revert s. induction ns as [|n ns IH]; intros s; simpl.
  { exists []. rewrite app_nil_r. simpl. split_and!; [done|set_solver|set_solver|lia|set_solver|lia]. }
  destruct (budget_exhausted max_nodes s.1) eqn:E.
  { exists []. rewrite app_nil_r. simpl. split_and!; [done|set_solver|set_solver|lia| |lia].
    intros ->. done. }
  case_decide as Hn.
  - destruct (IH s) as (new & H1 & H2 & H3 & H4 & H5 & H6). exists new.
    split_and!; [done|done| |done| |done].
    + intros x Hx. destruct (H3 x Hx). set_solver.
    + intros HN x [->|Hx]%elem_of_cons; [apply H2; by left|by apply H5].
  - destruct (IH ({[n]} ∪ s.1, s.2 ++ [tag n])) as (new & H1 & H2 & H3 & H4 & H5 & H6).
    simpl in *. assert (size ({[n]} ∪ s.1) = S (size s.1)) as Hsize
      by (rewrite size_union by set_solver; by rewrite size_singleton).
    exists (n :: new). split_and!.
    + rewrite H1. simpl. by rewrite <- (assoc_L (++)).
    + intros x. rewrite H2. set_solver.
    + intros x [->|Hx]%elem_of_cons; [set_solver|]. destruct (H3 x Hx). set_solver.
    + rewrite H4, Hsize. simpl. lia.
    + intros HN x [->|Hx]%elem_of_cons; [apply H2; set_solver|by apply H5].
    + intros cap Hcap. specialize (H6 cap Hcap). subst max_nodes. simpl in E.
      apply bool_decide_eq_false in E. lia.
Qed.

(** ** Level by level *)

Section Levels.
Context (nbrs : Z → list Z) (seeds : gset Z).

(** After [k] levels: what is visited is within [k] hops, and what is not on the frontier
    has only visited neighbors. *)
Record level (k : nat) (frontier : Z → Prop) (visited : gset Z) : Prop := {
  lv_visited : ∀ x, x ∈ visited ↔ within nbrs seeds k x;
  lv_inner : ∀ x z, x ∈ visited → ¬ frontier x → z ∈ nbrs x → z ∈ visited;
  lv_frontier : ∀ x, frontier x → x ∈ visited
}.

Lemma level_start : level 0 (fun x => x ∈ seeds) seeds.
Proof. split; [intros x; by rewrite within_0|done|done]. Qed.

Lemma level_step k (f : Z → Prop) `{!∀ x, Decision (f x)} visited visited' next :
  level k f visited →
  (∀ x, x ∈ visited' ↔ x ∈ visited ∨ next x) →
  (∀ x, next x ↔ x ∉ visited ∧ ∃ y, f y ∧ x ∈ nbrs y) →
  level (S k) next visited'.
Proof.
  intros [Hv Hi Hf] Hv' Hn. split.
  - intros x. rewrite Hv', within_S, <- Hv, Hn. split.
    + intros [?|(_ & y & Hy & Hx)]; [by left|right]. exists y. split; [by apply Hv, Hf|done].
    + intros [?|(y & Hy%Hv & Hx)]; [by left|]. destruct (decide (x ∈ visited)); [by left|].
      right. split; [done|]. exists y. split; [|done].
      destruct (decide (f y)); [done|]. naive_solver.
  - intros x z [Hx|Hx]%Hv' Hnx Hz; [|done]. apply Hv'.
    destruct (decide (z ∈ visited)); [by left|right]. apply Hn. split; [done|].
    exists x. split; [|done]. destruct (decide (f x)); [done|]. naive_solver.
  - intros x Hx. apply Hv'. by right.
Qed.

(** An empty frontier: more hops add nothing. *)
Lemma level_closed k l visited :
  level k (fun _ => False) visited → (k ≤ l)%nat → ∀ x, x ∈ visited ↔ within nbrs seeds l x.
Proof.
  intros [Hv Hi _] Hl. induction Hl as [|l Hl IH]; [done|]. intros x. rewrite within_S.
  rewrite <- IH. split; [by left|]. intros [?|(y & Hy%IH & Hx)]; [done|].
  eapply Hi; [exact Hy|tauto|exact Hx].
Qed.

Lemma level_ext k (f g : Z → Prop) visited :
  (∀ x, f x ↔ g x) → level k f visited → level k g visited.
Proof.
  intros Hfg [Hv Hi Hf]. split; [done| |].
  - intros x z Hx Hgx. apply Hi; [done|]. by rewrite Hfg.
  - intros x Hx. by apply Hf, Hfg.
Qed.
End Levels.

(** A sorted listing, without repetitions, of the nodes within [hops] hops. *)
Definition is_neighborhood (nbrs : Z → list Z) (seeds : list Z) (hops : nat) (l : list Z) : Prop :=
  StronglySorted Z.lt l ∧ ∀ x, x ∈ l ↔ within nbrs (list_to_set seeds) hops x.

Lemma is_neighborhood_unique nbrs nbrs' seeds hops l l' :
  (∀ u v, v ∈ nbrs u ↔ v ∈ nbrs' u) →
  is_neighborhood nbrs seeds hops l → is_neighborhood nbrs' seeds hops l' → l = l'.
Proof.
  intros Hext [Hl1 Hl2] [Hl1' Hl2']. apply sorted_lt_unique; [done|done|].
  intros x. rewrite Hl2, Hl2'. split; apply within_ext; intros u v; apply Hext.
Qed.

(** *** Over graph indexes *)

Section CsrProofs.
Context (hash_iter : gset Z → list Z) (Hiter : ∀ X, hash_iter X ≡ₚ elements X).
Context (forward : MultiSegmentCsrGraph) (reverse : option MultiSegmentCsrGraph).
Context (directed : bool) (max_degree max_nodes : option nat).

Definition bfs_nbrs (x : Z) : list Z :=
  get_neighbors forward x ++ rev_neighbors (use_reverse reverse directed) x.

(** Every limit is off. *)
Definition free : Prop := max_nodes = None ∧ max_degree = None.

(** From [s] to [s'] new nodes among [N] were added; all of them when there is no limit. *)
Definition extends (N : Z → Prop) (s s' : gset Z * list Z) : Prop :=
  ∃ new, s'.2 = s.2 ++ new
    ∧ (∀ x, x ∈ s'.1 ↔ x ∈ s.1 ∨ x ∈ new)
    ∧ (∀ x, x ∈ new → N x ∧ x ∉ s.1)
    ∧ (free → ∀ x, N x → x ∈ s'.1)
    ∧ (∀ cap, max_nodes = Some cap → (size s'.1 ≤ cap `max` size s.1)%nat).

Lemma extends_none N s : (free → ∀ x, ¬ N x) → extends N s s.
Proof.
  intros HN. exists []. rewrite app_nil_r. split_and!; [done|set_solver|set_solver| |lia].
  intros Hf x Hx. by destruct (HN Hf x).
Qed.

Lemma extends_trans N1 N2 s1 s2 s3 :
  extends N1 s1 s2 → extends N2 s2 s3 → extends (fun x => N1 x ∨ N2 x) s1 s3.
Proof.
  intros (n1 & A1 & A2 & A3 & A4 & A5) (n2 & B1 & B2 & B3 & B4 & B5).
  exists (n1 ++ n2). split_and!.
  - rewrite B1, A1. by rewrite <- (assoc_L (++)).
  - intros x. rewrite B2, A2, elem_of_app. tauto.
  - intros x [Hx|Hx]%elem_of_app; [naive_solver|]. destruct (B3 x Hx) as [? Hs].
    rewrite A2 in Hs. tauto.
  - intros Hf x [Hx|Hx]; [apply B2; left|]; auto.
  - intros cap Hcap. specialize (A5 cap Hcap). specialize (B5 cap Hcap). lia.
Qed.

Lemma extends_iff N N' s s' : (∀ x, N x ↔ N' x) → extends N s s' → extends N' s s'.
Proof.
  intros HN (new & A1 & A2 & A3 & A4 & A5). exists new. split_and!; [done|done| | |done].
  - intros x Hx. by rewrite <- HN; apply A3.
  - intros Hf x. rewrite <- HN. by apply A4.
Qed.

Lemma extends_add ns s : extends (fun x => x ∈ ns) s (add_neighbors id max_nodes ns s).
Proof.
  destruct (add_neighbors_spec id max_nodes ns s) as (new & H1 & H2 & H3 & _ & H5 & H6).
  rewrite list_fmap_id in H1. exists new. split_and!; [done|done|done| |done].
  intros [HN _]. by apply H5.
Qed.

Lemma expand_level_spec frontier s :
  extends (fun x => ∃ y, y ∈ frontier ∧ x ∈ bfs_nbrs y) s
    (expand_level forward reverse directed max_degree max_nodes frontier s).
Proof.
  revert s. induction frontier as [|y frontier IH]; intros s; cbn [expand_level].
  { apply extends_none. intros _ x (? & []%not_elem_of_nil & _). }
  destruct (budget_exhausted max_nodes s.1) eqn:E.
  { apply extends_none. intros [HN _]. by rewrite HN in E. }
  destruct (over_degree forward reverse directed max_degree y) eqn:Ed.
  { destruct (IH s) as (new & H1 & H2 & H3 & H4 & H5). exists new.
    split_and!; [done|done| | |done].
    - intros x Hx. set_solver.
    - intros [_ HD]. by rewrite HD in Ed. }
  apply (extends_iff (fun x => (x ∈ get_neighbors forward y
    ∨ x ∈ rev_neighbors (use_reverse reverse directed) y)
    ∨ ∃ z, z ∈ frontier ∧ x ∈ bfs_nbrs z)).
  { intros x. unfold bfs_nbrs. setoid_rewrite elem_of_cons. setoid_rewrite elem_of_app.
    naive_solver. }
  eapply extends_trans; [|apply IH]. eapply extends_trans; [apply extends_add|].
  unfold rev_neighbors. destruct (use_reverse reverse directed); [apply extends_add|].
  apply extends_none. intros _ x []%not_elem_of_nil.
Qed.

(** Without limits. *)
Lemma expand_hops_complete seeds hops k (frontier : list Z) visited :
  free → level bfs_nbrs seeds k (fun x => x ∈ frontier) visited →
  ∀ x, x ∈ expand_hops forward reverse directed max_degree max_nodes hops frontier visited
    ↔ within bfs_nbrs seeds (k + hops) x.
Proof.
  intros Hfree. revert k frontier visited.
  induction hops as [|hops IH]; intros k frontier visited Hl; simpl.
  { rewrite Nat.add_0_r. apply Hl. }
  destruct (expand_level_spec frontier (visited, [])) as (new & H1 & H2 & H3 & H4 & _).
  destruct (expand_level _ _ _ _ _ _ _) as [visited' next]. simpl in *. subst next.
  assert (level bfs_nbrs seeds (S k) (fun x => x ∈ new) visited') as Hl'.
  { eapply (level_step _ _ k (fun x => x ∈ frontier)); [exact Hl|done|]. intros x. split.
    - intros Hx. destruct (H3 x Hx). done.
    - intros [Hx Hy]. by destruct (proj1 (H2 x) (H4 Hfree x Hy)). }
  destruct new as [|n new].
  - apply level_closed with (S k); [|lia]. eapply level_ext; [|exact Hl'].
    intros x. by rewrite elem_of_nil.
  - rewrite Nat.add_succ_r. by apply (IH (S k)).
Qed.

(** With limits. *)
Lemma expand_hops_sound seeds hops k (frontier : list Z) visited :
  (∀ x, x ∈ visited → within bfs_nbrs seeds k x) → (∀ x, x ∈ frontier → x ∈ visited) →
  let v := expand_hops forward reverse directed max_degree max_nodes hops frontier visited in
  (∀ x, x ∈ v → within bfs_nbrs seeds (k + hops) x) ∧ visited ⊆ v
  ∧ ∀ cap, max_nodes = Some cap → (size v ≤ cap `max` size visited)%nat.
Proof.
  revert k frontier visited. induction hops as [|hops IH]; intros k frontier visited Hv Hf; simpl.
  { rewrite Nat.add_0_r. split_and!; [done|done|lia]. }
  destruct (expand_level_spec frontier (visited, [])) as (new & H1 & H2 & H3 & _ & H5).
  destruct (expand_level _ _ _ _ _ _ _) as [visited' next]. simpl in *. subst next.
  assert (∀ x, x ∈ visited' → within bfs_nbrs seeds (S k) x) as Hv'.
  { intros x [Hx|Hx]%H2; apply within_S; [left; auto|right].
    destruct (H3 x Hx) as [(y & Hy & ?) _]. exists y. auto. }
  destruct new as [|n new].
  - split_and!; [|set_solver|done]. intros x Hx. eapply within_mono; [|by apply Hv']. lia.
  - destruct (IH (S k) (n :: new) visited' Hv') as (J1 & J2 & J3); [set_solver|].
    rewrite Nat.add_succ_r. split_and!; [done|set_solver|].
    intros cap Hcap. specialize (H5 cap Hcap). specialize (J3 cap Hcap). lia.
Qed.

Lemma elem_of_hash_iter x X : x ∈ hash_iter X ↔ x ∈ X.
Proof. by rewrite Hiter, elem_of_elements. Qed.

Lemma sorted_hash_iter X : StronglySorted Z.lt (sort_u64 (hash_iter X)).
Proof. apply sort_u64_strict. rewrite Hiter. apply NoDup_elements. Qed.

Lemma csr_bfs_complete seeds hops :
  free → is_neighborhood bfs_nbrs seeds hops
    (csr_bfs_visited hash_iter forward reverse directed max_degree max_nodes seeds hops).
Proof.
  intros Hf. split; [apply sorted_hash_iter|]. intros x. unfold csr_bfs_visited.
  rewrite elem_of_sort_u64, elem_of_hash_iter.
  apply (expand_hops_complete (list_to_set seeds) hops 0); [done|].
  eapply level_ext; [|apply level_start]. intros y. by rewrite elem_of_hash_iter.
Qed.

Lemma csr_bfs_sound seeds hops :
  let l := csr_bfs_visited hash_iter forward reverse directed max_degree max_nodes seeds hops in
  StronglySorted Z.lt l ∧ (∀ s, s ∈ seeds → s ∈ l)
  ∧ (∀ x, x ∈ l → within bfs_nbrs (list_to_set seeds) hops x)
  ∧ ∀ cap, max_nodes = Some cap → (length l ≤ cap `max` length seeds)%nat.
Proof.
  unfold csr_bfs_visited. set (V := list_to_set seeds : gset Z).
  destruct (expand_hops_sound V hops 0 (hash_iter V) V) as (H1 & H2 & H3).
  { intros x Hx. by apply within_0. }
  { intros x. by rewrite elem_of_hash_iter. }
  split_and!; [apply sorted_hash_iter| | |].
  - intros s Hs. rewrite elem_of_sort_u64, elem_of_hash_iter. apply H2. unfold V.
    by apply elem_of_list_to_set.
  - intros x. rewrite elem_of_sort_u64, elem_of_hash_iter. apply H1.
  - intros cap Hcap. specialize (H3 cap Hcap). rewrite sort_u64_perm, Hiter.
    pose proof (size_list_to_set_le seeds) as Hs. fold V in Hs.
    change (length (elements ?X)) with (size X). lia.
Qed.
End CsrProofs.

(** *** Over scanned rows *)

Section ScanProofs.
Context (adj : gmap Z (list Z)) (seeds : gset Z) (hops : nat).

Definition adj_nbrs (x : Z) : list Z := default [] (adj !! x).
Abbreviation reach := (within adj_nbrs seeds).

(** The queue holds what is left of level [k], then what was found of the next level. *)
Definition two_levels (k : nat) (q1 q2 : list Z) (visited : gset Z) : Prop :=
  (∀ x, reach k x → x ∈ visited)
  ∧ (∀ x, x ∈ visited → reach k x ∨ x ∈ q2)
  ∧ ((k < hops)%nat → ∀ x z, reach k x → x ∉ q1 → z ∈ adj_nbrs x → z ∈ visited)
  ∧ (∀ x, x ∈ q1 → reach k x)
  ∧ (∀ x, x ∈ q2 → reach (S k) x ∧ (k < hops)%nat).

Definition tagged (k : nat) (q1 q2 : list Z) : list (Z * nat) :=
  ((fun x => (x, k)) <$> q1) ++ ((fun x => (x, S k)) <$> q2).

(** When the first level is used up the second takes its place. *)
Lemma two_levels_next k q2 visited :
  (k < hops)%nat → two_levels k [] q2 visited → two_levels (S k) q2 [] visited.
Proof.
  intros Hk (H1 & H2 & H3 & _ & H4). specialize (H3 Hk).
  assert (∀ x, reach (S k) x → x ∈ visited) as Hall.
  { intros x [Hx|(y & Hy & Hx)]%within_S; [auto|]. eapply H3; [done|apply not_elem_of_nil|done]. }
  split_and!; [done| | |by apply H4|set_solver].
  - intros x Hx. left. destruct (H2 x Hx); [by eapply within_mono; [|done]; lia|by apply H4].
  - intros _ x z Hx Hn Hz. destruct (H2 x (Hall x Hx)); [|done].
    eapply H3; [done|apply not_elem_of_nil|done].
Qed.

(** The queue is empty: every hop was made, or nothing is left to explore. *)
Lemma two_levels_end k visited :
  (k ≤ hops)%nat → two_levels k [] [] visited → ∀ x, x ∈ visited ↔ reach hops x.
Proof.
  intros Hk (H1 & H2 & H3 & _).
  assert (∀ x, x ∈ visited ↔ reach k x) as Hv by set_solver.
  destruct (decide (k = hops)) as [->|]; [done|].
  apply level_closed with k; [|done]. split; [done| |done].
  intros x z Hx _. apply H3; [lia|by apply Hv|apply not_elem_of_nil].
Qed.

(** One node of the first level, without limits. *)
Lemma two_levels_step k c q1 q2 visited :
  (k < hops)%nat → two_levels k (c :: q1) q2 visited →
  let s := add_neighbors (fun n => (n, S k)) None (adj_nbrs c) (visited, tagged k q1 q2) in
  ∃ new, s.2 = tagged k q1 (q2 ++ new) ∧ two_levels k q1 (q2 ++ new) s.1.
Proof.
  intros Hk (H1 & H2 & H3 & H4 & H5). specialize (H3 Hk).
  destruct (add_neighbors_spec (fun n => (n, S k)) None (adj_nbrs c) (visited, tagged k q1 q2))
    as (new & A1 & A2 & A3 & _ & A5 & _). simpl in *.
  exists new. rewrite A1. unfold tagged. rewrite fmap_app, (assoc_L (++)). split; [done|].
  split_and!.
  - intros x Hx. apply A2. auto.
  - intros x [Hx|Hx]%A2; [destruct (H2 x Hx)|]; set_solver.
  - intros _ x z Hx Hn Hz. destruct (decide (x = c)) as [->|]; [by apply A5|].
    apply A2. left. eapply H3; set_solver.
  - set_solver.
  - intros x [Hx|Hx]%elem_of_app; [auto|]. destruct (A3 x Hx). split; [|done].
    apply within_S. right. exists c. split; [apply H4; left|done].
Qed.

Lemma two_levels_pop c q1 visited :
  two_levels hops (c :: q1) [] visited → two_levels hops q1 [] visited.
Proof.
  intros (H1 & H2 & _ & H4 & _).
  split_and!; [done|done|lia|set_solver|set_solver].
Qed.

(** A turn of the loop under any limits. *)
Lemma scan_loop_S max_degree max_nodes fuel node depth queue visited :
  scan_loop adj hops max_degree max_nodes (S fuel) ((node, depth) :: queue) visited
  = if budget_exhausted max_nodes visited then Some visited
    else if bool_decide (hops ≤ depth)%nat
        || match max_degree with
           | Some limit => bool_decide (limit < length (adj_nbrs node))%nat
           | None => false
           end
    then scan_loop adj hops max_degree max_nodes fuel queue visited
    else
      let '(visited, queue) :=
        add_neighbors (fun n => (n, S depth)) max_nodes (adj_nbrs node) (visited, queue) in
      scan_loop adj hops max_degree max_nodes fuel queue visited.
Proof.
  cbn [scan_loop]. destruct (budget_exhausted _ _); [done|].
  destruct (bool_decide (hops ≤ depth)%nat); [done|]. unfold adj_nbrs.
  destruct (adj !! node) as [ns|]; simpl; [by destruct max_degree as [l|]; [case_bool_decide|]|].
  by destruct max_degree.
Qed.

Lemma scan_loop_complete fuel k q1 q2 visited v :
  scan_loop adj hops None None fuel (tagged k q1 q2) visited = Some v →
  (k ≤ hops)%nat → two_levels k q1 q2 visited → ∀ x, x ∈ v ↔ reach hops x.
Proof.
  revert k q1 q2 visited. induction fuel as [|fuel IH].
  { intros k [|??] [|??] visited [= <-] Hk Hl. by eapply two_levels_end. }
  assert (∀ k c q1 q2 visited,
    scan_loop adj hops None None (S fuel) (tagged k (c :: q1) q2) visited = Some v →
    (k ≤ hops)%nat → two_levels k (c :: q1) q2 visited → ∀ x, x ∈ v ↔ reach hops x) as Hcons.
  { intros k c q1 q2 visited. change (tagged k (c :: q1) q2) with ((c, k) :: tagged k q1 q2).
    rewrite scan_loop_S. simpl. rewrite orb_false_r. intros Hrun Hk Hl.
    case_bool_decide as Hd.
    - assert (k = hops) as -> by lia. assert (q2 = []) as ->.
      { destruct q2 as [|y q2]; [done|]. destruct Hl as (_ & _ & _ & _ & Hq).
        destruct (Hq y); [left|lia]. }
      eapply IH; [exact Hrun|done|by eapply two_levels_pop].
    - destruct (two_levels_step k c q1 q2 visited) as (new & Hq & Hl'); [lia|done|].
      destruct (add_neighbors _ _ _ _) as [visited' q']. simpl in *. subst q'.
      by eapply IH. }
  intros k [|c q1] q2 visited; [|by apply Hcons]. destruct q2 as [|c q2].
  { intros [= <-] Hk Hl. by eapply two_levels_end. }
  intros Hrun Hk Hl. assert (k < hops)%nat as Hlt.
  { destruct Hl as (_ & _ & _ & _ & Hq). destruct (Hq c); [left|lia]. }
  apply (Hcons (S k) c q2 [] visited); [|lia|by apply two_levels_next].
  rewrite <- Hrun. unfold tagged. by rewrite app_nil_r.
Qed.

(** Under any limits: the loop ends, and finds only nodes within reach. *)
Lemma scan_loop_sound max_degree max_nodes (U : gset Z) fuel q visited :
  (∀ x d, (x, d) ∈ q → reach d x) → (∀ x, x ∈ visited → reach hops x) → visited ⊆ U →
  (∀ x z, z ∈ adj_nbrs x → z ∈ U) → (length q + size U ≤ fuel + size visited)%nat →
  ∃ v, scan_loop adj hops max_degree max_nodes fuel q visited = Some v
    ∧ (∀ x, x ∈ v → reach hops x) ∧ visited ⊆ v
    ∧ ∀ cap, max_nodes = Some cap → (size v ≤ cap `max` size visited)%nat.
Proof.
  intros Hq Hv HU Hn. revert q visited Hq Hv HU.
  induction fuel as [|fuel IH]; intros [|[c d] q] visited Hq Hv HU Hfuel;
    try (exists visited; split_and!; [done|done|done|lia]).
  { apply subseteq_size in HU. simpl in Hfuel. lia. }
  rewrite scan_loop_S. simpl in Hfuel. destruct (budget_exhausted max_nodes visited).
  { exists visited. split_and!; [done|done|done|lia]. }
  destruct (bool_decide _) eqn:Ed; [apply IH; [set_solver|done|done|lia]|].
  apply bool_decide_eq_false in Ed. cbn [orb]. destruct (match max_degree with Some _ => _ | None => _ end);
    [apply IH; [set_solver|done|done|lia]|].
  destruct (add_neighbors_spec (fun n => (n, S d)) max_nodes (adj_nbrs c) (visited, q))
    as (new & A1 & A2 & A3 & A4 & _ & A6).
  destruct (add_neighbors _ _ _ _) as [visited' q']. simpl in *. subst q'.
  assert (∀ x, x ∈ new → reach (S d) x) as Hnew.
  { intros x Hx. destruct (A3 x Hx). apply within_S. right. exists c. split; [|done].
    apply Hq. left. }
  destruct (IH (q ++ ((fun n => (n, S d)) <$> new)) visited') as (v & J1 & J2 & J3 & J4).
  - intros x e [Hx|(y & [= -> ->] & Hy)%list_elem_of_fmap]%elem_of_app; [apply Hq; by right|auto].
  - intros x [Hx|Hx]%A2; [auto|]. eapply within_mono; [|by apply Hnew]. lia.
  - intros x [Hx|Hx]%A2; [auto|]. destruct (A3 x Hx). eauto.
  - rewrite length_app, length_fmap, A4. lia.
  - exists v. split_and!; [done|done|set_solver|].
    intros cap Hcap. specialize (A6 cap Hcap). specialize (J4 cap Hcap). lia.
Qed.
End ScanProofs.

Lemma scan_seeds_spec seeds :
  ∃ q1, scan_seeds seeds = (list_to_set seeds, tagged 0 q1 [])
    ∧ (∀ x, x ∈ q1 ↔ x ∈ seeds) ∧ (length q1 = size (list_to_set seeds : gset Z)).
Proof.
  unfold scan_seeds.
  destruct (add_neighbors_spec (fun n => (n, 0%nat)) None seeds (∅, []))
    as (q1 & A1 & A2 & A3 & A4 & A5 & _).
  destruct (add_neighbors _ _ _ _) as [v q]. simpl in *.
  assert (v = list_to_set seeds) as ->.
  { apply set_eq. intros x. rewrite elem_of_list_to_set. split; [|by apply A5].
    intros [[]%not_elem_of_empty|Hx]%A2. by apply A3. }
  exists q1. unfold tagged. rewrite app_nil_r. split_and!.
  - by rewrite A1.
  - intros x. split; [intros Hx; by apply A3|]. intros Hx%(A5 eq_refl).
    by destruct (proj1 (A2 x) Hx) as [[]%not_elem_of_empty|].
  - by rewrite A4.
Qed.

Section ScanTheorems.
Context (hash_iter : gset Z → list Z) (Hiter : ∀ X, hash_iter X ≡ₚ elements X).
Context (rows : list (Z * Z)) (directed : bool).

Definition row_nbrs : Z → list Z := adj_nbrs (scan_adjacency rows directed).

Lemma graph_neighborhood_scan_sound seeds hops max_degree max_nodes :
  ∃ l, graph_neighborhood_scan hash_iter rows directed seeds hops max_degree max_nodes = Some l
    ∧ StronglySorted Z.lt l ∧ (∀ s, s ∈ seeds → s ∈ l)
    ∧ (∀ x, x ∈ l → within row_nbrs (list_to_set seeds) hops x)
    ∧ ∀ cap, max_nodes = Some cap → (length l ≤ cap `max` length seeds)%nat.
Proof.
  unfold graph_neighborhood_scan, scan_bfs.
  destruct (scan_seeds_spec seeds) as (q1 & -> & Hq1 & Hlen).
  set (V := list_to_set seeds : gset Z) in *.
  set (U := V ∪ list_to_set (rows.*1 ++ rows.*2)).
  pose proof (size_list_to_set_le seeds) as Hs. fold V in Hs.
  destruct (scan_loop_sound (scan_adjacency rows directed) V hops max_degree max_nodes U
    (length seeds + 2 * length rows) (tagged 0 q1 []) V) as (v & -> & H1 & H2 & H3).
  - unfold tagged. rewrite app_nil_r.
    intros x d (y & [= -> ->] & Hy)%list_elem_of_fmap. apply within_0.
    by apply elem_of_list_to_set, Hq1.
  - intros x Hx. apply within_mono with 0%nat; [lia|]. by apply within_0.
  - apply union_subseteq_l.
  - intros x z Hz%scan_adjacency_spec. apply elem_of_union_r, elem_of_list_to_set, elem_of_app.
    destruct Hz as [Hz|[_ Hz]]; [right|left]; apply list_elem_of_fmap; eexists;
      (split; [|exact Hz]); done.
  - unfold tagged. rewrite app_nil_r, length_fmap, Hlen. unfold U.
    etrans; [apply Nat.add_le_mono_l, size_union_le|].
    pose proof (size_list_to_set_le (rows.*1 ++ rows.*2)) as Hr.
    rewrite length_app, !length_fmap in Hr. lia.
  - cbn [mbind option_bind]. eexists. split; [done|].
    split_and!; [by apply sorted_hash_iter| | |].
    + intros s Hin. rewrite elem_of_sort_u64, elem_of_hash_iter by done.
      by apply H2, elem_of_list_to_set.
    + intros x. rewrite elem_of_sort_u64, elem_of_hash_iter by done. apply H1.
    + intros cap Hcap. specialize (H3 cap Hcap). rewrite sort_u64_perm, Hiter.
      change (length (elements ?X)) with (size X). lia.
Qed.

Lemma graph_neighborhood_scan_complete seeds hops l :
  graph_neighborhood_scan hash_iter rows directed seeds hops None None = Some l →
  is_neighborhood row_nbrs seeds hops l.
Proof.
  unfold graph_neighborhood_scan, scan_bfs.
  destruct (scan_seeds_spec seeds) as (q1 & -> & Hq1 & _).
  destruct (scan_loop _ _ _ _ _ _ _) as [v|] eqn:E; [|done]. cbn [mbind option_bind].
  intros [= <-]. split; [by apply sorted_hash_iter|]. intros x.
  rewrite elem_of_sort_u64, elem_of_hash_iter by done. revert x.
  eapply scan_loop_complete; [exact E|lia|].
  assert (∀ x, within (adj_nbrs (scan_adjacency rows directed)) (list_to_set seeds) 0 x
    ↔ x ∈ q1) as H0.
  { intros x. by rewrite within_0, elem_of_list_to_set, Hq1. }
  split_and!; [| | |by intros x ?; apply H0|by intros x []%not_elem_of_nil].
  - intros x Hx. by apply within_0 in Hx.
  - intros x Hx. left. by apply within_0.
  - intros _ x z Hx%H0 Hn. done.
Qed.
End ScanTheorems.

(** *** By SQL *)

Lemma sql_next_spec rows directed frontier visited x :
  x ∈ sql_next (sql_adjacency rows directed) frontier visited
  ↔ x ∉ visited ∧ ∃ y, y ∈ frontier ∧ x ∈ row_nbrs rows directed y.
Proof.
  assert (∀ u v, v ∈ row_nbrs rows directed u ↔ (u, v) ∈ sql_adjacency rows directed) as Hadj.
  { intros u v. unfold row_nbrs, adj_nbrs. rewrite scan_adjacency_spec. unfold row_edge, sql_adjacency.
    rewrite elem_of_list_to_set. destruct directed; [naive_solver|].
    rewrite elem_of_app, list_elem_of_fmap. split.
    - intros [?|[_ ?]]; [by left|right]. by exists (v, u).
    - intros [?|([a b] & [= -> ->] & ?)]; [by left|by right]. }
  unfold sql_next. rewrite elem_of_list_to_set, list_elem_of_fmap. split.
  - intros ([u v] & -> & [[Hf Hv] Hin]%list_elem_of_filter). simpl in *. split; [done|].
    exists u. split; [done|]. by apply Hadj, elem_of_elements.
  - intros [Hv (y & Hf & Hy%Hadj)]. exists (y, x). split; [done|].
    apply list_elem_of_filter. split; [done|]. by apply elem_of_elements.
Qed.

Lemma sql_hops_complete rows directed seeds hops k frontier visited :
  level (row_nbrs rows directed) seeds k (fun x => x ∈ frontier) visited →
  ∀ x, x ∈ sql_hops (sql_adjacency rows directed) hops frontier visited
    ↔ within (row_nbrs rows directed) seeds (k + hops) x.
Proof.
  revert k frontier visited. induction hops as [|hops IH]; intros k frontier visited Hl; cbn [sql_hops].
  { rewrite Nat.add_0_r. apply Hl. }
  set (next := sql_next _ _ _).
  assert (level (row_nbrs rows directed) seeds (S k) (fun x => x ∈ next) (visited ∪ next)) as Hl'.
  { eapply (level_step _ _ k (fun x => x ∈ frontier)); [exact Hl|set_solver|].
    intros x. apply sql_next_spec. }
  case_decide as He.
  - rewrite He, union_empty_r_L in Hl'. apply level_closed with (S k); [|lia].
    eapply level_ext; [|exact Hl']. set_solver.
  - rewrite Nat.add_succ_r. by apply (IH (S k)).
Qed.

Lemma bfs_visited_complete rows directed seeds hops :
  is_neighborhood (row_nbrs rows directed) seeds hops (bfs_visited rows seeds hops directed).
Proof.
  unfold bfs_visited. destruct seeds as [|s seeds].
  { split; [constructor|]. intros x. split; [intros []%not_elem_of_nil|].
    intros (y & _ & Hy & _). set_solver. }
  split; [apply sort_dedup_sorted|]. intros x.
  rewrite elem_of_sort_dedup, elem_of_elements. apply (sql_hops_complete _ _ _ hops 0).
  apply level_start.
Qed.

(** ** The neighborhood of a table *)

Section Table.
Context (hash_iter : gset Z → list Z) (forward reverse : option MultiSegmentCsrGraph).
Context (rows : list (Z * Z)) (directed relations_given : bool).

Lemma row_nbrs_spec u v : v ∈ row_nbrs rows directed u ↔ row_edge rows directed u v.
Proof. apply scan_adjacency_spec. Qed.

(** What every path of the dispatch satisfies. *)
Lemma graph_neighborhood_cases (P : list Z → Prop) seeds hops max_degree max_nodes :
  (relations_given = false → indexed_rows forward reverse rows) → (seeds = [] → P []) →
  (∀ g r, (∀ u v, v ∈ bfs_nbrs g r directed u ↔ row_edge rows directed u v) →
    P (csr_bfs_visited hash_iter g r directed max_degree max_nodes seeds hops)) →
  (∃ l, graph_neighborhood_scan hash_iter rows directed seeds hops max_degree max_nodes = Some l
    ∧ P l) →
  ∃ l, graph_neighborhood hash_iter relations_given forward reverse rows directed seeds hops
         max_degree max_nodes = Some l ∧ P l.
Proof.
  intros Hm Hnil Hcsr Hscan. unfold graph_neighborhood. destruct seeds as [|s seeds]; [eauto|].
  destruct relations_given eqn:Hrel; [done|]. destruct forward as [g|] eqn:Hg; [|done].
  destruct (directed || _) eqn:Hd; [|done]. eexists. split; [done|]. apply Hcsr. intros u v.
  unfold bfs_nbrs, use_reverse. rewrite <- (indexed_edge (Some g) reverse g); [|by apply Hm|done|done].
  by destruct directed.
Qed.
End Table.

(** C24: Without limits the neighborhood of a table does not depend on how it is computed:
    over the graph indexes (when they hold the edges of the rows), by a scan, or by SQL with
    materialized frontiers, the answer is the sorted list of the nodes at most [hops] edges
    away from a seed; the loops end, in whatever order hash sets are iterated. *)
Theorem neighborhood_paths_agree hash_iter relations_given forward reverse rows directed seeds hops
    nbrs :
  (∀ X, hash_iter X ≡ₚ elements X) →
  (relations_given = false → indexed_rows forward reverse rows) →
  (∀ u v, v ∈ nbrs u ↔ row_edge rows directed u v) →
  graph_neighborhood hash_iter relations_given forward reverse rows directed seeds hops None None
    = Some (bfs_visited rows seeds hops directed)
  ∧ is_neighborhood nbrs seeds hops (bfs_visited rows seeds hops directed).
Proof.
  intros Hiter Hm Hn.
  pose proof (bfs_visited_complete rows directed seeds hops) as Hsql.
  assert (∀ u v, v ∈ nbrs u ↔ v ∈ row_nbrs rows directed u) as Hnr
    by (intros u v; by rewrite Hn, row_nbrs_spec).
  split; [|destruct Hsql as [H1 H2]; split; [done|intros x; rewrite H2;
    split; apply within_ext; intros u v; by rewrite Hnr]].
  destruct (graph_neighborhood_cases hash_iter forward reverse rows directed relations_given
    (fun l => l = bfs_visited rows seeds hops directed) seeds hops None None) as (l & Hl & Heq);
    [done|by intros ->| | |by rewrite Hl, Heq].
  - intros g r Hgr. eapply is_neighborhood_unique; [|by apply csr_bfs_complete|exact Hsql].
    intros u v. by rewrite Hgr, row_nbrs_spec.
  - destruct (graph_neighborhood_scan_sound hash_iter Hiter rows directed seeds hops None None)
      as (l & Hl & _). exists l. split; [done|].
    eapply is_neighborhood_unique;
      [|eapply (graph_neighborhood_scan_complete hash_iter Hiter); exact Hl|exact Hsql]. done.
Qed.

(** Under any limits on degrees and nodes the answer is sorted, contains every seed,
    contains only nodes at most [hops] edges away, and has at most [max_nodes] nodes (or
    the number of seeds, when that is more). *)
Theorem neighborhood_within_limits hash_iter relations_given forward reverse rows directed seeds
    hops max_degree max_nodes nbrs :
  (∀ X, hash_iter X ≡ₚ elements X) →
  (relations_given = false → indexed_rows forward reverse rows) →
  (∀ u v, v ∈ nbrs u ↔ row_edge rows directed u v) →
  ∃ l, graph_neighborhood hash_iter relations_given forward reverse rows directed seeds hops
         max_degree max_nodes = Some l
    ∧ StronglySorted Z.lt l ∧ (∀ s, s ∈ seeds → s ∈ l)
    ∧ (∀ x, x ∈ l → within nbrs (list_to_set seeds) hops x)
    ∧ ∀ cap, max_nodes = Some cap → (length l ≤ cap `max` length seeds)%nat.
Proof.
  intros Hiter Hm Hn. apply graph_neighborhood_cases; [done| | |].
  - intros ->. split_and!; [constructor|done|by intros x []%not_elem_of_nil|simpl; lia].
  - intros g r Hgr.
    destruct (csr_bfs_sound hash_iter Hiter g r directed max_degree max_nodes seeds hops)
      as (H1 & H2 & H3 & H4). split_and!; [done|done| |done].
    intros x Hx. eapply within_ext; [|by apply H3]. intros u v. by rewrite Hgr, Hn.
  - destruct (graph_neighborhood_scan_sound hash_iter Hiter rows directed seeds hops max_degree
      max_nodes) as (l & Hl & H1 & H2 & H3 & H4). exists l. split; [done|].
    split_and!; [done|done| |done].
    intros x Hx. eapply within_ext; [|by apply H3]. intros u v. by rewrite row_nbrs_spec, Hn.
Qed.

Lemma sort_edges_sorted l : StronglySorted pair_le (sort_edges l).
Proof.
  apply StronglySorted_merge_sort.
  - intros [a b] [c d] [e f]. unfold pair_le. simpl. lia.
  - intros [a b] [c d]. unfold pair_le. simpl. lia.
Qed.

(** The edges around seeds are the edges of the table whose endpoints both are in the
    neighborhood of the seeds, each once and in order, whether nodes and edges come from
    graph indexes or from scanned rows. *)
Theorem subgraph_edges_induced hash_iter node_forward node_reverse edge_index rows directed seeds
    hops max_degree max_nodes nodes :
  seeds ≠ [] → indexed_rows edge_index None rows →
  graph_neighborhood hash_iter false node_forward node_reverse rows directed seeds hops max_degree
    max_nodes = Some nodes →
  ∃ l, subgraph_edges_with_columns hash_iter node_forward node_reverse edge_index rows directed
         seeds hops max_degree max_nodes = Some l
    ∧ StronglySorted pair_le l ∧ NoDup l
    ∧ ∀ u v, (u, v) ∈ l ↔ (u, v) ∈ rows ∧ u ∈ nodes ∧ v ∈ nodes.
Proof.
  intros Hne [He _] Hnb. unfold subgraph_edges_with_columns.
  destruct seeds as [|s seeds]; [done|]. rewrite Hnb. cbn [mbind option_bind].
  assert (∀ X : gset (Z * Z), StronglySorted pair_le (sort_edges (elements X))
    ∧ NoDup (sort_edges (elements X))) as Hsort.
  { intros X. split; [apply sort_edges_sorted|]. unfold sort_edges.
    rewrite merge_sort_Permutation. apply NoDup_elements. }
  case_decide as E.
  { exists []. split; [done|]. split; [constructor|]. split; [constructor|].
    intros u v. split; [intros []%not_elem_of_nil|]. intros (_ & Hu & _).
    assert (u ∈ (list_to_set nodes : gset Z)) as Hin by by apply elem_of_list_to_set.
    rewrite E in Hin. by apply not_elem_of_empty in Hin. }
  destruct edge_index as [g|].
  - eexists. split; [done|]. destruct (Hsort (list_to_set (elements (list_to_set nodes : gset Z) ≫=
      fun u => pair u <$> filter (fun v => v ∈ (list_to_set nodes : gset Z)) (get_neighbors g u))))
      as [H1 H2].
    split; [exact H1|]. split; [exact H2|]. intros u v. rewrite elem_of_region_edges.
    destruct (He g eq_refl) as [Hwf Hp]. unfold edge. rewrite (index_edge g rows) by done.
    rewrite !elem_of_list_to_set. tauto.
  - eexists. split; [done|]. split; [apply Hsort|]. split; [apply Hsort|]. intros u v.
    unfold sort_edges. rewrite merge_sort_Permutation, elem_of_elements, elem_of_list_to_set.
    rewrite list_elem_of_filter. simpl. rewrite !elem_of_list_to_set. tauto.
Qed.

(** ** Instances *)

Module NeighborhoodExamples.
Import CsrExamples ShortestPathExamples.

Example neighborhoods_computed :
  graph_neighborhood elements false (Some two_segments) (Some rows_reversed) some_rows false
    [3] 2 None None = Some [3; 8; 9]
  ∧ graph_neighborhood elements true None None some_rows false [3] 2 None None = Some [3; 8; 9]
  ∧ graph_neighborhood elements false (Some two_segments) (Some rows_reversed) some_rows false
      [3] 2 None (Some 2%nat) = Some [3; 8]
  ∧ graph_neighborhood elements false (Some two_segments) None some_rows true [3; 6] 1 None None
    = Some [3; 5; 6; 8].
Proof. split_and!; vm_compute; reflexivity. Qed.

Lemma neighborhood_paths_agree_witness :
  indexed_rows (Some two_segments) (Some rows_reversed) some_rows
  ∧ graph_neighborhood elements false (Some two_segments) (Some rows_reversed) some_rows false
      [3] 2 None None = Some (bfs_visited some_rows [3] 2 false).
Proof.
  split; [exact some_rows_indexed|].
  apply (neighborhood_paths_agree elements false (Some two_segments) (Some rows_reversed)
    some_rows false [3] 2 (row_nbrs some_rows false));
    [done|intros _; exact some_rows_indexed|apply row_nbrs_spec].
Defined.

Lemma neighborhood_within_limits_witness :
  indexed_rows (Some two_segments) (Some rows_reversed) some_rows
  ∧ ∃ l, graph_neighborhood elements false (Some two_segments) (Some rows_reversed) some_rows
           false [3] 2 (Some 1%nat) (Some 2%nat) = Some l ∧ (length l ≤ 2)%nat.
Proof.
  split; [exact some_rows_indexed|].
  destruct (neighborhood_within_limits elements false (Some two_segments) (Some rows_reversed)
    some_rows false [3] 2 (Some 1%nat) (Some 2%nat) (row_nbrs some_rows false))
    as (l & Hl & _ & _ & _ & Hcap);
    [done|intros _; exact some_rows_indexed|apply row_nbrs_spec|].
  exists l. split; [exact Hl|exact (Hcap 2%nat eq_refl)].
Defined.

Lemma subgraph_edges_induced_witness :
  indexed_rows (Some two_segments) None some_rows
  ∧ subgraph_edges_with_columns elements None None (Some two_segments) some_rows false [3] 2 None
      None = Some [(3, 8); (9, 8)]
  ∧ (∀ u v, (u, v) ∈ [(3, 8); (9, 8)] ↔ (u, v) ∈ some_rows ∧ u ∈ [3; 8; 9] ∧ v ∈ [3; 8; 9]).
Proof.
  assert (indexed_rows (Some two_segments) None some_rows) as Hi
    by (split; [apply some_rows_indexed|done]).
  assert (subgraph_edges_with_columns elements None None (Some two_segments) some_rows false [3] 2
    None None = Some [(3, 8); (9, 8)]) as E by (vm_compute; reflexivity).
  split; [done|]. split; [done|].
  destruct (subgraph_edges_induced elements None None (Some two_segments) some_rows false [3] 2 None
    None [3; 8; 9]) as (l & Hl & _ & _ & Hin);
    [done|done|vm_compute; reflexivity|].
  rewrite E in Hl. injection Hl as <-. exact Hin.
Defined.

(** Without seeds, a repeated row appears once in a scan and twice over the index. *)
Example repeated_row_without_seeds :
  subgraph_edges_with_columns elements None None None [(7, 42); (7, 42)] false [] 1 None None
    = Some [(7, 42)]
  ∧ subgraph_edges_with_columns elements None None
      (Some {| segments := [index_of [raw 7 42 0; raw 7 42 1]] |}) [(7, 42); (7, 42)] false [] 1
      None None = Some [(7, 42); (7, 42)].
Proof. split; vm_compute; reflexivity. Qed.

End NeighborhoodExamples.
