(* ===== verification/Deletes.v ===== *)
(** * Row-level deletes at read time

    How a reader finds the deleted rows of a data file and leaves them out:
    [src/src/core/iceberg/delete.rs] (position delete files), [src/src/core/reader/delete.rs]
    (merging them, with the process-wide caches), [bitmap_to_row_selection] of
    [src/src/core/reader/filter.rs] and [stream_row_groups] of [src/src/core/reader/scan.rs].
    A bitmap is a set of row numbers below 2^32.  Fetching and decoding of files are
    parameters. *)

From S2P Require Import Prelude ManifestTypes.

Open Scope Z_scope.

(** ** Position delete files *)

(** The positions a delete file lists, by the data file they refer to. *)
Abbreviation pos_map := (gmap string (gset Z)).

(** [result_map.entry(fp).or_default().insert(pos)] *)
Definition add_position (m : pos_map) (fp : string) (pos : Z) : pos_map :=
  <[fp := {[pos]} ∪ default ∅ (m !! fp)]> m.

(** A decoded Avro value, as far as the reader looks at it. *)
Inductive AvroValue := AvString (s : string) | AvLong (z : Z) | AvOther.
Inductive AvroItem := AvRecord (fields : list (string * AvroValue)) | AvNotRecord.

Definition avro_field (acc : option string * option Z) (f : string * AvroValue)
  : option string * option Z :=
  let '(file_path, pos) := acc in
  if decide (f.1 = "file_path") then
    (match f.2 with AvString s => Some s | _ => file_path end, pos)
  else if decide (f.1 = "pos") then
    (file_path, match f.2 with AvLong p => Some p | _ => pos end)
  else (file_path, pos).

Definition avro_item (m : pos_map) (v : AvroItem) : pos_map :=
  match v with
  | AvRecord fields =>
      match foldl avro_field (None, None) fields with
      | (Some fp, Some p) => add_position m fp p
      | _ => m
      end
  | AvNotRecord => m
  end.
Definition read_deletes_avro (items : list AvroItem) : pos_map := foldl avro_item ∅ items.

(** A decoded batch: its columns by name and its number of rows. *)
Inductive DelColumn := StringColumn (l : list string) | Int64Column (l : list Z) | OtherColumn.
Record DelBatch := { db_columns : gmap string DelColumn; db_num_rows : nat }.

(** [None]: a column of the wrong type, or a value out of range. *)
Definition parquet_rows (m : pos_map) (fps : list string) (poss : list Z) (n : nat) : option pos_map :=
  foldl (fun m i => m ← m; fp ← fps !! i; p ← poss !! i; Some (add_position m fp p))
    (Some m) (seq 0 n).
Definition parquet_batch (m : option pos_map) (b : DelBatch) : option pos_map :=
  m ← m;
  match db_columns b !! "file_path", db_columns b !! "pos" with
  | Some c1, Some c2 =>
      match c1, c2 with
      | StringColumn fps, Int64Column poss => parquet_rows m fps poss (db_num_rows b)
      | _, _ => None
      end
  | _, _ => Some m
  end.
Definition read_deletes_parquet (batches : list DelBatch) : option pos_map :=
  foldl parquet_batch (Some ∅) batches.

Definition file_prefix : string := "file://".
Definition strip_file (s : string) : string := default s (strip_prefix file_prefix s).

Definition fits_u32 (z : Z) : bool := (0 <=? z) && (z <=? 2 ^ 32 - 1).

(** Does a position delete recorded for [fp] concern the data file [target]? *)
Definition path_matches (fp target : string) : bool :=
  let fp_clean := strip_file fp in
  let target_clean := strip_file target in
  bool_decide (fp_clean = target_clean) || ends_with fp_clean target_clean
  || ends_with target_clean fp_clean.

Definition filter_map_to_bitmap (full_map : pos_map) (target : string) : gset Z :=
  list_to_set (map_to_list full_map ≫= fun e : string * gset Z =>
    if path_matches e.1 target then filter (fun pos => fits_u32 pos = true) (elements e.2) else []).

Lemma elem_of_filter_map m target p :
  p ∈ filter_map_to_bitmap m target
  ↔ fits_u32 p = true ∧ ∃ fp ps, m !! fp = Some ps ∧ path_matches fp target = true ∧ p ∈ ps.
Proof.
  unfold filter_map_to_bitmap. rewrite elem_of_list_to_set, list_elem_of_bind. split.
  - intros ([fp ps] & Hp & Hin%elem_of_map_to_list). simpl in Hp.
    destruct (path_matches fp target) eqn:E; [|by apply not_elem_of_nil in Hp].
    apply list_elem_of_filter in Hp as [Hu Hp%elem_of_elements]. eauto 10.
  - intros (Hu & fp & ps & Hm & Ht & Hp). exists (fp, ps). rewrite elem_of_map_to_list.
    split; [|done]. simpl. rewrite Ht. apply list_elem_of_filter. by rewrite elem_of_elements.
Qed.

(** ** The delete files of a segment *)

Record SegmentConfig := {
  sc_base_path : string;
  sc_segment_id : string;
  sc_parquet_path : option string;
  sc_delete_files : list DeleteFile
}.
Record HybridReader := { hr_config : SegmentConfig; hr_root_uri : string }.

(** The first of the files with a path. *)
Fixpoint unique_from (seen : gset string) (l : list DeleteFile) : list DeleteFile :=
  match l with
  | [] => []
  | d :: l =>
      if decide (df_file_path d ∈ seen) then unique_from seen l
      else d :: unique_from ({[df_file_path d]} ∪ seen) l
  end.
Definition unique_delete_files (r : HybridReader) : list DeleteFile :=
  unique_from ∅ (sc_delete_files (hr_config r)).

Definition target_path (r : HybridReader) : string :=
  match sc_parquet_path (hr_config r) with
  | Some p => p
  | None => sc_base_path (hr_config r) +:+ "/" +:+ sc_segment_id (hr_config r) +:+ ".parquet"
  end.

(** The cache key: two 64-bit FNV-1a hashes of the sorted paths and the target. *)
Definition fnv_prime : Z := 0x100000001b3.
Definition fnv_step (h b : Z) : Z := wrap_u64 (Z.lxor h b * fnv_prime).
Definition fnv_str (h : Z) (s : string) : Z :=
  foldl fnv_step h ((fun a => Z.of_N (Ascii.N_of_ascii a)) <$> String.list_ascii_of_string s).
Definition fnv_part (h : Z) (s : string) : Z := fnv_step (fnv_str h s) 0xff.

Definition sort_strings : list string → list string := merge_sort String.le.

Definition merged_deletes_cache_key (r : HybridReader) : option string :=
  match sc_delete_files (hr_config r) with
  | [] => None
  | _ =>
      let target := target_path r in
      let parts := sort_strings (df_file_path <$> unique_delete_files r) in
      let h1 := fnv_str (foldl fnv_part 0xcbf29ce484222325 parts) target in
      let h2 := fnv_str (foldl fnv_part 0x84222325cbf29ce4 parts) target in
      Some (u64_to_string (Z.of_nat (String.length target)) +:+ ":" +:+ u64_to_string h1
            +:+ ":" +:+ u64_to_string h2)
  end.

(** The URI of a delete file relative to the table root. *)
Definition resolve_delete_path (root_uri path : string) : string :=
  let root_clean := trim_end slash (strip_file root_uri) in
  let path_clean := strip_file path in
  match strip_prefix root_clean path_clean with
  | Some rest =>
      if decide (root_clean = "") then trim_start slash path_clean else trim_start slash rest
  | None => trim_start slash path_clean
  end.

(** ** Merging them *)

Record DeleteCaches := {
  (** [FULL_DELETE_FILE_CACHE] and [POSITION_DELETE_CACHE]. *)
  full_cache : gmap string pos_map;
  pos_cache : gmap string (gset Z)
}.

Inductive FileDeletes := FdMap (m : pos_map) | FdBitmap (b : gset Z).

(** The object store and the decoders: [get] and [get_range] take the string from which the
    code makes a store path; [None] is any error. *)
Record DeleteIo := {
  io_get : string → option bytes;
  io_get_range : string → Z → Z → option bytes;
  io_avro : bytes → option (list AvroItem);
  io_parquet : bytes → option (list DelBatch);
  io_bitmap : bytes → option (gset Z)
}.

(** Fetching and parsing one position delete file. *)
Definition parse_deletes (io : DeleteIo) (path : string) : option pos_map :=
  b ← io_get io path;
  if ends_with ".avro" path then items ← io_avro io b; Some (read_deletes_avro items)
  else batches ← io_parquet io b; read_deletes_parquet batches.

(** [fetch_deletes_map]: through the cache; only a success is stored. *)
Definition fetch_deletes_map (io : DeleteIo) (c : DeleteCaches) (path : string)
  : option pos_map * DeleteCaches :=
  match full_cache c !! path with
  | Some m => (Some m, c)
  | None =>
      match parse_deletes io path with
      | Some m => (Some m, {| full_cache := <[path := m]> (full_cache c); pos_cache := pos_cache c |})
      | None => (None, c)
      end
  end.

(** One position delete file; a failure is logged and counts as no deletes. *)
Definition fetch_position (io : DeleteIo) (root_uri : string) (c : DeleteCaches) (path : string)
  : FileDeletes * DeleteCaches :=
  let resolved := resolve_delete_path root_uri path in
  if ends_with ".parquet" resolved || ends_with ".avro" resolved then
    let '(m, c) := fetch_deletes_map io c resolved in (FdMap (default ∅ m), c)
  else (FdBitmap (default ∅ (b ← io_get io path; io_bitmap io b)), c).

Fixpoint fetch_positions (io : DeleteIo) (root_uri : string) (c : DeleteCaches)
    (files : list DeleteFile) : list FileDeletes * DeleteCaches :=
  match files with
  | [] => ([], c)
  | d :: files =>
      match df_content d with
      | Position =>
          let '(fd, c) := fetch_position io root_uri c (df_file_path d) in
          let '(fds, c) := fetch_positions io root_uri c files in
          (fd :: fds, c)
      | _ => fetch_positions io root_uri c files
      end
  end.

(** A deletion vector; a failure is logged and counts as no deletes. *)
Definition fetch_vector (io : DeleteIo) (d : DeleteFile) : gset Z :=
  match df_content d with
  | DeletionVector path offset size =>
      default ∅ (b ← io_get_range io path (wrap_u64 offset) (wrap_u64 (offset + size));
                 io_bitmap io b)
  | _ => ∅
  end.

Definition bitmap_of (target : string) (fd : FileDeletes) : gset Z :=
  match fd with
  | FdMap m => filter_map_to_bitmap m (strip_file target)
  | FdBitmap b => b
  end.

Definition load_merged_deletes (io : DeleteIo) (c : DeleteCaches) (r : HybridReader)
  : gset Z * DeleteCaches :=
  let key := merged_deletes_cache_key r in
  match (k ← key; pos_cache c !! k) with
  | Some cached => (filter (fun pos => fits_u32 pos = true) cached, c)
  | None =>
      let unique := unique_delete_files r in
      let '(fds, c) := fetch_positions io (hr_root_uri r) c unique in
      let deleted := ⋃ (bitmap_of (target_path r) <$> fds) ∪ ⋃ (fetch_vector io <$> unique) in
      (deleted,
       match key with
       | Some k => {| full_cache := full_cache c; pos_cache := <[k := deleted]> (pos_cache c) |}
       | None => c
       end)
  end.

(** ** What is deleted *)

(** The rows one delete file deletes in a data file. *)
Definition deletes_of (io : DeleteIo) (r : HybridReader) (d : DeleteFile) : gset Z :=
  match df_content d with
  | Position =>
      let resolved := resolve_delete_path (hr_root_uri r) (df_file_path d) in
      if ends_with ".parquet" resolved || ends_with ".avro" resolved then
        filter_map_to_bitmap (default ∅ (parse_deletes io resolved)) (strip_file (target_path r))
      else default ∅ (b ← io_get io (df_file_path d); io_bitmap io b)
  | Equality _ => ∅
  | DeletionVector _ _ _ => fetch_vector io d
  end.

Definition all_deletes (io : DeleteIo) (r : HybridReader) : gset Z :=
  ⋃ (deletes_of io r <$> sc_delete_files (hr_config r)).

(** No file the reader needs fails to be read. *)
Definition readable (io : DeleteIo) (r : HybridReader) (d : DeleteFile) : bool :=
  match df_content d with
  | Position =>
      let resolved := resolve_delete_path (hr_root_uri r) (df_file_path d) in
      if ends_with ".parquet" resolved || ends_with ".avro" resolved
      then bool_decide (is_Some (parse_deletes io resolved))
      else bool_decide (is_Some (b ← io_get io (df_file_path d); io_bitmap io b))
  | Equality _ => true
  | DeletionVector path offset size =>
      bool_decide (is_Some (b ← io_get_range io path (wrap_u64 offset) (wrap_u64 (offset + size));
                            io_bitmap io b))
  end.

(** ** The caches are transparent *)

(** [io] returns what [io0] returns, or fails: objects are immutable. *)
Record io_agrees (io io0 : DeleteIo) : Prop := {
  ag_get : ∀ p b, io_get io p = Some b → io_get io0 p = Some b;
  ag_range : ∀ p i j b, io_get_range io p i j = Some b → io_get_range io0 p i j = Some b;
  ag_avro : ∀ b, io_avro io b = io_avro io0 b;
  ag_parquet : ∀ b, io_parquet io b = io_parquet io0 b;
  ag_bitmap : ∀ b, io_bitmap io b = io_bitmap io0 b
}.

(** Bitmaps hold 32-bit row numbers. *)
Definition bitmaps_u32 (io : DeleteIo) : Prop :=
  ∀ b S p, io_bitmap io b = Some S → p ∈ S → fits_u32 p = true.

(** A path identifies a delete file. *)
Definition paths_identify (r : HybridReader) : Prop :=
  ∀ d d', d ∈ sc_delete_files (hr_config r) → d' ∈ sc_delete_files (hr_config r) →
    df_file_path d = df_file_path d' → df_content d = df_content d'.

(** The readers whose cache keys do not collide. *)
Definition keys_distinguish (K : list HybridReader) : Prop :=
  ∀ r r' k, r ∈ K → r' ∈ K → merged_deletes_cache_key r = Some k →
    merged_deletes_cache_key r' = Some k →
    target_path r = target_path r' ∧ hr_root_uri r = hr_root_uri r'
    ∧ ∀ d, d ∈ sc_delete_files (hr_config r) ↔ d ∈ sc_delete_files (hr_config r').

(** The files that are kept cover all of them. *)
Lemma unique_from_spec seen l :
  (∀ d, d ∈ unique_from seen l → d ∈ l)
  ∧ (∀ d, d ∈ l → df_file_path d ∈ seen
       ∨ ∃ d', d' ∈ unique_from seen l ∧ df_file_path d' = df_file_path d).
Proof.
  revert seen. induction l as [|e l IH]; intros seen; simpl; [set_solver|].
  case_decide as E.
  - destruct (IH seen) as [H1 H2]. split; [set_solver|].
    intros d [->|Hd]%elem_of_cons; [by left|auto].
  - destruct (IH ({[df_file_path e]} ∪ seen)) as [H1 H2]. split; [set_solver|].
    intros d [->|Hd]%elem_of_cons; [right; exists e; split; [left|done]|].
    destruct (H2 d Hd) as [[Heq%elem_of_singleton|?]%elem_of_union|(d' & Hin & ?)].
    + right. exists e. split; [left|done].
    + by left.
    + right. exists d'. split; [by right|done].
Qed.

Section Sound.
Context (io0 : DeleteIo) (K : list HybridReader).
Context (Hu32 : bitmaps_u32 io0) (Hkeys : keys_distinguish K).

Record caches_sound (c : DeleteCaches) : Prop := {
  cs_full : ∀ p m, full_cache c !! p = Some m → parse_deletes io0 p = Some m;
  cs_pos : ∀ k S r, pos_cache c !! k = Some S → r ∈ K → merged_deletes_cache_key r = Some k →
    S = all_deletes io0 r
}.

Lemma parse_agrees io p m :
  io_agrees io io0 → parse_deletes io p = Some m → parse_deletes io0 p = Some m.
Proof.
  intros [Hg _ Ha Hp _]. unfold parse_deletes. destruct (io_get io p) as [b|] eqn:E; [|done].
  rewrite (Hg _ _ E). simpl. by rewrite Ha, Hp.
Qed.

Lemma fetch_deletes_map_sound io c p :
  io_agrees io io0 → caches_sound c → is_Some (parse_deletes io p) →
  (fetch_deletes_map io c p).1 = parse_deletes io0 p
  ∧ caches_sound (fetch_deletes_map io c p).2
  ∧ pos_cache (fetch_deletes_map io c p).2 = pos_cache c.
Proof.
  intros Hag Hc [m Hm]. unfold fetch_deletes_map.
  destruct (full_cache c !! p) as [m'|] eqn:E.
  - simpl. by rewrite (cs_full c Hc _ _ E).
  - rewrite Hm. simpl. split; [by rewrite (parse_agrees io p m)|]. split; [|done].
    split; [|by apply (cs_pos c Hc)]. simpl. intros q m' [[<- <-]|[_ Hq]]%lookup_insert_Some.
    + by eapply parse_agrees.
    + by eapply cs_full.
Qed.

Lemma fetch_position_sound io r c d :
  io_agrees io io0 → caches_sound c → df_content d = Position → readable io r d = true →
  bitmap_of (target_path r) (fetch_position io (hr_root_uri r) c (df_file_path d)).1
    = deletes_of io0 r d
  ∧ caches_sound (fetch_position io (hr_root_uri r) c (df_file_path d)).2
  ∧ pos_cache (fetch_position io (hr_root_uri r) c (df_file_path d)).2 = pos_cache c.
Proof.
  intros Hag Hc Hd Hr. unfold readable in Hr. unfold fetch_position, deletes_of.
  rewrite Hd in *. set (p := resolve_delete_path _ _) in *.
  destruct (ends_with ".parquet" p || ends_with ".avro" p).
  - apply bool_decide_eq_true in Hr.
    destruct (fetch_deletes_map_sound io c p Hag Hc Hr) as (H1 & H2 & H3).
    destruct (fetch_deletes_map io c p) as [m c']. simpl in *. by rewrite H1.
  - apply bool_decide_eq_true in Hr as [S HS]. simpl. split; [|done].
    destruct (io_get io (df_file_path d)) as [b|] eqn:E; [|done]. simpl in *.
    rewrite (ag_get _ _ Hag _ _ E). simpl. by rewrite (ag_bitmap _ _ Hag).
Qed.

Lemma fetch_positions_sound io r c files :
  io_agrees io io0 → caches_sound c → Forall (fun d => readable io r d = true) files →
  let '(fds, c') := fetch_positions io (hr_root_uri r) c files in
  ⋃ (bitmap_of (target_path r) <$> fds)
    = ⋃ (deletes_of io0 r <$> filter (fun d => df_content d = Position) files)
  ∧ caches_sound c' ∧ pos_cache c' = pos_cache c.
Proof.
  intros Hag Hc Hr. revert c Hc. induction Hr as [|d files Hd Hr IH]; intros c Hc; [done|].
  simpl. destruct (df_content d) eqn:Ed; simpl;
    try (rewrite filter_cons_False by congruence; by apply IH).
  destruct (fetch_position_sound io r c d Hag Hc Ed Hd) as (H1 & H2 & H3).
  destruct (fetch_position _ _ _ _) as [fd c1]. simpl in *. specialize (IH c1 H2).
  destruct (fetch_positions _ _ _ _) as [fds c2]. destruct IH as (J1 & J2 & J3).
  rewrite filter_cons_True by done. split; [|split; [done|congruence]].
  rewrite !fmap_cons, !union_list_cons. by rewrite H1, J1.
Qed.

Lemma fetch_vector_sound io r d :
  io_agrees io io0 → readable io r d = true → df_content d ≠ Position →
  fetch_vector io d = deletes_of io0 r d.
Proof.
  intros Hag Hr Hd. unfold readable in Hr. unfold deletes_of.
  unfold fetch_vector in *. destruct (df_content d) as [| |p i n] eqn:E; [done|done|].
  apply bool_decide_eq_true in Hr as [S HS].
  destruct (io_get_range io p (wrap_u64 i) (wrap_u64 (i + n))) as [b|] eqn:Eb; [|done].
  rewrite (ag_range _ _ Hag _ _ _ _ Eb). simpl. by rewrite (ag_bitmap _ _ Hag).
Qed.

Lemma elem_of_unions (f : DeleteFile → gset Z) l p :
  p ∈ ⋃ (f <$> l) ↔ ∃ d, d ∈ l ∧ p ∈ f d.
Proof.
  rewrite elem_of_union_list. setoid_rewrite list_elem_of_fmap. naive_solver.
Qed.

Lemma deletes_of_content r d d' :
  df_file_path d = df_file_path d' → df_content d = df_content d' →
  deletes_of io0 r d = deletes_of io0 r d'.
Proof. intros Hp Hc. unfold deletes_of, fetch_vector. by rewrite Hp, Hc. Qed.

Lemma unique_deletes r :
  paths_identify r → ⋃ (deletes_of io0 r <$> unique_delete_files r) = all_deletes io0 r.
Proof.
  intros Hid. unfold unique_delete_files, all_deletes.
  destruct (unique_from_spec ∅ (sc_delete_files (hr_config r))) as [H1 H2].
  apply set_eq. intros p. rewrite !elem_of_unions. split.
  - intros (d & Hd & Hp). eauto.
  - intros (d & Hd & Hp). destruct (H2 d Hd) as [?|(d' & Hd' & Heq)]; [set_solver|].
    exists d'. split; [done|]. rewrite (deletes_of_content r d' d); [done|done|].
    apply Hid; auto.
Qed.

Lemma fetched_deletes r fds :
  ⋃ (bitmap_of (target_path r) <$> fds)
    = ⋃ (deletes_of io0 r <$> filter (fun d => df_content d = Position) (unique_delete_files r)) →
  ∀ io, io_agrees io io0 →
  Forall (fun d => readable io r d = true) (unique_delete_files r) →
  ⋃ (bitmap_of (target_path r) <$> fds) ∪ ⋃ (fetch_vector io <$> unique_delete_files r)
    = ⋃ (deletes_of io0 r <$> unique_delete_files r).
Proof.
  intros -> io Hag Hr. rewrite Forall_forall in Hr. apply set_eq. intros p.
  rewrite elem_of_union, !elem_of_unions. setoid_rewrite list_elem_of_filter. split.
  - intros [(d & [? ?] & ?)|(d & Hd & Hp)]; [eauto|]. exists d. split; [done|].
    destruct (decide (df_content d = Position)) as [E|E].
    + unfold fetch_vector in Hp. rewrite E in Hp. set_solver.
    + by rewrite <- (fetch_vector_sound io r d); auto.
  - intros (d & Hd & Hp). destruct (decide (df_content d = Position)) as [E|E]; [eauto 10|].
    right. exists d. split; [done|]. by rewrite (fetch_vector_sound io r d); auto.
Qed.

Lemma deletes_u32 r p : p ∈ all_deletes io0 r → fits_u32 p = true.
Proof.
  unfold all_deletes. rewrite elem_of_unions. intros (d & _ & Hp).
  assert (∀ o : option (gset Z), (∀ S, o = Some S → ∃ b, io_bitmap io0 b = Some S) →
    p ∈ default ∅ o → fits_u32 p = true) as Hd.
  { intros [S|] Ho Hin; [|set_solver]. destruct (Ho S eq_refl) as [b Hb]. by eapply Hu32. }
  unfold deletes_of, fetch_vector in Hp. destruct (df_content d); [|set_solver|].
  - destruct (_ || _); [by apply elem_of_filter_map in Hp as [? _]|].
    eapply Hd; [|exact Hp]. intros S HS. destruct (io_get _ _) as [b|]; [|done]. by exists b.
  - eapply Hd; [|exact Hp]. intros S HS. destruct (io_get_range _ _ _ _) as [b|]; [|done].
    by exists b.
Qed.

Lemma load_merged_sound io c r :
  io_agrees io io0 → caches_sound c → r ∈ K → paths_identify r →
  Forall (fun d => readable io r d = true) (sc_delete_files (hr_config r)) →
  (load_merged_deletes io c r).1 = all_deletes io0 r
  ∧ caches_sound (load_merged_deletes io c r).2.
Proof.
  intros Hag Hc HrK Hid Hr. unfold load_merged_deletes.
  destruct (merged_deletes_cache_key r) as [k|] eqn:Hk; simpl.
  - destruct (pos_cache c !! k) as [S|] eqn:ES.
    { simpl. rewrite (cs_pos c Hc k S r ES HrK Hk). split; [|done].
      apply set_eq. intros p. rewrite elem_of_filter. split; [tauto|].
      intros Hp. split; [by eapply deletes_u32|done]. }
    pose proof (fetch_positions_sound io r c (unique_delete_files r) Hag Hc) as Hf.
    destruct (fetch_positions _ _ _ _) as [fds c']. destruct Hf as (H1 & H2 & H3).
    { apply Forall_forall. intros d Hd. rewrite Forall_forall in Hr. apply Hr.
      by apply (unique_from_spec ∅). }
    simpl. rewrite (fetched_deletes r fds H1 io Hag).
    2: { apply Forall_forall. intros d Hd. rewrite Forall_forall in Hr. apply Hr.
      by apply (unique_from_spec ∅). }
    rewrite unique_deletes by done. split; [done|]. split; [apply H2|]. simpl.
    intros k' S r' [[<- <-]|[_ Hl]]%lookup_insert_Some HrK' Hk'; [|by eapply cs_pos].
    destruct (Hkeys r r' k HrK HrK' Hk Hk') as (Ht & Hroot & Hfiles).
    apply set_eq. intros p. unfold all_deletes. rewrite !elem_of_unions.
    setoid_rewrite Hfiles. unfold deletes_of. by rewrite Ht, Hroot.
  - assert (sc_delete_files (hr_config r) = []) as E.
    { unfold merged_deletes_cache_key in Hk. by destruct (sc_delete_files _). }
    unfold unique_delete_files, all_deletes. rewrite E. simpl. by rewrite union_empty_l_L.
Qed.
End Sound.

(** Loads by several readers, each with the state of the store at that time. *)
Fixpoint load_all (c : DeleteCaches) (loads : list (DeleteIo * HybridReader))
  : list (gset Z) * DeleteCaches :=
  match loads with
  | [] => ([], c)
  | (io, r) :: loads =>
      let '(bm, c) := load_merged_deletes io c r in
      let '(bms, c) := load_all c loads in
      (bm :: bms, c)
  end.

Definition empty_caches : DeleteCaches := {| full_cache := ∅; pos_cache := ∅ |}.

(** *** What the delete files say *)

(** A position delete file lists row [p] of the data file recorded as [fp]. *)
Definition lists_position (io : DeleteIo) (path fp : string) (p : Z) : Prop :=
  ∃ b, io_get io path = Some b ∧
    if ends_with ".avro" path then
      ∃ items fields, io_avro io b = Some items ∧ AvRecord fields ∈ items ∧
        foldl avro_field (None, None) fields = (Some fp, Some p)
    else
      ∃ batches bt fps poss i, io_parquet io b = Some batches ∧ bt ∈ batches ∧
        db_columns bt !! "file_path" = Some (StringColumn fps) ∧
        db_columns bt !! "pos" = Some (Int64Column poss) ∧
        (i < db_num_rows bt)%nat ∧ fps !! i = Some fp ∧ poss !! i = Some p.

(** The path [fp] is that of the data file [target] of the table: relative to the root, or
    absolute with or without "file://". *)
Definition names_file (root_uri fp target : string) : Prop :=
  fp = target ∨ strip_file fp = trim_end slash (strip_file root_uri) +:+ "/" +:+ target.

(** Row [p] of the reader's data file is deleted: a position delete file lists it for this
    file, or a bitmap or deletion vector attached to the file holds it. *)
Definition row_deleted (io : DeleteIo) (r : HybridReader) (p : Z) : Prop :=
  ∃ d, d ∈ sc_delete_files (hr_config r) ∧
    match df_content d with
    | Position =>
        let path := resolve_delete_path (hr_root_uri r) (df_file_path d) in
        if ends_with ".parquet" path || ends_with ".avro" path
        then 0 ≤ p < 2 ^ 32 ∧ ∃ fp, names_file (hr_root_uri r) fp (target_path r) ∧
               lists_position io path fp p
        else ∃ b rows, io_get io (df_file_path d) = Some b ∧ io_bitmap io b = Some rows ∧ p ∈ rows
    | Equality _ => False
    | DeletionVector path offset size =>
        ∃ b rows, io_get_range io path (wrap_u64 offset) (wrap_u64 (offset + size)) = Some b ∧
          io_bitmap io b = Some rows ∧ p ∈ rows
    end.

(** No path of another data file in the position delete files ends with the path of this
    one, or is an end of it. *)
Definition paths_unambiguous (io : DeleteIo) (r : HybridReader) : Prop :=
  starts_with file_prefix (target_path r) = false ∧
  ∀ d fp p, d ∈ sc_delete_files (hr_config r) → df_content d = Position →
    lists_position io (resolve_delete_path (hr_root_uri r) (df_file_path d)) fp p →
    ends_with (strip_file fp) (target_path r) = true ∨ ends_with (target_path r) (strip_file fp) = true →
    names_file (hr_root_uri r) fp (target_path r).

Lemma add_position_spec (m : pos_map) fp p fp' p' :
  p' ∈ default ∅ (add_position m fp p !! fp') ↔ fp' = fp ∧ p' = p ∨ p' ∈ default ∅ (m !! fp').
Proof.
  unfold add_position. rewrite lookup_insert. case_decide as E; simpl; [subst; set_solver|].
  naive_solver.
Qed.

Lemma read_avro_spec items fp p :
  p ∈ default ∅ (read_deletes_avro items !! fp) ↔
  ∃ fields, AvRecord fields ∈ items ∧ foldl avro_field (None, None) fields = (Some fp, Some p).
Proof.
  unfold read_deletes_avro. cut (∀ m : pos_map, p ∈ default ∅ (foldl avro_item m items !! fp) ↔
    p ∈ default ∅ (m !! fp) ∨
    ∃ fields, AvRecord fields ∈ items ∧ foldl avro_field (None, None) fields = (Some fp, Some p)).
  { intros Hm. rewrite Hm, lookup_empty. simpl. set_solver. }
  induction items as [|v items IH]; intros m; simpl; [set_solver|]. rewrite IH.
  setoid_rewrite elem_of_cons. destruct v as [fields|]; simpl; [|naive_solver].
  assert ((∃ f, (AvRecord f = AvRecord fields ∨ AvRecord f ∈ items) ∧
    foldl avro_field (None, None) f = (Some fp, Some p)) ↔
    foldl avro_field (None, None) fields = (Some fp, Some p) ∨
    ∃ f, AvRecord f ∈ items ∧ foldl avro_field (None, None) f = (Some fp, Some p)) as Hf by naive_solver.
  rewrite Hf. clear Hf IH.
  destruct (foldl avro_field (None, None) fields) as [[fp'|] [p'|]] eqn:E;
    [rewrite add_position_spec|..]; intuition congruence.
Qed.

Lemma parquet_rows_spec m fps poss n m' fp p :
  parquet_rows m fps poss n = Some m' →
  p ∈ default ∅ (m' !! fp) ↔ p ∈ default ∅ (m !! fp) ∨
    ∃ i, (i < n)%nat ∧ fps !! i = Some fp ∧ poss !! i = Some p.
Proof.
  unfold parquet_rows. revert m'. induction n as [|n IH]; intros m'.
  { simpl. intros [= <-]. naive_solver lia. }
  rewrite seq_S, foldl_app. simpl.
  destruct (foldl _ (Some m) (seq 0 n)) as [m1|]; [|done]. simpl.
  destruct (fps !! n) as [fp1|] eqn:E1; [|done]. destruct (poss !! n) as [p1|] eqn:E2; [|done].
  intros [= <-]. rewrite add_position_spec, (IH m1 eq_refl). split.
  - intros [[-> ->]|[?|(i & ? & ?)]]; [right; exists n; auto with lia|by left|right; exists i; auto with lia].
  - intros [?|(i & Hi & H1 & H2)]; [auto|]. destruct (decide (i = n)) as [->|]; [|right; right; exists i; auto with lia].
    left. by simplify_eq.
Qed.

Lemma parquet_batches_None batches : foldl parquet_batch None batches = None.
Proof. by induction batches. Qed.

Lemma read_parquet_spec batches m fp p :
  read_deletes_parquet batches = Some m →
  p ∈ default ∅ (m !! fp) ↔
  ∃ bt fps poss i, bt ∈ batches ∧ db_columns bt !! "file_path" = Some (StringColumn fps) ∧
    db_columns bt !! "pos" = Some (Int64Column poss) ∧
    (i < db_num_rows bt)%nat ∧ fps !! i = Some fp ∧ poss !! i = Some p.
Proof.
  unfold read_deletes_parquet. cut (∀ m0 : pos_map, foldl parquet_batch (Some m0) batches = Some m →
    p ∈ default ∅ (m !! fp) ↔ p ∈ default ∅ (m0 !! fp) ∨
    ∃ bt fps poss i, bt ∈ batches ∧ db_columns bt !! "file_path" = Some (StringColumn fps) ∧
      db_columns bt !! "pos" = Some (Int64Column poss) ∧
      (i < db_num_rows bt)%nat ∧ fps !! i = Some fp ∧ poss !! i = Some p).
  { intros Hm H. rewrite (Hm ∅ H), lookup_empty. simpl. set_solver. }
  induction batches as [|bt batches IH]; intros m0; simpl.
  { intros [= <-]. set_solver. }
  setoid_rewrite elem_of_cons.
  destruct (db_columns bt !! "file_path") as [c1|] eqn:E1,
    (db_columns bt !! "pos") as [c2|] eqn:E2; try (intros H; rewrite (IH _ H); naive_solver).
  destruct c1 as [fps| |], c2 as [|poss|]; try (by rewrite parquet_batches_None).
  destruct (parquet_rows m0 fps poss (db_num_rows bt)) as [m1|] eqn:Er;
    [|by rewrite parquet_batches_None].
  intros H. rewrite (IH _ H), (parquet_rows_spec _ _ _ _ _ _ _ Er). naive_solver.
Qed.

Lemma parse_deletes_spec io path m fp p :
  parse_deletes io path = Some m → p ∈ default ∅ (m !! fp) ↔ lists_position io path fp p.
Proof.
  unfold parse_deletes, lists_position. destruct (io_get io path) as [b|]; [|done]. simpl.
  destruct (ends_with ".avro" path).
  - destruct (io_avro io b) as [items|] eqn:E; [|done]. simpl. intros [= <-].
    rewrite read_avro_spec. naive_solver.
  - destruct (io_parquet io b) as [batches|] eqn:E; [|done]. simpl. intros H.
    rewrite (read_parquet_spec _ _ _ _ H). naive_solver.
Qed.

Lemma fits_u32_range p : fits_u32 p = true ↔ 0 ≤ p < 2 ^ 32.
Proof. unfold fits_u32. rewrite andb_true_iff, Z.leb_le, Z.leb_le. lia. Qed.

Lemma strip_file_id s : starts_with file_prefix s = false → strip_file s = s.
Proof. unfold starts_with, strip_file. by destruct (strip_prefix file_prefix s). Qed.

Lemma path_matches_names root fp target :
  starts_with file_prefix target = false →
  (ends_with (strip_file fp) target = true ∨ ends_with target (strip_file fp) = true →
     names_file root fp target) →
  path_matches fp (strip_file target) = true ↔ names_file root fp target.
Proof.
  intros Ht Hun. unfold path_matches. rewrite !(strip_file_id target) by done. split.
  - rewrite !orb_true_iff. intros [[Heq%bool_decide_eq_true|He]|He]; apply Hun; auto.
    rewrite Heq. left. exact (ends_with_app target "").
  - intros [->|Hfp].
    + rewrite strip_file_id by done. by rewrite bool_decide_eq_true_2.
    + rewrite Hfp, !string_app_assoc, ends_with_app, !orb_true_r. done.
Qed.

(** The rows the code computes are the rows the files delete. *)
Lemma all_deletes_named io r p :
  paths_unambiguous io r → Forall (fun d => readable io r d = true) (sc_delete_files (hr_config r)) →
  p ∈ all_deletes io r ↔ row_deleted io r p.
Proof.
  intros [Ht Hun] Hr. rewrite Forall_forall in Hr. unfold all_deletes, row_deleted.
  rewrite elem_of_unions. apply exist_proper. intros d. split.
  - intros [Hd Hp]. split; [done|]. specialize (Hr d Hd). unfold readable in Hr.
    unfold deletes_of, fetch_vector in Hp. destruct (df_content d) as [| |pp i n] eqn:Hc.
    + set (path := resolve_delete_path _ _) in *. cbv zeta.
      destruct (ends_with ".parquet" path || ends_with ".avro" path).
      * apply bool_decide_eq_true in Hr as [m Hm]. rewrite Hm in Hp. simpl in Hp.
        apply elem_of_filter_map in Hp as (Hu & fp & ps & Hl & Hmt & Hps).
        assert (lists_position io path fp p) as Hlp.
        { rewrite <- (parse_deletes_spec _ _ _ _ _ Hm), Hl. done. }
        split; [by apply fits_u32_range|]. exists fp. split; [|done].
        apply (path_matches_names _ _ _ Ht); [|done]. by eapply Hun.
      * apply bool_decide_eq_true in Hr as [rows Hrows].
        destruct (io_get io (df_file_path d)) as [b|]; [|done]. simpl in *.
        rewrite Hrows in Hp. by exists b, rows.
    + set_solver.
    + apply bool_decide_eq_true in Hr as [rows Hrows].
      destruct (io_get_range _ _ _ _) as [b|]; [|done]. simpl in *.
      rewrite Hrows in Hp. by exists b, rows.
  - intros [Hd Hp]. split; [done|]. specialize (Hr d Hd). unfold readable in Hr.
    unfold deletes_of, fetch_vector. destruct (df_content d) as [| |pp i n] eqn:Hc; [|done|].
    + set (path := resolve_delete_path _ _) in *. cbv zeta in Hp.
      destruct (ends_with ".parquet" path || ends_with ".avro" path).
      * apply bool_decide_eq_true in Hr as [m Hm]. rewrite Hm. simpl.
        destruct Hp as (Hu & fp & Hn & Hlp). apply elem_of_filter_map.
        pose proof Hlp as Hlp'. rewrite <- (parse_deletes_spec _ _ _ _ _ Hm) in Hlp'.
        destruct (m !! fp) as [ps|] eqn:Hl; [|set_solver].
        split; [by apply fits_u32_range|]. exists fp, ps. split_and!; [done| |done].
        apply (path_matches_names (hr_root_uri r) _ _ Ht); [|done]. by eapply Hun.
      * destruct Hp as (b & rows & -> & Hrows & Hp). simpl. by rewrite Hrows.
    + destruct Hp as (b & rows & -> & Hrows & Hp). simpl. by rewrite Hrows.
Qed.

(** The files can be read at [io0] when they can be read at [io]. *)
Lemma readable_agrees io io0 r d : io_agrees io io0 → readable io r d = true → readable io0 r d = true.
Proof.
  intros Hag. unfold readable. destruct (df_content d); [|done|].
  - case_match.
    + rewrite !bool_decide_eq_true. intros [m Hm]. exists m. by eapply parse_agrees.
    + rewrite !bool_decide_eq_true. destruct (io_get io _) as [b|] eqn:E; [|by intros []].
      rewrite (ag_get _ _ Hag _ _ E). simpl. by rewrite (ag_bitmap _ _ Hag).
  - rewrite !bool_decide_eq_true. destruct (io_get_range io _ _ _) as [b|] eqn:E; [|by intros []].
    rewrite (ag_range _ _ Hag _ _ _ _ E). simpl. by rewrite (ag_bitmap _ _ Hag).
Qed.

(** C11: Any sequence of loads through the process-wide caches gives every reader exactly
    the rows its delete files delete in its data file: those a position delete file lists
    under the data file's own path (relative or absolute), and those of the bitmaps and
    deletion vectors attached to the file.  Conditions: the cache keys of the readers do
    not collide; a reader's files with one path have one content
    ([vectors_of_one_file_are_dropped] otherwise); its files can be read
    when it loads them and their objects do not change; no path of another data file in
    its position delete files ends with the path of this one or is an end of it (the code
    compares by suffix: [suffix_path_deletes_other_file]); row numbers below 2^32.  Duplicates in the list, its order and
    the state of the caches do not matter. *)
Theorem merged_deletes_exact io0 K loads :
  bitmaps_u32 io0 → keys_distinguish K →
  Forall (fun l : DeleteIo * HybridReader => io_agrees l.1 io0 ∧ l.2 ∈ K ∧ paths_identify l.2
    ∧ paths_unambiguous io0 l.2
    ∧ Forall (fun d => readable l.1 l.2 d = true) (sc_delete_files (hr_config l.2))) loads →
  Forall2 (fun (l : DeleteIo * HybridReader) deleted => ∀ p, p ∈ deleted ↔ row_deleted io0 l.2 p)
    loads (load_all empty_caches loads).1.
Proof.
  intros Hu Hk Hl. assert (caches_sound io0 K empty_caches) as Hc by by split.
  revert Hc. generalize empty_caches. induction Hl as [|[io r] loads (Ha & HK & Hid & Hun & Hr) Hl IH];
    intros c Hc; [constructor|]. simpl in *.
  destruct (load_merged_sound io0 K Hu Hk io c r Ha Hc HK Hid Hr) as [H1 H2].
  destruct (load_merged_deletes io c r) as [bm c1]. simpl in *. specialize (IH c1 H2).
  destruct (load_all c1 loads) as [bms c2]. simpl in *. constructor; [|done].
  intros p. simpl. rewrite H1. apply all_deletes_named; [done|].
  eapply Forall_impl; [exact Hr|]. intros d. by apply readable_agrees.
Qed.

(** ** Row selections *)

Inductive RowSelector := Skip (n : nat) | Select (n : nat).

(** What a selection means: runs of rows left out and taken, from the first row on. *)
Fixpoint apply_selection {A} (sel : list RowSelector) (rows : list A) : list A :=
  match sel with
  | [] => []
  | Skip n :: sel => apply_selection sel (drop n rows)
  | Select n :: sel => take n rows ++ apply_selection sel (drop n rows)
  end.

Definition gap_threshold : nat := 1.

(** The run [start..=end] after the rows before [last_idx]. *)
Definition flush_run (last_idx start stop : nat) : list RowSelector :=
  (if decide (last_idx < start)%nat then [Skip (start - last_idx)] else [])
  ++ [Select (stop - start + 1)].

(** The loop over the set bits, and the last run: the selectors and where they end. *)
Fixpoint selection_loop (idxs : list nat) (last_idx : nat) (current : option (nat * nat))
  : list RowSelector * nat :=
  match idxs with
  | [] =>
      match current with
      | Some (start, stop) => (flush_run last_idx start stop, S stop)
      | None => ([], last_idx)
      end
  | idx :: idxs =>
      match current with
      | None => selection_loop idxs last_idx (Some (idx, idx))
      | Some (start, stop) =>
          if decide (idx ≤ stop + gap_threshold)%nat
          then selection_loop idxs last_idx (Some (start, idx))
          else
            let '(sel, e) := selection_loop idxs (S stop) (Some (idx, idx)) in
            (flush_run last_idx start stop ++ sel, e)
      end
  end.

Definition bits (bitmap : gset Z) : list nat := Z.to_nat <$> merge_sort Z.le (elements bitmap).

Definition bitmap_to_row_selection (bitmap : gset Z) (total_rows : nat) : list RowSelector :=
  if decide (bitmap = ∅) then [Skip total_rows] else
  let '(sel, last_idx) := selection_loop (bits bitmap) 0 None in
  sel ++ (if decide (last_idx < total_rows)%nat then [Skip (total_rows - last_idx)] else []).

Lemma omap_seq {A} (rows : list A) s n :
  omap (fun i => rows !! i) (seq s n) = take n (drop s rows).
Proof.
  revert s. induction n as [|n IH]; intros s; [done|]. simpl. rewrite IH.
  destruct (rows !! s) as [x|] eqn:E.
  - by rewrite (drop_S _ _ _ E).
  - apply lookup_ge_None in E. by rewrite !drop_ge, !take_nil by lia.
Qed.

Lemma apply_flush {A} (rows : list A) last start stop sel :
  (last ≤ start ≤ stop)%nat →
  apply_selection (flush_run last start stop ++ sel) (drop last rows)
  = omap (fun i => rows !! i) (seq start (S stop - start))
    ++ apply_selection sel (drop (S stop) rows).
Proof.
  intros H. unfold flush_run. rewrite omap_seq.
  assert (∀ l : list A, l = drop start rows →
    apply_selection ([Select (stop - start + 1)] ++ sel) l
    = take (S stop - start) (drop start rows) ++ apply_selection sel (drop (S stop) rows)) as Hl.
  { intros l ->. simpl. rewrite drop_drop. f_equal; f_equal; [lia|]. f_equal. lia. }
  case_decide; cbn [app apply_selection]; apply Hl.
  - rewrite drop_drop. f_equal. lia.
  - f_equal. lia.
Qed.

Lemma selection_loop_spec {A} (rows : list A) idxs last start stop :
  (last ≤ start ≤ stop)%nat → StronglySorted lt (stop :: idxs) →
  ∀ sel e tl, selection_loop idxs last (Some (start, stop)) = (sel, e) →
  (stop < e)%nat ∧ (∀ i, i ∈ idxs → (i < e)%nat) ∧
  apply_selection (sel ++ tl) (drop last rows)
  = omap (fun i => rows !! i) (seq start (S stop - start) ++ idxs)
    ++ apply_selection tl (drop e rows).
Proof.
  revert last start stop. induction idxs as [|i idxs IH]; intros last start stop Hle Hs sel e tl.
  { simpl. intros [= <- <-]. rewrite apply_flush, app_nil_r by done.
    split_and!; [lia|set_solver|done]. }
  simpl. inversion_clear Hs as [|?? Hs' Hi]. inversion_clear Hi as [|?? Hsi _].
  case_decide as Ed.
  - unfold gap_threshold in Ed. assert (i = S stop) as -> by lia. intros Hloop.
    destruct (IH last start (S stop) ltac:(lia) Hs' sel e tl Hloop) as (H1 & H2 & H3).
    split_and!; [lia|set_solver|]. rewrite H3. f_equal. f_equal.
    rewrite (Nat.sub_succ_l start (S stop)), seq_S by lia. rewrite <- (assoc_L (++)). simpl.
    do 3 f_equal. lia.
  - destruct (selection_loop idxs (S stop) (Some (i, i))) as [sel' e'] eqn:Hloop.
    intros [= <- <-].
    destruct (IH (S stop) i i ltac:(lia) Hs' sel' e' tl Hloop) as (H1 & H2 & H3).
    split_and!; [lia|set_solver|]. rewrite <- (assoc_L (++)), apply_flush, H3 by lia.
    rewrite (assoc_L (++)), <- omap_app. do 2 f_equal.
    replace (S i - i)%nat with 1%nat by lia. done.
Qed.

Lemma bits_sorted bitmap : (∀ p, p ∈ bitmap → 0 ≤ p) → StronglySorted lt (bits bitmap).
Proof.
  intros Hpos. unfold bits.
  assert (∀ p, p ∈ merge_sort Z.le (elements bitmap) → 0 ≤ p) as Hp.
  { intros p. rewrite merge_sort_Permutation, elem_of_elements. apply Hpos. }
  assert (NoDup (merge_sort Z.le (elements bitmap))) as Hnd
    by (rewrite merge_sort_Permutation; apply NoDup_elements).
  assert (StronglySorted Z.le (merge_sort Z.le (elements bitmap))) as Hs
    by (apply StronglySorted_merge_sort; [apply _|]; intros x y; lia).
  revert Hp Hnd. induction Hs as [|x l Hs IH Hx]; [constructor|]. intros Hp [Hxl Hnd]%NoDup_cons.
  csimpl. constructor; [apply IH; [set_solver|done]|].
  apply Forall_forall. intros y (z & -> & Hz)%list_elem_of_fmap.
  rewrite Forall_forall in Hx. specialize (Hx z Hz).
  assert (x ≠ z) by (intros ->; done). assert (0 ≤ x) by (apply Hp; left). lia.
Qed.

(** A selection takes exactly the rows whose bits are set, in order. *)
Lemma row_selection_exact {A} (bitmap : gset Z) (rows : list A) :
  (∀ p, p ∈ bitmap → 0 ≤ p) →
  apply_selection (bitmap_to_row_selection bitmap (length rows)) rows
  = omap (fun i => rows !! i) (bits bitmap).
Proof.
  intros Hpos. unfold bitmap_to_row_selection. case_decide as E; [by subst|].
  pose proof (bits_sorted bitmap Hpos) as Hs.
  destruct (bits bitmap) as [|i idxs] eqn:Eb.
  { exfalso. apply E, leibniz_equiv, elements_empty_inv. unfold bits in Eb.
    apply fmap_nil_inv in Eb. apply Permutation_nil_r. by rewrite <- Eb, merge_sort_Permutation. }
  simpl. destruct (selection_loop idxs 0 (Some (i, i))) as [sel e] eqn:Hloop.
  destruct (selection_loop_spec rows idxs 0 i i ltac:(lia) Hs sel e
    (if decide (e < length rows)%nat then [Skip (length rows - e)] else []) Hloop)
    as (_ & _ & H). rewrite drop_0 in H. rewrite H.
  replace (S i - i)%nat with 1%nat by lia. simpl.
  assert (apply_selection (if decide (e < length rows)%nat then [Skip (length rows - e)] else [])
    (drop e rows) = []) as -> by by case_decide.
  by rewrite app_nil_r.
Qed.

(** ** Equality deletes *)

Inductive EqType := TUtf8 | TInt64 | TDate64 | TTimestamp | TInt32 | TDate32 | TTime32 | TOther.
Inductive EqCell := CStr (s : string) | CInt (z : Z).
#[export] Instance EqCell_eq_dec : EqDecision EqCell.
Proof. solve_decision. Defined.
Record EqColumn := { ec_type : EqType; ec_cells : list (option EqCell) }.

Record EqualityDelete := { ed_column_name : string; ed_values : EqColumn }.

Section Equality.
(** [arrow::compute::cast] *)
Context (cast : EqType → EqColumn → option EqColumn).

(** Null cells do not match. *)
Definition in_set (values : EqColumn) (c : option EqCell) : bool :=
  match c with Some x => bool_decide (Some x ∈ ec_cells values) | None => false end.

Definition check_is_in (col values : EqColumn) : option (list bool) :=
  match ec_type col with
  | TUtf8 => v ← cast TUtf8 values; Some (in_set v <$> ec_cells col)
  | TInt64 | TDate64 | TTimestamp =>
      c ← cast TInt64 col; v ← cast TInt64 values; Some (in_set v <$> ec_cells c)
  | TInt32 | TDate32 | TTime32 =>
      c ← cast TInt32 col; v ← cast TInt32 values; Some (in_set v <$> ec_cells c)
  | TOther => Some (replicate (length (ec_cells col)) false)
  end.

Definition mask_step (column : string → option EqColumn) (keep : list bool) (d : EqualityDelete)
  : list bool :=
  match column (ed_column_name d) with
  | Some col =>
      match check_is_in col (ed_values d) with
      | Some mask => zip_with (fun k m => k && negb m) keep mask
      | None => keep
      end
  | None => keep
  end.

(** The rows of a batch that no equality delete matches. *)
Definition apply_equality {A} (column : string → option EqColumn) (deletes : list EqualityDelete)
    (rows : list A) : list A :=
  match deletes with
  | [] => rows
  | _ =>
      let keep := foldl (mask_step column) (replicate (length rows) true) deletes in
      fst <$> filter (fun e : A * bool => e.2 = true) (zip rows keep)
  end.

(** Does an equality delete match row [i] of the batch? *)
Definition eq_deleted (column : string → option EqColumn) (i : nat) (d : EqualityDelete) : bool :=
  match (col ← column (ed_column_name d); mask ← check_is_in col (ed_values d); mask !! i) with
  | Some m => m
  | None => false
  end.
End Equality.

(** ** Streaming a file *)

Section Stream.
Context {A : Type}.
(** The Parquet reader: it decodes the given row groups under an optional selection. *)
Context (decode : list (list A) → option (list RowSelector) → list A).

Definition full_range (num_rows : nat) : gset Z :=
  list_to_set (Z.of_nat <$> seq 0 (Z.to_nat (Z.of_nat num_rows mod 2 ^ 32))).

Definition stream_positions (groups : list (list A)) (row_groups : option (list nat))
    (deleted : gset Z) : list A :=
  let selected := match row_groups with
                  | Some rgs => omap (fun i => groups !! i) rgs
                  | None => groups
                  end in
  if decide (deleted = ∅) then decode selected None
  else
    let num_rows := length (mjoin groups) in
    decode selected (Some (bitmap_to_row_selection (full_range num_rows ∖ deleted) num_rows)).

Definition stream_row_groups (cast : EqType → EqColumn → option EqColumn)
    (column : list A → string → option EqColumn) (groups : list (list A))
    (row_groups : option (list nat)) (deleted : gset Z) (equality : list EqualityDelete) : list A :=
  let rows := stream_positions groups row_groups deleted in
  apply_equality cast (column rows) equality rows.

(** The rows that position deletes leave. *)
Definition visible (deleted : gset Z) (rows : list A) : list A :=
  omap (fun i => if decide (Z.of_nat i ∈ deleted) then None else rows !! i) (seq 0 (length rows)).

(** Documented behaviour of the reader: a selection refers to the rows of the row groups
    that were chosen. *)
Definition decode_ok : Prop :=
  (∀ groups, decode groups None = mjoin groups)
  ∧ ∀ groups sel, decode groups (Some sel) = apply_selection sel (mjoin groups).

Lemma elem_of_full_range n p :
  Z.of_nat n < 2 ^ 32 → p ∈ full_range n ↔ 0 ≤ p < Z.of_nat n.
Proof.
  intros Hn. unfold full_range. rewrite elem_of_list_to_set, list_elem_of_fmap.
  setoid_rewrite elem_of_seq. rewrite Z.mod_small by lia. split.
  - intros (i & -> & Hi). lia.
  - intros Hp. exists (Z.to_nat p). lia.
Qed.

Lemma omap_filter {B C} (P : B → Prop) `{!∀ x, Decision (P x)} (f : B → option C) (l : list B) :
  omap f (filter P l) = omap (fun x => if decide (P x) then f x else None) l.
Proof.
  induction l as [|x l IH]; [done|]. rewrite filter_cons. cbn [omap list_omap].
  destruct (decide (P x)); cbn [omap list_omap]; fold (omap (M := list) f); rewrite IH; done.
Qed.

Lemma sorted_filter_seq (P : nat → Prop) `{!∀ i, Decision (P i)} s n :
  StronglySorted lt (filter P (seq s n)).
Proof.
  revert s. induction n as [|n IH]; intros s; [constructor|]. simpl. rewrite filter_cons.
  case_decide; [|apply IH]. constructor; [apply IH|]. apply Forall_forall.
  intros i [_ ?%elem_of_seq]%list_elem_of_filter. lia.
Qed.

(** The set bits of what is left, in order. *)
Lemma bits_left n deleted :
  Z.of_nat n < 2 ^ 32 →
  bits (full_range n ∖ deleted) = filter (fun i => Z.of_nat i ∉ deleted) (seq 0 n).
Proof.
  intros Hn. assert (∀ p, p ∈ full_range n ∖ deleted → 0 ≤ p < Z.of_nat n) as Hp.
  { intros p [?%elem_of_full_range _]%elem_of_difference; done. }
  apply (StronglySorted_unique_strong lt); [lia| | |].
  - apply bits_sorted. intros p ?%Hp. lia.
  - apply sorted_filter_seq.
  - apply NoDup_Permutation.
    + assert (StronglySorted lt (bits (full_range n ∖ deleted))) as Hs
        by (apply bits_sorted; intros p ?%Hp; lia).
      induction Hs as [|x l _ IH Hx]; constructor; [|done].
      rewrite Forall_forall in Hx. intros Hin. specialize (Hx x Hin). lia.
    + apply NoDup_filter, NoDup_seq.
    + intros i. unfold bits. rewrite list_elem_of_fmap, list_elem_of_filter, elem_of_seq.
      setoid_rewrite merge_sort_Permutation. setoid_rewrite elem_of_elements. split.
      * intros (p & -> & Hin). pose proof (Hp p Hin). apply elem_of_difference in Hin as [_ Hd].
        rewrite Z2Nat.id by lia. split; [done|lia].
      * intros [Hd Hi]. exists (Z.of_nat i). rewrite Nat2Z.id. split; [done|].
        apply elem_of_difference. rewrite elem_of_full_range by done. split; [lia|done].
Qed.

(** Reading all row groups leaves out exactly the deleted rows. *)
Lemma stream_positions_all groups deleted :
  decode_ok → Z.of_nat (length (mjoin groups)) < 2 ^ 32 →
  stream_positions groups None deleted = visible deleted (mjoin groups).
Proof.
  intros [Hn Hs] Hlen. unfold stream_positions, visible. case_decide as E.
  - subst. rewrite Hn. rewrite <- (omap_lookup_all (mjoin groups)) at 1.
    apply list_omap_ext, Forall_Forall2_diag, Forall_true. intros i. by rewrite decide_False.
  - rewrite Hs, row_selection_exact, bits_left by
      (done || (intros p [?%elem_of_full_range _]%elem_of_difference; [lia|done])).
    rewrite omap_filter. apply list_omap_ext, Forall_Forall2_diag, Forall_true. intros i.
    repeat case_decide; done.
Qed.
End Stream.

(** *** Equality deletes on a batch *)

Lemma mask_lookup cast column n (deletes : list EqualityDelete) keep i b :
  (∀ d col mask, d ∈ deletes → column (ed_column_name d) = Some col →
     check_is_in cast col (ed_values d) = Some mask → length mask = n) →
  length keep = n → keep !! i = Some b →
  foldl (mask_step cast column) keep deletes !! i
  = Some (b && forallb (fun d => negb (eq_deleted cast column i d)) deletes).
Proof.
  intros Hlen. revert keep b Hlen. induction deletes as [|d deletes IH]; intros keep b Hlen Hk Hi; simpl.
  { by rewrite andb_true_r. }
  assert (length (mask_step cast column keep d) = n
    ∧ mask_step cast column keep d !! i = Some (b && negb (eq_deleted cast column i d)))
    as [H1 H2].
  { unfold mask_step, eq_deleted. destruct (column (ed_column_name d)) as [col|] eqn:Ec;
      simpl; [|by rewrite andb_true_r].
    destruct (check_is_in cast col (ed_values d)) as [mask|] eqn:Em; simpl;
      [|by rewrite andb_true_r].
    pose proof (Hlen d _ _ ltac:(left) Ec Em) as Hm. rewrite length_zip_with, Hk, Hm, Nat.min_id.
    split; [done|]. assert (i < length mask)%nat as Hi'
      by (rewrite Hm, <- Hk; by eapply lookup_lt_Some).
    apply lookup_lt_is_Some in Hi' as [m Hmi]. rewrite Hmi.
    by rewrite lookup_zip_with, Hi, Hmi. }
  rewrite (IH _ _ ltac:(intros d' col mask Hd'; apply Hlen; by right) H1 H2). by rewrite andb_assoc.
Qed.

(** The kept rows are those that no delete matches. *)
Lemma apply_equality_spec {A} cast column deletes (rows : list A) :
  (∀ d col mask, d ∈ deletes → column (ed_column_name d) = Some col →
     check_is_in cast col (ed_values d) = Some mask → length mask = length rows) →
  apply_equality cast column deletes rows
  = omap (fun i => if existsb (eq_deleted cast column i) deletes then None else rows !! i)
      (seq 0 (length rows)).
Proof.
  intros Hlen. unfold apply_equality. destruct deletes as [|d0 ds].
  { simpl. symmetry. apply omap_lookup_all. }
  set (deletes := d0 :: ds) in *. clearbody deletes.
  set (keep := foldl _ _ _).
  assert (∀ i, (i < length rows)%nat →
    keep !! i = Some (negb (existsb (eq_deleted cast column i) deletes))) as Hkeep.
  { intros i Hi. unfold keep. rewrite (mask_lookup cast column (length rows) deletes _ i true);
      [|done|by rewrite length_replicate|by apply lookup_replicate_2].
    f_equal. rewrite andb_true_l.
    clear. induction deletes as [|d l IH]; [done|]. simpl. rewrite IH.
    by destruct (eq_deleted cast column i d). }
  clearbody keep.
  assert (∀ n s, (s + n = length rows)%nat →
    fst <$> filter (fun e : A * bool => e.2 = true) (zip (drop s rows) (drop s keep))
    = omap (fun i => if existsb (eq_deleted cast column i) deletes then None else rows !! i)
        (seq s n)) as Hgo; [|by rewrite <- (Hgo (length rows) 0%nat)].
  induction n as [|n IH]; intros s Hs; simpl.
  { by rewrite drop_ge by lia. }
  destruct (lookup_lt_is_Some_2 rows s ltac:(lia)) as [x Hx].
  rewrite (drop_S rows _ _ Hx), (drop_S keep _ _ (Hkeep s ltac:(lia))). simpl.
  rewrite Hx, filter_cons. simpl.
  destruct (existsb (eq_deleted cast column s) deletes); simpl; rewrite IH by lia; done.
Qed.

(** A cast to a column's own type keeps it. *)
Definition cast_lawful (cast : EqType → EqColumn → option EqColumn) : Prop :=
  ∀ c, cast (ec_type c) c = Some c.

(** A row whose cells are [cell] is deleted by value: a delete holds its non-null value in
    the delete's column. *)
Definition deleted_by_value (cell : string → option EqCell) (deletes : list EqualityDelete) : bool :=
  existsb (fun d => match cell (ed_column_name d) with
                    | Some x => bool_decide (Some x ∈ ec_cells (ed_values d))
                    | None => false
                    end) deletes.

(** The batch has the column of the delete, with the type of the delete's values, one of
    the types that are compared. *)
Definition delete_column_read {A} (cell : string → A → option EqCell) (column : string → option EqColumn)
    (rows : list A) (d : EqualityDelete) : Prop :=
  column (ed_column_name d) = Some {| ec_type := ec_type (ed_values d);
                                      ec_cells := cell (ed_column_name d) <$> rows |} ∧
  ec_type (ed_values d) ∈ [TUtf8; TInt64; TInt32].

Lemma check_is_in_values cast col values :
  cast_lawful cast → ec_type col = ec_type values → ec_type col ∈ [TUtf8; TInt64; TInt32] →
  check_is_in cast col values = Some (in_set values <$> ec_cells col).
Proof.
  intros Hcast Hty Hin. pose proof (Hcast col) as Hc. pose proof (Hcast values) as Hv.
  rewrite <- Hty in Hv. unfold check_is_in. destruct (ec_type col); try (exfalso; set_solver);
    rewrite ?Hc; cbn [mbind option_bind]; by rewrite Hv.
Qed.

Lemma eq_deleted_row {A} cast cell column (rows : list A) d (i : nat) row :
  cast_lawful cast → delete_column_read cell column rows d → rows !! i = Some row →
  eq_deleted cast column i d =
  match cell (ed_column_name d) row with
  | Some x => bool_decide (Some x ∈ ec_cells (ed_values d))
  | None => false
  end.
Proof.
  intros Hcast [Hcol Hty] Hi. unfold eq_deleted. rewrite Hcol. cbn [mbind option_bind].
  rewrite check_is_in_values by done. cbn [mbind option_bind ec_cells].
  by rewrite !list_lookup_fmap, Hi.
Qed.

Lemma existsb_eq_deleted {A} cast (cell : string → A → option EqCell) column deletes (rows : list A) i row :
  cast_lawful cast → (∀ d, d ∈ deletes → delete_column_read cell column rows d) → rows !! i = Some row →
  existsb (eq_deleted cast column i) deletes = deleted_by_value (fun name => cell name row) deletes.
Proof.
  intros Hcast Hread Hi. unfold deleted_by_value. induction deletes as [|d deletes IH]; [done|]. simpl.
  rewrite IH by (intros d' Hd'; apply Hread; by right). f_equal.
  apply (eq_deleted_row cast cell column rows); [done|apply Hread; left|done].
Qed.

(** The kept rows are those whose values no delete holds. *)
Lemma apply_equality_values {A} cast (cell : string → A → option EqCell) column deletes (rows : list A) :
  cast_lawful cast → (∀ d, d ∈ deletes → delete_column_read cell column rows d) →
  apply_equality cast column deletes rows =
  filter (fun row => deleted_by_value (fun name => cell name row) deletes = false) rows.
Proof.
  intros Hcast Hread. rewrite apply_equality_spec.
  - assert (∀ (l : list A) s, (∀ i row, l !! i = Some row → rows !! (s + i)%nat = Some row) →
      omap (fun i => if existsb (eq_deleted cast column i) deletes then None else rows !! i)
        (seq s (length l)) =
      filter (fun row => deleted_by_value (fun name => cell name row) deletes = false) l) as Hl;
      [|by rewrite <- (Hl rows 0%nat)].
    induction l as [|row l IH]; intros s Hs; [done|]. simpl.
    pose proof (Hs 0%nat row eq_refl) as Hrow. rewrite Nat.add_0_r in Hrow. rewrite Hrow.
    rewrite IH by (intros i r Hr; specialize (Hs (S i) r Hr); by rewrite <- plus_n_Sm in Hs).
    rewrite (existsb_eq_deleted cast cell column deletes rows s row) by done.
    rewrite filter_cons. case_decide as E; [by rewrite E|]. apply not_false_is_true in E. by rewrite E.
  - intros d col mask Hd Hc Hm. destruct (Hread d Hd) as [Hc' Ht]. rewrite Hc' in Hc. injection Hc as <-.
    rewrite check_is_in_values in Hm by done. injection Hm as <-. simpl. by rewrite !length_fmap.
Qed.

(** C10: Reading a whole file returns, in order, exactly the rows that neither a position
    delete nor an equality delete removes: a row is removed by an equality delete when
    its non-null value in the delete's column is one of the delete's values.  Conditions:
    all row groups are read (for some of them see [row_group_deletes_misplaced]), the file
    has fewer than 2^32 rows, and the column of every equality delete is among the columns
    read (see [EqualityDeletes.projection_reveals_deleted_rows]) with the type of the
    delete's values, which is Utf8, Int64 or Int32. *)
Theorem stream_all_exact {A} (decode : list (list A) → option (list RowSelector) → list A) cast
    (cell : string → A → option EqCell) column groups deleted equality :
  decode_ok decode → Z.of_nat (length (mjoin groups)) < 2 ^ 32 → cast_lawful cast →
  (∀ d rows, d ∈ equality → delete_column_read cell (column rows) rows d) →
  stream_row_groups decode cast column groups None deleted equality
  = filter (fun row => deleted_by_value (fun name => cell name row) equality = false)
      (visible deleted (mjoin groups)).
Proof.
  intros Hd Hlen Hcast Hcol. unfold stream_row_groups. rewrite stream_positions_all by done.
  apply apply_equality_values; auto.
Qed.

Module DeleteExamples.

(** A store with one position delete file, in which the paths below are the data files. *)
Definition del_batch : DelBatch :=
  {| db_columns := {[ "file_path" := StringColumn ["file:///t/seg_1.parquet"; "file:///t/seg_2.parquet"];
                      "pos" := Int64Column [0; 3] ]};
     db_num_rows := 2 |}.
Definition up : DeleteIo :=
  {| io_get := fun p => if decide (p = "del-1.parquet") then Some [] else None;
     io_get_range := fun _ _ _ => Some [];
     io_avro := fun _ => None;
     io_parquet := fun _ => Some [del_batch];
     io_bitmap := fun _ => Some {[5]} |}.
(** The same store while it does not answer. *)
Definition down : DeleteIo :=
  {| io_get := fun _ => None; io_get_range := fun _ _ _ => None; io_avro := io_avro up;
     io_parquet := io_parquet up; io_bitmap := io_bitmap up |}.

Definition pos_file : DeleteFile :=
  {| df_file_path := "file:///t/del-1.parquet"; df_content := Position; df_file_size_bytes := 0;
     df_record_count := 2; df_partition_values := ∅ |}.
Definition vector_file : DeleteFile :=
  {| df_file_path := "file:///t/dv.puffin"; df_content := DeletionVector "dv.puffin" 4 32;
     df_file_size_bytes := 0; df_record_count := 1; df_partition_values := ∅ |}.
Definition reader (seg : string) (files : list DeleteFile) : HybridReader :=
  {| hr_config := {| sc_base_path := ""; sc_segment_id := seg;
                     sc_parquet_path := Some (seg +:+ ".parquet"); sc_delete_files := files |};
     hr_root_uri := "file:///t" |}.

Definition r1 : HybridReader := reader "seg_1" [pos_file; pos_file].
Definition r2 : HybridReader := reader "seg_2" [pos_file; pos_file].

Lemma up_ok : io_agrees up up ∧ bitmaps_u32 up.
Proof.
  split; [by split|]. intros b S p [= <-] ->%elem_of_singleton. vm_compute. reflexivity.
Qed.

Lemma two_readers : keys_distinguish [r1; r2].
Proof.
  assert (∀ r, target_path r = target_path r ∧ hr_root_uri r = hr_root_uri r
    ∧ ∀ d, d ∈ sc_delete_files (hr_config r) ↔ d ∈ sc_delete_files (hr_config r)) as Hrefl
    by done.
  assert (merged_deletes_cache_key r1 ≠ merged_deletes_cache_key r2) as Hne
    by (vm_compute; congruence).
  intros r r' k [->|[->|[]%elem_of_nil]%elem_of_cons]%elem_of_cons
    [->|[->|[]%elem_of_nil]%elem_of_cons]%elem_of_cons Hk Hk'; try exact (Hrefl _);
    destruct Hne; [rewrite Hk|rewrite Hk']; symmetry; assumption.
Qed.

(** The only position file lists one row of each of two files. *)
Lemma up_lists path fp p :
  lists_position up path fp p →
  fp = "file:///t/seg_1.parquet" ∧ p = 0 ∨ fp = "file:///t/seg_2.parquet" ∧ p = 3.
Proof.
  intros (b & _ & Hl). destruct (ends_with ".avro" path); [by destruct Hl as (? & ? & ? & _)|].
  destruct Hl as (bs & bt & fps & poss & i & [= <-] & ->%list_elem_of_singleton & Hf & Hp & Hi & H1 & H2).
  vm_compute in Hf, Hp. simplify_eq.
  destruct i as [|[|i]]; simplify_eq/=; [by left|by right].
Qed.

Lemma up_unambiguous seg files :
  seg = "seg_1" ∨ seg = "seg_2" → paths_unambiguous up (reader seg files).
Proof.
  intros Hseg. split; [by destruct Hseg as [->| ->]|].
  intros d fp p _ _ Hl He. apply up_lists in Hl.
  destruct Hseg as [->| ->]; destruct Hl as [[-> ->]|[-> ->]];
    try (right; vm_compute; reflexivity); vm_compute in He; naive_solver.
Qed.

Lemma merged_deletes_exact_witness :
  keys_distinguish [r1; r2]
  ∧ Forall2 (fun (l : DeleteIo * HybridReader) deleted => ∀ p, p ∈ deleted ↔ row_deleted up l.2 p)
      [(up, r1); (up, r2); (up, r1)]
      (load_all empty_caches [(up, r1); (up, r2); (up, r1)]).1
  ∧ (load_all empty_caches [(up, r1); (up, r2); (up, r1)]).1 = [{[0]}; {[3]}; {[0]}].
Proof.
  split; [exact two_readers|]. split; [|vm_compute; reflexivity].
  apply (merged_deletes_exact up [r1; r2] [(up, r1); (up, r2); (up, r1)]);
    [apply up_ok|exact two_readers|].
  assert (∀ s, s = "seg_1" ∨ s = "seg_2" → paths_identify (reader s [pos_file; pos_file])
    ∧ paths_unambiguous up (reader s [pos_file; pos_file])
    ∧ Forall (fun d => readable up (reader s [pos_file; pos_file]) d = true)
        (sc_delete_files (hr_config (reader s [pos_file; pos_file])))) as Hs.
  { intros s Hs. split_and!; [|by apply up_unambiguous|].
    - intros d d' Hd Hd' _. simpl in *. set_solver.
    - repeat constructor; vm_compute; reflexivity. }
  apply Forall_cons_2; [|apply Forall_cons_2; [|apply Forall_cons_2; [|constructor]]];
    (split; [apply up_ok|split; [set_solver|apply Hs; auto]]).
Defined.

(** A delete file that cannot be read once counts as empty, and the empty result is kept
    in the process-wide cache: when the store answers again, every later reader of the
    file and its delete files still sees the deleted row. *)
Theorem failed_read_is_cached :
  (load_all empty_caches [(down, r1); (up, r1)]).1 = [∅; ∅] ∧ all_deletes up r1 = {[0]}.
Proof. split; vm_compute; reflexivity. Qed.

(** A deletion vector is not tied to a data file: every file it is attached to (the files
    of a partition) loses the row. *)
Example deletion_vector_hits_every_file :
  (load_all empty_caches [(up, reader "seg_1" [vector_file]); (up, reader "seg_2" [vector_file])]).1
  = [{[5]}; {[5]}].
Proof. vm_compute. reflexivity. Qed.

(** Paths are compared by suffix. *)
Example suffix_path_deletes_other_file :
  filter_map_to_bitmap {[ "a.parquet" := {[7]} ]} "data.parquet" = {[7]}.
Proof. vm_compute. reflexivity. Qed.

(** Several deletion vectors of one Puffin file have one path, and only the first counts. *)
Example vectors_of_one_file_are_dropped :
  let second := {| df_file_path := df_file_path vector_file;
                   df_content := DeletionVector "dv.puffin" 36 32; df_file_size_bytes := 0;
                   df_record_count := 1; df_partition_values := ∅ |} in
  unique_delete_files (reader "seg_1" [vector_file; second]) = [vector_file].
Proof. vm_compute. reflexivity. Qed.

Definition groups12 : list (list Z) := [[10; 11]; [20; 21]].

Definition decode_ref (groups : list (list Z)) (sel : option (list RowSelector)) : list Z :=
  match sel with None => mjoin groups | Some sel => apply_selection sel (mjoin groups) end.

Lemma decode_ref_ok : decode_ok decode_ref.
Proof. by split. Qed.

(** The rows are their ids; the delete holds the values 11 and 20. *)
Definition id_cell (name : string) (row : Z) : option EqCell :=
  if decide (name = "id") then Some (CInt row) else None.
Definition id_columns (rows : list Z) (name : string) : option EqColumn :=
  if decide (name = "id") then Some {| ec_type := TInt64; ec_cells := id_cell "id" <$> rows |} else None.
Definition id_delete : EqualityDelete :=
  {| ed_column_name := "id";
     ed_values := {| ec_type := TInt64; ec_cells := [Some (CInt 11); None; Some (CInt 20)] |} |}.

Lemma stream_all_exact_witness :
  decode_ok decode_ref
  ∧ stream_row_groups decode_ref (fun _ c => Some c) id_columns groups12 None {[3]} [id_delete]
    = [10].
Proof.
  split; [exact decode_ref_ok|].
  rewrite (stream_all_exact decode_ref (fun _ c => Some c) id_cell id_columns groups12 {[3]} [id_delete]).
  - vm_compute. reflexivity.
  - exact decode_ref_ok.
  - simpl. lia.
  - done.
  - intros d rows ->%list_elem_of_singleton. split; [reflexivity|].
    right. left.
Defined.

(** When only some row groups are read, the selection is still that of the whole file but
    is applied to the rows of the chosen groups: the deleted third row of the file is
    returned. *)
Theorem row_group_deletes_misplaced
    (decode : list (list Z) → option (list RowSelector) → list Z) :
  decode_ok decode →
  stream_positions decode groups12 (Some [1%nat]) {[2]} = [20; 21]
  ∧ visible {[2]} (mjoin groups12) = [10; 11; 21].
Proof.
  intros [_ Hs]. split; [|vm_compute; reflexivity].
  unfold stream_positions. rewrite decide_False by (vm_compute; discriminate).
  rewrite Hs. vm_compute. reflexivity.
Qed.

Lemma row_group_deletes_misplaced_witness :
  decode_ok decode_ref ∧ stream_positions decode_ref groups12 (Some [1%nat]) {[2]} = [20; 21].
Proof.
  split; [exact decode_ref_ok|].
  apply (row_group_deletes_misplaced decode_ref), decode_ref_ok.
Defined.

End DeleteExamples.
