(* ===== verification/EqualityDeletes.v ===== *)
(** * Equality deletes

    The delete files that name values instead of positions: the writer
    [IcebergDeleteWriter::write_equality_delete] and the reader [EqualityDeleteReader]
    of [src/src/core/iceberg/delete.rs], and [load_equality_deletes] of
    [src/src/core/reader/delete.rs] with its cache.  [Deletes] applies what is loaded. *)

From S2P Require Import Prelude Json ManifestTypes Deletes.
Open Scope Z_scope.

(** ** Arrow and Avro values *)

(** The column types the code distinguishes. *)
Inductive ArrowType := AInt32 | AInt64 | AFloat32 | AFloat64 | AUtf8 | ABoolean | AOther.
#[export] Instance ArrowType_eq_dec : EqDecision ArrowType.
Proof. solve_decision. Defined.

(** Cells; a float is its bit pattern. *)
Inductive DelCell := CellInt (z : Z) | CellFloat (bits : Z) | CellStr (s : string) | CellBool (b : bool).
#[export] Instance Cell_eq_dec : EqDecision DelCell.
Proof. solve_decision. Defined.

Record ArrowArray := { aa_type : ArrowType; aa_cells : list (option DelCell) }.

Inductive AvroCell :=
| AvcNull | AvcInt (z : Z) | AvcLong (z : Z) | AvcFloat (bits : Z) | AvcDouble (bits : Z)
| AvcString (s : string) | AvcBoolean (b : bool).

Inductive AvroType := TyInt | TyLong | TyFloat | TyDouble | TyString | TyBoolean.

(** [map_type_to_arrow] *)
Definition map_type_to_arrow (type_str : string) : ArrowType :=
  if bool_decide (type_str ∈ ["Int32"; "int"]) then AInt32
  else if bool_decide (type_str ∈ ["Int64"; "long"]) then AInt64
  else if bool_decide (type_str ∈ ["Float32"; "float"]) then AFloat32
  else if bool_decide (type_str ∈ ["Float64"; "double"]) then AFloat64
  else if bool_decide (type_str ∈ ["Utf8"; "string"]) then AUtf8
  else if bool_decide (type_str ∈ ["Boolean"; "bool"]) then ABoolean
  else AUtf8.

(** The Avro type of a field in the schema of a delete file. *)
Definition avro_type (type_str : string) : AvroType :=
  if bool_decide (type_str ∈ ["Int32"; "int"]) then TyInt
  else if bool_decide (type_str ∈ ["Int64"; "long"]) then TyLong
  else if bool_decide (type_str ∈ ["Float32"; "float"]) then TyFloat
  else if bool_decide (type_str ∈ ["Float64"; "double"]) then TyDouble
  else if bool_decide (type_str ∈ ["Utf8"; "string"]) then TyString
  else if bool_decide (type_str ∈ ["Boolean"; "bool"]) then TyBoolean
  else TyString.

(** [EQUALITY_DELETE_CACHE] *)
Abbreviation eq_cache := (gmap string (list EqualityDelete)).

Section EqualityFiles.
(** The [Debug] formatting of an array and of an Avro value. *)
Context (debug_array : ArrowArray → string) (debug_avro : AvroCell → string).
(** What a value that is written under a type is read back as; [None] when it is refused. *)
Context (avro_put : AvroType → AvroCell → option AvroCell).

(** ** Writing *)

Definition arrow_to_avro_value (array : ArrowArray) (i : nat) : option AvroCell :=
  match aa_cells array !! i with
  | None => None
  | Some None => Some AvcNull
  | Some (Some c) =>
      match aa_type array, c with
      | AInt32, CellInt z => Some (AvcInt z)
      | AInt64, CellInt z => Some (AvcLong z)
      | AFloat32, CellFloat z => Some (AvcFloat z)
      | AFloat64, CellFloat z => Some (AvcDouble z)
      | AUtf8, CellStr s => Some (AvcString s)
      | ABoolean, CellBool b => Some (AvcBoolean b)
      | AOther, _ => Some (AvcString (debug_array array))
      | _, _ => None
      end
  end.

Definition find_field (fields : list SchemaField) (id : Z) : option SchemaField :=
  List.find (fun f => bool_decide (sf_id f = id)) fields.

Definition avro_record : Type := list (string * AvroCell).

(** One record: the columns in the order of the ids. *)
Definition write_record (fields : list SchemaField) (batch : gmap string ArrowArray)
    (equality_ids : list Z) (i : nat) : option avro_record :=
  mapM (fun id =>
    field ← find_field fields id;
    col ← batch !! sf_name field;
    value ← arrow_to_avro_value col i;
    value ← avro_put (avro_type (sf_type_str field)) value;
    Some (sf_name field, value)) equality_ids.

Definition write_equality_delete (fields : list SchemaField) (batch : gmap string ArrowArray)
    (num_rows : nat) (equality_ids : list Z) : option (list avro_record) :=
  _ ← mapM (find_field fields) equality_ids;
  mapM (write_record fields batch equality_ids) (seq 0 num_rows).

(** ** Reading *)

(** [schema.fields.iter().map(|f| (f.id, f)).collect()]: the last field of an id. *)
Definition field_map (fields : list SchemaField) : gmap Z SchemaField :=
  foldl (fun m f => <[sf_id f := f]> m) ∅ fields.

Definition avro_to_arrow_array (values : list AvroCell) (type_str : string) : ArrowArray :=
  let build (ty : ArrowType) (f : AvroCell → option DelCell) :=
    {| aa_type := ty; aa_cells := f <$> values |} in
  if bool_decide (type_str ∈ ["Int32"; "int"]) then
    build AInt32 (fun v => match v with AvcInt z => Some (CellInt z) | _ => None end)
  else if bool_decide (type_str ∈ ["Int64"; "long"]) then
    build AInt64 (fun v => match v with AvcLong z => Some (CellInt z) | _ => None end)
  else if bool_decide (type_str ∈ ["Float32"; "float"]) then
    build AFloat32 (fun v => match v with AvcFloat z => Some (CellFloat z) | _ => None end)
  else if bool_decide (type_str ∈ ["Float64"; "double"]) then
    build AFloat64 (fun v => match v with AvcDouble z => Some (CellFloat z) | _ => None end)
  else if bool_decide (type_str ∈ ["Utf8"; "string"]) then
    build AUtf8 (fun v => match v with AvcString s => Some (CellStr s) | _ => None end)
  else if bool_decide (type_str ∈ ["Boolean"; "bool"]) then
    build ABoolean (fun v => match v with AvcBoolean b => Some (CellBool b) | _ => None end)
  else build AUtf8 (fun v => Some (CellStr (debug_avro v))).

(** The value of a column in a record; the last entry of a name counts, a missing one is null. *)
Definition record_value (name : string) (r : avro_record) : AvroCell :=
  foldl (fun acc e => if bool_decide (e.1 = name) then e.2 else acc) AvcNull r.

(** Batches as lists of columns. *)
Definition read_equality_deletes_avro (records : list avro_record) (equality_ids : list Z)
    (fields : list SchemaField) : option (list (list ArrowArray)) :=
  fs ← mapM (fun id => field_map fields !! id) equality_ids;
  if decide (records = []) then Some []
  else Some [(fun f => avro_to_arrow_array (record_value (sf_name f) <$> records) (sf_type_str f)) <$> fs].

(** A Parquet delete file: its schema and its batches by column name.  The reader is asked for
    the columns of the ids and returns them in the order of the file. *)
Record ParquetFile := { pf_columns : list string; pf_batches : list (gmap string ArrowArray) }.

Definition read_equality_deletes_parquet (f : ParquetFile) (equality_ids : list Z)
    (fields : list SchemaField) : option (list (list ArrowArray)) :=
  fs ← mapM (fun id => field_map fields !! id) equality_ids;
  let names := sf_name <$> fs in
  if forallb (fun n => bool_decide (n ∈ pf_columns f)) names then
    Some ((fun b : gmap string ArrowArray =>
             omap (fun n => b !! n) (filter (fun n => n ∈ names) (pf_columns f))) <$> pf_batches f)
  else None.

(** ** Loading *)

(** The store and the decoders; [None] is any error. *)
Record EqIo := {
  eio_get : string → option bytes;
  eio_avro : bytes → option (list avro_record);
  eio_parquet : bytes → option ParquetFile
}.

Definition read_equality_deletes (io : EqIo) (path : string) (equality_ids : list Z)
    (fields : list SchemaField) : option (list (list ArrowArray)) :=
  b ← eio_get io path;
  if ends_with ".avro" path then
    records ← eio_avro io b; read_equality_deletes_avro records equality_ids fields
  else f ← eio_parquet io b; read_equality_deletes_parquet f equality_ids fields.

(** Columns as [check_is_in] sees them. *)
Definition eq_type (ty : ArrowType) : EqType :=
  match ty with AInt32 => TInt32 | AInt64 => TInt64 | AUtf8 => TUtf8 | _ => TOther end.
Definition eq_cell (c : DelCell) : EqCell :=
  match c with
  | CellInt z | CellFloat z => CInt z
  | CellStr s => CStr s
  | CellBool b => CInt (if b then 1 else 0)
  end.
Definition eq_column (a : ArrowArray) : EqColumn :=
  {| ec_type := eq_type (aa_type a); ec_cells := option_map eq_cell <$> aa_cells a |}.

(** [arrow::compute::concat]: the arrays must have one type. *)
Definition concat_arrays (arrays : list ArrowArray) : option ArrowArray :=
  match arrays with
  | [] => None
  | a :: _ =>
      if forallb (fun b => bool_decide (aa_type b = aa_type a)) arrays
      then Some {| aa_type := aa_type a; aa_cells := arrays ≫= aa_cells |} else None
  end.

(** Only URIs with the scheme [file://] are made relative to the root. *)
Definition resolve_equality_path (root_uri path : string) : string :=
  if starts_with file_prefix path then resolve_delete_path root_uri path else path.

(** What one file contributes; several columns are not supported. *)
Definition equality_of_batches (fields : list SchemaField) (equality_ids : list Z)
    (batches : list (list ArrowArray)) : list EqualityDelete :=
  match equality_ids with
  | [field_id] =>
      match find_field fields field_id with
      | Some field =>
          match concat_arrays (omap head batches) with
          | Some values => [{| ed_column_name := sf_name field; ed_values := eq_column values |}]
          | None => []
          end
      | None => []
      end
  | _ => []
  end.

Fixpoint read_all (io : EqIo) (root_uri : string) (schema : option (list SchemaField))
    (files : list DeleteFile) : option (list EqualityDelete) :=
  match files with
  | [] => Some []
  | d :: files =>
      match df_content d with
      | Equality equality_ids =>
          fields ← schema;
          batches ← read_equality_deletes io (resolve_equality_path root_uri (df_file_path d))
                      equality_ids fields;
          rest ← read_all io root_uri schema files;
          Some (equality_of_batches fields equality_ids batches ++ rest)
      | _ => read_all io root_uri schema files
      end
  end.

Definition is_equality (d : DeleteFile) : bool :=
  match df_content d with Equality _ => true | _ => false end.

Definition load_equality_deletes (io : EqIo) (c : eq_cache) (r : HybridReader)
    (schema : option (list SchemaField)) : option (list EqualityDelete) * eq_cache :=
  let unique := unique_delete_files r in
  if negb (existsb is_equality unique) then (Some [], c)
  else
    let key := merged_deletes_cache_key r in
    match (k ← key; c !! k) with
    | Some cached => (Some cached, c)
    | None =>
        match read_all io (hr_root_uri r) schema unique with
        | None => (None, c)
        | Some results =>
            (Some results, match key with Some k => <[k := results]> c | None => c end)
        end
    end.
End EqualityFiles.

(** ** Writing and reading a file *)

(** Documented behaviour of the Avro library: a value of the schema's type is read back as
    it was written, and a null is refused where the type does not allow it. *)
Record avro_lawful (avro_put : AvroType → AvroCell → option AvroCell) : Prop := {
  al_int : ∀ z, avro_put TyInt (AvcInt z) = Some (AvcInt z);
  al_long : ∀ z, avro_put TyLong (AvcLong z) = Some (AvcLong z);
  al_float : ∀ z, avro_put TyFloat (AvcFloat z) = Some (AvcFloat z);
  al_double : ∀ z, avro_put TyDouble (AvcDouble z) = Some (AvcDouble z);
  al_string : ∀ s, avro_put TyString (AvcString s) = Some (AvcString s);
  al_boolean : ∀ b, avro_put TyBoolean (AvcBoolean b) = Some (AvcBoolean b);
  al_null : ∀ ty, avro_put ty AvcNull = None
}.

Definition supported_types : list string :=
  ["Int32"; "int"; "Int64"; "long"; "Float32"; "float"; "Float64"; "double"; "Utf8"; "string";
   "Boolean"; "bool"].

(** The Avro value of a cell of a type. *)
Definition cell_to_avro (ty : ArrowType) (c : option DelCell) : option AvroCell :=
  match ty, c with
  | AInt32, Some (CellInt z) => Some (AvcInt z)
  | AInt64, Some (CellInt z) => Some (AvcLong z)
  | AFloat32, Some (CellFloat z) => Some (AvcFloat z)
  | AFloat64, Some (CellFloat z) => Some (AvcDouble z)
  | AUtf8, Some (CellStr s) => Some (AvcString s)
  | ABoolean, Some (CellBool b) => Some (AvcBoolean b)
  | _, _ => None
  end.

(** A column that a delete file can hold: of the field's type, without nulls. *)
Record holdable (f : SchemaField) (n : nat) (col : ArrowArray) : Prop := {
  ho_type : sf_type_str f ∈ supported_types ∧ aa_type col = map_type_to_arrow (sf_type_str f);
  ho_length : length (aa_cells col) = n;
  ho_cells : Forall (fun c => is_Some (cell_to_avro (aa_type col) c)) (aa_cells col)
}.

Section RoundTrip.
Context (debug_array : ArrowArray → string) (debug_avro : AvroCell → string)
  (avro_put : AvroType → AvroCell → option AvroCell) (Hlaw : avro_lawful avro_put).

(** One cell is written and read back. *)
Lemma cell_written (f : SchemaField) (n i : nat) (col : ArrowArray) :
  holdable f n col → (i < n)%nat →
  ∃ c v, aa_cells col !! i = Some c ∧ cell_to_avro (aa_type col) c = Some v
    ∧ arrow_to_avro_value debug_array col i = Some v
    ∧ avro_put (avro_type (sf_type_str f)) v = Some v.
Proof.
  intros [[Hty Ha] Hl Hc] Hi. rewrite <- Hl in Hi. apply lookup_lt_is_Some in Hi as [c Hi].
  destruct (Forall_lookup_1 _ _ _ _ Hc Hi) as [v Hv]. exists c, v. split_and!; [done|done| |].
  - unfold arrow_to_avro_value. rewrite Hi.
    destruct (aa_type col); destruct c as [[]|]; simplify_eq/=; done.
  - rewrite Ha in Hv. destruct Hlaw. unfold supported_types in Hty.
    repeat (apply elem_of_cons in Hty as [Hty|Hty]; [rewrite Hty in Hv |- *;
      cbn in Hv |- *; destruct c as [[]|]; simplify_eq/=; auto|]).
    by apply not_elem_of_nil in Hty.
Qed.

(** A column of values is what was written. *)
Lemma column_read (f : SchemaField) (n : nat) (col : ArrowArray) (values : list AvroCell) :
  holdable f n col →
  Forall2 (fun c v => cell_to_avro (aa_type col) c = Some v) (aa_cells col) values →
  avro_to_arrow_array debug_avro values (sf_type_str f) = col.
Proof.
  intros [[Hty Ha] _ _] Hv. destruct col as [ty cells]. cbn in *. subst ty.
  assert (∀ g : AvroCell → option DelCell,
    (∀ c v, cell_to_avro (map_type_to_arrow (sf_type_str f)) c = Some v → g v = c) → g <$> values = cells) as Hg.
  { intros g Hg. induction Hv as [|c v cells values Hcv _ IH]; [done|]. csimpl. f_equal; auto. }
  clear Hv. unfold supported_types in Hty. 
  repeat (apply elem_of_cons in Hty as [Hty|Hty];
    [rewrite Hty in *; unfold avro_to_arrow_array; cbn in *; f_equal; apply Hg;
     intros [[]|] v Hcv; simplify_eq/=; reflexivity |]).
  by apply not_elem_of_nil in Hty.
Qed.

(** The value written for a field in row [i]. *)
Definition value_at (batch : gmap string ArrowArray) (i : nat) (f : SchemaField) : AvroCell :=
  default AvcNull (col ← batch !! sf_name f; arrow_to_avro_value debug_array col i).

Lemma record_written (fields : list SchemaField) batch ids fs (n i : nat) :
  mapM (find_field fields) ids = Some fs →
  Forall (fun f => ∃ col, batch !! sf_name f = Some col ∧ holdable f n col) fs → (i < n)%nat →
  write_record debug_array avro_put fields batch ids i =
  Some ((fun f => (sf_name f, value_at batch i f)) <$> fs).
Proof.
  intros Hids%mapM_Some Hfs Hi. unfold write_record. apply mapM_Some.
  induction Hids as [|id f ids fs Hid _ IH]; csimpl; [constructor|].
  apply Forall_cons in Hfs as [(col & Hcol & Hho) Hfs]. constructor; [|by apply IH].
  destruct (cell_written f n i col Hho Hi) as (c & v & _ & _ & Hv & Hput).
  rewrite Hid. cbn [mbind option_bind]. rewrite Hcol. cbn [mbind option_bind].
  unfold value_at. rewrite Hcol. cbn [mbind option_bind]. rewrite Hv. cbn [mbind option_bind default].
  by rewrite Hput.
Qed.

Lemma file_written (fields : list SchemaField) batch ids fs (n : nat) :
  mapM (find_field fields) ids = Some fs →
  Forall (fun f => ∃ col, batch !! sf_name f = Some col ∧ holdable f n col) fs →
  write_equality_delete debug_array avro_put fields batch n ids =
  Some ((fun i => (fun f => (sf_name f, value_at batch i f)) <$> fs) <$> seq 0 n).
Proof.
  intros Hids Hfs. unfold write_equality_delete. rewrite Hids. cbn [mbind option_bind].
  apply mapM_Some, Forall2_fmap_r, Forall_Forall2_diag, Forall_forall. intros i Hi%elem_of_seq.
  apply record_written with n; [done..|lia].
Qed.

Lemma record_value_lookup (fs : list SchemaField) (g : SchemaField → AvroCell) f :
  NoDup (sf_name <$> fs) → f ∈ fs → record_value (sf_name f) ((fun f => (sf_name f, g f)) <$> fs) = g f.
Proof.
  intros Hnd Hf. unfold record_value. generalize AvcNull as v. revert Hnd Hf.
  assert (∀ l v, sf_name f ∉ sf_name <$> l → foldl (fun acc (e : string * AvroCell) =>
    if bool_decide (e.1 = sf_name f) then e.2 else acc) v ((fun f => (sf_name f, g f)) <$> l) = v) as Hskip.
  { intros l. induction l as [|f' l IH]; intros v Hn; [done|]. csimpl in *.
    apply not_elem_of_cons in Hn as [Hne Hn]. rewrite bool_decide_false by congruence. by apply IH. }
  induction fs as [|f' fs IH]; intros Hnd Hf v; [by apply not_elem_of_nil in Hf|]. csimpl in *.
  apply NoDup_cons in Hnd as [Hn Hnd]. apply elem_of_cons in Hf as [<-|Hf].
  - rewrite bool_decide_true by done. by apply Hskip.
  - by apply IH.
Qed.

(** With distinct ids the two ways to look a field up agree. *)
Lemma field_map_find (fields : list SchemaField) id :
  NoDup (sf_id <$> fields) → field_map fields !! id = find_field fields id.
Proof.
  unfold field_map, find_field. intros Hnd.
  assert (∀ m : gmap Z SchemaField, foldl (fun m f => <[sf_id f := f]> m) m fields !! id =
    match List.find (fun f => bool_decide (sf_id f = id)) fields with Some f => Some f | None => m !! id end) as H.
  { revert Hnd. induction fields as [|f fields IH]; intros Hnd m; [done|]. csimpl in *.
    apply NoDup_cons in Hnd as [Hn Hnd]. rewrite IH by done.
    destruct (List.find _ fields) as [f'|] eqn:Hf; case_bool_decide as Hid; [|done|..].
    - apply List.find_some in Hf as [Hin%list_elem_of_In Hid'%bool_decide_eq_true].
      destruct Hn. rewrite Hid, <- Hid'. by apply list_elem_of_fmap_2.
    - by rewrite Hid, lookup_insert_eq.
    - by rewrite lookup_insert_ne. }
  rewrite H, lookup_empty. by destruct (List.find _ fields).
Qed.

(** What is read back from the records of a file. *)
Lemma file_read (fields : list SchemaField) batch ids fs (n : nat) :
  NoDup (sf_id <$> fields) → mapM (find_field fields) ids = Some fs → NoDup (sf_name <$> fs) →
  Forall (fun f => ∃ col, batch !! sf_name f = Some col ∧ holdable f n col) fs → (0 < n)%nat →
  read_equality_deletes_avro debug_avro
    ((fun i => (fun f => (sf_name f, value_at batch i f)) <$> fs) <$> seq 0 n) ids fields
  = Some [omap (fun f => batch !! sf_name f) fs].
Proof.
  intros Hnd Hids Hnames Hfs Hn. unfold read_equality_deletes_avro.
  assert (mapM (fun id => field_map fields !! id) ids = Some fs) as ->.
  { rewrite <- Hids. apply mapM_ext. intros id. by apply field_map_find. }
  cbn [mbind option_bind]. rewrite decide_False by (destruct n; [lia|done]). do 2 f_equal.
  rewrite Forall_forall in Hfs.
  assert (∀ l : list SchemaField, (∀ f, f ∈ l → f ∈ fs) → (fun f => avro_to_arrow_array debug_avro (record_value (sf_name f)
      <$> ((fun i => (fun f => (sf_name f, value_at batch i f)) <$> fs) <$> seq 0 n)) (sf_type_str f)) <$> l
    = omap (fun f => batch !! sf_name f) l) as Hl; [|by apply Hl].
  intros l. induction l as [|f l IH]; intros Hl; [done|]. csimpl.
  destruct (Hfs f) as (col & Hcol & Hho); [apply Hl; left|]. rewrite Hcol. f_equal.
  2: { apply IH. intros. apply Hl. by right. }
  apply (column_read f n col _ Hho). rewrite <- list_fmap_compose.
  apply Forall2_fmap_r, Forall2_same_length_lookup. split; [by rewrite length_seq, (ho_length _ _ _ Hho)|].
  intros i c j Hc Hj. apply lookup_seq in Hj as [-> Hi]. cbn [compose].
  rewrite record_value_lookup; [|done|apply Hl; left].
  destruct (cell_written f n i col Hho Hi) as (c' & v & Hc' & Hv & Hav & _). simplify_eq.
  unfold value_at. rewrite Nat.add_0_l. rewrite Hcol. cbn [mbind option_bind]. by rewrite Hav.
Qed.
End RoundTrip.

(** A delete file that is written is read back as it was: for columns of the supported
    types without nulls, the columns of the ids come back with their values in order. *)
Theorem equality_file_roundtrip debug_array debug_avro avro_put (fields : list SchemaField)
    (batch : gmap string ArrowArray) (ids : list Z) (fs : list SchemaField) (n : nat) :
  avro_lawful avro_put → NoDup (sf_id <$> fields) → mapM (find_field fields) ids = Some fs →
  NoDup (sf_name <$> fs) → (0 < n)%nat →
  Forall (fun f => ∃ col, batch !! sf_name f = Some col ∧ holdable f n col) fs →
  ∃ records, write_equality_delete debug_array avro_put fields batch n ids = Some records
    ∧ read_equality_deletes_avro debug_avro records ids fields
      = Some [omap (fun f => batch !! sf_name f) fs].
Proof.
  intros Hlaw Hids Hm Hnames Hn Hfs. eexists. split; [by eapply file_written|]. by eapply file_read.
Qed.

(** ** Loading and applying *)

Section Loading.
Context (debug_avro : AvroCell → string) (io : EqIo) (root_uri : string) (fields : list SchemaField).

(** A delete file of one column that is readable and holds [values], in any number of
    batches of one type. *)
Record holds (d : DeleteFile) (f : SchemaField) (values : ArrowArray) : Prop := {
  h_content : df_content d = Equality [sf_id f];
  h_field : find_field fields (sf_id f) = Some f;
  h_read : ∃ batches, read_equality_deletes debug_avro io
             (resolve_equality_path root_uri (df_file_path d)) [sf_id f] fields = Some batches
             ∧ concat_arrays (omap head batches) = Some values
}.

Lemma holds_unique d f values f' values' : holds d f values → holds d f' values' → f' = f ∧ values' = values.
Proof.
  intros [H1 H2 (b & H3 & H4)] [H1' H2' (b' & H3' & H4')]. rewrite H1 in H1'. injection H1' as Hid.
  rewrite <- Hid in H2', H3'. by simplify_eq.
Qed.

Lemma read_all_holds (files : list DeleteFile) :
  (∀ d, d ∈ files → is_equality d = true → ∃ f values, holds d f values) →
  ∃ dels, read_all debug_avro io root_uri (Some fields) files = Some dels
    ∧ ∀ name col, {| ed_column_name := name; ed_values := col |} ∈ dels ↔
        ∃ d f values, d ∈ files ∧ holds d f values ∧ name = sf_name f ∧ col = eq_column values.
Proof.
  induction files as [|d files IH]; intros Hf.
  { exists []. split; [done|]. intros name col. rewrite elem_of_nil. split; [done|].
    intros (d & f & v & Hd & _). by apply not_elem_of_nil in Hd. }
  destruct IH as (dels & Hr & Hin); [intros; apply Hf; [by right|done]|].
  destruct (is_equality d) eqn:He.
  2: { exists dels. split.
       - simpl. unfold is_equality in He. by destruct (df_content d).
       - intros name col. rewrite Hin. split; intros (d' & f & v & Hd & Hh & Hrest);
           exists d', f, v; (split; [|done]); [by right|].
         apply elem_of_cons in Hd as [->|Hd]; [|done].
         unfold is_equality in He. by rewrite (h_content _ _ _ Hh) in He. }
  destruct (Hf d ltac:(left) He) as (f & values & Hh).
  exists ({| ed_column_name := sf_name f; ed_values := eq_column values |} :: dels). split.
  - simpl. rewrite (h_content _ _ _ Hh). cbn [mbind option_bind].
    destruct (h_read _ _ _ Hh) as (batches & Hb & Hc). rewrite Hb.
    cbn [mbind option_bind]. rewrite Hr. cbn [mbind option_bind]. unfold equality_of_batches.
    by rewrite (h_field _ _ _ Hh), Hc.
  - intros name col. rewrite elem_of_cons, Hin. split.
    + intros [[= -> ->]|(d' & f' & v' & Hd' & Hh' & Hn & Hv)].
      * exists d, f, values. split; [left|done].
      * exists d', f', v'. split; [by right|done].
    + intros (d' & f' & v' & [->|Hd']%elem_of_cons & Hh' & -> & ->).
      * left. by destruct (holds_unique _ _ _ _ _ Hh Hh') as [-> ->].
      * right. by exists d', f', v'.
Qed.
End Loading.

Lemma deleted_by_value_true cell deletes :
  deleted_by_value cell deletes = true ↔
  ∃ name col x, {| ed_column_name := name; ed_values := col |} ∈ deletes ∧ cell name = Some x ∧
    Some x ∈ ec_cells col.
Proof.
  unfold deleted_by_value. rewrite existsb_exists. setoid_rewrite <- list_elem_of_In. split.
  - intros ([name col] & Hd & Hx). simpl in Hx. destruct (cell name) as [x|] eqn:E; [|done].
    apply bool_decide_eq_true in Hx. eauto 10.
  - intros (name & col & x & Hd & Hx & Hc). eexists. split; [exact Hd|]. simpl. rewrite Hx.
    by apply bool_decide_eq_true.
Qed.

(** C35: What [load_equality_deletes] loads, applied to a batch, leaves exactly the rows whose
    value no equality delete file of the segment holds in its column; the load succeeds,
    and gives the same answer from the cache.  Conditions: the table's schema is given,
    every equality delete file of the segment names one column and is readable, its
    batches having one type; the batch has that column, with the type of the values,
    which is Utf8, Int64 or Int32; the cache has no entry for the segment's key yet.  Files
    of several columns delete nothing ([two_columns_delete_nothing]), and a batch without
    the column keeps the rows ([projection_reveals_deleted_rows]). *)
Theorem equality_deletes_hide_values debug_avro io (c : eq_cache) (r : HybridReader)
    (fields : list SchemaField) cast :
  cast_lawful cast → (k ← merged_deletes_cache_key r; c !! k) = None →
  (∀ d, d ∈ unique_delete_files r → is_equality d = true →
     ∃ f values, holds debug_avro io (hr_root_uri r) fields d f values) →
  ∃ dels c', load_equality_deletes debug_avro io c r (Some fields) = (Some dels, c')
    ∧ load_equality_deletes debug_avro io c' r (Some fields) = (Some dels, c')
    ∧ ∀ (A : Type) (rows : list A) (cell : string → A → option EqCell) column,
        (∀ d f values, d ∈ unique_delete_files r →
           holds debug_avro io (hr_root_uri r) fields d f values →
           column (sf_name f) = Some {| ec_type := eq_type (aa_type values);
                                        ec_cells := cell (sf_name f) <$> rows |}
           ∧ eq_type (aa_type values) ∈ [TUtf8; TInt64; TInt32]) →
        ∃ hidden : A → bool,
          apply_equality cast column dels rows = filter (fun row => hidden row = false) rows
          ∧ ∀ row, hidden row = true ↔
              ∃ d f values x, d ∈ unique_delete_files r
                ∧ holds debug_avro io (hr_root_uri r) fields d f values
                ∧ cell (sf_name f) row = Some x ∧ Some x ∈ ec_cells (eq_column values).
Proof.
  intros Hcast Hmiss Hholds.
  destruct (read_all_holds debug_avro io (hr_root_uri r) fields _ Hholds) as (dels & Hr & Hin).
  assert (∃ dels' c', load_equality_deletes debug_avro io c r (Some fields) = (Some dels', c')
    ∧ load_equality_deletes debug_avro io c' r (Some fields) = (Some dels', c')
    ∧ ∀ e, e ∈ dels' ↔ e ∈ dels) as (dels' & c' & H1 & H2 & Heq).
  { unfold load_equality_deletes. destruct (existsb is_equality (unique_delete_files r)) eqn:Hex; simpl.
    - rewrite Hmiss, Hr. destruct (merged_deletes_cache_key r) as [k|] eqn:Hk.
      + exists dels, (<[k := dels]> c). simpl. by rewrite lookup_insert_eq.
      + exists dels, c. done.
    - exists [], c. split_and!; [done|done|]. intros [name col]. rewrite Hin. split; [set_solver|].
      intros (d & f & v & Hd & Hh & _). exfalso.
      assert (existsb is_equality (unique_delete_files r) = true); [|congruence].
      apply existsb_exists. exists d. rewrite <- list_elem_of_In. split; [done|].
      unfold is_equality. by rewrite (h_content _ _ _ _ _ _ _ Hh). }
  exists dels', c'. split_and!; [done|done|]. intros A rows cell column Hcol.
  exists (fun row => deleted_by_value (fun name => cell name row) dels'). split.
  - apply apply_equality_values; [done|]. intros [name col] (d & f & v & Hd & Hh & -> & ->)%Heq%Hin.
    by destruct (Hcol d f v Hd Hh).
  - intros row. rewrite deleted_by_value_true. split.
    + intros (name & col & x & (d & f & v & Hd & Hh & -> & ->)%Heq%Hin & Hx & Hv). by exists d, f, v, x.
    + intros (d & f & v & x & Hd & Hh & Hx & Hv). exists (sf_name f), (eq_column v), x.
      split_and!; [|done|done]. apply Heq, Hin. by exists d, f, v.
Qed.

(** A failed read of an equality delete file fails the load and leaves the cache as it
    was. *)
Theorem equality_load_fails_closed debug_avro io (c : eq_cache) (r : HybridReader) schema d ids :
  (k ← merged_deletes_cache_key r; c !! k) = None →
  d ∈ unique_delete_files r → df_content d = Equality ids →
  (∀ fields, schema = Some fields →
     read_equality_deletes debug_avro io (resolve_equality_path (hr_root_uri r) (df_file_path d)) ids fields
     = None) →
  load_equality_deletes debug_avro io c r schema = (None, c).
Proof.
  intros Hmiss Hd Hc Hfail. unfold load_equality_deletes.
  assert (existsb is_equality (unique_delete_files r) = true) as ->.
  { apply existsb_exists. exists d. rewrite <- list_elem_of_In. split; [done|].
    unfold is_equality. by rewrite Hc. }
  rewrite Hmiss. cbn [negb].
  assert (read_all debug_avro io (hr_root_uri r) schema (unique_delete_files r) = None) as ->; [|done].
  induction (unique_delete_files r) as [|d' l IH]; [by apply not_elem_of_nil in Hd|]. simpl.
  apply elem_of_cons in Hd as [<-|Hd].
  - rewrite Hc. destruct schema as [fields|]; cbn [mbind option_bind]; [|done].
    by rewrite (Hfail fields eq_refl).
  - destruct (df_content d') as [|ids'|]; [by apply IH| |by apply IH].
    destruct schema as [fields|]; cbn [mbind option_bind]; [|done].
    destruct (read_equality_deletes _ _ _ _ _); cbn [mbind option_bind]; [|done].
    by rewrite IH.
Qed.

Module EqualityExamples.

Definition field (id : Z) (name ty : string) : SchemaField :=
  {| sf_id := id; sf_name := name; sf_type_str := ty; sf_required := false; sf_nested := EmptyString;
     sf_initial_default := None; sf_write_default := None; sf_indexes := [] |}.
Definition schema : list SchemaField :=
  [field 1 "id" "long"; field 2 "name" "string"; field 3 "day" "date"].

(** Avro: a value of the type itself is kept, any other is refused. *)
Definition put (ty : AvroType) (v : AvroCell) : option AvroCell :=
  match ty, v with
  | TyInt, AvcInt _ | TyLong, AvcLong _ | TyFloat, AvcFloat _ | TyDouble, AvcDouble _
  | TyString, AvcString _ | TyBoolean, AvcBoolean _ => Some v
  | _, _ => None
  end.
Lemma put_lawful : avro_lawful put.
Proof. split; try done. by intros []. Qed.

Definition debug (a : ArrowArray) : string := "PrimitiveArray<Date32>[1970-01-02, 1970-01-03]".
Definition debug_cell (v : AvroCell) : string :=
  match v with AvcString s => "String(" +:+ s +:+ ")" | _ => "?" end.

Definition ids_col : ArrowArray := {| aa_type := AInt64; aa_cells := [Some (CellInt 7); Some (CellInt 9)] |}.
Definition names_col : ArrowArray :=
  {| aa_type := AUtf8; aa_cells := [Some (CellStr "a"); Some (CellStr "b")] |}.
Definition batch : gmap string ArrowArray := {[ "id" := ids_col; "name" := names_col ]}.

Lemma equality_file_roundtrip_witness :
  ∃ records, write_equality_delete debug put schema batch 2 [2; 1] = Some records
    ∧ read_equality_deletes_avro debug_cell records [2; 1] schema = Some [[names_col; ids_col]].
Proof.
  apply (equality_file_roundtrip debug debug_cell put schema batch [2; 1]
    [field 2 "name" "string"; field 1 "id" "long"] 2); [exact put_lawful|..].
  - apply (bool_decide_unpack _). vm_compute. exact I.
  - reflexivity.
  - apply (bool_decide_unpack _). vm_compute. exact I.
  - lia.
  - apply Forall_cons_2; [|apply Forall_cons_2; [|constructor]]; eexists; (split; [reflexivity|]);
      (split; [split; [apply (bool_decide_unpack _); vm_compute; exact I|reflexivity]|reflexivity|]);
      repeat constructor; by eexists.
Defined.

(** A store with one equality delete file, of the ids 7 and 9. *)
Definition file : DeleteFile :=
  {| df_file_path := "file:///t/del-eq-1-2.avro"; df_content := Equality [1]; df_file_size_bytes := 10;
     df_record_count := 2; df_partition_values := ∅ |}.
Definition records : list avro_record := [[("id", AvcLong 7)]; [("id", AvcLong 9)]].
Definition store : EqIo :=
  {| eio_get := fun p => if bool_decide (p = "del-eq-1-2.avro") then Some [] else None;
     eio_avro := fun _ => Some records; eio_parquet := fun _ => None |}.
Definition segment : HybridReader :=
  {| hr_config := {| sc_base_path := "/t"; sc_segment_id := "seg_1"; sc_parquet_path := None;
                     sc_delete_files := [file; file] |};
     hr_root_uri := "file:///t" |}.
Definition cast (t : EqType) (c : EqColumn) : option EqColumn := Some c.

Lemma file_holds : holds debug_cell store (hr_root_uri segment) schema file (field 1 "id" "long") ids_col.
Proof. split; [vm_compute; reflexivity..|]. exists [[ids_col]]. by vm_compute. Qed.

(** The rows are their ids. *)
Definition id_cell (name : string) (row : Z) : option EqCell := Some (CInt row).
Definition ids_of (rows : list Z) (name : string) : option EqColumn :=
  Some {| ec_type := TInt64; ec_cells := id_cell name <$> rows |}.

Lemma equality_deletes_hide_values_witness :
  ∃ dels c', load_equality_deletes debug_cell store ∅ segment (Some schema) = (Some dels, c')
    ∧ load_equality_deletes debug_cell store c' segment (Some schema) = (Some dels, c')
    ∧ ∃ hidden : Z → bool,
        apply_equality cast (ids_of [5; 7; 8; 9]) dels [5; 7; 8; 9] =
          filter (fun row => hidden row = false) [5; 7; 8; 9] ∧ hidden 7 = true.
Proof.
  assert (∀ d, d ∈ unique_delete_files segment → d = file) as Hfile.
  { intros d Hd. change (unique_delete_files segment) with [file] in Hd.
    by apply list_elem_of_singleton in Hd. }
  destruct (equality_deletes_hide_values debug_cell store ∅ segment schema cast)
    as (dels & c' & H1 & H2 & H3).
  - done.
  - vm_compute. reflexivity.
  - intros d ->%Hfile _. exists (field 1 "id" "long"), ids_col. exact file_holds.
  - exists dels, c'. split; [exact H1|]. split; [exact H2|].
    destruct (H3 Z [5; 7; 8; 9] id_cell (ids_of [5; 7; 8; 9])) as (hidden & Happ & Hh).
    + intros d f values ->%Hfile Hh. destruct (holds_unique _ _ _ _ _ _ _ _ _ file_holds Hh) as [-> ->].
      split; [reflexivity|]. right. left.
    + exists hidden. split; [exact Happ|]. apply Hh.
      exists file, (field 1 "id" "long"), ids_col, (CInt 7). split_and!.
      * change (unique_delete_files segment) with [file]. left.
      * exact file_holds.
      * reflexivity.
      * left.
Defined.

(** The rows of a segment by id, and a query that reads the column or not. *)
Definition data : list Z := [5; 7; 8; 9].
Definition id_column (rows : list Z) : EqColumn :=
  {| ec_type := TInt64; ec_cells := (fun z => Some (CInt z)) <$> rows |}.
Definition with_id (name : string) : option EqColumn :=
  if bool_decide (name = "id") then Some (id_column data) else None.
Definition without_id (name : string) : option EqColumn := None.
Definition loaded_deletes : list EqualityDelete :=
  default [] (load_equality_deletes debug_cell store ∅ segment (Some schema)).1.

(** Equality deletes are applied after the projection: a query that does not read the
    column of the deletes gets the deleted rows too. *)
Theorem projection_reveals_deleted_rows :
  apply_equality cast with_id loaded_deletes data = [5; 8]
  ∧ apply_equality cast without_id loaded_deletes data = data.
Proof. split; vm_compute; reflexivity. Qed.

(** For other types the writer stores the text of the whole column for each of its values. *)
Example other_types_write_the_whole_column :
  let days := {| aa_type := AOther; aa_cells := [Some (CellInt 1); Some (CellInt 2)] |} in
  write_equality_delete debug put schema {[ "day" := days ]} 2 [3]
  = Some [[("day", AvcString (debug days))]; [("day", AvcString (debug days))]].
Proof. vm_compute. reflexivity. Qed.

(** A null among the values refuses the whole file. *)
Example nulls_are_refused :
  write_equality_delete debug put schema
    {[ "id" := {| aa_type := AInt64; aa_cells := [Some (CellInt 7); None] |} ]} 2 [1] = None.
Proof. vm_compute. reflexivity. Qed.

(** A delete file of two columns deletes nothing. *)
Example two_columns_delete_nothing batches : equality_of_batches schema [1; 2] batches = [].
Proof. reflexivity. Qed.
End EqualityExamples.
