(* ===== verification/Merge.v ===== *)
(** * Merging rows into a table (upsert)

    [Table::merge] ([src/src/core/table/merge.rs]) and [MergePlanner::execute_merge]
    ([src/src/core/merge.rs]): rows of the source whose key occurs in a segment replace the
    row there, by rewriting the segment (copy on write) or by a position delete file (merge on
    read); the others are inserted.  The commit is that of [Manifest], the reader's view of
    the deletes that of [Deletes].  Rows are abstract with a function [key] that gives the
    encoded key; hash maps are iterated in any order. *)

From S2P Require Import Prelude Json ManifestTypes Manifest ManifestStore Deletes.

(** ** Names *)

(** [s.replace(p, "")] *)
Fixpoint remove_from (fuel : nat) (p s : string) : string :=
  match fuel, s with
  | S fuel, String.String a s' =>
      match strip_prefix p s with
      | Some rest => remove_from fuel p rest
      | None => String.String a (remove_from fuel p s')
      end
  | _, _ => s
  end.
Definition remove_str (p s : string) : string := remove_from (String.length s) p s.

Definition parquet_suffix : string := ".parquet".

(** The last component of a path, without its suffix. *)
Definition seg_id_of (file_path : string) : string :=
  remove_str parquet_suffix (default file_path (last (split_char slash file_path))).

(** ** The table *)

(** Data files by path, and the contents of position delete files by the path the manifest
    records. *)
Record World (Row : Type) := { w_data : gmap string (list Row); w_dels : gmap string pos_map }.
Arguments w_data {_}.
Arguments w_dels {_}.

Record Snapshot := { sn_entries : entry_map; sn_deletes : list DeleteFile }.

(** What the segment writer has produced beside the rows: the size and checksum of the file,
    its indexes and statistics. *)
Record WriterOutput := {
  wo_size : Z; wo_checksum : option string; wo_indexes : list IndexFile;
  wo_stats : gmap string ColumnStats
}.

(** [HybridSegmentWriter::to_manifest_entry] of a writer configured with a name only. *)
Definition to_manifest_entry (parquet_file : string) (out : WriterOutput) (record_count : nat)
  : ManifestEntry :=
  {| me_file_path := parquet_file; me_file_size_bytes := wo_size out;
     me_record_count := Z.of_nat record_count; me_file_checksum := wo_checksum out;
     me_index_files := wo_indexes out; me_delete_files := []; me_column_stats := wo_stats out;
     me_partition_values := ∅; me_clustering := Clustering_default; me_first_row_id := None |}.

Section Merge.
Context {Row Key : Type} `{Countable Key} (key : Row → Key).
(** [Uuid::new_v4()], what the writers produce for rows, the size of a delete file, and the
    order in which the map of matches is iterated. *)
Context (uuid : nat → string) (written : list Row → WriterOutput) (delete_size : pos_map → Z).
Context (hash_iter : gmap string (list (nat * nat)) → list (string * list (nat * nat))).
Context (root : string).

(** The position deletes an entry's delete files hold for its data file. *)
Definition deleted_rows (w : World Row) (e : ManifestEntry) : gset Z :=
  ⋃ ((fun d => filter_map_to_bitmap (default ∅ (w_dels w !! df_file_path d))
                 (strip_file (me_file_path e))) <$> me_delete_files e).
Definition visible_rows (w : World Row) (e : ManifestEntry) : list Row :=
  visible (deleted_rows w e) (default [] (w_data w !! me_file_path e)).

(** The entries a reader loads: delete files are attached by partition. *)
Definition loaded (s : Snapshot) : list ManifestEntry :=
  attach_deletes (sn_deletes s) ∘ (fun e => with_delete_files e []) ∘ snd
    <$> map_to_list (sn_entries s).
Definition table_rows (w : World Row) (s : Snapshot) : list Row := loaded s ≫= visible_rows w.

(** [commit] on the table's entries and delete files. *)
Definition commit_snapshot (md : CommitMetadata) (add_entries : list ManifestEntry)
    (remove_paths : list string) (s : Snapshot) : option Snapshot :=
  if discards md (sn_entries s) remove_paths then Some s
  else
    active ← remove_all md (sn_entries s) remove_paths;
    Some {| sn_entries := add_all active add_entries;
            sn_deletes := collect_deletes (sn_deletes s) add_entries |}.

(** ** Matching source rows with segments *)

Inductive MergeMode := MergeOnRead | CopyOnWrite.

Inductive MergeCommitAction :=
| ReplaceData (old_segment_path : string) (new_entry : ManifestEntry)
| AddDelete (old_segment_path : string) (updated_entry : ManifestEntry)
| AddData (new_entry : ManifestEntry).

(** The rows of a segment: the reader is given the segment's name and no delete files, and
    an absent file has no rows. *)
Definition segment_rows (w : World Row) (seg_id : string) : list Row :=
  default [] (w_data w !! (seg_id +:+ parquet_suffix)).

(** [seg_key_index]: the first row of each key. *)
Fixpoint index_keys (i : nat) (keys : list Key) (m : gmap Key nat) : gmap Key nat :=
  match keys with
  | [] => m
  | k :: keys =>
      index_keys (S i) keys (match m !! k with Some _ => m | None => <[k := i]> m end)
  end.
Definition seg_key_index (rows : list Row) : gmap Key nat := index_keys 0 (key <$> rows) ∅.

(** The loop over the source rows: the matches and what stays unmatched. *)
Fixpoint match_rows (index : gmap Key nat) (row_idx : nat) (source_keys : list Key)
    (unmatched : gset nat) : list (nat * nat) * gset nat :=
  match source_keys with
  | [] => ([], unmatched)
  | k :: keys =>
      match (if decide (row_idx ∈ unmatched) then index !! k else None) with
      | Some seg_idx =>
          let '(l, unmatched) := match_rows index (S row_idx) keys (unmatched ∖ {[row_idx]}) in
          ((row_idx, seg_idx) :: l, unmatched)
      | None => match_rows index (S row_idx) keys unmatched
      end
  end.

(** [updates_by_segment.entry(seg_id).or_default().push(..)] for each match. *)
Definition add_updates (updates : gmap string (list (nat * nat))) (seg_id : string)
    (l : list (nat * nat)) : gmap string (list (nat * nat)) :=
  match l with
  | [] => updates
  | _ => <[seg_id := default [] (updates !! seg_id) ++ l]> updates
  end.

Fixpoint match_segments (w : World Row) (source_keys : list Key) (candidates : list ManifestEntry)
    (updates : gmap string (list (nat * nat))) (unmatched : gset nat)
  : gmap string (list (nat * nat)) * gset nat :=
  match candidates with
  | [] => (updates, unmatched)
  | entry :: candidates =>
      let seg_id := seg_id_of (me_file_path entry) in
      let index := seg_key_index (segment_rows w seg_id) in
      let '(l, unmatched) := match_rows index 0 source_keys unmatched in
      match_segments w source_keys candidates (add_updates updates seg_id l) unmatched
  end.

(** ** Writing *)

Record MergeState := {
  ms_world : World Row;
  ms_next : nat;
  ms_actions : list MergeCommitAction;
  ms_unmatched : gset nat
}.

(** [HybridSegmentWriter] with a fresh name: the new file and its entry. *)
Definition new_data (n : nat) : string := "seg_" +:+ uuid n +:+ parquet_suffix.
Definition new_entry (n : nat) (rows : list Row) : ManifestEntry :=
  to_manifest_entry (new_data n) (written rows) (length rows).
Definition write_segment (st : World Row * nat) (rows : list Row) : ManifestEntry * (World Row * nat) :=
  let '(w, n) := st in
  (new_entry n rows, ({| w_data := <[new_data n := rows]> (w_data w); w_dels := w_dels w |}, S n)).

(** [IcebergDeleteWriter::write_position_delete] *)
Definition metadata_uri (object_path : string) : string :=
  let full := remove_str "file://" root +:+ "/" +:+ object_path in
  if starts_with "file://" full || starts_with "s3://" full then full else "file://" +:+ full.

(** [Path::parent] of a store path. *)
Definition parent_path (p : string) : string :=
  join_char slash (removelast (split_char slash p)).

Definition delete_name (n : nat) : string := "del-pos-" +:+ uuid n +:+ "-2.parquet".

(** The delete file of one data file. *)
Definition delete_content (file_path : string) (positions : list nat) : pos_map :=
  foldl (fun m pos => add_position m (qualify root file_path) (Z.of_nat pos)) ∅ positions.

Definition position_delete (st : World Row * nat) (partition_data : option (string * gmap string Value))
    (file_path : string) (positions : list nat) : DeleteFile * (World Row * nat) :=
  let '(w, n) := st in
  let object_path :=
    match partition_data with
    | Some (part_path, _) => part_path +:+ "/" +:+ delete_name n
    | None => delete_name n
    end in
  let content := delete_content file_path positions in
  let path := metadata_uri object_path in
  ({| df_file_path := path; df_content := Position; df_file_size_bytes := delete_size content;
      df_record_count := Z.of_nat (length positions);
      df_partition_values := from_option snd ∅ partition_data |},
   ({| w_data := w_data w; w_dels := <[path := content]> (w_dels w) |}, S n)).

(** The delete file of an entry, beside its data file if it has partition values. *)
Definition write_position_delete (st : World Row * nat) (e : ManifestEntry) (positions : list nat)
  : DeleteFile * (World Row * nat) :=
  position_delete st
    (if decide (me_partition_values e = ∅) then None
     else Some (parent_path (me_file_path e), me_partition_values e))
    (me_file_path e) positions.

(** [take_record_batch] *)
Definition take_source (source : list Row) (idxs : list nat) : list Row := omap (fun i => source !! i) idxs.

(** One segment with matches. *)
Definition process_segment (mode : MergeMode) (source : list Row) (candidates : list ManifestEntry)
    (st : MergeState) (u : string * list (nat * nat)) : MergeState :=
  let '(seg_id, matched) := u in
  match List.find (fun e => str_contains seg_id (me_file_path e)) candidates with
  | None => st
  | Some original =>
      let old_path := me_file_path original in
      match mode with
      | CopyOnWrite =>
          let rows := segment_rows (ms_world st) seg_id in
          let filtered := visible (list_to_set (Z.of_nat <$> matched.*2)) rows in
          let '(e, (w, n)) :=
            write_segment (ms_world st, ms_next st) (filtered ++ take_source source matched.*1) in
          {| ms_world := w; ms_next := n; ms_actions := ms_actions st ++ [ReplaceData old_path e];
             ms_unmatched := ms_unmatched st |}
      | MergeOnRead =>
          let unmatched := ms_unmatched st ∪ list_to_set matched.*1 in
          match matched with
          | [] => st
          | _ =>
              let '(d, (w, n)) :=
                write_position_delete (ms_world st, ms_next st) original matched.*2 in
              {| ms_world := w; ms_next := n;
                 ms_actions := ms_actions st
                   ++ [AddDelete old_path (with_delete_files original (me_delete_files original ++ [d]))];
                 ms_unmatched := unmatched |}
          end
      end
  end.

Definition sort_unmatched : list nat → list nat := merge_sort le.

(** The rows left over are inserted in order. *)
Definition insert_unmatched (source : list Row) (st : MergeState) : MergeState :=
  match sort_unmatched (elements (ms_unmatched st)) with
  | [] => st
  | idxs =>
      let '(e, (w, n)) := write_segment (ms_world st, ms_next st) (take_source source idxs) in
      {| ms_world := w; ms_next := n; ms_actions := ms_actions st ++ [AddData e];
         ms_unmatched := ms_unmatched st |}
  end.

Definition execute_merge (mode : MergeMode) (source : list Row) (candidates : list ManifestEntry)
    (w : World Row) (n : nat) : MergeState :=
  let '(updates, unmatched) :=
    match_segments w (key <$> source) candidates ∅ (list_to_set (seq 0 (length source))) in
  let st := {| ms_world := w; ms_next := n; ms_actions := []; ms_unmatched := unmatched |} in
  insert_unmatched source
    (foldl (process_segment mode source candidates) st (hash_iter updates)).

(** ** The table operation *)

Definition action_adds (a : MergeCommitAction) : ManifestEntry :=
  match a with ReplaceData _ e | AddDelete _ e | AddData e => e end.
Definition action_removes (a : MergeCommitAction) : list string :=
  match a with ReplaceData p _ | AddDelete p _ => [p] | AddData _ => [] end.

(** [prune] stands for [prune_segments], the Bloom-filter test of the candidates. *)
Definition merge (mode : MergeMode) (prune : ManifestEntry → bool) (entries : list ManifestEntry)
    (source : list Row) (w : World Row) (n : nat) (s : Snapshot) : option (World Row * Snapshot) :=
  let st := execute_merge mode source (filter (fun e => prune e = true) entries) w n in
  let add_entries := action_adds <$> ms_actions st in
  let remove_paths := ms_actions st ≫= action_removes in
  match ms_actions st with
  | [] => Some (ms_world st, s)
  | _ => s' ← commit_snapshot CommitMetadata_default add_entries remove_paths s;
         Some (ms_world st, s')
  end.
End Merge.


Open Scope nat_scope.

(** ** Lists of rows by position *)

Section Positions.
Context {A : Type}.

(** Deleting the positions of the rows that fail a test filters the rows. *)
Lemma visible_filter (P : A → Prop) `{!∀ x, Decision (P x)} (D : gset Z) (l : list A) :
  (∀ j x, l !! j = Some x → Z.of_nat j ∈ D ↔ ¬ P x) → visible D l = filter P l.
Proof.
  unfold visible. induction l as [|x l IH] using rev_ind; intros HD; [done|].
  rewrite length_app, Nat.add_1_r, seq_S, omap_app, filter_app. simpl.
  rewrite lookup_app_r, Nat.sub_diag by lia. simpl. f_equal.
  - rewrite <- IH.
    + apply list_omap_ext, Forall2_same_length_lookup. split; [done|].
      intros i y z Hy Hz. simplify_eq. apply lookup_seq in Hy as [-> Hi].
      by rewrite lookup_app_l.
    + intros j y Hj. apply HD. by rewrite lookup_app_l by (by eapply lookup_lt_Some).
  - assert (Z.of_nat (length l) ∈ D ↔ ¬ P x) as Hx.
    { apply HD. by rewrite lookup_app_r, Nat.sub_diag by lia. }
    rewrite filter_cons, filter_nil. repeat case_decide; tauto.
Qed.

Lemma visible_empty (l : list A) : visible ∅ l = l.
Proof.
  rewrite (visible_filter (fun _ => True)); [|set_solver].
  induction l as [|x l IH]; [done|]. by rewrite filter_cons_True, IH.
Qed.

Lemma bind_app_split {B} (f g : B → list A) (l : list B) :
  l ≫= (fun x => f x ++ g x) ≡ₚ (l ≫= f) ++ (l ≫= g).
Proof. induction l as [|x l IH]; [done|]. csimpl. rewrite IH. solve_Permutation. Qed.

Lemma join_fmap {B} (f : B → list A) (l : list B) : mjoin (f <$> l) = l ≫= f.
Proof. induction l as [|x l IH]; [done|]. csimpl. by rewrite IH. Qed.
End Positions.

(** ** Matching *)

Section Matching.
Context {Row Key : Type} `{Countable Key} (key : Row → Key).

Lemma index_keys_lookup (i : nat) (keys : list Key) (m : gmap Key nat) (k : Key) (j : nat) :
  NoDup keys → (∀ k, k ∈ keys → m !! k = None) →
  index_keys i keys m !! k = Some j ↔ m !! k = Some j ∨ (i ≤ j ∧ keys !! (j - i) = Some k).
Proof.
  intros Hnd. revert i m. induction Hnd as [|x keys Hx Hnd IH]; intros i m Hm; simpl.
  { rewrite lookup_nil. naive_solver. }
  rewrite (Hm x) by left. rewrite IH.
  2: { intros k' Hk'. rewrite lookup_insert_ne; [apply Hm; by right|]. by intros ->. }
  split.
  - intros [[[-> ->]|[Hne ?]]%lookup_insert_Some|[Hle Hl]]; [right|by left|right].
    + split; [lia|]. by rewrite Nat.sub_diag.
    + split; [lia|]. by replace (j - i) with (S (j - S i)) by lia.
  - intros [Hl|[Hle Hl]].
    + left. rewrite lookup_insert_ne; [done|]. intros ->. rewrite (Hm k) in Hl by left. done.
    + destruct (decide (j = i)) as [->|Hne].
      * left. rewrite Nat.sub_diag in Hl. injection Hl as ->. apply lookup_insert_eq.
      * right. split; [lia|]. by replace (j - i) with (S (j - S i)) in Hl by lia.
Qed.

(** With distinct keys the index finds the row of a key. *)
Lemma seg_key_index_lookup (rows : list Row) (k : Key) (j : nat) :
  NoDup (key <$> rows) → seg_key_index key rows !! k = Some j ↔ (key <$> rows) !! j = Some k.
Proof.
  intros Hnd. unfold seg_key_index. rewrite index_keys_lookup; [|done|done].
  rewrite Nat.sub_0_r. split; [intros [?|[_ ?]]; done|]. intros ?. right. split; [lia|done].
Qed.

(** The rows of the source that an index finds. *)
Fixpoint key_matches (index : gmap Key nat) (i : nat) (keys : list Key) : list (nat * nat) :=
  match keys with
  | [] => []
  | k :: keys =>
      match index !! k with
      | Some j => (i, j) :: key_matches index (S i) keys
      | None => key_matches index (S i) keys
      end
  end.

Lemma elem_of_matches index (keys : list Key) (i0 i j : nat) :
  (i, j) ∈ key_matches index i0 keys ↔ i0 ≤ i ∧ ∃ k, keys !! (i - i0) = Some k ∧ index !! k = Some j.
Proof.
  revert i0. induction keys as [|k keys IH]; intros i0; simpl.
  { rewrite lookup_nil. set_solver. }
  transitivity ((i = i0 ∧ index !! k = Some j) ∨ (i, j) ∈ key_matches index (S i0) keys).
  { destruct (index !! k) as [j'|]; [rewrite elem_of_cons|]; naive_solver. }
  rewrite IH. split.
  - intros [[-> Hj]|(Hle & k' & Hk & Hj)]; (split; [lia|]).
    + exists k. by rewrite Nat.sub_diag.
    + exists k'. by replace (i - i0) with (S (i - S i0)) by lia.
  - intros (Hle & k' & Hk & Hj). destruct (decide (i = i0)) as [->|Hne].
    + left. rewrite Nat.sub_diag in Hk. naive_solver.
    + right. split; [lia|]. exists k'. by replace (i - i0) with (S (i - S i0)) in Hk by lia.
Qed.

Lemma matches_NoDup index (keys : list Key) (i0 : nat) : NoDup (key_matches index i0 keys).*1.
Proof.
  revert i0. induction keys as [|k keys IH]; intros i0; simpl; [constructor|].
  destruct (index !! k) as [j|]; [|apply IH]. csimpl. constructor; [|apply IH].
  intros ([i j'] & -> & [Hle _]%elem_of_matches)%list_elem_of_fmap. simpl in *. lia.
Qed.

(** Rows that were not taken before are all found. *)
Lemma match_rows_matches index (keys : list Key) (i0 : nat) (U : gset nat) :
  (∀ i, i ∈ (key_matches index i0 keys).*1 → i ∈ U) →
  match_rows index i0 keys U = (key_matches index i0 keys, U ∖ list_to_set (key_matches index i0 keys).*1).
Proof.
  revert i0 U. induction keys as [|k keys IH]; intros i0 U HU; simpl in *.
  { f_equal. set_solver. }
  destruct (index !! k) as [j|] eqn:Hk.
  - rewrite decide_True by (apply HU; left). rewrite IH.
    + f_equal. rewrite fmap_cons. set_solver.
    + intros i Hi. apply elem_of_difference. split; [apply HU; by right|].
      intros ->%elem_of_singleton. revert Hi. rewrite list_elem_of_fmap.
      intros ([? ?] & -> & [Hle _]%elem_of_matches). simpl in *. lia.
  - destruct (decide _); by apply IH.
Qed.

(** The matches of a segment with the source. *)
Definition seg_matches (w : World Row) (source_keys : list Key) (e : ManifestEntry) : list (nat * nat) :=
  key_matches (seg_key_index key (segment_rows w (seg_id_of (me_file_path e)))) 0 source_keys.

Lemma match_segments_matches (w : World Row) (keys : list Key) (cands : list ManifestEntry)
    (upd : gmap string (list (nat * nat))) (U : gset nat) :
  let sid := fun e => seg_id_of (me_file_path e) in
  NoDup (sid <$> cands) →
  NoDup (cands ≫= fun e => (seg_matches w keys e).*1) →
  (∀ i, i ∈ (cands ≫= fun e => (seg_matches w keys e).*1) → i ∈ U) →
  (∀ e, e ∈ cands → upd !! sid e = None) →
  let '(upd', U') := match_segments key w keys cands upd U in
  map_to_list upd' ≡ₚ ((fun e => (sid e, seg_matches w keys e)) <$>
      filter (fun e => seg_matches w keys e ≠ []) cands) ++ map_to_list upd
  ∧ U' = U ∖ list_to_set (cands ≫= fun e => (seg_matches w keys e).*1).
Proof.
  intros sid. revert upd U. induction cands as [|e cands IH]; intros upd U Hsid Hnd HU Hupd; simpl.
  { split; [done|]. set_solver. }
  change (key_matches (seg_key_index key (segment_rows w (seg_id_of (me_file_path e)))) 0 keys)
    with (seg_matches w keys e).
  rewrite fmap_cons, NoDup_cons in Hsid. destruct Hsid as [Hs Hsid].
  rewrite bind_cons in Hnd, HU. apply NoDup_app in Hnd as (Hnd1 & Hdisj & Hnd2).
  rewrite match_rows_matches.
  2: { intros i Hi. apply HU, elem_of_app. by left. }
  fold (seg_matches w keys e).
  set (l := seg_matches w keys e) in *.
  specialize (IH (add_updates upd (sid e) l) (U ∖ list_to_set l.*1)).
  destruct (match_segments _ _ _ _ _ _) as [upd' U']. destruct IH as [IH1 IH2]; [done|done|..].
  { intros i Hi. apply elem_of_difference. split; [apply HU, elem_of_app; by right|].
    rewrite elem_of_list_to_set. intros Hi'. by apply (Hdisj i). }
  { intros e' He'. assert (sid e' ≠ sid e) as Hne.
    { intros Heq. apply Hs. rewrite <- Heq. by apply list_elem_of_fmap_2. }
    destruct l; simpl; [apply Hupd; by right|]. rewrite lookup_insert_ne by done.
    apply Hupd. by right. }
  split; [|subst U'; set_solver].
  rewrite IH1. destruct (decide (l = [])) as [El|El].
  - rewrite filter_cons_False by (fold l; auto). by rewrite El.
  - rewrite filter_cons_True by done. rewrite fmap_cons. fold l.
    assert (add_updates upd (sid e) l = <[sid e := l]> upd) as ->.
    { unfold add_updates. rewrite Hupd by left. by destruct l. }
    rewrite map_to_list_insert by (apply Hupd; left). solve_Permutation.
Qed.
End Matching.

(** ** Writing *)

Section Writing.
Context {Row : Type} (uuid : nat → string) (written : list Row → WriterOutput)
  (delete_size : pos_map → Z) (root : string).
Notation new_data := (new_data uuid).
Notation new_entry := (new_entry uuid written).
Notation process_segment := (process_segment uuid written delete_size root).
Notation write_position_delete := (write_position_delete uuid delete_size root).

(** Segments written one after the other. *)
Fixpoint put_files (n : nat) (files : list (list Row)) (m : gmap string (list Row))
  : gmap string (list Row) :=
  match files with
  | [] => m
  | rows :: files => put_files (S n) files (<[new_data n := rows]> m)
  end.
Fixpoint new_entries (n : nat) (files : list (list Row)) : list ManifestEntry :=
  match files with [] => [] | rows :: files => new_entry n rows :: new_entries (S n) files end.

Lemma new_entries_paths (n : nat) (files : list (list Row)) :
  me_file_path <$> new_entries n files = new_data <$> seq n (length files).
Proof. revert n. induction files as [|rows files IH]; intros n; [done|]. csimpl. by rewrite IH. Qed.

Lemma new_entries_app (n : nat) (files files' : list (list Row)) :
  new_entries n (files ++ files') = new_entries n files ++ new_entries (n + length files) files'.
Proof.
  revert n. induction files as [|rows files IH]; intros n; simpl; [by rewrite Nat.add_0_r|].
  by rewrite IH, <- Nat.add_succ_comm.
Qed.

Lemma put_files_app (n : nat) (files files' : list (list Row)) m :
  put_files n (files ++ files') m = put_files (n + length files) files' (put_files n files m).
Proof.
  revert n m. induction files as [|rows files IH]; intros n m; simpl; [by rewrite Nat.add_0_r|].
  by rewrite IH, <- Nat.add_succ_comm.
Qed.

Lemma put_files_other (n : nat) (files : list (list Row)) m (p : string) :
  p ∉ new_data <$> seq n (length files) → put_files n files m !! p = m !! p.
Proof.
  revert n m. induction files as [|rows files IH]; intros n m; [done|]. csimpl.
  rewrite not_elem_of_cons. intros [Hne Hp]. rewrite IH by done. by rewrite lookup_insert_ne.
Qed.

(** What was written is read back. *)
Lemma put_files_rows (n : nat) (files : list (list Row)) m :
  NoDup (new_data <$> seq n (length files)) →
  (new_entries n files ≫= fun e => default [] (put_files n files m !! me_file_path e)) = mjoin files.
Proof.
  revert n m. induction files as [|rows files IH]; intros n m; [done|]. csimpl.
  rewrite NoDup_cons. intros [Hn Hnd]. change (new_data n) with (me_file_path (new_entry n rows)).
  rewrite put_files_other by done. rewrite lookup_insert_eq. simpl. f_equal. by apply IH.
Qed.

Lemma new_entries_deletes (n : nat) (files : list (list Row)) :
  new_entries n files ≫= me_delete_files = [].
Proof. revert n. induction files as [|rows files IH]; intros n; [done|]. csimpl. apply IH. Qed.

Lemma new_entries_partitions (n : nat) (files : list (list Row)) e :
  e ∈ new_entries n files → me_partition_values e = ∅.
Proof.
  revert n. induction files as [|rows files IH]; intros n; simpl; [by intros ?%not_elem_of_nil|].
  intros [->|He]%elem_of_cons; [done|]. by eapply IH.
Qed.

Section Fold.
Context (source : list Row) (cands : list ManifestEntry) (w0 : World Row)
  (M : ManifestEntry → list (nat * nat)).
Notation sid e := (seg_id_of (me_file_path e)).
Notation rows e := (default [] (w_data w0 !! me_file_path e)).

(** What a segment is rewritten to. *)
Definition cow_rows (e : ManifestEntry) : list Row :=
  visible (list_to_set (Z.of_nat <$> (M e).*2)) (rows e) ++ take_source source (M e).*1.

Lemma cow_fold (touched : list ManifestEntry) (st : MergeState) :
  (∀ e, e ∈ touched → List.find (fun c => str_contains (sid e) (me_file_path c)) cands = Some e) →
  (∀ e, e ∈ touched → sid e +:+ parquet_suffix = me_file_path e) →
  (∀ e, e ∈ touched → me_file_path e ∉ new_data <$> seq (ms_next st) (length touched)) →
  (∀ e, e ∈ touched → w_data (ms_world st) !! me_file_path e = w_data w0 !! me_file_path e) →
  foldl (process_segment CopyOnWrite source cands) st ((fun e => (sid e, M e)) <$> touched) =
  {| ms_world := {| w_data := put_files (ms_next st) (cow_rows <$> touched) (w_data (ms_world st));
                    w_dels := w_dels (ms_world st) |};
     ms_next := ms_next st + length touched;
     ms_actions := ms_actions st ++
       zip_with ReplaceData (me_file_path <$> touched) (new_entries (ms_next st) (cow_rows <$> touched));
     ms_unmatched := ms_unmatched st |}.
Proof.
  revert st. induction touched as [|e touched IH]; intros st Hfind Hsid Hfresh Hw.
  { destruct st as [[]]. simpl. by rewrite Nat.add_0_r, app_nil_r. }
  rewrite fmap_cons. cbn [foldl]. unfold process_segment at 2. rewrite Hfind by left.
  unfold segment_rows. rewrite Hsid, Hw by left. fold (cow_rows e). cbn -[cow_rows new_data].
  assert (∀ e', e' ∈ touched → me_file_path e' ∉ new_data <$> seq (S (ms_next st)) (length touched)
    ∧ new_data (ms_next st) ≠ me_file_path e') as Hf.
  { intros e' He'. specialize (Hfresh e' (list_elem_of_further _ _ _ He')).
    cbn [length seq] in Hfresh. rewrite fmap_cons, not_elem_of_cons in Hfresh. naive_solver. }
  rewrite IH; cbn -[cow_rows new_data].
  - f_equal; [lia|]. by rewrite <- app_assoc.
  - intros. apply Hfind. by right.
  - intros. apply Hsid. by right.
  - intros. by apply Hf.
  - intros e' He'. rewrite lookup_insert_ne by (by apply Hf). apply Hw. by right.
Qed.

(** The delete files of the segments, written one after the other. *)
Definition mor_delete (n : nat) (e : ManifestEntry) : DeleteFile :=
  (write_position_delete (w0, n) e (M e).*2).1.
Fixpoint mor_deletes (n : nat) (touched : list ManifestEntry) : list DeleteFile :=
  match touched with [] => [] | e :: touched => mor_delete n e :: mor_deletes (S n) touched end.
Fixpoint put_deletes (n : nat) (touched : list ManifestEntry) (m : gmap string pos_map)
  : gmap string pos_map :=
  match touched with
  | [] => m
  | e :: touched =>
      put_deletes (S n) touched
        (<[df_file_path (mor_delete n e) := delete_content root (me_file_path e) (M e).*2]> m)
  end.
Definition mor_entry (e : ManifestEntry) (d : DeleteFile) : ManifestEntry :=
  with_delete_files e (me_delete_files e ++ [d]).

Lemma mor_fold (touched : list ManifestEntry) (st : MergeState) :
  (∀ e, e ∈ touched → List.find (fun c => str_contains (sid e) (me_file_path c)) cands = Some e) →
  (∀ e, e ∈ touched → M e ≠ []) →
  foldl (process_segment MergeOnRead source cands) st ((fun e => (sid e, M e)) <$> touched) =
  {| ms_world := {| w_data := w_data (ms_world st);
                    w_dels := put_deletes (ms_next st) touched (w_dels (ms_world st)) |};
     ms_next := ms_next st + length touched;
     ms_actions := ms_actions st ++
       zip_with AddDelete (me_file_path <$> touched)
         (zip_with mor_entry touched (mor_deletes (ms_next st) touched));
     ms_unmatched := ms_unmatched st ∪ list_to_set (touched ≫= fun e => (M e).*1) |}.
Proof.
  revert st. induction touched as [|e touched IH]; intros st Hfind HM.
  { destruct st as [[]]. simpl. rewrite Nat.add_0_r, app_nil_r. f_equal. set_solver. }
  rewrite fmap_cons. cbn [foldl]. unfold process_segment at 2. rewrite Hfind by left.
  assert (M e ≠ []) as He by (apply HM; left).
  destruct (M e) as [|x l] eqn:El; [done|]. rewrite <- El. clear x l El He. cbn.
  rewrite IH; cbn.
  - f_equal; [lia| |set_solver]. by rewrite <- app_assoc.
  - intros. apply Hfind. by right.
  - intros. apply HM. by right.
Qed.

Lemma mor_deletes_names (n : nat) (touched : list ManifestEntry) :
  (∀ e, e ∈ touched → me_partition_values e = ∅) →
  df_file_path <$> mor_deletes n touched =
  (fun k => metadata_uri root (delete_name uuid k)) <$> seq n (length touched).
Proof.
  revert n. induction touched as [|e touched IH]; intros n Hp; [done|]. csimpl.
  rewrite IH by (intros; apply Hp; by right). f_equal. by rewrite Hp by left.
Qed.

Lemma put_deletes_other (n : nat) (touched : list ManifestEntry) m p :
  p ∉ df_file_path <$> mor_deletes n touched → put_deletes n touched m !! p = m !! p.
Proof.
  revert n m. induction touched as [|e touched IH]; intros n m; [done|]. cbn -[mor_delete].
  rewrite not_elem_of_cons. intros [Hne Hp]. rewrite IH by done. by rewrite lookup_insert_ne.
Qed.

(** The contents of the delete files. *)
Lemma put_deletes_content (n : nat) (touched : list ManifestEntry) m :
  NoDup (df_file_path <$> mor_deletes n touched) →
  (fun d => default ∅ (put_deletes n touched m !! df_file_path d)) <$> mor_deletes n touched =
  (fun e => delete_content root (me_file_path e) (M e).*2) <$> touched.
Proof.
  revert n m. induction touched as [|e touched IH]; intros n m; [done|]. cbn -[mor_delete].
  rewrite NoDup_cons. intros [Hn Hnd]. rewrite put_deletes_other, lookup_insert_eq by done.
  simpl default. f_equal. by apply IH.
Qed.

Lemma mor_deletes_partition (n : nat) (touched : list ManifestEntry) d :
  (∀ e, e ∈ touched → me_partition_values e = ∅) →
  d ∈ mor_deletes n touched → df_partition_values d = ∅.
Proof.
  revert n. induction touched as [|e touched IH]; intros n Hp; cbn -[mor_delete].
  { by intros ?%not_elem_of_nil. }
  intros [->|Hd]%elem_of_cons; [cbn; by rewrite Hp by left|]. eapply IH; [|done]. intros. apply Hp. by right.
Qed.
End Fold.
End Writing.

(** ** Committing *)

Section Committing.
Context {Row : Type}.

Lemma keyed_lookup (m : entry_map) e : keyed m → e ∈ (map_to_list m).*2 → m !! me_file_path e = Some e.
Proof.
  intros Hk ([p e'] & -> & He%elem_of_map_to_list)%list_elem_of_fmap. simpl.
  by rewrite (Hk _ _ He).
Qed.

Lemma keyed_paths (m : entry_map) : keyed m → me_file_path <$> (map_to_list m).*2 = (map_to_list m).*1.
Proof.
  intros Hk. rewrite <- list_fmap_compose. apply list_fmap_ext. intros i [p e] Hi. simpl.
  apply Hk, elem_of_map_to_list. by eapply list_elem_of_lookup_2.
Qed.

(** Removing files that are there leaves the others. *)
Lemma remove_all_rest md (m : entry_map) (touched rest : list ManifestEntry) :
  keyed m → (map_to_list m).*2 ≡ₚ touched ++ rest →
  ∃ m', remove_all md m (me_file_path <$> touched) = Some m'
        ∧ keyed m' ∧ (map_to_list m').*2 ≡ₚ rest.
Proof.
  revert m. induction touched as [|e touched IH]; intros m Hk Hm; [by exists m|].
  assert (m !! me_file_path e = Some e) as He.
  { apply keyed_lookup; [done|]. rewrite Hm. left. }
  csimpl. rewrite He, bool_decide_false by done. cbn [andb]. apply IH.
  - intros k e' [_ Hl]%lookup_delete_Some. by apply Hk.
  - apply (Permutation_cons_inv (a := e)). rewrite <- Hm.
    rewrite <- (map_to_list_delete m _ _ He). done.
Qed.

Lemma ins_values (m : entry_map) (adds : list ManifestEntry) :
  NoDup (me_file_path <$> adds) → (∀ e, e ∈ adds → m !! me_file_path e = None) →
  (map_to_list (foldl ins m adds)).*2 ≡ₚ adds ++ (map_to_list m).*2.
Proof.
  revert m. induction adds as [|e adds IH]; intros m; [done|]. csimpl.
  rewrite NoDup_cons. intros [Hn Hnd] Hm. rewrite IH; [|done|].
  - rewrite map_to_list_insert by (apply Hm; left). csimpl. solve_Permutation.
  - intros e' He'. rewrite lookup_insert_ne; [apply Hm; by right|].
    intros Heq. apply Hn. rewrite Heq. by apply list_elem_of_fmap_2.
Qed.

Lemma collect_new (cur l : list DeleteFile) :
  NoDup (df_file_path <$> cur ++ l) → foldl push_delete cur l = cur ++ l.
Proof.
  revert cur. induction l as [|d l IH]; intros cur Hnd; simpl; [by rewrite app_nil_r|].
  assert (df_file_path d ∉ df_file_path <$> cur) as Hd.
  { rewrite fmap_app, NoDup_app in Hnd. destruct Hnd as (_ & Hnd & _).
    intros Hin. apply (Hnd _ Hin). csimpl. left. }
  unfold push_delete at 2. rewrite decide_False by done. rewrite IH; rewrite <- app_assoc; done.
Qed.

(** A commit that replaces some files by others. *)
Lemma commit_replaces md (s : Snapshot) (touched rest adds : list ManifestEntry) :
  keyed (sn_entries s) → (map_to_list (sn_entries s)).*2 ≡ₚ touched ++ rest →
  NoDup (me_file_path <$> adds) → (∀ e, e ∈ adds → me_file_path e ∉ me_file_path <$> rest) →
  ∃ s', commit_snapshot md adds (me_file_path <$> touched) s = Some s'
        ∧ (map_to_list (sn_entries s')).*2 ≡ₚ adds ++ rest
        ∧ sn_deletes s' = collect_deletes (sn_deletes s) adds.
Proof.
  intros Hk Hs Hnd Hrest. destruct (remove_all_rest md _ _ _ Hk Hs) as (m & Hm & Hmk & Hmr).
  unfold commit_snapshot.
  assert (discards md (sn_entries s) (me_file_path <$> touched) = false) as ->.
  { unfold discards. apply andb_false_iff. right. apply not_true_is_false. intros Hex.
    apply existsb_exists in Hex as (p & Hp%list_elem_of_In & Hn%bool_decide_eq_true).
    apply list_elem_of_fmap in Hp as (e & -> & He). rewrite (keyed_lookup _ e Hk) in Hn; [done|].
    rewrite Hs, elem_of_app. by left. }
  rewrite Hm. eexists. split; [reflexivity|]. cbn [sn_entries sn_deletes].
  split; [|done].
  assert (∀ e, e ∈ adds → m !! me_file_path e = None) as Hnew.
  { intros e He. apply eq_None_not_Some. intros [e' He'].
    apply (Hrest e He). rewrite <- Hmr, keyed_paths by done. apply list_elem_of_fmap.
    exists (me_file_path e, e'). by rewrite elem_of_map_to_list. }
  rewrite add_all_new; [|done|].
  - rewrite ins_values by done. by rewrite Hmr.
  - apply forallb_elem_of. intros e He. by apply bool_decide_eq_true, Hnew.
Qed.

(** The rows of a table by the rows of its files. *)
Definition rows_under (w : World Row) (dels : list DeleteFile) (e : ManifestEntry) : list Row :=
  visible_rows w (attach_deletes dels (with_delete_files e [])).

Lemma table_rows_values (w : World Row) (s : Snapshot) :
  table_rows w s = (map_to_list (sn_entries s)).*2 ≫= rows_under w (sn_deletes s).
Proof.
  unfold table_rows, loaded. induction (map_to_list (sn_entries s)) as [|[p e] l IH]; [done|].
  csimpl. by rewrite IH.
Qed.

Lemma rows_under_nil (w : World Row) e : rows_under w [] e = default [] (w_data w !! me_file_path e).
Proof. unfold rows_under, visible_rows. apply visible_empty. Qed.

Lemma elem_of_deleted (w : World Row) (dels : list DeleteFile) e z :
  (∀ d, d ∈ dels → df_partition_values d = me_partition_values e) →
  z ∈ deleted_rows w (attach_deletes dels (with_delete_files e [])) ↔
  ∃ d, d ∈ dels ∧
    z ∈ filter_map_to_bitmap (default ∅ (w_dels w !! df_file_path d)) (strip_file (me_file_path e)).
Proof.
  intros Hp. unfold deleted_rows. rewrite elem_of_union_list. split.
  - intros (X & (d & -> & Hd)%list_elem_of_fmap & Hz). exists d. split; [|done].
    cbn in Hd. by apply list_elem_of_filter in Hd as [_ Hd].
  - intros (d & Hd & Hz). eexists. split; [|exact Hz]. apply list_elem_of_fmap. exists d.
    split; [done|]. cbn. apply list_elem_of_filter. split; [|done]. cbn. by rewrite Hp.
Qed.

Lemma delete_content_lookup (root p : string) (positions : list nat) :
  positions ≠ [] →
  delete_content root p positions = {[qualify root p := list_to_set (Z.of_nat <$> positions)]}.
Proof.
  intros Hne. unfold delete_content.
  assert (∀ X : gset Z, foldl (fun m pos => add_position m (qualify root p) (Z.of_nat pos))
    {[qualify root p := X]} positions =
    {[qualify root p := X ∪ list_to_set (Z.of_nat <$> positions)]}) as Hx.
  { clear Hne. induction positions as [|i positions IH]; intros X; simpl; [f_equal; set_solver|].
    unfold add_position at 2. rewrite lookup_singleton_eq, insert_singleton_eq. simpl. rewrite IH.
    f_equal. set_solver. }
  destruct positions as [|i positions]; [done|]. simpl foldl at 1.
  unfold add_position at 2. rewrite lookup_empty. simpl.
  specialize (Hx {[Z.of_nat i]}). simpl in Hx. unfold add_position at 2 in Hx.
  rewrite lookup_singleton_eq, insert_singleton_eq in Hx. simpl in Hx.
  replace ({[Z.of_nat i]} ∪ ∅ : gset Z) with ({[Z.of_nat i]} ∪ {[Z.of_nat i]} : gset Z) by set_solver.
  rewrite insert_empty, Hx. f_equal. set_solver.
Qed.

Lemma elem_of_bitmap_singleton (fp target : string) (X : gset Z) z :
  z ∈ filter_map_to_bitmap {[fp := X]} target ↔ path_matches fp target = true ∧ z ∈ X ∧ fits_u32 z = true.
Proof.
  unfold filter_map_to_bitmap. rewrite map_to_list_singleton. simpl. rewrite app_nil_r, elem_of_list_to_set.
  destruct (path_matches fp target).
  - rewrite list_elem_of_filter, elem_of_elements. tauto.
  - rewrite elem_of_nil. naive_solver.
Qed.
End Committing.

(** ** The result of a merge *)

Section Upsert.
Context {Row Key : Type} `{Countable Key} (key : Row → Key).
Context (uuid : nat → string) (written : list Row → WriterOutput) (delete_size : pos_map → Z).
Context (hash_iter : gmap string (list (nat * nat)) → list (string * list (nat * nat))).
Context (root : string).
Notation new_data := (new_data uuid).
Notation new_entries := (new_entries uuid written).
Notation put_files := (put_files uuid).

Definition rows_of (w : World Row) (e : ManifestEntry) : list Row :=
  default [] (w_data w !! me_file_path e).

(** A table and a source for which a merge is an upsert: no deletes are pending, the files are
    at the root of the table and have distinct names, keys are unique in the table and in
    the source, the new names are new, and the test of the candidates loses no match. *)
Record merge_ready (prune : ManifestEntry → bool) (entries : list ManifestEntry)
    (source : list Row) (w : World Row) (n : nat) (s : Snapshot) : Prop := {
  mr_entries : entries ≡ₚ loaded s;
  mr_deletes : sn_deletes s = [];
  mr_keyed : keyed (sn_entries s);
  mr_root : ∀ e, e ∈ entries →
    me_partition_values e = ∅ ∧ seg_id_of (me_file_path e) +:+ parquet_suffix = me_file_path e;
  mr_ids : ∀ e e', e ∈ entries → e' ∈ entries →
    str_contains (seg_id_of (me_file_path e)) (me_file_path e') = true →
    me_file_path e = me_file_path e';
  mr_small : ∀ e, e ∈ entries → (Z.of_nat (length (rows_of w e)) < 2 ^ 32)%Z;
  mr_new : NoDup (new_data <$> seq n (S (length entries)));
  mr_fresh : ∀ e, e ∈ entries → me_file_path e ∉ new_data <$> seq n (S (length entries));
  mr_new_deletes :
    NoDup ((fun k => metadata_uri root (delete_name uuid k)) <$> seq n (length entries));
  mr_paths : ∀ e q, e ∈ entries →
    q ∈ (me_file_path <$> entries) ++ (new_data <$> seq n (S (length entries))) →
    path_matches (qualify root (me_file_path e)) (strip_file q) = true ↔ me_file_path e = q;
  mr_keys : NoDup (key <$> table_rows w s);
  mr_source : NoDup (key <$> source);
  mr_prune : ∀ e r r', e ∈ entries → prune e = false → r ∈ source → r' ∈ rows_of w e →
    key r ≠ key r'
}.

(** *** Source rows by index *)

Lemma take_source_all (source : list Row) (idxs : list nat) :
  idxs ≡ₚ seq 0 (length source) → take_source source idxs ≡ₚ source.
Proof. intros Hi. unfold take_source. rewrite Hi. by rewrite omap_lookup_all. Qed.

Lemma take_source_app (source : list Row) (l1 l2 : list nat) :
  take_source source (l1 ++ l2) = take_source source l1 ++ take_source source l2.
Proof. apply omap_app. Qed.

Lemma take_source_bind {B} (source : list Row) (f : B → list nat) (l : list B) :
  take_source source (l ≫= f) = l ≫= fun x => take_source source (f x).
Proof. induction l as [|x l IH]; [done|]. csimpl. by rewrite take_source_app, IH. Qed.

(** The rows that are inserted, as a list of at most one file. *)
Definition inserted (source : list Row) (unmatched : gset nat) : list (list Row) :=
  match sort_unmatched (elements unmatched) with
  | [] => []
  | idxs => [take_source source idxs]
  end.

Lemma inserted_rows (source : list Row) (unmatched : gset nat) :
  mjoin (inserted source unmatched) = take_source source (sort_unmatched (elements unmatched)).
Proof.
  unfold inserted. destruct (sort_unmatched _); [done|]. csimpl. by rewrite app_nil_r.
Qed.

Lemma inserted_length (source : list Row) (unmatched : gset nat) :
  length (inserted source unmatched) ≤ 1.
Proof. unfold inserted. destruct (sort_unmatched _); simpl; lia. Qed.

Lemma insert_unmatched_files (source : list Row) (st : MergeState) :
  let files := inserted source (ms_unmatched st) in
  let st' := insert_unmatched uuid written source st in
  ms_world st' = {| w_data := put_files (ms_next st) files (w_data (ms_world st));
                    w_dels := w_dels (ms_world st) |}
  ∧ ms_actions st' = ms_actions st ++ (AddData <$> new_entries (ms_next st) files).
Proof.
  unfold inserted, insert_unmatched. destruct (sort_unmatched _) as [|i idxs].
  - cbn. rewrite app_nil_r. by destruct (ms_world st).
  - by cbn.
Qed.

(** *** The facts of a ready merge *)

Context (prune : ManifestEntry → bool) (entries : list ManifestEntry) (source : list Row)
  (w : World Row) (n : nat) (s : Snapshot).
Context (Hready : merge_ready prune entries source w n s).
Notation sid e := (seg_id_of (me_file_path e)).
Notation rows := (rows_of w).
Notation M := (seg_matches key w (key <$> source)).

(** A row of the table that the merge leaves alone. *)
Definition kept (r : Row) : Prop := key r ∉ key <$> source.
#[local] Instance kept_dec r : Decision (kept r).
Proof. unfold kept. apply _. Defined.

Lemma table_rows_ready : table_rows w s ≡ₚ entries ≫= rows.
Proof.
  rewrite (mr_entries _ _ _ _ _ _ Hready). unfold table_rows, loaded.
  rewrite (mr_deletes _ _ _ _ _ _ Hready).
  apply Permutation_refl'. induction (map_to_list (sn_entries s)) as [|[p e] l IH]; [done|].
  csimpl. rewrite IH. f_equal. apply (rows_under_nil w e).
Qed.

Lemma ready_keys : NoDup (key <$> (entries ≫= rows)).
Proof. rewrite <- table_rows_ready. apply (mr_keys _ _ _ _ _ _ Hready). Qed.

Lemma ready_segment e : e ∈ entries → segment_rows w (sid e) = rows e.
Proof.
  intros He. unfold segment_rows. by rewrite (proj2 (mr_root _ _ _ _ _ _ Hready e He)).
Qed.

Lemma ready_segment_keys e : e ∈ entries → NoDup (key <$> rows e).
Proof.
  intros (l1 & l2 & Hl)%list_elem_of_split. pose proof ready_keys as Hk. rewrite Hl in Hk.
  rewrite bind_app, bind_cons, !fmap_app, !NoDup_app in Hk. tauto.
Qed.

Lemma elem_of_M e i j :
  e ∈ entries →
  (i, j) ∈ M e ↔ ∃ r r', source !! i = Some r ∧ rows e !! j = Some r' ∧ key r = key r'.
Proof.
  intros He. unfold seg_matches. rewrite elem_of_matches, Nat.sub_0_r, ready_segment by done.
  setoid_rewrite (seg_key_index_lookup key (rows e)); [|by apply ready_segment_keys].
  setoid_rewrite list_lookup_fmap_Some. split.
  - intros (_ & k & (r & -> & Hr) & (r' & Hk & Hr')). by exists r, r'.
  - intros (r & r' & Hr & Hr' & Hk). split; [lia|]. exists (key r). split; [by exists r|by exists r'].
Qed.

Lemma elem_of_M_1 e i :
  e ∈ entries → i ∈ (M e).*1 ↔ ∃ r, source !! i = Some r ∧ key r ∈ key <$> rows e.
Proof.
  intros He. rewrite list_elem_of_fmap. split.
  - intros ([i' j] & -> & (r & r' & Hr & Hr' & Hk)%elem_of_M); [|done]. exists r. split; [done|].
    rewrite Hk. apply list_elem_of_fmap_2. by eapply list_elem_of_lookup_2.
  - intros (r & Hr & (r' & Hk & [j Hj]%list_elem_of_lookup)%list_elem_of_fmap).
    exists (i, j). split; [done|]. apply elem_of_M; [done|]. by exists r, r'.
Qed.

Lemma elem_of_M_2 e j r' :
  e ∈ entries → rows e !! j = Some r' →
  Z.of_nat j ∈ (list_to_set (Z.of_nat <$> (M e).*2) : gset Z) ↔ ¬ kept r'.
Proof.
  intros He Hr'. rewrite elem_of_list_to_set, list_elem_of_fmap. setoid_rewrite list_elem_of_fmap.
  unfold kept. split.
  - intros (j' & Hj & [i' j''] & -> & (r & r2 & Hr & Hr2 & Hk)%elem_of_M); [|done].
    simpl in Hj. apply Nat2Z.inj in Hj as ->. simplify_eq. intros Hn. apply Hn. rewrite <- Hk.
    apply list_elem_of_fmap_2. by eapply list_elem_of_lookup_2.
  - intros Hin. destruct (decide (key r' ∈ key <$> source)) as [(r & Hk & [i Hi]%list_elem_of_lookup)%list_elem_of_fmap|]; [|done].
    exists j. split; [done|]. exists (i, j). split; [done|]. apply elem_of_M; [done|].
    by exists r, r'.
Qed.

(** What is left of a segment. *)
Lemma visible_M e :
  e ∈ entries → visible (list_to_set (Z.of_nat <$> (M e).*2)) (rows e) = filter kept (rows e).
Proof. intros He. apply visible_filter. intros j r' Hr'. by apply elem_of_M_2. Qed.

Lemma untouched_rows e : e ∈ entries → M e = [] → filter kept (rows e) = rows e.
Proof. intros He HM. rewrite <- visible_M, HM by done. apply visible_empty. Qed.

(** A segment that the test discards has no matches. *)
Lemma pruned_M e : e ∈ entries → prune e = false → M e = [].
Proof.
  intros He Hp. destruct (M e) as [|[i j] l] eqn:El; [done|]. exfalso.
  assert ((i, j) ∈ M e) as Hin by (rewrite El; left).
  apply elem_of_M in Hin as (r & r' & Hr & Hr' & Hk); [|done].
  apply (mr_prune _ _ _ _ _ _ Hready e r r'); [done|done|by eapply list_elem_of_lookup_2..|done].
Qed.

Lemma ready_paths : NoDup (me_file_path <$> entries).
Proof.
  rewrite (mr_entries _ _ _ _ _ _ Hready). unfold loaded. rewrite <- list_fmap_compose.
  assert ((me_file_path ∘ (attach_deletes (sn_deletes s) ∘ (fun e => with_delete_files e []) ∘ snd))
    <$> map_to_list (sn_entries s) = (map_to_list (sn_entries s)).*1) as ->.
  - rewrite <- keyed_paths by apply (mr_keyed _ _ _ _ _ _ Hready).
    by rewrite <- list_fmap_compose.
  - apply NoDup_fst_map_to_list.
Qed.

Lemma ready_same_path e e' :
  e ∈ entries → e' ∈ entries → me_file_path e = me_file_path e' → e = e'.
Proof.
  intros [i Hi]%list_elem_of_lookup [j Hj]%list_elem_of_lookup Hp.
  assert (i = j) as ->; [|congruence].
  apply (NoDup_lookup _ _ _ (me_file_path e) ready_paths); rewrite list_lookup_fmap.
  - by rewrite Hi.
  - by rewrite Hj, Hp.
Qed.

Lemma str_contains_prefix (p q : string) : str_contains p (p +:+ q) = true.
Proof.
  destruct (p +:+ q) as [|a t] eqn:E; simpl; rewrite <- E; apply orb_true_iff; left; clear;
    unfold starts_with; rewrite strip_prefix_app; done.
Qed.

Lemma ready_find cands e :
  (∀ c, c ∈ cands → c ∈ entries) → e ∈ cands →
  List.find (fun c => str_contains (sid e) (me_file_path c)) cands = Some e.
Proof.
  intros Hc He. destruct (List.find _ cands) as [e'|] eqn:Hf.
  - apply List.find_some in Hf as [He' Hs]. apply list_elem_of_In, Hc in He'.
    f_equal. symmetry. apply ready_same_path; [by apply Hc|done|].
    apply (mr_ids _ _ _ _ _ _ Hready); [by apply Hc|done..].
  - exfalso. apply (List.find_none _ _) with (x := e) in Hf; [|by apply list_elem_of_In].
    rewrite <- (proj2 (mr_root _ _ _ _ _ _ Hready e (Hc _ He))) in Hf at 2.
    by rewrite str_contains_prefix in Hf.
Qed.

Lemma ready_M_NoDup (l : list ManifestEntry) :
  (∀ e, e ∈ l → e ∈ entries) → NoDup (key <$> (l ≫= rows)) → NoDup (l ≫= fun e => (M e).*1).
Proof.
  induction l as [|e l IH]; intros Hl Hnd; [constructor|].
  rewrite bind_cons, fmap_app, NoDup_app in Hnd. destruct Hnd as (_ & Hd & Hnd).
  rewrite bind_cons. apply NoDup_app. split_and!.
  - apply matches_NoDup.
  - intros i Hi (e' & Hi' & He')%list_elem_of_bind.
    apply elem_of_M_1 in Hi as (r & Hr & Hk); [|apply Hl; by left].
    apply elem_of_M_1 in Hi' as (r' & Hr' & Hk'); [|apply Hl; by right]. simplify_eq.
    apply (Hd _ Hk). apply list_elem_of_fmap in Hk' as (x & -> & Hx).
    apply list_elem_of_fmap_2, list_elem_of_bind. by exists e'.
  - apply IH; [|done]. intros. apply Hl. by right.
Qed.

Context (Hiter : ∀ m, hash_iter m ≡ₚ map_to_list m).

(** The entries with matches and the others. *)
Record split_entries (touched rest : list ManifestEntry) (upd : gmap string (list (nat * nat)))
    (unmatched : gset nat) : Prop := {
  se_entries : entries ≡ₚ touched ++ rest;
  se_iter : hash_iter upd = (fun e => (sid e, M e)) <$> touched;
  se_find : ∀ e, e ∈ touched →
    List.find (fun c => str_contains (sid e) (me_file_path c))
      (filter (fun e => prune e = true) entries) = Some e;
  se_touched : ∀ e, e ∈ touched → M e ≠ [];
  se_rest : ∀ e, e ∈ rest → M e = [];
  se_indices : (touched ≫= fun e => (M e).*1) ++ elements unmatched ≡ₚ seq 0 (length source)
}.

(** The matched and the unmatched rows are all rows of the source. *)
Lemma split_indices (cands touched : list ManifestEntry) (U : gset nat) :
  NoDup (cands ≫= fun e => (M e).*1) →
  (∀ i, i ∈ (cands ≫= fun e => (M e).*1) → i < length source) →
  touched ++ filter (fun e => ¬ M e ≠ []) cands ≡ₚ cands →
  U = list_to_set (seq 0 (length source)) ∖ list_to_set (cands ≫= fun e => (M e).*1) →
  (touched ≫= fun e => (M e).*1) ++ elements U ≡ₚ seq 0 (length source).
Proof.
  intros HM Hlt Hcands HU.
  assert (cands ≫= (fun e => (M e).*1) ≡ₚ touched ≫= (fun e => (M e).*1)) as <-.
  { rewrite <- Hcands at 1. rewrite bind_app.
    assert (filter (fun e => ¬ M e ≠ []) cands ≫= (fun e => (M e).*1) = []) as ->; [|by rewrite app_nil_r].
    apply elem_of_nil_inv. intros i (e & Hi & [He _]%list_elem_of_filter)%list_elem_of_bind.
    apply dec_stable in He. rewrite He in Hi. by apply not_elem_of_nil in Hi. }
  apply NoDup_Permutation; [apply NoDup_app|apply NoDup_seq|].
  - split_and!; [done| |apply NoDup_elements].
    intros i Hi Hi'%elem_of_elements. rewrite HU in Hi'. set_solver.
  - intros i. rewrite elem_of_app, elem_of_elements, HU, elem_of_difference, !elem_of_list_to_set,
      elem_of_seq. specialize (Hlt i). split; [naive_solver lia|].
    intros. destruct (decide (i ∈ cands ≫= fun e => (M e).*1)); [by left|right; auto].
Qed.

Lemma ready_split :
  let '(upd, unmatched) := match_segments key w (key <$> source)
    (filter (fun e => prune e = true) entries) ∅ (list_to_set (seq 0 (length source))) in
  ∃ touched rest, split_entries touched rest upd unmatched.
Proof.
  set (cands := filter (fun e => prune e = true) entries).
  assert (cands ++ filter (fun e => ¬ prune e = true) entries ≡ₚ entries) as Hsplit
    by apply filter_app_complement.
  assert (∀ c, c ∈ cands → c ∈ entries) as Hc by (intros c [_ ?]%list_elem_of_filter; done).
  assert (NoDup (cands ≫= fun e => (M e).*1)) as HM.
  { apply ready_M_NoDup; [done|]. pose proof ready_keys as Hk. rewrite <- Hsplit in Hk.
    rewrite bind_app, fmap_app, NoDup_app in Hk. tauto. }
  assert (∀ i, i ∈ (cands ≫= fun e => (M e).*1) → i < length source) as Hlt.
  { intros i (e & Hi & He)%list_elem_of_bind.
    apply elem_of_M_1 in Hi as (r & Hr%lookup_lt_Some & _); auto. }
  pose proof (match_segments_matches key w (key <$> source) cands ∅
    (list_to_set (seq 0 (length source)))) as Hms. simpl in Hms.
  destruct (match_segments _ _ _ _ _ _) as [upd U]. destruct Hms as [Hupd HU].
  { apply NoDup_fmap_2_strong.
    - intros e e' He He' Heq. apply ready_same_path; [auto..|].
      rewrite <- (proj2 (mr_root _ _ _ _ _ _ Hready e (Hc _ He))).
      rewrite <- (proj2 (mr_root _ _ _ _ _ _ Hready e' (Hc _ He'))). by rewrite Heq.
    - apply (NoDup_filter _ entries). eapply NoDup_fmap_1, ready_paths. }
  { done. }
  { intros i Hi%Hlt. apply elem_of_list_to_set, elem_of_seq. lia. }
  { done. }
  rewrite map_to_list_empty, app_nil_r, <- Hiter in Hupd.
  apply Permutation_map_inv in Hupd as (touched & Hit & Ht).
  assert (touched ++ filter (fun e => ¬ M e ≠ []) cands ≡ₚ cands) as Hcands
    by (rewrite <- Ht; apply filter_app_complement).
  exists touched, (filter (fun e => ¬ M e ≠ []) cands ++ filter (fun e => ¬ prune e = true) entries).
  assert (∀ e, e ∈ touched → e ∈ cands) as Htc.
  { intros e He. rewrite <- Ht in He. by apply list_elem_of_filter in He as [_ ?]. }
  split.
  - by rewrite app_assoc, Hcands.
  - done.
  - intros e He. apply ready_find; auto.
  - intros e He. rewrite <- Ht in He. by apply list_elem_of_filter in He as [? _].
  - intros e [[He _]%list_elem_of_filter|[He Hin]%list_elem_of_filter]%elem_of_app.
    + by apply dec_stable in He.
    + apply pruned_M; [done|]. by apply not_true_is_false.
  - apply split_indices with (cands := cands); auto.
Qed.

(** The same split of the entries of the table. *)
Lemma raw_split touched rest :
  entries ≡ₚ touched ++ rest →
  ∃ touched0 rest0, (map_to_list (sn_entries s)).*2 ≡ₚ touched0 ++ rest0
    ∧ touched = (fun e => with_delete_files e []) <$> touched0
    ∧ rest = (fun e => with_delete_files e []) <$> rest0.
Proof.
  intros Hs. rewrite (mr_entries _ _ _ _ _ _ Hready) in Hs. unfold loaded in Hs.
  rewrite (mr_deletes _ _ _ _ _ _ Hready) in Hs. symmetry in Hs.
  assert (attach_deletes [] ∘ (fun e => with_delete_files e []) ∘ snd <$> map_to_list (sn_entries s) =
    (fun e => with_delete_files e []) <$> (map_to_list (sn_entries s)).*2) as Heq
    by (by rewrite <- list_fmap_compose).
  rewrite Heq in Hs. apply Permutation_map_inv in Hs as (l & Hl & Hp).
  symmetry in Hl. apply fmap_app_inv in Hl as (t0 & r0 & -> & -> & ->). by exists t0, r0.
Qed.

(** A commit that replaces the touched entries, by the rows it leaves. *)
Lemma ready_commit touched rest adds (w' : World Row) :
  entries ≡ₚ touched ++ rest → NoDup (me_file_path <$> adds) →
  (∀ e, e ∈ adds → me_file_path e ∉ me_file_path <$> rest) →
  NoDup (df_file_path <$> (adds ≫= me_delete_files)) →
  ∃ s', commit_snapshot CommitMetadata_default adds (me_file_path <$> touched) s = Some s'
    ∧ table_rows w' s' ≡ₚ (adds ++ rest) ≫= rows_under w' (adds ≫= me_delete_files).
Proof.
  intros Hs Hnd Hrest Hdel. destruct (raw_split _ _ Hs) as (t0 & r0 & Hraw & -> & ->).
  rewrite <- list_fmap_compose in Hrest.
  destruct (commit_replaces CommitMetadata_default s t0 r0 adds) as (s' & Hc & Hv & Hd); [|done|done|done|].
  { apply (mr_keyed _ _ _ _ _ _ Hready). }
  exists s'. split; [by rewrite <- list_fmap_compose|].
  rewrite table_rows_values, Hv, !bind_app, Hd, (mr_deletes _ _ _ _ _ _ Hready).
  unfold collect_deletes. rewrite collect_new by done. apply Permutation_app; [done|].
  apply Permutation_refl'. clear. induction r0 as [|e r0 IH]; [done|]. csimpl. by rewrite <- IH.
Qed.

(** The rows of the table that are kept. *)
Lemma kept_rows touched rest :
  entries ≡ₚ touched ++ rest → (∀ e, e ∈ rest → M e = []) →
  filter kept (table_rows w s) ≡ₚ (touched ≫= fun e => filter kept (rows e)) ++ (rest ≫= rows).
Proof.
  intros Hs Hr. rewrite table_rows_ready, Hs, bind_app, filter_app.
  assert (∀ l : list ManifestEntry, filter kept (l ≫= rows) = l ≫= (fun e => filter kept (rows e))) as Hb.
  { intros l. induction l as [|e l IH]; [done|]. csimpl. by rewrite filter_app, IH. }
  rewrite !Hb. apply Permutation_app; [done|]. apply Permutation_refl', Forall_bind_ext, Forall_forall.
  intros e He. apply untouched_rows; [|by apply Hr]. rewrite Hs, elem_of_app. by right.
Qed.

Notation merge mode := (merge key uuid written delete_size hash_iter root mode prune entries source w n s).

(** A merge commits also when there is nothing to do. *)
Lemma merge_commits mode :
  let st := execute_merge key uuid written delete_size hash_iter root mode source
              (filter (fun e => prune e = true) entries) w n in
  merge mode = s' ← commit_snapshot CommitMetadata_default (action_adds <$> ms_actions st)
                      (ms_actions st ≫= action_removes) s; Some (ms_world st, s').
Proof.
  intros st. unfold merge. fold st. destruct (ms_actions st) as [|a l]; [|done].
  by destruct s.
Qed.

Lemma split_lengths touched rest upd U :
  split_entries touched rest upd U →
  length touched + length (inserted source U) ≤ S (length entries).
Proof.
  intros Hse. rewrite (se_entries _ _ _ _ Hse), length_app. pose proof (inserted_length source U). lia.
Qed.

Lemma seq_fmap_prefix {A} (f : nat → A) (m k : nat) x :
  m ≤ k → x ∈ f <$> seq n m → x ∈ f <$> seq n k.
Proof.
  intros Hle (i & -> & Hi%elem_of_seq)%list_elem_of_fmap. apply list_elem_of_fmap_2, elem_of_seq. lia.
Qed.

Lemma seq_fmap_NoDup {A} (f : nat → A) (a m k : nat) :
  n ≤ a → a + m ≤ n + k → NoDup (f <$> seq n k) → NoDup (f <$> seq a m).
Proof.
  intros Ha Hle. replace k with ((a - n) + (m + (n + k - a - m))) by lia.
  rewrite !seq_app, !fmap_app, !NoDup_app. replace (n + (a - n)) with a by lia. tauto.
Qed.

Lemma replacing_actions (f : string → ManifestEntry → MergeCommitAction)
    (ps : list string) (es es' : list ManifestEntry) :
  f = ReplaceData ∨ f = AddDelete → length ps = length es →
  action_adds <$> (zip_with f ps es ++ (AddData <$> es')) = es ++ es'
  ∧ (zip_with f ps es ++ (AddData <$> es')) ≫= action_removes = ps.
Proof.
  intros Hf. revert es. induction ps as [|p ps IH]; intros [|e es] Hlen; simplify_eq/=.
  - clear. induction es' as [|e es' [IH1 IH2]]; [done|]. csimpl. split; [by f_equal|done].
  - destruct (IH es Hlen) as [IH1 IH2].
    destruct Hf as [-> | ->]; csimpl; rewrite IH1, IH2; done.
Qed.

Lemma new_entries_length (k : nat) (files : list (list Row)) : length (new_entries k files) = length files.
Proof. rewrite <- (length_fmap me_file_path), new_entries_paths. by rewrite length_fmap, length_seq. Qed.

(** *** Copy on write *)

Lemma cow_rows_all touched rest upd U :
  split_entries touched rest upd U → (∀ e, e ∈ touched → e ∈ entries) →
  (touched ≫= cow_rows source w M) ++ mjoin (inserted source U) ≡ₚ
  (touched ≫= fun e => filter kept (rows e)) ++ source.
Proof.
  intros Hse Hte. rewrite inserted_rows.
  rewrite (Forall_bind_ext _ (fun e => filter kept (rows e) ++ take_source source (M e).*1)).
  2: { apply Forall_forall. intros e He. unfold cow_rows. f_equal. by apply visible_M, Hte. }
  rewrite bind_app_split, <- app_assoc. apply Permutation_app; [done|].
  rewrite <- take_source_bind, <- take_source_app. apply take_source_all.
  unfold sort_unmatched. rewrite merge_sort_Permutation. apply (se_indices _ _ _ _ Hse).
Qed.

Lemma cow_upserts :
  ∃ w' s', merge CopyOnWrite = Some (w', s')
    ∧ table_rows w' s' ≡ₚ filter kept (table_rows w s) ++ source.
Proof.
  rewrite merge_commits. unfold execute_merge. pose proof ready_split as Hsplit.
  destruct (match_segments _ _ _ _ _ _) as [upd U]. destruct Hsplit as (touched & rest & Hse).
  rewrite (se_iter _ _ _ _ Hse).
  pose proof (split_lengths _ _ _ _ Hse) as Hlen.
  assert (∀ e, e ∈ touched → e ∈ entries) as Hte.
  { intros e He. rewrite (se_entries _ _ _ _ Hse), elem_of_app. by left. }
  assert (∀ e, e ∈ rest → e ∈ entries) as Hre.
  { intros e He. rewrite (se_entries _ _ _ _ Hse), elem_of_app. by right. }
  rewrite (cow_fold uuid written delete_size root source _ w M); cbn [ms_next ms_world];
    [|by apply (se_find _ _ _ _ Hse)|intros; by apply (mr_root _ _ _ _ _ _ Hready), Hte| |done].
  2: { intros e He Hin. eapply (mr_fresh _ _ _ _ _ _ Hready); [by apply Hte|].
       eapply seq_fmap_prefix; [|done]. lia. }
  set (st := {| ms_world := _ |}).
  destruct (insert_unmatched_files source st) as [Hw Ha]. cbn in Hw, Ha.
  set (st' := insert_unmatched _ _ _ _) in *.
  rewrite Ha, Hw. clear st st' Ha Hw.
  set (files := (cow_rows source w M <$> touched) ++ inserted source U).
  assert (length files = length touched + length (inserted source U)) as Hfl
    by (unfold files; by rewrite length_app, length_fmap).
  edestruct replacing_actions as [-> ->]; [by left|by rewrite new_entries_length, !length_fmap|].
  rewrite <- (length_fmap (cow_rows source w M) touched), <- new_entries_app, <- put_files_app. fold files.
  assert (NoDup (new_data <$> seq n (length files))) as Hnew
    by (eapply seq_fmap_NoDup, (mr_new _ _ _ _ _ _ Hready); lia).
  assert (∀ e, e ∈ entries → me_file_path e ∉ new_data <$> seq n (length files)) as Hfresh.
  { intros e He Hin. eapply (mr_fresh _ _ _ _ _ _ Hready); [done|]. eapply seq_fmap_prefix; [|done]. lia. }
  edestruct (ready_commit touched rest (new_entries n files)) as (s' & -> & Ht);
    [apply (se_entries _ _ _ _ Hse)|by rewrite new_entries_paths| | |].
  { intros e He (e' & Heq & He')%list_elem_of_fmap. apply (Hfresh e'); [by apply Hre|].
    rewrite <- Heq, <- new_entries_paths with (written := written). by apply list_elem_of_fmap_2. }
  { rewrite new_entries_deletes. constructor. }
  cbn [mbind option_bind]. eexists _, s'. split; [reflexivity|]. rewrite Ht, new_entries_deletes.
  rewrite bind_app, (list_bind_ext _ _ _ _ (rows_under_nil _) eq_refl). cbn [w_data].
  rewrite put_files_rows by done. unfold files at 1. rewrite join_app.
  rewrite join_fmap, (cow_rows_all _ _ _ _ Hse Hte).
  rewrite (kept_rows _ _ (se_entries _ _ _ _ Hse) (se_rest _ _ _ _ Hse)).
  rewrite (Forall_bind_ext _ rows rest); [solve_Permutation|]. apply Forall_forall. intros e He.
  rewrite rows_under_nil. unfold rows_of. cbn [w_data]. by rewrite put_files_other by (by apply Hfresh, Hre).
Qed.

(** *** Merge on read *)

Notation mor_deletes := (mor_deletes uuid delete_size root w M).
Notation put_deletes := (put_deletes uuid delete_size root w M).

(** A reader sees of each segment the rows that no source row replaces. *)
Lemma mor_deleted touched rest upd U (w' : World Row) e z :
  split_entries touched rest upd U → (∀ e, e ∈ touched → e ∈ entries) →
  w_dels w' = put_deletes n touched (w_dels w) → me_partition_values e = ∅ →
  me_file_path e ∈ (me_file_path <$> entries) ++ (new_data <$> seq n (S (length entries))) →
  z ∈ deleted_rows w' (attach_deletes (mor_deletes n touched) (with_delete_files e [])) ↔
  ∃ e', e' ∈ touched ∧ me_file_path e' = me_file_path e
        ∧ z ∈ (list_to_set (Z.of_nat <$> (M e').*2) : gset Z) ∧ fits_u32 z = true.
Proof.
  intros Hse Hte Hw' Hpart Hpath.
  assert (∀ e, e ∈ touched → me_partition_values e = ∅) as Htp
    by (intros; by apply (mr_root _ _ _ _ _ _ Hready), Hte).
  assert (NoDup (df_file_path <$> mor_deletes n touched)) as Hnd.
  { rewrite mor_deletes_names by done. eapply seq_fmap_NoDup, (mr_new_deletes _ _ _ _ _ _ Hready); [done|].
    rewrite (se_entries _ _ _ _ Hse), length_app. lia. }
  rewrite elem_of_deleted.
  2: { intros d Hd. rewrite Hpart. by eapply mor_deletes_partition. }
  transitivity (∃ c, c ∈ ((fun e => delete_content root (me_file_path e) (M e).*2) <$> touched)
    ∧ z ∈ filter_map_to_bitmap c (strip_file (me_file_path e))).
  { rewrite <- (put_deletes_content uuid delete_size root w M n touched (w_dels w)) by done.
    rewrite <- Hw'. setoid_rewrite list_elem_of_fmap. naive_solver. }
  setoid_rewrite list_elem_of_fmap.
  assert (∀ e', e' ∈ touched →
    z ∈ filter_map_to_bitmap (delete_content root (me_file_path e') (M e').*2) (strip_file (me_file_path e))
    ↔ me_file_path e' = me_file_path e
      ∧ z ∈ (list_to_set (Z.of_nat <$> (M e').*2) : gset Z) ∧ fits_u32 z = true) as He'.
  { intros e' He'. rewrite delete_content_lookup.
    - rewrite elem_of_bitmap_singleton. by rewrite (mr_paths _ _ _ _ _ _ Hready) by auto.
    - intros HM%fmap_nil_inv. by apply (se_touched _ _ _ _ Hse e'). }
  split.
  - intros (c & (e' & -> & Hin) & Hz). exists e'. by rewrite <- He'.
  - intros (e' & Hin & Hz). exists (delete_content root (me_file_path e') (M e').*2).
    split; [by exists e'|]. by apply He'.
Qed.

Lemma mor_kept touched rest upd U (w' : World Row) e :
  split_entries touched rest upd U → (∀ e, e ∈ touched → e ∈ entries) → e ∈ touched ++ rest →
  w_dels w' = put_deletes n touched (w_dels w) →
  w_data w' !! me_file_path e = w_data w !! me_file_path e →
  rows_under w' (mor_deletes n touched) e = filter kept (rows e).
Proof.
  intros Hse Hte He Hw' Hdata.
  assert (e ∈ entries) as Hee by (by rewrite (se_entries _ _ _ _ Hse)).
  unfold rows_under, visible_rows. cbn [me_file_path attach_deletes with_delete_files].
  rewrite Hdata. apply visible_filter. intros j r' Hj.
  rewrite (mor_deleted _ _ _ _ _ _ _ Hse Hte Hw').
  2: { by apply (mr_root _ _ _ _ _ _ Hready). }
  2: { rewrite elem_of_app. left. by apply list_elem_of_fmap_2. }
  rewrite <- (elem_of_M_2 e j r' Hee Hj). split.
  - intros (e' & He' & Hp & Hz & _). by rewrite <- (ready_same_path e' e) by auto.
  - intros Hz. exists e. split_and!; [|done|done|].
    + apply elem_of_app in He as [?|Hr]; [done|]. rewrite (se_rest _ _ _ _ Hse e Hr) in Hz. set_solver.
    + pose proof (mr_small _ _ _ _ _ _ Hready e Hee). apply lookup_lt_Some in Hj.
      unfold rows_of in *. unfold fits_u32. apply andb_true_iff. rewrite !Z.leb_le. lia.
Qed.

Lemma mor_entries (touched : list ManifestEntry) (ds dels : list DeleteFile) (w' : World Row) :
  length touched = length ds → (∀ e, e ∈ touched → me_delete_files e = []) →
  let adds := zip_with mor_entry touched ds in
  adds ≫= me_delete_files = ds ∧ me_file_path <$> adds = me_file_path <$> touched
  ∧ adds ≫= rows_under w' dels = touched ≫= rows_under w' dels.
Proof.
  revert ds. induction touched as [|e touched IH]; intros [|d ds] Hlen Hd; simplify_eq/=; [done|].
  destruct (IH ds Hlen) as (H1 & H2 & H3); [intros; apply Hd; by right|].
  csimpl. rewrite H1, H2, H3, Hd by left. done.
Qed.

Lemma ready_no_deletes e : e ∈ entries → me_delete_files e = [].
Proof.
  rewrite (mr_entries _ _ _ _ _ _ Hready). unfold loaded. rewrite (mr_deletes _ _ _ _ _ _ Hready).
  by intros ([p e'] & -> & _)%list_elem_of_fmap.
Qed.

Lemma mor_deletes_length (k : nat) (touched : list ManifestEntry) :
  length (mor_deletes k touched) = length touched.
Proof. revert k. induction touched as [|e touched IH]; intros k; [done|]. simpl. by rewrite IH. Qed.

(** The rows inserted are all rows of the source. *)
Lemma mor_inserted touched rest upd U :
  split_entries touched rest upd U →
  mjoin (inserted source (U ∪ list_to_set (touched ≫= fun e => (M e).*1))) ≡ₚ source.
Proof.
  intros Hse. rewrite inserted_rows. apply take_source_all. unfold sort_unmatched.
  rewrite merge_sort_Permutation, <- (se_indices _ _ _ _ Hse).
  assert (NoDup ((touched ≫= fun e => (M e).*1) ++ elements U)) as Hnd
    by (rewrite (se_indices _ _ _ _ Hse); apply NoDup_seq).
  apply NoDup_Permutation; [apply NoDup_elements|done|].
  intros i. rewrite elem_of_elements, elem_of_union, elem_of_app, elem_of_elements, elem_of_list_to_set.
  tauto.
Qed.

Lemma mor_new_rows touched rest upd U (w' : World Row) files :
  split_entries touched rest upd U → (∀ e, e ∈ touched → e ∈ entries) → length files ≤ 1 →
  w_dels w' = put_deletes n touched (w_dels w) →
  w_data w' = put_files (n + length touched) files (w_data w) →
  new_entries (n + length touched) files ≫= rows_under w' (mor_deletes n touched) = mjoin files.
Proof.
  intros Hse Hte Hf Hw' Hdata.
  assert (length entries = length touched + length rest) as Hlen
    by (by rewrite (se_entries _ _ _ _ Hse), length_app).
  rewrite <- (put_files_rows uuid written (n + length touched) files (w_data w)).
  2: { eapply seq_fmap_NoDup, (mr_new _ _ _ _ _ _ Hready); lia. }
  apply Forall_bind_ext, Forall_forall. intros e He.
  assert (me_file_path e ∈ new_data <$> seq n (S (length entries))) as Hin.
  { apply (list_elem_of_fmap_2 me_file_path) in He. rewrite new_entries_paths in He.
    apply list_elem_of_fmap in He as (i & -> & Hi%elem_of_seq).
    apply list_elem_of_fmap_2, elem_of_seq. lia. }
  unfold rows_under, visible_rows. cbn [me_file_path attach_deletes with_delete_files].
  rewrite Hdata. rewrite <- (visible_empty (default [] _)) at 2. f_equal. apply set_eq. intros z.
  rewrite (mor_deleted _ _ _ _ _ _ _ Hse Hte Hw'); [|by eapply new_entries_partitions|].
  - split; [|set_solver]. intros (e' & He' & Hp & _). rewrite <- Hp in Hin.
    exfalso. by apply (mr_fresh _ _ _ _ _ _ Hready e'); [apply Hte|].
  - rewrite elem_of_app. by right.
Qed.

Lemma mor_upserts :
  ∃ w' s', merge MergeOnRead = Some (w', s')
    ∧ table_rows w' s' ≡ₚ filter kept (table_rows w s) ++ source.
Proof.
  rewrite merge_commits. unfold execute_merge. pose proof ready_split as Hsplit.
  destruct (match_segments _ _ _ _ _ _) as [upd U]. destruct Hsplit as (touched & rest & Hse).
  rewrite (se_iter _ _ _ _ Hse).
  assert (length entries = length touched + length rest) as Hlen
    by (by rewrite (se_entries _ _ _ _ Hse), length_app).
  assert (∀ e, e ∈ touched → e ∈ entries) as Hte.
  { intros e He. rewrite (se_entries _ _ _ _ Hse), elem_of_app. by left. }
  assert (∀ e, e ∈ rest → e ∈ entries) as Hre.
  { intros e He. rewrite (se_entries _ _ _ _ Hse), elem_of_app. by right. }
  rewrite (mor_fold uuid written delete_size root source _ w M);
    [|by apply (se_find _ _ _ _ Hse)|by apply (se_touched _ _ _ _ Hse)]. cbn [ms_next ms_world].
  set (st := {| ms_world := _ |}).
  destruct (insert_unmatched_files source st) as [Hw Ha]. cbn in Hw, Ha.
  set (st' := insert_unmatched _ _ _ _) in *.
  rewrite Ha, Hw. clear st st' Ha Hw.
  set (files := inserted source _).
  assert (length files ≤ 1) as Hfl by apply inserted_length.
  destruct (replacing_actions AddDelete (me_file_path <$> touched)
    (zip_with mor_entry touched (mor_deletes n touched)) (new_entries (n + length touched) files))
    as [-> ->]; [by right|rewrite length_fmap, length_zip_with, mor_deletes_length; lia|].
  set (w' := {| w_data := _ |}).
  destruct (mor_entries touched (mor_deletes n touched) (mor_deletes n touched) w') as (Hd & Hp & Hr);
    [by rewrite mor_deletes_length|intros; by apply ready_no_deletes, Hte|].
  set (adds := zip_with mor_entry touched (mor_deletes n touched)) in *.
  assert (∀ e, e ∈ entries → me_file_path e ∉ new_data <$> seq (n + length touched) (length files)) as Hfresh.
  { intros e He (k & Hk & Hin%elem_of_seq)%list_elem_of_fmap.
    apply (mr_fresh _ _ _ _ _ _ Hready e He). rewrite Hk. apply list_elem_of_fmap_2, elem_of_seq. lia. }
  edestruct (ready_commit touched rest (adds ++ new_entries (n + length touched) files)) as (s' & -> & Ht);
    [apply (se_entries _ _ _ _ Hse)| | | |].
  - rewrite fmap_app, Hp, new_entries_paths. apply NoDup_app. split_and!.
    + pose proof ready_paths as Hnd. rewrite (se_entries _ _ _ _ Hse), fmap_app, NoDup_app in Hnd. tauto.
    + intros p (e & -> & He)%list_elem_of_fmap. by apply Hfresh, Hte.
    + eapply seq_fmap_NoDup, (mr_new _ _ _ _ _ _ Hready); lia.
  - intros e [He|He]%elem_of_app (e' & Heq & He')%list_elem_of_fmap.
    + apply (list_elem_of_fmap_2 me_file_path) in He. rewrite Hp in He.
      pose proof ready_paths as Hnd. rewrite (se_entries _ _ _ _ Hse), fmap_app, NoDup_app in Hnd.
      destruct Hnd as (_ & Hnd & _). apply (Hnd _ He). rewrite Heq. by apply list_elem_of_fmap_2.
    + apply (list_elem_of_fmap_2 me_file_path) in He. rewrite new_entries_paths, Heq in He.
      by apply (Hfresh e'); [apply Hre|].
  - rewrite bind_app, Hd, new_entries_deletes, app_nil_r.
    rewrite mor_deletes_names by (intros; by apply (mr_root _ _ _ _ _ _ Hready), Hte).
    eapply seq_fmap_NoDup, (mr_new_deletes _ _ _ _ _ _ Hready); lia.
  - cbn [mbind option_bind]. exists w', s'. split; [reflexivity|]. rewrite Ht.
    rewrite !bind_app, Hd, new_entries_deletes, app_nil_r, Hr.
    rewrite (mor_new_rows _ _ _ _ w' files Hse Hte Hfl) by done.
    unfold files at 1. rewrite (mor_inserted _ _ _ _ Hse).
    rewrite (kept_rows _ _ (se_entries _ _ _ _ Hse) (se_rest _ _ _ _ Hse)).
    assert (∀ e, e ∈ touched ++ rest →
      rows_under w' (mor_deletes n touched) e = filter kept (rows e)) as Hk.
    { intros e He. eapply mor_kept; [done..|]. cbn. apply put_files_other, Hfresh.
      by rewrite (se_entries _ _ _ _ Hse). }
    rewrite (Forall_bind_ext _ (fun e => filter kept (rows e)) touched).
    2: { apply Forall_forall. intros e He. apply Hk, elem_of_app. by left. }
    rewrite (Forall_bind_ext _ rows rest); [solve_Permutation|]. apply Forall_forall. intros e He.
    rewrite Hk by (apply elem_of_app; by right). apply untouched_rows; [by apply Hre|].
    by apply (se_rest _ _ _ _ Hse).
Qed.
End Upsert.

(** C6: On a table and a source that are [merge_ready], and without concurrent commits, a merge is an
    upsert in both modes: it commits, and the table then holds the rows whose key is not in the source
    and all the rows of the source, each once.  [merge_ready] says: the entries given are those of the
    snapshot, no deletes are pending, the files are unpartitioned at the root of the table, their names
    and the new ones are distinct, also by the suffix comparison of delete files, and no segment id is
    part of another path, files have fewer than [2^32] rows, keys are unique in the table and in the source, and the candidate test drops no
    segment with a matching key.  (Outside of it: [merge_loses_uniqueness].) *)
Theorem merge_upserts {Row Key : Type} `{Countable Key} (key : Row → Key)
    (uuid : nat → string) (written : list Row → WriterOutput) (delete_size : pos_map → Z)
    (hash_iter : gmap string (list (nat * nat)) → list (string * list (nat * nat))) (root : string)
    (mode : MergeMode) prune entries source (w : World Row) n s :
  (∀ m, hash_iter m ≡ₚ map_to_list m) →
  merge_ready key uuid root prune entries source w n s →
  ∃ w' s', merge key uuid written delete_size hash_iter root mode prune entries source w n s
             = Some (w', s')
    ∧ table_rows w' s' ≡ₚ filter (fun r => key r ∉ key <$> source) (table_rows w s) ++ source.
Proof. intros Hiter Hready. destruct mode; [by apply mor_upserts|by apply cow_upserts]. Qed.

(** ** Merges of a small table *)

Module MergeExamples.
Open Scope Z_scope.

Definition uuid (n : nat) : string := pretty (N.of_nat n).
Definition out (rows : list (Z * Z)) : WriterOutput :=
  {| wo_size := 100; wo_checksum := None; wo_indexes := []; wo_stats := ∅ |}.
Definition size_of (m : pos_map) : Z := 10.
Definition in_order (m : gmap string (list (nat * nat))) := map_to_list m.
Definition root : string := "file:///t".
Definition all (e : ManifestEntry) : bool := true.

(** Two files with the rows (1, 10), (2, 20) and (4, 40). *)
Definition world : World (Z * Z) :=
  {| w_data := {[ "seg_a.parquet" := [(1, 10); (2, 20)]; "seg_b.parquet" := [(4, 40)] ]};
     w_dels := ∅ |}.
Definition snapshot : Snapshot :=
  {| sn_entries := {[ "seg_a.parquet" := ManifestEntry_default "seg_a.parquet";
                      "seg_b.parquet" := ManifestEntry_default "seg_b.parquet" ]};
     sn_deletes := [] |}.
Definition source : list (Z * Z) := [(2, 21); (3, 30); (4, 41)].

Abbreviation merge_by := (merge fst uuid out size_of in_order).
Definition rows_after (o : option (World (Z * Z) * Snapshot)) : option (list (Z * Z)) :=
  (fun p : World (Z * Z) * Snapshot => table_rows p.1 p.2) <$> o.

#[local] Ltac decided := apply (bool_decide_unpack _); vm_compute; exact I.

(** What a ready merge asks of the entries, decided. *)
Definition names : list string := me_file_path <$> loaded snapshot.
Definition fresh : list string := new_data uuid <$> seq 0 (S (length names)).

Lemma ready : merge_ready fst uuid root all (loaded snapshot) source world 0 snapshot.
Proof.
  assert (∀ e, e ∈ loaded snapshot → me_file_path e ∈ names) as Hn by (intros; by apply list_elem_of_fmap_2).
  assert (∀ P : string → Prop, Forall P names → ∀ e, e ∈ loaded snapshot → P (me_file_path e)) as Hall.
  { intros P HP e He. rewrite Forall_forall in HP. by apply HP, Hn. }
  split.
  - done.
  - done.
  - change (map_Forall (fun p e => me_file_path e = p) (sn_entries snapshot)).
    decided.
  - intros e He. split.
    + revert e He. apply Forall_forall. decided.
    + revert e He. apply (Hall (fun p => seg_id_of p +:+ parquet_suffix = p)).
      decided.
  - intros e e' He He'. revert e' He' e He.
    assert (Forall (fun q => Forall (fun p => str_contains (seg_id_of p) q = true → p = q) names) names) as HF
      by decided.
    intros e' He'. apply (Hall (fun p => str_contains (seg_id_of p) (me_file_path e') = true → p = me_file_path e')).
    by apply (Hall _ HF).
  - intros e He. revert e He. apply Forall_forall. decided.
  - decided.
  - apply (Hall (fun p => p ∉ _)). decided.
  - decided.
  - intros e q He Hq.
    assert (Forall (fun q => Forall (fun p => path_matches (qualify root p) (strip_file q) = true ↔ p = q) names)
      (names ++ fresh)) as HF by decided.
    rewrite Forall_forall in HF. specialize (HF q Hq). by apply (Hall _ HF).
  - decided.
  - decided.
  - done.
Qed.

Lemma merge_upserts_witness :
  ∃ w' s', merge_by root MergeOnRead all (loaded snapshot) source world 0 snapshot = Some (w', s')
    ∧ table_rows w' s' ≡ₚ filter (fun r => r.1 ∉ source.*1) (table_rows world snapshot) ++ source.
Proof. apply (merge_upserts fst uuid out size_of in_order root MergeOnRead all); [done|exact ready]. Defined.

(** The table after one merge on read, and a second merge of a changed row. *)
Definition after_one : World (Z * Z) * Snapshot :=
  default (world, snapshot) (merge_by root MergeOnRead all (loaded snapshot) source world 0 snapshot).
Definition merge_again (mode : MergeMode) (rows : list (Z * Z)) : option (list (Z * Z)) :=
  let '(w, s) := after_one in rows_after (merge_by root mode all (loaded s) rows w 10 s).

Definition partitioned_entry : ManifestEntry :=
  {| me_file_path := "p=1/seg_a.parquet"; me_file_size_bytes := 0; me_record_count := 1;
     me_file_checksum := None; me_index_files := []; me_delete_files := []; me_column_stats := ∅;
     me_partition_values := {[ "p" := VString "1" ]}; me_clustering := Clustering_default;
     me_first_row_id := None |}.
Definition partitioned : World (Z * Z) * Snapshot :=
  ({| w_data := {[ "p=1/seg_a.parquet" := [(1, 10)] ]}; w_dels := ∅ |},
   {| sn_entries := {[ "p=1/seg_a.parquet" := partitioned_entry ]}; sn_deletes := [] |}).

(** Segments are matched without their delete files and at the root of the table, so outside
    the conditions of [merge_upserts] a merge is no upsert.  After one merge on read (which
    gives the rows expected), a second one that sees the old segment first marks the dead row
    again and leaves two rows with key 2; a copy on write brings a deleted row back; and in a
    partitioned table every update is inserted beside the row it should replace. *)
Theorem merge_loses_uniqueness :
  table_rows after_one.1 after_one.2 = [(1, 10); (2, 21); (3, 30); (4, 41)]
  ∧ merge_again MergeOnRead [(2, 22)] = Some [(2, 22); (1, 10); (2, 21); (3, 30); (4, 41)]
  ∧ merge_again CopyOnWrite [(1, 11)] = Some [(2, 20); (1, 11); (2, 21); (3, 30); (4, 41)]
  ∧ (∀ mode, rows_after (merge_by root mode all (loaded partitioned.2) [(1, 11)]
       partitioned.1 0 partitioned.2) = Some [(1, 11); (1, 10)]).
Proof. split_and!; [by vm_compute..|]. intros []; by vm_compute. Qed.
End MergeExamples.
