(* ===== verification/Compaction.v ===== *)
(** * Compaction

    [Compactor] of [src/src/core/compaction.rs]: small files are packed into bins, the rows
    that their deletes leave are merged, partitioned again and optionally clustered, and one
    commit replaces the old files.  Partitioning is that of [Partitioning], the scores those of
    [Clustering], the deletes those of [Deletes] and the commit that of [Manifest]. *)

From S2P Require Import Prelude Json ManifestTypes Deletes EqualityDeletes Manifest ManifestStore Partitioning Clustering Merge.
Open Scope Z_scope.

(** ** Options *)

Record ClusteringOptions := { co_columns : list string; co_strategy : string }.
Record CompactionOptions := {
  target_file_size_bytes : Z;
  min_file_size_bytes : Z;
  strategy : string;
  max_concurrent_bins : nat;
  clustering : option ClusteringOptions;
  allow_cross_partition : bool
}.
Definition CompactionOptions_default : CompactionOptions :=
  {| target_file_size_bytes := 512 * 1024 * 1024; min_file_size_bytes := 384 * 1024 * 1024;
     strategy := "binpack"; max_concurrent_bins := 4; clustering := None;
     allow_cross_partition := true |}.

(** [Compactor::new]: the prefix under which the manager looks for manifests and new files are
    put; [url_path] is [Url::path]. *)
Definition compactor_base_path (url_path : string → string) (uri : string) : string :=
  if starts_with file_prefix uri then EmptyString else trim_start slash (url_path uri).

(** ** Packing *)

Definition wrap_i64 (z : Z) : Z := (z + 2 ^ 63) mod 2 ^ 64 - 2 ^ 63.

(** The loop: the bin being filled and its size. *)
Fixpoint pack (target : Z) (candidates current_bin : list ManifestEntry) (current_size : Z)
  : list (list ManifestEntry) :=
  match candidates with
  | [] => match current_bin with [] => [] | _ => [current_bin] end
  | c :: candidates =>
      let full := wrap_i64 (current_size + me_file_size_bytes c) in
      match current_bin with
      | _ :: _ =>
          if decide (target < full)
          then current_bin :: pack target candidates [c] (wrap_i64 (me_file_size_bytes c))
          else pack target candidates (current_bin ++ [c]) full
      | [] => pack target candidates [c] full
      end
  end.
Definition binpack (candidates : list ManifestEntry) (target : Z) : list (list ManifestEntry) :=
  pack target candidates [] 0.

(** ** Reading the files of a bin *)

Inductive cerr :=
| EmptyBin
| NoData
| EqualityLoad
| SchemaMismatch
| PartitionErr (e : perr)
| ScoreErr (e : string)
| CommitFailed.

Definition dot : Ascii.ascii := Ascii.ascii_of_nat 46.

(** [Path::file_stem] of a store path. *)
Definition file_stem (p : string) : string :=
  let name := default p (last (split_char slash p)) in
  match removelast (split_char dot name) with
  | [] | [EmptyString] => name
  | parts => join_char dot parts
  end.

(** [HybridReader::resolve_object_path], of a path without a scheme. *)
Definition resolve_path (r : HybridReader) (extension : string) : string :=
  let '(base, filename) :=
    match sc_parquet_path (hr_config r) with
    | Some p => if decide (extension = "parquet") then (p, EmptyString)
                else (sc_base_path (hr_config r), sc_segment_id (hr_config r) +:+ "." +:+ extension)
    | None => (sc_base_path (hr_config r), sc_segment_id (hr_config r) +:+ "." +:+ extension)
    end in
  let root_local := trim_end slash (strip_file (hr_root_uri r)) in
  let base_local := trim_end slash (strip_file base) in
  let rel :=
    match strip_prefix root_local base_local with
    | Some rest => if decide (root_local = EmptyString) then trim_start slash base_local
                   else trim_start slash rest
    | None => trim_start slash base_local
    end in
  if decide (filename = EmptyString) then rel
  else if decide (rel = EmptyString) then filename else rel +:+ "/" +:+ filename.
(** The data file. *)
Definition resolve_object_path (r : HybridReader) : string := resolve_path r "parquet".

(** Data files by the path in the store. *)
Abbreviation data_files := (gmap string RecordBatch).

#[export] Instance Field_eq_dec : EqDecision Field.
Proof. solve_decision. Defined.
Definition fields_eqb (a b : list Field) : bool := bool_decide (a = b).

(** [concat_batches]: the batches must have the schema of the first. *)
Definition concat_batches (batches : list RecordBatch) : result cerr RecordBatch :=
  match batches with
  | [] => Err NoData
  | b :: _ =>
      if forallb (fun c => fields_eqb (rb_fields c) (rb_fields b)) batches
      then Ok {| rb_fields := rb_fields b; rb_rows := batches ≫= rb_rows |}
      else Err SchemaMismatch
  end.

Definition with_index_path (f : IndexFile) (path : string) : IndexFile :=
  {| if_format_version := if_format_version f; if_index_id := if_index_id f;
     if_index_category := if_index_category f; if_algorithm := if_algorithm f;
     if_column_name := if_column_name f; if_source_snapshot_id := if_source_snapshot_id f;
     if_source_data_checksum := if_source_data_checksum f;
     if_source_record_count := if_source_record_count f; if_index_checksum := if_index_checksum f;
     if_file_path := path; if_blob_type := if_blob_type f; if_blob_offset := if_blob_offset f;
     if_blob_length := if_blob_length f; if_compression := if_compression f |}.

Section Compactor.
(** What [Partitioning] and [ManifestTypes] take from outside. *)
Context (murmur3_32 : bytes → Z → Z) (date_of_ce datetime_of : Z → option (Z * Z))
  (float_text : float → string).
(** Arrow's [sort_to_indices], the typed columns of a batch, and what the segment writer
    produces beside the rows. *)
Context (sort_to_indices : list Z → list nat) (num_batch : RecordBatch → NumBatch)
  (written : RecordBatch → WriterOutput).
(** The store of delete files, fresh names, and the order of the groups' hash map. *)
Context (io : DeleteIo) (fresh_id : nat → string)
  (hash_groups : gmap (gmap string string) (list ManifestEntry) → list (list ManifestEntry)).
Context (root_uri base_path : string).
(** The store of equality delete files with the cache of [EqualityDeletes], Arrow's [cast],
    and the typed columns of a batch. *)
Context (debug_avro : AvroCell → string) (eio : EqIo) (eqc : eq_cache)
  (cast : EqType → EqColumn → option EqColumn) (eq_columns : RecordBatch → string → option EqColumn).

(** The segment id a query takes from a path: its last part without [.parquet]. *)
Definition segment_name (p : string) : string :=
  let name := default p (last (split_char slash p)) in
  if ends_with ".parquet" name then String.substring 0 (String.length name - 8) name else p.

(** The reader compaction opens for an entry, and the reader of a query. *)
Definition compact_reader (e : ManifestEntry) : HybridReader :=
  {| hr_config := {| sc_base_path := parent_path (me_file_path e);
                     sc_segment_id := file_stem (me_file_path e); sc_parquet_path := None;
                     sc_delete_files := me_delete_files e |};
     hr_root_uri := root_uri |}.
Definition query_reader (e : ManifestEntry) : HybridReader :=
  let rel_parent := parent_path (me_file_path e) in
  {| hr_config := {| sc_base_path := if decide (rel_parent = EmptyString) then root_uri
                                     else root_uri +:+ "/" +:+ rel_parent;
                     sc_segment_id := segment_name (me_file_path e);
                     sc_parquet_path := Some (me_file_path e);
                     sc_delete_files := me_delete_files e |};
     hr_root_uri := root_uri |}.

(** [stream_all]: nothing when the file is absent; otherwise the rows that the position
    deletes and deletion vectors leave, less those the equality deletes match.  Loading
    the latter fails without the table's schema, unless they are cached. *)
Definition stream_all (schema : option (list SchemaField)) (data : data_files) (r : HybridReader)
  : option (list RecordBatch) :=
  match data !! resolve_object_path r with
  | Some b =>
      equality ← (load_equality_deletes debug_avro eio eqc r schema).1;
      match visible (all_deletes io r) (rb_rows b) with
      | [] => Some []
      | rows =>
          let batch := {| rb_fields := rb_fields b; rb_rows := rows |} in
          Some [{| rb_fields := rb_fields b;
                   rb_rows := apply_equality cast (eq_columns batch) equality rows |}]
      end
  | None => Some []
  end.

(** ** Clustering of a chunk *)

Definition scores_of (o : ClusteringOptions) (b : RecordBatch)
  : option (result string (list Z * list Value * list Value)) :=
  if decide (co_strategy o = "zorder") then Some (compute_zorder_scores (num_batch b) (co_columns o))
  else if decide (co_strategy o = "hilbert")
       then Some (compute_hilbert_scores (num_batch b) (co_columns o))
  else None.

(** The chunk in the order of its scores, and what the entry records: the first and the last of
    the scores as they were computed. *)
Definition apply_clustering (o : option ClusteringOptions) (b : RecordBatch)
  : result cerr (RecordBatch * ManifestTypes.Clustering) :=
  match o with
  | None => Ok (b, Clustering_default)
  | Some o =>
      let record mins maxs lo hi :=
        {| cl_strategy := Some (co_strategy o); cl_columns := Some (co_columns o);
           cl_min_score := lo; cl_max_score := hi; cl_norm_mins := mins; cl_norm_maxs := maxs |} in
      match scores_of o b with
      | None => Ok (b, record None None None None)
      | Some (Err e) => Err (ScoreErr e)
      | Some (Ok (scores, mins, maxs)) =>
          let b' := match co_columns o with
                    | [] => b
                    | _ => take_rows b (sort_to_indices scores)
                    end in
          Ok (b', match scores with
                  | [] => record None None None None
                  | s :: _ => record (Some mins) (Some maxs) (Some s) (last scores)
                  end)
      end
  end.

(** ** Writing a chunk *)

Definition segment_file (n : nat) : string := "compacted_" +:+ fresh_id n +:+ ".parquet".
Definition remote_prefix (hive_path : string) : string :=
  if decide (hive_path = EmptyString) then base_path
  else if decide (base_path = EmptyString) then hive_path else base_path +:+ "/" +:+ hive_path.
Definition under (prefix name : string) : string :=
  if decide (prefix = EmptyString) then name else prefix +:+ "/" +:+ name.

Definition write_chunk (opts : CompactionOptions) (spec : PartitionSpec) (n : nat)
    (chunk : gmap string Value * RecordBatch) : result cerr (ManifestEntry * RecordBatch) :=
  let '(part_vals, batch) := chunk in
  match apply_clustering (clustering opts) batch with
  | Err e => Err e
  | Ok (batch, cl) =>
      let prefix := remote_prefix (partition_to_path float_text spec part_vals) in
      let out := written batch in
      Ok ({| me_file_path := under prefix (segment_file n); me_file_size_bytes := wo_size out;
             me_record_count := Z.of_nat (length (rb_rows batch));
             me_file_checksum := wo_checksum out;
             me_index_files :=
               (fun f => with_index_path f (under prefix (if_file_path f))) <$> wo_indexes out;
             me_delete_files := []; me_column_stats := wo_stats out;
             me_partition_values := part_vals; me_clustering := cl; me_first_row_id := None |}, batch)
  end.

(** The chunks of a bin one after the other: their entries, the store, the next name. *)
Fixpoint write_chunks (opts : CompactionOptions) (spec : PartitionSpec)
    (chunks : list (gmap string Value * RecordBatch)) (data : data_files) (n : nat)
  : result cerr (list ManifestEntry * data_files * nat) :=
  match chunks with
  | [] => Ok ([], data, n)
  | chunk :: chunks =>
      '(e, batch) ← write_chunk opts spec n chunk;
      '(es, data, n) ← write_chunks opts spec chunks (<[me_file_path e := batch]> data) (S n);
      Ok (e :: es, data, n)
  end.

Definition compact_bin (opts : CompactionOptions) (spec : PartitionSpec)
    (bin : list ManifestEntry) (data : data_files) (n : nat)
  : result cerr (list ManifestEntry * list string * data_files * nat) :=
  match bin with
  | [] => Err EmptyBin
  | _ =>
      all_batches ← match mapM (fun e => stream_all None data (compact_reader e)) bin with
                    | Some batches => Ok (concat batches)
                    | None => Err EqualityLoad
                    end;
      merged ← concat_batches all_batches;
      chunks ← match partition_batch murmur3_32 date_of_ce datetime_of spec merged with
               | Ok chunks => Ok chunks
               | Err e => Err (PartitionErr e)
               end;
      '(new_entries, data, n) ← write_chunks opts spec chunks data n;
      Ok (new_entries, me_file_path <$> bin, data, n)
  end.

(** The bins run concurrently, but each reads old files and writes new ones only. *)
Fixpoint compact_bins (opts : CompactionOptions) (spec : PartitionSpec)
    (bins : list (list ManifestEntry)) (data : data_files) (n : nat)
  : result cerr (list ManifestEntry * list string * data_files * nat) :=
  match bins with
  | [] => Ok ([], [], data, n)
  | bin :: bins =>
      '(es, ps, data, n) ← compact_bin opts spec bin data n;
      '(es', ps', data, n) ← compact_bins opts spec bins data n;
      Ok (es ++ es', ps ++ ps', data, n)
  end.

(** ** The plan *)

Definition is_candidate (opts : CompactionOptions) (e : ManifestEntry) : Prop :=
  me_file_size_bytes e < min_file_size_bytes opts.
#[export] Instance is_candidate_dec opts e : Decision (is_candidate opts e).
Proof. unfold is_candidate. apply _. Defined.

(** The groups by partition: the sorted pairs of names and printed values. *)
Definition group_key (e : ManifestEntry) : gmap string string :=
  value_text float_text <$> me_partition_values e.
Definition group_candidates (candidates : list ManifestEntry)
  : gmap (gmap string string) (list ManifestEntry) :=
  foldl (fun m c => <[group_key c := default [] (m !! group_key c) ++ [c]]> m) ∅ candidates.

Definition plan_bins (opts : CompactionOptions) (candidates : list ManifestEntry)
  : list (list ManifestEntry) :=
  if allow_cross_partition opts then binpack candidates (target_file_size_bytes opts)
  else hash_groups (group_candidates candidates) ≫= fun g => binpack g (target_file_size_bytes opts).

Definition compaction_commit : CommitMetadata :=
  {| updated_schemas := None; updated_schema_id := None; updated_partition_specs := None;
     updated_default_spec_id := None; updated_properties := None; removed_properties := None;
     updated_sort_orders := None; updated_default_sort_order_id := None;
     updated_last_column_id := None; md_format_version := None; is_fast_append := false;
     require_remove_paths_exist := true; skip_missing_remove_paths := true;
     discard_add_on_missing_remove := true |}.

(** The part before the commit: what it would add and remove. *)
Definition prepare (opts : CompactionOptions) (spec : PartitionSpec)
    (all_entries : list ManifestEntry) (data : data_files) (n : nat)
  : result cerr (list ManifestEntry * list string * data_files * nat) :=
  compact_bins opts spec (plan_bins opts (filter (is_candidate opts) all_entries)) data n.

(** [rewrite_data_files]: [now] is the snapshot when the commit is made. *)
Definition rewrite_data_files (opts : CompactionOptions) (spec : PartitionSpec)
    (all_entries : list ManifestEntry) (data : data_files) (n : nat) (now : Snapshot)
  : result cerr (data_files * Snapshot) :=
  '(new_entries, old_paths, data, _) ← prepare opts spec all_entries data n;
  match new_entries with
  | [] => Ok (data, now)
  | _ =>
      match commit_snapshot compaction_commit new_entries old_paths now with
      | Some s => Ok (data, s)
      | None => Err CommitFailed
      end
  end.

(** ** What a query sees *)

(** A query reads every entry with the table's schema; [None] when an equality delete file
    cannot be loaded. *)
Definition query_rows (schema : list SchemaField) (data : data_files) (s : Snapshot)
  : option (list (list (option ArrowCell))) :=
  batches ← mapM (fun e => stream_all (Some schema) data (query_reader e)) (loaded s);
  Some (concat batches ≫= rb_rows).
End Compactor.

(** ** Packing is a partition into bins of bounded size *)

Definition total_size (l : list ManifestEntry) : Z := foldr Z.add 0 (me_file_size_bytes <$> l).

Lemma total_size_app (l1 l2 : list ManifestEntry) :
  total_size (l1 ++ l2) = total_size l1 + total_size l2.
Proof. unfold total_size. induction l1 as [|e l1 IH]; [done|]. csimpl. lia. Qed.

Lemma total_size_nonneg (l : list ManifestEntry) :
  Forall (fun e => 0 ≤ me_file_size_bytes e) l → 0 ≤ total_size l.
Proof. unfold total_size. induction 1; csimpl; lia. Qed.

Lemma wrap_i64_small z : 0 ≤ z < 2 ^ 63 → wrap_i64 z = z.
Proof. intros Hz. unfold wrap_i64. rewrite Z.mod_small by lia. lia. Qed.

(** What packing promises: the bins are consecutive pieces of the candidates, none is empty,
    only a single file exceeds the target, and no bin could have taken the next file. *)
Record packed (target : Z) (candidates : list ManifestEntry) (bins : list (list ManifestEntry))
  : Prop := {
  pk_all : concat bins = candidates;
  pk_nonempty : Forall (fun b => b ≠ []) bins;
  pk_size : Forall (fun b => total_size b ≤ target ∨ length b = 1%nat) bins;
  pk_greedy : ∀ i b e b', bins !! i = Some b → bins !! S i = Some (e :: b') →
    target < total_size b + me_file_size_bytes e
}.

(** One step, without overflow. *)
Lemma pack_step target c candidates current :
  current ≠ [] → 0 ≤ total_size current → 0 ≤ me_file_size_bytes c →
  total_size current + me_file_size_bytes c < 2 ^ 63 →
  pack target (c :: candidates) current (total_size current) =
  if decide (target < total_size current + me_file_size_bytes c)
  then current :: pack target candidates [c] (total_size [c])
  else pack target candidates (current ++ [c]) (total_size (current ++ [c])).
Proof.
  intros Hne Hcur Hc Hlt. destruct current as [|e current]; [done|]. cbn [pack].
  rewrite !wrap_i64_small by lia. rewrite total_size_app.
  by replace (total_size [c]) with (me_file_size_bytes c) by (unfold total_size; simpl; lia).
Qed.

(** Closing a bin before the others. *)
Lemma packed_cons target b c r rest bins :
  packed target rest ((c :: r) :: bins) →
  b ≠ [] → total_size b ≤ target ∨ length b = 1%nat → target < total_size b + me_file_size_bytes c →
  packed target (b ++ rest) (b :: (c :: r) :: bins).
Proof.
  intros [Ha Hn Hs Hg] Hne Hsz Hfull. split.
  - simpl. by rewrite <- Ha.
  - by constructor.
  - by constructor.
  - intros [|i] x e y Hx Hy; [|by eapply Hg]. by simplify_eq/=.
Qed.

Lemma pack_packed target candidates current :
  Forall (fun e => 0 ≤ me_file_size_bytes e) (current ++ candidates) →
  total_size (current ++ candidates) < 2 ^ 63 → current ≠ [] →
  total_size current ≤ target ∨ length current = 1%nat →
  packed target (current ++ candidates) (pack target candidates current (total_size current))
  ∧ ∃ rest bins, pack target candidates current (total_size current) = (current ++ rest) :: bins.
Proof.
  revert current. induction candidates as [|c candidates IH]; intros current Hpos Hsum Hne Hcur.
  { rewrite app_nil_r. destruct current as [|e current]; [done|]. cbn [pack]. split.
    - split; [by simpl; rewrite app_nil_r|by apply Forall_singleton|by apply Forall_singleton|].
      intros [|i] ? ? ? ? ?; done.
    - exists [], []. by rewrite app_nil_r. }
  pose proof Hpos as [Hpc [Hc Hps]%Forall_cons]%Forall_app.
  pose proof (total_size_nonneg _ Hpc). pose proof (total_size_nonneg _ Hps).
  rewrite total_size_app in Hsum.
  change (total_size (c :: candidates)) with (me_file_size_bytes c + total_size candidates) in Hsum.
  rewrite pack_step by (done || lia). case_decide as Hfull.
  - destruct (IH [c]) as [Hp (rest & bins & Hh)]; [by constructor| |done|by right|].
    { rewrite total_size_app. unfold total_size at 1. simpl. lia. }
    split; [|by exists [], (pack target candidates [c] (total_size [c])); rewrite app_nil_r].
    simpl app in Hp.
    rewrite Hh in Hp |- *. by apply packed_cons.
  - replace (current ++ c :: candidates) with ((current ++ [c]) ++ candidates) in * by
      (by rewrite <- app_assoc).
    destruct (IH (current ++ [c])) as [Hp (rest & bins & Hh)]; [done| |by destruct current| |].
    + rewrite !total_size_app. unfold total_size at 2. simpl. lia.
    + left. rewrite total_size_app. unfold total_size at 2. simpl. lia.
    + split; [done|]. exists (c :: rest), bins. rewrite Hh. by rewrite <- app_assoc.
Qed.

(** C32: Bin packing loses and repeats no file, keeps their order, fills each bin up to the
    target, and a bin exceeds the target only when it is a single file. *)
Theorem binpack_packed (candidates : list ManifestEntry) (target : Z) :
  Forall (fun e => 0 ≤ me_file_size_bytes e) candidates → total_size candidates < 2 ^ 63 →
  packed target candidates (binpack candidates target).
Proof.
  intros Hpos Hsum. unfold binpack. destruct candidates as [|c candidates].
  { split; [done|constructor..|]. by intros i. }
  pose proof Hpos as [Hc Hps]%Forall_cons. pose proof (total_size_nonneg _ Hps).
  change (total_size (c :: candidates)) with (me_file_size_bytes c + total_size candidates) in Hsum.
  cbn [pack]. rewrite wrap_i64_small by lia. rewrite Z.add_0_l.
  replace (me_file_size_bytes c) with (total_size [c]) by (unfold total_size; simpl; lia).
  apply (pack_packed target candidates [c]); [done|done|done|by right].
Qed.

(** ** Rows *)

Lemma list_bind_bind {A B C} (f : A → list B) (g : B → list C) (l : list A) :
  (l ≫= f) ≫= g = l ≫= (fun x => f x ≫= g).
Proof. induction l as [|x l IH]; [done|]. by rewrite !bind_cons, bind_app, IH. Qed.

Section Rows.
Context (murmur3_32 : bytes → Z → Z) (date_of_ce datetime_of : Z → option (Z * Z))
  (float_text : float → string).
Context (sort_to_indices : list Z → list nat) (num_batch : RecordBatch → NumBatch)
  (written : RecordBatch → WriterOutput).
Context (io : DeleteIo) (fresh_id : nat → string)
  (hash_groups : gmap (gmap string string) (list ManifestEntry) → list (list ManifestEntry)).
Context (root_uri base_path : string).
Context (debug_avro : AvroCell → string) (eio : EqIo) (eqc : eq_cache)
  (cast : EqType → EqColumn → option EqColumn) (eq_columns : RecordBatch → string → option EqColumn)
  (schema : list SchemaField).
Notation stream_all := (stream_all io debug_avro eio eqc cast eq_columns).
Notation compact_reader := (compact_reader root_uri).
Notation query_reader := (query_reader root_uri).
Notation apply_clustering := (apply_clustering sort_to_indices num_batch).
Notation write_chunk := (write_chunk float_text sort_to_indices num_batch written fresh_id base_path).
Notation write_chunks := (write_chunks float_text sort_to_indices num_batch written fresh_id base_path).
Notation compact_bin := (compact_bin murmur3_32 date_of_ce datetime_of float_text sort_to_indices
  num_batch written io fresh_id root_uri base_path debug_avro eio eqc cast eq_columns).
Notation compact_bins := (compact_bins murmur3_32 date_of_ce datetime_of float_text sort_to_indices
  num_batch written io fresh_id root_uri base_path debug_avro eio eqc cast eq_columns).

(** Documented behaviour of Arrow: sorting gives a permutation of the row numbers, and the
    columns of a batch are as long as the batch. *)
Record arrow_lawful : Prop := {
  ar_sort : ∀ scores, sort_to_indices scores ≡ₚ seq 0 (length scores);
  ar_rows : ∀ b, nb_rows (num_batch b) = length (rb_rows b)
}.
Context (Harrow : arrow_lawful).

Lemma scores_length score b columns scores mins maxs :
  compute_scores score b columns = Ok (scores, mins, maxs) → length scores = nb_rows b.
Proof.
  unfold compute_scores. destruct columns as [|c columns].
  - intros [= <- _ _]. apply length_replicate.
  - generalize (64 / length (c :: columns))%nat as bits. intros bits.
    destruct (normalize_columns b bits (c :: columns)) as [[[norms mns] mxs]|]; cbn [mbind result_bind]; [|discriminate].
    intros Hs. apply (f_equal res_ok) in Hs. cbn [res_ok] in Hs. apply (inj Some) in Hs.
    apply (f_equal (fun x => x.1.1)) in Hs. cbn [fst] in Hs. rewrite <- Hs.
    by rewrite length_fmap, length_seq.
Qed.

Lemma scores_of_length o b scores mins maxs :
  scores_of num_batch o b = Some (Ok (scores, mins, maxs)) → length scores = length (rb_rows b).
Proof.
  rewrite <- (ar_rows Harrow). unfold scores_of.
  case_decide; [|case_decide; [|done]]; intros Hs; apply (inj Some) in Hs; exact (scores_length _ _ _ _ _ _ Hs).
Qed.

(** Clustering reorders a chunk. *)
Lemma apply_clustering_rows o b b' cl :
  apply_clustering o b = Ok (b', cl) → rb_rows b' ≡ₚ rb_rows b.
Proof.
  unfold apply_clustering. destruct o as [o|]; [|by intros [= <- _]].
  destruct (scores_of num_batch o b) as [[[[scores mins] maxs]|]|] eqn:Hs; [|done|by intros [= <- _]].
  intros [= <- _]. destruct (co_columns o); [done|]. simpl.
  rewrite (ar_sort Harrow), (scores_of_length _ _ _ _ _ Hs). by rewrite omap_lookup_all.
Qed.

(** Files written one after the other. *)
Definition put_batches (data : data_files) (es : list ManifestEntry) (bs : list RecordBatch) : data_files :=
  foldl (fun d x => <[x.1 := x.2]> d) data (zip (me_file_path <$> es) bs).

Lemma put_batches_other data es bs p :
  p ∉ me_file_path <$> es → put_batches data es bs !! p = data !! p.
Proof.
  unfold put_batches. revert data bs. induction es as [|e es IH]; intros data [|b bs] Hp; try done.
  csimpl in *. apply not_elem_of_cons in Hp as [Hne Hp]. rewrite IH by done.
  by rewrite lookup_insert_ne.
Qed.

Lemma put_batches_new data es bs :
  NoDup (me_file_path <$> es) → length es = length bs →
  Forall2 (fun e b => put_batches data es bs !! me_file_path e = Some b) es bs.
Proof.
  revert data bs. induction es as [|e es IH]; intros data [|b bs] Hnd Hlen; simplify_eq/=; [constructor|].
  csimpl in Hnd. apply NoDup_cons in Hnd as [Hn Hnd].
  change (put_batches data (e :: es) (b :: bs)) with (put_batches (<[me_file_path e := b]> data) es bs).
  constructor; [|by apply IH]. rewrite put_batches_other by done. apply lookup_insert_eq.
Qed.

Lemma put_batches_app data es bs es' bs' :
  length es = length bs →
  put_batches (put_batches data es bs) es' bs' = put_batches data (es ++ es') (bs ++ bs').
Proof.
  intros Hlen. unfold put_batches. by rewrite fmap_app, zip_with_app, foldl_app by (by rewrite length_fmap).
Qed.

Lemma write_chunks_spec opts spec chunks data n es data' n' :
  write_chunks opts spec chunks data n = Ok (es, data', n') →
  ∃ bs, data' = put_batches data es bs ∧ length es = length bs
    ∧ (bs ≫= rb_rows) ≡ₚ chunks ≫= (fun c => rb_rows c.2)
    ∧ Forall (fun e => me_delete_files e = []) es.
Proof.
  revert data n es. induction chunks as [|[pv b] chunks IH]; intros data n es; simpl.
  { intros [= <- <- _]. by exists []. }
  destruct (apply_clustering (clustering opts) b) as [[b' cl]|] eqn:Hc; [|done].
  cbn [mbind result_bind]. set (e := {| me_file_path := _ |}).
  destruct (write_chunks opts spec chunks _ _) as [[[es' data1] n1]|] eqn:Hw; [|done].
  cbn [mbind result_bind]. intros [= <- <- <-].
  apply IH in Hw as (bs & Hd & Hlen & Hrows & Hdel).
  exists (b' :: bs). split_and!; [by rewrite Hd|by simpl; rewrite Hlen| |by constructor].
  csimpl. by rewrite Hrows, (apply_clustering_rows _ _ _ _ Hc).
Qed.

Lemma concat_batches_rows batches b : concat_batches batches = Ok b → rb_rows b = batches ≫= rb_rows.
Proof.
  unfold concat_batches. destruct batches as [|b0 batches]; [done|].
  destruct (forallb _ _); [|done]. by intros [= <-].
Qed.

(** The rows compaction reads of an entry. *)
Definition compact_rows (data : data_files) (e : ManifestEntry) : list (list (option ArrowCell)) :=
  default [] (stream_all None data (compact_reader e)) ≫= rb_rows.

Lemma mapM_default {A B} (f : A → option (list B)) l bs :
  mapM f l = Some bs → concat bs = l ≫= fun x => default [] (f x).
Proof.
  revert bs. induction l as [|x l IH]; intros bs; simpl; [by intros [= <-]|].
  destruct (f x) as [y|]; [|done]. simpl. destruct (mapM f l) as [ys|]; [|done]. simpl.
  intros [= <-]. simpl. by rewrite (IH ys).
Qed.

Lemma mapM_all {A B} (f : A → option B) l :
  is_Some (mapM f l) ↔ ∀ x, x ∈ l → is_Some (f x).
Proof. rewrite mapM_is_Some. apply Forall_forall. Qed.

Lemma compact_bin_spec opts spec bin data n es ps data' n' :
  compact_bin opts spec bin data n = Ok (es, ps, data', n') →
  ∃ bs, data' = put_batches data es bs ∧ length es = length bs
    ∧ (bs ≫= rb_rows) ≡ₚ bin ≫= compact_rows data
    ∧ Forall (fun e => me_delete_files e = []) es ∧ ps = me_file_path <$> bin
    ∧ ∀ e, e ∈ bin → is_Some (stream_all None data (compact_reader e)).
Proof.
  unfold compact_bin. destruct bin as [|e0 bin0] eqn:Ebin; [done|]. rewrite <- Ebin. clear Ebin.
  destruct (mapM _ bin) as [batches|] eqn:Hb; cbn [mbind result_bind]; [|done].
  destruct (concat_batches _) as [merged|] eqn:Hm; cbn [mbind result_bind]; [|done].
  destruct (partition_batch _ _ _ spec merged) as [chunks|] eqn:Hp; cbn [mbind result_bind]; [|done].
  destruct (write_chunks opts spec chunks data n) as [[[es1 d1] n1]|] eqn:Hw;
    cbn [mbind result_bind]; [|done]. intros [= <- <- <- <-].
  apply write_chunks_spec in Hw as (bs & Hd & Hlen & Hrows & Hdel).
  exists bs. split_and!; [done|done| |done|done|by apply mapM_all].
  rewrite Hrows, (partition_batch_rows _ _ _ _ _ _ Hp), (concat_batches_rows _ _ Hm).
  unfold compact_rows. by rewrite (mapM_default _ _ _ Hb), list_bind_bind.
Qed.

(** Compaction reads an old file as it was, whatever new files have been written. *)
Lemma compact_rows_put data es bs e :
  resolve_object_path (compact_reader e) ∉ me_file_path <$> es →
  compact_rows (put_batches data es bs) e = compact_rows data e.
Proof. intros Hp. unfold compact_rows, stream_all. by rewrite put_batches_other. Qed.

Lemma stream_all_put sch data es bs r :
  resolve_object_path r ∉ me_file_path <$> es →
  stream_all sch (put_batches data es bs) r = stream_all sch data r.
Proof. intros Hp. unfold stream_all. by rewrite put_batches_other. Qed.

Lemma compact_bins_spec opts spec bins data n es ps data' n' :
  compact_bins opts spec bins data n = Ok (es, ps, data', n') →
  (∀ e, e ∈ concat bins → resolve_object_path (compact_reader e) ∉ me_file_path <$> es) →
  ∃ bs, data' = put_batches data es bs ∧ length es = length bs
    ∧ (bs ≫= rb_rows) ≡ₚ concat bins ≫= compact_rows data
    ∧ Forall (fun e => me_delete_files e = []) es ∧ ps = me_file_path <$> concat bins
    ∧ ∀ e, e ∈ concat bins → is_Some (stream_all None data (compact_reader e)).
Proof.
  revert data n es ps. induction bins as [|bin bins IH]; intros data n es ps; cbn [compact_bins].
  { intros [= <- <- <- <-] _. exists []. split_and!; try done. intros e He. by apply not_elem_of_nil in He. }
  destruct (compact_bin opts spec bin data n) as [[[[es1 ps1] d1] n1]|] eqn:Hb;
    cbn [mbind result_bind]; [|done].
  destruct (compact_bins opts spec bins d1 n1) as [[[[es2 ps2] d2] n2]|] eqn:Hbs;
    cbn [mbind result_bind]; [|done]. intros [= <- <- <- <-] Hold. simpl concat in Hold.
  apply compact_bin_spec in Hb as (bs1 & -> & Hl1 & Hr1 & Hd1 & -> & Hs1).
  apply IH in Hbs as (bs2 & -> & Hl2 & Hr2 & Hd2 & -> & Hs2).
  2: { intros e He Hin. apply (Hold e); [apply elem_of_app; by right|].
       rewrite fmap_app, elem_of_app. by right. }
  exists (bs1 ++ bs2). split_and!.
  - by apply put_batches_app.
  - rewrite !length_app. lia.
  - simpl concat. rewrite !bind_app, Hr1, Hr2. apply Permutation_app; [done|].
    apply Permutation_refl', Forall_bind_ext, Forall_forall. intros e He. apply compact_rows_put.
    intros Hin. apply (Hold e); [apply elem_of_app; by right|]. rewrite fmap_app, elem_of_app. by left.
  - by apply Forall_app.
  - by rewrite <- fmap_app.
  - intros e [He|He]%elem_of_app; [by apply Hs1|]. specialize (Hs2 e He).
    rewrite stream_all_put in Hs2; [done|]. intros Hin. apply (Hold e); [apply elem_of_app; by right|].
    rewrite fmap_app, elem_of_app. by left.
Qed.

(** ** The plan covers the candidates *)

Lemma binpack_concat candidates target : concat (binpack candidates target) = candidates.
Proof.
  unfold binpack. assert (∀ cur size, concat (pack target candidates cur size) = cur ++ candidates) as H;
    [|by apply (H [])].
  induction candidates as [|c candidates IH]; intros cur size; cbn [pack].
  - destruct cur; [done|]. simpl. by rewrite app_nil_r.
  - destruct cur as [|e cur]; [by rewrite IH|]. case_decide; simpl; rewrite IH; [done|].
    by rewrite <- (app_assoc (e :: cur) [c]).
Qed.

Lemma concat_perm {A} (l l' : list (list A)) : l ≡ₚ l' → concat l ≡ₚ concat l'.
Proof.
  induction 1 as [|x l l' _ IH|x y l|l1 l2 l3 _ IH1 _ IH2]; simpl; [done|by rewrite IH| |by rewrite IH1].
  solve_Permutation.
Qed.

Lemma group_step (m : gmap (gmap string string) (list ManifestEntry)) k c :
  concat (map_to_list (<[k := default [] (m !! k) ++ [c]]> m)).*2 ≡ₚ c :: concat (map_to_list m).*2.
Proof.
  destruct (m !! k) as [g|] eqn:Hk; simpl.
  - transitivity (c :: concat (g :: (map_to_list (delete k m)).*2)).
    + rewrite <- insert_delete_eq.
      rewrite (concat_perm _ ((g ++ [c]) :: (map_to_list (delete k m)).*2)).
      * simpl. rewrite <- app_assoc. solve_Permutation.
      * by rewrite (map_to_list_insert (delete k m)) by apply lookup_delete_eq.
    + f_equiv. apply concat_perm. by rewrite <- (map_to_list_delete m k g Hk).
  - rewrite (concat_perm _ ([c] :: (map_to_list m).*2)); [done|].
    by rewrite map_to_list_insert by done.
Qed.

Lemma group_candidates_perm candidates :
  concat (map_to_list (group_candidates float_text candidates)).*2 ≡ₚ candidates.
Proof.
  unfold group_candidates.
  assert (∀ m : gmap (gmap string string) (list ManifestEntry),
    concat (map_to_list (foldl (fun m c => <[group_key float_text c :=
      default [] (m !! group_key float_text c) ++ [c]]> m) m candidates)).*2
    ≡ₚ candidates ++ concat (map_to_list m).*2) as H.
  { induction candidates as [|c candidates IH]; intros m; [done|].
    cbn [foldl]. rewrite IH, group_step. solve_Permutation. }
  rewrite H, map_to_list_empty. by rewrite app_nil_r.
Qed.

Lemma plan_bins_perm opts candidates :
  (∀ m, hash_groups m ≡ₚ (map_to_list m).*2) →
  concat (plan_bins float_text hash_groups opts candidates) ≡ₚ candidates.
Proof.
  intros Hh. unfold plan_bins. destruct (allow_cross_partition opts); [by rewrite binpack_concat|].
  assert (∀ l t, concat (l ≫= fun g => binpack g t) = concat l) as ->.
  { intros l t. induction l as [|g l IH]; [done|]. rewrite bind_cons, concat_app, IH. simpl.
    by rewrite binpack_concat. }
  by rewrite (concat_perm _ _ (Hh _)), group_candidates_perm.
Qed.

(** ** The table after a compaction *)

Notation prepare := (prepare murmur3_32 date_of_ce datetime_of float_text sort_to_indices
  num_batch written io fresh_id hash_groups root_uri base_path debug_avro eio eqc cast eq_columns).
Notation rewrite_data_files := (rewrite_data_files murmur3_32 date_of_ce datetime_of float_text
  sort_to_indices num_batch written io fresh_id hash_groups root_uri base_path debug_avro eio eqc cast eq_columns).
Notation query_rows := (query_rows io root_uri debug_avro eio eqc cast eq_columns schema).

(** The batches and rows a query sees of an entry. *)
Notation entry_stream data e := (stream_all (Some schema) data (query_reader e)).
Definition entry_rows (data : data_files) (e : ManifestEntry) : list (list (option ArrowCell)) :=
  default [] (entry_stream data e) ≫= rb_rows.

Lemma query_rows_inv data s rows :
  query_rows data s = Some rows →
  (∀ e, e ∈ loaded s → is_Some (entry_stream data e)) ∧ rows = loaded s ≫= entry_rows data.
Proof.
  unfold query_rows. destruct (mapM _ (loaded s)) as [bs|] eqn:Hb; [|done]. simpl. intros [= <-].
  split; [by apply mapM_all|]. rewrite (mapM_default _ _ _ Hb). by rewrite list_bind_bind.
Qed.

Lemma query_rows_perm data s l :
  loaded s ≡ₚ l → (∀ e, e ∈ l → is_Some (entry_stream data e)) →
  ∃ rows, query_rows data s = Some rows ∧ rows ≡ₚ l ≫= entry_rows data.
Proof.
  intros Hl Hs. unfold query_rows.
  destruct (proj2 (mapM_all (fun e => entry_stream data e) (loaded s))) as [bs Hb].
  { intros e He. apply Hs. by rewrite <- Hl. }
  rewrite Hb. eexists. split; [done|]. rewrite (mapM_default _ _ _ Hb), list_bind_bind.
  fold (entry_rows data). by rewrite Hl.
Qed.

(** Without equality delete files nothing is loaded. *)
Lemma load_no_equality r sch :
  existsb is_equality (unique_delete_files r) = false →
  (load_equality_deletes debug_avro eio eqc r sch).1 = Some [].
Proof. intros He. unfold load_equality_deletes. by rewrite He. Qed.

(** Without a schema, and nothing cached, only then does the load succeed. *)
Lemma load_no_schema r l :
  (k ← merged_deletes_cache_key r; eqc !! k) = None →
  (load_equality_deletes debug_avro eio eqc r None).1 = Some l →
  existsb is_equality (unique_delete_files r) = false ∧ l = [].
Proof.
  intros Hcold. unfold load_equality_deletes.
  destruct (existsb is_equality (unique_delete_files r)) eqn:He; simpl; [|by intros [= <-]].
  rewrite Hcold. assert (read_all debug_avro eio (hr_root_uri r) None (unique_delete_files r) = None) as ->;
    [|done].
  revert He. generalize (unique_delete_files r) as files. induction files as [|d files IH]; [done|].
  simpl. unfold is_equality at 1. by destruct (df_content d).
Qed.

Lemma stream_rows sch data r b :
  data !! resolve_object_path r = Some b → existsb is_equality (unique_delete_files r) = false →
  is_Some (stream_all sch data r) ∧
  default [] (stream_all sch data r) ≫= rb_rows = visible (all_deletes io r) (rb_rows b).
Proof.
  intros Hb He. unfold stream_all. rewrite Hb, load_no_equality by done. simpl.
  destruct (visible _ _); [by split|]. split; [done|]. csimpl. by rewrite app_nil_r.
Qed.

(** *** Both readers see the same file *)

(** A path below the root: no scheme, no slash at either end, and not under the root's own name. *)
Definition relative (p : string) : Prop :=
  let root_local := trim_end slash (strip_file root_uri) in
  str_contains "://" p = false ∧ strip_file p = p ∧ trim_start slash p = p ∧ trim_end slash p = p
  ∧ (root_local ≠ EmptyString → strip_prefix root_local p = None).
(** The path of a segment: a directory and the name of a Parquet file. *)
Definition segment_path (p : string) : Prop :=
  relative p ∧ relative (parent_path p) ∧ p = under (parent_path p) (file_stem p +:+ ".parquet").
(** Delete files name a file of the table's root by its whole name: [a.parquet] is not taken
    for [data.parquet]. *)
Definition unambiguous (e : ManifestEntry) : Prop :=
  Forall (fun d => map_Forall (fun fp _ =>
      path_matches fp ("/" +:+ me_file_path e) = path_matches fp (me_file_path e))
    (default ∅ (parse_deletes io (resolve_delete_path root_uri (df_file_path d))))) (me_delete_files e).

Lemma relative_rel p :
  relative p →
  match strip_prefix (trim_end slash (strip_file root_uri)) (trim_end slash (strip_file p)) with
  | Some rest => if decide (trim_end slash (strip_file root_uri) = EmptyString)
                 then trim_start slash (trim_end slash (strip_file p)) else trim_start slash rest
  | None => trim_start slash (trim_end slash (strip_file p))
  end = p.
Proof.
  intros (_ & Hf & Hs & He & Hr). rewrite Hf, He.
  case_decide as Hroot; [by destruct (strip_prefix _ _)|]. by rewrite Hr.
Qed.

Lemma query_path e : segment_path (me_file_path e) → resolve_object_path (query_reader e) = me_file_path e.
Proof. intros (Hp%relative_rel & _). exact Hp. Qed.

Lemma compact_path e :
  segment_path (me_file_path e) → resolve_object_path (compact_reader e) = me_file_path e.
Proof.
  intros (_ & Hd%relative_rel & Hu). unfold resolve_object_path, resolve_path, compact_reader.
  cbn [hr_config hr_root_uri sc_parquet_path sc_base_path sc_segment_id]. rewrite Hd.
  rewrite decide_False by (by destruct (file_stem (me_file_path e))). symmetry. exact Hu.
Qed.

Lemma filter_map_same m p q :
  map_Forall (fun fp _ => path_matches fp p = path_matches fp q) m →
  filter_map_to_bitmap m p = filter_map_to_bitmap m q.
Proof.
  intros Hm. apply set_eq. intros x. rewrite !elem_of_filter_map.
  split; intros (Hx & fp & ps & Hl & Hp & Hin); (split; [done|]); exists fp, ps; split_and!; try done;
    by rewrite <- Hp, (Hm fp ps Hl).
Qed.

Lemma same_deletes e :
  segment_path (me_file_path e) → unambiguous e →
  all_deletes io (compact_reader e) = all_deletes io (query_reader e).
Proof.
  intros (Hp & _ & Hu) Hun. unfold all_deletes. f_equal. apply list_fmap_ext. intros i d Hd.
  unfold unambiguous in Hun. rewrite Forall_lookup in Hun. specialize (Hun i d Hd).
  unfold deletes_of. destruct (df_content d); [|done|done]. cbn [hr_root_uri compact_reader query_reader].
  destruct (_ || _); [|done]. destruct Hp as (_ & Hf & _).
  unfold target_path at 2. cbn [query_reader hr_config sc_parquet_path]. rewrite Hf.
  unfold target_path. cbn [compact_reader hr_config sc_parquet_path sc_base_path sc_segment_id].
  unfold under in Hu. case_decide as Hpar; [|by rewrite <- Hu, Hf].
  rewrite Hpar. change ("" +:+ "/" +:+ ?s) with ("/" +:+ s). rewrite <- Hu. by apply filter_map_same.
Qed.

(** What a compaction may rely on when it commits: the files it read are still there with the
    deletes it applied, paths are those of segments, the names it chose are new; the delete
    files of the partitions of the new files are position delete files in which no recorded
    path ends with the name of a new file or is an end of it; and the cache of equality
    deletes has no entry for a file it reads. *)
Record undisturbed (cands news : list ManifestEntry) (now : Snapshot) : Prop := {
  un_keyed : keyed (sn_entries now);
  un_cands : ∃ rest, loaded now ≡ₚ cands ++ rest;
  un_paths : Forall (fun e => segment_path (me_file_path e)) (loaded now ++ news);
  un_deletes : Forall unambiguous cands;
  un_fresh : NoDup (me_file_path <$> news);
  un_new : ∀ e e', e ∈ loaded now → e' ∈ news → me_file_path e' ≠ me_file_path e;
  un_pending : ∀ e d, e ∈ news → d ∈ sn_deletes now →
    me_partition_values e = df_partition_values d →
    df_content d = Position ∧
    let path := resolve_delete_path root_uri (df_file_path d) in
    ends_with ".parquet" path || ends_with ".avro" path = true ∧
    ∀ fp p, lists_position io path fp p →
      ends_with (strip_file fp) (me_file_path e) = false ∧
      ends_with (me_file_path e) (strip_file fp) = false;
  un_cold : ∀ e, e ∈ cands → (k ← merged_deletes_cache_key (compact_reader e); eqc !! k) = None
}.

Lemma un_loaded_path cands news now e :
  undisturbed cands news now → e ∈ loaded now → segment_path (me_file_path e).
Proof. intros [_ _ [Hl _]%Forall_app _ _ _ _ _]. rewrite Forall_forall in Hl. apply Hl. Qed.

Lemma un_new_path cands news now e :
  undisturbed cands news now → e ∈ news → segment_path (me_file_path e).
Proof. intros [_ _ [_ Hl]%Forall_app _ _ _ _ _]. rewrite Forall_forall in Hl. apply Hl. Qed.

Lemma un_cand_loaded cands news now e : undisturbed cands news now → e ∈ cands → e ∈ loaded now.
Proof. intros [_ [rest ->] _ _ _ _ _ _] He. apply elem_of_app. by left. Qed.

(** Compaction reads of a file what a query reads of it. *)
Lemma compact_query_stream cands news now data e :
  undisturbed cands news now → e ∈ cands → is_Some (stream_all None data (compact_reader e)) →
  stream_all None data (compact_reader e) = entry_stream data e.
Proof.
  intros Hun He. pose proof (un_loaded_path _ _ _ e Hun (un_cand_loaded _ _ _ _ Hun He)) as Hp.
  pose proof (un_deletes _ _ _ Hun) as Hd. rewrite Forall_forall in Hd. specialize (Hd e He).
  unfold stream_all. rewrite compact_path, query_path, same_deletes by done.
  destruct (data !! me_file_path e) as [b|]; [|done].
  destruct (load_equality_deletes _ _ _ (compact_reader e) None).1 as [l|] eqn:Hl; [|by intros []].
  destruct (load_no_schema _ _ (un_cold _ _ _ Hun e He) Hl) as [Hno ->].
  by rewrite (load_no_equality (query_reader e) (Some schema)).
Qed.

(** The entries as they are loaded. *)
Notation attached now := (fun e => attach_deletes (sn_deletes now) (with_delete_files e [])).

(** No pending delete concerns a new file. *)
Lemma attached_clean cands news now e :
  undisturbed cands news now → e ∈ news →
  all_deletes io (query_reader (attached now e)) = ∅ ∧
  existsb is_equality (unique_delete_files (query_reader (attached now e))) = false.
Proof.
  intros Hun He. pose proof (un_pending _ _ _ Hun e) as Hpend.
  assert (∀ d, d ∈ sc_delete_files (hr_config (query_reader (attached now e))) →
    d ∈ sn_deletes now ∧ me_partition_values e = df_partition_values d) as Hin.
  { intros d. cbn. rewrite list_elem_of_filter. tauto. }
  split.
  - apply elem_of_equiv_empty_L. intros p. unfold all_deletes. rewrite elem_of_unions.
    intros (d & Hd & Hp). apply Hin in Hd as [Hd Hpv]. destruct (Hpend d He Hd Hpv) as (Hc & Hext & Hpaths).
    unfold deletes_of in Hp. rewrite Hc in Hp. cbv zeta in Hp.
    cbn [hr_root_uri query_reader] in Hp. cbv zeta in Hext, Hpaths.
    rewrite Hext in Hp. apply elem_of_filter_map in Hp as (_ & fp & ps & Hm & Hmatch & Hps).
    destruct (parse_deletes io _) as [m|] eqn:Hparse; [|done]. simpl in Hm.
    assert (lists_position io (resolve_delete_path root_uri (df_file_path d)) fp p) as Hl.
    { rewrite <- (parse_deletes_spec _ _ _ _ _ Hparse), Hm. done. }
    destruct (Hpaths fp p Hl) as [H1 H2].
    destruct (un_new_path _ _ _ e Hun He) as ((_ & Hf & _) & _).
    change (path_matches fp (strip_file (me_file_path e)) = true) in Hmatch.
    unfold path_matches in Hmatch. rewrite !Hf, H1, H2, !orb_false_r in Hmatch.
    apply bool_decide_eq_true in Hmatch. rewrite Hmatch in H1.
    assert (ends_with (me_file_path e) (me_file_path e) = true) as Hself
      by exact (ends_with_app (me_file_path e) ""). congruence.
  - apply existsb_false. intros d Hd. apply (proj1 (unique_from_spec ∅ _)), Hin in Hd as [Hd Hpv].
    destruct (Hpend d He Hd Hpv) as (Hc & _). unfold is_equality. by rewrite Hc.
Qed.

(** The rows of new files are what was written. *)
Lemma new_rows cands news now data bs :
  undisturbed cands news now → length news = length bs →
  (∀ e, e ∈ attached now <$> news → is_Some (entry_stream (put_batches data news bs) e)) ∧
  (attached now <$> news) ≫= entry_rows (put_batches data news bs) = bs ≫= rb_rows.
Proof.
  intros Hun Hlen. pose proof (put_batches_new data news bs (un_fresh _ _ _ Hun) Hlen) as Hput.
  assert (∀ e b, e ∈ news → put_batches data news bs !! me_file_path e = Some b →
    is_Some (entry_stream (put_batches data news bs) (attached now e)) ∧
    entry_rows (put_batches data news bs) (attached now e) = rb_rows b) as Hone.
  { intros e b He Hb. destruct (attached_clean _ _ _ e Hun He) as [Hall Heq].
    destruct (stream_rows (Some schema) (put_batches data news bs) (query_reader (attached now e)) b)
      as [H1 H2]; [|done|].
    - rewrite query_path; [exact Hb|]. exact (un_new_path _ _ _ e Hun He).
    - split; [done|]. unfold entry_rows. rewrite H2, Hall. apply visible_empty. }
  split.
  - intros e (e0 & -> & He0)%list_elem_of_fmap. pose proof He0 as [i Hi]%list_elem_of_lookup.
    destruct (Forall2_lookup_l _ _ _ _ _ Hput Hi) as (b & _ & Hb). by apply (Hone e0 b).
  - rewrite list_fmap_bind. assert (∀ l bs', (∀ e, e ∈ l → e ∈ news) →
      Forall2 (fun e b => put_batches data news bs !! me_file_path e = Some b) l bs' →
      l ≫= (entry_rows (put_batches data news bs) ∘ attached now) = bs' ≫= rb_rows) as Hl;
      [|by apply Hl].
    intros l bs' Hin Hf. induction Hf as [|e b l bs' Hb _ IH]; [done|].
    rewrite !bind_cons, IH by (intros; apply Hin; by right). f_equal.
    apply (Hone e b); [apply Hin; left|done].
Qed.

(** The commit that replaces some of the entries. *)
Lemma replace_loaded (olds rest news : list ManifestEntry) now :
  keyed (sn_entries now) → loaded now ≡ₚ olds ++ rest → NoDup (me_file_path <$> news) →
  (∀ e e', e ∈ loaded now → e' ∈ news → me_file_path e' ≠ me_file_path e) →
  Forall (fun e => me_delete_files e = []) news →
  ∃ s', commit_snapshot compaction_commit news (me_file_path <$> olds) now = Some s'
    ∧ loaded s' ≡ₚ (attached now <$> news) ++ rest.
Proof.
  intros Hk Hl Hnd Hnew Hdel.
  assert (∀ s, loaded s = attached s <$> (map_to_list (sn_entries s)).*2) as Hlo
    by (intros s; unfold loaded; by rewrite <- list_fmap_compose).
  rewrite Hlo in Hl. symmetry in Hl. apply Permutation_map_inv in Hl as (l & Hll & Hp).
  symmetry in Hll. apply fmap_app_inv in Hll as (o0 & r0 & -> & -> & ->).
  destruct (commit_replaces compaction_commit now o0 r0 news) as (s' & Hc & Hv & Hd); [done..| |].
  { intros e He (e' & Heq & He')%list_elem_of_fmap. apply (Hnew (attached now e') e); [|done|done].
    rewrite Hlo. apply (list_elem_of_fmap_2 (attached now)). rewrite Hp, elem_of_app. by right. }
  exists s'. split; [by rewrite <- list_fmap_compose|].
  assert (news ≫= me_delete_files = []) as Hnd'.
  { clear -Hdel. induction Hdel as [|e news He _ IH]; [done|]. by rewrite bind_cons, He, IH. }
  assert (sn_deletes s' = sn_deletes now) as Hds by (rewrite Hd; unfold collect_deletes; by rewrite Hnd').
  by rewrite Hlo, Hds, Hv, fmap_app.
Qed.

(** C12: If a query of the table succeeds, the preparation of a compaction succeeds, and the
    table is [undisturbed] when it commits, the commit succeeds and a query then returns the
    same rows: deleted rows are dropped for good, each once.  [undisturbed] asks that the files compaction read are still
    listed with the same deletes (other files may have been added), that paths are
    relative Parquet paths and the new names are new, that the pending delete files of the
    new files' partitions are position delete files that record no path ending with, or
    an end of, a new name, and that no equality deletes are cached for the files
    compaction reads (loading them otherwise fails, see [equality_delete_aborts]).
    Deletes that arrive meanwhile are lost and a pending deletion vector hits the new
    file again: [compaction_changes_rows]. *)
Theorem compaction_preserves_rows opts spec all_entries data n news olds data' n' now before :
  (∀ m, hash_groups m ≡ₚ (map_to_list m).*2) →
  prepare opts spec all_entries data n = Ok (news, olds, data', n') →
  undisturbed (filter (is_candidate opts) all_entries) news now →
  query_rows data now = Some before →
  ∃ s' after, rewrite_data_files opts spec all_entries data n now = Ok (data', s')
    ∧ query_rows data' s' = Some after ∧ after ≡ₚ before.
Proof.
  intros Hh Hprep Hun Hq. set (cands := filter (is_candidate opts) all_entries) in *.
  pose proof (plan_bins_perm opts cands Hh) as Hplan.
  destruct (un_cands _ _ _ Hun) as [rest Hrest].
  destruct (query_rows_inv _ _ _ Hq) as [Hsome ->].
  pose proof Hprep as Hp. unfold prepare in Hp. fold cands in Hp.
  apply compact_bins_spec in Hp as (bs & -> & Hlen & Hrows & Hdel & -> & Hstream).
  2: { intros e He (e' & Heq & He')%list_elem_of_fmap. rewrite Hplan in He.
       pose proof (un_cand_loaded _ _ _ _ Hun He) as Hl. apply (un_new _ _ _ Hun e e' Hl He').
       by rewrite <- Heq, compact_path by (by eapply un_loaded_path). }
  set (bins := plan_bins float_text hash_groups opts cands) in *.
  unfold rewrite_data_files. rewrite Hprep. cbn [mbind result_bind].
  destruct news as [|e0 news0] eqn:En; [by exists now, (loaded now ≫= entry_rows data)|].
  rewrite <- En in *. clear En e0 news0.
  destruct (replace_loaded (concat bins) rest news now) as (s' & Hc & Hl).
  - apply (un_keyed _ _ _ Hun).
  - by rewrite Hrest, Hplan.
  - apply (un_fresh _ _ _ Hun).
  - intros e e' He He'. by apply (un_new _ _ _ Hun).
  - done.
  - assert (∀ e, e ∈ rest → entry_stream (put_batches data news bs) e = entry_stream data e) as Hkeep.
    { intros e He. assert (e ∈ loaded now) as Hlo by (rewrite Hrest, elem_of_app; by right).
      apply stream_all_put. intros (e' & Heq & He')%list_elem_of_fmap.
      apply (un_new _ _ _ Hun e e' Hlo He'). by rewrite <- Heq, query_path by (by eapply un_loaded_path). }
    destruct (new_rows cands news now data bs Hun Hlen) as [Hnews Hnr].
    destruct (query_rows_perm (put_batches data news bs) s' _ Hl) as (after & Hafter & Hperm).
    { intros e [He|He]%elem_of_app; [by apply Hnews|]. rewrite Hkeep by done. apply Hsome.
      rewrite Hrest, elem_of_app. by right. }
    exists s', after. rewrite Hc. split_and!; [by destruct news|done|].
    rewrite Hperm, bind_app, Hnr, Hrows, Hrest, bind_app, Hplan.
    apply Permutation_app; apply Permutation_refl', Forall_bind_ext, Forall_forall.
    + intros e He. unfold compact_rows, entry_rows. rewrite (compact_query_stream cands news now); [done..|].
      apply Hstream. by rewrite Hplan.
    + intros e He. unfold entry_rows. by rewrite Hkeep.
Qed.

(** If one of the files a compaction read is gone when it commits, the whole compaction is
    discarded and the table stays as it is. *)
Theorem compaction_discarded opts spec all_entries data n news olds data' n' now p :
  prepare opts spec all_entries data n = Ok (news, olds, data', n') →
  p ∈ olds → sn_entries now !! p = None →
  rewrite_data_files opts spec all_entries data n now = Ok (data', now).
Proof.
  intros Hprep Hp Hnone. unfold rewrite_data_files. rewrite Hprep. cbn [mbind result_bind].
  assert (commit_snapshot compaction_commit news olds now = Some now) as ->; [|by destruct news].
  unfold commit_snapshot. assert (discards compaction_commit (sn_entries now) olds = true) as ->; [|done].
  unfold discards. cbn [discard_add_on_missing_remove compaction_commit andb].
  apply existsb_exists. exists p. by rewrite <- list_elem_of_In, bool_decide_eq_true.
Qed.

(** A bin of files with one schema whose deletes load and that still holds a row can always
    be written. *)
Lemma compact_bin_total opts spec bin data n fields :
  ps_fields spec = [] → clustering opts = None →
  (∀ e b, e ∈ bin → data !! resolve_object_path (compact_reader e) = Some b → rb_fields b = fields) →
  (∀ e, e ∈ bin → is_Some (stream_all None data (compact_reader e))) →
  (∃ e, e ∈ bin ∧ default [] (stream_all None data (compact_reader e)) ≠ []) →
  ∃ e b, compact_bin opts spec bin data n =
    Ok ([e], me_file_path <$> bin, <[me_file_path e := b]> data, S n)
    ∧ me_file_path e = under (remote_prefix base_path EmptyString) (segment_file fresh_id n).
Proof.
  intros Hspec Hcl Hfields Hload (e0 & He0 & Hs0). unfold compact_bin.
  destruct bin as [|e1 bin1] eqn:Ebin; [by apply not_elem_of_nil in He0|]. rewrite <- Ebin in *. clear Ebin.
  apply mapM_all in Hload as [batches Hb0]. rewrite Hb0. cbn [mbind result_bind].
  rewrite (mapM_default _ _ _ Hb0). clear Hb0 batches.
  set (read := fun e => default [] (stream_all None data (compact_reader e))) in *.
  assert (∃ merged, concat_batches (bin ≫= read) = Ok merged) as [m ->].
  { unfold concat_batches. destruct (bin ≫= read) as [|b bs] eqn:Eb.
    - exfalso. change (read e0 ≠ []) in Hs0. destruct (read e0) as [|b bs] eqn:Es; [done|].
      assert (b ∈ bin ≫= read) as Hb.
      { apply list_elem_of_bind. exists e0. rewrite Es. split; [left|done]. }
      rewrite Eb in Hb. by apply not_elem_of_nil in Hb.
    - assert (∀ c, c ∈ b :: bs → rb_fields c = fields) as Hall.
      { intros c Hc. rewrite <- Eb in Hc. apply list_elem_of_bind in Hc as (e & Hc & He).
        unfold read, stream_all in Hc.
        destruct (data !! _) as [b'|] eqn:Hb'; [|by apply not_elem_of_nil in Hc].
        destruct (load_equality_deletes _ _ _ _ _).1; [|by apply not_elem_of_nil in Hc]. simpl in Hc.
        destruct (visible _ _); [by apply not_elem_of_nil in Hc|].
        apply list_elem_of_singleton in Hc as ->. cbn [rb_fields]. by apply (Hfields e b'). }
      rewrite (proj2 (forallb_forall _ _)); [by eexists|]. intros c Hc%list_elem_of_In.
      unfold fields_eqb. rewrite bool_decide_eq_true, (Hall c Hc), (Hall b); [done|left]. }
  cbn [mbind result_bind]. unfold partition_batch. rewrite Hspec. cbn [mbind result_bind write_chunks].
  unfold write_chunk, apply_clustering. rewrite Hcl. cbn [mbind result_bind].
  eexists _, m. split; [reflexivity|]. cbn [me_file_path]. do 2 f_equal.
  unfold partition_to_path. by rewrite Hspec.
Qed.

(** Compaction of an unpartitioned table without clustering always gets to its commit when
    the files have one schema, their deletes load and every planned bin holds at least one live
    row. *)
Theorem compaction_prepares opts spec all_entries data n fields :
  ps_fields spec = [] → clustering opts = None →
  (∀ m, hash_groups m ≡ₚ (map_to_list m).*2) →
  let cands := filter (is_candidate opts) all_entries in
  (∀ e b, e ∈ cands → data !! resolve_object_path (compact_reader e) = Some b → rb_fields b = fields) →
  (∀ e k, e ∈ cands → resolve_object_path (compact_reader e) ≠
     under (remote_prefix base_path EmptyString) (segment_file fresh_id k)) →
  (∀ e, e ∈ cands → is_Some (stream_all None data (compact_reader e))) →
  (∀ bin, bin ∈ plan_bins float_text hash_groups opts cands →
     ∃ e, e ∈ bin ∧ default [] (stream_all None data (compact_reader e)) ≠ []) →
  is_ok (prepare opts spec all_entries data n) = true.
Proof.
  intros Hspec Hcl Hh cands Hfields Hnames Hload Hlive. unfold prepare. fold cands.
  set (bins := plan_bins float_text hash_groups opts cands) in *.
  assert (∀ bin e, bin ∈ bins → e ∈ bin → e ∈ cands) as Hin.
  { intros bin e Hb He. rewrite <- (plan_bins_perm opts cands Hh). apply list_elem_of_In, in_concat.
    exists bin. by rewrite <- !list_elem_of_In. }
  assert (∀ bs d k, (∀ bin, bin ∈ bs → bin ∈ bins) →
    (∀ e, e ∈ cands → d !! resolve_object_path (compact_reader e) =
                      data !! resolve_object_path (compact_reader e)) →
    is_ok (compact_bins opts spec bs d k) = true) as Hgen; [|by apply Hgen].
  induction bs as [|bin bs IH]; intros d k Hbs Hd; [done|]. cbn [compact_bins].
  assert (bin ∈ bins) as Hbin by (apply Hbs; left).
  destruct (compact_bin_total opts spec bin d k fields) as (e & b & -> & He); [done|done|..].
  - intros e b He Hb. rewrite Hd in Hb by (by apply (Hin bin)). eapply Hfields; [|done]. by apply (Hin bin).
  - intros e He. assert (e ∈ cands) as Hec by (by apply (Hin bin)). specialize (Hload e Hec).
    unfold stream_all in *. by rewrite Hd by done.
  - destruct (Hlive bin Hbin) as (e & He & Hs). exists e. split; [done|].
    unfold stream_all in *. by rewrite Hd by (by apply (Hin bin)).
  - cbn [mbind result_bind]. specialize (IH (<[me_file_path e := b]> d) (S k)).
    destruct (compact_bins opts spec bs _ _) as [[[[es ps] d'] k']|]; [done|]. apply IH.
    + intros bin' Hb'. apply Hbs. by right.
    + intros e' He'. rewrite lookup_insert_ne; [by apply Hd|]. rewrite He. by apply not_eq_sym, Hnames.
Qed.
End Rows.

(** ** Small tables *)

Module CompactionExamples.

Definition murmur (b : bytes) (seed : Z) : Z := 0.
Definition no_date (z : Z) : option (Z * Z) := None.
Definition text (f : float) : string := "0.0".
(** Sorting by insertion, and batches whose columns are 64-bit integers. *)
Definition by_score (a b : Z * nat) : Prop := a.1 ≤ b.1.
#[local] Instance by_score_dec : RelDecision by_score.
Proof. intros a b. unfold by_score. apply _. Defined.
Definition sort_by (scores : list Z) : list nat :=
  (merge_sort by_score (zip scores (seq 0 (length scores)))).*2.
Definition columns (b : RecordBatch) : NumBatch :=
  {| nb_columns := imap (fun i f => (fd_name f, NInt64 ((fun row =>
       match default None (row !! i) with Some (AInt64 z) => Some z | _ => None end) <$> rb_rows b)))
       (rb_fields b);
     nb_rows := length (rb_rows b) |}.
Definition out (b : RecordBatch) : WriterOutput :=
  {| wo_size := 10; wo_checksum := None; wo_indexes := []; wo_stats := ∅ |}.
Definition new_id (n : nat) : string := pretty (N.of_nat n).
Definition groups (m : gmap (gmap string string) (list ManifestEntry)) : list (list ManifestEntry) :=
  (map_to_list m).*2.
Definition root : string := "file:///t".

Lemma lawful : arrow_lawful sort_by columns.
Proof.
  split; [|done]. intros scores. unfold sort_by. rewrite merge_sort_Permutation.
  by rewrite snd_zip by (by rewrite length_seq).
Qed.

(** A store in which one position delete file deletes the first row of a.parquet, and one
    Puffin file holds a deletion vector with position 0. *)
Definition del_batch : DelBatch :=
  {| db_columns := {[ "file_path" := StringColumn ["file:///t/a.parquet"]; "pos" := Int64Column [0] ]};
     db_num_rows := 1 |}.
Definition store : DeleteIo :=
  {| io_get := fun _ => Some []; io_get_range := fun _ _ _ => Some [];
     io_avro := fun _ => None; io_parquet := fun _ => Some [del_batch];
     io_bitmap := fun _ => Some {[0]} |}.
Definition pos_file : DeleteFile :=
  {| df_file_path := "file:///t/del.parquet"; df_content := Position; df_file_size_bytes := 1;
     df_record_count := 1; df_partition_values := ∅ |}.
Definition vector_file : DeleteFile :=
  {| df_file_path := "dv.puffin"; df_content := DeletionVector "dv.puffin" 4 32;
     df_file_size_bytes := 1; df_record_count := 1; df_partition_values := ∅ |}.

Definition rows (l : list Z) : RecordBatch :=
  {| rb_fields := [{| fd_name := "id"; fd_iceberg_id := None |}];
     rb_rows := (fun z => [Some (AInt64 z)]) <$> l |}.
Definition files : data_files := {[ "a.parquet" := rows [1; 2]; "b.parquet" := rows [3] ]}.
Definition table (deletes : list DeleteFile) : Snapshot :=
  {| sn_entries := {[ "a.parquet" := ManifestEntry_default "a.parquet";
                      "b.parquet" := ManifestEntry_default "b.parquet" ]};
     sn_deletes := deletes |}.
Definition spec : PartitionSpec := {| ps_spec_id := 0; ps_fields := [] |}.

Definition opts : CompactionOptions := CompactionOptions_default.
(** Equality delete files: one that deletes the id 3. *)
Definition eq_file : DeleteFile :=
  {| df_file_path := "eq.avro"; df_content := Equality [1]; df_file_size_bytes := 1;
     df_record_count := 1; df_partition_values := ∅ |}.
Definition eq_store : EqIo :=
  {| eio_get := fun _ => Some []; eio_avro := fun _ => Some [[("id", AvcLong 3)]];
     eio_parquet := fun _ => None |}.
Definition schema : list SchemaField :=
  [{| sf_id := 1; sf_name := "id"; sf_type_str := "long"; sf_required := false; sf_nested := EmptyString;
      sf_initial_default := None; sf_write_default := None; sf_indexes := [] |}].
Definition show (v : AvroCell) : string := "?".
Definition same_type (t : EqType) (c : EqColumn) : option EqColumn := Some c.
Definition id_column (b : RecordBatch) (name : string) : option EqColumn :=
  if decide (name = "id") then
    Some {| ec_type := TInt64;
            ec_cells := (fun row => match row with [Some (AInt64 z)] => Some (CInt z) | _ => None end)
                          <$> rb_rows b |}
  else None.
Abbreviation prepared := (prepare murmur no_date no_date text sort_by columns out store new_id groups root EmptyString
  show eq_store ∅ same_type id_column).
Abbreviation compacted := (rewrite_data_files murmur no_date no_date text sort_by columns out store new_id groups root
  EmptyString show eq_store ∅ same_type id_column).
Abbreviation query := (query_rows store root show eq_store ∅ same_type id_column schema).
Definition ids (l : option (list (list (option ArrowCell)))) : option (list Z) :=
  option_map (omap (M:=list) (fun row => match row with [Some (AInt64 z)] => Some z | _ => None end)) l.
Definition after (r : result cerr (data_files * Snapshot)) : option (list Z) :=
  match r with Ok (d, s) => ids (query d s) | Err _ => None end.

Example compacts :
  ids (query files (table [pos_file])) = Some [2; 3]
  ∧ after (compacted opts spec (loaded (table [pos_file])) files 0 (table [pos_file])) = Some [2; 3].
Proof. vm_compute. done. Qed.

Definition before : Snapshot := table [pos_file].
Definition prepared_files := prepared opts spec (loaded before) files 0.
Definition news : list ManifestEntry :=
  match prepared_files with Ok (es, _, _, _) => es | Err _ => [] end.
Definition files' : data_files := match prepared_files with Ok (_, _, d, _) => d | Err _ => ∅ end.

#[local] Ltac decided := apply (bool_decide_unpack _); vm_compute; exact I.

Lemma store_lists path fp p : lists_position store path fp p → fp = "file:///t/a.parquet".
Proof.
  intros (b & _ & Hl). destruct (ends_with ".avro" path); [by destruct Hl as (? & ? & ? & _)|].
  destruct Hl as (bs & bt & fps & poss & i & [= <-] & ->%list_elem_of_singleton & Hf & Hp & Hi & H1 & H2).
  vm_compute in Hf. simplify_eq. destruct i as [|i]; by simplify_eq/=.
Qed.

Lemma quiet_table :
  undisturbed store root ∅ (filter (is_candidate opts) (loaded before)) news before.
Proof.
  split.
  - change (map_Forall (fun p e => me_file_path e = p) (sn_entries before)). decided.
  - exists []. by vm_compute.
  - decided.
  - decided.
  - decided.
  - intros e e' He. revert e'. apply Forall_forall. revert e He. apply Forall_forall. decided.
  - intros e d He ->%list_elem_of_singleton _. split; [done|]. split; [vm_compute; reflexivity|].
    intros fp p ->%store_lists. assert (me_file_path e = "compacted_0.parquet") as ->.
    { revert e He. apply Forall_forall. decided. }
    split; vm_compute; reflexivity.
  - intros e He. by destruct (merged_deletes_cache_key _).
Qed.

Lemma compaction_preserves_rows_witness :
  prepared opts spec (loaded before) files 0 = Ok (news, ["a.parquet"; "b.parquet"], files', 1%nat)
  ∧ ∃ rows s' rows', query files before = Some rows
      ∧ compacted opts spec (loaded before) files 0 before = Ok (files', s')
      ∧ query files' s' = Some rows' ∧ rows' ≡ₚ rows.
Proof.
  assert (prepared opts spec (loaded before) files 0 = Ok (news, ["a.parquet"; "b.parquet"], files', 1%nat))
    as Hp by (vm_compute; reflexivity).
  split; [exact Hp|].
  destruct (query files before) as [rows|] eqn:Hq; [|vm_compute in Hq; discriminate Hq].
  destruct (compaction_preserves_rows murmur no_date no_date text sort_by columns out store new_id groups
    root EmptyString show eq_store ∅ same_type id_column schema lawful opts spec (loaded before) files 0
    news _ files' _ before rows (fun _ => reflexivity _) Hp quiet_table Hq) as (s' & rows' & H1 & H2 & H3).
  exists rows, s', rows'. split; [reflexivity|]. split; [exact H1|]. split; [exact H2|exact H3].
Defined.

Lemma binpack_packed_witness :
  packed 6 (loaded before) (binpack (loaded before) 6).
Proof.
  apply (binpack_packed (loaded before) 6).
  - decided.
  - vm_compute. reflexivity.
Defined.

(** Deletes that arrive while a compaction runs are lost: the commit only checks that the
    old files are still listed, and the new file is not in the delete file.  And a deletion
    vector that is pending hits the compacted file again. *)
Theorem compaction_changes_rows :
  (ids (query files (table [pos_file])) = Some [2; 3]
   ∧ after (compacted opts spec (loaded (table [])) files 0 (table [pos_file])) = Some [1; 2; 3])
  ∧ (ids (query files (table [vector_file])) = Some [2]
     ∧ after (compacted opts spec (loaded (table [vector_file])) files 0 (table [vector_file])) = Some []).
Proof. vm_compute. done. Qed.

(** An equality delete file, which a query applies, fails the compaction: its reader has no
    schema to load the file with. *)
Example equality_delete_aborts :
  ids (query files (table [eq_file])) = Some [1; 2]
  ∧ prepared opts spec (loaded (table [eq_file])) files 0 = Err EqualityLoad.
Proof. vm_compute. done. Qed.

(** A bin whose rows are all deleted fails the whole compaction. *)
Example deleted_bin_aborts :
  prepared opts spec (loaded {| sn_entries := {[ "b.parquet" := ManifestEntry_default "b.parquet" ]};
                                sn_deletes := [vector_file] |}) files 0 = Err NoData.
Proof. vm_compute. reflexivity. Qed.

(** The recorded bounds are the scores of the first and the last row before sorting. *)
Definition points : RecordBatch :=
  {| rb_fields := [{| fd_name := "x"; fd_iceberg_id := None |}; {| fd_name := "y"; fd_iceberg_id := None |}];
     rb_rows := [[Some (AInt64 1); Some (AInt64 1)]; [Some (AInt64 0); Some (AInt64 0)]] |}.
Example recorded_bounds_are_not_bounds :
  match apply_clustering sort_by columns (Some {| co_columns := ["x"; "y"]; co_strategy := "zorder" |}) points with
  | Ok (_, cl) => match cl_min_score cl, cl_max_score cl with
                  | Some lo, Some hi => bool_decide (hi < lo)
                  | _, _ => false
                  end
  | Err _ => false
  end = true.
Proof. vm_compute. reflexivity. Qed.

(** For a remote table the store is already rooted at the table, and compaction looks for the
    manifests under the prefix once more. *)
Example remote_prefix_twice :
  compactor_base_path (fun _ => "/lake/t") "s3://bucket/lake/t" = "lake/t"
  ∧ compactor_base_path (fun _ => "/lake/t") "file:///lake/t" = EmptyString.
Proof. vm_compute. done. Qed.
End CompactionExamples.
