(* ===== verification/InvertedIndex.v ===== *)
(** * Inverted indexes

    Building the exact inverted index of a column ([src/src/core/index/build_inverted.rs], with
    the flush of [src/src/core/segment.rs]) and answering filters from it
    ([HybridReader::get_scalar_filter_bitmap] of [src/src/core/reader/filter.rs]).  Parquet is a
    parameter: an index file is given by its entries and its analyzer. *)

From Stdlib Require Import Floats.SpecFloat.
From S2P Require Import Prelude Json ManifestTypes Partitioning Clustering Deletes Merge Compaction Planner PlannerSpec RowGroups.
Open Scope Z_scope.

(** ** Keys and columns *)

Inductive Key :=
| KInt32 (z : Z) | KInt64 (z : Z) | KFloat32 (f : float) | KFloat64 (f : float) | KUtf8 (s : string)
| KDate32 (z : Z) | KTime32 (z : Z) | KTime64 (z : Z) | KBool (b : bool) | KBinary (s : string)
| KDecimal (scale z : Z).
#[export] Instance Key_eq_dec : EqDecision Key.
Proof. solve_decision. Defined.
#[export] Instance Key_countable : Countable Key.
Proof.
  refine (inj_countable' (fun k => match k with
    | KInt32 z => inl (inl (inl z)) | KInt64 z => inl (inl (inr (inl z)))
    | KDate32 z => inl (inl (inr (inr (inl z)))) | KTime32 z => inl (inl (inr (inr (inr (inl z)))))
    | KTime64 z => inl (inl (inr (inr (inr (inr (inl z))))))
    | KDecimal s z => inl (inl (inr (inr (inr (inr (inr (s, z)))))))
    | KFloat32 f => inl (inr (inl f)) | KFloat64 f => inl (inr (inr f))
    | KUtf8 s => inr (inl s) | KBinary s => inr (inr (inl s)) | KBool b => inr (inr (inr b)) end)
    (fun x => match x with
    | inl (inl (inl z)) => KInt32 z | inl (inl (inr (inl z))) => KInt64 z
    | inl (inl (inr (inr (inl z)))) => KDate32 z | inl (inl (inr (inr (inr (inl z))))) => KTime32 z
    | inl (inl (inr (inr (inr (inr (inl z)))))) => KTime64 z
    | inl (inl (inr (inr (inr (inr (inr (s, z))))))) => KDecimal s z
    | inl (inr (inl f)) => KFloat32 f | inl (inr (inr f)) => KFloat64 f
    | inr (inl s) => KUtf8 s | inr (inr (inl s)) => KBinary s | inr (inr (inr b)) => KBool b end) _).
  by intros [].
Defined.

Inductive TimeUnit := Second | Millisecond | Microsecond | Nanosecond.
Definition per_day (u : TimeUnit) : Z :=
  match u with
  | Second => 86400 | Millisecond => 86400000 | Microsecond => 86400000000
  | Nanosecond => 86400000000000
  end.

(** The arrays the builder has a case for. *)
Inductive ColumnArray :=
| ColInt32 (l : list (option Z)) | ColInt64 (l : list (option Z)) | ColFloat64 (l : list (option float))
| ColFloat32 (l : list (option float)) | ColUtf8 (l : list (option string))
| ColDate32 (l : list (option Z)) | ColTimestamp (u : TimeUnit) (l : list (option Z))
| ColBoolean (l : list (option bool)) | ColTime32 (l : list (option Z)) | ColTime64 (l : list (option Z))
| ColBinary (l : list (option string)) | ColDecimal128 (scale : Z) (l : list (option Z))
| ColDictionary (unpacked : ColumnArray) | ColOther.

Definition keys_of {A} (f : A → Key) (l : list (option A)) : list (option Key) := (fun v : option A => f <$> v) <$> l.

(** The keys of a column; a timestamp by its day. *)
Fixpoint column_keys (c : ColumnArray) : list (option Key) :=
  match c with
  | ColInt32 l => keys_of KInt32 l
  | ColInt64 l => keys_of KInt64 l
  | ColFloat64 l => keys_of KFloat64 l
  | ColFloat32 l => keys_of KFloat32 l
  | ColUtf8 l => keys_of KUtf8 l
  | ColDate32 l => keys_of KDate32 l
  | ColTimestamp u l => keys_of (fun v => KDate32 (wrap_i32 (v ÷ per_day u))) l
  | ColBoolean l => keys_of KBool l
  | ColTime32 l => keys_of KTime32 l
  | ColTime64 l => keys_of KTime64 l
  | ColBinary l => keys_of KBinary l
  | ColDecimal128 s l => keys_of (KDecimal s) l
  | ColDictionary c => column_keys c
  | ColOther => []
  end.

(** ** Postings *)

Definition wrap_u32 (z : Z) : Z := z mod 2 ^ 32.

(** Row ids as differences, and back. *)
Fixpoint delta_encode (last : Z) (ids : list Z) : list Z :=
  match ids with [] => [] | rid :: ids => wrap_u32 (rid - last) :: delta_encode rid ids end.
Fixpoint delta_decode (current_id : Z) (deltas : list Z) : list Z :=
  match deltas with
  | [] => []
  | d :: deltas => let current_id := wrap_u32 (current_id + d) in current_id :: delta_decode current_id deltas
  end.

(** An index file: its analyzer, its keys and their row ids. *)
Record InvFile := { inv_analyzer : option string; inv_entries : list (Key * list Z) }.

(** *** Grouping by sorted order: integers and 64-bit floats *)

Definition flush_group (current_val : option Key) (current_rows : list Z) : list (Key * list Z) :=
  match current_val with
  | Some v => [(v, delta_encode 0 (merge_sort Z.le current_rows))]
  | None => []
  end.
Fixpoint group_rows (array : list (option Key)) (sort_indices : list nat) (current_val : option Key)
    (current_rows : list Z) : list (Key * list Z) :=
  match sort_indices with
  | [] => flush_group current_val current_rows
  | i :: sort_indices =>
      match array !! i with
      | Some (Some val) =>
          let row_idx := wrap_u32 (Z.of_nat i) in
          if decide (Some val = current_val)
          then group_rows array sort_indices current_val (current_rows ++ [row_idx])
          else flush_group current_val current_rows ++ group_rows array sort_indices (Some val) [row_idx]
      | _ => group_rows array sort_indices current_val current_rows
      end
  end.

(** *** Grouping by a hash map: the other types *)

Definition push_row_id (m : gmap Key (list Z)) (p : nat * option Key) : gmap Key (list Z) :=
  match p.2 with
  | Some k => <[k := default [] (m !! k) ++ [wrap_u32 (Z.of_nat p.1)]]> m
  | None => m
  end.
Definition inverted_map (array : list (option Key)) : gmap Key (list Z) :=
  foldl push_row_id ∅ (imap (fun i k => (i, k)) array).

(** *** Tokens of text *)

(** Per column: the postings of each token, the row and the position in it. *)
Abbreviation postings := (gmap string (list (Z * Z))).

Record TextConfig := { tc_tokenizer : option string; tc_bm25 : list string }.
Definition tokenizer_name (c : option TextConfig) : string :=
  let bm25 := match c with Some c => tc_bm25 c | None => [] end in
  let given := c ← c; tc_tokenizer c in
  match given with
  | Some t => t
  | None =>
      match list_find (fun t => t ≠ EmptyString) bm25 with
      | Some (_, t) => t
      | None => match bm25 with [] => "identity" | _ => "analyzer:english" end
      end
  end.
(** [IdentityTokenizer] *)
Definition identity_tokens (text : string) : list string := [trim text].

Definition push_posting (m : postings) (p : string * (Z * Z)) : postings :=
  <[p.1 := default [] (m !! p.1) ++ [p.2]]> m.
(** The tokens of the rows of one batch. *)
Definition batch_tokens (tokenize : string → list string) (row_offset : Z) (array : list (option string))
  : list (string * (Z * Z)) :=
  concat (imap (fun i v => match v with
    | Some v => imap (fun pos token => (token, (wrap_u32 (row_offset + Z.of_nat i), wrap_u32 (Z.of_nat pos))))
                  (tokenize v)
    | None => []
    end) array).

Definition posting_le (a b : Z * Z) : Prop := a.1 < b.1 ∨ (a.1 = b.1 ∧ a.2 ≤ b.2).
#[export] Instance posting_le_dec : RelDecision posting_le.
Proof. intros a b. unfold posting_le. apply _. Defined.
(** The distinct rows of sorted postings. *)
Fixpoint doc_rows (last : option Z) (ps : list (Z * Z)) : list Z :=
  match ps with
  | [] => []
  | (row, _) :: ps => if decide (last = Some row) then doc_rows last ps else row :: doc_rows (Some row) ps
  end.

(** ** The writer *)

(** Index files by column, buffered postings, and the analyzer of text columns. *)
Record IndexBuffers := {
  ib_files : gmap string InvFile;
  ib_inverted : gmap string postings;
  ib_metadata : gmap string string
}.

Section Writer.
(** Arrow's [sort_to_indices], the order of hash maps, registered tokenizers and the index
    configuration of columns. *)
Context (sort_to_indices : list (option Key) → list nat)
  (hash_iter : gmap Key (list Z) → list (Key * list Z))
  (registry : string → option (string → list string)) (configs : string → option TextConfig).

Definition sorted_index (array : list (option Key)) : list (Key * list Z) :=
  group_rows array (sort_to_indices array) None [].
Definition map_index (array : list (option Key)) : list (Key * list Z) :=
  (fun e : Key * list Z => (e.1, delta_encode 0 e.2)) <$> hash_iter (inverted_map array).

(** A file replaces the file of the same column. *)
Definition put_file (st : IndexBuffers) (col_name : string) (entries : list (Key * list Z)) : IndexBuffers :=
  {| ib_files := <[col_name := {| inv_analyzer := None; inv_entries := entries |}]> (ib_files st);
     ib_inverted := ib_inverted st; ib_metadata := ib_metadata st |}.

Fixpoint build_inverted_index (st : IndexBuffers) (col_name : string) (col_array : ColumnArray)
    (row_offset : Z) : result string IndexBuffers :=
  match col_array with
  | ColInt32 _ | ColInt64 _ | ColFloat64 _ => Ok (put_file st col_name (sorted_index (column_keys col_array)))
  | ColUtf8 array =>
      let name := tokenizer_name (configs col_name) in
      match registry name with
      | None => Err ("Missing tokenizer " +:+ name)
      | Some tokenize =>
          Ok {| ib_files := ib_files st;
                ib_inverted := <[col_name := foldl push_posting (default ∅ (ib_inverted st !! col_name))
                                               (batch_tokens tokenize row_offset array)]> (ib_inverted st);
                ib_metadata := <[col_name := name]> (ib_metadata st) |}
      end
  | ColFloat32 _ | ColDate32 _ | ColTimestamp _ _ | ColBoolean _ | ColTime32 _ | ColTime64 _
  | ColBinary _ | ColDecimal128 _ _ => Ok (put_file st col_name (map_index (column_keys col_array)))
  | ColDictionary c => build_inverted_index st col_name c row_offset
  | ColOther => Ok st
  end.

(** [finish_indexing]: the files of the buffered text columns. *)
Definition text_file (analyzer : option string) (m : postings) : InvFile :=
  {| inv_analyzer := analyzer;
     inv_entries := (fun e : string * list (Z * Z) =>
       (KUtf8 e.1, delta_encode 0 (doc_rows None (merge_sort posting_le e.2)))) <$> map_to_list m |}.
Definition finish_indexing (st : IndexBuffers) : IndexBuffers :=
  {| ib_files := map_imap (fun col m => Some (text_file (ib_metadata st !! col) m)) (ib_inverted st)
                   ∪ ib_files st;
     ib_inverted := ∅; ib_metadata := ib_metadata st |}.
End Writer.

(** ** Reading an index *)

(** The row ids of the keys that pass a test, as the reader collects them. *)
Definition matching_rows (key_ok : Key → bool) (entries : list (Key * list Z)) : gset Z :=
  list_to_set (entries ≫= fun e : Key * list Z => if key_ok e.1 then delta_decode 0 e.2 else []).

(** The rows whose key passes the test. *)
Definition has_row (P : Key → bool) (array : list (option Key)) (x : Z) : Prop :=
  ∃ i k, x = Z.of_nat i ∧ array !! i = Some (Some k) ∧ P k = true.

Definition is_u32 (z : Z) : Prop := 0 ≤ z < 2 ^ 32.

Lemma wrap_u32_id z : is_u32 z → wrap_u32 z = z.
Proof. apply Z.mod_small. Qed.

Lemma delta_roundtrip last ids : Forall is_u32 ids → delta_decode last (delta_encode last ids) = ids.
Proof.
  intros Hids. revert last. induction Hids as [|rid ids Hr _ IH]; intros last; [done|]. cbn [delta_encode delta_decode].
  assert (wrap_u32 (last + wrap_u32 (rid - last)) = rid) as ->; [|by rewrite IH].
  unfold wrap_u32. rewrite Zplus_mod_idemp_r. replace (last + (rid - last)) with rid by lia. by apply Z.mod_small.
Qed.

(** On ascending ids no difference is negative. *)
Lemma delta_encode_exact last ids :
  Forall is_u32 (last :: ids) → StronglySorted Z.le (last :: ids) →
  delta_encode last ids = zip_with Z.sub ids (last :: ids) ∧ Forall (Z.le 0) (delta_encode last ids).
Proof.
  revert last. induction ids as [|rid ids IH]; intros last [Hl Hids]%Forall_cons Hs; [done|].
  apply Forall_cons in Hids as [Hr Hids].
  apply StronglySorted_inv in Hs as [Hs [Hle _]%Forall_cons].
  destruct (IH rid) as [Heq Hf]; [by constructor|done|]. cbn [delta_encode zip_with].
  assert (wrap_u32 (rid - last) = rid - last) as -> by (apply wrap_u32_id; unfold is_u32 in *; lia).
  split; [by rewrite Heq|]. constructor; [lia|done].
Qed.

Lemma elem_of_matching key_ok entries x :
  x ∈ matching_rows key_ok entries ↔ ∃ e, e ∈ entries ∧ key_ok e.1 = true ∧ x ∈ delta_decode 0 e.2.
Proof.
  unfold matching_rows. rewrite elem_of_list_to_set, list_elem_of_bind. split.
  - intros (e & Hx & He). exists e. destruct (key_ok e.1); [done|by apply not_elem_of_nil in Hx].
  - intros (e & He & Hk & Hx). exists e. by rewrite Hk.
Qed.

Lemma matching_app key_ok l1 l2 : matching_rows key_ok (l1 ++ l2) = matching_rows key_ok l1 ∪ matching_rows key_ok l2.
Proof. unfold matching_rows. by rewrite bind_app, list_to_set_app_L. Qed.

(** *** Sorted grouping *)

Lemma flush_group_rows P cur rows x :
  Forall is_u32 rows →
  x ∈ matching_rows P (flush_group cur rows) ↔ ∃ v, cur = Some v ∧ P v = true ∧ x ∈ rows.
Proof.
  intros Hr. rewrite elem_of_matching. destruct cur as [v|]; cbn [flush_group]; [|set_solver].
  assert (delta_decode 0 (delta_encode 0 (merge_sort Z.le rows)) = merge_sort Z.le rows) as Hd.
  { apply delta_roundtrip. by rewrite merge_sort_Permutation. }
  setoid_rewrite list_elem_of_singleton. split.
  - intros (e & -> & Hk & Hx). cbn [snd] in Hx. rewrite Hd, merge_sort_Permutation in Hx. eauto.
  - intros (v' & [= <-] & Hk & Hx). eexists. split; [done|]. cbn [fst snd]. by rewrite Hd, merge_sort_Permutation.
Qed.

Lemma group_rows_elem P array idxs cur rows x :
  Forall is_u32 rows → Forall (fun i => is_u32 (Z.of_nat i)) idxs →
  x ∈ matching_rows P (group_rows array idxs cur rows) ↔
    (∃ v, cur = Some v ∧ P v = true ∧ x ∈ rows)
    ∨ ∃ i k, i ∈ idxs ∧ x = Z.of_nat i ∧ array !! i = Some (Some k) ∧ P k = true.
Proof.
  intros Hr Hi. revert cur rows Hr. induction Hi as [|i idxs Hi _ IH]; intros cur rows Hr; cbn [group_rows].
  { rewrite flush_group_rows by done. set_solver. }
  rewrite wrap_u32_id by done. assert (Forall is_u32 [Z.of_nat i]) as H1 by (by constructor).
  destruct (array !! i) as [[val|]|] eqn:Ha.
  - case_decide as Hc.
    + rewrite IH by (by apply Forall_app). subst. setoid_rewrite elem_of_cons. set_solver.
    + rewrite matching_app, elem_of_union, flush_group_rows, IH by done.
      setoid_rewrite list_elem_of_singleton. setoid_rewrite elem_of_cons. split.
      * intros [?|[(v & [= ->] & Hp & ->)|(j & k & Hj & ? & ? & ?)]]; [by left|right; by exists i, v; eauto|].
        right. exists j, k. eauto.
      * intros [?|(j & k & [->|Hj] & -> & Hk & Hp)]; [by left| |right; right; eauto 10].
        right. left. exists val. rewrite Ha in Hk. by simplify_eq.
  - rewrite IH by done. setoid_rewrite elem_of_cons. split; [naive_solver|].
    intros [?|(j & k & [->|Hj] & -> & Hk & Hp)]; [by left|congruence|right; eauto 10].
  - rewrite IH by done. setoid_rewrite elem_of_cons. split; [naive_solver|].
    intros [?|(j & k & [->|Hj] & -> & Hk & Hp)]; [by left|congruence|right; eauto 10].
Qed.

(** *** Hash maps *)

Lemma inverted_map_elem array k x :
  Z.of_nat (length array) ≤ 2 ^ 32 →
  x ∈ default [] (inverted_map array !! k) ↔ ∃ i, x = Z.of_nat i ∧ array !! i = Some (Some k).
Proof.
  unfold inverted_map. induction array as [|o array IH] using rev_ind; intros Hlen.
  { simpl. rewrite lookup_empty. set_solver. }
  rewrite length_app in Hlen. cbn [length] in Hlen. rewrite imap_app, foldl_app. cbn [imap foldl].
  rewrite Nat.add_0_r. specialize (IH ltac:(lia)). set (m := foldl push_row_id ∅ _) in *.
  assert (x ∈ default [] (push_row_id m (length array, o) !! k) ↔
    x ∈ default [] (m !! k) ∨ (x = Z.of_nat (length array) ∧ o = Some k)) as ->.
  { unfold push_row_id. cbn [fst snd]. destruct o as [k'|]; [|naive_solver].
    rewrite wrap_u32_id by (unfold is_u32; lia). destruct (decide (k = k')) as [->|Hne].
    - rewrite lookup_insert_eq. cbn [from_option id]. rewrite elem_of_app, list_elem_of_singleton. naive_solver.
    - rewrite lookup_insert_ne by done. naive_solver. }
  rewrite IH. split.
  - intros [(i & -> & Hi)|[-> ->]].
    + exists i. split; [done|]. rewrite lookup_app_l; [done|]. by eapply lookup_lt_Some.
    + exists (length array). split; [done|]. by rewrite list_lookup_middle.
  - intros (i & -> & Hi). apply lookup_app_Some in Hi as [Hi|[Hge Hi]]; [left; eauto|]. right.
    apply list_lookup_singleton_Some in Hi as [Hz ->]. split; [f_equal; lia|done].
Qed.

(** *** Text *)

Lemma push_postings_elem m l t x :
  x ∈ default [] (foldl push_posting m l !! t) ↔ x ∈ default [] (m !! t) ∨ (t, x) ∈ l.
Proof.
  revert m. induction l as [|[t' y] l IH]; intros m; cbn [foldl]; [set_solver|]. rewrite IH.
  unfold push_posting. cbn [fst snd]. rewrite elem_of_cons. destruct (decide (t = t')) as [->|Hne].
  - rewrite lookup_insert_eq. cbn [from_option id]. rewrite elem_of_app, list_elem_of_singleton. naive_solver.
  - rewrite lookup_insert_ne by done. naive_solver.
Qed.

Lemma identity_tokens_elem off array t r :
  (∃ pos, (t, (r, pos)) ∈ batch_tokens identity_tokens off array) ↔
  ∃ i v, array !! i = Some (Some v) ∧ t = trim v ∧ r = wrap_u32 (off + Z.of_nat i).
Proof.
  unfold batch_tokens. setoid_rewrite list_elem_of_In. setoid_rewrite in_concat.
  setoid_rewrite <- list_elem_of_In. setoid_rewrite elem_of_lookup_imap. split.
  - intros (pos & l & (i & o & -> & Hi) & Hin). destruct o as [v|]; [|by apply not_elem_of_nil in Hin].
    exists i, v. unfold identity_tokens in Hin. cbn [imap] in Hin. apply list_elem_of_singleton in Hin. by simplify_eq.
  - intros (i & v & Hi & -> & ->). exists (wrap_u32 0), [(trim v, (wrap_u32 (off + Z.of_nat i), wrap_u32 0))].
    split; [by exists i, (Some v)|]. by apply list_elem_of_singleton.
Qed.

Lemma doc_rows_elem last ps x :
  (x ∈ doc_rows last ps → x ∈ ps.*1) ∧ (x ∈ ps.*1 → last = Some x ∨ x ∈ doc_rows last ps).
Proof.
  revert last. induction ps as [|[r p] ps IH]; intros last; cbn [doc_rows]; [set_solver|].
  rewrite fmap_cons, elem_of_cons. cbn [fst]. case_decide as Hl.
  - destruct (IH last). naive_solver.
  - rewrite elem_of_cons. destruct (IH (Some r)). naive_solver.
Qed.

Lemma text_file_elem P a m x :
  (∀ t ps r pos, m !! t = Some ps → (r, pos) ∈ ps → is_u32 r) →
  x ∈ matching_rows P (inv_entries (text_file a m)) ↔
  ∃ t pos, P (KUtf8 t) = true ∧ (x, pos) ∈ default [] (m !! t).
Proof.
  intros Hu. rewrite elem_of_matching. cbn [inv_entries text_file].
  assert (∀ t ps, m !! t = Some ps →
    (x ∈ delta_decode 0 (delta_encode 0 (doc_rows None (merge_sort posting_le ps))) ↔ ∃ pos, (x, pos) ∈ ps)) as Hd.
  { intros t ps Ht. destruct (doc_rows_elem None (merge_sort posting_le ps) x) as [H1 H2].
    rewrite delta_roundtrip.
    - split.
      + intros Hx%H1. rewrite merge_sort_Permutation in Hx. apply list_elem_of_fmap in Hx as ([r p] & -> & Hin). eauto.
      + intros (pos & Hin). destruct H2 as [|]; [|done|done]. rewrite merge_sort_Permutation.
        by apply (list_elem_of_fmap_2 fst _ (x, pos)).
    - apply Forall_forall. intros r Hr. destruct (doc_rows_elem None (merge_sort posting_le ps) r) as [H1' _].
      apply H1' in Hr. rewrite merge_sort_Permutation in Hr. apply list_elem_of_fmap in Hr as ([r' p] & -> & Hin). eauto. }
  setoid_rewrite list_elem_of_fmap. split.
  - intros (e & ([t ps] & -> & Hin%elem_of_map_to_list) & Hp & Hx). cbn [fst snd] in *.
    apply (Hd t ps Hin) in Hx as [pos Hx]. exists t, pos. by rewrite Hin.
  - intros (t & pos & Hp & Hx). destruct (m !! t) as [ps|] eqn:Ht; [|by apply not_elem_of_nil in Hx].
    eexists. split; [exists (t, ps); split; [done|by apply elem_of_map_to_list]|]. cbn [fst snd].
    split; [done|]. apply (Hd t ps Ht). eauto.
Qed.

(** *** What an index finds *)

(** The keys an index is built from: text without white space around it. *)
Fixpoint indexed_keys (c : ColumnArray) : list (option Key) :=
  match c with
  | ColUtf8 l => keys_of (fun s => KUtf8 (trim s)) l
  | ColDictionary c => indexed_keys c
  | c => column_keys c
  end.
Fixpoint indexable (c : ColumnArray) : bool :=
  match c with ColOther => false | ColDictionary c => indexable c | _ => true end.

(** Text loses the white space around it. *)
Definition trim_key (k : Key) : Key := match k with KUtf8 s => KUtf8 (trim s) | k => k end.

Lemma indexed_keys_trim c : indexed_keys c = (fun k : option Key => trim_key <$> k) <$> column_keys c.
Proof.
  induction c; cbn [indexed_keys column_keys]; try done; unfold keys_of; rewrite <- list_fmap_compose;
    apply list_fmap_ext; by intros ? [].
Qed.

Lemma has_row_trim P c x : has_row P (indexed_keys c) x ↔ has_row (fun k => P (trim_key k)) (column_keys c) x.
Proof.
  unfold has_row. rewrite indexed_keys_trim. setoid_rewrite list_lookup_fmap. split.
  - intros (i & k & -> & Hi & Hp). destruct (column_keys c !! i) as [[k'|]|] eqn:Hk; simplify_eq/=. by exists i, k'.
  - intros (i & k & -> & Hi & Hp). exists i, (trim_key k). by rewrite Hi.
Qed.

Lemma indexed_keys_plain c i k :
  column_keys c !! i = Some (Some k) → trim_key k = k → indexed_keys c !! i = Some (Some k).
Proof. intros Hi Hk. rewrite indexed_keys_trim, list_lookup_fmap, Hi. cbn. by rewrite Hk. Qed.

Section Locates.
Context (sort_to_indices : list (option Key) → list nat)
  (hash_iter : gmap Key (list Z) → list (Key * list Z))
  (registry : string → option (string → list string)) (configs : string → option TextConfig).
(** Arrow's sort permutes the rows, a hash map yields each entry once. *)
Context (Hsort : ∀ array, sort_to_indices array ≡ₚ seq 0 (length array))
  (Hiter : ∀ m, hash_iter m ≡ₚ map_to_list m).

Lemma sorted_index_elem P array x :
  Z.of_nat (length array) ≤ 2 ^ 32 →
  x ∈ matching_rows P (sorted_index sort_to_indices array) ↔ has_row P array x.
Proof.
  intros Hlen. unfold sorted_index. rewrite group_rows_elem; [|done|].
  - unfold has_row. split.
    + intros [(v & ? & _)|(i & k & _ & H)]; [done|eauto].
    + intros (i & k & H & Ha & Hp). right. exists i, k. split_and!; try done. rewrite Hsort.
      apply elem_of_seq. apply lookup_lt_Some in Ha. lia.
  - rewrite Hsort. apply Forall_forall. intros i Hi%elem_of_seq. unfold is_u32. lia.
Qed.

Lemma map_index_elem P array x :
  Z.of_nat (length array) ≤ 2 ^ 32 →
  x ∈ matching_rows P (map_index hash_iter array) ↔ has_row P array x.
Proof.
  intros Hlen. rewrite elem_of_matching. unfold map_index. setoid_rewrite list_elem_of_fmap.
  setoid_rewrite Hiter.
  assert (∀ k ids, inverted_map array !! k = Some ids → delta_decode 0 (delta_encode 0 ids) = ids) as Hd.
  { intros k ids Hk. apply delta_roundtrip, Forall_forall. intros r Hr.
    assert (r ∈ default [] (inverted_map array !! k)) as Hin by (by rewrite Hk).
    apply inverted_map_elem in Hin as (i & -> & Hi%lookup_lt_Some); [|done]. unfold is_u32. lia. }
  split.
  - intros (e & ([k ids] & -> & Hk%elem_of_map_to_list) & Hp & Hx). cbn [fst snd] in *. rewrite (Hd k) in Hx by done.
    assert (x ∈ default [] (inverted_map array !! k)) as Hin by (by rewrite Hk).
    apply inverted_map_elem in Hin as (i & -> & Hi); [|done]. by exists i, k.
  - intros (i & k & -> & Hi & Hp).
    assert (Z.of_nat i ∈ default [] (inverted_map array !! k)) as Hin by (apply inverted_map_elem; eauto).
    destruct (inverted_map array !! k) as [ids|] eqn:Hk; [|by apply not_elem_of_nil in Hin].
    eexists. split; [exists (k, ids); split; [done|by apply elem_of_map_to_list]|]. cbn [fst snd].
    by rewrite (Hd k ids Hk).
Qed.

Notation build := (build_inverted_index sort_to_indices hash_iter registry configs).

Lemma text_index_elem P st col l x :
  Z.of_nat (length l) ≤ 2 ^ 32 → ib_inverted st !! col = None →
  x ∈ matching_rows P (inv_entries (text_file (Some "identity")
        (foldl push_posting (default ∅ (ib_inverted st !! col)) (batch_tokens identity_tokens 0 l)))) ↔
  has_row P (keys_of (fun s => KUtf8 (trim s)) l) x.
Proof.
  intros Hlen Hnone. rewrite Hnone. cbn [from_option id].
  set (m := foldl push_posting ∅ (batch_tokens identity_tokens 0 l)).
  assert (∀ t r, (∃ pos, (r, pos) ∈ default [] (m !! t)) ↔
    ∃ i v, l !! i = Some (Some v) ∧ t = trim v ∧ r = Z.of_nat i) as Hm.
  { intros t r. unfold m. setoid_rewrite push_postings_elem. rewrite lookup_empty.
    transitivity (∃ pos, (t, (r, pos)) ∈ batch_tokens identity_tokens 0 l).
    { split; intros [pos Hp]; exists pos; [|by right]. by destruct Hp as [?%not_elem_of_nil|]. }
    rewrite identity_tokens_elem. split; intros (i & v & Hi & -> & ->); exists i, v; split_and!; try done;
      rewrite wrap_u32_id; try lia; apply lookup_lt_Some in Hi; unfold is_u32; lia. }
  rewrite text_file_elem.
  - unfold has_row, keys_of. setoid_rewrite list_lookup_fmap. split.
    + intros (t & pos & Hp & Hx). destruct (proj1 (Hm t x)) as (i & v & Hi & -> & ->); [by exists pos|].
      exists i, (KUtf8 (trim v)). by rewrite Hi.
    + intros (i & k & -> & Hi & Hp). destruct (l !! i) as [[v|]|] eqn:El; simplify_eq/=.
      destruct (proj2 (Hm (trim v) (Z.of_nat i))) as [pos Hpos]; [by exists i, v|]. eauto.
  - intros t ps r pos Ht Hin. destruct (proj1 (Hm t r)) as (i & v & Hi%lookup_lt_Some & _ & ->).
    + exists pos. by rewrite Ht.
    + unfold is_u32. lia.
Qed.

Lemma put_file_found st col entries keys :
  ib_inverted st !! col = None → (∀ P x, x ∈ matching_rows P entries ↔ has_row P keys x) →
  ∃ st' f, Ok (E:=string) (put_file st col entries) = Ok st'
    ∧ ib_files (finish_indexing st') !! col = Some f
    ∧ default "identity" (inv_analyzer f) = "identity"
    ∧ ∀ P x, x ∈ matching_rows P (inv_entries f) ↔ has_row P keys x.
Proof.
  intros Hnone He. eexists _, {| inv_analyzer := None; inv_entries := entries |}.
  split; [reflexivity|]. split_and!; [|reflexivity|exact He]. cbn [ib_files finish_indexing put_file].
  rewrite lookup_union_r; [apply lookup_insert_eq|]. rewrite map_lookup_imap. simpl. by rewrite Hnone.
Qed.

Lemma index_locates (st : IndexBuffers) (col : string) (c : ColumnArray) :
  registry "identity" = Some identity_tokens → tokenizer_name (configs col) = "identity" →
  indexable c = true → Z.of_nat (length (indexed_keys c)) ≤ 2 ^ 32 → ib_inverted st !! col = None →
  ∃ st' f, build st col c 0 = Ok st' ∧ ib_files (finish_indexing st') !! col = Some f
    ∧ default "identity" (inv_analyzer f) = "identity"
    ∧ ∀ P x, x ∈ matching_rows P (inv_entries f) ↔ has_row P (indexed_keys c) x.
Proof.
  intros Hreg Hname Hc Hlen Hnone.
  induction c; try discriminate Hc; cbn [build_inverted_index indexed_keys] in *;
    try (apply put_file_found; [done|]; intros P x; by (apply sorted_index_elem || apply map_index_elem)).
  - rewrite Hname, Hreg. eexists _, _. split; [reflexivity|]. cbn [ib_files finish_indexing ib_inverted ib_metadata].
    split; [|split].
    + apply lookup_union_Some_l. rewrite map_lookup_imap, !lookup_insert_eq. reflexivity.
    + reflexivity.
    + intros P x.
      apply text_index_elem; [|done]. unfold keys_of in Hlen. by rewrite length_fmap in Hlen.
  - by apply IHc.
Qed.

(** C17: The index that is built over one batch of at most [2^32] rows, starting at row 0, of a
    column that can be indexed, is not yet in the buffers and has the identity tokenizer, finds for
    every test of keys exactly the rows whose value passes it, text without the white space around it:
    grouping, sorting and difference coding lose and add nothing.  (Several batches:
    [backfill_keeps_last_batch].) *)
Theorem index_locates_values (st : IndexBuffers) (col : string) (c : ColumnArray) :
  registry "identity" = Some identity_tokens → tokenizer_name (configs col) = "identity" →
  indexable c = true → Z.of_nat (length (indexed_keys c)) ≤ 2 ^ 32 → ib_inverted st !! col = None →
  ∃ st' f, build st col c 0 = Ok st' ∧ ib_files (finish_indexing st') !! col = Some f
    ∧ default "identity" (inv_analyzer f) = "identity"
    ∧ ∀ P x, x ∈ matching_rows P (inv_entries f) ↔ has_row (fun k => P (trim_key k)) (column_keys c) x.
Proof.
  intros Hreg Hname Hc Hlen Hnone. destruct (index_locates st col c) as (st' & f & Hb & Hf & Ha & HP); [done..|].
  exists st', f. split_and!; [done..|]. intros P x. by rewrite HP, has_row_trim.
Qed.
End Locates.

(** ** Answering a filter *)

(** [Value::as_i64], [Value::as_bool] *)
Definition value_as_i64 (v : Value) : option Z := match v with VNumber n => as_i64 n | _ => None end.
Definition value_as_bool (v : Value) : option bool := match v with VBool b => Some b | _ => None end.
Definition i64_min : Z := - 2 ^ 63.
(** [f64::MIN] *)
Definition f64_lowest : float := S754_finite true (2 ^ 53 - 1) 971.
Definition str_same (a b : string) : bool := bool_decide (a = b) || eq_ignore_ascii_case a b.

(** A bound is tested when it has a value of the key's type. *)
Definition in_bounds {A} (lt le : A → A → bool) (read : Value → option A) (f : QueryFilter) (val : A) : bool :=
  match qf_min f ≫= read with
  | Some m => if qf_min_inclusive f then le m val else lt m val
  | None => true
  end &&
  match qf_max f ≫= read with
  | Some m => if qf_max_inclusive f then le val m else lt val m
  | None => true
  end.

Definition key_in_values (f : QueryFilter) (values : list Value) (k : Key) : bool :=
  let matched (same : Value → bool) := xorb (qf_negated f) (existsb same values) in
  match k with
  | KUtf8 val => matched (fun v => match value_as_str v with Some s => str_same val s | None => false end)
  | KInt32 val => matched (fun v => match value_as_i64 v with Some vi => Z.eqb val (wrap_i32 vi) | None => false end)
  | KInt64 val => matched (fun v => match value_as_i64 v with Some vi => Z.eqb val vi | None => false end)
  | _ => true
  end.

Section Reader.
(** Unicode lower case, dates in days from 1970-01-01, and powers of ten as floats. *)
Context (to_lowercase : string → string) (parse_date : string → option Z) (pow10 : Z → float).

Definition str_at_least (strict : bool) (a b : string) : bool :=
  if strict then str_lt b a || str_lt (to_lowercase b) (to_lowercase a)
  else negb (str_lt a b) || negb (str_lt (to_lowercase a) (to_lowercase b)).

Definition text_in_range (f : QueryFilter) (min_val : Value) (val : string) : bool :=
  match value_as_str min_val with
  | None => true
  | Some min_s =>
      if option_value_eqb (qf_min f) (qf_max f) then str_same val min_s
      else str_at_least (negb (qf_min_inclusive f)) val min_s &&
           match qf_max f ≫= value_as_str with
           | Some max_s => str_at_least (negb (qf_max_inclusive f)) max_s val
           | None => true
           end
  end.

Definition days (v : Value) : option Z := s ← value_as_str v; Some (wrap_i32 (default 0 (parse_date s))).

Definition key_in_range (f : QueryFilter) (k : Key) : bool :=
  match qf_min f with
  | None => true
  | Some min =>
      match k with
      | KUtf8 val => text_in_range f min val
      | KInt32 val => in_bounds Z.ltb Z.leb (fun v => wrap_i32 <$> value_as_i64 v) f val
      | KInt64 val => in_bounds Z.ltb Z.leb value_as_i64 f val
      | KFloat64 val => in_bounds SFltb SFleb value_as_f64 f val
      | KDate32 val => in_bounds Z.ltb Z.leb days f val
      | KTime32 val =>
          let min_i := wrap_i32 (default i64_min (value_as_i64 min)) in
          if qf_min_inclusive f then min_i <=? val else min_i <? val
      | KTime64 val =>
          let min_i := default i64_min (value_as_i64 min) in
          if qf_min_inclusive f then min_i <=? val else min_i <? val
      | KBool val => Bool.eqb val (default false (value_as_bool min))
      | KBinary val =>
          if option_value_eqb (qf_min f) (qf_max f) && qf_min_inclusive f && qf_max_inclusive f
          then match value_as_str min with Some s => bool_decide (val = s) | None => false end
          else true
      | KDecimal scale val =>
          let val_f64 := f64_div (Z_as_f64 val) (pow10 scale) in
          let min_f := default f64_lowest (value_as_f64 min) in
          if qf_min_inclusive f then SFleb min_f val_f64 else SFltb min_f val_f64
      | KFloat32 _ => true
      end
  end.

Definition key_ok (f : QueryFilter) (k : Key) : bool :=
  match qf_values f with Some values => key_in_values f values k | None => key_in_range f k end.

(** *** The index files of a segment *)

Record IndexReader := {
  ir_reader : HybridReader;
  ir_index_files : list IndexFile;
  ir_record_count : option Z;
  ir_file_checksum : option string;
  ir_active_snapshot_id : option Z
}.

Definition is_index_valid (r : IndexReader) (idx : IndexFile) : bool :=
  match ir_file_checksum r with
  | Some c => bool_decide (if_source_data_checksum idx = EmptyString) || bool_decide (if_source_data_checksum idx = c)
  | None => true
  end &&
  match ir_record_count r with
  | Some n => (if_source_record_count idx <=? 0) || (if_source_record_count idx =? n)
  | None => true
  end &&
  match ir_active_snapshot_id r with
  | Some a => (if_source_snapshot_id idx <=? 0) || (if_source_snapshot_id idx <=? a)
  | None => true
  end.

Definition inv_idx_info (r : IndexReader) (column : string) : option IndexFile :=
  snd <$> list_find (fun f => is_lexical f && negb (bool_decide (if_algorithm f = "doclen")) &&
    bool_decide (if_column_name f = column) && is_index_valid r f = true) (ir_index_files r).
Definition bitmap_idx_info (r : IndexReader) (column : string) : option IndexFile :=
  snd <$> list_find (fun f => bool_decide (if_index_category f = "scalar") &&
    bool_decide (if_column_name f = column) && is_index_valid r f = true) (ir_index_files r).

(** The path of an index file: beside the data file unless it has a directory. *)
Definition inverted_path (r : IndexReader) (idx : IndexFile) : string :=
  let dir := match sc_parquet_path (hr_config (ir_reader r)) with Some p => parent_path p | None => EmptyString end in
  if bool_decide (dir = EmptyString) || has_char slash (if_file_path idx) then if_file_path idx
  else dir +:+ "/" +:+ if_file_path idx.
Definition object_key (r : IndexReader) (path : string) : string := hr_root_uri (ir_reader r) +:+ "/" +:+ path.
Definition cache_key (r : IndexReader) (path : string) (offset : option Z) : string :=
  match offset with
  | Some o => object_key r path +:+ ":" +:+ pretty o
  | None => object_key r path
  end.

(** *** The caches *)

(** Decoded indexes, bytes, analyzers and bitmaps, by key; any entry may be evicted. *)
Record IndexCaches := {
  ic_inverted : gmap string (list (Key * list Z));
  ic_byte : gmap string bytes;
  ic_analyzer : gmap string string;
  ic_index : gmap string (gset Z)
}.

Inductive fetch := Fetched (b : bytes) | NotFound | FetchFailed.
(** The store, and the decoders of Parquet and Roaring. *)
Record IndexIo := {
  ix_get : string → fetch;
  ix_get_range : string → Z → Z → option bytes;
  ix_inverted : bytes → option InvFile;
  ix_bitmap : bytes → option (gset Z)
}.
Inductive ierr := ReadFailed | DecodeFailed.

Context (io : IndexIo) (dio : DeleteIo).

(** A blob of a Puffin file by its range, else the whole file. *)
Definition fetch_index (path : string) (idx : IndexFile) : result ierr (option bytes) :=
  match if_blob_offset idx, if_blob_length idx with
  | Some o, Some l => match ix_get_range io path o l with Some b => Ok (Some b) | None => Err ReadFailed end
  | _, _ =>
      match ix_get io path with
      | Fetched b => Ok (Some b) | NotFound => Ok None | FetchFailed => Err ReadFailed
      end
  end.

(** The decoded index goes into the cache under a key without the offset. *)
Definition decode_inverted (c : IndexCaches) (r : IndexReader) (path key : string) (b : bytes)
  : result ierr (option (list (Key * list Z))) * IndexCaches :=
  match ix_inverted io b with
  | None => (Err DecodeFailed, c)
  | Some file =>
      (Ok (Some (inv_entries file)),
       {| ic_inverted := <[object_key r path := inv_entries file]> (ic_inverted c); ic_byte := ic_byte c;
          ic_analyzer := match inv_analyzer file with
                         | Some a => <[key := a]> (ic_analyzer c)
                         | None => ic_analyzer c
                         end;
          ic_index := ic_index c |})
  end.
Definition load_inverted (c : IndexCaches) (r : IndexReader) (idx : IndexFile)
  : result ierr (option (list (Key * list Z))) * IndexCaches :=
  let path := inverted_path r idx in
  let key := cache_key r path (if_blob_offset idx) in
  match ic_inverted c !! key with
  | Some entries => (Ok (Some entries), c)
  | None =>
      match ic_byte c !! key with
      | Some b => decode_inverted c r path key b
      | None =>
          match fetch_index path idx with
          | Err e => (Err e, c)
          | Ok None => (Ok None, c)
          | Ok (Some b) =>
              decode_inverted {| ic_inverted := ic_inverted c; ic_byte := <[key := b]> (ic_byte c);
                                 ic_analyzer := ic_analyzer c; ic_index := ic_index c |} r path key b
          end
      end
  end.

(** The scalar bitmap, or the file that older versions wrote. *)
Definition load_bitmap (c : IndexCaches) (r : IndexReader) (column : string)
  : result ierr (option (gset Z)) * IndexCaches :=
  let info := bitmap_idx_info r column in
  let path := match info with
              | Some i => if_file_path i
              | None => resolve_path (ir_reader r) (column +:+ ".idx")
              end in
  let key := cache_key r path (i ← info; if_blob_offset i) in
  match ic_index c !! key with
  | Some bm => (Ok (Some bm), c)
  | None =>
      let got := match info with
                 | Some i => match fetch_index path i with Ok b => b | Err _ => None end
                 | None => match ix_get io path with Fetched b => Some b | _ => None end
                 end in
      match got with
      | None => (Ok None, c)
      | Some b =>
          match ix_bitmap io b with
          | None => (Err DecodeFailed, c)
          | Some bm => (Ok (Some bm), {| ic_inverted := ic_inverted c; ic_byte := ic_byte c;
                                         ic_analyzer := ic_analyzer c;
                                         ic_index := <[key := bm]> (ic_index c) |})
          end
      end
  end.

Definition is_exact_filter (f : QueryFilter) : bool :=
  bool_decide (is_Some (qf_values f)) || bool_decide (is_Some (qf_min f)) || bool_decide (is_Some (qf_max f)).

Definition matching_bitmap (c : IndexCaches) (r : IndexReader) (f : QueryFilter)
  : result ierr (option (gset Z)) * IndexCaches :=
  match inv_idx_info r (qf_column f) with
  | Some idx =>
      let key := cache_key r (inverted_path r idx) (if_blob_offset idx) in
      match load_inverted c r idx with
      | (Ok (Some entries), c) =>
          if is_exact_filter f && negb (bool_decide (default "identity" (ic_analyzer c !! key) = "identity"))
          then (Ok None, c)
          else (Ok (Some (matching_rows (key_ok f) entries)), c)
      | (Ok None, c) => (Ok None, c)
      | (Err e, c) => (Err e, c)
      end
  | None => load_bitmap c r (qf_column f)
  end.

(** Negation is a complement when the number of rows is known; deleted rows are left out. *)
Definition finish_bitmap (r : IndexReader) (f : QueryFilter) (matching : gset Z) : option (gset Z) :=
  let live bm := bm ∖ all_deletes dio (ir_reader r) in
  if qf_negated f then
    (fun total => live (full_range (Z.to_nat (wrap_u32 total)) ∖ matching)) <$> ir_record_count r
  else Some (live matching).

Definition get_scalar_filter_bitmap (c : IndexCaches) (r : IndexReader) (f : QueryFilter)
  : result ierr (option (gset Z)) * IndexCaches :=
  match matching_bitmap c r f with
  | (Ok (Some bm), c) => (Ok (finish_bitmap r f bm), c)
  | (Ok None, c) => (Ok None, c)
  | (Err e, c) => (Err e, c)
  end.
End Reader.

(** ** The caches are transparent *)

Section Caches.
Context (to_lowercase : string → string) (parse_date : string → option Z) (pow10 : Z → float).
Context (io : IndexIo) (dio : DeleteIo).
Notation query := (get_scalar_filter_bitmap to_lowercase parse_date pow10 io dio).
Notation key_ok := (key_ok to_lowercase parse_date pow10).

Definition index_key (r : IndexReader) (idx : IndexFile) : string :=
  cache_key r (inverted_path r idx) (if_blob_offset idx).

(** The indexes in use and what their keys stand for in the store, which does not change. *)
Context (known : IndexReader → IndexFile → Prop) (files : string → InvFile).
Definition used (k : string) : Prop := ∃ r idx, known r idx ∧ k = index_key r idx.
Record store_lawful : Prop := {
  sl_read r idx : known r idx → ∃ b, fetch_index io (inverted_path r idx) idx = Ok (Some b)
    ∧ ix_inverted io b = Some (files (index_key r idx));
  (** No index is both a whole file and a blob of it. *)
  sl_blob r idx : known r idx → is_Some (if_blob_offset idx) → ¬ used (object_key r (inverted_path r idx))
}.

(** A cached index has its analyzer in the cache. *)
Record coherent (c : IndexCaches) : Prop := {
  co_inverted k e : used k → ic_inverted c !! k = Some e →
    e = inv_entries (files k) ∧ ic_analyzer c !! k = inv_analyzer (files k);
  co_byte k b : used k → ic_byte c !! k = Some b → ix_inverted io b = Some (files k);
  co_analyzer k a : used k → ic_analyzer c !! k = Some a → inv_analyzer (files k) = Some a
}.

(** What a query answers from the file of an index. *)
Definition answer (r : IndexReader) (f : QueryFilter) (file : InvFile) : option (gset Z) :=
  if is_exact_filter f && negb (bool_decide (default "identity" (inv_analyzer file) = "identity")) then None
  else finish_bitmap dio r f (matching_rows (key_ok f) (inv_entries file)).

Context (Hstore : store_lawful).

Lemma decode_coherent c r idx b :
  coherent c → known r idx → ix_inverted io b = Some (files (index_key r idx)) →
  let '(res, c') := decode_inverted io c r (inverted_path r idx) (index_key r idx) b in
  res = Ok (Some (inv_entries (files (index_key r idx))))
  ∧ ic_analyzer c' !! index_key r idx = inv_analyzer (files (index_key r idx)) ∧ coherent c'.
Proof.
  intros Hc Hk Hb. unfold decode_inverted. rewrite Hb. set (key := index_key r idx) in *.
  assert (used key) as Hused by (by exists r, idx).
  set (an := match inv_analyzer (files key) with Some a => <[key := a]> (ic_analyzer c) | None => ic_analyzer c end).
  assert (an !! key = inv_analyzer (files key)) as Han.
  { unfold an. destruct (inv_analyzer (files key)) as [a|] eqn:Ea; [by rewrite lookup_insert_eq|].
    destruct (ic_analyzer c !! key) as [a|] eqn:Ec; [|done]. by rewrite (co_analyzer c Hc key a Hused Ec) in Ea. }
  assert (∀ k, k ≠ key → an !! k = ic_analyzer c !! k) as Hother.
  { intros k Hne. unfold an. destruct (inv_analyzer (files key)); [by rewrite lookup_insert_ne|done]. }
  split_and!; [done|done|]. split; cbn [ic_inverted ic_byte ic_analyzer].
  - intros k e Hu Hl. assert (k = key → e = inv_entries (files k) ∧ an !! k = inv_analyzer (files k)) as Hkey.
    { intros ->. split; [|done]. destruct (decide (object_key r (inverted_path r idx) = key)) as [Heq|Hne].
      - rewrite Heq, lookup_insert_eq in Hl. by simplify_eq.
      - rewrite lookup_insert_ne in Hl by done. by apply (co_inverted c Hc key). }
    destruct (decide (k = key)) as [->|Hne]; [by apply Hkey|]. rewrite Hother by done.
    destruct (decide (k = object_key r (inverted_path r idx))) as [->|Hne'].
    + exfalso. destruct (if_blob_offset idx) as [o|] eqn:Eo; [by apply (sl_blob Hstore r idx)|].
      apply Hne. unfold key, index_key, cache_key. by rewrite Eo.
    + rewrite lookup_insert_ne in Hl by done. by apply (co_inverted c Hc).
  - intros k b' Hu Hl. by apply (co_byte c Hc).
  - intros k a Hu Hl. destruct (decide (k = key)) as [->|Hne]; [by rewrite <- Han|].
    rewrite Hother in Hl by done. by apply (co_analyzer c Hc).
Qed.

Lemma load_coherent c r idx :
  coherent c → known r idx →
  let '(res, c') := load_inverted io c r idx in
  res = Ok (Some (inv_entries (files (index_key r idx))))
  ∧ ic_analyzer c' !! index_key r idx = inv_analyzer (files (index_key r idx)) ∧ coherent c'.
Proof.
  intros Hc Hk. unfold load_inverted. fold (index_key r idx). assert (used (index_key r idx)) as Hused by (by exists r, idx).
  destruct (ic_inverted c !! index_key r idx) as [e|] eqn:Ei.
  { destruct (co_inverted c Hc _ _ Hused Ei) as [-> ?]. done. }
  destruct (ic_byte c !! index_key r idx) as [b|] eqn:Eb.
  { apply decode_coherent; [done|done|]. by apply (co_byte c Hc). }
  destruct (sl_read Hstore r idx Hk) as (b & -> & Hb). apply decode_coherent; [|done|done].
  destruct Hc as [Hi Hby Ha]. split; cbn [ic_inverted ic_byte ic_analyzer]; [done| |done].
  intros k b' Hu Hl. destruct (decide (k = index_key r idx)) as [->|Hne].
  - rewrite lookup_insert_eq in Hl. by simplify_eq.
  - rewrite lookup_insert_ne in Hl by done. by apply Hby.
Qed.

Lemma query_coherent c r f idx :
  coherent c → inv_idx_info r (qf_column f) = Some idx → known r idx →
  (query c r f).1 = Ok (answer r f (files (index_key r idx))) ∧ coherent (query c r f).2.
Proof.
  intros Hc Hi Hk. unfold get_scalar_filter_bitmap, matching_bitmap, answer. rewrite Hi. fold (index_key r idx).
  pose proof (load_coherent c r idx Hc Hk) as Hl. destruct (load_inverted io c r idx) as [res c'].
  destruct Hl as (-> & -> & Hc'). by destruct (_ && _).
Qed.

Fixpoint run_queries (c : IndexCaches) (qs : list (IndexReader * QueryFilter))
  : list (result ierr (option (gset Z))) * IndexCaches :=
  match qs with
  | [] => ([], c)
  | (r, f) :: qs =>
      let '(res, c) := query c r f in
      let '(rest, c) := run_queries c qs in
      (res :: rest, c)
  end.

(** C34: Any sequence of filters on indexed columns is answered from the files as they are, as if
    there were no caches, if an index that is cached has its analyzer cached. *)
Theorem index_caches_transparent (c : IndexCaches) (qs : list (IndexReader * QueryFilter)) (idxs : list IndexFile) :
  coherent c →
  Forall2 (fun q idx => inv_idx_info q.1 (qf_column q.2) = Some idx ∧ known q.1 idx) qs idxs →
  (run_queries c qs).1
  = zip_with (fun q idx => Ok (answer q.1 q.2 (files (index_key q.1 idx)))) qs idxs
  ∧ coherent (run_queries c qs).2.
Proof.
  intros Hc Hqs. revert c Hc. induction Hqs as [|[r f] idx qs idxs [Hi Hk] _ IH]; intros c Hc; [done|].
  cbn [run_queries zip_with fst snd] in *. destruct (query_coherent c r f idx Hc Hi Hk) as [Hres Hc'].
  destruct (query c r f) as [res c1]. cbn [fst snd] in *. destruct (IH c1 Hc') as [Hrest Hc2].
  destruct (run_queries c1 qs) as [rest c2]. cbn [fst snd] in *. split; [by rewrite Hres, Hrest|done].
Qed.
End Caches.

(** ** Keys against filters *)

Definition cell_of_key (k : Key) : Cell :=
  match k with
  | KInt32 z | KInt64 z => CInt z
  | KFloat64 f => CFloat f
  | KUtf8 s => CString s
  | KBool b => CBool b
  | _ => CNull
  end.

(** A literal of the key's type: integers in its range, and no NaN among floats. *)
Definition literal_fits (k : Key) (v : Value) : Prop :=
  match k with
  | KInt32 _ => ∃ z, cell_of_value v = CInt z ∧ value_as_i64 v = Some z ∧ - 2 ^ 31 ≤ z < 2 ^ 31
  | KInt64 _ => ∃ z, cell_of_value v = CInt z ∧ value_as_i64 v = Some z
  | KFloat64 f => f ≠ S754_nan ∧ ∃ n, v = VNumber n ∧ plain v
  | KUtf8 _ => ∃ s, v = VString s
  | KBool _ => ∃ b, v = VBool b
  | _ => False
  end.

Lemma wrap_i32_id z : - 2 ^ 31 ≤ z < 2 ^ 31 → wrap_i32 z = z.
Proof. intros Hz. unfold wrap_i32. rewrite Z.mod_small; lia. Qed.

Section Bounds.
Context {A : Type} (lt le : A → A → bool) (read : Value → option A) (f : QueryFilter) (c : Cell) (val : A).
(** A literal reads as something that compares with the value as the cells do. *)
Definition compares (v : Value) : Prop :=
  ∃ x o, read v = Some x ∧ cell_cmp c (cell_of_value v) = Some o
    ∧ lt x val = bool_decide (o = Gt) ∧ le x val = bool_decide (o ≠ Lt)
    ∧ lt val x = bool_decide (o = Lt) ∧ le val x = bool_decide (o ≠ Gt).

Lemma in_bounds_spec :
  (∀ m, qf_min f = Some m → compares m) → (∀ m, qf_max f = Some m → compares m) →
  in_bounds lt le read f val =
    match qf_min f with Some m => sat_min f c m | None => true end &&
    match qf_max f with Some m => sat_max f c m | None => true end.
Proof.
  intros Hmin Hmax. unfold in_bounds. f_equal.
  - destruct (qf_min f) as [m|]; [|done]. destruct (Hmin m eq_refl) as (x & o & Hr & Ho & H1 & H2 & _).
    cbn [mbind option_bind]. unfold sat_min. rewrite Hr, Ho, H1, H2. by destruct (qf_min_inclusive f), o.
  - destruct (qf_max f) as [m|]; [|done]. destruct (Hmax m eq_refl) as (x & o & Hr & Ho & _ & _ & H1 & H2).
    cbn [mbind option_bind]. unfold sat_max. rewrite Hr, Ho, H1, H2. by destruct (qf_max_inclusive f), o.
Qed.
End Bounds.

Lemma int_compares (read : Value → option Z) z v y :
  read v = Some y → cell_of_value v = CInt y → compares Z.ltb Z.leb read (CInt z) z v.
Proof.
  intros Hr Hv. exists y, (z ?= y). rewrite Hv. split_and!; try done.
  all: destruct (Z.compare_spec z y); try (rewrite bool_decide_true by done; lia);
    rewrite bool_decide_false by naive_solver; lia.
Qed.

Lemma float_compares f v n :
  f ≠ S754_nan → v = VNumber n → plain v → compares SFltb SFleb value_as_f64 (CFloat f) f v.
Proof.
  intros Hf -> Hp.
  assert (∃ x, as_f64 n = Some x ∧ x ≠ S754_nan ∧ cell_cmp (CFloat f) (cell_of_value (VNumber n)) = Some (float_cmp f x))
    as (x & Hx & Hn & Hc).
  { destruct (plain_number n Hp) as [(z & _ & _ & E & ->)|(g & _ & _ & E & Hg & ->)]; eexists; split_and!; try done.
    pose proof (Z_as_f64_finite z) as Hfin. by destruct (Z_as_f64 z). }
  exists x, (float_cmp f x). split_and!; [done|done|..]; unfold SFltb, SFleb; rewrite SFcompare_float_cmp by done.
  all: unfold float_cmp; try rewrite (lex_antisym (float_key f) (float_key x));
    destruct (lex _ _); done.
Qed.

Section Filters.
Context (to_lowercase : string → string) (parse_date : string → option Z) (pow10 : Z → float).
Notation key_ok := (key_ok to_lowercase parse_date pow10).
Notation key_in_range := (key_in_range to_lowercase parse_date pow10).

(** Filters an index answers exactly: equality, IN lists and ranges with a lower bound. *)
Definition exact_filter (f : QueryFilter) : Prop :=
  qf_negated f = false ∧
  match qf_values f with
  | Some vs => (qf_min f = None ∧ qf_max f = None) ∨
      ∃ v, vs = [v] ∧ qf_min f = Some v ∧ qf_max f = Some v
           ∧ qf_min_inclusive f = true ∧ qf_max_inclusive f = true
  | None => is_Some (qf_min f)
  end.

Lemma int_range k z f :
  k = KInt32 z ∨ k = KInt64 z → Forall (literal_fits k) (filter_literals f) → is_Some (qf_min f) →
  key_in_range f k =
    match qf_min f with Some m => sat_min f (CInt z) m | None => true end &&
    match qf_max f with Some m => sat_max f (CInt z) m | None => true end.
Proof.
  intros Hk (Hmin & Hmax & _)%literals_Forall [m Hm]. destruct Hk as [-> | ->].
  1: transitivity (in_bounds Z.ltb Z.leb (fun v => wrap_i32 <$> value_as_i64 v) f z).
  3: transitivity (in_bounds Z.ltb Z.leb value_as_i64 f z).
  1,3: unfold key_in_range; by rewrite Hm.
  all: apply in_bounds_spec; intros v Hv.
  - destruct (Hmin v Hv) as (y & Hc & Hi & Hy). apply (int_compares _ z v y); [|done]. rewrite Hi. cbn. by rewrite wrap_i32_id.
  - destruct (Hmax v Hv) as (y & Hc & Hi & Hy). apply (int_compares _ z v y); [|done]. rewrite Hi. cbn. by rewrite wrap_i32_id.
  - destruct (Hmin v Hv) as (y & Hc & Hi). by apply (int_compares _ z v y).
  - destruct (Hmax v Hv) as (y & Hc & Hi). by apply (int_compares _ z v y).
Qed.

Lemma equals_int z v y : cell_of_value v = CInt y → equals (CInt z) v = Z.eqb z y.
Proof.
  intros Hv. unfold equals. rewrite Hv. cbn [cell_cmp]. destruct (Z.eqb_spec z y) as [->|Hne].
  - by rewrite Z.compare_refl, bool_decide_true.
  - rewrite bool_decide_false; [done|]. intros [= ?%Z.compare_eq]. done.
Qed.

Lemma int_values k z f vs :
  k = KInt32 z ∨ k = KInt64 z → qf_negated f = false → Forall (literal_fits k) vs →
  key_in_values f vs k = existsb (equals (CInt z)) vs.
Proof.
  intros Hk Hn Hvs. unfold key_in_values. rewrite Hn.
  destruct Hk as [-> | ->]; rewrite xorb_false_l; (induction Hvs as [|v vs Hv _ IH]; [done|]); cbn [existsb];
    rewrite IH; f_equal.
  - destruct Hv as (y & Hc & -> & Hy). rewrite (equals_int z v y Hc). by rewrite wrap_i32_id.
  - destruct Hv as (y & Hc & ->). by rewrite (equals_int z v y Hc).
Qed.

Lemma int_key_exact k z f :
  k = KInt32 z ∨ k = KInt64 z → Forall (literal_fits k) (filter_literals f) → exact_filter f →
  key_ok f k = filter_holds (CInt z) f.
Proof.
  intros Hk Hl [Hn Hf]. unfold key_ok, filter_holds. destruct (qf_values f) as [vs|] eqn:Ev.
  - assert (Forall (literal_fits k) vs) as Hvs.
    { apply literals_Forall in Hl as (_ & _ & Hv). apply Forall_forall. intros v. by apply Hv. }
    rewrite (int_values k z f vs) by done. destruct Hf as [[-> ->]|(v & -> & -> & -> & H1 & H2)]; [done|].
    apply Forall_cons in Hvs as [Hvs _]. assert (∃ y, cell_of_value v = CInt y) as [y Hy]
      by (destruct Hk as [-> | ->]; destruct Hvs as (y & ? & _); eauto).
    cbn [existsb]. unfold sat_min, sat_max. rewrite orb_false_r, (equals_int z v y Hy), Hy, H1, H2. cbn [cell_cmp].
    by destruct (Z.compare_spec z y), (Z.eqb_spec z y); try lia.
  - rewrite (int_range k z f) by done. by rewrite andb_true_r.
Qed.

Lemma bool_decide_string_refl (s : string) : bool_decide (s = s) = true.
Proof. by apply bool_decide_true. Qed.

Lemma text_key_sound s f :
  Forall (literal_fits (KUtf8 s)) (filter_literals f) → qf_negated f = false →
  filter_holds (CString s) f = true → key_ok f (KUtf8 s) = true.
Proof.
  intros (Lmin & Lmax & Lv)%literals_Forall Hn (Hmin & Hmax & Hv)%filter_holds_parts. unfold key_ok.
  destruct (qf_values f) as [vs|].
  - destruct (Hv vs eq_refl) as (v & Hin & He). destruct (Lv vs v eq_refl Hin) as [t ->].
    apply bool_decide_eq_true in He. injection He as He%String.compare_eq_iff. subst t.
    unfold key_in_values. rewrite Hn, xorb_false_l. apply existsb_exists. exists (VString s).
    split; [by apply list_elem_of_In|]. cbn. unfold str_same. by rewrite bool_decide_string_refl.
  - unfold key_in_range. destruct (qf_min f) as [mv|] eqn:Em; [|done]. destruct (Lmin mv eq_refl) as [m ->].
    unfold text_in_range. cbn [value_as_str]. rewrite Em. specialize (Hmin _ eq_refl). unfold sat_min in Hmin.
    cbn [cell_of_value cell_cmp] in Hmin.
    destruct (option_value_eqb (Some (VString m)) (qf_max f)) eqn:Eq.
    + destruct (qf_max f) as [mx|]; [|done]. destruct (Lmax mx eq_refl) as [m' ->]. apply bool_decide_eq_true in Eq. subst m'.
      specialize (Hmax _ eq_refl). unfold sat_max in Hmax. cbn [cell_of_value cell_cmp] in Hmax.
      destruct (String.compare s m) eqn:Ec; try done. apply String.compare_eq_iff in Ec as ->.
      unfold str_same. by rewrite bool_decide_string_refl.
    + apply andb_true_iff. split.
      * unfold str_at_least, str_lt. rewrite (String.compare_antisym m s).
        destruct (String.compare s m); simpl in *; try done; by destruct (qf_min_inclusive f).
      * destruct (qf_max f) as [mx|]; [|done]. destruct (Lmax mx eq_refl) as [m' ->]. cbn.
        specialize (Hmax _ eq_refl). unfold sat_max in Hmax. cbn [cell_of_value cell_cmp] in Hmax.
        unfold str_at_least, str_lt. rewrite (String.compare_antisym m' s).
        destruct (String.compare s m'); simpl in *; try done; by destruct (qf_max_inclusive f).
Qed.

(** A filter keeps every key it is true of; ranges of booleans must be equalities. *)
Lemma key_ok_sound k f :
  Forall (literal_fits k) (filter_literals f) → qf_negated f = false →
  (∀ b, k = KBool b → option_value_eqb (qf_min f) (qf_max f) = true) →
  filter_holds (cell_of_key k) f = true → key_ok f k = true.
Proof.
  intros Hl Hn Hb Hh. destruct k; try by apply text_key_sound.
  1,2: pose proof (filter_holds_parts _ _ Hh) as (_ & _ & Hv); unfold key_ok;
    destruct (qf_values f) as [vs|] eqn:Ev;
    [rewrite (int_values _ z) by (auto || (apply literals_Forall in Hl as (_ & _ & Hl); apply Forall_forall; intros v; by apply Hl));
     apply existsb_exists; destruct (Hv vs eq_refl) as (v & Hin & He); exists v; split; [by apply list_elem_of_In|done]
    |destruct (qf_min f) eqn:Em; [|unfold key_in_range; by rewrite Em];
     rewrite (int_range _ z) by (auto || by rewrite Em); unfold filter_holds in Hh;
     rewrite Ev, andb_true_r in Hh; exact Hh].
  all: unfold key_ok; destruct (qf_values f) as [vs|] eqn:Ev; [done|]; unfold key_in_range;
    destruct (qf_min f) as [m|] eqn:Em; [|done];
    apply literals_Forall in Hl as (Lmin & Lmax & _); try (destruct (Lmin m Em); done).
  - destruct (Lmin m Em) as (Hf & n & Hm & Hp). rewrite (in_bounds_spec _ _ _ _ (CFloat f0)).
    + unfold filter_holds in Hh. by rewrite Ev, andb_true_r in Hh.
    + intros v Hv. rewrite Em in Hv. simplify_eq. by apply (float_compares f0 _ n).
    + intros v Hv. destruct (Lmax v Hv) as (_ & n' & -> & Hp'). by apply (float_compares f0 _ n').
  - destruct (Lmin m Em) as [b' ->]. cbn. specialize (Hb b eq_refl).
    apply filter_holds_parts in Hh as (Hmin & Hmax & _). specialize (Hmin _ Em). unfold sat_min in Hmin.
    destruct (qf_max f) as [mx|]; [|done]. destruct (Lmax mx eq_refl) as [b'' ->].
    specialize (Hmax _ eq_refl). unfold sat_max in Hmax. cbn in *. by destruct b, b', b''.
Qed.
End Filters.

(** ** From the column to the answer *)

Section Answers.
Context (sort_to_indices : list (option Key) → list nat)
  (hash_iter : gmap Key (list Z) → list (Key * list Z))
  (registry : string → option (string → list string)) (configs : string → option TextConfig).
Context (Hsort : ∀ array, sort_to_indices array ≡ₚ seq 0 (length array))
  (Hiter : ∀ m, hash_iter m ≡ₚ map_to_list m) (Hreg : registry "identity" = Some identity_tokens).
Context (to_lowercase : string → string) (parse_date : string → option Z) (pow10 : Z → float).
Context (io : IndexIo) (dio : DeleteIo) (known : IndexReader → IndexFile → Prop) (files : string → InvFile).
Context (Hstore : store_lawful io known files).
Notation query := (get_scalar_filter_bitmap to_lowercase parse_date pow10 io dio).
Notation build := (build_inverted_index sort_to_indices hash_iter registry configs).

(** The index a reader finds for a column is the one that was built from it. *)
Record indexed (r : IndexReader) (col : string) (c : ColumnArray) : Prop := {
  ix_small : Z.of_nat (length (indexed_keys c)) ≤ 2 ^ 32;
  ix_kind : indexable c = true;
  ix_plain : tokenizer_name (configs col) = "identity";
  ix_built : ∃ st st' idx, ib_inverted st !! col = None ∧ build st col c 0 = Ok st'
    ∧ inv_idx_info r col = Some idx ∧ known r idx
    ∧ ib_files (finish_indexing st') !! col = Some (files (index_key r idx))
}.

Lemma query_built caches r col c f :
  indexed r col c → coherent io known files caches → qf_column f = col → qf_negated f = false →
  ∃ bm, (query caches r f).1 = Ok (Some bm) ∧ coherent io known files (query caches r f).2
    ∧ ∀ x, x ∈ bm ↔ has_row (key_ok to_lowercase parse_date pow10 f) (indexed_keys c) x
                    ∧ x ∉ all_deletes dio (ir_reader r).
Proof.
  intros [Hlen Hk Hname (st & st' & idx & Hnone & Hb & Hi & Hkn & Hf)] Hc <- Hn.
  destruct (index_locates sort_to_indices hash_iter registry configs Hsort Hiter st (qf_column f) c)
    as (st2 & file & Hb2 & Hf2 & Ha & Hrows); [done..|].
  rewrite Hb in Hb2. injection Hb2 as <-. rewrite Hf in Hf2. injection Hf2 as <-.
  destruct (query_coherent to_lowercase parse_date pow10 io dio known files Hstore caches r f idx) as [Hq Hc']; [done..|].
  rewrite Hq. unfold answer.
  rewrite Ha, bool_decide_true, andb_false_r by done. unfold finish_bitmap. rewrite Hn.
  eexists. split_and!; [done|done|]. intros x. by rewrite elem_of_difference, Hrows.
Qed.

(** C15: A filter that is not negated, on a column whose index was built over one batch with the
    identity tokenizer, is answered, when the caches agree with the files, with live rows that hold a
    value only, and with every live row of which it is true, if the literals of the filter are of the
    type and range of the row's value, text has no white space around it, and a filter on booleans is
    an equality.  When all values of the column are integers of 32 or 64 bits that the literals fit,
    equality, IN lists and ranges with a lower bound are answered with exactly the live rows of which
    they are true.  (Outside of these conditions: [index_answers_differ].) *)
Theorem indexed_filter_answers caches r col c f :
  indexed r col c → coherent io known files caches → qf_column f = col → qf_negated f = false →
  ∃ bm, (query caches r f).1 = Ok (Some bm)
    ∧ (∀ x, x ∈ bm → x ∉ all_deletes dio (ir_reader r) ∧ has_row (fun _ => true) (column_keys c) x)
    ∧ (∀ i k, column_keys c !! i = Some (Some k) → trim_key k = k → Z.of_nat i ∉ all_deletes dio (ir_reader r) →
         Forall (literal_fits k) (filter_literals f) →
         (∀ b, k = KBool b → option_value_eqb (qf_min f) (qf_max f) = true) →
         filter_holds (cell_of_key k) f = true → Z.of_nat i ∈ bm)
    ∧ (exact_filter f →
       (∀ i k, column_keys c !! i = Some (Some k) →
          (∃ z, k = KInt32 z ∨ k = KInt64 z) ∧ Forall (literal_fits k) (filter_literals f)) →
       ∀ x, x ∈ bm ↔ x ∉ all_deletes dio (ir_reader r)
         ∧ has_row (fun k => filter_holds (cell_of_key k) f) (column_keys c) x).
Proof.
  intros Hix Hc Hcol Hn. destruct (query_built caches r col c f Hix Hc Hcol Hn) as (bm & Hq & _ & Hbm).
  setoid_rewrite has_row_trim in Hbm. exists bm. split_and!; [done|..].
  - intros x [(i & k & -> & Hi & _) Hd]%Hbm. split; [done|]. by exists i, k.
  - intros i k Hi Ht Hd Hl Hb Hh. apply Hbm. split; [|done]. exists i, k. rewrite Ht.
    split_and!; [done|done|]. by apply key_ok_sound.
  - intros Hex Hint x. rewrite Hbm.
    assert (has_row (fun k => key_ok to_lowercase parse_date pow10 f (trim_key k)) (column_keys c) x
      ↔ has_row (fun k => filter_holds (cell_of_key k) f) (column_keys c) x) as ->; [|tauto].
    unfold has_row. apply exist_proper; intros i. apply exist_proper; intros k.
    assert (column_keys c !! i = Some (Some k) → key_ok to_lowercase parse_date pow10 f (trim_key k)
      = filter_holds (cell_of_key k) f) as Heq; [|by split; intros (-> & Hi & Hp); rewrite Heq in * by done].
    intros Hi. destruct (Hint i k Hi) as [[z Hz] Hl]. replace (trim_key k) with k by (by destruct Hz as [-> | ->]).
    rewrite (int_key_exact _ _ _ _ z) by done. by destruct Hz as [-> | ->].
Qed.
End Answers.

(** ** Small indexes *)

Module InvertedExamples.
Definition sort_ids (a : list (option Key)) : list nat := seq 0 (length a).
Definition registered (name : string) : option (string → list string) :=
  if decide (name = "identity") then Some identity_tokens
  else if decide (name = "words") then Some (split_char (Ascii.ascii_of_nat 32)) else None.
Definition plain_config (col : string) : option TextConfig := None.
Definition words_config (col : string) : option TextConfig := Some {| tc_tokenizer := Some "words"; tc_bm25 := [] |}.
Definition no_dates (s : string) : option Z := None.
Definition pow10 (s : Z) : float := Z_as_f64 (10 ^ s).
Definition no_buffers : IndexBuffers := {| ib_files := ∅; ib_inverted := ∅; ib_metadata := ∅ |}.
Definition no_file : InvFile := {| inv_analyzer := None; inv_entries := [] |}.

(** The file of column [col] after building batches at the given offsets. *)
Definition built (configs : string → option TextConfig) (batches : list (Z * ColumnArray)) : InvFile :=
  match foldl (fun st b => st ← st; build_inverted_index sort_ids map_to_list registered configs st "col" b.2 b.1)
          (Ok no_buffers) batches with
  | Ok st => default no_file (ib_files (finish_indexing st) !! "col")
  | Err _ => no_file
  end.

Definition idx : IndexFile :=
  {| if_format_version := 1; if_index_id := ""; if_index_category := "inverted"; if_algorithm := "inverted";
     if_column_name := "col"; if_source_snapshot_id := 0; if_source_data_checksum := ""; if_source_record_count := 0;
     if_index_checksum := None; if_file_path := "a.col.inv.parquet"; if_blob_type := None; if_blob_offset := None;
     if_blob_length := None; if_compression := "" |}.
Definition rdr : IndexReader :=
  {| ir_reader := {| hr_config := {| sc_base_path := "file:///t"; sc_segment_id := "a";
                                     sc_parquet_path := Some "a.parquet"; sc_delete_files := [] |};
                     hr_root_uri := "file:///t" |};
     ir_index_files := [idx]; ir_record_count := Some 4; ir_file_checksum := None; ir_active_snapshot_id := None |}.
Definition disk (f : InvFile) : IndexIo :=
  {| ix_get := fun _ => Fetched []; ix_get_range := fun _ _ _ => None; ix_inverted := fun _ => Some f;
     ix_bitmap := fun _ => None |}.
Definition no_deletes : DeleteIo :=
  {| io_get := fun _ => None; io_get_range := fun _ _ _ => None; io_avro := fun _ => None;
     io_parquet := fun _ => None; io_bitmap := fun _ => None |}.
Definition cold : IndexCaches := {| ic_inverted := ∅; ic_byte := ∅; ic_analyzer := ∅; ic_index := ∅ |}.
Abbreviation ask := (get_scalar_filter_bitmap to_ascii_lowercase no_dates pow10).

(** The sorted rows of an answer. *)
Definition rows_of (res : result ierr (option (gset Z)) * IndexCaches) : option (list Z) :=
  match res.1 with Ok (Some bm) => Some (merge_sort Z.le (elements bm)) | _ => None end.
Definition found (f : InvFile) (q : QueryFilter) : option (list Z) := rows_of (ask (disk f) no_deletes cold rdr q).
Definition int (z : Z) : Value := VNumber (Number_of_int z).

Definition numbers : ColumnArray := ColInt64 [Some 5; None; Some 7; Some 5].
Definition is5 : QueryFilter := cmp_filter "col" (Some (int 5)) true (Some (int 5)) true (Some [int 5]) false.
Definition above5 : QueryFilter := cmp_filter "col" (Some (int 5)) false None true None false.

Example found5 : found (built plain_config [(0, numbers)]) is5 = Some [0; 3]
  ∧ found (built plain_config [(0, numbers)]) above5 = Some [2].
Proof. vm_compute. done. Qed.

Lemma sort_ids_ok a : sort_ids a ≡ₚ seq 0 (length a).
Proof. done. Qed.

Lemma index_locates_values_witness :
  ∃ st' f, build_inverted_index sort_ids map_to_list registered plain_config no_buffers "col" numbers 0 = Ok st'
    ∧ ib_files (finish_indexing st') !! "col" = Some f
    ∧ default "identity" (inv_analyzer f) = "identity"
    ∧ ∀ P x, x ∈ matching_rows P (inv_entries f) ↔ has_row (fun k => P (trim_key k)) (column_keys numbers) x.
Proof.
  apply (index_locates_values sort_ids map_to_list registered plain_config sort_ids_ok (fun _ => reflexivity _)
    no_buffers "col" numbers); [reflexivity|reflexivity|reflexivity|vm_compute; congruence|reflexivity].
Defined.

Definition only (r : IndexReader) (i : IndexFile) : Prop := r = rdr ∧ i = idx.
Definition number_file (k : string) : InvFile := built plain_config [(0, numbers)].
Lemma disk_lawful : store_lawful (disk (number_file "")) only number_file.
Proof. split; [by intros r i [-> ->]; exists []|]. intros r i [-> ->] [o Ho]. done. Qed.
Lemma cold_coherent : coherent (disk (number_file "")) only number_file cold.
Proof. split; intros k e _ Hl; cbn in Hl; by rewrite lookup_empty in Hl. Qed.
Lemma numbers_indexed :
  indexed sort_ids map_to_list registered plain_config only number_file rdr "col" numbers.
Proof.
  split; [vm_compute; congruence|done|vm_compute; reflexivity|].
  destruct (build_inverted_index sort_ids map_to_list registered plain_config no_buffers "col" numbers 0) as [st'|] eqn:Hb.
  - exists no_buffers, st', idx. split_and!; [vm_compute; reflexivity|done|vm_compute; reflexivity|done|].
    unfold number_file, built. cbn [foldl]. cbn [mbind result_bind fst snd]. rewrite Hb.
    apply (f_equal res_ok) in Hb. vm_compute in Hb. apply (inj Some) in Hb as <-. vm_compute. reflexivity.
  - apply (f_equal res_ok) in Hb. vm_compute in Hb. discriminate.
Qed.

Lemma indexed_filter_answers_witness :
  ∃ bm, (ask (disk (number_file "")) no_deletes cold rdr is5).1 = Ok (Some bm) ∧ 0 ∈ bm ∧ 2 ∉ bm.
Proof.
  destruct (indexed_filter_answers sort_ids map_to_list registered plain_config sort_ids_ok (fun _ => reflexivity _)
    eq_refl to_ascii_lowercase no_dates pow10 (disk (number_file "")) no_deletes only number_file disk_lawful
    cold rdr "col" numbers is5 numbers_indexed cold_coherent eq_refl eq_refl) as (bm & Hq & Hlive & Hsound & Hexact).
  exists bm. split; [exact Hq|].
  assert (∀ x, x ∈ bm ↔ x ∉ all_deletes no_deletes (ir_reader rdr)
    ∧ has_row (fun k => filter_holds (cell_of_key k) is5) (column_keys numbers) x) as Hb.
  { apply Hexact.
    - split; [done|]. right. by exists (int 5).
    - intros i k Hi. assert (∃ z, k = KInt64 z) as [z ->].
      { destruct i as [|[|[|[|]]]]; simplify_eq/=; eauto. }
      split; [eauto|]. repeat constructor; by exists 5. }
  split.
  - apply Hb. split; [apply not_elem_of_empty|]. exists 0%nat, (KInt64 5). done.
  - intros [_ (i & k & Hi & Hk & Hh)]%Hb. assert (i = 2%nat) as -> by lia. cbn in Hk. by simplify_eq.
Defined.

Lemma index_caches_transparent_witness :
  (fun res => rows_of (res, cold)) <$>
    (run_queries to_ascii_lowercase no_dates pow10 (disk (number_file "")) no_deletes cold
       [(rdr, is5); (rdr, above5)]).1 = [Some [0; 3]; Some [2]].
Proof.
  destruct (index_caches_transparent to_ascii_lowercase no_dates pow10 (disk (number_file "")) no_deletes only number_file
    disk_lawful cold [(rdr, is5); (rdr, above5)] [idx; idx] cold_coherent) as [-> _].
  - repeat constructor; vm_compute; reflexivity.
  - vm_compute. reflexivity.
Defined.

Definition text (l : list string) : ColumnArray := ColUtf8 (Some <$> l).
Definition text_is (s : string) : QueryFilter :=
  cmp_filter "col" (Some (VString s)) true (Some (VString s)) true (Some [VString s]) false.

(** Answers that are not the rows of the filter.  [col != 5] is negated twice and gives the rows
    that hold 5 or null; [col < 5] gives every row with a value; text is compared without case, and
    text with white space around it is not found; a bound outside 32 bits wraps around and loses
    rows; a number written as a float is not found in an integer column. *)
Theorem index_answers_differ :
  let ints := built plain_config [(0, numbers)] in
  let small := built plain_config [(0, ColInt32 [Some 5; Some 9])] in
  let names := built plain_config [(0, text ["a"; "A"; " b"])] in
  found ints (cmp_filter "col" (Some (int 5)) true (Some (int 5)) true (Some [int 5]) true) = Some [0; 1; 3]
  ∧ found ints (cmp_filter "col" None true (Some (int 5)) false None false) = Some [0; 2; 3]
  ∧ found names (text_is "a") = Some [0; 1] ∧ found names (text_is " b") = Some []
  ∧ found small (cmp_filter "col" (Some (int 5)) true (Some (int 3000000000)) true None false) = Some []
  ∧ found ints (cmp_filter "col" None false None false (Some [VNumber (Float (Z_as_f64 5))]) false) = Some [].
Proof. vm_compute. repeat split. Qed.

(** An index of integers that is built from several batches, as a backfill does, holds the last
    batch only, with rows counted from its start; text is indexed over all batches. *)
Example backfill_keeps_last_batch :
  found (built plain_config [(0, ColInt64 [Some 5; Some 6]); (2, ColInt64 [Some 7; Some 5])]) is5 = Some [1]
  ∧ found (built plain_config [(0, text ["x"; "y"]); (2, text ["z"; "x"])]) (text_is "x") = Some [0; 3].
Proof. vm_compute. done. Qed.

(** When the analyzer of a cached index has been evicted, a tokenized index answers exact filters:
    the row that holds "big cat" is not found. *)
Example evicted_analyzer :
  let words := built words_config [(0, text ["big cat"])] in
  let '(first, warm) := ask (disk words) no_deletes cold rdr (text_is "big cat") in
  let evicted := {| ic_inverted := ic_inverted warm; ic_byte := ic_byte warm; ic_analyzer := ∅; ic_index := ∅ |} in
  first = Ok None ∧ rows_of (ask (disk words) no_deletes evicted rdr (text_is "big cat")) = Some [].
Proof. vm_compute. done. Qed.
End InvertedExamples.
