(* ===== verification/PrimaryKey.v ===== *)
(** * Primary keys

    The primary key of a table: its definition in the schema and in memory, the validation of
    writes and the row-value filters of [src/src/core/table/primary_key.rs], with the checks of
    [src/src/core/table/write.rs] and [src/src/core/table/stage.rs] and the lookup
    [check_value_exists] of [src/src/core/reader/filter.rs].  A batch is given by the values
    ([ManifestValue::from_array]) of its columns. *)

From Stdlib Require Import Floats.SpecFloat.
From S2P Require Import Prelude Json ManifestTypes Planner FilterText Deletes.
Open Scope Z_scope.

(** ** Text of values *)

Definition quote : Ascii.ascii := Ascii.ascii_of_nat 34.
Definition backslash : Ascii.ascii := Ascii.ascii_of_nat 92.

Section Text.
(** Rust's [Display] of a float, and that of a JSON number. *)
Context (display_f32 display_f64 json_f64 : float → string).

(** [impl Display for ManifestValue] *)
Definition display (v : ManifestValue) : string :=
  match v with
  | MString s => s
  | MInt32 i | MInt64 i => pretty i
  | MFloat32 f => display_f32 f
  | MFloat64 f => display_f64 f
  | MBoolean b => if b then "true" else "false"
  | MNull => "null"
  end.

Definition lower_hex (n : nat) : Ascii.ascii :=
  Ascii.ascii_of_nat (if decide (n < 10)%nat then 48 + n else 87 + n).

(** The escapes of a JSON string. *)
Definition json_escape (c : Ascii.ascii) : string :=
  let n := Ascii.nat_of_ascii c in
  let esc (k : nat) := String.String backslash (String.String (Ascii.ascii_of_nat k) EmptyString) in
  if decide (n = 34%nat) then esc 34%nat
  else if decide (n = 92%nat) then esc 92%nat
  else if decide (n = 8%nat) then esc 98%nat
  else if decide (n = 9%nat) then esc 116%nat
  else if decide (n = 10%nat) then esc 110%nat
  else if decide (n = 12%nat) then esc 102%nat
  else if decide (n = 13%nat) then esc 114%nat
  else if decide (n < 32)%nat
  then String.String backslash ("u00" +:+ String.String (lower_hex (n / 16))
         (String.String (lower_hex (n mod 16)) EmptyString))
  else String.String c EmptyString.
Fixpoint json_escapes (s : string) : string :=
  match s with EmptyString => EmptyString | String.String c s => json_escape c +:+ json_escapes s end.

(** [impl Display for serde_json::Value] *)
Definition json_text (v : Value) : string :=
  match v with
  | VNull => "null"
  | VBool b => if b then "true" else "false"
  | VNumber (PosInt n) | VNumber (NegInt n) => pretty n
  | VNumber (Float f) => json_f64 f
  | VString s => String.String quote (json_escapes s +:+ String.String quote EmptyString)
  | VOther text => text
  end.

(** ** Looking a value up in storage *)

(** A file that cannot be read. *)
Inductive lookup_error := BloomFailed | IndexFailed | ScanFailed.

(** A segment as a lookup sees it: the values of a column in all rows of the file, the deleted
    positions, the answer of the Bloom filters and of an index on the column, and where the
    stream of its rows fails: after so many rows. *)
Record Segment := {
  sg_values : string → list ManifestValue;
  sg_deletes : gset Z;
  sg_bloom : string → Value → result lookup_error bool;
  sg_index : string → Value → result lookup_error (option (gset Z));
  sg_scan_fails : string → option nat
}.

(** The scan: rows are streamed without the deleted ones and numbered from zero, and a number
    that is a deleted position is skipped; it stops at the first match or failure. *)
Fixpoint scan_rows (deletes : gset Z) (value : Value) (fails : option nat) (row_offset : nat)
    (rows : list ManifestValue) : result lookup_error bool :=
  if decide (fails = Some row_offset) then Err ScanFailed
  else match rows with
  | [] => Ok false
  | val :: rows =>
      if decide (Z.of_nat row_offset ∈ deletes) then scan_rows deletes value fails (S row_offset) rows
      else if decide (display val = trim_matches quote (json_text value)) then Ok true
      else scan_rows deletes value fails (S row_offset) rows
  end.

Definition check_value_exists (seg : Segment) (column : string) (value : Value)
  : result lookup_error bool :=
  possible ← sg_bloom seg column value;
  if negb possible then Ok false
  else
    index ← sg_index seg column value;
    match index with
    | Some bitmap => Ok (negb (bool_decide (bitmap ∖ sg_deletes seg = ∅)))
    | None => scan_rows (sg_deletes seg) value (sg_scan_fails seg column) 0
                (visible (sg_deletes seg) (sg_values seg column))
    end.

(** [_check_pk_in_storage_async]: the newest segments first; the first match or failure is the
    answer.  (The code runs eight of the checks at a time, so that with both a match and a failure
    either can be the answer; the write is rejected in both cases.) *)
Fixpoint first_found (segs : list Segment) (column : string) (value : Value)
  : result lookup_error bool :=
  match segs with
  | [] => Ok false
  | seg :: segs =>
      match check_value_exists seg column value with
      | Ok false => first_found segs column value
      | res => res
      end
  end.
Definition check_pk_in_storage (segs : list Segment) (column : string) (value : Value)
  : result lookup_error bool :=
  first_found (rev segs) column value.

(** ** Validating a write *)

Inductive pk_error :=
| NullConstraintViolation (column : string)
| PrimaryKeyViolation (key : string)
| LookupFailed (e : lookup_error).

(** A batch by its columns. *)
Definition batch_columns : Type := gmap string (list ManifestValue).

(** The keys of one column of a batch, against the keys seen so far. *)
Fixpoint check_keys (segs : list Segment) (pk_col : string) (keys : list ManifestValue)
    (seen_keys : gset string) : result pk_error (gset string) :=
  match keys with
  | [] => Ok seen_keys
  | m_val :: keys =>
      if decide (m_val = MNull) then Err (NullConstraintViolation pk_col)
      else
        let val_str := display m_val in
        if decide (val_str ∈ seen_keys) then Err (PrimaryKeyViolation val_str)
        else match check_pk_in_storage segs pk_col (Value_of_manifest m_val) with
             | Err e => Err (LookupFailed e)
             | Ok true => Err (PrimaryKeyViolation val_str)
             | Ok false => check_keys segs pk_col keys ({[val_str]} ∪ seen_keys)
             end
  end.

Fixpoint check_batches (segs : list Segment) (pk_col : string) (batches : list batch_columns)
    (seen_keys : gset string) : result pk_error (gset string) :=
  match batches with
  | [] => Ok seen_keys
  | batch :: batches =>
      match batch !! pk_col with
      | Some keys => seen_keys ← check_keys segs pk_col keys seen_keys;
                     check_batches segs pk_col batches seen_keys
      | None => check_batches segs pk_col batches seen_keys
      end
  end.

Definition pending_keys (pending : list batch_columns) (pk_col : string) : list ManifestValue :=
  pending ≫= fun b => default [] (b !! pk_col).

Definition validate_single (segs : list Segment) (pending : list batch_columns) (pk_col : string)
    (batches : list batch_columns) : result pk_error unit :=
  _ ← check_batches segs pk_col batches
        (list_to_set (display <$> pending_keys pending pk_col));
  Ok tt.

(** [PartialEq] of values: floats compare as numbers. *)
Definition manifest_value_eq (a b : ManifestValue) : bool :=
  match a, b with
  | MFloat32 x, MFloat32 y | MFloat64 x, MFloat64 y => SFeqb x y
  | _, _ => bool_decide (a = b)
  end.

(** Several columns: each on its own, against the buffer and the rows before it. *)
Fixpoint check_column (pk_col : string) (pending : list ManifestValue) (before keys : list ManifestValue)
  : result pk_error unit :=
  match keys with
  | [] => Ok tt
  | val :: keys =>
      if decide (val = MNull) then Err (NullConstraintViolation pk_col)
      else if existsb (manifest_value_eq val) (pending ++ before) then Err (PrimaryKeyViolation (display val))
      else check_column pk_col pending (before ++ [val]) keys
  end.

Fixpoint check_columns (pending : list batch_columns) (batch : batch_columns) (pk_cols : list string)
  : result pk_error unit :=
  match pk_cols with
  | [] => Ok tt
  | pk_col :: pk_cols =>
      _ ← match batch !! pk_col with
          | Some keys => check_column pk_col (pending_keys pending pk_col) [] keys
          | None => Ok tt
          end;
      check_columns pending batch pk_cols
  end.

Fixpoint validate_composite (pending batches : list batch_columns) (pk_cols : list string)
  : result pk_error unit :=
  match batches with
  | [] => Ok tt
  | batch :: batches => _ ← check_columns pending batch pk_cols; validate_composite pending batches pk_cols
  end.

(** The validation at the start of a write. *)
Definition validate_write (segs : list Segment) (pending : list batch_columns) (pk_cols : list string)
    (batches : list batch_columns) : result pk_error unit :=
  match pk_cols with
  | [] => Ok tt
  | [pk_col] => validate_single segs pending pk_col batches
  | _ => validate_composite pending batches pk_cols
  end.

(** The check before the rows are buffered: the values of each key column of a batch must be
    distinct. *)
Fixpoint distinct_values (seen : gset string) (keys : list ManifestValue) : result pk_error unit :=
  match keys with
  | [] => Ok tt
  | v :: keys =>
      if decide (display v ∈ seen) then Err (PrimaryKeyViolation (display v))
      else distinct_values ({[display v]} ∪ seen) keys
  end.
Fixpoint precheck_columns (batch : batch_columns) (pk_cols : list string) : result pk_error unit :=
  match pk_cols with
  | [] => Ok tt
  | pk :: pk_cols =>
      _ ← match batch !! pk with Some keys => distinct_values ∅ keys | None => Ok tt end;
      precheck_columns batch pk_cols
  end.
Fixpoint precheck (batches : list batch_columns) (pk_cols : list string) : result pk_error unit :=
  match batches with
  | [] => Ok tt
  | batch :: batches => _ ← precheck_columns batch pk_cols; precheck batches pk_cols
  end.

Definition accept_write (segs : list Segment) (pending : list batch_columns) (pk_cols : list string)
    (batches : list batch_columns) : result pk_error unit :=
  _ ← validate_write segs pending pk_cols batches; precheck batches pk_cols.

(** ** What an accepted write means *)

(** The rows of a segment that are left. *)
Definition live (seg : Segment) (column : string) : list ManifestValue :=
  visible (sg_deletes seg) (sg_values seg column).

(** The text a lookup compares with is that of the value. *)
Definition printable (v : ManifestValue) : Prop :=
  trim_matches quote (json_text (Value_of_manifest v)) = display v.

(** Bloom filters have no false negatives, an index gives the rows with the value, and a
    segment without an index on the column has no pending deletes.  Any lookup may fail. *)
Record lookup_lawful (seg : Segment) (column : string) (v : ManifestValue) : Prop := {
  ll_bloom : display v ∈ display <$> live seg column →
    sg_bloom seg column (Value_of_manifest v) ≠ Ok false;
  ll_index : ∀ bm, sg_index seg column (Value_of_manifest v) = Ok (Some bm) →
    bm ∖ sg_deletes seg ≠ ∅ ↔ display v ∈ display <$> live seg column;
  ll_scan : sg_index seg column (Value_of_manifest v) = Ok None → sg_deletes seg = ∅
}.

(** The lookup of a value in a segment does not fail. *)
Definition answers (seg : Segment) (column : string) (v : ManifestValue) : Prop :=
  is_ok (check_value_exists seg column (Value_of_manifest v)) = true.

Lemma scan_rows_spec value fails k rows b :
  scan_rows ∅ value fails k rows = Ok b →
  b = true ↔ trim_matches quote (json_text value) ∈ display <$> rows.
Proof.
  revert k. induction rows as [|v rows IH]; intros k; cbn [scan_rows fmap list_fmap];
    (case_decide; [done|]).
  { intros [= <-]. split; [done|]. by intros ?%not_elem_of_nil. }
  rewrite (decide_False (P := Z.of_nat k ∈ ∅)) by set_solver. rewrite elem_of_cons. case_decide as Hv.
  - intros [= <-]. split; [|done]. intros _. by left.
  - intros ->%IH. split; [by right|]. intros [?|?]; [congruence|done].
Qed.

Lemma check_value_exists_spec seg column v b :
  printable v → lookup_lawful seg column v →
  check_value_exists seg column (Value_of_manifest v) = Ok b →
  b = true ↔ display v ∈ display <$> live seg column.
Proof.
  intros Hp [Hb Hi Hs]. unfold check_value_exists.
  destruct (sg_bloom seg column (Value_of_manifest v)) as [[]|]; cbn [mbind result_bind negb]; [|..|done].
  2: { intros [= <-]. split; [done|]. intros Hin. by destruct (Hb Hin). }
  destruct (sg_index seg column (Value_of_manifest v)) as [[bm|]|]; cbn [mbind result_bind]; [..|done].
  - intros [= <-]. by rewrite <- (Hi bm eq_refl), negb_true_iff, bool_decide_eq_false.
  - unfold live. rewrite (Hs eq_refl). intros ->%scan_rows_spec. by rewrite Hp.
Qed.

Definition stored_keys (segs : list Segment) (column : string) : list string :=
  display <$> (segs ≫= fun seg => live seg column).

Lemma elem_of_stored_keys segs column k :
  k ∈ stored_keys segs column ↔ ∃ seg, seg ∈ segs ∧ k ∈ display <$> live seg column.
Proof.
  unfold stored_keys. setoid_rewrite list_elem_of_fmap. setoid_rewrite list_elem_of_bind. naive_solver.
Qed.

Lemma first_found_spec segs column v b :
  printable v → (∀ seg, seg ∈ segs → lookup_lawful seg column v) →
  first_found segs column (Value_of_manifest v) = Ok b →
  b = true ↔ display v ∈ stored_keys segs column.
Proof.
  intros Hp. induction segs as [|seg segs IH]; intros Hl; cbn [first_found]; rewrite elem_of_stored_keys.
  { intros [= <-]. set_solver. }
  setoid_rewrite elem_of_cons.
  pose proof (check_value_exists_spec seg column v) as Hc.
  destruct (check_value_exists seg column (Value_of_manifest v)) as [[]|]; [| |done].
  - intros [= <-]. split; [|done]. intros _. exists seg. split; [by left|]. apply (Hc true); [done| |done..].
    apply Hl. by left.
  - intros ->%IH; [|intros; apply Hl; by right]. rewrite elem_of_stored_keys. split; [naive_solver|].
    intros (seg' & [->|Hin] & Hk); [|by exists seg'].
    apply (Hc false) in Hk; [done|done| |done]. apply Hl. by left.
Qed.

Lemma first_found_answers segs column v :
  Forall (fun seg => answers seg column v) segs → is_ok (first_found segs column (Value_of_manifest v)) = true.
Proof.
  induction 1 as [|seg segs Hs _ IH]; [done|]. cbn [first_found]. unfold answers in Hs.
  by destruct (check_value_exists _ _ _) as [[]|].
Qed.

Lemma check_pk_in_storage_spec segs column v b :
  printable v → (∀ seg, seg ∈ segs → lookup_lawful seg column v) →
  check_pk_in_storage segs column (Value_of_manifest v) = Ok b →
  b = true ↔ display v ∈ stored_keys segs column.
Proof.
  intros Hp Hl. rewrite elem_of_stored_keys. intros Hc%first_found_spec; [|done|].
  - rewrite Hc, elem_of_stored_keys. setoid_rewrite list_elem_of_In. by setoid_rewrite <- List.in_rev.
  - intros seg. rewrite list_elem_of_In, <- List.in_rev, <- list_elem_of_In. apply Hl.
Qed.

Lemma check_pk_in_storage_answers segs column v :
  (∀ seg, seg ∈ segs → answers seg column v) →
  is_ok (check_pk_in_storage segs column (Value_of_manifest v)) = true.
Proof.
  intros Ha. apply first_found_answers, Forall_forall. intros seg.
  rewrite list_elem_of_In, <- List.in_rev, <- list_elem_of_In. apply Ha.
Qed.

(** What the loop over keys accepts. *)
Definition acceptable (segs : list Segment) (column : string) (seen : gset string)
    (keys : list ManifestValue) : Prop :=
  MNull ∉ keys ∧ NoDup (display <$> keys) ∧
  (∀ k, k ∈ display <$> keys → k ∉ seen ∧ k ∉ stored_keys segs column).

(** Every lookup of the keys in storage is answered. *)
Definition lookups_answer (segs : list Segment) (column : string) (keys : list ManifestValue) : Prop :=
  ∀ v seg, v ∈ keys → seg ∈ segs → answers seg column v.

Lemma check_keys_spec segs column keys seen :
  (∀ v, v ∈ keys → v = MNull ∨ (printable v ∧ ∀ seg, seg ∈ segs → lookup_lawful seg column v)) →
  (lookups_answer segs column keys → acceptable segs column seen keys →
     is_ok (check_keys segs column keys seen) = true)
  ∧ (∀ seen', check_keys segs column keys seen = Ok seen' →
     acceptable segs column seen keys ∧ seen' = list_to_set (display <$> keys) ∪ seen).
Proof.
  revert seen. induction keys as [|v keys IH]; intros seen Hk.
  { split; [done|]. intros seen' [= <-]. split; [|set_solver].
    split_and!; [by intros ?%not_elem_of_nil|constructor|by intros k ?%not_elem_of_nil]. }
  assert (∀ b, v ≠ MNull → check_pk_in_storage segs column (Value_of_manifest v) = Ok b →
    b = true ↔ display v ∈ stored_keys segs column) as Hst'.
  { intros b Hv. destruct (Hk v) as [?|[Hp Hl]]; [left|done|]. by apply check_pk_in_storage_spec. }
  destruct (IH ({[display v]} ∪ seen)) as [IH1 IH2]; [intros; apply Hk; by right|].
  cbn [check_keys fmap list_fmap]. split.
  - intros Hans (Hnull & Hnd & Hout). csimpl in *. apply NoDup_cons in Hnd as [Hn Hnd].
    assert (v ≠ MNull) as Hv by (intros ->; apply Hnull; left).
    pose proof (check_pk_in_storage_answers segs column v) as Ha.
    rewrite decide_False by done.
    destruct (Hout (display v)) as [Hs Hs']; [left|]. rewrite decide_False by done.
    destruct (check_pk_in_storage _ _ _) as [[]|] eqn:Hc.
    + by destruct (Hs'); apply (Hst' true Hv).
    + apply IH1; [intros w seg Hw; apply Hans; by right|]. split_and!; [set_solver|done|].
      intros k Hin. destruct (Hout k) as [H1 H2]; [by right|]. split; [|done]. set_solver.
    + discriminate Ha. intros seg. apply Hans. left.
  - intros seen'. case_decide as Hnull; [done|]. case_decide as Hseen; [done|].
    specialize (fun b => Hst' b Hnull) as Hst.
    destruct (check_pk_in_storage segs column (Value_of_manifest v)) as [[]|] eqn:Hc; [done| |done].
    intros [(Hn & Hnd & Hout) ->]%IH2. split; [|csimpl; set_solver]. split_and!.
    + rewrite not_elem_of_cons. split; [by apply not_eq_sym|done].
    + csimpl. constructor; [|done]. intros Hin. destruct (Hout _ Hin) as [Ho _]. set_solver.
    + csimpl. intros k [->|Hin]%elem_of_cons; [|set_solver]. split; [done|].
      intros Hs%(Hst false); done.
Qed.

(** The keys of a write. *)
Definition new_keys (batches : list batch_columns) (pk_col : string) : list ManifestValue :=
  batches ≫= fun b => default [] (b !! pk_col).

Lemma acceptable_app segs column seen k1 k2 :
  acceptable segs column seen (k1 ++ k2) ↔
  acceptable segs column seen k1 ∧ acceptable segs column (list_to_set (display <$> k1) ∪ seen) k2.
Proof.
  unfold acceptable. rewrite not_elem_of_app, fmap_app, NoDup_app.
  setoid_rewrite elem_of_app. setoid_rewrite not_elem_of_union. setoid_rewrite elem_of_list_to_set.
  split; intros Ha; naive_solver.
Qed.

Lemma check_batches_spec segs column batches seen :
  (∀ v, v ∈ new_keys batches column →
     v = MNull ∨ (printable v ∧ ∀ seg, seg ∈ segs → lookup_lawful seg column v)) →
  (is_ok (check_batches segs column batches seen) = true →
   acceptable segs column seen (new_keys batches column))
  ∧ (lookups_answer segs column (new_keys batches column) →
   acceptable segs column seen (new_keys batches column) →
   is_ok (check_batches segs column batches seen) = true).
Proof.
  revert seen. induction batches as [|b batches IH]; intros seen Hk; cbn [check_batches].
  { split; [|done]. intros _.
    split_and!; [by intros ?%not_elem_of_nil|constructor|by intros k ?%not_elem_of_nil]. }
  unfold new_keys in *. rewrite bind_cons in *. destruct (b !! column) as [keys|]; cbn [default] in *.
  2: { by apply IH. }
  rewrite acceptable_app.
  destruct (check_keys_spec segs column keys seen) as [H1 H2].
  { intros v Hv. apply Hk, elem_of_app. by left. }
  assert (∀ v, v ∈ (batches ≫= fun b => default [] (b !! column)) →
    v = MNull ∨ (printable v ∧ ∀ seg, seg ∈ segs → lookup_lawful seg column v)) as Hk'.
  { intros v Hv. apply Hk, elem_of_app. by right. }
  split.
  - destruct (check_keys segs column keys seen) as [seen'|] eqn:Hc; cbn [mbind result_bind]; [|done].
    destruct (H2 _ eq_refl) as [Ha ->]. intros Hb. split; [done|]. by apply (proj1 (IH _ Hk')).
  - intros Hans [Ha Hb].
    assert (is_ok (check_keys segs column keys seen) = true) as Hok.
    { apply H1; [|done]. intros v seg Hv. apply Hans, elem_of_app. by left. }
    destruct (check_keys segs column keys seen) as [seen'|] eqn:Hc; cbn [mbind result_bind]; [|done].
    destruct (H2 _ eq_refl) as [_ ->]. apply (proj2 (IH _ Hk')); [|done].
    intros v seg Hv. apply Hans, elem_of_app. by right.
Qed.

(** *** Which values print alike *)

Lemma trim_matches_none c s : has_char c s = false → trim_matches c s = s.
Proof.
  intros Hc. unfold trim_matches.
  assert (trim_start c s = s) as ->.
  { destruct s as [|a s]; [done|]. simpl in *. apply orb_false_iff in Hc as [Ha%bool_decide_eq_false _].
    by rewrite decide_False. }
  induction s as [|a s IH]; [done|]. simpl in *. apply orb_false_iff in Hc as [Ha%bool_decide_eq_false Hc].
  rewrite IH by done. destruct s; [by rewrite decide_False|done].
Qed.

Lemma trim_end_last c s : has_char c s = false → trim_end c (s +:+ String.String c EmptyString) = s.
Proof.
  induction s as [|a s IH]; intros Hc; [simpl; by rewrite decide_True|].
  simpl in Hc. apply orb_false_iff in Hc as [Ha%bool_decide_eq_false Hc].
  change (match trim_end c (s +:+ String.String c EmptyString) with
          | EmptyString => if decide (a = c) then EmptyString else String.String a EmptyString
          | t => String.String a t end = String.String a s).
  rewrite IH by done. destruct s; [by rewrite decide_False|done].
Qed.

Lemma trim_matches_quoted c s :
  has_char c s = false → trim_matches c (String.String c (s +:+ String.String c EmptyString)) = s.
Proof.
  intros Hc. unfold trim_matches. simpl trim_start. rewrite decide_True by done.
  destruct s as [|a s]; [simpl; by rewrite decide_True|].
  assert (a ≠ c) as Ha by (simpl in Hc; apply orb_false_iff in Hc as [?%bool_decide_eq_false _]; done).
  change (trim_end c (if decide (a = c) then trim_start c (s +:+ String.String c EmptyString)
    else String.String a s +:+ String.String c EmptyString) = String.String a s).
  rewrite decide_False by done. by apply trim_end_last.
Qed.

(** Characters that JSON writes as they are. *)
Fixpoint plain_text (s : string) : bool :=
  match s with
  | EmptyString => true
  | String.String c s =>
      bool_decide (32 ≤ Ascii.nat_of_ascii c ∧ c ≠ quote ∧ c ≠ backslash)%nat && plain_text s
  end.

Lemma json_escapes_plain s : plain_text s = true → json_escapes s = s ∧ has_char quote s = false.
Proof.
  induction s as [|c s IH]; [done|]. simpl.
  intros [[Hn [Hq Hb]]%bool_decide_eq_true [IH1 IH2]%IH]%andb_true_iff. split.
  - rewrite IH1. unfold json_escape.
    assert (Ascii.nat_of_ascii c ≠ 34 ∧ Ascii.nat_of_ascii c ≠ 92)%nat as [H34 H92].
    { split; intros Heq; [apply Hq|apply Hb]; rewrite <- (Ascii.ascii_nat_embedding c), Heq; done. }
    repeat (rewrite decide_False by lia). done.
  - rewrite IH2, orb_false_r. by apply bool_decide_eq_false.
Qed.

(** Keys whose text is compared exactly: integers, booleans and plain strings. *)
Definition plain_key (v : ManifestValue) : bool :=
  match v with
  | MInt32 _ | MInt64 _ | MBoolean _ => true
  | MString s => plain_text s
  | _ => false
  end.

(** Only digits and the sign occur in the text of an integer. *)
Lemma pretty_int_no_char c (i : Z) :
  digit_val c = None → has_char c "-" = false → has_char c (pretty i) = false.
Proof.
  intros Hd Hm. destruct i as [|p|p].
  - apply all_digits_no_char; [done|]. apply (all_digits_u64 0).
  - apply all_digits_no_char; [done|]. apply (all_digits_u64 (Z.pos p)).
  - change (pretty (Z.neg p)) with ("-" +:+ pretty (N.pos p)). rewrite has_char_app, Hm.
    change (pretty (N.pos p)) with (u64_to_string (Z.pos p)).
    by rewrite (all_digits_no_char c (u64_to_string (Z.pos p))) by (done || apply all_digits_u64).
Qed.

Lemma plain_key_printable v : plain_key v = true → printable v.
Proof.
  assert (∀ i, trim_matches quote (json_text (VNumber (Number_of_int i))) = pretty i) as Hint.
  { intros i. unfold Number_of_int. case_bool_decide; by apply trim_matches_none, pretty_int_no_char. }
  destruct v as [s|i|i|f|f|b|]; intros Hp; try done; [|apply Hint..|by destruct b].
  destruct (json_escapes_plain s Hp) as [He Hq]. unfold printable. cbn [Value_of_manifest json_text display].
  rewrite He. by apply trim_matches_quoted.
Qed.

(** *** The check before buffering *)

Lemma distinct_values_ok seen keys :
  NoDup (display <$> keys) → (∀ k, k ∈ display <$> keys → k ∉ seen) →
  distinct_values seen keys = Ok tt.
Proof.
  revert seen. induction keys as [|v keys IH]; intros seen Hnd Hs; [done|]. csimpl in *.
  apply NoDup_cons in Hnd as [Hn Hnd]. rewrite decide_False by (apply Hs; left).
  apply IH; [done|]. intros k Hk. rewrite not_elem_of_union, not_elem_of_singleton.
  split; [by intros ->|apply Hs; by right].
Qed.

Lemma precheck_ok batches pk_col :
  NoDup (display <$> new_keys batches pk_col) → precheck batches [pk_col] = Ok tt.
Proof.
  unfold new_keys. induction batches as [|b batches IH]; [done|].
  rewrite bind_cons, fmap_app, NoDup_app. intros (Hb & _ & Hnd). cbn [precheck precheck_columns].
  destruct (b !! pk_col) as [keys|]; cbn [mbind result_bind default] in *.
  - rewrite distinct_values_ok by (done || set_solver). cbn [mbind result_bind]. by apply IH.
  - by apply IH.
Qed.

Lemma pk_write_spec (segs : list Segment) (pending batches : list batch_columns) (pk_col : string) :
  (∀ v, v ∈ new_keys batches pk_col →
     v = MNull ∨ (plain_key v = true ∧ ∀ seg, seg ∈ segs → lookup_lawful seg pk_col v)) →
  let stored := stored_keys segs pk_col in
  let buffered := display <$> pending_keys pending pk_col in
  let new := display <$> new_keys batches pk_col in
  (is_ok (accept_write segs pending [pk_col] batches) = true →
     MNull ∉ new_keys batches pk_col ∧ NoDup new ∧ ∀ k, k ∈ new → k ∉ buffered ∧ k ∉ stored)
  ∧ (lookups_answer segs pk_col (new_keys batches pk_col) →
     MNull ∉ new_keys batches pk_col ∧ NoDup new ∧ (∀ k, k ∈ new → k ∉ buffered ∧ k ∉ stored) →
     is_ok (accept_write segs pending [pk_col] batches) = true)
  ∧ (NoDup (stored ++ buffered) → is_ok (accept_write segs pending [pk_col] batches) = true →
     NoDup ((stored ++ buffered) ++ new)).
Proof.
  intros Hk stored buffered new.
  assert (∀ v, v ∈ new_keys batches pk_col →
    v = MNull ∨ (printable v ∧ ∀ seg, seg ∈ segs → lookup_lawful seg pk_col v)) as Hk'.
  { intros v Hv. destruct (Hk v Hv) as [->|[Hp%plain_key_printable Hl]]; [by left|]. by right. }
  destruct (check_batches_spec segs pk_col batches (list_to_set buffered) Hk') as [Hacc Hconv].
  assert (acceptable segs pk_col (list_to_set buffered) (new_keys batches pk_col) ↔
    MNull ∉ new_keys batches pk_col ∧ NoDup new ∧ ∀ k, k ∈ new → k ∉ buffered ∧ k ∉ stored) as Heq.
  { unfold acceptable. setoid_rewrite not_elem_of_list_to_set. done. }
  rewrite Heq in Hacc, Hconv. unfold accept_write, validate_write, validate_single. fold buffered.
  destruct (check_batches segs pk_col batches (list_to_set buffered)) as [seen|]; cbn [mbind result_bind is_ok] in *.
  2: { split_and!; [done|exact Hconv|done]. }
  pose proof (Hacc eq_refl) as (Hnull & Hnew & Hout). rewrite precheck_ok by done.
  split_and!; [done..|]. intros Hnd _. apply NoDup_app. split_and!; [done| |done].
  intros k Hin Hk2. apply elem_of_app in Hin. destruct (Hout k Hk2). tauto.
Qed.

(** For a primary key of one column, with plain keys and lawful lookups, a write is accepted
    only when its keys are not null, distinct, and new to the buffer and to the live
    rows of storage, and such a write is accepted when no lookup fails; so accepted writes keep
    the key unique. *)
Theorem pk_write_exact (segs : list Segment) (pending batches : list batch_columns) (pk_col : string) :
  (∀ v, v ∈ new_keys batches pk_col →
     v = MNull ∨ (plain_key v = true ∧ ∀ seg, seg ∈ segs → lookup_lawful seg pk_col v)) →
  let stored := stored_keys segs pk_col in
  let buffered := display <$> pending_keys pending pk_col in
  let new := display <$> new_keys batches pk_col in
  (is_ok (accept_write segs pending [pk_col] batches) = true →
     MNull ∉ new_keys batches pk_col ∧ NoDup new ∧ ∀ k, k ∈ new → k ∉ buffered ∧ k ∉ stored)
  ∧ (lookups_answer segs pk_col (new_keys batches pk_col) →
     MNull ∉ new_keys batches pk_col ∧ NoDup new ∧ (∀ k, k ∈ new → k ∉ buffered ∧ k ∉ stored) →
     is_ok (accept_write segs pending [pk_col] batches) = true)
  ∧ (NoDup (stored ++ buffered) → is_ok (accept_write segs pending [pk_col] batches) = true →
     NoDup ((stored ++ buffered) ++ new)).
Proof. apply pk_write_spec. Qed.
End Text.

(** ** Row-value filters

    [PrimaryKeyFilter]: rows of candidate keys, read from and written to expressions. *)

Record PrimaryKeyFilter := { pk_columns : list string; pk_rows : list (list Value) }.

Fixpoint get_col (e : Expr) : option string :=
  match e with
  | EColumn c => Some c
  | ECast e _ | ETryCast e _ => get_col e
  | _ => None
  end.
Fixpoint get_lit (e : Expr) : option Value :=
  match e with
  | ELiteral s => scalar_to_json_value s
  | ECast e _ | ETryCast e _ => get_lit e
  | _ => None
  end.

(** [col = literal], either way round. *)
Definition equality (l r : Expr) : option (string * Value) :=
  match get_col l, get_lit r with
  | Some c, Some v => Some (c, v)
  | _, _ => match get_col r, get_lit l with Some c, Some v => Some (c, v) | _, _ => None end
  end.

(** Every left row followed by every right row. *)
Definition product (lrows rrows : list (list Value)) : list (list Value) :=
  lrows ≫= (fun lr : list Value => (fun rr : list Value => lr ++ rr) <$> rrows).

(** Columns and rows of a sub-expression. *)
Fixpoint extract (e : Expr) : option (list string * list (list Value)) :=
  match e with
  | EInList x l false =>
      col ← get_col x;
      match omap (fun v => (fun j => [j]) <$> get_lit v) l with
      | [] => None
      | rows => Some ([col], rows)
      end
  | EBinary l OpEq r => '(c, v) ← equality l r; Some ([c], [[v]])
  | EBinary l OpAnd r =>
      '(lcols, lrows) ← extract l;
      '(rcols, rrows) ← extract r;
      if existsb (fun c => bool_decide (c ∈ rcols)) lcols then None
      else Some (lcols ++ rcols, product lrows rrows)
  | EBinary l OpOr r =>
      '(lcols, lrows) ← extract l;
      '(rcols, rrows) ← extract r;
      if decide (lcols = rcols) then Some (lcols, lrows ++ rrows) else None
  | _ => None
  end.

Definition position (c : string) (cols : list string) : option nat := fst <$> list_find (fun x => x = c) cols.

(** In the order of the key. [cols[i]] and [r[i]] never panic: [extract_meaning] shows that every
    row has one value per column. *)
Definition from_expr (e : Expr) (pk_cols : list string) : option PrimaryKeyFilter :=
  '(cols, rows) ← extract e;
  if existsb (fun c => negb (bool_decide (c ∈ pk_cols))) cols then None
  else
    match omap (fun c => position c cols) pk_cols with
    | [] => None
    | col_idx => Some {| pk_columns := omap (fun i => cols !! i) col_idx;
                         pk_rows := (fun r => omap (fun i => r !! i) col_idx) <$> rows |}
    end.

(** [col_name] is the name DataFusion gives the column of [col(&str)]. *)
Section PkExpr.
Context (col_name : string → string).

Definition column_eq (c : string) (v : Value) : Expr :=
  EBinary (EColumn (col_name c)) OpEq (json_to_scalar v).

(** [.and(..)] and [.or(..)] over the elements, from the left. *)
Definition reduce (op : Operator) (l : list Expr) : option Expr :=
  match l with [] => None | e :: l => Some (foldl (fun a b => EBinary a op b) e l) end.

Definition row_expr (cols : list string) (row : list Value) : option Expr :=
  reduce OpAnd (zip_with column_eq cols row).

Definition pk_to_expr (f : PrimaryKeyFilter) : Expr :=
  match pk_columns f with
  | [c] =>
      match omap head (pk_rows f) with
      | [v] => column_eq c v
      | values => EInList (EColumn (col_name c)) (json_to_scalar <$> values) false
      end
  | cols => default (ELiteral (SBoolean (Some true))) (reduce OpOr (omap (row_expr cols) (pk_rows f)))
  end.
End PkExpr.

Definition to_query_filter (f : PrimaryKeyFilter) : option QueryFilter :=
  match pk_columns f, pk_rows f with
  | [c], _ :: _ => Some (cmp_filter c None false None false (Some (omap head (pk_rows f))) false)
  | _, _ => None
  end.

(** *** What a filter means *)

Section Meaning.
(** Any reading of [column = value], and of expressions that are no such filter. *)
Context (truth : string → Value → bool) (opaque : Expr → bool).

Definition row_true (cols : list string) (row : list Value) : bool :=
  forallb (fun cv : string * Value => truth cv.1 cv.2) (zip cols row).
Definition filter_true (f : PrimaryKeyFilter) : bool := existsb (row_true (pk_columns f)) (pk_rows f).

Fixpoint holds_pk (e : Expr) : bool :=
  match e with
  | EInList x l false =>
      match get_col x with
      | Some c => existsb (fun v => match get_lit v with Some j => truth c j | None => opaque v end) l
      | None => opaque e
      end
  | EBinary l OpEq r => match equality l r with Some (c, v) => truth c v | None => opaque e end
  | EBinary l OpAnd r => holds_pk l && holds_pk r
  | EBinary l OpOr r => holds_pk l || holds_pk r
  | e => opaque e
  end.

(** Every element of an IN list is a literal. *)
Fixpoint lists_readable (e : Expr) : bool :=
  match e with
  | EInList _ l false => forallb (fun v => bool_decide (is_Some (get_lit v))) l
  | EBinary l OpAnd r | EBinary l OpOr r => lists_readable l && lists_readable r
  | _ => true
  end.

Lemma zip_app_eq {A B} (l1 l2 : list A) (k1 k2 : list B) :
  length l1 = length k1 → zip (l1 ++ l2) (k1 ++ k2) = zip l1 k1 ++ zip l2 k2.
Proof. intros Hl. by apply zip_with_app. Qed.

Lemma existsb_prefixed (lcols rcols : list string) (lr : list Value) (rrows : list (list Value)) :
  length lr = length lcols →
  existsb (row_true (lcols ++ rcols)) ((fun rr : list Value => lr ++ rr) <$> rrows)
  = row_true lcols lr && existsb (row_true rcols) rrows.
Proof.
  intros Hlr. induction rrows as [|rr rrows IH]; [by rewrite andb_false_r|]. rewrite fmap_cons. cbn [existsb].
  rewrite IH. unfold row_true at 1. rewrite zip_app_eq, forallb_app by done. fold (row_true lcols lr).
  fold (row_true rcols rr). by destruct (row_true lcols lr), (row_true rcols rr).
Qed.

Lemma existsb_product (lcols rcols : list string) (lrows rrows : list (list Value)) :
  Forall (fun r => length r = length lcols) lrows →
  existsb (row_true (lcols ++ rcols)) (product lrows rrows)
  = existsb (row_true lcols) lrows && existsb (row_true rcols) rrows.
Proof.
  unfold product. induction 1 as [|lr lrows Hlr _ IH]; [done|].
  rewrite bind_cons, existsb_app, IH, existsb_prefixed by done. cbn [existsb].
  by destruct (row_true lcols lr), (existsb (row_true lcols) lrows), (existsb (row_true rcols) rrows).
Qed.

Lemma extract_meaning e cols rows :
  lists_readable e = true → extract e = Some (cols, rows) →
  NoDup cols ∧ Forall (fun r => length r = length cols) rows
  ∧ holds_pk e = existsb (row_true cols) rows.
Proof.
  revert cols rows. induction e as [| |l IHl op r IHr| | | | | |x IHx l negated| | |];
    intros cols rows Hr He; try done.
  - destruct op; try done.
    + cbn [extract] in He. cbn [lists_readable] in Hr. apply andb_true_iff in Hr as [Hr1 Hr2].
      destruct (extract l) as [[lc lr]|]; [|done]. destruct (extract r) as [[rc rr]|]; [|done]. cbn in He.
      destruct (existsb _ lc) eqn:Hov; [done|]. simplify_eq.
      destruct (IHl lc lr) as (N1 & F1 & E1); [done|done|].
      destruct (IHr rc rr) as (N2 & F2 & E2); [done|done|]. split_and!.
      * apply NoDup_app. split_and!; [done| |done]. intros c Hc Hc'.
        assert (existsb (fun c => bool_decide (c ∈ rc)) lc = true) as Hov'; [|congruence].
        apply existsb_exists. exists c. by rewrite <- list_elem_of_In, bool_decide_eq_true.
      * apply Forall_bind. eapply Forall_impl; [exact F1|]. intros x Hx. apply Forall_fmap.
        eapply Forall_impl; [exact F2|]. intros y Hy. cbn. rewrite !length_app. congruence.
      * cbn [holds_pk]. by rewrite E1, E2, existsb_product.
    + cbn [extract] in He. cbn [lists_readable] in Hr. apply andb_true_iff in Hr as [Hr1 Hr2].
      destruct (extract l) as [[lc lr]|]; [|done]. destruct (extract r) as [[rc rr]|]; [|done]. cbn in He.
      case_decide as Hc; [|done]. simplify_eq.
      destruct (IHl _ _ Hr1 eq_refl) as (N1 & F1 & E1).
      destruct (IHr _ _ Hr2 eq_refl) as (N2 & F2 & E2). split_and!; [done|by apply Forall_app|].
      cbn [holds_pk]. by rewrite E1, E2, existsb_app.
    + cbn [extract] in He. destruct (equality l r) as [[c v]|] eqn:Heq; [|done]. cbn in He. simplify_eq.
      split_and!; [apply NoDup_singleton|by repeat constructor|]. cbn [holds_pk]. rewrite Heq.
      unfold row_true. simpl. by rewrite andb_true_r, orb_false_r.
  - destruct negated; [done|]. cbn [extract] in He. destruct (get_col x) as [c|] eqn:Hc; [|done].
    cbn in He. cbn [lists_readable] in Hr. cbn [holds_pk]. rewrite Hc.
    assert (cols = [c] ∧ rows = omap (fun v => (fun j => [j]) <$> get_lit v) l) as [-> ->]
      by (destruct (omap _ l); simplify_eq; done).
    clear He. split_and!; [apply NoDup_singleton| |].
    + apply Forall_forall. intros r (v & _ & Hv)%list_elem_of_omap. destruct (get_lit v); simplify_eq/=. done.
    + clear IHx. induction l as [|v l IH]; [done|]. simpl in Hr.
      apply andb_true_iff in Hr as [[j Hj]%bool_decide_eq_true Hr]. simpl. rewrite Hj. simpl.
      rewrite IH by done. unfold row_true at 2. simpl. by rewrite andb_true_r.
Qed.

Lemma zip_omap_lookup {A B} (cols : list A) (row : list B) (idx : list nat) :
  length row = length cols →
  zip (omap (fun i => cols !! i) idx) (omap (fun i => row !! i) idx) = omap (fun i => zip cols row !! i) idx.
Proof.
  intros Hl. induction idx as [|i idx IH]; [done|]. cbn [omap list_omap]. rewrite lookup_zip_with.
  destruct (cols !! i) as [c|] eqn:Hc.
  - apply lookup_lt_Some in Hc. rewrite <- Hl in Hc. apply lookup_lt_is_Some in Hc as [v ->].
    cbn. f_equal. exact IH.
  - apply lookup_ge_None in Hc. rewrite <- Hl in Hc. apply lookup_ge_None in Hc as ->. exact IH.
Qed.

Lemma length_omap_lookup {A B} (cols : list A) (row : list B) (idx : list nat) :
  length row = length cols → length (omap (fun i => row !! i) idx) = length (omap (fun i => cols !! i) idx).
Proof.
  intros Hl. induction idx as [|i idx IH]; [done|]. cbn [omap list_omap].
  destruct (cols !! i) eqn:Hc, (row !! i) eqn:Hr; cbn [length]; [by f_equal| | |done].
  - apply lookup_ge_None in Hr. apply lookup_lt_Some in Hc. lia.
  - apply lookup_ge_None in Hc. apply lookup_lt_Some in Hr. lia.
Qed.

Lemma row_true_reordered (cols : list string) (row : list Value) (idx : list nat) :
  length row = length cols → (∀ i, (i < length cols)%nat → i ∈ idx) →
  row_true (omap (fun i => cols !! i) idx) (omap (fun i => row !! i) idx) = row_true cols row.
Proof.
  intros Hl Hidx. unfold row_true. rewrite zip_omap_lookup by done. apply eq_iff_eq_true.
  rewrite !forallb_forall. split; intros H p Hp%list_elem_of_In; apply H, list_elem_of_In.
  - apply list_elem_of_omap. apply list_elem_of_lookup in Hp as [i Hi]. exists i. split; [|done].
    apply Hidx. apply lookup_lt_Some in Hi. rewrite length_zip_with in Hi. lia.
  - apply list_elem_of_omap in Hp as (i & _ & Hi). by apply list_elem_of_lookup_2 in Hi.
Qed.

Lemma position_lookup cols i c : NoDup cols → cols !! i = Some c → position c cols = Some i.
Proof.
  intros Hnd Hi. unfold position. rewrite (proj2 (list_find_Some (fun x => x = c) cols i c)); [done|].
  split_and!; [done|done|]. intros j y Hj Hlt ->. pose proof (NoDup_lookup _ _ _ _ Hnd Hi Hj). lia.
Qed.

(** A row-value filter read from an expression means what the expression means, whatever the
    meaning of [column = value], when every element of its IN lists is a literal; its columns are
    in the order of the key and every row has a value for each of them. *)
Theorem from_expr_meaning (e : Expr) (pk : list string) (f : PrimaryKeyFilter) :
  lists_readable e = true → from_expr e pk = Some f →
  holds_pk e = filter_true f
  ∧ pk_columns f ⊆ pk
  ∧ Forall (fun r => length r = length (pk_columns f)) (pk_rows f).
Proof.
  unfold from_expr. intros Hr Hf. destruct (extract e) as [[cols rows]|] eqn:He; [|done].
  cbn [mbind option_bind] in Hf. destruct (extract_meaning e cols rows Hr He) as (Hnd & Hlen & Hm).
  destruct (existsb _ cols) eqn:Hsub; [done|].
  set (idx := omap (fun c => position c cols) pk) in *.
  assert (f = {| pk_columns := omap (fun i => cols !! i) idx;
                 pk_rows := (fun r : list Value => omap (fun i => r !! i) idx) <$> rows |}) as ->
    by (destruct idx; simplify_eq; done). clear Hf.
  assert (∀ i, (i < length cols)%nat → i ∈ idx) as Hidx.
  { intros i [c Hc]%lookup_lt_is_Some. apply list_elem_of_omap. exists c.
    split; [|by apply position_lookup]. destruct (decide (c ∈ pk)) as [|Hn]; [done|].
    assert (existsb (fun c => negb (bool_decide (c ∈ pk))) cols = true) as Hsub'; [|congruence].
    apply existsb_exists. exists c. split; [by apply list_elem_of_In, list_elem_of_lookup_2 with i|].
    by rewrite bool_decide_eq_false_2. }
  split_and!; cbn [pk_columns pk_rows].
  - rewrite Hm. unfold filter_true. cbn [pk_columns pk_rows]. clear -Hlen Hidx.
    induction Hlen as [|r rows Hr _ IH]; [done|]. rewrite fmap_cons. cbn [existsb].
    by rewrite row_true_reordered, IH.
  - intros c (i & (c' & Hc' & Hi)%list_elem_of_omap & Hc)%list_elem_of_omap. unfold position in Hi.
    destruct (list_find _ cols) as [[j x]|] eqn:Hfind; [|done].
    apply list_find_Some in Hfind as (Hj & -> & _). by simplify_eq/=.
  - apply Forall_fmap. eapply Forall_impl; [exact Hlen|]. intros r Hrl.
    by apply length_omap_lookup.
Qed.
End Meaning.

(** *** Reading back what is written *)

(** The values that expressions hold without loss: text, booleans and integers of 64 bits. *)
Definition simple_value (v : Value) : Prop :=
  match v with
  | VString _ | VBool _ => True
  | VNumber (PosInt n) => 0 ≤ n ≤ i64_max
  | VNumber (NegInt n) => n < 0
  | _ => False
  end.

Lemma get_lit_json v : simple_value v → get_lit (json_to_scalar v) = Some v.
Proof.
  destruct v as [| |[n|n|]| |]; simpl; try done; intros Hn.
  - rewrite bool_decide_eq_true_2 by lia. simpl. unfold Number_of_int. by rewrite bool_decide_eq_false_2 by lia.
  - unfold Number_of_int. by rewrite bool_decide_eq_true_2 by lia.
Qed.

Section ReadBack.
Context (col_name : string → string).

Lemma extract_column_eq c v :
  col_name c = c → simple_value v → extract (column_eq col_name c v) = Some ([c], [[v]]).
Proof. intros Hc Hv%get_lit_json. unfold column_eq. rewrite Hc. cbn [extract equality get_col]. by rewrite Hv. Qed.

Lemma extract_and_row cols row c v e :
  extract e = Some (cols, [row]) → c ∉ cols → col_name c = c → simple_value v →
  extract (EBinary e OpAnd (column_eq col_name c v)) = Some (cols ++ [c], [row ++ [v]]).
Proof.
  intros He Hn Hc Hv. cbn [extract]. rewrite He, extract_column_eq by done. cbn [mbind option_bind].
  destruct (existsb _ cols) eqn:Hov; [|done]. apply existsb_exists in Hov as (x & Hx%list_elem_of_In & Hc'%bool_decide_eq_true).
  apply list_elem_of_singleton in Hc' as ->. done.
Qed.

Lemma extract_and_fold cols row cols' row' e :
  extract e = Some (cols, [row]) → NoDup (cols ++ cols') → length row' = length cols' →
  Forall (fun c => col_name c = c) cols' → Forall simple_value row' →
  extract (foldl (fun a b => EBinary a OpAnd b) e (zip_with (column_eq col_name) cols' row'))
  = Some (cols ++ cols', [row ++ row']).
Proof.
  revert cols row row' e. induction cols' as [|c cols' IH]; intros cols row [|v row'] e He Hnd Hl Hc Hv; try done.
  - by rewrite !app_nil_r.
  - apply Forall_cons in Hc as [Hc Hcs], Hv as [Hv Hvs]. simpl.
    rewrite (IH (cols ++ [c]) (row ++ [v])); [by rewrite <- !app_assoc| |by rewrite <- app_assoc|naive_solver|done|done].
    apply extract_and_row; [done| |done|done]. apply NoDup_app in Hnd as (_ & Hd & _).
    intros Hin. apply (Hd c Hin). by left.
Qed.

Lemma extract_row_expr cols row :
  cols ≠ [] → NoDup cols → length row = length cols →
  Forall (fun c => col_name c = c) cols → Forall simple_value row →
  ∃ e, row_expr col_name cols row = Some e ∧ extract e = Some (cols, [row]).
Proof.
  destruct cols as [|c cols], row as [|v row]; try done. intros _ Hnd Hl Hc Hv.
  apply Forall_cons in Hc as [Hc Hcs], Hv as [Hv Hvs]. eexists. split; [reflexivity|].
  by apply (extract_and_fold [c] [v]); [apply extract_column_eq| |naive_solver| |].
Qed.

Lemma extract_or_fold cols rows es l e :
  extract e = Some (cols, rows) → Forall2 (fun x row => extract x = Some (cols, [row])) es l →
  extract (foldl (fun a b => EBinary a OpOr b) e es) = Some (cols, rows ++ l).
Proof.
  intros He Hes. revert rows e He. induction Hes as [|x row es l Hx _ IH]; intros rows e He; simpl.
  - by rewrite app_nil_r.
  - rewrite (IH (rows ++ [row])); [by rewrite <- app_assoc|]. cbn [extract]. rewrite He, Hx.
    cbn [mbind option_bind]. by rewrite decide_True.
Qed.

Lemma single_rows (rows : list (list Value)) :
  Forall (fun r => length r = 1%nat) rows → rows = (fun v => [v]) <$> omap head rows.
Proof.
  induction 1 as [|r rows Hr _ IH]; [done|]. destruct r as [|v [|]]; try done. cbn. f_equal. exact IH.
Qed.

Lemma extract_in_list c (values : list Value) :
  values ≠ [] → Forall simple_value values →
  extract (EInList (EColumn c) (json_to_scalar <$> values) false) = Some ([c], (fun v => [v]) <$> values).
Proof.
  intros Hne Hv. cbn [extract get_col mbind option_bind].
  assert (omap (fun v => (fun j : Value => [j]) <$> get_lit v) (json_to_scalar <$> values)
    = (fun v => [v]) <$> values) as ->.
  { clear Hne. induction Hv as [|v values Hv%get_lit_json _ IH]; [done|]. cbn. rewrite Hv. cbn. f_equal. exact IH. }
  by destruct values.
Qed.

Lemma extract_pk_to_expr f :
  pk_columns f ≠ [] → pk_rows f ≠ [] → NoDup (pk_columns f) →
  Forall (fun r => length r = length (pk_columns f)) (pk_rows f) →
  Forall (fun c => col_name c = c) (pk_columns f) → Forall (Forall simple_value) (pk_rows f) →
  extract (pk_to_expr col_name f) = Some (pk_columns f, pk_rows f).
Proof.
  destruct f as [cols rows]. unfold pk_to_expr. cbn [pk_columns pk_rows]. intros Hcne Hrne Hnd Hl Hc Hv.
  destruct cols as [|c [|c' cols]]; [done| |].
  - apply Forall_cons in Hc as [Hc _]. pose proof (single_rows rows Hl) as Hrows.
    assert (Forall simple_value (omap head rows)) as Hvs.
    { apply Forall_forall. intros v (r & Hr & Hh)%list_elem_of_omap.
      rewrite Forall_forall in Hv. specialize (Hv r Hr). destruct r; simplify_eq/=. by apply Forall_cons in Hv as [? _]. }
    rewrite Hrows at 2. destruct (omap head rows) as [|v [|v' vs]]; [by rewrite Hrows in Hrne|..].
    + apply Forall_cons in Hvs as [Hvs _]. exact (extract_column_eq c v Hc Hvs).
    + rewrite Hc. by apply extract_in_list.
  - set (all := c :: c' :: cols) in *.
    assert (∃ es, omap (row_expr col_name all) rows = es
      ∧ Forall2 (fun x row => extract x = Some (all, [row])) es rows) as (es & -> & Hes).
    { clear Hrne. induction rows as [|row rows IH]; [by eexists|]. apply Forall_cons in Hl as [Hl Hls], Hv as [Hv Hvs].
      destruct (extract_row_expr all row) as (e & He & Hx); [done..|].
      destruct (IH Hls Hvs) as (es & <- & Hes). eexists. split; [reflexivity|]. cbn. rewrite He. by constructor. }
    destruct Hes as [|e row es rows He Hes]; [done|]. cbn [reduce default].
    exact (extract_or_fold all [row] es rows e He Hes).
Qed.

Lemma positions_self (cols : list string) :
  NoDup cols → omap (fun c => position c cols) cols = seq 0 (length cols).
Proof.
  intros Hnd. assert (∀ k l, drop k cols = l → omap (fun c => position c cols) l = seq k (length l)) as H.
  { intros k l. revert k. induction l as [|c l IH]; intros k Hl; [done|]. simpl.
    assert (cols !! k = Some c) as Hk by (by rewrite <- (Nat.add_0_r k), <- lookup_drop, Hl).
    rewrite (position_lookup cols k c) by done. f_equal. apply IH.
    by rewrite (drop_S _ _ _ Hk) in Hl; simplify_eq. }
  apply (H 0%nat). done.
Qed.

(** A filter written as an expression and read back is the same filter. *)
Theorem pk_filter_roundtrip (f : PrimaryKeyFilter) :
  pk_columns f ≠ [] → pk_rows f ≠ [] → NoDup (pk_columns f) →
  Forall (fun r => length r = length (pk_columns f)) (pk_rows f) →
  Forall (fun c => col_name c = c) (pk_columns f) → Forall (Forall simple_value) (pk_rows f) →
  from_expr (pk_to_expr col_name f) (pk_columns f) = Some f.
Proof.
  intros Hcne Hrne Hnd Hl Hc Hv. unfold from_expr. rewrite extract_pk_to_expr by done. cbn [mbind option_bind].
  rewrite positions_self by done. destruct f as [cols rows]. cbn [pk_columns pk_rows] in *.
  destruct (existsb _ cols) eqn:Hsub.
  { apply existsb_exists in Hsub as (c & Hin%list_elem_of_In & Hb). by rewrite bool_decide_eq_true_2 in Hb. }
  assert ((fun r : list Value => omap (fun i => r !! i) (seq 0 (length cols))) <$> rows = rows) as Hrows.
  { rewrite <- (list_fmap_id rows) at 2. apply list_fmap_ext. intros i r Hr. rewrite Forall_forall in Hl.
    rewrite <- (Hl r); [apply omap_lookup_all|]. by apply list_elem_of_lookup_2 in Hr. }
  pose proof (omap_lookup_all cols) as Hcols.
  destruct (seq 0 (length cols)) eqn:Hs; [by destruct cols|]. by rewrite Hrows, Hcols.
Qed.
End ReadBack.

(** ** Runs *)

Module PrimaryKeyExamples.

Definition no_text (f : float) : string := "".
Abbreviation accepts := (accept_write no_text no_text no_text).

(** A segment with an exact index on every column, or with none. *)
Definition segment (indexed : bool) (deletes : gset Z) (values : list ManifestValue) : Segment :=
  {| sg_values := fun _ => values; sg_deletes := deletes; sg_bloom := fun _ _ => Ok true;
     sg_scan_fails := fun _ => None;
     sg_index := fun _ v => Ok (
       if indexed
       then Some (list_to_set (omap (fun iv : nat * ManifestValue =>
                    if decide (Value_of_manifest iv.2 = v) then Some (Z.of_nat iv.1) else None)
                    (zip (seq 0 (length values)) values)))
       else None) |}.

Definition ids (l : list Z) : list ManifestValue := MInt64 <$> l.
Definition batch (l : list Z) : batch_columns := {["id" := ids l]}.
Definition two_columns (l r : list Z) : batch_columns := {["a" := ids l; "b" := ids r]}.

(** Key 2 is stored, 1 and 3 are deleted: 3 can be written again, 2 cannot. *)
Definition stored : list Segment := [segment true {[0; 2]} (ids [1; 2; 3])].

Lemma stored_lawful v : v ∈ new_keys [batch [3; 4]] "id" → ∀ seg, seg ∈ stored →
  lookup_lawful no_text no_text seg "id" v.
Proof.
  intros Hv seg ->%list_elem_of_singleton.
  assert (v = MInt64 3 ∨ v = MInt64 4) as Hv'.
  { apply list_elem_of_In in Hv. vm_compute in Hv. intuition. }
  split; [done| |done]. intros bm Hbm. assert (bm ∖ {[0; 2]} = ∅) as Hempty.
  { destruct Hv' as [->| ->]; injection Hbm as <-; vm_compute; reflexivity. }
  change (sg_deletes (segment true {[0; 2]} (ids [1; 2; 3]))) with ({[0; 2]} : gset Z).
  split; [done|]. intros Hin. exfalso. destruct Hv' as [->| ->];
    apply list_elem_of_In in Hin; vm_compute in Hin; intuition discriminate.
Qed.

Lemma pk_write_exact_witness :
  is_ok (accepts stored [batch [5]] ["id"] [batch [3; 4]]) = true
  ∧ NoDup ((stored_keys no_text no_text stored "id" ++ ["5"]) ++ ["3"; "4"]).
Proof.
  assert (is_ok (accepts stored [batch [5]] ["id"] [batch [3; 4]]) = true) as Hok by (vm_compute; reflexivity).
  split; [exact Hok|].
  refine (proj2 (proj2 (pk_write_exact no_text no_text no_text stored [batch [5]] [batch [3; 4]] "id" _)) _ Hok).
  - intros v Hv. right. split; [|by apply stored_lawful].
    apply list_elem_of_In in Hv. vm_compute in Hv. destruct Hv as [<-|[<-|[]]]; vm_compute; reflexivity.
  - apply (bool_decide_unpack _). vm_compute. exact I.
Defined.

(** Duplicate keys are written without an error.  Without an index, a row is compared only
    when its number among the rows left is not a deleted position, so that the deletion of the
    first row hides the second from the lookup; text with quotes is compared with its escaped
    form; and keys of several columns are never compared with storage.  Rows that differ in one
    column of a composite key are rejected. *)
Theorem duplicate_keys_accepted :
  let unindexed := segment false {[0]} (ids [1; 2]) in
  let quoted := MString (String.String quote EmptyString) in
  let pair := {| sg_values := fun c => ids [if decide (c = "a") then 1 else 2]; sg_deletes := ∅;
                 sg_bloom := fun _ _ => Ok true; sg_index := fun _ _ => Ok None;
                 sg_scan_fails := fun _ => None |} in
  live unindexed "id" = ids [2] ∧ is_ok (accepts [unindexed] [] ["id"] [batch [2]]) = true
  ∧ is_ok (accepts [segment false ∅ [quoted]] [] ["id"] [{["id" := [quoted]]}]) = true
  ∧ is_ok (accepts [pair] [] ["a"; "b"] [two_columns [1] [2]]) = true
  ∧ accepts [] [] ["a"; "b"] [two_columns [1; 1] [1; 2]] = Err (PrimaryKeyViolation "1").
Proof. vm_compute. repeat split. Qed.

(** A segment whose index cannot be read fails the write. *)
Example failed_lookup_rejects :
  accepts [{| sg_values := fun _ => []; sg_deletes := ∅; sg_bloom := fun _ _ => Ok true;
              sg_index := fun _ _ => Err IndexFailed; sg_scan_fails := fun _ => None |}] [] ["id"] [batch [2]]
  = Err (LookupFailed IndexFailed).
Proof. vm_compute. reflexivity. Qed.

Definition pair_filter : PrimaryKeyFilter :=
  {| pk_columns := ["id"; "region"];
     pk_rows := [[VNumber (PosInt 1); VString "US"]; [VNumber (PosInt 2); VString "CA"]] |}.

Lemma pk_filter_roundtrip_witness :
  from_expr (pk_to_expr id pair_filter) ["id"; "region"] = Some pair_filter.
Proof.
  apply (pk_filter_roundtrip id pair_filter); [done|done|..].
  - apply (bool_decide_unpack _). vm_compute. exact I.
  - by repeat constructor.
  - by repeat constructor.
  - repeat constructor; vm_compute; discriminate.
Defined.

(** [region = 'US' AND id IN (1, 2)]: reordered, and multiplied out. *)
Definition region_id : Expr :=
  EBinary (column_eq id "region" (VString "US")) OpAnd
    (EInList (EColumn "id") [json_to_scalar (VNumber (PosInt 1)); json_to_scalar (VNumber (PosInt 2))] false).
Lemma from_expr_meaning_witness :
  ∃ f, from_expr region_id ["id"; "region"] = Some f ∧ pk_columns f = ["id"; "region"]
  ∧ (let truth (c : string) (v : Value) :=
       bool_decide ((c, v) ∈ [("id", VNumber (PosInt 2)); ("region", VString "US")]) in
     holds_pk truth (fun _ => false) region_id = filter_true truth f).
Proof.
  eexists. split; [vm_compute; reflexivity|]. split; [reflexivity|].
  refine (proj1 (from_expr_meaning _ (fun _ => false) region_id ["id"; "region"] _ _ _));
    vm_compute; reflexivity.
Defined.

(** An element of an IN list that is no literal is left out: segments that only hold it are
    taken not to match. *)
Example in_list_drops_columns :
  pk_rows <$> from_expr (EInList (EColumn "id")
    [json_to_scalar (VNumber (PosInt 1)); EColumn "n"] false) ["id"] = Some [[VNumber (PosInt 1)]].
Proof. vm_compute. reflexivity. Qed.
End PrimaryKeyExamples.
