(* ===== verification/PkIndex.v ===== *)
(** * Primary keys through indexes

    The two places where primary keys are looked up in inverted indexes: the check of a write
    against storage ([check_value_exists], on the model of [PrimaryKey]) and the pruning of
    segments by a row-value filter ([Table::pk_match_bitmap] of
    [src/src/core/table/primary_key.rs], used by [src/src/core/sql/mod.rs] and
    [src/src/core/table/read.rs]).  Both ask [get_scalar_filter_bitmap] of [InvertedIndex]. *)

From Stdlib Require Import Floats.SpecFloat.
From S2P Require Import Prelude Json ManifestTypes Deletes Planner PlannerSpec InvertedIndex PrimaryKey.
Open Scope Z_scope.

(** The filter of [column = value], by its bounds. *)
Definition eq_filter (col : string) (v : Value) : QueryFilter :=
  cmp_filter col (Some v) true (Some v) true None false.

Section PkIndex.
Context (to_lowercase : string → string) (parse_date : string → option Z) (pow10 : Z → float).
Context (io : IndexIo) (dio : DeleteIo).
Notation query := (get_scalar_filter_bitmap to_lowercase parse_date pow10 io dio).

(** One row of a filter: the intersection over its columns, none when a column has no index. *)
Fixpoint row_bitmap (c : IndexCaches) (r : IndexReader) (cells : list (string * Value)) (row_bm : option (gset Z))
  : result ierr (option (gset Z)) * IndexCaches :=
  match cells with
  | [] => (Ok row_bm, c)
  | (col, v) :: cells =>
      match query c r (eq_filter col v) with
      | (Ok (Some bm), c) =>
          row_bitmap c r cells (Some match row_bm with Some prev => prev ∩ bm | None => bm end)
      | (Ok None, c) => (Ok None, c)
      | (Err e, c) => (Err e, c)
      end
  end.

(** The union over the rows. *)
Fixpoint rows_bitmap (c : IndexCaches) (r : IndexReader) (columns : list string) (rows : list (list Value))
    (union_bm : gset Z) (any_index : bool) : result ierr (option (gset Z)) * IndexCaches :=
  match rows with
  | [] => (Ok (if any_index then Some union_bm else None), c)
  | row :: rows =>
      match row_bitmap c r (zip columns row) None with
      | (Ok (Some bm), c) => rows_bitmap c r columns rows (union_bm ∪ bm) true
      | (Ok None, c) => rows_bitmap c r columns rows union_bm any_index
      | (Err e, c) => (Err e, c)
      end
  end.
Definition pk_match_bitmap (c : IndexCaches) (r : IndexReader) (f : PrimaryKeyFilter)
  : result ierr (option (gset Z)) * IndexCaches :=
  rows_bitmap c r (pk_columns f) (pk_rows f) ∅ false.

(** Is a segment read?  A failed lookup keeps it. *)
Definition segment_matched (c : IndexCaches) (r : IndexReader) (f : PrimaryKeyFilter) : bool * IndexCaches :=
  match pk_match_bitmap c r f with
  | (Ok (Some bm), c) => (negb (bool_decide (bm ∖ all_deletes dio (ir_reader r) = ∅)), c)
  | (_, c) => (true, c)
  end.

(** ** No segment with a match is skipped *)

Context (sort_to_indices : list (option Key) → list nat)
  (hash_iter : gmap Key (list Z) → list (Key * list Z))
  (registry : string → option (string → list string)) (configs : string → option TextConfig).
Context (Hsort : ∀ array, sort_to_indices array ≡ₚ seq 0 (length array))
  (Hiter : ∀ m, hash_iter m ≡ₚ map_to_list m) (Hreg : registry "identity" = Some identity_tokens).
Context (known : IndexReader → IndexFile → Prop) (files : string → InvFile).
Context (Hstore : store_lawful io known files).
Notation indexed := (indexed sort_to_indices hash_iter registry configs known files).
Notation coherent := (coherent io known files).

(** Row [i] of a segment, given by its columns, equals a candidate row; the values of the candidate
    are of the types of the columns, and text has no white space around it. *)
Definition row_equals (cols : string → ColumnArray) (i : nat) (cells : list (string * Value)) : Prop :=
  Forall (fun cv : string * Value => ∃ k, column_keys (cols cv.1) !! i = Some (Some k)
    ∧ trim_key k = k ∧ literal_fits k cv.2 ∧ value_eqb cv.2 cv.2 = true
    ∧ cell_cmp (cell_of_key k) (cell_of_value cv.2) = Some Eq) cells.

Lemma eq_filter_holds k v :
  cell_cmp (cell_of_key k) (cell_of_value v) = Some Eq → ∀ col, filter_holds (cell_of_key k) (eq_filter col v) = true.
Proof. intros Hc col. unfold filter_holds, eq_filter, sat_min, sat_max. cbn [qf_min qf_max qf_values cmp_filter]. by rewrite Hc. Qed.

Lemma row_bitmap_spec c r cols cells acc i :
  coherent c → (∀ col, col ∈ cells.*1 → indexed r col (cols col)) → Z.of_nat i ∉ all_deletes dio (ir_reader r) →
  let '(res, c') := row_bitmap c r cells acc in
  coherent c' ∧ (cells = [] → res = Ok acc) ∧
  (cells ≠ [] → ∃ bm, res = Ok (Some bm)
     ∧ ((∀ prev, acc = Some prev → Z.of_nat i ∈ prev) → row_equals cols i cells → Z.of_nat i ∈ bm)).
Proof.
  intros Hc Hix Hlive. revert c acc Hc. induction cells as [|[col v] cells IH]; intros c acc Hc; cbn [row_bitmap]; [done|].
  destruct (query_built sort_to_indices hash_iter registry configs Hsort Hiter Hreg to_lowercase parse_date pow10
    io dio known files Hstore c r col (cols col) (eq_filter col v)) as (bm & Hq & Hc' & Hbm).
  { apply Hix. by left. } { done. } { done. } { done. }
  destruct (query c r (eq_filter col v)) as [res c1]. cbn [fst snd] in Hq, Hc'. subst res.
  set (acc' := match acc with Some prev => prev ∩ bm | None => bm end).
  assert (∀ col, col ∈ cells.*1 → indexed r col (cols col)) as Hix' by (intros col' H'; apply Hix; by right).
  specialize (IH Hix' c1 (Some acc') Hc'). destruct (row_bitmap c1 r cells (Some acc')) as [res c2].
  destruct IH as (Hc2 & Hnil & Hcons). split_and!; [done|done|]. intros _.
  assert ((∀ prev, acc = Some prev → Z.of_nat i ∈ prev) → row_equals cols i ((col, v) :: cells) → Z.of_nat i ∈ acc') as Hacc.
  { intros Hprev [(k & Hk & Ht & Hl & Hv & Hcmp) _]%Forall_cons. cbn [fst snd] in *.
    apply indexed_keys_plain in Hk; [|done].
    assert (Z.of_nat i ∈ bm) as Hin.
    { apply Hbm. split; [|done]. exists i, k. split_and!; [done|done|]. apply key_ok_sound; [|done| |by apply eq_filter_holds].
      - by repeat constructor.
      - intros b ->. exact Hv. }
    unfold acc'. destruct acc as [prev|]; [|done]. apply elem_of_intersection. split; [by apply Hprev|done]. }
  destruct cells as [|cell cells].
  - exists acc'. split; [by apply Hnil|]. done.
  - destruct Hcons as (bm' & -> & Hbm'); [done|]. exists bm'. split; [done|]. intros Hprev Hrow.
    apply Hbm'; [intros prev [= <-]; by apply Hacc|]. by apply Forall_cons in Hrow as [_ ?].
Qed.

Lemma rows_bitmap_spec c r cols columns rows u any i :
  coherent c → (∀ col, col ∈ columns → indexed r col (cols col)) → Z.of_nat i ∉ all_deletes dio (ir_reader r) →
  (Z.of_nat i ∈ u → any = true) →
  match (rows_bitmap c r columns rows u any).1 with
  | Ok (Some bm) => (Z.of_nat i ∈ u ∨ Exists (fun row => zip columns row ≠ [] ∧ row_equals cols i (zip columns row)) rows) →
      Z.of_nat i ∈ bm
  | _ => True
  end.
Proof.
  intros Hc Hix Hlive. revert c u any Hc. induction rows as [|row rows IH]; intros c u any Hc Hu; cbn [rows_bitmap].
  { destruct any; [|done]. cbn. intros [?|He]; [done|]. by apply Exists_nil in He. }
  assert (∀ col, col ∈ (zip columns row).*1 → indexed r col (cols col)) as Hix'.
  { intros col Hcol. apply Hix. apply list_elem_of_fmap in Hcol as ([a b] & -> & Hab).
    by apply list_elem_of_lookup in Hab as [j (a' & b' & [= -> ->] & Ha & _)%lookup_zip_with_Some]; apply list_elem_of_lookup_2 in Ha. }
  pose proof (row_bitmap_spec c r cols (zip columns row) None i Hc Hix' Hlive) as Hrow.
  destruct (row_bitmap c r (zip columns row) None) as [res c1]. destruct Hrow as (Hc1 & Hnil & Hcons).
  destruct (decide (zip columns row = [])) as [Hz|Hz].
  - rewrite (Hnil Hz). specialize (IH c1 u any Hc1 Hu). destruct (rows_bitmap c1 r columns rows u any) as [[[bm|]|] c2]; try done.
    cbn [fst] in *. intros [?|[[? _]|He]%Exists_cons]; [by apply IH; left|done|by apply IH; right].
  - destruct (Hcons Hz) as (bm & -> & Hbm). specialize (IH c1 (u ∪ bm) true Hc1 (fun _ => eq_refl)).
    destruct (rows_bitmap c1 r columns rows (u ∪ bm) true) as [[[bm'|]|] c2]; try done. cbn [fst] in *.
    intros [?|[[_ He]|He]%Exists_cons]; apply IH; [left; set_solver| |by right]. left. apply elem_of_union_r. by apply Hbm.
Qed.

End PkIndex.

(** ** Writes checked against indexed storage *)

Section Unique.
Context (display_f32 display_f64 json_f64 : float → string).
Context (to_lowercase : string → string) (parse_date : string → option Z) (pow10 : Z → float).
Context (io : IndexIo) (dio : DeleteIo).
Context (sort_to_indices : list (option Key) → list nat)
  (hash_iter : gmap Key (list Z) → list (Key * list Z))
  (registry : string → option (string → list string)) (configs : string → option TextConfig).
Context (Hsort : ∀ array, sort_to_indices array ≡ₚ seq 0 (length array))
  (Hiter : ∀ m, hash_iter m ≡ₚ map_to_list m) (Hreg : registry "identity" = Some identity_tokens).
Context (known : IndexReader → IndexFile → Prop) (files : string → InvFile).
Context (Hstore : store_lawful io known files).
(** Bloom filters, the reading of data files, and the caches the lookups start from. *)
Context (bloom : IndexReader → string → Value → result lookup_error bool)
  (scan_fails : IndexReader → string → option nat) (caches : IndexCaches) (Hcaches : coherent io known files caches).
Notation query := (get_scalar_filter_bitmap to_lowercase parse_date pow10 io dio).
Notation indexed := (indexed sort_to_indices hash_iter registry configs known files).
Notation display := (display display_f32 display_f64).

Definition int_value (v : option Z) : ManifestValue := match v with Some z => MInt64 z | None => MNull end.

(** A segment whose key column holds [l], looked up through its index. *)
Definition index_segment (r : IndexReader) (l : list (option Z)) : Segment :=
  {| sg_values := fun _ => int_value <$> l;
     sg_deletes := all_deletes dio (ir_reader r);
     sg_bloom := bloom r;
     sg_index := fun col v =>
       match (query caches r (eq_filter col v)).1 with Ok bm => Ok bm | Err _ => Err IndexFailed end;
     sg_scan_fails := scan_fails r |}.

Lemma elem_of_visible {A} (D : gset Z) (l : list A) x :
  x ∈ visible D l ↔ ∃ i, l !! i = Some x ∧ Z.of_nat i ∉ D.
Proof.
  unfold visible. rewrite list_elem_of_omap. split.
  - intros (i & _ & Hi). case_decide; [done|]. eauto.
  - intros (i & Hi & Hd). exists i. rewrite decide_False by done. split; [|done].
    apply elem_of_seq. apply lookup_lt_Some in Hi. lia.
Qed.

Lemma display_int_eq (z : Z) v : display (int_value v) = pretty z → v = Some z.
Proof.
  destruct v as [y|]; cbn [int_value PrimaryKey.display].
  - intros Heq. f_equal. by apply (inj pretty).
  - intros Heq. pose proof (pretty_int_no_char (Ascii.ascii_of_nat 110) z eq_refl eq_refl) as Hn.
    by rewrite <- Heq in Hn.
Qed.

Lemma index_segment_lawful r l col z :
  indexed r col (ColInt64 l) → is_i64_range z →
  (Some z ∈ l → bloom r col (VNumber (Number_of_int z)) ≠ Ok false) →
  lookup_lawful display_f32 display_f64 (index_segment r l) col (MInt64 z)
  ∧ (is_ok (bloom r col (VNumber (Number_of_int z))) = true →
     answers display_f32 display_f64 json_f64 (index_segment r l) col (MInt64 z)).
Proof.
  intros Hix Hz Hbloom. set (v := VNumber (Number_of_int z)).
  assert (cell_of_value v = CInt z ∧ value_as_i64 v = Some z) as [Hcell Hi64].
  { unfold v, Number_of_int, value_as_i64, as_i64. unfold is_i64_range in Hz. case_bool_decide; [done|].
    by rewrite bool_decide_true by lia. }
  destruct (query_built sort_to_indices hash_iter registry configs Hsort Hiter Hreg to_lowercase parse_date pow10
    io dio known files Hstore caches r col (ColInt64 l) (eq_filter col v)) as (bm & Hq & _ & Hbm); [done..|].
  assert (∀ i, Z.of_nat i ∈ bm ↔ l !! i = Some (Some z) ∧ Z.of_nat i ∉ all_deletes dio (ir_reader r)) as Hrows.
  { intros i. rewrite Hbm. cbn [indexed_keys column_keys]. unfold has_row, keys_of. setoid_rewrite list_lookup_fmap. f_equiv.
    assert (∀ y, key_ok to_lowercase parse_date pow10 (eq_filter col v) (KInt64 y) = true ↔ y = z) as Hk.
    { intros y. rewrite (int_key_exact _ _ _ (KInt64 y) y); [| by right| |].
      - unfold filter_holds, eq_filter, sat_min, sat_max. cbn [qf_min qf_max qf_values cmp_filter qf_min_inclusive qf_max_inclusive].
        rewrite Hcell. cbn [cell_cmp]. destruct (Z.compare_spec y z); naive_solver lia.
      - repeat constructor; by exists z.
      - split; [done|]. by eexists. }
    split.
    - intros (j & k & Heq%Nat2Z.inj & Hj & Hp). subst j. destruct (l !! i) as [[y|]|]; simplify_eq/=. by apply Hk in Hp as ->.
    - intros Hi. exists i, (KInt64 z). rewrite Hi. split_and!; [done|done|]. by apply Hk. }
  assert (display (MInt64 z) ∈ display <$> live (index_segment r l) col ↔ ∃ i, Z.of_nat i ∈ bm) as Hlive.
  { rewrite list_elem_of_fmap. setoid_rewrite Hrows. unfold live. cbn [sg_deletes sg_values index_segment].
    setoid_rewrite elem_of_visible. setoid_rewrite list_lookup_fmap. split.
    - intros (mv & Heq & i & Hi & Hd). exists i. split; [|done]. destruct (l !! i) as [o|]; [|done].
      cbn in Hi. simplify_eq. f_equal. by apply display_int_eq.
    - intros (i & Hi & Hd). exists (MInt64 z). split; [done|]. exists i. by rewrite Hi. }
  split.
  2: { unfold answers, check_value_exists. cbn [sg_bloom sg_index index_segment Value_of_manifest]. fold v.
    rewrite Hq. by destruct (bloom r col v) as [[]|]. }
  split; cbn [sg_bloom sg_index sg_deletes index_segment Value_of_manifest]; fold v.
  - intros [i [Hi _]%Hrows]%Hlive. apply Hbloom. by apply list_elem_of_lookup_2 with i.
  - intros bm' Hb. rewrite Hq in Hb. injection Hb as <-. rewrite Hlive. split.
    + intros Hne. apply set_choose_L in Hne as [x [Hx _]%elem_of_difference].
      pose proof Hx as [(i & k & -> & _) _]%Hbm. eauto.
    + intros [i Hi] Hempty. assert (Z.of_nat i ∈ bm ∖ all_deletes dio (ir_reader r)) as Hin.
      { apply elem_of_difference. split; [done|]. by apply Hrows in Hi as [_ ?]. }
      rewrite Hempty in Hin. by apply not_elem_of_empty in Hin.
  - rewrite Hq. done.
Qed.

End Unique.

(** ** Small tables *)

Module PkIndexExamples.
Import InvertedExamples.
Definition no_text (f : float) : string := "".
Definition maybe (r : IndexReader) (col : string) (v : Value) : result lookup_error bool := Ok true.
Definition readable (r : IndexReader) (col : string) : option nat := None.
Definition stored : list (IndexReader * list (option Z)) := [(rdr, [Some 5; None; Some 7; Some 5])].
Definition new_batch (l : list Z) : batch_columns := {["col" := MInt64 <$> l]}.
Abbreviation segment_of := (index_segment to_ascii_lowercase no_dates pow10 (disk (number_file "")) no_deletes maybe readable cold).
Abbreviation write l := (is_ok (accept_write no_text no_text no_text
  ((fun s => segment_of s.1 s.2) <$> stored) [] ["col"] [new_batch l])).



(** A segment without a match is skipped. *)
Example no_match_is_skipped :
  (segment_matched to_ascii_lowercase no_dates pow10 (disk (number_file "")) no_deletes cold rdr
     {| pk_columns := ["col"]; pk_rows := [[int 9]] |}).1 = false.
Proof. vm_compute. done. Qed.
End PkIndexExamples.
