(* ===== verification/DeleteRows.v ===== *)
(** * Deleting rows by a filter

    [Table::delete_async] ([src/src/core/table/maintenance.rs]): the segments that may match are
    searched through their indexes, or scanned, for the positions of the rows to delete; each gets
    a position delete file, and all entries are committed again.  It composes the pruning of
    [Planner], the indexes of [InvertedIndex], the delete files of [Merge] and [Deletes] and the
    commit of [Manifest]. *)

From S2P Require Import Prelude Json ManifestTypes Puffin Manifest ManifestStore Deletes Merge Compaction Planner PlannerSpec InvertedIndex.
Open Scope nat_scope.

(** [str::strip_suffix] *)
Definition strip_suffix (p s : string) : option string :=
  if ends_with p s then Some (String.substring 0 (String.length s - String.length p) s) else None.

Inductive derr := EvaluateFailed | CommitFailed.

Section DeleteRows.
Context {Row : Type}.
(** [Uuid::new_v4()], the size of a delete file, and the root of the table. *)
Context (uuid : nat → string) (delete_size : pos_map → Z) (root : string).
(** The batches a file is streamed in, and DataFusion's evaluation of the filter on a batch: the
    value bits of the mask, which are not specified where the result is null. *)
Context (batches_of : list Row → list (list Row)) (evaluate_expr : list Row → Expr → option (list bool)).
(** What the index lookup uses. *)
Context (to_lowercase : string → string) (parse_date : string → option Z) (pow10 : Z → SpecFloat.spec_float).
Context (io : IndexIo) (dio : DeleteIo).
Notation query := (get_scalar_filter_bitmap to_lowercase parse_date pow10 io dio).

(** ** Searching one segment *)

(** The reader has the index files of the entry, and none of its delete files. *)
Definition delete_reader (entry : ManifestEntry) : IndexReader :=
  let file_path := me_file_path entry in
  let rel_parent := parent_path file_path in
  let full_base_path := if decide (rel_parent = EmptyString) then root else root +:+ "/" +:+ rel_parent in
  let name := default file_path (last (split_char slash file_path)) in
  {| ir_reader :=
       {| hr_config := {| sc_base_path := full_base_path;
                          sc_segment_id := default file_path (strip_suffix parquet_suffix name);
                          sc_parquet_path := None; sc_delete_files := [] |};
          hr_root_uri := root |};
     ir_index_files := me_index_files entry;
     ir_record_count := Some (i64_as_u64 (me_record_count entry));
     ir_file_checksum := me_file_checksum entry;
     ir_active_snapshot_id := None |}.

(** The intersection over the conditions; without an index for one of them there is none. *)
Fixpoint and_bitmaps (c : IndexCaches) (r : IndexReader) (and_filters : list QueryFilter)
    (bitmap_opt : option (gset Z)) : option (gset Z) * IndexCaches :=
  match and_filters with
  | [] => (bitmap_opt, c)
  | f :: and_filters =>
      match query c r f with
      | (Ok (Some bm), c) =>
          and_bitmaps c r and_filters (Some match bitmap_opt with Some current => current ∩ bm | None => bm end)
      | (_, c) => (None, c)
      end
  end.

(** The positions at which the mask is set. *)
Definition mask_positions (current_row_offset : nat) (num_rows : nat) (mask : list bool) : list nat :=
  omap (fun i => if default false (mask !! i) then Some (current_row_offset + i) else None) (seq 0 num_rows).
Fixpoint scan_positions (expr : Expr) (current_row_offset : nat) (batches : list (list Row))
  : result derr (list nat) :=
  match batches with
  | [] => Ok []
  | batch :: batches =>
      match evaluate_expr batch expr with
      | None => Err EvaluateFailed
      | Some mask =>
          match scan_positions expr (current_row_offset + length batch) batches with
          | Ok rest => Ok (mask_positions current_row_offset (length batch) mask ++ rest)
          | Err e => Err e
          end
      end
  end.

Definition new_deletes (expr : Expr) (w : World Row) (c : IndexCaches) (entry : ManifestEntry)
  : result derr (list nat) * IndexCaches :=
  let reader := delete_reader entry in
  match and_bitmaps c reader (extract_and_conditions expr) None with
  | (Some bitmap, c) => (Ok (Z.to_nat <$> merge_sort Z.le (elements bitmap)), c)
  | (None, c) =>
      (scan_positions expr 0 (batches_of (default [] (w_data w !! resolve_object_path (ir_reader reader)))), c)
  end.

(** ** All segments *)

Record DeleteState := {
  ds_world : World Row;
  ds_next : nat;
  ds_caches : IndexCaches;
  ds_updated : list ManifestEntry
}.

(** The delete file goes beside the data file of a partitioned entry. *)
Definition write_deletes (st : World Row * nat) (entry : ManifestEntry) (positions : list nat)
  : DeleteFile * (World Row * nat) :=
  position_delete uuid delete_size root st
    (if decide (me_partition_values entry = ∅) then None
     else Some (trim_start slash (parent_path (me_file_path entry)), me_partition_values entry))
    (me_file_path entry) positions.
Definition push_updated (st : DeleteState) (entry : ManifestEntry) : DeleteState :=
  {| ds_world := ds_world st; ds_next := ds_next st; ds_caches := ds_caches st;
     ds_updated := ds_updated st ++ [entry] |}.

Definition delete_entry (expr : Expr) (candidate_paths : gset string) (st : DeleteState) (entry : ManifestEntry)
  : result derr DeleteState :=
  if decide (me_file_path entry ∈ candidate_paths) then
    match new_deletes expr (ds_world st) (ds_caches st) entry with
    | (Err e, _) => Err e
    | (Ok positions, c) =>
        let st := {| ds_world := ds_world st; ds_next := ds_next st; ds_caches := c; ds_updated := ds_updated st |} in
        match positions with
        | [] => Ok (push_updated st entry)
        | _ =>
            let '(d, (w, n)) := write_deletes (ds_world st, ds_next st) entry positions in
            Ok (push_updated {| ds_world := w; ds_next := n; ds_caches := c; ds_updated := ds_updated st |}
                  (with_delete_files entry (me_delete_files entry ++ [d])))
        end
    end
  else Ok (push_updated st entry).
Fixpoint delete_entries (expr : Expr) (candidate_paths : gset string) (st : DeleteState)
    (all_entries : list ManifestEntry) : result derr DeleteState :=
  match all_entries with
  | [] => Ok st
  | entry :: all_entries =>
      match delete_entry expr candidate_paths st entry with
      | Ok st => delete_entries expr candidate_paths st all_entries
      | Err e => Err e
      end
  end.

(** [Table::delete_async]: the entries are those of the snapshot [s0] that was loaded, the commit
    meets the snapshot [s] that is then current. *)
Definition delete_async (expr : Expr) (w : World Row) (n : nat) (c : IndexCaches) (s0 s : Snapshot)
  : result derr (World Row * Snapshot) :=
  match loaded s0 with
  | [] => Ok (w, s)
  | all_entries =>
      let candidates := prune_entries all_entries (Some expr) None in
      let candidate_paths : gset string := list_to_set (me_file_path <$> candidates.*1) in
      match delete_entries expr candidate_paths {| ds_world := w; ds_next := n; ds_caches := c; ds_updated := [] |}
              all_entries with
      | Err e => Err e
      | Ok st =>
          match ds_updated st with
          | [] => Ok (ds_world st, s)
          | updated =>
              match commit_snapshot CommitMetadata_default updated [] s with
              | Some s' => Ok (ds_world st, s')
              | None => Err CommitFailed
              end
          end
      end
  end.
End DeleteRows.

(** ** What a delete leaves *)

Section Left.
Context {Row : Type}.

(** Deleting the positions of the rows that fail a test, beside others, filters what is left. *)
Lemma visible_union (P : Row → Prop) `{!∀ x, Decision (P x)} (D D' : gset Z) (l : list Row) :
  (∀ j x, l !! j = Some x → Z.of_nat j ∈ D' ↔ ¬ P x) → visible (D ∪ D') l = filter P (visible D l).
Proof.
  unfold visible. generalize (seq 0 (length l)) as js. intros js HD. induction js as [|j js IH]; [done|].
  csimpl. rewrite IH. destruct (l !! j) as [x|] eqn:Hj; [|by repeat case_decide].
  specialize (HD j x Hj). destruct (decide (Z.of_nat j ∈ D)) as [Hin|Hout].
  - by rewrite decide_True by set_solver.
  - rewrite filter_cons. destruct (decide (P x)); [by rewrite decide_False by set_solver|].
    by rewrite decide_True by set_solver.
Qed.

Lemma push_known (cur l : list DeleteFile) :
  (∀ d, d ∈ l → df_file_path d ∈ df_file_path <$> cur) → foldl push_delete cur l = cur.
Proof.
  induction l as [|d l IH]; intros Hl; [done|]. cbn [foldl]. unfold push_delete at 2.
  rewrite decide_True by (apply Hl; left). apply IH. intros d' Hd'. apply Hl. by right.
Qed.

(** Adding all entries again puts the new ones in the place of the old ones. *)
Lemma readd_values (m : entry_map) (adds : list ManifestEntry) :
  me_file_path <$> adds ≡ₚ (map_to_list m).*1 →
  (∀ e e', e ∈ adds → m !! me_file_path e = Some e' → length (me_index_files e') ≤ length (me_index_files e)) →
  (map_to_list (add_all m adds)).*2 ≡ₚ adds.
Proof.
  intros Hp Hidx. assert (NoDup (me_file_path <$> adds)) as Hnd by (rewrite Hp; apply NoDup_fst_map_to_list).
  assert (add_all m adds = add_all ∅ adds) as ->.
  { apply map_eq. intros p. destruct (decide (p ∈ me_file_path <$> adds)) as [Hin|Hout].
    - apply list_elem_of_fmap in Hin as (e & -> & He). rewrite !add_all_lookup, lookup_empty by done. f_equal.
      destruct (m !! me_file_path e) as [e'|] eqn:Hm; [|done]. cbn [merge_indexes].
      specialize (Hidx e e' He Hm). rewrite decide_False; [done|lia].
    - rewrite !add_all_other, lookup_empty by done. apply eq_None_not_Some. intros [e He].
      apply Hout. rewrite Hp. apply list_elem_of_fmap. exists (p, e). by rewrite elem_of_map_to_list. }
  rewrite add_all_new; [|done|].
  - rewrite ins_values by done. by rewrite map_to_list_empty, app_nil_r.
  - apply forallb_elem_of. intros e _. by apply bool_decide_eq_true, lookup_empty.
Qed.
End Left.

(** ** The loop over the segments *)

Section Loop.
Context {Row : Type} (uuid : nat → string) (delete_size : pos_map → Z) (root : string).
Context (batches_of : list Row → list (list Row)) (evaluate_expr : list Row → Expr → option (list bool)).
Context (to_lowercase : string → string) (parse_date : string → option Z) (pow10 : Z → SpecFloat.spec_float).
Context (io : IndexIo) (dio : DeleteIo).
Notation new_deletes := (new_deletes root batches_of evaluate_expr to_lowercase parse_date pow10 io dio).
Notation write_deletes := (write_deletes uuid delete_size root).
Notation delete_entry :=
  (delete_entry uuid delete_size root batches_of evaluate_expr to_lowercase parse_date pow10 io dio).
Notation delete_entries :=
  (delete_entries uuid delete_size root batches_of evaluate_expr to_lowercase parse_date pow10 io dio).
Notation delete_async :=
  (delete_async uuid delete_size root batches_of evaluate_expr to_lowercase parse_date pow10 io dio).

(** The path of the [k]th delete file, if it is written for an entry. *)
Definition delete_path (k : nat) (e : ManifestEntry) : string :=
  metadata_uri root
    (if decide (me_partition_values e = ∅) then delete_name uuid k
     else trim_start slash (parent_path (me_file_path e)) +:+ "/" +:+ delete_name uuid k).

(** The rows to delete, the entries, and what is known of the caches. *)
Context (P : Row → Prop) `{!∀ r, Decision (P r)} (good : IndexCaches → Prop).
Context (expr : Expr) (entries : list ManifestEntry) (w : World Row).
Notation rows := (rows_of w).

(** The search of a segment finds exactly the rows to delete. *)
Definition search_exact (e : ManifestEntry) : Prop :=
  ∀ c, good c → ∃ ps c', new_deletes expr w c e = (Ok ps, c') ∧ good c'
    ∧ ∀ j r, rows e !! j = Some r → j ∈ ps ↔ P r.

(** An entry with the file that was written for it. *)
Abbreviation item := (ManifestEntry * option (DeleteFile * list nat))%type.
Definition item_entry (i : item) : ManifestEntry :=
  match i.2 with Some (d, _) => with_delete_files i.1 (me_delete_files i.1 ++ [d]) | None => i.1 end.
Definition item_file (i : item) : option DeleteFile := fst <$> i.2.
Definition item_ok (dels : gmap string pos_map) (i : item) : Prop :=
  match i.2 with
  | None => ∀ r, r ∈ rows i.1 → ¬ P r
  | Some (d, ps) => ps ≠ [] ∧ (∀ j r, rows i.1 !! j = Some r → j ∈ ps ↔ P r)
      ∧ df_partition_values d = me_partition_values i.1
      ∧ dels !! df_file_path d = Some (delete_content root (me_file_path i.1) ps)
  end.
(** The paths of the files written. *)
Abbreviation files items := (df_file_path <$> omap item_file items).

Lemma write_deletes_file (w' : World Row) k e ps :
  let '(d, (w1, k1)) := write_deletes (w', k) e ps in
  df_file_path d = delete_path k e ∧ df_partition_values d = me_partition_values e ∧ k1 = S k
  ∧ w_data w1 = w_data w'
  ∧ w_dels w1 = <[delete_path k e := delete_content root (me_file_path e) ps]> (w_dels w').
Proof. unfold write_deletes, delete_path, position_delete. by case_decide as Hp; cbn; rewrite ?Hp. Qed.

(** One segment: its file is new, and the others are left alone. *)
Lemma delete_entry_item cands st e :
  w_data (ds_world st) = w_data w → good (ds_caches st) →
  (me_file_path e ∈ cands → search_exact e) → (me_file_path e ∉ cands → ∀ r, r ∈ rows e → ¬ P r) →
  ∃ o st', delete_entry expr cands st e = Ok st' ∧ good (ds_caches st')
    ∧ w_data (ds_world st') = w_data w ∧ ds_next st ≤ ds_next st' ≤ S (ds_next st)
    ∧ ds_updated st' = ds_updated st ++ [item_entry (e, o)] ∧ item_ok (w_dels (ds_world st')) (e, o)
    ∧ (files [(e, o)] = [] ∧ w_dels (ds_world st') = w_dels (ds_world st)
       ∨ files [(e, o)] = [delete_path (ds_next st) e] ∧ ds_next st' = S (ds_next st)
         ∧ ∀ p, p ≠ delete_path (ds_next st) e → w_dels (ds_world st') !! p = w_dels (ds_world st) !! p).
Proof.
  intros Hdata Hgood Hcand Hother. unfold delete_entry. case_decide as Hin.
  2: { exists None, (push_updated st e). split_and!; try done; cbn; [lia| |by left]. by apply Hother. }
  destruct (Hcand Hin (ds_caches st) Hgood) as (ps & c' & Hps & Hgood' & Hex).
  assert (new_deletes expr (ds_world st) (ds_caches st) e = (Ok ps, c')) as ->.
  { rewrite <- Hps. unfold DeleteRows.new_deletes. by rewrite Hdata. }
  destruct ps as [|i ps].
  { eexists None, _. split_and!; [done|done|done|cbn; lia..|done| |by left].
    intros r [j Hj]%list_elem_of_lookup Hr. by apply (Hex j r Hj), not_elem_of_nil in Hr. }
  pose proof (write_deletes_file (ds_world st) (ds_next st) e (i :: ps)) as Hw.
  cbn [ds_world ds_next]. destruct (write_deletes _ _ _) as [d [w1 k1]].
  destruct Hw as (Hd & Hpart & -> & Hdata1 & Hdels1).
  eexists (Some (d, i :: ps)), _. split_and!; [done|done|cbn; congruence|cbn; lia..|done| |].
  - split_and!; [done|done|done|]. cbn. by rewrite Hdels1, Hd, lookup_insert_eq.
  - right. split_and!; [cbn; by rewrite Hd|done|]. intros p Hp. cbn. by rewrite Hdels1, lookup_insert_ne.
Qed.

Lemma item_ok_dels (dels dels' : gmap string pos_map) (i : item) :
  item_ok dels i → (∀ p, p ∈ files [i] → dels' !! p = dels !! p) → item_ok dels' i.
Proof.
  destruct i as [e [[d ps]|]]; unfold item_ok; cbn; [|done]. intros (Hne & Hex & Hp & Hd) Heq.
  split_and!; [done..|]. by rewrite Heq by left.
Qed.

(** The new names do not clash. *)
Definition names_new (n : nat) : Prop :=
  ∀ e e' k k', e ∈ entries → e' ∈ entries → n ≤ k < n + length entries → n ≤ k' < n + length entries →
    delete_path k e = delete_path k' e' → k = k'.

Lemma delete_entries_items cands n es st :
  names_new n → (∀ e, e ∈ es → e ∈ entries) → n ≤ ds_next st → ds_next st + length es ≤ n + length entries →
  w_data (ds_world st) = w_data w → good (ds_caches st) →
  (∀ e, e ∈ es → me_file_path e ∈ cands → search_exact e) →
  (∀ e, e ∈ es → me_file_path e ∉ cands → ∀ r, r ∈ rows e → ¬ P r) →
  ∃ items st', delete_entries expr cands st es = Ok st' ∧ items.*1 = es
    ∧ w_data (ds_world st') = w_data w ∧ ds_updated st' = ds_updated st ++ (item_entry <$> items)
    ∧ Forall (item_ok (w_dels (ds_world st'))) items ∧ NoDup (files items)
    ∧ (∀ p, p ∈ files items → ∃ e k, e ∈ es ∧ ds_next st ≤ k < ds_next st + length es ∧ p = delete_path k e)
    ∧ (∀ p, p ∉ files items → w_dels (ds_world st') !! p = w_dels (ds_world st) !! p).
Proof.
  intros Hnew. revert st. induction es as [|e es IH]; intros st Hes Hlo Hhi Hdata Hgood Hcand Hother.
  { exists [], st. split_and!; try done; [by rewrite app_nil_r|constructor|by intros p ?%not_elem_of_nil]. }
  cbn [length] in Hhi.
  destruct (delete_entry_item cands st e) as (o & st1 & Hst1 & Hgood1 & Hdata1 & Hnext & Hupd1 & Hok & Hfile);
    [done|done|apply Hcand; left|apply Hother; left|].
  destruct (IH st1) as (items & st' & Hst' & Hfst & Hdata' & Hupd & Hall & Hnd & Hnames & Hdels);
    [set_solver|lia|lia|done|done|set_solver|set_solver|].
  assert (∀ p, p ∈ files [(e, o)] → p ∉ files items ∧ p = delete_path (ds_next st) e) as Hhead.
  { intros p Hp. destruct Hfile as [[Hf _]|(Hf & Hn1 & _)]; rewrite Hf in Hp; [by apply not_elem_of_nil in Hp|].
    apply list_elem_of_singleton in Hp as ->. split; [|done]. intros (e' & k & He' & Hk & Heq)%Hnames.
    assert (ds_next st = k); [|lia]. eapply Hnew; [..|exact Heq]; [apply Hes; left|apply Hes; by right|lia|lia]. }
  assert (files ((e, o) :: items) = files [(e, o)] ++ files items) as Hfs by (by destruct o).
  exists ((e, o) :: items), st'. rewrite Hfs. cbn [DeleteRows.delete_entries]. rewrite Hst1. split_and!.
  - done.
  - csimpl. by rewrite Hfst.
  - done.
  - rewrite Hupd, Hupd1, <- app_assoc. done.
  - constructor; [|done]. eapply item_ok_dels; [exact Hok|]. intros p Hp. apply Hdels. by apply Hhead.
  - apply NoDup_app. split_and!; [destruct o; csimpl; [apply NoDup_singleton|constructor]| |done].
    intros p Hp. by apply Hhead.
  - intros p [Hp|Hp]%elem_of_app.
    + exists e, (ds_next st). split_and!; [left|lia|cbn; lia|by apply Hhead].
    + destruct (Hnames p Hp) as (e' & k & He' & Hk & ->). exists e', k. split_and!; [by right|lia|cbn; lia|done].
  - intros p [Hp Hps]%not_elem_of_app. rewrite Hdels by done.
    destruct Hfile as [[_ ->]|(Hf & _ & Hd)]; [done|]. apply Hd. intros ->. apply Hp. rewrite Hf. left.
Qed.

(** *** The commit *)

Lemma collect_items (cur : list DeleteFile) (items : list item) :
  (∀ i d, i ∈ items → d ∈ me_delete_files i.1 → df_file_path d ∈ df_file_path <$> cur) →
  NoDup (files items) → (∀ p, p ∈ files items → p ∉ df_file_path <$> cur) →
  collect_deletes cur (item_entry <$> items) = cur ++ omap item_file items.
Proof.
  unfold collect_deletes. revert cur. induction items as [|[e o] items IH]; intros cur Hold Hnd Hnew.
  { by rewrite app_nil_r. }
  assert (∀ d, d ∈ me_delete_files e → df_file_path d ∈ df_file_path <$> cur) as He
    by (intros d; apply (Hold (e, o) d); left).
  csimpl. rewrite foldl_app. destruct o as [[d ps]|]; cbn.
  - rewrite foldl_app, (push_known cur) by exact He. cbn. unfold push_delete at 2.
    csimpl in *. apply NoDup_cons in Hnd as [Hd Hnd]. rewrite decide_False by (apply Hnew; left).
    rewrite IH, <- app_assoc; [done| |done|].
    + intros i d' Hi Hd'. rewrite fmap_app, elem_of_app. left. by apply (Hold i d'); [right|].
    + intros p Hp. rewrite fmap_app, elem_of_app. cbn. rewrite list_elem_of_singleton. intros [Hin| ->]; [|done].
      revert Hin. apply Hnew. by right.
  - rewrite (push_known cur) by exact He. apply IH; [|done|done]. intros i d' Hi. apply Hold. by right.
Qed.

Lemma elem_of_attached (w' : World Row) (dels : list DeleteFile) e z :
  z ∈ deleted_rows w' (attach_deletes dels (with_delete_files e [])) ↔
  ∃ d, d ∈ dels ∧ me_partition_values e = df_partition_values d ∧
    z ∈ filter_map_to_bitmap (default ∅ (w_dels w' !! df_file_path d)) (strip_file (me_file_path e)).
Proof.
  unfold deleted_rows. rewrite elem_of_union_list. cbn. setoid_rewrite list_elem_of_fmap.
  setoid_rewrite list_elem_of_filter. naive_solver.
Qed.

(** The positions of one entry. *)
Definition item_positions (i : item) : gset Z :=
  match i.2 with Some (_, ps) => list_to_set (Z.of_nat <$> ps) | None => ∅ end.

(** A table and names for its delete files: no entry is known under another's path, not even by a
    suffix of it, and the names are new. *)
Record table_ready (n : nat) (s : Snapshot) : Prop := {
  tr_keyed : keyed (sn_entries s);
  tr_small : ∀ e, e ∈ entries → (Z.of_nat (length (rows e)) < 2 ^ 32)%Z;
  tr_paths : ∀ e e', e ∈ entries → e' ∈ entries →
    path_matches (qualify root (me_file_path e)) (strip_file (me_file_path e')) = true ↔
    me_file_path e = me_file_path e';
  tr_fresh : ∀ e k, e ∈ entries → n ≤ k < n + length entries →
    delete_path k e ∉ df_file_path <$> sn_deletes s;
  tr_names : names_new n
}.

Lemma item_left (w' : World Row) (dels : list DeleteFile) (items : list item) i :
  w_data w' = w_data w → Forall (item_ok (w_dels w')) items → i ∈ items →
  (∀ p, p ∉ files items → w_dels w' !! p = w_dels w !! p) →
  (∀ d, d ∈ dels → df_file_path d ∉ files items) →
  (∀ i', i' ∈ items →
     (path_matches (qualify root (me_file_path i'.1)) (strip_file (me_file_path i.1)) = true ↔ i' = i)) →
  (Z.of_nat (length (rows i.1)) < 2 ^ 32)%Z →
  rows_under w' (dels ++ omap item_file items) i.1 = filter (fun r => ¬ P r) (rows_under w dels i.1).
Proof.
  intros Hdata Hall Hi Hold Hdels Hpaths Hsmall. rewrite Forall_forall in Hall.
  unfold rows_under, visible_rows. cbn [me_file_path attach_deletes with_delete_files]. rewrite Hdata.
  fold (attach_deletes (dels ++ omap item_file items) (with_delete_files i.1 [])).
  fold (attach_deletes dels (with_delete_files i.1 [])).
  replace (deleted_rows w' _) with (deleted_rows w (attach_deletes dels (with_delete_files i.1 []))
    ∪ filter (fun z => fits_u32 z = true) (item_positions i)).
  - apply visible_union. intros j r Hj. rewrite elem_of_filter.
    assert (fits_u32 (Z.of_nat j) = true) as ->.
    { apply lookup_lt_Some in Hj. unfold rows_of in Hsmall. unfold fits_u32. apply andb_true_iff. rewrite !Z.leb_le. lia. }
    specialize (Hall i Hi). unfold item_ok, item_positions in *. destruct (i.2) as [[d ps]|].
    + destruct Hall as (_ & Hex & _). rewrite elem_of_list_to_set, list_elem_of_fmap. rewrite <- (Hex j r Hj) at 1.
      destruct (decide (j ∈ ps)) as [Hin|Hout]; split; intros Hz; try tauto; [split; [done|by exists j]|].
      destruct Hz as (_ & j' & ->%Nat2Z.inj & Hj'). done.
    + assert (¬ P r) by (by apply Hall, list_elem_of_lookup; eauto). set_solver.
  - apply set_eq. intros z. rewrite elem_of_union, elem_of_filter, !elem_of_attached.
    setoid_rewrite elem_of_app. split.
    + intros [(d & Hd & Hp & Hz)|[Hz Hin]].
      * exists d. rewrite Hold by (by apply Hdels). eauto.
      * pose proof (Hall i Hi) as Hok. unfold item_ok, item_positions in *. destruct (i.2) as [[d ps]|] eqn:Ei; [|set_solver].
        destruct Hok as (Hne & _ & Hp & Hd). exists d. split_and!; [right|done|].
        { apply list_elem_of_omap. exists i. split; [done|]. unfold item_file. by rewrite Ei. }
        rewrite Hd. cbn. rewrite delete_content_lookup, elem_of_bitmap_singleton by done. split_and!; [|done|done].
        by apply Hpaths.
    + intros (d & [Hd|Hd] & Hp & Hz); [left; exists d; by rewrite <- Hold by (by apply Hdels)|]. right.
      apply list_elem_of_omap in Hd as ([e [[d' ps]|]] & He & Hd); [|done]. injection Hd as ->.
      pose proof (Hall _ He) as (Hne & _ & _ & Hd). cbn [fst snd] in *. rewrite Hd in Hz. cbn in Hz.
      rewrite delete_content_lookup, elem_of_bitmap_singleton in Hz by done. destruct Hz as (Hm & Hz & Hf).
      split; [done|]. apply (Hpaths _ He) in Hm as <-. done.
Qed.

Lemma filter_list_bind {A B} (f : A → list B) (Q : B → Prop) `{!∀ x, Decision (Q x)} (l : list A) :
  filter Q (l ≫= f) = l ≫= fun x => filter Q (f x).
Proof. induction l as [|x l IH]; [done|]. csimpl. by rewrite filter_app, IH. Qed.

Lemma loaded_entry (s : Snapshot) e :
  e ∈ loaded s ↔ ∃ p raw, sn_entries s !! p = Some raw ∧ e = attach_deletes (sn_deletes s) (with_delete_files raw []).
Proof.
  unfold loaded. rewrite list_elem_of_fmap. split.
  - intros ([p raw] & -> & Hr%elem_of_map_to_list). by exists p, raw.
  - intros (p & raw & Hr%elem_of_map_to_list & ->). by exists (p, raw).
Qed.

Lemma loaded_paths (s : Snapshot) : keyed (sn_entries s) → me_file_path <$> loaded s = (map_to_list (sn_entries s)).*1.
Proof. intros Hk. rewrite <- keyed_paths by done. unfold loaded. by rewrite <- !list_fmap_compose. Qed.

Lemma item_entry_path i : me_file_path (item_entry i) = me_file_path i.1.
Proof. by destruct i as [e [[d ps]|]]. Qed.
Lemma item_entry_index i : me_index_files (item_entry i) = me_index_files i.1.
Proof. by destruct i as [e [[d ps]|]]. Qed.
Lemma item_entry_rows (w' : World Row) dels i : rows_under w' dels (item_entry i) = rows_under w' dels i.1.
Proof. by destruct i as [e [[d ps]|]]. Qed.

Lemma commit_items (w' : World Row) n s (items : list item) :
  entries = loaded s → table_ready n s → items.*1 = entries → items ≠ [] →
  w_data w' = w_data w → Forall (item_ok (w_dels w')) items → NoDup (files items) →
  (∀ p, p ∈ files items → ∃ e k, e ∈ entries ∧ n ≤ k < n + length entries ∧ p = delete_path k e) →
  (∀ p, p ∉ files items → w_dels w' !! p = w_dels w !! p) →
  ∃ s', commit_snapshot CommitMetadata_default (item_entry <$> items) [] s = Some s'
    ∧ table_rows w' s' ≡ₚ filter (fun r => ¬ P r) (table_rows w s).
Proof.
  intros Hload [Hkeyed Hsmall Hpaths Hfresh Hnames] Hitems Hne Hdata Hall Hnd Hnew Hold.
  assert (∀ p, p ∈ files items → p ∉ df_file_path <$> sn_deletes s) as Hdisj.
  { intros p (e & k & He & Hk & ->)%Hnew. by apply Hfresh. }
  assert (∀ i, i ∈ items → i.1 ∈ entries) as Hin by (intros i Hi; rewrite <- Hitems; by apply list_elem_of_fmap_2).
  assert (me_file_path <$> (item_entry <$> items) = (map_to_list (sn_entries s)).*1) as Hkeys.
  { rewrite <- loaded_paths, <- Hload, <- Hitems by done. rewrite <- !list_fmap_compose. apply list_fmap_ext.
    intros j i _. apply item_entry_path. }
  eexists. split; [reflexivity|]. rewrite table_rows_values. cbn [sn_entries sn_deletes].
  rewrite readd_values; [|by rewrite Hkeys|].
  2: { intros e e' (i & -> & Hi)%list_elem_of_fmap Hl. rewrite item_entry_index. apply Hin in Hi.
    rewrite Hload in Hi. apply loaded_entry in Hi as (p & raw & Hr & Hi). rewrite item_entry_path, Hi in Hl.
    rewrite Hi. cbn in *. pose proof (Hkeyed _ _ Hr) as Hp. rewrite Hp, Hr in Hl. by simplify_eq. }
  rewrite collect_items; [|..|done|done].
  2: { intros i d Hi Hd. apply Hin in Hi. rewrite Hload in Hi. apply loaded_entry in Hi as (p & raw & Hr & Hi).
    rewrite Hi in Hd. cbn in Hd. apply list_elem_of_filter in Hd as [_ Hd]. by apply list_elem_of_fmap_2. }
  rewrite (table_rows_values w s).
  assert ((map_to_list (sn_entries s)).*2 ≫= rows_under w (sn_deletes s) = items ≫= fun i => rows_under w (sn_deletes s) i.1) as ->.
  { transitivity (entries ≫= rows_under w (sn_deletes s)).
    - rewrite Hload. unfold loaded. generalize (map_to_list (sn_entries s)) as l. intros l.
      induction l as [|[p e] l IH]; [done|]. csimpl. by rewrite IH.
    - rewrite <- Hitems. clear. induction items as [|i items IH]; [done|]. csimpl. by rewrite IH. }
  rewrite filter_list_bind. replace (_ ≫= _) with (items ≫= fun i => rows_under w' (sn_deletes s ++ omap item_file items) i.1).
  2: { generalize (sn_deletes s ++ omap item_file items). intros ds. clear. induction items as [|i items IH]; [done|].
    csimpl. by rewrite IH, item_entry_rows. }
  rewrite (Forall_bind_ext _ (fun i => filter (fun r => ¬ P r) (rows_under w (sn_deletes s) i.1))); [done|].
  apply Forall_forall. intros i Hi. apply item_left; [done..| | |by apply Hsmall, Hin].
  - intros d Hd Hf. apply (Hdisj _ Hf). by apply list_elem_of_fmap_2.
  - intros i' Hi'. rewrite Hpaths by auto. split; [|by intros ->]. intros Heq.
    assert (NoDup (me_file_path <$> items.*1)) as Hndp.
    { rewrite Hitems, Hload, loaded_paths by done. apply NoDup_fst_map_to_list. }
    rewrite <- list_fmap_compose in Hndp. apply list_elem_of_lookup in Hi as [a Ha], Hi' as [b Hb].
    assert (a = b) as ->; [|congruence]. eapply (NoDup_lookup _ a b); [exact Hndp|..]; rewrite list_lookup_fmap.
    + by rewrite Ha.
    + rewrite Hb. cbn. by rewrite Heq.
Qed.

Lemma delete_filters n c s :
  entries = loaded s → table_ready n s → good c →
  let cands : gset string := list_to_set (me_file_path <$> (prune_entries entries (Some expr) None).*1) in
  (∀ e, e ∈ entries → me_file_path e ∈ cands → search_exact e) →
  (∀ e, e ∈ entries → me_file_path e ∉ cands → ∀ r, r ∈ rows e → ¬ P r) →
  ∃ w' s', delete_async expr w n c s s = Ok (w', s')
    ∧ table_rows w' s' ≡ₚ filter (fun r => ¬ P r) (table_rows w s).
Proof.
  intros Hload Hready Hgood cands Hcand Hother. unfold DeleteRows.delete_async. rewrite <- Hload.
  destruct (decide (entries = [])) as [Hnil|Hne].
  { rewrite Hnil. exists w, s. split; [done|]. unfold table_rows. by rewrite <- Hload, Hnil. }
  destruct (delete_entries_items cands n entries {| ds_world := w; ds_next := n; ds_caches := c; ds_updated := [] |})
    as (items & st & Hst & Hitems & Hdata & Hupd & Hall & Hnd & Hnew & Hold); try done; [apply Hready|].
  cbn in Hupd, Hold, Hnew.
  assert (items ≠ []) as Hne' by (intros ->; by rewrite <- Hitems in Hne).
  destruct (commit_items (ds_world st) n s items) as (s' & Hs' & Hrows); [done..|].
  exists (ds_world st), s'. split; [|done]. destruct entries as [|e es] eqn:He; [done|].
  cbn zeta. fold cands. rewrite Hst, Hupd. destruct items as [|i items]; [done|]. rewrite fmap_cons in *. by rewrite Hs'.
Qed.
End Loop.

(** ** Searching a segment by its rows *)

Section Scan.
Context {Row : Type} (evaluate_expr : list Row → Expr → option (list bool)).
Context (cell : Row → string → Cell) (cast : string → Cell → Cell) (opaque : Row → Expr → option bool).
Notation value r e := (eval (cell r) cast (opaque r) e).

(** DataFusion's documented result: the mask has the value of the filter on each row where that
    is not null. *)
Definition mask_lawful (expr : Expr) : Prop :=
  ∀ batch, ∃ mask, evaluate_expr batch expr = Some mask
    ∧ Forall2 (fun r bit => ∀ b, value r expr = Some b → bit = b) batch mask.

Lemma mask_positions_elem expr off batch mask k :
  Forall2 (fun r bit => ∀ b, value r expr = Some b → bit = b) batch mask →
  Forall (fun r => is_Some (value r expr)) batch →
  k ∈ mask_positions off (length batch) mask ↔ ∃ j r, k = off + j ∧ batch !! j = Some r ∧ value r expr = Some true.
Proof.
  intros Hm Hs. unfold mask_positions. rewrite list_elem_of_omap. rewrite Forall_lookup in Hs. split.
  - intros (j & Hj%elem_of_seq & Hk). destruct (lookup_lt_is_Some_2 batch j ltac:(lia)) as [r Hr].
    destruct (Forall2_lookup_l _ _ _ _ _ Hm Hr) as (bit & Hb & Hv). rewrite Hb in Hk. cbn in Hk.
    destruct bit; [|done]. injection Hk as <-. destruct (Hs j r Hr) as [b Hval]. specialize (Hv b Hval). subst b. eauto.
  - intros (j & r & -> & Hr & Hval). exists j. split; [apply elem_of_seq; apply lookup_lt_Some in Hr; lia|].
    destruct (Forall2_lookup_l _ _ _ _ _ Hm Hr) as (bit & Hb & Hv). by rewrite Hb, (Hv true Hval).
Qed.

Lemma scan_exact expr off batches :
  mask_lawful expr → Forall (fun r => is_Some (value r expr)) (concat batches) →
  ∃ ps, scan_positions evaluate_expr expr off batches = Ok ps
    ∧ ∀ k, k ∈ ps ↔ ∃ j r, k = off + j ∧ concat batches !! j = Some r ∧ value r expr = Some true.
Proof.
  intros Hmask. revert off. induction batches as [|batch batches IH]; intros off; cbn [concat].
  { intros _. exists []. split; [done|]. intros k. setoid_rewrite lookup_nil. set_solver. }
  rewrite Forall_app. intros [Hb Hbs]. cbn [scan_positions].
  destruct (Hmask batch) as (mask & -> & Hm). destruct (IH (off + length batch) Hbs) as (ps & -> & Hps).
  eexists. split; [done|]. intros k. rewrite elem_of_app, Hps, (mask_positions_elem expr) by done. split.
  - intros [(j & r & -> & Hj & Hv)|(j & r & -> & Hj & Hv)].
    + exists j, r. split_and!; [done| |done]. by rewrite lookup_app_l by (by eapply lookup_lt_Some).
    + exists (length batch + j), r. split_and!; [lia| |done]. rewrite lookup_app_r by lia.
      by replace (length batch + j - length batch) with j by lia.
  - intros (j & r & -> & Hj & Hv). apply lookup_app_Some in Hj as [Hj|[Hge Hj]]; [left; by exists j, r|].
    right. exists (j - length batch), r. split_and!; [lia|done|done].
Qed.
End Scan.

(** ** Conditions that an index answers exactly *)

(** A literal that the planner reads as it is. *)
Definition literal_value (x : Expr) (v : Value) : Prop :=
  ∃ s, x = ELiteral s ∧ scalar_to_json_value s = Some v ∧ cell_of_scalar s = Some (cell_of_value v).
Definition is_literal (x : Expr) : Prop := ∃ v, literal_value x v.

(** Conjunctions of equality, lower bounds, IN lists and BETWEEN on columns. *)
Fixpoint index_filter (e : Expr) : Prop :=
  match e with
  | EBinary l op r =>
      match op with
      | OpAnd => index_filter l ∧ index_filter r
      | OpEq | OpGt | OpGtEq => match l with EColumn _ => is_literal r | _ => False end
      | _ => False
      end
  | EInList (EColumn _) list false => list ≠ [] ∧ Forall is_literal list
  | EBetween (EColumn _) false low high => is_literal low ∧ is_literal high
  | _ => False
  end.

Section Conditions.
Context (row : string → Cell) (cast : string → Cell → Cell) (opaque : Expr → option bool).
Notation holds f := (filter_holds (row (qf_column f)) f = true).

Lemma in_list_literals list :
  Forall is_literal list →
  ∃ vs, omap in_list_value list = vs ∧ length vs = length list
    ∧ mapM (operand row cast) list = Some (cell_of_value <$> vs).
Proof.
  induction 1 as [|x list (v & s & -> & Hv & Hc) _ (vs & Hvs & Hlen & Hm)]; [by exists []|].
  exists (v :: vs). split_and!; [csimpl; by rewrite Hv, Hvs|cbn; by rewrite Hlen|].
  cbn [mapM operand]. rewrite Hc. cbn [mbind option_bind]. by rewrite Hm.
Qed.

Lemma in3_holds a vs : in3 a (cell_of_value <$> vs) = Some true ↔ existsb (equals a) vs = true.
Proof.
  unfold in3. assert (existsb (fun b => bool_decide (cell_cmp a b = Some Eq)) (cell_of_value <$> vs)
    = existsb (equals a) vs) as ->.
  { induction vs as [|v vs IH]; [done|]. csimpl. by rewrite IH. }
  destruct (existsb (equals a) vs); [done|]. by destruct (existsb _ _).
Qed.

(** A comparison with a literal. *)
Lemma comparison_holds c x op v f :
  literal_value x v → op = OpEq ∨ op = OpGt ∨ op = OpGtEq → filter_of_op c v op = Some f →
  (compare3 op (row c) (cell_of_value v) = Some true ↔ holds f) ∧ exact_filter f.
Proof.
  intros _ Hop Hf. unfold compare3, filter_holds, exact_filter, sat_min, sat_max, equals.
  destruct Hop as [-> |[-> | ->]]; injection Hf as <-; cbn; (split; [|repeat split; eauto 10; by right; exists v]);
    destruct (cell_cmp (row c) (cell_of_value v)) as [[]|] eqn:Ec; cbn; rewrite ?Ec; done.
Qed.

(** On such a filter the conditions that are extracted say all that the filter says. *)
Lemma conditions_meaning e :
  index_filter e →
  (eval row cast opaque e = Some true ↔ Forall (fun f => holds f) (extract_and_conditions e))
  ∧ extract_and_conditions e ≠ [] ∧ Forall exact_filter (extract_and_conditions e).
Proof.
  assert (∀ c x op v f, literal_value x v → op = OpEq ∨ op = OpGt ∨ op = OpGtEq → filter_of_op c v op = Some f →
    (eval row cast opaque (EBinary (EColumn c) op x) = Some true ↔ Forall (fun f => holds f) [f])
    ∧ [f] ≠ [] ∧ Forall exact_filter [f]) as Hcmp.
  { intros c x op v f Hx Hop Hf. destruct (comparison_holds c x op v f Hx Hop Hf) as [Hh Hex].
    destruct Hx as (s & -> & Hv & Hc). rewrite !Forall_singleton. split_and!; [|done|done]. rewrite <- Hh.
    by destruct Hop as [-> |[-> | ->]]; cbn [eval operand]; rewrite Hc. }
  induction e as [| |l IHl op r IHr| | | | | |x IHx list negated|x IHx negated low IHlow high IHhigh| |]; try done.
  - destruct (decide (op = OpAnd)) as [->|Hne].
    { intros [Hl Hr]. destruct (IHl Hl) as (El & Nl & Xl), (IHr Hr) as (Er & Nr & Xr). cbn [extract_and_conditions].
      rewrite decide_True by done. rewrite !Forall_app, <- El, <- Er. split_and!; [|by intros [? _]%app_nil|done..].
      cbn [eval]. clear. destruct (eval row cast opaque l) as [[]|], (eval row cast opaque r) as [[]|]; cbn; naive_solver. }
    clear IHl IHr. cbn [extract_and_conditions]. rewrite decide_False by done.
    intros He. destruct l as [c| | | | | | | | | | |]; try (by destruct op).
    assert ((op = OpEq ∨ op = OpGt ∨ op = OpGtEq) ∧ is_literal r) as [Hop (v & Hv)] by (destruct op; tauto || done).
    assert (convert_binary_expr_to_query_filter (EColumn c) op r = filter_of_op c v op) as ->.
    { destruct Hv as (s & -> & Hv & _). unfold convert_binary_expr_to_query_filter, col_val_op. cbn. by rewrite Hv. }
    destruct (filter_of_op c v op) as [f|] eqn:Hf; [by apply (Hcmp c r op v f)|].
    by destruct Hop as [-> |[-> | ->]].
  - destruct x as [c| | | | | | | | | | |]; try done. destruct negated; [done|]. intros [Hne Hlit].
    destruct (in_list_literals list Hlit) as (vs & Hvs & Hlen & Hm). cbn [extract_and_conditions convert_in_list_to_query_filter].
    rewrite Hvs. destruct vs as [|v vs]; [by destruct list|].
    change (option_list _) with [cmp_filter c None false None false (Some (v :: vs)) false]. rewrite !Forall_singleton.
    split_and!; [|done|by split; [|left]]. cbn [eval]. change (operand row cast (EColumn c)) with (Some (row c)).
    rewrite Hm. rewrite option_fmap_id. rewrite in3_holds. unfold filter_holds. cbn [qf_min qf_max qf_values cmp_filter andb qf_column]. done.
  - destruct x as [c| | | | | | | | | | |]; try done. destruct negated; [done|].
    intros [(lo & sl & -> & Hlo & Hclo) (hi & sh & -> & Hhi & Hchi)]. 
    unfold extract_and_conditions, between_filter. cbn [expr_column_name expr_literal_json mbind option_bind]. rewrite Hlo, Hhi.
    change (option_list _) with [cmp_filter c (Some lo) true (Some hi) true None false]. rewrite !Forall_singleton.
    split_and!; [|done|by split; [|eexists]]. cbn [eval operand]. rewrite Hclo, Hchi, option_fmap_id.
    unfold filter_holds, sat_min, sat_max, compare3. cbn.
    destruct (cell_cmp (row c) (cell_of_value lo)) as [[]|], (cell_cmp (row c) (cell_of_value hi)) as [[]|]; done.
Qed.
End Conditions.

Lemma null_fails f : exact_filter f → filter_holds CNull f = false.
Proof.
  intros [_ Hf]. unfold filter_holds, sat_min. destruct (qf_values f) as [vs|].
  - assert (existsb (equals CNull) vs = false) as ->; [|by rewrite andb_false_r].
    clear Hf. induction vs as [|v vs IH]; [done|]. cbn [existsb]. by rewrite IH, orb_false_r.
  - by destruct Hf as [m ->].
Qed.

(** ** Searching a segment by its indexes *)

Section Search.
Context {Row : Type} (root : string).
Context (batches_of : list Row → list (list Row)) (evaluate_expr : list Row → Expr → option (list bool)).
Context (to_lowercase : string → string) (parse_date : string → option Z) (pow10 : Z → SpecFloat.spec_float).
Context (io : IndexIo) (dio : DeleteIo).
Context (sort_to_indices : list (option Key) → list nat)
  (hash_iter : gmap Key (list Z) → list (Key * list Z))
  (registry : string → option (string → list string)) (configs : string → option TextConfig).
Context (Hsort : ∀ array, sort_to_indices array ≡ₚ seq 0 (length array))
  (Hiter : ∀ m, hash_iter m ≡ₚ map_to_list m) (Hidentity : registry "identity" = Some identity_tokens).
Context (known : IndexReader → IndexFile → Prop) (files : string → InvFile).
Context (Hstore : store_lawful io known files).
Context (cell : Row → string → Cell) (cast : string → Cell → Cell) (opaque : Row → Expr → option bool).
Notation and_bitmaps := (and_bitmaps to_lowercase parse_date pow10 io dio).
Notation new_deletes := (new_deletes root batches_of evaluate_expr to_lowercase parse_date pow10 io dio).
Notation indexed := (indexed sort_to_indices hash_iter registry configs known files).
Notation coherent := (coherent io known files).
Notation reader := (delete_reader root).
Notation key_ok := (key_ok to_lowercase parse_date pow10).

(** The caches hold what the store holds, and no scalar bitmap. *)
Definition caches_ok (c : IndexCaches) : Prop := coherent c ∧ ic_index c = ∅.
(** A column without an inverted index, a scalar index or a file that older versions wrote. *)
Definition no_index (r : IndexReader) (f : QueryFilter) : Prop :=
  inv_idx_info r (qf_column f) = None ∧ bitmap_idx_info r (qf_column f) = None
  ∧ ∀ b, ix_get io (resolve_path (ir_reader r) (qf_column f +:+ ".idx")) ≠ Fetched b.

Lemma query_keeps_bitmaps c r f idx :
  inv_idx_info r (qf_column f) = Some idx →
  ic_index (get_scalar_filter_bitmap to_lowercase parse_date pow10 io dio c r f).2 = ic_index c.
Proof.
  intros Hi. unfold get_scalar_filter_bitmap, matching_bitmap. rewrite Hi.
  assert (ic_index (load_inverted io c r idx).2 = ic_index c) as Hl.
  { unfold load_inverted, decode_inverted. repeat case_match; simplify_eq/=; done. }
  destruct (load_inverted io c r idx) as [[[]|] c']; cbn in *; [by destruct (_ && _)|done|done].
Qed.

Lemma query_no_index c r f :
  no_index r f → ic_index c = ∅ → get_scalar_filter_bitmap to_lowercase parse_date pow10 io dio c r f = (Ok None, c).
Proof.
  intros (Hi & Hb & Hg) Hc. unfold get_scalar_filter_bitmap, matching_bitmap, load_bitmap.
  rewrite Hi, Hb, Hc, lookup_empty. destruct (ix_get io _) eqn:E; [|done..]. by destruct (Hg b).
Qed.

Lemma reader_deletes e : all_deletes dio (ir_reader (reader e)) = ∅.
Proof. done. Qed.

Lemma and_bitmaps_indexed (cols : string → ColumnArray) r fs c acc :
  Forall (fun f => indexed r (qf_column f) (cols (qf_column f)) ∧ qf_negated f = false) fs → caches_ok c →
  fs ≠ [] ∨ is_Some acc →
  ∃ bm c', and_bitmaps c r fs acc = (Some bm, c') ∧ caches_ok c'
    ∧ ∀ x, x ∈ bm ↔ (∀ b, acc = Some b → x ∈ b)
        ∧ Forall (fun f => has_row (key_ok f) (indexed_keys (cols (qf_column f))) x ∧ x ∉ all_deletes dio (ir_reader r)) fs.
Proof.
  intros Hfs. revert c acc. induction Hfs as [|f fs [Hix Hn] Hfs IH]; intros c acc Hc Hacc.
  { destruct Hacc as [?|[b ->]]; [done|]. exists b, c. split_and!; [done|done|]. intros x. split; [|naive_solver].
    intros Hx. split; [by intros ? [= ->]|done]. }
  destruct (query_built sort_to_indices hash_iter registry configs Hsort Hiter Hidentity to_lowercase parse_date pow10 io dio known files Hstore
    c r (qf_column f) (cols (qf_column f)) f) as (bm & Hq & Hc' & Hbm); [done|apply Hc|done|done|].
  assert (ic_index (get_scalar_filter_bitmap to_lowercase parse_date pow10 io dio c r f).2 = ∅) as Hb.
  { destruct (ix_built _ _ _ _ _ _ _ _ _ Hix) as (st & st' & idx & _ & _ & Hi & _). rewrite (query_keeps_bitmaps _ _ _ idx Hi). apply Hc. }
  cbn [DeleteRows.and_bitmaps]. destruct (get_scalar_filter_bitmap _ _ _ _ _ _ _ _) as [res c1]. cbn in Hq, Hc', Hb. subst res.
  destruct (IH c1 (Some match acc with Some current => current ∩ bm | None => bm end)) as (bm' & c' & He & Hc2 & Hbm');
    [done|by right; eexists|].
  exists bm', c'. split_and!; [done|done|]. intros x. rewrite Hbm', Forall_cons, <- Hbm.
  assert (∀ X : gset Z, (∀ b, Some X = Some b → x ∈ b) ↔ x ∈ X) as Hsome.
  { intros X. split; [|by intros ? ? [= <-]]. intros H. by apply H. }
  destruct acc as [b|]; rewrite !Hsome, ?elem_of_intersection; [tauto|]. split; [|tauto]. intros H. by split.
Qed.

Lemma and_bitmaps_unindexed r fs c acc :
  caches_ok c → fs = [] ∧ acc = None ∨ Exists (no_index r) fs →
  Forall (fun f => no_index r f ∨ ∃ idx, inv_idx_info r (qf_column f) = Some idx ∧ known r idx) fs →
  ∃ c', and_bitmaps c r fs acc = (None, c') ∧ caches_ok c'.
Proof.
  intros Hc Hex Hfs. revert c acc Hc Hex. induction Hfs as [|f fs Hf Hfs IH]; intros c acc Hc Hex.
  { destruct Hex as [[_ ->]|Hex]; [by exists c|]. by apply Exists_nil in Hex. }
  destruct Hex as [[? _]|Hex]; [done|]. cbn [DeleteRows.and_bitmaps]. destruct Hf as [Hf|(idx & Hi & Hk)].
  { rewrite query_no_index by (done || apply Hc). by exists c. }
  destruct (query_coherent to_lowercase parse_date pow10 io dio known files Hstore c r f idx) as [_ Hc1]; [apply Hc|done|done|].
  pose proof (query_keeps_bitmaps c r f idx Hi) as Hb. destruct Hc as [_ Hc]. rewrite Hc in Hb.
  destruct (get_scalar_filter_bitmap _ _ _ _ _ _ _ _) as [res c1]. cbn in Hc1, Hb.
  destruct res as [[bm|]|]; [|by exists c1..]. apply IH; [done|]. right.
  apply Exists_cons in Hex as [(Hn & _)|Hex]; [congruence|done].
Qed.

(** The indexes of a segment hold, for each condition, the integers of its column by row. *)
Record segment_indexed (expr : Expr) (w : World Row) (e : ManifestEntry) (cols : string → ColumnArray) : Prop := {
  si_indexed f : f ∈ extract_and_conditions expr → indexed (reader e) (qf_column f) (cols (qf_column f));
  si_rows f : f ∈ extract_and_conditions expr →
    Forall2 (fun k r => cell r (qf_column f) = from_option cell_of_key CNull k)
      (indexed_keys (cols (qf_column f))) (rows_of w e);
  si_ints f i k : f ∈ extract_and_conditions expr → indexed_keys (cols (qf_column f)) !! i = Some (Some k) →
    (∃ z, k = KInt32 z ∨ k = KInt64 z) ∧ Forall (literal_fits k) (filter_literals f)
}.
(** A condition has no index, or there are none; the file is streamed whole, and the filter is null
    on no row. *)
Record segment_scanned (expr : Expr) (w : World Row) (e : ManifestEntry) : Prop := {
  ss_unindexed : extract_and_conditions expr = [] ∨ Exists (no_index (reader e)) (extract_and_conditions expr);
  ss_known : Forall (fun f => no_index (reader e) f ∨
    ∃ idx, inv_idx_info (reader e) (qf_column f) = Some idx ∧ known (reader e) idx) (extract_and_conditions expr);
  ss_path : resolve_object_path (ir_reader (reader e)) = me_file_path e;
  ss_batches : concat (batches_of (rows_of w e)) = rows_of w e;
  ss_values : Forall (fun r => is_Some (eval (cell r) cast (opaque r) expr)) (rows_of w e)
}.

Notation search_exact expr w := (search_exact root batches_of evaluate_expr to_lowercase parse_date pow10 io dio
  (fun r => eval (cell r) cast (opaque r) expr = Some true) caches_ok expr w).

Lemma condition_row expr w e cols f j r :
  segment_indexed expr w e cols → f ∈ extract_and_conditions expr → exact_filter f → rows_of w e !! j = Some r →
  has_row (key_ok f) (indexed_keys (cols (qf_column f))) (Z.of_nat j) ↔ filter_holds (cell r (qf_column f)) f = true.
Proof.
  intros Hs Hf Hex Hj. destruct (Forall2_lookup_r _ _ _ _ _ (si_rows _ _ _ _ Hs f Hf) Hj) as (o & Ho & Hcell).
  rewrite Hcell. unfold has_row. split.
  - intros (i & k & ->%Nat2Z.inj & Hi & Hk). rewrite Ho in Hi. injection Hi as ->.
    destruct (si_ints _ _ _ _ Hs f i k Hf Ho) as [[z Hz] Hl]. rewrite (int_key_exact _ _ _ k z f Hz Hl Hex) in Hk.
    destruct Hz as [-> | ->]; exact Hk.
  - destruct o as [k|]; cbn; [|by rewrite null_fails]. intros Hh. exists j, k. split_and!; [done|done|].
    destruct (si_ints _ _ _ _ Hs f j k Hf Ho) as [[z Hz] Hl]. rewrite (int_key_exact _ _ _ k z f Hz Hl Hex).
    destruct Hz as [-> | ->]; exact Hh.
Qed.

Lemma indexed_search expr w e cols : index_filter expr → segment_indexed expr w e cols → search_exact expr w e.
Proof.
  intros He Hs c Hc.
  assert (extract_and_conditions expr ≠ [] ∧ Forall exact_filter (extract_and_conditions expr)) as [Hne Hex].
  { split; apply (conditions_meaning (fun _ => CNull) cast (fun _ => None)); done. }
  rewrite Forall_forall in Hex.
  destruct (and_bitmaps_indexed cols (reader e) (extract_and_conditions expr) c None) as (bm & c' & Hbm & Hc' & Hin);
    [|done|by left|].
  { apply Forall_forall. intros f Hf. split; [by apply (si_indexed _ _ _ _ Hs)|]. by apply Hex. }
  exists (Z.to_nat <$> merge_sort Z.le (elements bm)), c'. split_and!; [|done|].
  { unfold DeleteRows.new_deletes. by rewrite Hbm. }
  intros j r Hj. destruct (conditions_meaning (cell r) cast (opaque r) expr He) as (Hm & _ & _). rewrite Hm.
  transitivity (Z.of_nat j ∈ bm).
  - rewrite list_elem_of_fmap. setoid_rewrite merge_sort_Permutation. setoid_rewrite elem_of_elements. split.
    + intros (x & -> & Hx). assert (0 ≤ x)%Z as Hpos; [|by rewrite Z2Nat.id].
      apply Hin in Hx as [_ Hx]. destruct (extract_and_conditions expr) as [|f fs]; [done|].
      apply Forall_cons in Hx as [[(i & k & -> & _) _] _]. lia.
    + intros Hx. exists (Z.of_nat j). by rewrite Nat2Z.id.
  - rewrite Hin, reader_deletes. split.
    + intros [_ Hall]. apply Forall_forall. intros f Hf. rewrite Forall_forall in Hall.
      eapply condition_row; [done|done|by apply Hex|done|]. by apply Hall.
    + intros Hall. split; [done|]. apply Forall_forall. intros f Hf. rewrite Forall_forall in Hall.
      split; [|apply not_elem_of_empty]. eapply condition_row; [done|done|by apply Hex|done|by apply Hall].
Qed.

Lemma scanned_search expr w e :
  mask_lawful evaluate_expr cell cast opaque expr → segment_scanned expr w e → search_exact expr w e.
Proof.
  intros Hm [Hix Hkn Hpath Hb Hv] c Hc.
  destruct (and_bitmaps_unindexed (reader e) (extract_and_conditions expr) c None) as (c' & Hbm & Hc');
    [done|destruct Hix; auto|done|].
  destruct (scan_exact evaluate_expr cell cast opaque expr 0 (batches_of (rows_of w e))) as (ps & Hps & Hin);
    [done|by rewrite Hb|].
  exists ps, c'. split_and!; [|done|].
  { unfold DeleteRows.new_deletes. rewrite Hbm, Hpath. fold (rows_of w e). by rewrite Hps. }
  intros j r Hj. rewrite Hin, Hb. split.
  - intros (j' & r' & -> & Hj' & Hr). simplify_eq/=. done.
  - intros Hr. by exists j, r.
Qed.
End Search.

(** ** Deleting from a table *)

Section Delete.
Context {Row : Type} (uuid : nat → string) (delete_size : pos_map → Z) (root : string).
Context (batches_of : list Row → list (list Row)) (evaluate_expr : list Row → Expr → option (list bool)).
Context (to_lowercase : string → string) (parse_date : string → option Z) (pow10 : Z → SpecFloat.spec_float).
Context (io : IndexIo) (dio : DeleteIo).
Context (sort_to_indices : list (option Key) → list nat)
  (hash_iter : gmap Key (list Z) → list (Key * list Z))
  (registry : string → option (string → list string)) (configs : string → option TextConfig).
Context (known : IndexReader → IndexFile → Prop) (files : string → InvFile).
Context (cell : Row → string → Cell) (cast : string → Cell → Cell) (opaque : Row → Expr → option bool).

(** A table and a filter for which a delete is exact: the statistics and partition values of the
    entries describe their rows, and each segment is searched either through exact integer
    indexes, by a conjunction they can answer, or by a scan. *)
Record delete_ready (expr : Expr) (w : World Row) (n : nat) (c : IndexCaches) (s : Snapshot) : Prop := {
  dr_table : table_ready uuid root (loaded s) w n s;
  dr_covers : ∀ e r, e ∈ loaded s → r ∈ rows_of w e → entry_covers (cell r) e ∧ expr_ok (cell r) cast e expr;
  dr_search : ∀ e, e ∈ loaded s →
    (index_filter expr ∧ ∃ cols, segment_indexed root sort_to_indices hash_iter registry configs known files cell expr w e cols)
    ∨ (mask_lawful evaluate_expr cell cast opaque expr
       ∧ segment_scanned root batches_of io known cell cast opaque expr w e);
  dr_caches : caches_ok io known files c
}.

Lemma pruned_rows expr w e entries :
  e ∈ entries → (∀ r, r ∈ rows_of w e → entry_covers (cell r) e ∧ expr_ok (cell r) cast e expr) →
  me_file_path e ∉ (list_to_set (me_file_path <$> (prune_entries entries (Some expr) None).*1) : gset string) →
  ∀ r, r ∈ rows_of w e → eval (cell r) cast (opaque r) expr ≠ Some true.
Proof.
  intros He Hc Hout r Hr Ht. destruct (Hc r Hr) as [Hcov Hok]. apply Hout.
  apply elem_of_list_to_set, list_elem_of_fmap_2, list_elem_of_fmap. exists (e, selected_index (Some expr) e).
  split; [done|]. unfold prune_entries. apply list_elem_of_fmap. exists e. split; [done|].
  apply list_elem_of_filter. split; [|done].
  unfold matches. by rewrite (might_match_sound (cell r) cast (opaque r)).
Qed.

Lemma delete_exact expr (w : World Row) n c s :
  (∀ array, sort_to_indices array ≡ₚ seq 0 (length array)) → (∀ m, hash_iter m ≡ₚ map_to_list m) →
  registry "identity" = Some identity_tokens → store_lawful io known files →
  delete_ready expr w n c s →
  ∃ w' s',
    delete_async uuid delete_size root batches_of evaluate_expr to_lowercase parse_date pow10 io dio expr w n c s s = Ok (w', s')
    ∧ table_rows w' s' ≡ₚ filter (fun r => eval (cell r) cast (opaque r) expr ≠ Some true) (table_rows w s).
Proof.
  intros Hsort Hiter Hid Hstore [Htable Hcov Hsearch Hc].
  apply (delete_filters _ _ _ _ _ _ _ _ _ _ (fun r => eval (cell r) cast (opaque r) expr = Some true)
    (caches_ok io known files) expr (loaded s) w n c s); [done..| |].
  - intros e He _. destruct (Hsearch e He) as [[Hf [cols Hs]]|[Hm Hs]].
    + by eapply indexed_search.
    + by eapply scanned_search.
  - intros e He. apply pruned_rows; [done|]. intros r. by apply Hcov.
Qed.

(** C8: On a table and a filter that are [delete_ready], and without a concurrent commit, [DELETE]
    commits and leaves exactly the rows on which the filter is not true, also when earlier position
    deletes are pending, in partitioned tables, and with any mixture of indexed and scanned segments.
    [delete_ready] says: the names of files and of new delete files are distinct and identify the
    files, which have fewer than [2^32] rows; statistics and partition values describe the rows and the
    filter reads them as pruning does ([entry_covers], [expr_ok]); each
    segment either has exact 64-bit or 32-bit integer indexes on all columns of the filter, which is
    a conjunction of =, IN, > and >= comparisons that the indexes answer exactly, or has no index
    for it and is scanned with a filter whose mask is its truth and that is null on no row; and the
    index caches agree with the files.  (Outside of it: [delete_hits_other_rows].) *)
Theorem delete_removes_matching expr (w : World Row) n c s :
  (∀ array, sort_to_indices array ≡ₚ seq 0 (length array)) → (∀ m, hash_iter m ≡ₚ map_to_list m) →
  registry "identity" = Some identity_tokens → store_lawful io known files →
  delete_ready expr w n c s →
  ∃ w' s',
    delete_async uuid delete_size root batches_of evaluate_expr to_lowercase parse_date pow10 io dio expr w n c s s = Ok (w', s')
    ∧ table_rows w' s' ≡ₚ filter (fun r => eval (cell r) cast (opaque r) expr ≠ Some true) (table_rows w s).
Proof. apply delete_exact. Qed.
End Delete.

(** ** Deletes from a small table *)

Module DeleteRowsExamples.
Import InvertedExamples.
Open Scope Z_scope.

Definition uuid (n : nat) : string := pretty (N.of_nat n).
Definition size_of (m : pos_map) : Z := 10.
Definition root : string := "file:///t".

(** Rows of an integer column [col] and a text column. *)
Abbreviation TestRow := (option Z * string)%type.
Definition cell (r : TestRow) (c : string) : Cell :=
  if decide (c = "col") then from_option CInt CNull r.1 else CString r.2.
Definition cast (ty : string) (c : Cell) : Cell := c.
Definition opaque (r : TestRow) (e : Expr) : option bool := None.
(** The bit of a null result is that of the value 0 in its place. *)
Definition slot (r : TestRow) : TestRow := (Some (default 0 r.1), r.2).
Definition mask_of (batch : list TestRow) (e : Expr) : option (list bool) :=
  Some ((fun r => default (default false (eval (cell (slot r)) cast (opaque r) e)) (eval (cell r) cast (opaque r) e)) <$> batch).
Definition in_batches (rows : list TestRow) : list (list TestRow) := [take 1 rows; drop 1 rows].

Definition entry (path : string) (count : Z) (indexes : list IndexFile) : ManifestEntry :=
  {| me_file_path := path; me_file_size_bytes := 1; me_record_count := count; me_file_checksum := None;
     me_index_files := indexes; me_delete_files := []; me_column_stats := ∅; me_partition_values := ∅;
     me_clustering := Clustering_default; me_first_row_id := None |}.
Definition pending : DeleteFile :=
  {| df_file_path := "file:///t/old-deletes.parquet"; df_content := Position; df_file_size_bytes := 1;
     df_record_count := 1; df_partition_values := ∅ |}.

(** An indexed file of which row 3 is deleted, and one without an index. *)
Definition world : World TestRow :=
  {| w_data := {[ "a.parquet" := [(Some 5, "x"); (None, "y"); (Some 7, "z"); (Some 5, "u")];
                  "b.parquet" := [(Some 5, "v"); (Some 6, "w")] ]};
     w_dels := {[ "file:///t/old-deletes.parquet" := {[ "file:///t/a.parquet" := {[ 3 ]} ]} ]} |}.
Definition snapshot : Snapshot :=
  {| sn_entries := {[ "a.parquet" := entry "a.parquet" 4 [idx]; "b.parquet" := entry "b.parquet" 2 [] ]};
     sn_deletes := [pending] |}.
Definition on_disk : IndexIo :=
  {| ix_get := fun p => if decide (p = "a.col.inv.parquet") then Fetched [] else NotFound;
     ix_get_range := fun _ _ _ => None; ix_inverted := fun _ => Some (number_file ""); ix_bitmap := fun _ => None |}.
Definition known (r : IndexReader) (i : IndexFile) : Prop :=
  r = delete_reader root (entry "a.parquet" 4 [idx]) ∧ i = idx.

Definition num (z : Z) : Expr := ELiteral (SInt64 (Some z)).
Definition is_num (z : Z) : Expr := EBinary (EColumn "col") OpEq (num z).
Definition text_eq (s : string) : Expr := EBinary (EColumn "name") OpEq (ELiteral (SUtf8 (Some s))).

Abbreviation delete := (delete_async uuid size_of root in_batches mask_of to_ascii_lowercase no_dates pow10 on_disk no_deletes).
(** The rows after a delete on the snapshot [s0] that commits to [s]. *)
Definition left_after (e : Expr) (w : World TestRow) (s0 s : Snapshot) : list TestRow :=
  match delete e w 0 cold s0 s with Ok (w', s') => table_rows w' s' | Err _ => [] end.

Example delete5 :
  table_rows world snapshot = [(Some 5, "x"); (None, "y"); (Some 7, "z"); (Some 5, "v"); (Some 6, "w")]
  ∧ left_after (is_num 5) world snapshot snapshot = [(None, "y"); (Some 7, "z"); (Some 6, "w")].
Proof. vm_compute. done. Qed.

(** *** The table is ready for a delete *)

Definition seg_a : ManifestEntry := attach_deletes [pending] (entry "a.parquet" 4 [idx]).
Definition seg_b : ManifestEntry := attach_deletes [pending] (entry "b.parquet" 2 []).
Lemma segments : loaded snapshot = [seg_a; seg_b].
Proof. vm_compute. reflexivity. Qed.
Lemma each_segment (P : ManifestEntry → Prop) : P seg_a → P seg_b → ∀ e, e ∈ loaded snapshot → P e.
Proof. intros Ha Hb e. rewrite segments. intros [->|[->|[]%not_elem_of_nil]%elem_of_cons]%elem_of_cons; done. Qed.
#[local] Ltac decided := apply (bool_decide_unpack _); vm_compute; exact I.

Lemma table_is_ready : table_ready uuid root (loaded snapshot) world 0 snapshot.
Proof.
  split.
  - change (map_Forall (fun p e => me_file_path e = p) (sn_entries snapshot)). decided.
  - apply each_segment; vm_compute; done.
  - intros e e' He He'. revert e He. apply each_segment; revert e' He'; apply each_segment; vm_compute; done.
  - intros e k He Hk. rewrite segments in Hk. cbn in Hk. revert e He.
    assert (k = 0 ∨ k = 1)%nat as [-> | ->] by lia; refine (each_segment _ _ _); decided.
  - intros e e' k k' He He' Hk Hk'. rewrite segments in Hk, Hk'. cbn in Hk, Hk'.
    assert (k = 0 ∨ k = 1)%nat as [-> | ->] by lia; assert (k' = 0 ∨ k' = 1)%nat as [-> | ->] by lia; try done.
    all: revert e He; refine (each_segment _ _ _); revert e' He'; refine (each_segment _ _ _); vm_compute; done.
Qed.

Lemma disk_is_lawful : store_lawful on_disk known number_file.
Proof. split; intros r i [-> ->]; [by exists []|]. by intros [o Ho]. Qed.

Lemma a_indexed : segment_indexed root sort_ids map_to_list registered plain_config known number_file cell
  (is_num 5) world seg_a (fun _ => numbers).
Proof.
  split; intros f; [|intros Hf|intros i k Hf]; try (apply list_elem_of_singleton in Hf as ->).
  - intros Hf. apply list_elem_of_singleton in Hf as ->. cbn [qf_column].
    split; [vm_compute; congruence|done|vm_compute; reflexivity|].
    destruct (build_inverted_index sort_ids map_to_list registered plain_config no_buffers "col" numbers 0) as [st'|] eqn:Hb.
    + exists no_buffers, st', idx. split_and!; [vm_compute; reflexivity|done|vm_compute; reflexivity|done|].
      unfold number_file, built. cbn [foldl]. cbn [mbind result_bind fst snd]. rewrite Hb.
      apply (f_equal res_ok) in Hb. vm_compute in Hb. apply (inj Some) in Hb as <-. vm_compute. reflexivity.
    + apply (f_equal res_ok) in Hb. vm_compute in Hb. discriminate.
  - vm_compute. repeat constructor.
  - intros Hi. assert (∃ z, k = KInt64 z) as [z ->] by (destruct i as [|[|[|[|]]]]; simplify_eq/=; eauto).
    split; [eauto|]. repeat constructor; by exists 5.
Qed.

Lemma b_scanned : segment_scanned root in_batches on_disk known cell cast opaque (is_num 5) world seg_b.
Proof.
  assert (no_index on_disk (delete_reader root seg_b)
    (cmp_filter "col" (Some (int 5)) true (Some (int 5)) true (Some [int 5]) false)) as Hno.
  { split_and!; [by vm_compute|by vm_compute|]. intros b. by vm_compute. }
  split; [right; by constructor|constructor; [by left|constructor]|by vm_compute|by vm_compute|].
  assert (Merge.rows_of world seg_b = [(Some 5, "v"); (Some 6, "w")]) as -> by (by vm_compute).
  repeat constructor; eexists; vm_compute; reflexivity.
Qed.

Lemma mask_of_lawful e : mask_lawful mask_of cell cast opaque e.
Proof.
  intros batch. eexists. split; [done|]. induction batch as [|r batch IH]; [constructor|].
  constructor; [|exact IH]. by intros b ->.
Qed.

Lemma is_ready : delete_ready uuid root in_batches mask_of on_disk sort_ids map_to_list registered plain_config
  known number_file cell cast opaque (is_num 5) world 0 cold snapshot.
Proof.
  split; [exact table_is_ready| | |].
  - intros e r He Hr. split.
    + revert e He Hr. refine (each_segment _ _ _); intros _; (split; intros c x Hx; cbn in Hx; by rewrite lookup_empty in Hx).
    + split; intros c v Hc Hv; [|done]. cbn in Hc, Hv. simplify_eq. split.
      * split; [by vm_compute|]. intros a b Ha Hb. cbn in Ha, Hb. by simplify_eq.
      * intros _ pv. revert e He Hr. refine (each_segment _ _ _); intros _ Hpv; cbn in Hpv; by rewrite lookup_empty in Hpv.
  - refine (each_segment _ _ _); [left|right; split; [apply mask_of_lawful|exact b_scanned]].
    split; [|by exists (fun _ => numbers); apply a_indexed]. exists (int 5). by eexists.
  - split; [|done]. split; intros k x _ Hl; cbn in Hl; by rewrite lookup_empty in Hl.
Qed.

Lemma delete_removes_matching_witness :
  ∃ w' s', delete (is_num 5) world 0 cold snapshot snapshot = Ok (w', s')
    ∧ table_rows w' s' ≡ₚ [(None, "y"); (Some 7, "z"); (Some 6, "w")].
Proof.
  apply (delete_removes_matching uuid size_of root in_batches mask_of to_ascii_lowercase no_dates pow10 on_disk no_deletes
    sort_ids map_to_list registered plain_config known number_file cell cast opaque (is_num 5) world 0 cold snapshot);
    [exact sort_ids_ok|reflexivity|reflexivity|exact disk_is_lawful|exact is_ready].
Defined.

(** *** Deletes of other rows *)

Definition only_a : Snapshot :=
  {| sn_entries := {[ "a.parquet" := entry "a.parquet" 4 [idx] ]}; sn_deletes := [] |}.
Definition only_b : Snapshot := {| sn_entries := {[ "b.parquet" := entry "b.parquet" 2 [] ]}; sn_deletes := [] |}.
Definition nulls : World TestRow := {| w_data := {[ "b.parquet" := [(None, "v"); (Some 6, "w")] ]}; w_dels := ∅ |}.
Definition below (z : Z) : Expr := EBinary (EColumn "col") OpLt (num z).
(** The rows of [a.parquet], rewritten by a compaction to [c.parquet]. *)
Definition moved : World TestRow :=
  {| w_data := <["c.parquet" := [(Some 5, "x"); (None, "y"); (Some 7, "z"); (Some 5, "u")]]> (w_data world); w_dels := ∅ |}.
Definition compacted : Snapshot := {| sn_entries := {[ "c.parquet" := entry "c.parquet" 4 [] ]}; sn_deletes := [] |}.

(** Deletes that are not exact.  On an indexed column [col < 6] deletes every row that has a value
    and [col != 5] deletes the rows with 5 and with null; of [col = 5 AND (name = 'x' OR name = 'y')]
    only the first part is applied; a scan deletes a row on which the filter is null when the unused
    value bit of the mask is set; and entries that were replaced while the delete ran are committed
    again, so that their rows are there twice. *)
Theorem delete_hits_other_rows :
  left_after (below 6) world only_a only_a = [(None, "y")]
  ∧ left_after (EBinary (EColumn "col") OpNotEq (num 5)) world only_a only_a = [(Some 7, "z")]
  ∧ left_after (EBinary (is_num 5) OpAnd (EBinary (text_eq "x") OpOr (text_eq "y"))) world only_a only_a
    = [(None, "y"); (Some 7, "z")]
  ∧ left_after (below 6) nulls only_b only_b = [(Some 6, "w")]
  ∧ length (table_rows moved compacted) = 4%nat
  ∧ length (left_after (is_num 7) moved only_a compacted) = 7%nat.
Proof. vm_compute. repeat split. Qed.
End DeleteRowsExamples.
