(* ===== verification/JsonPath.v ===== *)
(** * JSON paths: the functions of the filter and the overlay that answers them

    The [json_*] functions of filters ([src/src/core/sql/udf/json.rs]), the index over selected paths
    of a JSON column ([src/src/core/index/json_path.rs]), the conditions of a filter it can answer
    ([src/src/core/planner.rs]) and the lookup ([src/src/core/reader/filter.rs]).  The index gives the
    rows that may match; the filter is applied to them again, so that it must leave no match out. *)

From Stdlib Require Import Strings.Ascii.
From S2P Require Import Prelude Json ManifestTypes Deletes Planner PlannerSpec InvertedIndex.
Open Scope nat_scope.

(** ** JSON documents *)

(** [serde_json::Value]; an object has its fields in the order of the keys. *)
Inductive Json :=
| JNull
| JBool (b : bool)
| JNumber (n : Number)
| JString (s : string)
| JArray (a : list Json)
| JObject (o : list (string * Json)).

(** [Map::get], and [Vec::get] by a [usize]. *)
Definition obj_get (o : list (string * Json)) (k : string) : option Json :=
  (fun x => x.2.2) <$> list_find (fun kv => kv.1 = k) o.
Definition arr_get (a : list Json) (i : Z) : option Json :=
  if decide (i < Z.of_nat (length a))%Z then a !! Z.to_nat i else None.

(** [PartialEq] *)
Fixpoint json_eqb (x y : Json) {struct x} : bool :=
  match x, y with
  | JNull, JNull => true
  | JBool a, JBool b => Bool.eqb a b
  | JNumber a, JNumber b => number_eqb a b
  | JString a, JString b => bool_decide (a = b)
  | JArray a, JArray b =>
      (fix go a b := match a, b with
                     | [], [] => true
                     | x :: a, y :: b => json_eqb x y && go a b
                     | _, _ => false
                     end) a b
  | JObject a, JObject b =>
      (fix go a b := match a, b with
                     | [], [] => true
                     | (k, x) :: a, (k', y) :: b => bool_decide (k = k') && json_eqb x y && go a b
                     | _, _ => false
                     end) a b
  | _, _ => false
  end.

(** ** Paths *)

Definition dollar : Ascii.ascii := "$"%char.
Definition dot : Ascii.ascii := "."%char.
Definition star : Ascii.ascii := "*"%char.
Definition open_bracket : Ascii.ascii := "["%char.
Definition close_bracket : Ascii.ascii := "]"%char.
Definition push (s : string) (c : Ascii.ascii) : string := s +:+ String.String c EmptyString.

(** [trim_matches] of both quotes. *)
Definition is_quote (c : Ascii.ascii) : bool := bool_decide (Ascii.N_of_ascii c = 34%N) || bool_decide (Ascii.N_of_ascii c = 39%N).
Fixpoint trim_start_quotes (s : string) : string :=
  match s with
  | EmptyString => EmptyString
  | String.String a s' => if is_quote a then trim_start_quotes s' else s
  end.
Fixpoint trim_end_quotes (s : string) : string :=
  match s with
  | EmptyString => EmptyString
  | String.String a s =>
      match trim_end_quotes s with
      | EmptyString => if is_quote a then EmptyString else String.String a EmptyString
      | t => String.String a t
      end
  end.
Definition subscript_text (idx : string) : string := trim_end_quotes (trim_start_quotes (trim idx)).

Section Scan.
(** The two parsers differ in the steps they make of a key, of a subscript and of a star. *)
Context {Step : Type} (key subscript : string → Step) (wildcard : option Step).
Definition flush (buf : string) : list Step := if decide (buf = EmptyString) then [] else [key buf].
(** The characters of the current key, or of the subscript that is open. *)
Fixpoint scan (buf : string) (opened : option string) (s : string) : list Step :=
  match s with
  | EmptyString => match opened with Some idx => [subscript idx] | None => flush buf end
  | String.String c s =>
      match opened with
      | Some idx =>
          if decide (c = close_bracket) then subscript idx :: scan EmptyString None s
          else scan EmptyString (Some (push idx c)) s
      | None =>
          if decide (c = dot) then flush buf ++ scan EmptyString None s
          else if decide (c = open_bracket) then flush buf ++ scan EmptyString (Some EmptyString) s
          else match (if decide (c = star) then wildcard else None) with
               | Some w => flush buf ++ w :: scan EmptyString None s
               | None => scan (push buf c) None s
               end
      end
  end.
Definition after_root (path : string) : string :=
  match path with String.String c s => if decide (c = dollar) then s else path | EmptyString => EmptyString end.
Definition scan_path (path : string) : list Step := scan EmptyString None (after_root path).
End Scan.

(** The steps of the functions. *)
Inductive UdfStep := UKey (k : string) | UWildcard.
Definition udf_subscript (idx : string) : UdfStep :=
  let idx := subscript_text idx in if decide (idx = "*") then UWildcard else UKey idx.
Definition udf_parse_path (path : string) : list UdfStep := scan_path UKey udf_subscript (Some UWildcard) path.
(** The steps of the index. *)
Inductive PathStep := Key (k : string) | Index (i : Z).
Definition index_subscript (idx : string) : PathStep :=
  let idx := subscript_text idx in match parse_u64 idx with Some i => Index i | None => Key idx end.
Definition parse_path (path : string) : list PathStep := scan_path Key index_subscript None path.

Definition normalize_path (path : string) : string :=
  let p := trim path in
  if decide (p = EmptyString) then "$" else if decide (p = "$") then "$"
  else if starts_with "$" p then p else "$." +:+ p.

(** ** The functions *)

Definition step_value (v : Json) (key : string) : option Json :=
  match v with
  | JObject o => obj_get o key
  | JArray a => i ← parse_u64 key; arr_get a i
  | _ => None
  end.
Definition eval_step (step : UdfStep) (v : Json) : list Json :=
  match step with
  | UKey k => option_list (step_value v k)
  | UWildcard => match v with JArray a => a | JObject o => o.*2 | _ => [] end
  end.
Definition eval_path (root : Json) (steps : list UdfStep) : list Json :=
  foldl (fun current step => current ≫= eval_step step) [root] steps.
Definition resolve_one (root : Json) (steps : list UdfStep) : option Json := head (eval_path root steps).

Fixpoint contains (haystack candidate : Json) {struct haystack} : bool :=
  match haystack, candidate with
  | JObject h, JObject c =>
      forallb (fun kv : string * Json =>
        (fix get h := match h with
                      | [] => false
                      | (k, hv) :: h => if decide (k = kv.1) then contains hv kv.2 else get h
                      end) h) c
  | JArray h, JArray c => forallb (fun cv => existsb (fun hv => contains hv cv) h) c
  | JArray h, candidate => existsb (fun hv => contains hv candidate) h
  | haystack, candidate => json_eqb haystack candidate
  end.
Definition exists_ (haystack : Json) (key : string) : bool :=
  match haystack with
  | JObject o => bool_decide (is_Some (obj_get o key))
  | JArray a => existsb (fun v => match v with JString s => bool_decide (s = key) | _ => false end) a
  | _ => false
  end.

Section Functions.
(** [serde_json]'s parser and [Value::to_string]. *)
Context (from_str : string → option Json) (to_string : Json → string).

Definition as_text (v : Json) : string := match v with JString s => s | other => to_string other end.
(** [string_at]: a value that is no text is absent. *)
Definition string_at (c : Cell) : option string := match c with CString s => Some s | _ => None end.

Definition json_extract_path (text : bool) (json : Cell) (path : list Cell) : Cell :=
  match (j ← string_at json; elems ← mapM string_at path; v ← from_str j; resolve_one v (UKey <$> elems)) with
  | Some v => CString (if text then as_text v else to_string v)
  | None => CNull
  end.
Definition json_contains (json cand : Cell) : option bool :=
  j ← string_at json; c ← string_at cand;
  Some match from_str j, from_str c with Some h, Some c => contains h c | _, _ => false end.
Definition json_exists (json key : Cell) : option bool :=
  j ← string_at json; k ← string_at key; Some match from_str j with Some v => exists_ v k | None => false end.
Definition json_path_exists (json path : Cell) : option bool :=
  j ← string_at json; p ← string_at path;
  Some match from_str j with
       | Some v => negb (bool_decide (eval_path v (udf_parse_path p) = []))
       | None => false
       end.

(** A filter leaf that calls them on a row. *)
Context (row : string → Cell) (cast : string → Cell → Cell).
Definition json_operand (e : Expr) : option Cell :=
  match e with
  | EScalarFunction name (json :: path) =>
      if decide (name = "json_extract_path_text") then
        j ← operand row cast json; p ← mapM (operand row cast) path; Some (json_extract_path true j p)
      else if decide (name = "json_extract_path") then
        j ← operand row cast json; p ← mapM (operand row cast) path; Some (json_extract_path false j p)
      else None
  | e => operand row cast e
  end.
Definition json_leaf (e : Expr) : option bool :=
  match e with
  | EScalarFunction name [x; y] =>
      a ← operand row cast x; b ← operand row cast y;
      if decide (name = "json_contains") then json_contains a b
      else if decide (name = "json_exists") then json_exists a b
      else if decide (name = "json_path_exists") then json_path_exists a b
      else None
  | EBinary l op r => a ← json_operand l; b ← json_operand r; compare3 op a b
  | _ => None
  end.
Definition json_eval (e : Expr) : option bool := eval row cast json_leaf e.
End Functions.

(** ** Building the index *)

Section Build.
Context (from_str : string → option Json) (to_string : Json → string).

Definition resolve_step (cur : Json) (step : PathStep) : option Json :=
  match step with
  | Key k => match cur with
             | JObject o => obj_get o k
             | JArray a => i ← parse_u64 k; arr_get a i
             | _ => None
             end
  | Index i => match cur with JArray a => arr_get a i | _ => None end
  end.
Fixpoint resolve (cur : Json) (steps : list PathStep) : option Json :=
  match steps with [] => Some cur | step :: steps => cur ← resolve_step cur step; resolve cur steps end.

Definition PRESENT_MARKER : string := String.String (Ascii.ascii_of_nat 0) "__present__".
Definition value_text (v : Json) : option string :=
  match v with
  | JString s => Some s
  | JNumber _ | JBool _ => Some (to_string v)
  | _ => None
  end.

(** The rows of each path and value. *)
Abbreviation postings := (gmap (string * string) (list Z)).
Definition post (path : string) (row_id : Z) (m : postings) (text : string) : postings :=
  <[(path, text) := default [] (m !! (path, text)) ++ [row_id]]> m.
Definition index_resolved (m : postings) (path : string) (v : Json) (row_id : Z) : postings :=
  let m := post path row_id m PRESENT_MARKER in
  foldl (post path row_id) m (match v with JArray a => omap value_text a | other => option_list (value_text other) end).

Record JsonPathFile := {
  (** path, value and row ids *)
  jp_entries : list (string * string * list Z);
  (** the paths of the footer *)
  jp_json_paths : option (list string)
}.

Definition index_row (parsed_paths : list (string * list PathStep)) (row_offset : Z) (m : postings) (ir : nat * option string)
  : postings :=
  match ir.2 ≫= from_str with
  | None => m
  | Some v =>
      let row_id := wrap_u32 (row_offset + Z.of_nat ir.1) in
      foldl (fun m ps => match resolve v ps.2 with Some found => index_resolved m ps.1 found row_id | None => m end)
        (index_resolved m "$" v row_id) parsed_paths
  end.
(** [build_json_path_index]: the column is cast to text. *)
Definition build_json_path_index (array : list (option string)) (paths : list string) (row_offset : Z) : JsonPathFile :=
  let parsed_paths := (fun p => (normalize_path p, parse_path p)) <$> paths in
  let m := foldl (index_row parsed_paths row_offset) ∅ (imap pair array) in
  {| jp_entries := (fun '(k, rows) => (k, merge_sort Z.le (elements (list_to_set rows : gset Z)))) <$> map_to_list m;
     jp_json_paths := Some (btree_to_vec (list_to_set (parsed_paths.*1 ++ ["$"]))) |}.

Definition load_json_path_bitmap (file : JsonPathFile) (path value : string) : gset Z :=
  ⋃ ((fun e => if decide (e.1 = (path, value)) then list_to_set e.2 else ∅) <$> jp_entries file).
Definition load_json_path_exists_bitmap (file : JsonPathFile) (path : string) : gset Z :=
  ⋃ ((fun e => if decide (e.1.1 = path) then list_to_set e.2 else ∅) <$> jp_entries file).
Definition indexed_paths (file : JsonPathFile) : list string := default [] (jp_json_paths file).
End Build.

(** ** The conditions of a filter that the index answers *)

Inductive JsonPathOp := PathExists | Exists | Contains | Equals.
Record JsonPathPredicate := {
  jpp_column : string;
  jpp_path : string;
  jpp_value : option string;
  jpp_op : JsonPathOp
}.

Fixpoint literal_string (e : Expr) : option string :=
  match e with
  | ELiteral (SUtf8 (Some s)) | ELiteral (SLargeUtf8 (Some s)) | ELiteral (SUtf8View (Some s)) => Some s
  | ECast e _ | ETryCast e _ => literal_string e
  | _ => None
  end.

Section Predicates.
Context (from_str : string → option Json) (to_string : Json → string).

(** The predicate of a candidate of [json_contains]. *)
Definition contains_predicate (column : string) (v : Json) : option JsonPathPredicate :=
  match v with
  | JString s => Some {| jpp_column := column; jpp_path := "$"; jpp_value := Some s; jpp_op := Contains |}
  | JNumber _ | JBool _ =>
      Some {| jpp_column := column; jpp_path := "$"; jpp_value := Some (to_string v); jpp_op := Contains |}
  | JObject [(k, val)] =>
      text ← match val with JString s => Some s | JNumber _ | JBool _ => Some (to_string val) | _ => None end;
      Some {| jpp_column := column; jpp_path := "$." +:+ k; jpp_value := Some text; jpp_op := Contains |}
  | _ => None
  end.
Definition json_predicate_from_udf (name : string) (args : list Expr) : option JsonPathPredicate :=
  column ← head args ≫= expr_column_name;
  if decide (name = "json_path_exists") then
    path ← (args !! 1) ≫= literal_string;
    Some {| jpp_column := column; jpp_path := normalize_path path; jpp_value := None; jpp_op := PathExists |}
  else if decide (name = "json_exists") then
    key ← (args !! 1) ≫= literal_string;
    Some {| jpp_column := column; jpp_path := "$." +:+ key; jpp_value := None; jpp_op := Exists |}
  else if decide (name = "json_contains") then
    cand ← (args !! 1) ≫= literal_string; v ← from_str cand; contains_predicate column v
  else None.
Definition join_segments (segs : list string) : string := foldl (fun path seg => push path dot +:+ seg) "$" segs.
Definition json_extract_eq_predicate (left right : Expr) : option JsonPathPredicate :=
  match (match left, right with
         | EScalarFunction name args, lit => Some (name, args, lit)
         | lit, EScalarFunction name args => Some (name, args, lit)
         | _, _ => None
         end) with
  | None => None
  | Some (name, args, lit) =>
      if decide (name = "json_extract_path_text") then
        column ← head args ≫= expr_column_name; value ← literal_string lit; segs ← mapM literal_string (drop 1 args);
        Some {| jpp_column := column; jpp_path := join_segments segs; jpp_value := Some value; jpp_op := Equals |}
      else None
  end.
Fixpoint extract_json_path_predicates (e : Expr) : list JsonPathPredicate :=
  match e with
  | EBinary l OpAnd r => extract_json_path_predicates l ++ extract_json_path_predicates r
  | EScalarFunction name args => option_list (json_predicate_from_udf name args)
  | EBinary l OpEq r => option_list (json_extract_eq_predicate l r)
  | _ => []
  end.
End Predicates.

(** ** The lookup *)

Section Lookup.
(** The store, the delete files, and the decoder of an index file. *)
Context (io : IndexIo) (dio : DeleteIo) (jp_decode : bytes → option JsonPathFile).

Definition json_idx_info (r : IndexReader) (column : string) : option IndexFile :=
  snd <$> list_find (fun f => bool_decide (if_index_category f = "json_path") &&
    bool_decide (if_column_name f = column) && is_index_valid r f = true) (ir_index_files r).
Definition json_key (r : IndexReader) (idx : IndexFile) : string := cache_key r (if_file_path idx) (if_blob_offset idx).
Definition load_json_bytes (c : IndexCaches) (r : IndexReader) (idx : IndexFile) : result ierr (option bytes) * IndexCaches :=
  match ic_byte c !! json_key r idx with
  | Some b => (Ok (Some b), c)
  | None =>
      match fetch_index io (if_file_path idx) idx with
      | Ok (Some b) =>
          (Ok (Some b), {| ic_inverted := ic_inverted c; ic_byte := <[json_key r idx := b]> (ic_byte c);
                           ic_analyzer := ic_analyzer c; ic_index := ic_index c |})
      | got => (got, c)
      end
  end.
(** A path that the index does not cover is not looked up. *)
Definition file_bitmap (file : JsonPathFile) (path : string) (value : option string) : option (gset Z) :=
  if decide (path ∈ indexed_paths file) then
    Some match value with
         | Some v => load_json_path_bitmap file path v
         | None => load_json_path_exists_bitmap file path
         end
  else None.
Definition get_json_path_bitmap (c : IndexCaches) (r : IndexReader) (column path : string) (value : option string)
  : result ierr (option (gset Z)) * IndexCaches :=
  match json_idx_info r column with
  | None => (Ok None, c)
  | Some idx =>
      match load_json_bytes c r idx with
      | (Ok (Some b), c) =>
          match jp_decode b with
          | None => (Err DecodeFailed, c)
          | Some file => (Ok ((fun bm => bm ∖ all_deletes dio (ir_reader r)) <$> file_bitmap file path value), c)
          end
      | (Ok None, c) => (Ok None, c)
      | (Err e, c) => (Err e, c)
      end
  end.

(** A key of an object, or an element of an array at the root. *)
Definition either_bitmap (a b : option (gset Z)) : option (gset Z) :=
  match a, b with
  | Some a, Some b => Some (a ∪ b)
  | Some a, None => Some a
  | None, b => b
  end.
Definition predicate_bitmap (c : IndexCaches) (r : IndexReader) (p : JsonPathPredicate)
  : result ierr (option (gset Z)) * IndexCaches :=
  match jpp_op p with
  | Exists =>
      let key := default (jpp_path p) (strip_prefix "$." (jpp_path p)) in
      match get_json_path_bitmap c r (jpp_column p) (jpp_path p) None with
      | (Err e, c) => (Err e, c)
      | (Ok a, c) =>
          match get_json_path_bitmap c r (jpp_column p) "$" (Some key) with
          | (Err e, c) => (Err e, c)
          | (Ok b, c) => (Ok (either_bitmap a b), c)
          end
      end
  | _ => get_json_path_bitmap c r (jpp_column p) (jpp_path p) (jpp_value p)
  end.
(** [query_json_path_first] up to the rows it selects. *)
Fixpoint query_json_path (c : IndexCaches) (r : IndexReader) (combined : option (gset Z)) (predicates : list JsonPathPredicate)
  : result ierr (option (gset Z)) * IndexCaches :=
  match predicates with
  | [] => (Ok combined, c)
  | p :: predicates =>
      match predicate_bitmap c r p with
      | (Ok (Some bm), c) =>
          query_json_path c r (Some match combined with Some acc => acc ∩ bm | None => bm end) predicates
      | (Ok None, c) => (Ok None, c)
      | (Err e, c) => (Err e, c)
      end
  end.
End Lookup.

(** ** Examples: documents and paths *)

Module JsonPathSamples.
(** A reader of the documents below. *)
Definition num (z : Z) : Json := JNumber (Number_of_int z).
Example steps1 : parse_path "$.a.b[2].c" = [Key "a"; Key "b"; Index 2; Key "c"]
  ∧ udf_parse_path "a.b[2].c" = [UKey "a"; UKey "b"; UKey "2"; UKey "c"]
  ∧ udf_parse_path "$.items[*].*" = [UKey "items"; UWildcard; UWildcard].
Proof. vm_compute. done. Qed.
Definition doc : Json := JObject [("a", JObject [("b", JArray [num 10; num 20; JObject [("c", JString "x")]])])].
Example resolves : resolve doc (parse_path "$.a.b[2].c") = Some (JString "x")
  ∧ resolve doc (parse_path "$.a.missing") = None
  ∧ eval_path doc (udf_parse_path "$.a.b[*].c") = [JString "x"]
  ∧ contains doc (JObject [("a", JObject [("b", JArray [num 20])])]) = true.
Proof. vm_compute. done. Qed.
End JsonPathSamples.

(** ** What the index holds *)

Section Built.
Context (from_str : string → option Json) (to_string : Json → string).
Notation value_text := (value_text to_string).
Notation resolved_into := (index_resolved to_string).
Notation row_into := (index_row from_str to_string).
Notation build := (build_json_path_index from_str to_string).

(** The texts under which a value is found. *)
Definition value_texts (v : Json) : list string :=
  match v with JArray a => omap value_text a | other => option_list (value_text other) end.
Definition found_texts (v : Json) : list string := PRESENT_MARKER :: value_texts v.
Definition posted (m : gmap (string * string) (list Z)) (path text : string) (x : Z) : Prop :=
  x ∈ default [] (m !! (path, text)).

Lemma post_posted path row_id m text p t x :
  posted (post path row_id m text) p t x ↔ posted m p t x ∨ p = path ∧ t = text ∧ x = row_id.
Proof.
  unfold posted, post. destruct (decide ((path, text) = (p, t))) as [[= -> ->]|Hne].
  - rewrite lookup_insert_eq. cbn. rewrite elem_of_app, list_elem_of_singleton. naive_solver.
  - rewrite lookup_insert_ne by done. naive_solver.
Qed.
Lemma posts_posted path row_id texts m p t x :
  posted (foldl (post path row_id) m texts) p t x ↔ posted m p t x ∨ p = path ∧ t ∈ texts ∧ x = row_id.
Proof.
  revert m. induction texts as [|text texts IH]; intros m; cbn [foldl]; [set_solver|].
  rewrite IH, post_posted, elem_of_cons. naive_solver.
Qed.
Lemma index_resolved_posted m path v row_id p t x :
  posted (resolved_into m path v row_id) p t x ↔ posted m p t x ∨ p = path ∧ t ∈ found_texts v ∧ x = row_id.
Proof.
  unfold index_resolved. rewrite posts_posted, post_posted. unfold found_texts.
  rewrite elem_of_cons. fold (value_texts v). naive_solver.
Qed.

#[local] Opaque found_texts.

(** The paths of a document: the root, and what is configured. *)
Abbreviation parsed paths := ((fun p => (normalize_path p, parse_path p)) <$> paths).
Definition all_paths (paths : list string) : list (string * list PathStep) := ("$", []) :: parsed paths.

Lemma paths_posted pps v row_id m p t x :
  posted (foldl (fun m ps => match resolve v ps.2 with Some found => resolved_into m ps.1 found row_id | None => m end) m pps) p t x
  ↔ posted m p t x ∨ ∃ steps found, (p, steps) ∈ pps ∧ resolve v steps = Some found ∧ t ∈ found_texts found ∧ x = row_id.
Proof.
  revert m. induction pps as [|[path steps] pps IH]; intros m; cbn [foldl fst snd].
  { split; [by left|]. intros [?|(? & ? & ?%not_elem_of_nil & _)]; done. }
  rewrite IH. setoid_rewrite elem_of_cons. destruct (resolve v steps) as [found|] eqn:Hr.
  - rewrite index_resolved_posted. split.
    + intros [[?|(-> & ? & ->)]|(s & f & ? & ? & ? & ->)]; [by left|right..]; [exists steps, found|exists s, f]; eauto 10.
    + intros [?|(s & f & [[= -> ->]|?] & Hs & ? & ->)]; [by left; left| |right; exists s, f; eauto 10].
      left; right. rewrite Hr in Hs. by simplify_eq.
  - split.
    + intros [?|(s & f & ? & ? & ? & ->)]; [by left|right; exists s, f; eauto 10].
    + intros [?|(s & f & [[= -> ->]|?] & Hs & ? & ->)]; [by left|congruence|right; exists s, f; eauto 10].
Qed.
Lemma index_row_posted paths off m i o p t x :
  posted (row_into (parsed paths) off m (i, o)) p t x ↔ posted m p t x ∨
    ∃ j v steps found, o = Some j ∧ from_str j = Some v ∧ (p, steps) ∈ all_paths paths ∧ resolve v steps = Some found
      ∧ t ∈ found_texts found ∧ x = wrap_u32 (off + Z.of_nat i).
Proof.
  unfold index_row. cbn [fst snd]. destruct o as [j|]; cbn [mbind option_bind]; [|naive_solver].
  destruct (from_str j) as [v|] eqn:Hj; [|naive_solver].
  rewrite paths_posted, index_resolved_posted. setoid_rewrite elem_of_cons. split.
  - intros [[?|(-> & ? & ->)]|(s & f & ? & ? & ? & ->)]; [by left|right; exists j, v, [], v|right; exists j, v, s, f]; eauto 10.
  - intros [?|(j' & v' & s & f & [= <-] & Hv & [[= -> ->]|?] & Hs & ? & ->)]; [by left; left|..]; rewrite Hj in Hv; injection Hv as <-.
    + left; right. injection Hs as <-. done.
    + right. exists s, f. eauto 10.
Qed.

Lemma build_posted paths off array p t x :
  posted (foldl (row_into (parsed paths) off) ∅ (imap pair array)) p t x ↔
    ∃ i j v steps found, array !! i = Some (Some j) ∧ from_str j = Some v ∧ (p, steps) ∈ all_paths paths
      ∧ resolve v steps = Some found ∧ t ∈ found_texts found ∧ x = wrap_u32 (off + Z.of_nat i).
Proof.
  assert (∀ l m, posted (foldl (row_into (parsed paths) off) m l) p t x ↔ posted m p t x ∨
    ∃ i j v steps found, (i, Some j) ∈ l ∧ from_str j = Some v ∧ (p, steps) ∈ all_paths paths
      ∧ resolve v steps = Some found ∧ t ∈ found_texts found ∧ x = wrap_u32 (off + Z.of_nat i)) as Hgen.
  { induction l as [|[i o] l IH]; intros m; cbn [foldl].
    { split; [by left|]. intros [?|(? & ? & ? & ? & ? & ?%not_elem_of_nil & _)]; done. }
    rewrite IH, index_row_posted. setoid_rewrite elem_of_cons. split.
    - intros [[?|(j & v & s & f & -> & ? & ? & ? & ? & ->)]|(i' & j & v & s & f & ? & ? & ? & ? & ? & ->)];
        [by left|right; exists i, j, v, s, f; eauto 10|right; exists i', j, v, s, f; eauto 10].
    - intros [?|(i' & j & v & s & f & [[= -> <-]|?] & ? & ? & ? & ? & ->)]; [by left; left| |].
      + left; right. exists j, v, s, f. eauto 10.
      + right. exists i', j, v, s, f. eauto 10. }
  rewrite Hgen. assert (¬ posted ∅ p t x) as Hemp by (unfold posted; rewrite lookup_empty; apply not_elem_of_nil).
  assert (∀ i j, (i, Some j) ∈ imap pair array ↔ array !! i = Some (Some j)) as Hin.
  { intros i j. rewrite list_elem_of_lookup. setoid_rewrite list_lookup_imap_Some. split; [|by eauto].
    intros (k & y & ? & [= -> ->]). done. }
  setoid_rewrite Hin. naive_solver.
Qed.

(** The bitmap of a path and a value: the rows of the documents in which the path has it. *)
Lemma elem_of_path_bitmap paths off array p t x :
  x ∈ load_json_path_bitmap (build array paths off) p t ↔
    ∃ i j v steps found, array !! i = Some (Some j) ∧ from_str j = Some v ∧ (p, steps) ∈ all_paths paths
      ∧ resolve v steps = Some found ∧ t ∈ found_texts found ∧ x = wrap_u32 (off + Z.of_nat i).
Proof.
  rewrite <- build_posted. unfold load_json_path_bitmap, posted. rewrite elem_of_union_list. cbn [jp_entries build_json_path_index].
  set (m := foldl _ _ _). split.
  - intros (X & (e & -> & ((k & rows) & -> & Hk%elem_of_map_to_list)%list_elem_of_fmap)%list_elem_of_fmap & Hx).
    cbn [fst snd] in Hx. case_decide as Hd; [subst k|set_solver]. rewrite Hk. cbn.
    by rewrite elem_of_list_to_set, merge_sort_Permutation, elem_of_elements, elem_of_list_to_set in Hx.
  - intros Hx. destruct (m !! (p, t)) as [rows|] eqn:Hm; [|by apply not_elem_of_nil in Hx].
    exists (list_to_set (merge_sort Z.le (elements (list_to_set rows : gset Z)))). split.
    { apply list_elem_of_fmap. exists ((p, t), merge_sort Z.le (elements (list_to_set rows : gset Z))).
      cbn [fst snd]. split; [by rewrite decide_True|]. apply list_elem_of_fmap. exists ((p, t), rows).
      by rewrite elem_of_map_to_list. }
    by rewrite elem_of_list_to_set, merge_sort_Permutation, elem_of_elements, elem_of_list_to_set.
Qed.
Lemma path_bitmap_exists (file : JsonPathFile) p t x :
  x ∈ load_json_path_bitmap file p t → x ∈ load_json_path_exists_bitmap file p.
Proof.
  unfold load_json_path_bitmap, load_json_path_exists_bitmap. rewrite !elem_of_union_list.
  intros (X & (e & -> & He)%list_elem_of_fmap & Hx). case_decide as Hd; [|set_solver].
  eexists. split; [by apply list_elem_of_fmap_2|]. by rewrite Hd, decide_True.
Qed.
Lemma elem_of_indexed_paths paths off array p :
  p ∈ indexed_paths (build array paths off) ↔ p = "$" ∨ p ∈ normalize_path <$> paths.
Proof.
  unfold indexed_paths. cbn [build_json_path_index jp_json_paths default from_option id].
  rewrite elem_of_btree_to_vec, elem_of_list_to_set, elem_of_app, list_elem_of_singleton, <- list_fmap_compose. naive_solver.
Qed.
End Built.

(** ** Paths of the functions and of the index *)

Section Paths.

(** A path that is written without blanks around it is its normal form to both parsers. *)
Lemma scan_normalize {Step} (key subscript : string → Step) wildcard p :
  trim p = p → scan_path key subscript wildcard (normalize_path p) = scan_path key subscript wildcard p.
Proof.
  unfold normalize_path. intros ->. case_decide as He; [by subst|]. case_decide as Hd; [by subst|].
  destruct (starts_with "$" p) eqn:Hs; [done|].
  destruct p as [|c p]; [done|]. unfold scan_path.
  change (after_root ("$." +:+ String.String c p)) with (String.String dot (String.String c p)).
  assert (after_root (String.String c p) = String.String c p) as ->; [|done].
  cbn [after_root]. case_decide as Hc; [|done]. subst c.
  by destruct p.
Qed.

(** What a step means to both. *)
Definition same_step (s : PathStep) (u : UdfStep) : Prop :=
  match s, u with
  | Key k, UKey k' => k = k'
  | Index i, UKey k' => parse_u64 k' = Some i
  | _, UWildcard => False
  end.
Lemma same_subscript idx : udf_subscript idx ≠ UWildcard → same_step (index_subscript idx) (udf_subscript idx).
Proof. unfold udf_subscript, index_subscript. case_decide; [done|]. intros _. by destruct (parse_u64 _) eqn:E. Qed.
Lemma flush_same buf : Forall2 same_step (flush Key buf) (flush UKey buf).
Proof. unfold flush. by case_decide; repeat constructor. Qed.
Lemma scan_same s buf opened :
  UWildcard ∉ scan UKey udf_subscript (Some UWildcard) buf opened s →
  Forall2 same_step (scan Key index_subscript None buf opened s) (scan UKey udf_subscript (Some UWildcard) buf opened s).
Proof.
  revert buf opened. induction s as [|c s IH]; intros buf [idx|]; cbn [scan].
  - rewrite list_elem_of_singleton. intros Hw. constructor; [|done]. by apply same_subscript.
  - intros _. apply flush_same.
  - case_decide; [|by auto]. intros [Hw Hs]%not_elem_of_cons. constructor; [by apply same_subscript|by apply IH].
  - case_decide; [|case_decide].
    + intros [_ Hs]%not_elem_of_app. apply Forall2_app; [apply flush_same|by apply IH].
    + intros [_ Hs]%not_elem_of_app. apply Forall2_app; [apply flush_same|by apply IH].
    + case_decide; [|by auto]. intros [_ [? _]%not_elem_of_cons]%not_elem_of_app. done.
Qed.
Lemma paths_same p :
  UWildcard ∉ udf_parse_path p → Forall2 same_step (parse_path p) (udf_parse_path p).
Proof. apply scan_same. Qed.

(** Keys without the signs of paths. *)
Definition plain_segment (s : string) : Prop := s ≠ EmptyString ∧ has_char dot s = false ∧ has_char open_bracket s = false.
Lemma scan_plain s t buf :
  has_char dot s = false → has_char open_bracket s = false →
  scan Key index_subscript None buf None (s +:+ t) = scan Key index_subscript None (buf +:+ s) None t.
Proof.
  revert buf. induction s as [|c s IH]; intros buf Hd Ho.
  { assert (buf +:+ "" = buf) as -> by (induction buf as [|a buf IHb]; [done|exact (f_equal (String.String a) IHb)]). done. }
  cbn [has_char] in Hd, Ho. apply orb_false_iff in Hd as [Hcd%bool_decide_eq_false Hd], Ho as [Hco%bool_decide_eq_false Ho].
  change (String.String c s +:+ t) with (String.String c (s +:+ t)). cbn [scan].
  rewrite !decide_False by done. replace (if decide (c = star) then None else None) with (@None PathStep) by (by case_decide).
  rewrite IH by done. f_equal. unfold push. by rewrite <- string_app_assoc.
Qed.

(** The keys of a path, each after a dot. *)
Fixpoint dotted (segs : list string) : string :=
  match segs with [] => EmptyString | seg :: segs => String.String dot (seg +:+ dotted segs) end.
Lemma join_dotted segs : join_segments segs = "$" +:+ dotted segs.
Proof.
  unfold join_segments. generalize "$" as path. induction segs as [|seg segs IH]; intros path; cbn [foldl dotted].
  - induction path as [|a path IHp]; [done|]. exact (f_equal (String.String a) IHp).
  - rewrite IH. unfold push. by rewrite <- !string_app_assoc.
Qed.
Lemma scan_dotted segs :
  Forall plain_segment segs → scan Key index_subscript None EmptyString None (dotted segs) = Key <$> segs.
Proof.
  assert (∀ segs buf, buf ≠ EmptyString → Forall plain_segment segs →
    scan Key index_subscript None buf None (dotted segs) = Key buf :: (Key <$> segs)) as Hgen.
  { clear segs. intros segs. induction segs as [|seg segs IH]; intros buf Hb Hs; cbn [dotted fmap list_fmap].
    - cbn [scan]. unfold flush. by rewrite decide_False.
    - apply Forall_cons in Hs as [(Hne & Hd & Ho) Hs]. cbn [scan]. rewrite decide_True by done.
      unfold flush at 1. rewrite decide_False by done. rewrite scan_plain by done. cbn [app]. f_equal. by apply IH. }
  intros Hs. destruct Hs as [|seg segs (Hne & Hd & Ho) Hs]; [done|]. cbn [dotted scan]. rewrite decide_True by done.
  unfold flush at 1. rewrite decide_True by done. rewrite scan_plain by done. by apply Hgen.
Qed.
Lemma parse_segments segs : Forall plain_segment segs → parse_path (join_segments segs) = Key <$> segs.
Proof. intros Hs. rewrite join_dotted. unfold parse_path, scan_path. cbn [after_root]. by apply scan_dotted. Qed.
Lemma parse_key k : plain_segment k → parse_path ("$." +:+ k) = [Key k].
Proof.
  intros Hk. pose proof (parse_segments [k]) as Hp. rewrite join_dotted in Hp. cbn [dotted] in Hp.
  assert (k +:+ "" = k) as Hr by (clear; induction k as [|a k IH]; [done|exact (f_equal (String.String a) IH)]).
  rewrite Hr in Hp. apply Hp. by constructor.
Qed.

(** *** Resolving *)

Lemma eval_path_bind (l : list Json) steps :
  foldl (fun current step => current ≫= eval_step step) l steps = l ≫= fun x => eval_path x steps.
Proof.
  unfold eval_path. revert l. induction steps as [|s steps IH]; intros l; cbn [foldl].
  - induction l as [|x l IHl]; [done|]. csimpl. by rewrite <- IHl.
  - rewrite IH. induction l as [|x l IHl]; [done|]. csimpl. rewrite bind_app, IHl, IH. csimpl. by rewrite app_nil_r.
Qed.
Lemma eval_path_cons v step steps : eval_path v (step :: steps) = eval_step step v ≫= fun x => eval_path x steps.
Proof. unfold eval_path at 1. cbn [foldl]. rewrite eval_path_bind. csimpl. by rewrite app_nil_r. Qed.

(** No object has a key that is an index. *)
Fixpoint no_numeric_keys (v : Json) : bool :=
  match v with
  | JArray a => forallb no_numeric_keys a
  | JObject o => forallb (fun kv : string * Json => negb (bool_decide (is_Some (parse_u64 kv.1))) && no_numeric_keys kv.2) o
  | _ => true
  end.
Definition is_key (s : PathStep) : Prop := match s with Key _ => True | Index _ => False end.

Lemma obj_get_elem o k v : obj_get o k = Some v → (k, v) ∈ o.
Proof.
  unfold obj_get. destruct (list_find _ o) as [[i [k' v']]|] eqn:E; cbn; [|done]. intros [= ->].
  apply list_find_Some in E as (Hl & Hk & _). cbn in Hk. subst k'. by apply list_elem_of_lookup_2 in Hl.
Qed.
Lemma arr_get_elem a i v : arr_get a i = Some v → v ∈ a.
Proof. unfold arr_get. case_decide; [|done]. apply list_elem_of_lookup_2. Qed.
Lemma step_no_numeric v k v' : no_numeric_keys v = true → step_value v k = Some v' → no_numeric_keys v' = true.
Proof.
  destruct v; cbn [step_value no_numeric_keys]; try done.
  - rewrite forallb_elem_of. intros H. destruct (parse_u64 k); [|done]. intros ?%arr_get_elem. by apply H.
  - rewrite forallb_elem_of. intros H Hg%obj_get_elem. specialize (H _ Hg). by apply andb_true_iff in H as [_ H].
Qed.
Lemma resolve_same v steps usteps :
  Forall2 same_step steps usteps → no_numeric_keys v = true ∨ Forall is_key steps →
  eval_path v usteps = option_list (resolve v steps).
Proof.
  intros Hs. revert v. induction Hs as [|s u steps usteps Hsu Hs IH]; intros v Hv; [done|].
  rewrite eval_path_cons. destruct u as [k|]; [|by destruct s]. cbn [resolve eval_step].
  assert (resolve_step v s = step_value v k) as ->.
  { destruct s as [k'|i]; cbn in Hsu; [subst k'; by destruct v|].
    destruct Hv as [Hv|Hv]; [|by apply Forall_cons in Hv as [[] _]].
    destruct v; cbn [resolve_step step_value]; rewrite ?Hsu; try done.
    cbn [no_numeric_keys] in Hv. rewrite forallb_elem_of in Hv. destruct (obj_get _ k) as [x|] eqn:Hg; [|done].
    apply obj_get_elem, Hv in Hg. cbn in Hg. by rewrite Hsu in Hg. }
  destruct (step_value v k) as [v'|] eqn:Hk; cbn; [|done]. rewrite app_nil_r. apply IH.
  destruct Hv as [Hv|Hv]; [left; by eapply step_no_numeric|right; by apply Forall_cons in Hv as [_ Hv]].
Qed.
Lemma resolve_keys v ks : eval_path v (UKey <$> ks) = option_list (resolve v (Key <$> ks)).
Proof. apply resolve_same; [|right]; induction ks as [|k ks IH]; csimpl; repeat constructor; done. Qed.
End Paths.

(** ** The rows of a condition *)

Section Contains.
Context (to_string : Json → string).
Notation value_text := (value_text to_string).
Notation texts := (value_texts to_string).

(** The two zeros are equal and have different texts. *)
Definition not_float_zero (v : Json) : Prop := match v with JNumber (Float (SpecFloat.S754_zero _)) => False | _ => True end.
(** No array has an array in it. *)
Definition flat (v : Json) : Prop :=
  match v with JArray a => Forall (fun x => match x with JArray _ => False | _ => True end) a | _ => True end.

Lemma float_eqb_eq f g : SpecFloat.SFeqb f g = true → f = g ∨ (∃ s, g = SpecFloat.S754_zero s).
Proof.
  unfold SpecFloat.SFeqb. destruct f as [s|[]| |s m e], g as [s'|[]| |s' m' e']; cbn; try (by eauto); try (by destruct s); try (by destruct s').
  intros H. left. destruct s, s'; try done; destruct (Z.compare_spec e e') as [->|?|?]; try done;
    change (Pos.compare_cont Eq m m') with (m ?= m')%positive in H; destruct (Pos.compare_spec m m') as [->|?|?]; done.
Qed.
(** A value that equals a scalar has its text. *)
Lemma json_eqb_text v cand t :
  json_eqb v cand = true → value_text cand = Some t → not_float_zero cand → value_text v = Some t.
Proof.
  destruct cand as [|b|n|s| |]; try done; destruct v as [|b'|n'|s'| |]; try done; cbn [json_eqb value_text].
  - intros ->%eqb_prop. done.
  - intros Hn Ht Hz. assert (n' = n) as ->; [|done].
    destruct n' as [x|x|x], n as [y|y|y]; cbn in Hn; try done; try (by apply bool_decide_eq_true in Hn as ->).
    apply float_eqb_eq in Hn as [->|[s ->]]; done.
  - by intros ->%bool_decide_eq_true.
Qed.
Lemma contains_scalar v cand t :
  contains v cand = true → value_text cand = Some t → not_float_zero cand → flat v → t ∈ texts v.
Proof.
  assert (∀ x, (match x with JArray _ => False | _ => True end) → contains x cand = true →
    value_text cand = Some t → not_float_zero cand → value_text x = Some t) as Hel.
  { intros x Hx Hc Ht Hz. eapply json_eqb_text; [|done|done]. by destruct x, cand. }
  intros Hc Ht Hz Hf. assert ((∀ a, v ≠ JArray a) → t ∈ texts v) as Hno.
  { intros Hna. assert (value_text v = Some t) as Hv by (apply Hel; [by destruct v as [| | | |a|]; try done; destruct (Hna a)|done..]).
    destruct v as [| | | |a|]; cbn [value_texts]; rewrite ?Hv; try (by apply list_elem_of_singleton); by destruct (Hna a). }
  destruct v as [| | | |a|]; try (by apply Hno). clear Hno.
  assert (existsb (fun hv => contains hv cand) a = true) as Hex by (by destruct cand).
  apply existsb_elem_of in Hex as (x & Hx & Hcx). apply list_elem_of_omap. exists x. split; [done|].
  cbn in Hf. rewrite Forall_forall in Hf. apply Hel; [exact (Hf x Hx)|done..].
Qed.
Lemma contains_field v k val :
  contains v (JObject [(k, val)]) = true → (∀ a, v ≠ JArray a) → ∃ hv, resolve_step v (Key k) = Some hv ∧ contains hv val = true.
Proof.
  destruct v as [| | | |a|o]; try done; [intros _ Ha; by destruct (Ha a)|]. cbn [contains forallb fst snd]. rewrite andb_true_r. intros H _.
  cbn [resolve_step]. unfold obj_get. induction o as [|[k' hv] o IH]; [done|]. cbn [list_find fst].
  destruct (decide (k' = k)) as [->|Hne].
  - by exists hv.
  - destruct (IH H) as (x & Hx & Hc). exists x. split; [|done].
    by destruct (list_find _ o) as [[i kv]|].
Qed.
End Contains.

Section Superset.
Context (from_str : string → option Json) (to_string : Json → string) (cast : string → Cell → Cell).
(** The value of the leaves of a filter; those the index answers are calls of the functions. *)
Context (opaque : (string → Cell) → Expr → option bool).
Context (Hfunctions : ∀ row e, extract_json_path_predicates from_str to_string e ≠ [] →
  opaque row e = json_leaf from_str to_string row cast e).
Context (io : IndexIo) (dio : DeleteIo) (jp_decode : bytes → option JsonPathFile).
Notation build := (build_json_path_index from_str to_string).
Notation value_text := (value_text to_string).

(** *** Lookups through the cache *)

(** The indexes in use and what their keys stand for. *)
Context (jknown : IndexReader → IndexFile → Prop) (jfiles : string → JsonPathFile).
Definition json_used (k : string) : Prop := ∃ r idx, jknown r idx ∧ k = json_key r idx.
Definition json_store : Prop :=
  ∀ r idx, jknown r idx → ∃ b, fetch_index io (if_file_path idx) idx = Ok (Some b) ∧ jp_decode b = Some (jfiles (json_key r idx)).
Definition json_coherent (c : IndexCaches) : Prop :=
  ∀ k b, json_used k → ic_byte c !! k = Some b → jp_decode b = Some (jfiles k).
(** Nothing is cached but the bytes of these indexes. *)
Definition caches_bytes (c c' : IndexCaches) : Prop :=
  ic_inverted c' = ic_inverted c ∧ ic_analyzer c' = ic_analyzer c ∧ ic_index c' = ic_index c
  ∧ ∀ k, ¬ json_used k → ic_byte c' !! k = ic_byte c !! k.
#[local] Instance caches_bytes_preorder : PreOrder caches_bytes.
Proof. split; [done|]. intros a b c (? & ? & ? & Hb) (? & ? & ? & Hc). split_and!; [congruence..|]. intros k Hk. by rewrite Hc, Hb. Qed.

Definition json_answer (r : IndexReader) (column path : string) (value : option string) : option (gset Z) :=
  idx ← json_idx_info r column; (fun bm => bm ∖ all_deletes dio (ir_reader r)) <$> file_bitmap (jfiles (json_key r idx)) path value.
Definition predicate_answer (r : IndexReader) (p : JsonPathPredicate) : option (gset Z) :=
  match jpp_op p with
  | Exists => either_bitmap (json_answer r (jpp_column p) (jpp_path p) None)
      (json_answer r (jpp_column p) "$" (Some (default (jpp_path p) (strip_prefix "$." (jpp_path p)))))
  | _ => json_answer r (jpp_column p) (jpp_path p) (jpp_value p)
  end.

Context (Hstore : json_store).
Definition reader_known (r : IndexReader) : Prop := ∀ column idx, json_idx_info r column = Some idx → jknown r idx.

Lemma get_answers c r column path value :
  reader_known r → json_coherent c →
  ∃ c', get_json_path_bitmap io dio jp_decode c r column path value = (Ok (json_answer r column path value), c')
    ∧ json_coherent c' ∧ caches_bytes c c'.
Proof.
  intros Hr Hc. unfold get_json_path_bitmap, json_answer. destruct (json_idx_info r column) as [idx|] eqn:Hi; [|by exists c].
  specialize (Hr _ _ Hi). assert (json_used (json_key r idx)) as Hu by (by exists r, idx). unfold load_json_bytes.
  destruct (ic_byte c !! json_key r idx) as [b|] eqn:Hb; [by rewrite (Hc _ _ Hu Hb); exists c|].
  destruct (Hstore r idx Hr) as (b & -> & Hd). rewrite Hd. eexists. split_and!; [done| |].
  - intros k b' Hk. cbn. rewrite lookup_insert_Some. intros [[<- <-]|[_ Hl]]; [done|by apply Hc].
  - split_and!; [done..|]. intros k Hk. cbn. rewrite lookup_insert_ne; [done|]. by intros <-.
Qed.
Lemma predicate_answers c r p :
  reader_known r → json_coherent c →
  ∃ c', predicate_bitmap io dio jp_decode c r p = (Ok (predicate_answer r p), c') ∧ json_coherent c' ∧ caches_bytes c c'.
Proof.
  intros Hr Hc. unfold predicate_bitmap, predicate_answer. destruct (jpp_op p); try by apply get_answers.
  destruct (get_answers c r (jpp_column p) (jpp_path p) None) as (c1 & -> & Hc1 & Hb1); [done..|].
  edestruct (get_answers c1 r (jpp_column p) "$") as (c2 & -> & Hc2 & Hb2); [done..|].
  exists c2. split_and!; [done..|]. by etransitivity.
Qed.
Lemma query_answers c r acc ps :
  reader_known r → json_coherent c →
  ∃ o c', query_json_path io dio jp_decode c r acc ps = (Ok o, c') ∧ json_coherent c' ∧ caches_bytes c c'
    ∧ ∀ bm, o = Some bm → ∀ x, x ∈ bm ↔ (∀ b, acc = Some b → x ∈ b)
        ∧ (is_Some acc ∨ ps ≠ []) ∧ Forall (fun p => ∃ b, predicate_answer r p = Some b ∧ x ∈ b) ps.
Proof.
  intros Hr. revert c acc. induction ps as [|p ps IH]; intros c acc Hc; cbn [query_json_path].
  { exists acc, c. split_and!; [done..|]. intros bm -> x. split; [|naive_solver].
    intros Hx. split_and!; [by intros ? [= <-]|by left|constructor]. }
  destruct (predicate_answers c r p) as (c1 & -> & Hc1 & Hb1); [done..|].
  destruct (predicate_answer r p) as [b|] eqn:Hp; [|by exists None, c1].
  destruct (IH c1 (Some match acc with Some a => a ∩ b | None => b end)) as (o & c2 & -> & Hc2 & Hb2 & Hx); [done|].
  exists o, c2. split_and!; [done|done|by etransitivity|]. intros bm Ho x. rewrite (Hx bm Ho), Forall_cons.
  split.
  - intros (Hacc & _ & Hps). specialize (Hacc _ eq_refl). split_and!; [|by right|exists b|done].
    + intros a ->. set_solver.
    + split; [done|]. destruct acc; set_solver.
  - intros (Hacc & _ & (b' & Hb' & Hxb) & Hps). simplify_eq. split_and!; [|by left; eexists|done].
    intros ? [= <-]. destruct acc as [a|]; [|done]. rewrite elem_of_intersection. by split; [apply Hacc|].
Qed.

(** *** One row *)

(** The text of the indexed columns of a segment, and the paths that are configured. *)
Context (r : IndexReader) (columns : string → list (option string)) (paths : string → list string).
Record json_segment : Prop := {
  jg_known : reader_known r;
  jg_built column idx : json_idx_info r column = Some idx → jfiles (json_key r idx) = build (columns column) (paths column) 0;
  jg_small column : (Z.of_nat (length (columns column)) ≤ 2 ^ 32)%Z;
  jg_trim column : Forall (fun q => trim q = q) (paths column)
}.
Context (Hseg : json_segment).

Lemma covered_steps column path :
  path = "$" ∨ path ∈ normalize_path <$> paths column → (path, parse_path path) ∈ all_paths (paths column).
Proof.
  unfold all_paths. rewrite elem_of_cons. intros [->|(q & -> & Hq)%list_elem_of_fmap]; [by left|right].
  pose proof (jg_trim Hseg column) as Ht. rewrite Forall_forall in Ht. specialize (Ht q Hq).
  apply list_elem_of_fmap. exists q. split; [|done]. f_equal. by apply scan_normalize.
Qed.
(** A row is in the bitmap of a path under every text of the value the path has in it. *)
Lemma answer_row column path value bm i j v found :
  json_answer r column path value = Some bm → columns column !! i = Some (Some j) → from_str j = Some v →
  resolve v (parse_path path) = Some found → (∀ t, value = Some t → t ∈ found_texts to_string found) →
  Z.of_nat i ∉ all_deletes dio (ir_reader r) → Z.of_nat i ∈ bm.
Proof.
  unfold json_answer. destruct (json_idx_info r column) as [idx|] eqn:Hi; cbn [mbind option_bind]; [|done].
  rewrite (jg_built Hseg _ _ Hi). unfold file_bitmap. case_decide as Hp; [|done]. intros [= <-] Hj Hv Hf Ht Hdel.
  rewrite elem_of_indexed_paths in Hp. apply elem_of_difference. split; [|done].
  assert (Z.of_nat i = wrap_u32 (0 + Z.of_nat i)) as Hw.
  { pose proof (jg_small Hseg column). pose proof (lookup_lt_Some _ _ _ Hj). unfold wrap_u32. rewrite Z.mod_small; lia. }
  assert (∀ t, t ∈ found_texts to_string found → Z.of_nat i ∈ load_json_path_bitmap (build (columns column) (paths column) 0) path t) as Hin.
  { intros t Hin. apply elem_of_path_bitmap. exists i, j, v, (parse_path path), found. split_and!; try done. by apply covered_steps. }
  destruct value as [t|]; [by apply Hin, Ht|]. eapply path_bitmap_exists, (Hin PRESENT_MARKER). unfold found_texts. left.
Qed.

Section Row.
Context (i : nat) (row : string → Cell).
(** The document of a row in a column, as the index and the functions read it. *)
Definition row_doc (column : string) : option Json := string_at (row column) ≫= from_str.
Definition row_at : Prop := ∀ column idx, json_idx_info r column = Some idx → columns column !! i = Some (string_at (row column)).

Definition bare (e : Expr) : Prop := match e with EColumn _ | ELiteral _ => True | _ => False end.
Definition is_scalar (v : Json) : Prop := match v with JBool _ | JNumber _ | JString _ => True | _ => False end.
(** What of a document and a candidate the index knows. *)
Definition contains_answerable (v cand : Json) : Prop :=
  match cand with
  | JObject [(k, val)] =>
      (∀ a, v ≠ JArray a) ∧ plain_segment k ∧ not_float_zero val ∧ ∀ hv, resolve_step v (Key k) = Some hv → flat hv
  | cand => not_float_zero cand ∧ flat v
  end.
Definition call_answerable (name column lit : string) (v : Json) : Prop :=
  if decide (name = "json_path_exists") then
    trim lit = lit ∧ UWildcard ∉ udf_parse_path lit ∧ (no_numeric_keys v = true ∨ Forall is_key (parse_path lit))
  else if decide (name = "json_exists") then plain_segment lit ∧ "$." +:+ lit ∈ normalize_path <$> paths column
  else if decide (name = "json_contains") then ∀ cand, from_str lit = Some cand → contains_answerable v cand
  else True.
Definition extract_answerable (args : list Expr) (lit : Expr) : Prop :=
  Forall bare args ∧ bare lit ∧ ∀ column segs v,
    head args ≫= expr_column_name = Some column → mapM literal_string (drop 1 args) = Some segs → row_doc column = Some v →
    Forall plain_segment segs ∧ ∀ found, resolve v (Key <$> segs) = Some found → is_scalar found.
(** The filter and the row are such that the index leaves the row in if the filter is true on it. *)
Fixpoint answerable (e : Expr) : Prop :=
  match e with
  | EBinary l op r =>
      match op with
      | OpAnd => answerable l ∧ answerable r
      | OpEq => match l, r with
                | EScalarFunction _ args, lit | lit, EScalarFunction _ args => extract_answerable args lit
                | _, _ => True
                end
      | _ => True
      end
  | EScalarFunction name [x; y] =>
      bare x ∧ bare y ∧ ∀ column lit v, expr_column_name x = Some column → literal_string y = Some lit →
        row_doc column = Some v → call_answerable name column lit v
  | _ => True
  end.

Context (Hrow : row_at) (Hlive : Z.of_nat i ∉ all_deletes dio (ir_reader r)).

Lemma doc_answer column path value bm v found :
  json_answer r column path value = Some bm → row_doc column = Some v → resolve v (parse_path path) = Some found →
  (∀ t, value = Some t → t ∈ found_texts to_string found) → Z.of_nat i ∈ bm.
Proof.
  intros Ha Hd Hf Ht. unfold row_doc in Hd. destruct (string_at (row column)) as [j|] eqn:Hj; [|done]. cbn in Hd.
  destruct (json_idx_info r column) as [idx|] eqn:Hi; [|unfold json_answer in Ha; by rewrite Hi in Ha].
  eapply answer_row; [exact Ha| |exact Hd|exact Hf|exact Ht|exact Hlive]. rewrite (Hrow _ _ Hi). by rewrite Hj.
Qed.
Lemma texts_found v t : t ∈ value_texts to_string v → t ∈ found_texts to_string v.
Proof. unfold found_texts. rewrite elem_of_cons. by right. Qed.

(** The call of a function that is true on the row. *)
Lemma bare_column x column : bare x → expr_column_name x = Some column → operand row cast x = Some (row column).
Proof. destruct x; try done. cbn. by intros _ [= ->]. Qed.
Lemma bare_literal x t : bare x → literal_string x = Some t → operand row cast x = Some (CString t).
Proof. destruct x as [|[]| | | | | | | | | |]; try done; cbn; intros _; repeat case_match; by intros [= ->]. Qed.
Lemma call_doc (f : Json → bool) column :
  (j ← string_at (row column); Some match from_str j with Some v => f v | None => false end) = Some true →
  ∃ v, row_doc column = Some v ∧ f v = true.
Proof.
  unfold row_doc. destruct (string_at (row column)) as [j|]; cbn; [|done]. destruct (from_str j) as [v|]; [|done].
  intros [= ?]. eauto.
Qed.

Lemma path_exists_row column lit bm :
  json_path_exists from_str (row column) (CString lit) = Some true →
  (∀ v, row_doc column = Some v → call_answerable "json_path_exists" column lit v) →
  json_answer r column (normalize_path lit) None = Some bm → Z.of_nat i ∈ bm.
Proof.
  intros Hc Hix Ha. apply call_doc in Hc as (v & Hv & Hne%negb_true_iff%bool_decide_eq_false).
  destruct (Hix v Hv) as (Ht & Hw & Hnum). rewrite (resolve_same v (parse_path lit)) in Hne by (done || by apply paths_same).
  destruct (resolve v (parse_path lit)) as [found|] eqn:Hr; [|done].
  eapply doc_answer; [exact Ha|exact Hv| |done]. by rewrite <- Hr; f_equal; apply scan_normalize.
Qed.
Lemma exists_row column lit bm :
  json_exists from_str (row column) (CString lit) = Some true →
  (∀ v, row_doc column = Some v → call_answerable "json_exists" column lit v) →
  either_bitmap (json_answer r column ("$." +:+ lit) None) (json_answer r column "$" (Some lit)) = Some bm → Z.of_nat i ∈ bm.
Proof.
  intros Hc Hix Ha. apply call_doc in Hc as (v & Hv & He). destruct (Hix v Hv) as [Hp Hcov].
  assert (is_Some (json_answer r column "$" (Some lit)) → is_Some (json_answer r column ("$." +:+ lit) None)) as Hsome.
  { unfold json_answer. destruct (json_idx_info r column) as [idx|] eqn:Hi; cbn [mbind option_bind]; [|done].
    intros _. rewrite (jg_built Hseg _ _ Hi). unfold file_bitmap. rewrite decide_True; [by eexists|].
    apply elem_of_indexed_paths. by right. }
  destruct (json_answer r column ("$." +:+ lit) None) as [a|] eqn:Ea;
    [|cbn in Ha; rewrite Ha in Hsome; by destruct (Hsome (mk_is_Some _ _ eq_refl))].
  assert (∀ found, resolve_step v (Key lit) = Some found → Z.of_nat i ∈ a) as Hina.
  { intros found Hf. eapply doc_answer; [exact Ea|exact Hv| |done]. rewrite parse_key by done. cbn [resolve]. by rewrite Hf. }
  destruct v as [| | | |l|o]; try done; cbn [exists_] in He.
  - apply existsb_elem_of in He as ([| | |s| |] & Hs & Heq); try done. apply bool_decide_eq_true in Heq as ->.
    destruct (json_answer r column "$" (Some lit)) as [b|] eqn:Eb.
    + injection Ha as <-. apply elem_of_union. right. eapply doc_answer; [exact Eb|exact Hv|done|].
      intros t [= <-]. apply texts_found. cbn. apply list_elem_of_omap. by exists (JString lit).
    + exfalso. unfold json_answer in Ea, Eb. destruct (json_idx_info r column) as [idx|] eqn:Hi; [|done]. cbn in Eb.
      rewrite (jg_built Hseg _ _ Hi) in Eb. unfold file_bitmap in Eb. rewrite decide_True in Eb; [done|].
      apply elem_of_indexed_paths. by left.
  - apply bool_decide_eq_true in He as [found Hf]. specialize (Hina found Hf).
    destruct (json_answer r column "$" (Some lit)); injection Ha as <-; [|done]. apply elem_of_union. by left.
Qed.
Lemma contains_row column lit cand p bm :
  json_contains from_str (row column) (CString lit) = Some true → from_str lit = Some cand →
  (∀ v, row_doc column = Some v → contains_answerable v cand) → contains_predicate to_string column cand = Some p →
  predicate_answer r p = Some bm → Z.of_nat i ∈ bm.
Proof.
  intros Hc Hcand Hix Hp Ha. unfold json_contains in Hc. cbn [string_at mbind option_bind] in Hc.
  assert (∃ v, row_doc column = Some v ∧ contains v cand = true) as (v & Hv & Hcon).
  { apply call_doc. rewrite Hcand in Hc. destruct (string_at (row column)); [|done]. cbn in *. by destruct (from_str _). }
  specialize (Hix v Hv).
  assert (∀ t, value_text cand = Some t → not_float_zero cand ∧ flat v →
    predicate_answer r {| jpp_column := column; jpp_path := "$"; jpp_value := Some t; jpp_op := Contains |} = Some bm →
    Z.of_nat i ∈ bm) as Hscalar.
  { intros t Ht [Hz Hf] Hb. eapply doc_answer; [exact Hb|exact Hv|done|]. intros ? [= <-]. apply texts_found.
    by eapply contains_scalar. }
  destruct cand as [|b|n|s|a|[|[k val] [|]]]; cbn [contains_predicate contains_answerable] in *; try done;
    try (injection Hp as <-; by eapply Hscalar).
  destruct Hix as (Hna & Hk & Hz & Hflat). destruct (contains_field v k val Hcon Hna) as (hv & Hhv & Hch).
  destruct (value_text val) as [t|] eqn:Ht.
  - assert (p = {| jpp_column := column; jpp_path := "$." +:+ k; jpp_value := Some t; jpp_op := Contains |}) as ->.
    { destruct val; try done; cbn in Hp, Ht; simplify_eq; done. }
    eapply (doc_answer column ("$." +:+ k) (Some t)); [exact Ha|exact Hv| |].
    + rewrite parse_key by done. cbn [resolve]. by rewrite Hhv.
    + intros ? [= <-]. apply texts_found. eapply contains_scalar; [exact Hch|done|done|by apply Hflat].
  - by destruct val.
Qed.
Lemma extract_row name args lit p bm :
  (a ← json_operand from_str to_string row cast (EScalarFunction name args); b ← json_operand from_str to_string row cast lit;
   compare3 OpEq a b) = Some true →
  extract_answerable args lit →
  json_extract_eq_predicate (EScalarFunction name args) lit = Some p → predicate_answer r p = Some bm → Z.of_nat i ∈ bm.
Proof.
  intros Hc (Hargs & Hlit & Hix) Hp Ha. cbn [json_extract_eq_predicate] in Hp. case_decide as Hn; [subst name|done].
  destruct args as [|x args]; [done|]. change (drop 1 (x :: args)) with args in Hp. cbn [head mbind option_bind] in Hp.
  apply Forall_cons in Hargs as [Hx Hargs].
  destruct (expr_column_name x) as [column|] eqn:Hcol; [|done]. cbn [mbind option_bind] in Hp.
  destruct (literal_string lit) as [value|] eqn:Hval; [|done]. cbn [mbind option_bind] in Hp.
  destruct (mapM literal_string args) as [segs|] eqn:Hsegs; [|done]. injection Hp as <-.
  assert (json_operand from_str to_string row cast lit = Some (CString value)) as Hop.
  { rewrite <- (bare_literal lit value Hlit Hval). by destruct lit. }
  rewrite Hop in Hc. cbn [json_operand] in Hc. rewrite decide_True in Hc by done.
  rewrite (bare_column x column Hx Hcol) in Hc. cbn [mbind option_bind] in Hc.
  assert (mapM (operand row cast) args = Some (CString <$> segs)) as Hm.
  { apply mapM_Some in Hsegs. apply mapM_Some. clear -Hsegs Hargs. induction Hsegs as [|y t args segs Hy Hs IH]; [constructor|].
    apply Forall_cons in Hargs as [Hb Hargs]. csimpl. constructor; [by apply bare_literal|by apply IH]. }
  rewrite Hm in Hc. cbn [mbind option_bind] in Hc. unfold json_extract_path in Hc.
  assert (mapM string_at (CString <$> segs) = Some segs) as Hsa by (apply mapM_Some; clear; induction segs; csimpl; by constructor).
  rewrite Hsa in Hc. cbn [mbind option_bind] in Hc.
  destruct (string_at (row column)) as [j|] eqn:Hj; [|done]. cbn [mbind option_bind] in Hc.
  destruct (from_str j) as [v|] eqn:Hv; [|done]. cbn [mbind option_bind] in Hc.
  assert (row_doc column = Some v) as Hdoc by (unfold row_doc; by rewrite Hj).
  destruct (Hix column segs v) as [Hplain Hsc]; [done|done|done|].
  unfold resolve_one in Hc. rewrite resolve_keys in Hc. destruct (resolve v (Key <$> segs)) as [found|] eqn:Hf; [|done].
  cbn in Hc. specialize (Hsc found eq_refl). unfold compare3 in Hc. cbn in Hc.
  destruct (String.compare (as_text to_string found) value) eqn:Heq; try done. apply String.compare_eq_iff in Heq.
  eapply (doc_answer column (join_segments segs) (Some value)); [exact Ha|exact Hdoc|by rewrite parse_segments|].
  intros t [= <-]. apply texts_found. destruct found; try done; cbn in *; subst; apply list_elem_of_singleton; done.
Qed.

(** A row on which the filter is true is in the bitmap of each of its conditions. *)
Lemma call_row name x y p bm :
  json_leaf from_str to_string row cast (EScalarFunction name [x; y]) = Some true → answerable (EScalarFunction name [x; y]) →
  json_predicate_from_udf from_str to_string name [x; y] = Some p → predicate_answer r p = Some bm → Z.of_nat i ∈ bm.
Proof.
  intros He (Hx & Hy & Hix) Hp Ha. unfold json_predicate_from_udf in Hp. cbn [head mbind option_bind lookup list_lookup] in Hp.
  destruct (expr_column_name x) as [column|] eqn:Hcol; [|done]. cbn [mbind option_bind] in Hp.
  cbn [json_leaf] in He. rewrite (bare_column x column Hx Hcol) in He. cbn [mbind option_bind] in He.
  assert (∀ lit, literal_string y = Some lit → operand row cast y = Some (CString lit)) as Hlit
    by (intros lit; by apply bare_literal).
  destruct (literal_string y) as [lit|] eqn:Hl; [|by repeat case_decide]. cbn [mbind option_bind] in Hp.
  rewrite (Hlit lit eq_refl) in He. cbn [mbind option_bind] in He. specialize (Hix column lit).
  case_decide as Hpe; [|case_decide as Hex; [|case_decide as Hco; [|done]]]; subst name.
  - injection Hp as <-. eapply path_exists_row; [exact He| |exact Ha].
    intros v. by apply Hix.
  - injection Hp as <-. unfold predicate_answer in Ha.
    cbn [jpp_op jpp_column jpp_path] in Ha. change (strip_prefix "$." ("$." +:+ lit)) with (Some lit) in Ha.
    eapply exists_row; [exact He| |exact Ha]. intros v. by apply Hix.
  - destruct (from_str lit) as [cand|] eqn:Hcand; [|done]. cbn [mbind option_bind] in Hp.
    eapply contains_row; [exact He|exact Hcand| |exact Hp|exact Ha]. intros v Hv. by apply (Hix v).
Qed.
Lemma compare_sym a b : compare3 OpEq a b = compare3 OpEq b a.
Proof.
  unfold compare3. destruct a as [| | | |], b as [| | | |]; cbn; try done; f_equal.
  - by destruct b, b0.
  - rewrite Z.compare_antisym. by destruct (_ ?= _)%Z.
  - unfold float_cmp. rewrite lex_antisym. by destruct (lex _ _).
  - unfold float_cmp. rewrite lex_antisym. by destruct (lex _ _).
  - unfold float_cmp. rewrite lex_antisym. by destruct (lex _ _).
  - rewrite String.compare_antisym. by destruct (String.compare _ _).
Qed.
Lemma equal_row l q p bm :
  eval row cast (opaque row) (EBinary l OpEq q) = Some true → answerable (EBinary l OpEq q) →
  json_extract_eq_predicate l q = Some p → predicate_answer r p = Some bm → Z.of_nat i ∈ bm.
Proof.
  intros He Hix Hp Ha.
  assert (opaque row (EBinary l OpEq q) = json_leaf from_str to_string row cast (EBinary l OpEq q)) as Hop
    by (apply Hfunctions; cbn [extract_json_path_predicates]; by rewrite Hp).
  assert ((∃ name args, l = EScalarFunction name args) ∨
    (∃ name args, q = EScalarFunction name args ∧ ∀ n a, l ≠ EScalarFunction n a)) as [(name & args & ->)|(name & args & -> & Hl)].
  { destruct l; try (destruct q; try done; right; by eauto); by left; eauto. }
  - cbn [eval operand] in He. rewrite Hop in He. eapply extract_row; [exact He| |exact Hp|exact Ha]. exact Hix.
  - eapply (extract_row name args l); [| |destruct l; try exact Hp; exfalso; by eapply Hl|exact Ha].
    + assert (json_leaf from_str to_string row cast (EBinary l OpEq (EScalarFunction name args)) = Some true) as He'.
      { cbn [eval operand] in He. rewrite <- Hop. by destruct (operand row cast l). }
      cbn [json_leaf] in He'. destruct (json_operand _ _ _ _ l) as [a|]; [|done]. cbn [mbind option_bind] in *.
      destruct (json_operand _ _ _ _ (EScalarFunction name args)) as [b|]; [|done]. cbn [mbind option_bind] in *.
      by rewrite compare_sym.
    + destruct l; try exact Hix. exfalso. by eapply Hl.
Qed.
Lemma filter_row e p bm :
  eval row cast (opaque row) e = Some true → answerable e →
  p ∈ extract_json_path_predicates from_str to_string e → predicate_answer r p = Some bm → Z.of_nat i ∈ bm.
Proof.
  induction e as [| |l IHl op q IHq| | | | | | | |name args|]; cbn [extract_json_path_predicates]; try set_solver.
  - intros He Hix Hp Ha. destruct op; try (by apply not_elem_of_nil in Hp).
    + apply elem_of_app in Hp. cbn [eval] in He. destruct Hix as [Hil Hiq].
      destruct (eval row cast _ l) as [[]|], (eval row cast _ q) as [[]|]; try done. destruct Hp; auto.
    + destruct (json_extract_eq_predicate l q) as [p'|] eqn:Hp'; [|by apply not_elem_of_nil in Hp].
      apply list_elem_of_singleton in Hp as ->. by eapply equal_row.
  - intros He Hix Hp Ha. destruct (json_predicate_from_udf _ _ name args) as [p'|] eqn:Hp'; [|by apply not_elem_of_nil in Hp].
    apply list_elem_of_singleton in Hp as ->. cbn [eval] in He. rewrite Hfunctions in He by (cbn [extract_json_path_predicates]; by rewrite Hp').
    destruct args as [|x [|y [|]]]; try done. by eapply call_row.
Qed.
End Row.

(** *** All rows *)

Lemma answer_live column path value bm x :
  json_answer r column path value = Some bm → x ∈ bm → (0 ≤ x)%Z ∧ x ∉ all_deletes dio (ir_reader r).
Proof.
  unfold json_answer. destruct (json_idx_info r column) as [idx|] eqn:Hi; cbn [mbind option_bind]; [|done].
  rewrite (jg_built Hseg _ _ Hi). unfold file_bitmap. case_decide; [|done]. intros [= <-] [Hx Hd]%elem_of_difference.
  split; [|done].
  assert (∃ t, x ∈ load_json_path_bitmap (build (columns column) (paths column) 0) path t) as [t Ht].
  { destruct value as [t|]; [by exists t|]. unfold load_json_path_exists_bitmap in Hx. rewrite elem_of_union_list in Hx.
    destruct Hx as (X & ([[p t] rows] & -> & He)%list_elem_of_fmap & Hx). cbn [fst snd] in Hx. case_decide; [subst p|set_solver].
    exists t. apply elem_of_union_list. exists (list_to_set rows). split; [|done].
    apply list_elem_of_fmap. exists (path, t, rows). cbn [fst snd]. by rewrite decide_True. }
  apply elem_of_path_bitmap in Ht as (i & j & v & steps & found & _ & _ & _ & _ & _ & ->). unfold wrap_u32. by apply Z.mod_pos_bound.
Qed.
Lemma predicate_live p bm x : predicate_answer r p = Some bm → x ∈ bm → (0 ≤ x)%Z ∧ x ∉ all_deletes dio (ir_reader r).
Proof.
  unfold predicate_answer. destruct (jpp_op p); try apply answer_live. set (b := json_answer r _ "$" _).
  destruct (json_answer r (jpp_column p) (jpp_path p) None) as [a|] eqn:Ha, b as [b'|] eqn:Hb; cbn; intros [= <-];
    rewrite ?elem_of_union; try (by eapply answer_live). intros [?|?]; [by eapply answer_live; [exact Ha|]|by eapply answer_live; [exact Hb|]].
Qed.

Lemma overlay_rows e c :
  json_coherent c →
  ∃ o c', query_json_path io dio jp_decode c r None (extract_json_path_predicates from_str to_string e) = (Ok o, c')
    ∧ json_coherent c' ∧ caches_bytes c c'
    ∧ ∀ bm, o = Some bm → (∀ x, x ∈ bm → (0 ≤ x)%Z ∧ x ∉ all_deletes dio (ir_reader r))
      ∧ ∀ i row, row_at i row → Z.of_nat i ∉ all_deletes dio (ir_reader r) →
          eval row cast (opaque row) e = Some true → answerable row e → Z.of_nat i ∈ bm.
Proof.
  intros Hc. set (ps := extract_json_path_predicates from_str to_string e).
  destruct (query_answers c r None ps (jg_known Hseg) Hc) as (o & c' & Hq & Hc' & Hb & Hin).
  exists o, c'. split_and!; [done..|]. intros bm Ho. specialize (Hin bm Ho).
  assert (ps ≠ [] ∧ Forall (fun p => is_Some (predicate_answer r p)) ps) as [Hne Hall].
  { clear -Hq Ho Hseg Hstore Hc. subst o. split; [by intros Hn; rewrite Hn in Hq|].
    revert c c' Hc Hq. generalize (@None (gset Z)) as acc. induction ps as [|p ps' IH]; intros acc c c' Hc Hq; [constructor|].
    cbn [query_json_path] in Hq. destruct (predicate_answers c r p (jg_known Hseg) Hc) as (c1 & Hp & Hc1 & _). rewrite Hp in Hq.
    destruct (predicate_answer r p) as [b|] eqn:Hb; [|done]. constructor; [by rewrite Hb|]. by eapply IH. }
  split.
  - intros x (_ & _ & Hx)%Hin. destruct ps as [|p ps']; [done|]. apply Forall_cons in Hx as [(b & Hb' & Hx) _].
    by eapply predicate_live.
  - intros i row Hrow Hlive He Hix. apply Hin. split_and!; [done|by right|]. apply Forall_forall. intros p Hp.
    rewrite Forall_forall in Hall. destruct (Hall p Hp) as [b Hb']. exists b. split; [done|]. by eapply filter_row.
Qed.

(** C16: The overlay of JSON paths answers without an error, from readable index files or a cache that
    agrees with them, and what it selects has no deleted row and every other row on which the filter
    is true and which is [answerable] for it: the arguments of the calls are columns and literals; for
    [json_path_exists] the path is trimmed, has no wildcard, and has no index step or the document no
    numeric keys; for [json_exists] the key is plain and configured as a path; for [json_contains] of
    a single-key object the document is not an array, the key is plain, the value is no float zero and
    what the document has there is no nested array, and of a scalar it is no float zero and the
    document no nested array; for [json_extract] the keys are plain and the value found is a boolean,
    number or string.  (Outside of it: [overlay_loses_matches].) *)
Theorem overlay_keeps_matches e c :
  json_coherent c →
  ∃ o c', query_json_path io dio jp_decode c r None (extract_json_path_predicates from_str to_string e) = (Ok o, c')
    ∧ json_coherent c'
    ∧ ∀ bm, o = Some bm → (∀ x, x ∈ bm → x ∉ all_deletes dio (ir_reader r))
      ∧ ∀ i row, row_at i row → Z.of_nat i ∉ all_deletes dio (ir_reader r) →
          eval row cast (opaque row) e = Some true → answerable row e → Z.of_nat i ∈ bm.
Proof.
  intros Hc. destruct (overlay_rows e c Hc) as (o & c' & Hq & Hc' & _ & Hbm). exists o, c'. split_and!; [done..|].
  intros bm Ho. destruct (Hbm bm Ho) as [Hx Hin]. split; [|done]. intros x Hxb. by apply Hx.
Qed.
End Superset.

(** The functions read no column but those of their arguments. *)
Section Columns.
Context (from_str : string → option Json) (to_string : Json → string) (cast : string → Cell → Cell).
Let reads e r r' := operand_reads cast (fun _ _ => None) (fun _ _ _ _ => eq_refl) e r r'.
Lemma args_read name args r r' :
  agree (find_column_names (EScalarFunction name args)) r r' → Forall (fun a => operand r cast a = operand r' cast a) args.
Proof.
  induction args as [|a args IH]; intros Ha; constructor.
  - apply reads. eapply agree_mono; [|exact Ha]. cbn. set_solver.
  - apply IH. eapply agree_mono; [|exact Ha]. cbn. set_solver.
Qed.
Lemma mapM_operand_reads args r r' :
  Forall (fun a => operand r cast a = operand r' cast a) args → mapM (operand r cast) args = mapM (operand r' cast) args.
Proof. induction 1 as [|a args Ha _ IH]; [done|]. cbn [mapM]. by rewrite Ha, IH. Qed.
Lemma json_operand_reads e r r' :
  agree (find_column_names e) r r' → json_operand from_str to_string r cast e = json_operand from_str to_string r' cast e.
Proof.
  intros Ha. destruct e as [| | | | | | | | | |name [|x args]|]; try (by apply reads); try done.
  pose proof (args_read name (x :: args) r r' Ha) as [Hx Hargs]%Forall_cons. cbn [json_operand].
  by rewrite Hx, (mapM_operand_reads args r r' Hargs).
Qed.
Lemma json_leaf_reads e r r' :
  agree (find_column_names e) r r' → json_leaf from_str to_string r cast e = json_leaf from_str to_string r' cast e.
Proof.
  intros Ha. destruct e as [| |l op q| | | | | | | |name [|x [|y [|]]]|]; try done; cbn [json_leaf].
  - rewrite (json_operand_reads l r r'), (json_operand_reads q r r'); [done|..];
      (eapply agree_mono; [|exact Ha]; cbn; set_solver).
  - pose proof (args_read name [x; y] r r' Ha) as [Hx [Hy _]%Forall_cons]%Forall_cons. by rewrite Hx, Hy.
Qed.
End Columns.

(** ** Files of a segment

    The overlay of a column is written when a batch of the segment is indexed; at the end the files
    become blobs of the segment's Puffin file ([src/src/core/segment.rs]). *)

Section Pack.
Context (from_str : string → option Json) (to_string : Json → string) (staging_dir segment_id : string).
Record Staging := {
  sg_disk : gmap string JsonPathFile;
  sg_generated : list string;
  sg_blobs : list (string * JsonPathFile)
}.
Definition overlay_path (column : string) : string :=
  staging_dir +:+ "/" +:+ segment_id +:+ "." +:+ column +:+ ".jsonpath.parquet".
(** The part of [index_column] for JSON paths, on a batch at an offset. *)
Definition index_overlay (column : string) (paths : list string) (st : Staging) (batch : list (option string)) (row_offset : Z) : Staging :=
  if decide (paths = []) then st
  else {| sg_disk := <[overlay_path column := build_json_path_index from_str to_string batch paths row_offset]> (sg_disk st);
          sg_generated := sg_generated st ++ [overlay_path column]; sg_blobs := sg_blobs st |}.
Definition pack_overlay (st : Staging) (path : string) : option Staging :=
  data ← sg_disk st !! path;
  let filename := default path (last (split_char slash path)) in
  Some {| sg_disk := delete path (sg_disk st); sg_generated := filter (fun f => f ≠ path) (sg_generated st);
          sg_blobs := sg_blobs st ++ [(default "unknown" (split_char dot filename !! 1), data)] |}.
Definition pack_overlays (st : Staging) : option Staging :=
  foldl (fun st path => st ← st; pack_overlay st path) (Some st)
    (filter (fun f => ends_with ".jsonpath.parquet" f = true) (sg_generated st)).
(** The batches of a segment, and then the end. *)
Fixpoint index_batches (column : string) (paths : list string) (st : Staging) (batches : list (list (option string))) (row_offset : nat)
  : Staging :=
  match batches with
  | [] => st
  | b :: batches => index_batches column paths (index_overlay column paths st b (Z.of_nat row_offset)) batches (row_offset + length b)
  end.
End Pack.

(** ** Examples *)

Module JsonPathExamples.
Import InvertedExamples.
Import JsonPathSamples.
Open Scope Z_scope.

(** Texts and the documents they stand for. *)
Definition text (v : Json) : string :=
  match v with
  | JNull => "null" | JBool true => "true" | JBool false => "false"
  | JNumber (PosInt n) | JNumber (NegInt n) => pretty n
  | _ => "other"
  end.
Definition documents : gmap string Json := {[
  "error" := JObject [("level", JString "error"); ("tags", JArray [JString "a"; JString "b"])];
  "info" := JObject [("level", JString "info"); ("tags", JArray [JString "b"])];
  "words" := JArray [JString "error"; JString "warn"];
  "is level error" := JObject [("level", JString "error")];
  "user" := JObject [("user", num 1)];
  "list of level error" := JArray [JObject [("level", JString "error")]];
  "nested" := JArray [JArray [JString "x"]];
  "is x" := JString "x";
  "items" := JObject [("items", JArray [JObject [("id", num 1)]])];
  "no level" := JObject [("level", JNull)];
  "dotted" := JObject [("a.b", num 1)];
  "numbered" := JObject [("0", num 1)]
]}.
Definition parse (s : string) : option Json := documents !! s.
Definition overlay : IndexFile :=
  {| if_format_version := 1; if_index_id := ""; if_index_category := "json_path"; if_algorithm := "json_path";
     if_column_name := "doc"; if_source_snapshot_id := 0; if_source_data_checksum := ""; if_source_record_count := 0;
     if_index_checksum := None; if_file_path := "a.puffin"; if_blob_type := None; if_blob_offset := Some 100;
     if_blob_length := Some 50; if_compression := "" |}.
Definition json_rdr : IndexReader :=
  {| ir_reader := ir_reader rdr; ir_index_files := [overlay]; ir_record_count := None; ir_file_checksum := None;
     ir_active_snapshot_id := None |}.
Definition blob : IndexIo :=
  {| ix_get := fun _ => NotFound; ix_get_range := fun _ _ _ => Some []; ix_inverted := fun _ => None; ix_bitmap := fun _ => None |}.
Definition paths : list string := ["$.level"; "tags"; "$.a.b"; "$.items[*].id"; "$[0]"].
Definition file (column : list string) : JsonPathFile := build_json_path_index parse text (Some <$> column) paths 0.

Definition doc : Expr := EColumn "doc".
Definition lit (s : string) : Expr := ELiteral (SUtf8 (Some s)).
Definition call (name arg : string) : Expr := EScalarFunction name [doc; lit arg].
Definition extract_eq (segs : list string) (v : string) : Expr :=
  EBinary (EScalarFunction "json_extract_path_text" (doc :: (lit <$> segs))) OpEq (lit v).
Definition no_cast (ty : string) (c : Cell) : Cell := c.
Definition row_of (t : string) (c : string) : Cell := if decide (c = "doc") then CString t else CNull.
Definition ask_overlay (column : list string) (e : Expr) : result ierr (option (gset Z)) * IndexCaches :=
  query_json_path blob no_deletes (fun _ => Some (file column)) cold json_rdr None (extract_json_path_predicates parse text e).
(** The rows the overlay gives, and those on which the filter is true. *)
Definition given (column : list string) (e : Expr) : option (list Z) :=
  match (ask_overlay column e).1 with Ok (Some bm) => Some (merge_sort Z.le (elements bm)) | _ => None end.
Definition matching (column : list string) (e : Expr) : list nat :=
  omap (fun it => if decide (json_eval parse text (row_of it.2) no_cast e = Some true) then Some it.1 else None) (imap pair column).

Definition column : list string := ["error"; "info"; "words"; "error"].
Example asks :
  given column (call "json_path_exists" "$.level") = Some [0; 1; 3]
  ∧ given column (extract_eq ["level"] "error") = Some [0; 3]
  ∧ given column (call "json_contains" "is level error") = Some [0; 3]
  ∧ given column (call "json_path_exists" "$.other") = None
  ∧ given column (EBinary (call "json_exists" "level") OpAnd (extract_eq ["tags"] "b")) = Some [0; 1; 3].
Proof. vm_compute. done. Qed.

Definition json_files (k : string) : JsonPathFile := file column.
Definition json_known (r : IndexReader) (i : IndexFile) : Prop := r = json_rdr ∧ i = overlay.
Definition tagged_error : Expr := EBinary (call "json_path_exists" "$.tags") OpAnd (extract_eq ["level"] "error").
Lemma only_overlay c i : json_idx_info json_rdr c = Some i → c = "doc" ∧ i = overlay.
Proof.
  unfold json_idx_info. cbn. destruct (decide (c = "doc")) as [->|Hc]; [by vm_compute; intros [= <-]|].
  destruct (bool_decide ("doc" = c)) eqn:E; [by apply bool_decide_eq_true in E|]. by case_decide.
Qed.
Lemma overlay_keeps_matches_witness :
  ∃ o c', query_json_path blob no_deletes (fun _ => Some (file column)) cold json_rdr None (extract_json_path_predicates parse text tagged_error) = (Ok o, c')
    ∧ ∀ bm, o = Some bm → 3 ∈ bm.
Proof.
  destruct (overlay_keeps_matches parse text no_cast (fun row => json_leaf parse text row no_cast) (fun _ _ _ => eq_refl) blob no_deletes (fun _ => Some (file column)) json_known json_files)
    with (r := json_rdr) (columns := fun c : string => if decide (c = "doc") then Some <$> column else []) (paths := fun _ : string => paths)
         (e := tagged_error) (c := cold) as (o & c' & Hq & _ & Hbm).
  - intros r i [-> ->]. by exists [].
  - split.
    + intros c i [-> ->]%only_overlay. done.
    + intros c i [-> ->]%only_overlay. done.
    + intros c. case_decide; vm_compute; congruence.
    + intros c. repeat constructor.
  - intros k b Hk Hl. cbn in Hl. by rewrite lookup_empty in Hl.
  - exists o, c'. split; [done|]. intros bm Ho. destruct (Hbm bm Ho) as [_ Hin].
    apply (Hin 3%nat (row_of "error")).
    + intros c i [-> _]%only_overlay. done.
    + apply not_elem_of_empty.
    + by vm_compute.
    + cbn. split.
      * split; [done|split; [done|]]. intros c l v [= <-] [= <-] _. unfold call_answerable. cbn. split_and!; [by vm_compute| |].
        -- replace (udf_parse_path "$.tags") with [UKey "tags"] by reflexivity. by intros [=]%list_elem_of_singleton.
        -- right. vm_compute. repeat constructor.
      * split; [repeat constructor|split; [done|]]. intros c segs v [= <-] [= <-] Hv. vm_compute in Hv. injection Hv as <-.
        split; [repeat constructor; by vm_compute|]. intros found Hf. vm_compute in Hf. by injection Hf as <-.
Defined.

(** Matches the overlay leaves out, so that a read loses them: [json_exists] of a key that no path is
    configured for; a single-key candidate and an array of objects; a scalar candidate and a nested
    array; a configured wildcard path; the text of null; a key with a dot in it; an index and an
    object with that key. *)
Example overlay_loses_matches :
  let lost column e := match given column e with Some l => Some (l, matching column e) | None => None end in
  lost ["user"] (call "json_exists" "user") = Some ([], [0%nat])
  ∧ lost ["list of level error"] (call "json_contains" "is level error") = Some ([], [0%nat])
  ∧ lost ["nested"] (call "json_contains" "is x") = Some ([], [0%nat])
  ∧ lost ["items"] (call "json_path_exists" "$.items[*].id") = Some ([], [0%nat])
  ∧ lost ["no level"] (extract_eq ["level"] "null") = Some ([], [0%nat])
  ∧ lost ["dotted"] (call "json_exists" "a.b") = Some ([], [0%nat])
  ∧ lost ["numbered"] (call "json_path_exists" "$[0]") = Some ([], [0%nat]).
Proof. vm_compute. repeat split. Qed.

(** One batch becomes one blob; with two the file is packed twice, and the second time it is gone. *)
Definition empty_staging : Staging := {| sg_disk := ∅; sg_generated := []; sg_blobs := [] |}.
Definition packed (batches : list (list (option string))) : option (list (string * JsonPathFile)) :=
  sg_blobs <$> pack_overlays (index_batches parse text "/tmp" "seg" "doc" ["$.level"] empty_staging batches 0).
Example second_batch_fails_packing :
  packed [Some <$> column] = Some [("doc", build_json_path_index parse text (Some <$> column) ["$.level"] 0)]
  ∧ packed [Some <$> take 2 column; Some <$> drop 2 column] = None.
Proof. vm_compute. done. Qed.
End JsonPathExamples.
