(* ===== verification/Read.v ===== *)
(** * Reading a table

    [src/src/core/table/read.rs] without vector search: the entries of the snapshot are pruned, each
    segment is read through an index, the JSON overlay or a scan after a test of its Bloom filters,
    the filter is applied to the batches, and the rows of the write buffer are added.  Pruning is that
    of [Planner], index lookups those of [InvertedIndex], deletes and row selections those of
    [Deletes], the JSON-path overlay that of [JsonPath]; [check_bloom_filter], [query_index_first],
    [read_rows_by_bitmap] and [rewrite_composite_filters] are in [src/src/core/reader/filter.rs]. *)

From S2P Require Import Prelude Json ManifestTypes Manifest ManifestStore Deletes Merge Planner PlannerSpec Partitioning RowGroups Compaction InvertedIndex PrimaryKey DeleteRows JsonPath.
Open Scope nat_scope.

Abbreviation TableRow := (gmap string Cell).
Definition row_cell (r : TableRow) (c : string) : Cell := default CNull (r !! c).

(** ** Bloom filters *)

Inductive PhysicalType := PtInt64 | PtInt32 | PtByteArray | PtFloat | PtDouble | PtOther.
(** What is looked up in a filter. *)
Inductive BloomKey := BkInt64 (z : Z) | BkInt32 (z : Z) | BkText (s : string) | BkFloat (f : float) | BkDouble (f : float).

Section Bloom.
(** Parquet's split-block filters and [f64 as f32]. *)
Context {Sbbf : Type} (sbbf_check : Sbbf → BloomKey → bool) (f64_as_f32 : float → float).
(** The filter of a column in a row group, if there is one and it can be read. *)
Inductive BloomSlot := NoFilter | Unreadable | Filter (sbbf : Sbbf).
Record BloomColumn := { bc_type : PhysicalType; bc_groups : list BloomSlot }.

(** The key of a value; without one the filter is not asked.  (An array of bytes has no value here.) *)
Definition bloom_key (ty : PhysicalType) (v : Value) : option BloomKey :=
  match ty with
  | PtInt64 => BkInt64 <$> value_as_i64 v
  | PtInt32 => (fun i => BkInt32 (wrap_i32 i)) <$> value_as_i64 v
  | PtByteArray => BkText <$> value_as_str v
  | PtFloat => (fun f => BkFloat (f64_as_f32 f)) <$> value_as_f64 v
  | PtDouble => BkDouble <$> value_as_f64 v
  | PtOther => None
  end.
Fixpoint check_groups (ty : PhysicalType) (v : Value) (checked : bool) (groups : list BloomSlot) : option bool :=
  match groups with
  | [] => Some (negb checked)
  | NoFilter :: groups => check_groups ty v checked groups
  | Unreadable :: _ => None
  | Filter sbbf :: groups =>
      if match bloom_key ty v with Some k => sbbf_check sbbf k | None => true end then Some true
      else check_groups ty v true groups
  end.
(** [check_bloom_filter] with the columns of the file by name, if its metadata can be read. *)
Definition check_bloom_filter (path : string) (metadata : option (gmap string BloomColumn)) (column : string) (v : Value)
  : option bool :=
  cols ← metadata; col ← cols !! column;
  if decide (path = EmptyString) then Some true else check_groups (bc_type col) v false (bc_groups col).

Lemma check_groups_false ty v checked groups :
  check_groups ty v checked groups = Some false →
  (checked = true ∨ ∃ sbbf, Filter sbbf ∈ groups)
  ∧ ∀ sbbf, Filter sbbf ∈ groups → ∃ k, bloom_key ty v = Some k ∧ sbbf_check sbbf k = false.
Proof.
  revert checked. induction groups as [|[| |sbbf] groups IH]; intros checked; cbn [check_groups].
  - intros [= ->%negb_false_iff]. split; [by left|]. by intros sbbf ?%not_elem_of_nil.
  - intros [Hc Hall]%IH. split; [destruct Hc as [?|[b Hb]]; [by left|right; exists b; by right]|].
    intros b [?|Hb]%elem_of_cons; [done|by apply Hall].
  - done.
  - destruct (bloom_key ty v) as [k|] eqn:Hk; [|done]. destruct (sbbf_check sbbf k) eqn:Hs; [done|].
    intros [_ Hall]%IH. split; [right; exists sbbf; left|].
    intros b [[= ->]|Hb]%elem_of_cons; [by exists k|by apply Hall].
Qed.
End Bloom.
Arguments BloomSlot : clear implicits.
Arguments BloomColumn : clear implicits.
Arguments NoFilter {Sbbf}.
Arguments Unreadable {Sbbf}.

(** ** Filters over several indexed columns *)

Section Composite.
(** The text of a number that is no integer. *)
Context (float_text : float → string).
Definition zero_char : Ascii.ascii := Ascii.ascii_of_nat 0.
(** The text of a value in a composite key. *)
Definition composite_text (v : Value) : string := match value_as_str v with Some s => s | None => json_text float_text v end.
Definition is_point (part : string) (f : QueryFilter) : bool :=
  bool_decide (qf_column f = part) && option_value_eqb (qf_min f) (qf_max f) && qf_min_inclusive f && qf_max_inclusive f
  && bool_decide (is_Some (qf_min f)).
Definition find_point (filters : list QueryFilter) (part : string) : option (nat * QueryFilter) :=
  list_find (fun f => is_point part f = true) filters.
(** The filters at these positions are removed. *)
Definition remove_indices (indices : list nat) (filters : list QueryFilter) : list QueryFilter :=
  omap (fun i => if decide (i ∈ indices) then None else filters !! i) (seq 0 (length filters)).
Definition rewrite_composite (filters : list QueryFilter) (comp_name : string) : list QueryFilter :=
  let parts := split_char comma comp_name in
  match mapM (find_point filters) parts with
  | None => filters
  | Some matched =>
      let val := VString (join_char zero_char (omap (fun m => composite_text <$> qf_min m.2) matched)) in
      remove_indices matched.*1 filters ++ [cmp_filter comp_name (Some val) true (Some val) true None false]
  end.
Definition rewrite_composite_filters (index_files : list IndexFile) (filters : list QueryFilter) : list QueryFilter :=
  foldl rewrite_composite filters (filter (fun n => has_char comma n = true) (if_column_name <$> index_files)).
End Composite.

(** ** Reading a segment *)

Section Read.
Context (root : string) (batches_of : list TableRow → list (list TableRow)).
(** DataFusion's evaluation of a filter on a batch with the given columns, nulls included. *)
Context (evaluate : option (list string) → list TableRow → Expr → option (list (option bool))).
(** What the index lookups use. *)
Context (to_lowercase : string → string) (parse_date : string → option Z) (pow10 : Z → SpecFloat.spec_float).
Context (io : IndexIo) (dio : DeleteIo) (float_text : float → string).
(** The Bloom filters of a file, and what the JSON-path overlay uses. *)
Context {Sbbf : Type} (sbbf_check : Sbbf → BloomKey → bool) (f64_as_f32 : float → float).
Context (metadata : string → option (gmap string (BloomColumn Sbbf))).
Context (from_str : string → option Json) (to_string : Json → string) (jp_decode : bytes → option JsonPathFile).
(** The types of the columns and of literals, and the equality deletes of an entry, applied to a row
    as it is read. *)
Context (field_type : string → option string) (scalar_type : ScalarValue → string).
Context (equality_deleted : ManifestEntry → TableRow → bool).
Notation query := (get_scalar_filter_bitmap to_lowercase parse_date pow10 io dio).

(** The columns that are read. *)
Definition restrict (columns : option (list string)) (r : TableRow) : TableRow :=
  match columns with Some cols => filter (fun kv => kv.1 ∈ cols) r | None => r end.
Definition read_columns (columns : option (list string)) (expr : Expr) : option (list string) :=
  (fun cols => cols ++ elements (find_column_names expr)) <$> columns.

Definition read_reader (entry : ManifestEntry) : IndexReader :=
  let file_path := me_file_path entry in
  let rel_parent := parent_path file_path in
  let full_base_path := if decide (rel_parent = EmptyString) then root else root +:+ "/" +:+ rel_parent in
  let name := default file_path (last (split_char slash file_path)) in
  {| ir_reader :=
       {| hr_config := {| sc_base_path := full_base_path;
                          sc_segment_id := default file_path (strip_suffix parquet_suffix name);
                          sc_parquet_path := Some file_path; sc_delete_files := me_delete_files entry |};
          hr_root_uri := root |};
     ir_index_files := me_index_files entry; ir_record_count := None; ir_file_checksum := None;
     ir_active_snapshot_id := None |}.

(** [read_rows_by_bitmap]: the selected rows, without the equality deletes. *)
Definition read_rows_by_bitmap (w : World TableRow) (r : IndexReader) (bm : gset Z) (columns : option (list string))
  : list (list TableRow) :=
  if decide (bm = ∅) then []
  else
    let rows := default [] (w_data w !! resolve_object_path (ir_reader r)) in
    batches_of (restrict columns <$> apply_selection (bitmap_to_row_selection bm (length rows)) rows).
(** [query_index_first] *)
Definition query_index_first (w : World TableRow) (c : IndexCaches) (r : IndexReader) (f : QueryFilter)
    (columns : option (list string)) : option (list (list TableRow)) * IndexCaches :=
  match query c r f with
  | (Ok (Some bm), c) => (Some (read_rows_by_bitmap w r bm columns), c)
  | (_, c) => (None, c)
  end.
(** The first filter that has an index. *)
Fixpoint first_indexed (w : World TableRow) (c : IndexCaches) (r : IndexReader) (filters : list QueryFilter)
    (columns : option (list string)) : option (list (list TableRow)) * IndexCaches :=
  match filters with
  | [] => (None, c)
  | f :: filters =>
      match query_index_first w c r f columns with
      | (Some batches, c) => (Some batches, c)
      | (None, c) => first_indexed w c r filters columns
      end
  end.
(** A Bloom filter that rules the point of a filter out. *)
Definition bloom_prunes (path : string) (f : QueryFilter) : bool :=
  let absent v := negb (default true (check_bloom_filter sbbf_check f64_as_f32 path (metadata path) (qf_column f) v)) in
  match qf_values f with
  | Some [v] => absent v
  | Some _ => false
  | None =>
      match qf_min f, qf_max f with
      | Some min, Some max => value_eqb min max && absent min
      | _, _ => false
      end
  end.
(** [stream_all] of a segment. *)
Definition stream_segment (w : World TableRow) (entry : ManifestEntry) (columns : option (list string)) : list (list TableRow) :=
  batches_of (filter (fun r => equality_deleted entry r = false) (restrict columns <$> visible_rows w entry)).

(** The rows on which the mask is true; a batch that the filter cannot be evaluated on is kept. *)
Definition filter_batch (read target : option (list string)) (expr : Expr) (batch : list TableRow) : list (list TableRow) :=
  match evaluate read batch expr with
  | Some mask =>
      match omap (fun p => if decide (p.2 = Some true) then Some p.1 else None) (zip batch mask) with
      | [] => []
      | filtered => [restrict target <$> filtered]
      end
  | None => [restrict target <$> batch]
  end.

Definition read_segment_expr (w : World TableRow) (c : IndexCaches) (entry : ManifestEntry) (expr : option Expr)
    (manifest_version : Z) (columns : option (list string)) : list (list TableRow) * IndexCaches :=
  match expr with
  | None => (stream_segment w entry columns, c)
  | Some expr =>
      if decide (manifest_version = 0%Z) then (stream_segment w entry columns, c)
      else
        let reader := read_reader entry in
        let read := read_columns columns expr in
        let expr := coerce_expr_literals field_type scalar_type expr in
        let and_filters := rewrite_composite_filters float_text (me_index_files entry) (extract_and_conditions expr) in
        let finish batches := batches ≫= filter_batch read columns expr in
        match first_indexed w c reader and_filters read with
        | (Some batches, c) => (finish batches, c)
        | (None, c) =>
            match query_json_path io dio jp_decode c reader None (extract_json_path_predicates from_str to_string expr) with
            | (Ok (Some bm), c) => (finish (read_rows_by_bitmap w reader bm read), c)
            | (_, c) =>
                if existsb (bloom_prunes (me_file_path entry)) and_filters then ([], c)
                else (finish (stream_segment w entry read), c)
            end
        end
  end.

(** ** Reading the table *)

(** The data files in the store, by path and size. *)
Definition list_segments_from_store (listing : list (string * Z)) : list ManifestEntry :=
  (fun '(path, size) =>
     {| me_file_path := path; me_file_size_bytes := size; me_record_count := 0; me_file_checksum := None;
        me_index_files := []; me_delete_files := []; me_column_stats := ∅; me_partition_values := ∅;
        me_clustering := Clustering_default; me_first_row_id := None |}) <$>
  filter (fun '(path, _) =>
    (negb (has_char slash path) || str_contains "data/" path) && ends_with parquet_suffix path
    && negb (str_contains ".inv.parquet" path) && negb (str_contains ".hnsw." path) = true) listing.
(** The entries and the version; without a manifest the segments that are found in the store. *)
Definition read_entries (loaded_manifest : option (list ManifestEntry * Z)) (exists_ : bool) (listing : list (string * Z))
    (expr : option Expr) : list ManifestEntry * Z :=
  let '(all_entries, version) :=
    match loaded_manifest with
    | Some (es, v) => (es, v)
    | None => if exists_ then ([], 0%Z) else (list_segments_from_store listing, 0%Z)
    end in
  (if decide (0 < version)%Z then
     match expr with Some _ => (prune_entries all_entries expr None).*1 | None => all_entries end
   else if exists_ then [] else all_entries, version).
Fixpoint read_segments (w : World TableRow) (c : IndexCaches) (entries : list ManifestEntry) (expr : option Expr) (version : Z)
    (columns : option (list string)) : list (list TableRow) * IndexCaches :=
  match entries with
  | [] => ([], c)
  | e :: entries =>
      let '(batches, c) := read_segment_expr w c e expr version columns in
      let '(rest, c) := read_segments w c entries expr version columns in
      (batches ++ rest, c)
  end.
(** The write buffer: a batch is projected before it is filtered, and left out if the filter cannot be
    evaluated on it. *)
Definition read_pending (pending : list (list TableRow)) (expr : option Expr) (columns : option (list string)) : list (list TableRow) :=
  pending ≫= fun batch =>
    let batch := restrict columns <$> batch in
    match expr with
    | None => [batch]
    | Some expr =>
        match evaluate columns batch expr with
        | None => []
        | Some mask =>
            match omap (fun p => if decide (p.2 = Some true) then Some p.1 else None) (zip batch mask) with
            | [] => []
            | filtered => [filtered]
            end
        end
    end.
(** [read_expr_stream_async] without a vector search; the segments are read in any order. *)
Definition read_expr (w : World TableRow) (c : IndexCaches) (order : list ManifestEntry → list ManifestEntry)
    (loaded_manifest : option (list ManifestEntry * Z)) (exists_ : bool) (listing : list (string * Z))
    (pending : list (list TableRow)) (expr : option Expr) (columns : option (list string)) : list (list TableRow) * IndexCaches :=
  let '(entries, version) := read_entries loaded_manifest exists_ listing expr in
  let '(batches, c) := read_segments w c (order entries) expr version columns in
  (batches ++ read_pending pending expr columns, c).
End Read.

(** ** Rows by their positions *)

Section Positions.
Context {A : Type}.

(** The rows of a bitmap, in the order of the file. *)
Lemma bits_rows (bm : gset Z) (rows : list A) :
  (∀ x, x ∈ bm → (0 ≤ x)%Z) →
  omap (fun i => rows !! i) (bits bm) = omap (fun i => if decide (Z.of_nat i ∈ bm) then rows !! i else None) (seq 0 (length rows)).
Proof.
  intros Hpos. pose proof (bits_sorted bm Hpos) as Hs.
  assert (filter (fun i => i < length rows) (bits bm) = filter (fun i => Z.of_nat i ∈ bm) (seq 0 (length rows))) as Heq.
  { assert (StronglySorted lt (filter (fun i => i < length rows) (bits bm))) as Hs'.
    { clear -Hs. induction Hs as [|x l _ IH Hx]; [constructor|]. rewrite filter_cons. case_decide; [|done]. constructor; [done|].
      rewrite Forall_forall in *. intros y [_ Hy]%list_elem_of_filter. auto. }
    apply (StronglySorted_unique_strong lt); [lia|done|apply sorted_filter_seq|]. apply NoDup_Permutation.
    - clear -Hs'. induction Hs' as [|x l _ IH Hx]; constructor; [|done]. rewrite Forall_forall in Hx. intros Hin.
      specialize (Hx x Hin). lia.
    - apply NoDup_filter, NoDup_seq.
    - intros i. unfold bits. rewrite !list_elem_of_filter, elem_of_seq, list_elem_of_fmap.
      setoid_rewrite merge_sort_Permutation. setoid_rewrite elem_of_elements. split.
      + intros [Hi (x & -> & Hx)]. rewrite Z2Nat.id by auto. split; [done|lia].
      + intros [Hx Hi]. split; [lia|]. exists (Z.of_nat i). by rewrite Nat2Z.id. }
  assert (omap (fun i => rows !! i) (bits bm) = omap (fun i => rows !! i) (filter (fun i => i < length rows) (bits bm))) as ->.
  { generalize (bits bm) as l. clear. intros l. induction l as [|i l IH]; [done|]. rewrite filter_cons. csimpl. case_decide as Hi.
    - csimpl. by rewrite IH.
    - rewrite (lookup_ge_None_2 rows i) by lia. done. }
  rewrite Heq. generalize (seq 0 (length rows)) as l. clear. intros l. induction l as [|i l IH]; [done|].
  rewrite filter_cons. csimpl. case_decide; csimpl; by rewrite IH.
Qed.

(** A selection of live rows that has every match gives the matches of the live rows. *)
Lemma selected_matches (P : A → Prop) `{!∀ x, Decision (P x)} (D bm : gset Z) (rows : list A) :
  (∀ x, x ∈ bm → (0 ≤ x)%Z ∧ x ∉ D) →
  (∀ i r, rows !! i = Some r → Z.of_nat i ∉ D → P r → Z.of_nat i ∈ bm) →
  filter P (omap (fun i => rows !! i) (bits bm)) = filter P (visible D rows).
Proof.
  intros Hbm Hall. rewrite bits_rows by (intros x Hx; by apply Hbm). unfold visible.
  generalize (seq 0 (length rows)) as l. intros l. induction l as [|i l IH]; [done|]. csimpl.
  destruct (rows !! i) as [r|] eqn:Hi; [|by repeat case_decide].
  destruct (decide (Z.of_nat i ∈ bm)) as [Hin|Hout].
  - rewrite decide_False by (by apply Hbm). rewrite !filter_cons. case_decide; by rewrite IH.
  - case_decide; [done|]. rewrite filter_cons. case_decide; [|done]. by destruct Hout; eapply Hall.
Qed.
End Positions.

Lemma visible_elem {A} (D : gset Z) (rows : list A) r : r ∈ visible D rows → r ∈ rows.
Proof.
  unfold visible. intros (i & _ & Hi)%list_elem_of_omap. case_decide; [done|]. by apply list_elem_of_lookup_2 in Hi.
Qed.
Lemma mjoin_bind {A B} (l : list A) (f : A → list (list B)) : mjoin (l ≫= f) = l ≫= fun x => mjoin (f x).
Proof. induction l as [|x l IH]; [done|]. csimpl. by rewrite join_app, IH. Qed.

(** ** Points *)

(** What a Bloom filter is asked for is what the condition requires. *)
Lemma value_eqb_cmp v v' c : value_eqb v v' = true → cell_cmp c (cell_of_value v) = cell_cmp c (cell_of_value v').
Proof.
  destruct v as [|b|n|s|s], v' as [|b'|n'|s'|s']; cbn [value_eqb]; try done.
  - by intros ->%eqb_prop.
  - destruct n as [x|x|f], n' as [y|y|g]; cbn [number_eqb]; try done; try (by intros ->%bool_decide_eq_true).
    intros Hf. pose proof (float_eqb_eq _ _ Hf) as [->|[s ->]]; [done|]. destruct f as [s'|[]| |[] m e]; done.
  - by intros ->%bool_decide_eq_true.
Qed.
Lemma point_equals c f min max :
  qf_min f = Some min → qf_max f = Some max → value_eqb min max = true → filter_holds c f = true → equals c min = true.
Proof.
  intros Hmin Hmax Heq Hh. unfold filter_holds in Hh. rewrite Hmin, Hmax in Hh. unfold sat_min, sat_max in Hh.
  rewrite <- (value_eqb_cmp min max c Heq) in Hh. unfold equals. apply bool_decide_eq_true.
  destruct (cell_cmp c (cell_of_value min)) as [[]|]; [done|..]; destruct (qf_min_inclusive f), (qf_max_inclusive f); done.
Qed.

(** ** What a read returns *)

Section ReadSpec.
Context (root : string) (batches_of : list TableRow → list (list TableRow)).
Context (evaluate : option (list string) → list TableRow → Expr → option (list (option bool))).
Context (to_lowercase : string → string) (parse_date : string → option Z) (pow10 : Z → SpecFloat.spec_float).
Context (io : IndexIo) (dio : DeleteIo) (float_text : float → string).
Context {Sbbf : Type} (sbbf_check : Sbbf → BloomKey → bool) (f64_as_f32 : float → float).
Context (metadata : string → option (gmap string (BloomColumn Sbbf))).
Context (from_str : string → option Json) (to_string : Json → string) (jp_decode : bytes → option JsonPathFile).
Context (field_type : string → option string) (scalar_type : ScalarValue → string).
Context (equality_deleted : ManifestEntry → TableRow → bool).
Notation reader := (read_reader root).
Notation query := (get_scalar_filter_bitmap to_lowercase parse_date pow10 io dio).
Notation coerce := (coerce_expr_literals field_type scalar_type).
Notation prunes := (bloom_prunes sbbf_check f64_as_f32 metadata).
Notation stream := (stream_segment batches_of equality_deleted).
Notation read_segment := (read_segment_expr root batches_of evaluate to_lowercase parse_date pow10 io dio float_text
  sbbf_check f64_as_f32 metadata from_str to_string jp_decode field_type scalar_type equality_deleted).

(** The value of a filter on a row: casts, and the leaves that are no comparisons. *)
Context (cast : string → Cell → Cell) (opaque : (string → Cell) → Expr → option bool).
Definition row_value (r : TableRow) (e : Expr) : option bool := eval (row_cell r) cast (opaque (row_cell r)) e.
(** DataFusion evaluates a filter on batches that have its columns; the leaves depend on their
    columns only, and those the overlay answers are the JSON functions. *)
Definition has_columns (columns : option (list string)) (e : Expr) : Prop :=
  ∀ cols, columns = Some cols → ∀ c, c ∈ find_column_names e → c ∈ cols.
Definition evaluates (e : Expr) : Prop :=
  ∀ columns batch, has_columns columns e → evaluate columns batch e = Some ((fun r => row_value r e) <$> batch).
Context (Hreads : ∀ e r r', agree (find_column_names e) r r' → opaque r e = opaque r' e).
Context (Hfunctions : ∀ row e, extract_json_path_predicates from_str to_string e ≠ [] →
  opaque row e = json_leaf from_str to_string row cast e).
Context (Hbatches : ∀ rows, mjoin (batches_of rows) = rows).

(** *** Columns and filtering *)

Lemma restrict_cell columns r c : (∀ cols, columns = Some cols → c ∈ cols) → row_cell (restrict columns r) c = row_cell r c.
Proof.
  intros Hc. unfold row_cell, restrict. destruct columns as [cols|]; [|done]. specialize (Hc cols eq_refl).
  destruct (r !! c) as [x|] eqn:E.
  - by rewrite (map_lookup_filter_Some_2 _ r c x).
  - by rewrite map_lookup_filter, E.
Qed.
Lemma restrict_value columns r e :
  between_free e = true → has_columns columns e → row_value (restrict columns r) e = row_value r e.
Proof.
  intros Hb Hc. apply (referenced_columns_suffice cast opaque Hreads); [done|]. intros c Hin. apply restrict_cell.
  intros cols ->. by eapply Hc.
Qed.
Lemma restrict_twice columns columns' r :
  (∀ cols', columns' = Some cols' → ∃ cols, columns = Some cols ∧ ∀ c, c ∈ cols → c ∈ cols') →
  restrict columns (restrict columns' r) = restrict columns r.
Proof.
  intros Hsub. destruct columns' as [cols'|]; [|done]. destruct (Hsub cols' eq_refl) as (cols & -> & Hin). unfold restrict.
  rewrite map_filter_filter. apply map_filter_ext. intros c x _. cbn. split; [by intros [? _]|]. intros ?. auto.
Qed.

Lemma coerce_columns e : find_column_names (coerce e) = find_column_names e ∧ between_free (coerce e) = between_free e.
Proof.
  induction e as [| |l [Hl Hbl] op q [Hq Hbq]|e [He Hbe]| | |e [He Hbe] ty| | | | |]; cbn; try done.
  assert (∀ l' q', (if is_comparison op then coerce_comparison field_type scalar_type (coerce l) (coerce q) else (coerce l, coerce q)) = (l', q') →
    find_column_names l' ∪ find_column_names q' = find_column_names l ∪ find_column_names q
    ∧ between_free l' && between_free q' = between_free l && between_free q) as H.
  { intros l' q' Hc. rewrite <- Hl, <- Hq, <- Hbl, <- Hbq. destruct (is_comparison op); [|by injection Hc as <- <-].
    unfold coerce_comparison in Hc. destruct (promote _ _ (coerce l) _) as [x|] eqn:H1.
    - injection Hc as <- <-. pose proof (promote_Some _ _ _ _ _ H1) as [ty ->].
      unfold promote in H1. by destruct (coerce l).
    - destruct (promote _ _ (coerce q) _) as [x|] eqn:H2; injection Hc as <- <-; [|done].
      pose proof (promote_Some _ _ _ _ _ H2) as [ty ->]. unfold promote in H2. by destruct (coerce q). }
  destruct (if is_comparison op then _ else _) as [l' q'] eqn:Hc. by apply H.
Qed.
Lemma read_has_columns columns e e' :
  find_column_names e' = find_column_names e → has_columns (read_columns columns e) e'.
Proof.
  intros He cols Hcols c Hc. destruct columns as [cs|]; [|done]. injection Hcols as <-.
  apply elem_of_app. right. by rewrite elem_of_elements, <- He.
Qed.

(** Where a filter can be evaluated a batch is filtered. *)
Lemma masked_rows (batch : list TableRow) (f : TableRow → option bool) :
  omap (fun p => if decide (p.2 = Some true) then Some p.1 else None) (zip batch (f <$> batch))
  = filter (fun r => f r = Some true) batch.
Proof. induction batch as [|r batch IH]; [done|]. csimpl. rewrite filter_cons. case_decide; by rewrite IH. Qed.
Lemma filter_batch_rows read target e batch :
  evaluates e → has_columns read e →
  mjoin (filter_batch evaluate read target e batch) = restrict target <$> filter (fun r => row_value r e = Some true) batch.
Proof.
  intros He Hc. unfold filter_batch. rewrite (He read batch Hc), masked_rows.
  destruct (filter _ batch) as [|r l]; [done|]. csimpl. by rewrite app_nil_r.
Qed.
(** Rows that are read with the columns of the filter, in batches, filtered and projected. *)
Lemma finished_rows columns e e' rows :
  find_column_names e' = find_column_names e → between_free e' = true → evaluates e' →
  let read := read_columns columns e in
  mjoin (batches_of (restrict read <$> rows) ≫= filter_batch evaluate read columns e')
  = restrict columns <$> filter (fun r => row_value r e' = Some true) rows.
Proof.
  intros Hcols Hb He read. pose proof (read_has_columns columns e e' Hcols) as Hread. rewrite mjoin_bind.
  assert (∀ l, l ≫= (fun b => mjoin (filter_batch evaluate read columns e' b))
    = restrict columns <$> filter (fun r => row_value r e' = Some true) (mjoin l)) as ->.
  { intros l. induction l as [|b l IH]; [done|]. csimpl. by rewrite filter_batch_rows, IH, filter_app, fmap_app. }
  rewrite Hbatches. induction rows as [|r rows IH]; [done|]. csimpl. rewrite !filter_cons.
  rewrite (restrict_value read r e' Hb Hread). case_decide; [|done]. csimpl. rewrite IH. f_equal. apply restrict_twice.
  intros cols' Hc. unfold read, read_columns in Hc. destruct columns as [cols|]; [|done]. injection Hc as <-.
  exists cols. split; [done|]. intros c Hin. apply elem_of_app. by left.
Qed.

(** *** Caches *)

Context (sort_to_indices : list (option InvertedIndex.Key) → list nat)
  (hash_iter : gmap InvertedIndex.Key (list Z) → list (InvertedIndex.Key * list Z))
  (registry : string → option (string → list string)) (configs : string → option TextConfig).
Context (Hsort : ∀ array, sort_to_indices array ≡ₚ seq 0 (length array))
  (Hiter : ∀ m, hash_iter m ≡ₚ map_to_list m) (Hidentity : registry "identity" = Some identity_tokens).
Context (known : IndexReader → IndexFile → Prop) (files : string → InvFile) (Hstore : store_lawful io known files).
Context (jknown : IndexReader → IndexFile → Prop) (jfiles : string → JsonPathFile) (Hjson : json_store io jp_decode jknown jfiles).
Context (Hapart : ∀ k, used known k → ¬ json_used jknown k).
Notation indexed := (indexed sort_to_indices hash_iter registry configs known files).

(** The caches hold what the store holds. *)
Definition read_caches (c : IndexCaches) : Prop := caches_ok io known files c ∧ json_coherent jp_decode jknown jfiles c.

Lemma load_inverted_bytes c r idx k :
  k ≠ index_key r idx → ic_byte (load_inverted io c r idx).2 !! k = ic_byte c !! k.
Proof.
  intros Hk. unfold load_inverted, decode_inverted. fold (index_key r idx).
  repeat case_match; simplify_eq/=; try done; by rewrite lookup_insert_ne.
Qed.
Lemma query_caches c r f :
  no_index io r f ∨ (∃ idx, inv_idx_info r (qf_column f) = Some idx ∧ known r idx) → read_caches c → read_caches (query c r f).2.
Proof.
  intros [Hn|(idx & Hi & Hk)] [[Hc Hm] Hj].
  - by rewrite query_no_index.
  - destruct (query_coherent to_lowercase parse_date pow10 io dio known files Hstore c r f idx) as [_ Hc']; [done..|].
    split; [split; [done|by rewrite (query_keeps_bitmaps _ _ _ _ _ _ _ _ idx Hi)]|].
    intros k b Hu. assert (ic_byte (query c r f).2 !! k = ic_byte c !! k) as ->; [|by apply Hj].
    rewrite <- (load_inverted_bytes c r idx k) by (intros ->; eapply Hapart; [by exists r, idx|done]).
    unfold get_scalar_filter_bitmap, matching_bitmap. rewrite Hi.
    destruct (load_inverted io c r idx) as [[[]|] c']; [by destruct (_ && _)|done|done].
Qed.
Lemma overlay_caches c c' : read_caches c → json_coherent jp_decode jknown jfiles c' → caches_bytes jknown c c' → read_caches c'.
Proof.
  intros [[[Hi Hb Ha] Hm] _] Hj (Ei & Ea & Em & Eb). split; [|done]. split; [|by rewrite Em].
  split; [by rewrite Ei, Ea|intros k b Hu; rewrite Eb by (by apply Hapart); by apply Hb|by rewrite Ea].
Qed.

(** *** One segment *)

Section Segment.
Context (w : World TableRow) (e : ManifestEntry) (expr : Expr).
Notation rows := (Merge.rows_of w e).
Notation deleted := (all_deletes dio (ir_reader (reader e))).
Notation conditions := (extract_and_conditions expr).

(** The index of a condition was built from the column, and its keys compare with the literals. *)
Definition condition_indexed (f : QueryFilter) : Prop :=
  ∃ array, indexed (reader e) (qf_column f) array
    ∧ Forall2 (fun k r => row_cell r (qf_column f) = from_option cell_of_key CNull k) (indexed_keys array) rows
    ∧ ∀ i k, indexed_keys array !! i = Some (Some k) → Forall (literal_fits k) (filter_literals f)
        ∧ ∀ b, k = KBool b → option_value_eqb (qf_min f) (qf_max f) = true.
(** If a column has Bloom filters, the value of every row is in one of them. *)
Definition bloom_covers : Prop :=
  ∀ cols c col r v k, metadata (me_file_path e) = Some cols → cols !! c = Some col → r ∈ rows →
    equals (row_cell r c) v = true → bloom_key f64_as_f32 (bc_type col) v = Some k →
    (∃ s, Filter s ∈ bc_groups col) → ∃ s, Filter s ∈ bc_groups col ∧ sbbf_check s k = true.

Record segment_ready : Prop := {
  sr_path : resolve_object_path (ir_reader (reader e)) = me_file_path e;
  sr_deletes : deleted = deleted_rows w e;
  sr_equality r : equality_deleted e r = false;
  sr_no_composite i : i ∈ me_index_files e → has_char comma (if_column_name i) = false;
  sr_covers r : r ∈ rows → entry_covers (row_cell r) e ∧ expr_ok (row_cell r) cast e expr;
  sr_casts r : r ∈ rows → row_value r (coerce expr) = row_value r expr;
  sr_index f : f ∈ conditions → no_index io (reader e) f ∨ condition_indexed f;
  sr_bloom : bloom_covers;
  (** the column of a negated condition has no Bloom filter *)
  sr_bloom_negated f cols col s : f ∈ conditions → qf_negated f = true →
    metadata (me_file_path e) = Some cols → cols !! qf_column f = Some col → Filter s ∉ bc_groups col;
  sr_overlay : ∃ columns paths, json_segment from_str to_string jknown jfiles (reader e) columns paths
    ∧ ∀ i r, rows !! i = Some r → row_at (reader e) columns i (row_cell r) ∧ answerable from_str paths (row_cell r) (coerce expr)
}.
Context (Hready : segment_ready).

(** A selection that leaves out no match. *)
Definition keeps_matches (bm : gset Z) : Prop :=
  (∀ x, x ∈ bm → (0 ≤ x)%Z ∧ x ∉ deleted)
  ∧ ∀ i r, rows !! i = Some r → Z.of_nat i ∉ deleted → row_value r expr = Some true → Z.of_nat i ∈ bm.

Lemma condition_of r f :
  r ∈ rows → row_value r expr = Some true → f ∈ conditions → qf_negated f = false →
  filter_holds (row_cell r (qf_column f)) f = true ∧ row_cell r (qf_column f) ≠ CNull.
Proof.
  intros Hr Hv Hf Hn. destruct (sr_covers Hready r Hr) as [_ Hok].
  destruct (conditions_true (row_cell r) cast (opaque (row_cell r)) e expr f Hok Hv Hf Hn) as (? & ? & _). done.
Qed.
Lemma condition_bitmap c f :
  f ∈ conditions → read_caches c →
  ∃ o c', query c (reader e) f = (Ok o, c') ∧ read_caches c' ∧ ∀ bm, o = Some bm → keeps_matches bm.
Proof.
  intros Hf Hc. pose proof (sr_index Hready f Hf) as Hix.
  assert (no_index io (reader e) f ∨ ∃ idx, inv_idx_info (reader e) (qf_column f) = Some idx ∧ known (reader e) idx) as Hk.
  { destruct Hix as [?|(array & Hi & _)]; [by left|right]. destruct (ix_built _ _ _ _ _ _ _ _ _ Hi) as (st & st' & idx & _ & _ & ? & ? & _).
    by exists idx. }
  pose proof (query_caches c (reader e) f Hk Hc) as Hc'. destruct Hix as [Hn|(array & Hi & Hrows & Hfit)].
  { rewrite query_no_index by (done || apply Hc). by exists None, c. }
  destruct (qf_negated f) eqn:Hneg.
  { destruct Hk as [[Hno _]|(idx & Hidx & Hkn)].
    { destruct (ix_built _ _ _ _ _ _ _ _ _ Hi) as (st & st' & idx & _ & _ & Hsome & _). congruence. }
    destruct (query_coherent to_lowercase parse_date pow10 io dio known files Hstore c (reader e) f idx) as [Hq _]; [apply Hc|done..|].
    destruct (query c (reader e) f) as [res c'] eqn:Hquery. cbn in Hq. subst res. exists None, c'. split_and!; [|done|done].
    f_equal. f_equal. unfold answer. destruct (_ && _); [done|]. unfold finish_bitmap. by rewrite Hneg. }
  destruct (query_built sort_to_indices hash_iter registry configs Hsort Hiter Hidentity to_lowercase parse_date pow10 io dio known files Hstore
    c (reader e) (qf_column f) array f) as (bm & Hq & _ & Hbm); [done|apply Hc|done|done|].
  destruct (query c (reader e) f) as [res c'] eqn:Hquery. cbn in Hq, Hc'. subst res. exists (Some bm), c'. split_and!; [done..|].
  intros ? [= <-]. split.
  - intros x [(i & k & -> & _) Hd]%Hbm. split; [lia|done].
  - intros i r Hr Hd Hv. apply Hbm. split; [|done].
    destruct (condition_of r f (list_elem_of_lookup_2 _ _ _ Hr) Hv Hf Hneg) as [Hh Hnn].
    destruct (Forall2_lookup_r _ _ _ _ _ Hrows Hr) as (o & Ho & Hcell). destruct o as [k|]; [|done].
    exists i, k. split_and!; [done|done|]. destruct (Hfit i k Ho) as [Hl Hb]. rewrite Hcell in Hh.
    by apply key_ok_sound.
Qed.
Lemma first_indexed_rows c fs read :
  (∀ f, f ∈ fs → f ∈ conditions) → read_caches c →
  ∃ o c', first_indexed batches_of to_lowercase parse_date pow10 io dio w c (reader e) fs read = (o, c') ∧ read_caches c'
    ∧ ∀ batches, o = Some batches → ∃ bm, batches = read_rows_by_bitmap batches_of w (reader e) bm read ∧ keeps_matches bm.
Proof.
  revert c. induction fs as [|f fs IH]; intros c Hfs Hc; cbn [first_indexed]; [by exists None, c|].
  destruct (condition_bitmap c f) as (o & c1 & Hq & Hc1 & Hbm); [apply Hfs; left|done|]. unfold query_index_first. rewrite Hq.
  destruct o as [bm|].
  - exists (Some (read_rows_by_bitmap batches_of w (reader e) bm read)), c1. split_and!; [done..|]. intros ? [= <-].
    exists bm. split; [done|]. by apply Hbm.
  - apply IH; [|done]. intros f' Hf'. apply Hfs. by right.
Qed.

(** A column without a filter rules nothing out. *)
Lemma negated_not_pruned f : f ∈ conditions → qf_negated f = true → prunes (me_file_path e) f = false.
Proof.
  intros Hf Hn.
  assert (∀ v, default true (check_bloom_filter sbbf_check f64_as_f32 (me_file_path e)
    (metadata (me_file_path e)) (qf_column f) v) = true) as Hv.
  { intros v. unfold check_bloom_filter. destruct (metadata (me_file_path e)) as [cols|] eqn:Hm; [|done].
    cbn [mbind option_bind]. destruct (cols !! qf_column f) as [col|] eqn:Hcol; [|done].
    cbn [mbind option_bind]. case_decide; [done|].
    destruct (check_groups sbbf_check f64_as_f32 (bc_type col) v false (bc_groups col)) as [[]|] eqn:Hg; try done.
    exfalso. apply check_groups_false in Hg as [[?|[s Hs]] _]; [done|].
    by eapply (sr_bloom_negated Hready f cols col s). }
  unfold bloom_prunes. repeat case_match; rewrite ?Hv, ?andb_false_r; done.
Qed.

(** A Bloom filter rules out only what no row has. *)
Lemma bloom_sound f r :
  prunes (me_file_path e) f = true → f ∈ conditions → r ∈ rows → row_value r expr ≠ Some true.
Proof.
  intros Hp Hf Hr Hv. destruct (qf_negated f) eqn:Hn; [by rewrite (negated_not_pruned f Hf Hn) in Hp|].
  destruct (condition_of r f Hr Hv Hf Hn) as [Hh _].
  assert (∀ v, equals (row_cell r (qf_column f)) v = true →
    default true (check_bloom_filter sbbf_check f64_as_f32 (me_file_path e) (metadata (me_file_path e)) (qf_column f) v) = true) as Hin.
  { intros v Heq. unfold check_bloom_filter. destruct (metadata (me_file_path e)) as [cols|] eqn:Hm; [|done]. cbn [mbind option_bind].
    destruct (cols !! qf_column f) as [col|] eqn:Hcol; [|done]. cbn [mbind option_bind]. case_decide; [done|].
    destruct (check_groups sbbf_check f64_as_f32 (bc_type col) v false (bc_groups col)) as [[]|] eqn:Hg; try done. exfalso.
    apply check_groups_false in Hg as [[?|[s Hs]] Hall]; [done|]. destruct (Hall s Hs) as (k & Hk & _).
    destruct (sr_bloom Hready cols (qf_column f) col r v k) as (s' & Hs' & Hc); [done..|by exists s|].
    destruct (Hall s' Hs') as (k' & Hk' & Hc'). congruence. }
  unfold bloom_prunes in Hp. unfold filter_holds in Hh. destruct (qf_values f) as [[|v [|]]|] eqn:Ev; try done.
  - apply andb_true_iff in Hh as [_ Hh]. cbn in Hh. rewrite orb_false_r in Hh. by rewrite (Hin v Hh) in Hp.
  - destruct (qf_min f) as [min|] eqn:Emin; [|done]. destruct (qf_max f) as [max|] eqn:Emax; [|done].
    apply andb_true_iff in Hp as [Heq Hp]. rewrite Hin in Hp; [done|]. eapply (point_equals _ f min max); [done..|].
    unfold filter_holds. by rewrite Emin, Emax, Ev.
Qed.
Lemma rewrite_none fs : rewrite_composite_filters float_text (me_index_files e) fs = fs.
Proof.
  unfold rewrite_composite_filters. assert (filter (fun n => has_char comma n = true) (if_column_name <$> me_index_files e) = []) as ->; [|done].
  pose proof (sr_no_composite Hready) as Hn. induction (me_index_files e) as [|i l IH]; [done|]. csimpl. rewrite filter_cons.
  rewrite (Hn i) by left. rewrite decide_False by done. apply IH. intros j Hj. apply Hn. by right.
Qed.

(** The matches among the rows that are read. *)
Notation wanted := (filter (fun r => row_value r expr = Some true)).
Lemma coerced_matches (l : list TableRow) : (∀ r, r ∈ l → r ∈ rows) → filter (fun r => row_value r (coerce expr) = Some true) l = wanted l.
Proof.
  induction l as [|r l IH]; intros Hl; [done|]. rewrite !filter_cons, IH by (intros x Hx; apply Hl; by right).
  by rewrite (sr_casts Hready) by (apply Hl; left).
Qed.
Lemma scanned_rows columns :
  between_free expr = true → evaluates (coerce expr) →
  let read := read_columns columns expr in
  mjoin (stream w e read ≫= filter_batch evaluate read columns (coerce expr)) = restrict columns <$> wanted (visible_rows w e).
Proof.
  intros Hb He read. destruct (coerce_columns expr) as [Hcols Hbf]. unfold stream_segment.
  assert (∀ l : list TableRow, filter (fun r => equality_deleted e r = false) l = l) as ->.
  { intros l. induction l as [|r l IH]; [done|]. rewrite filter_cons, decide_True by apply (sr_equality Hready). by rewrite IH. }
  unfold read. rewrite finished_rows by (done || congruence). f_equal. apply coerced_matches. intros r. apply visible_elem.
Qed.
Lemma bitmap_segment_rows bm columns :
  between_free expr = true → evaluates (coerce expr) → keeps_matches bm →
  let read := read_columns columns expr in
  mjoin (read_rows_by_bitmap batches_of w (reader e) bm read ≫= filter_batch evaluate read columns (coerce expr))
  = restrict columns <$> wanted (visible_rows w e).
Proof.
  intros Hb He [Hpos Hall] read. destruct (coerce_columns expr) as [Hcols Hbf]. unfold visible_rows. fold rows.
  rewrite <- (sr_deletes Hready).
  rewrite <- (selected_matches (fun r => row_value r expr = Some true) deleted bm rows) by done.
  rewrite <- coerced_matches by (intros r (i & _ & Hi)%list_elem_of_omap; by apply list_elem_of_lookup_2 in Hi).
  unfold read_rows_by_bitmap. case_decide as Hbm; [subst bm; done|]. rewrite (sr_path Hready). fold rows.
  rewrite row_selection_exact by (intros x Hx; by apply Hpos). unfold read. by rewrite finished_rows by (done || congruence).
Qed.

Lemma segment_rows c version columns :
  version ≠ 0%Z → between_free expr = true → evaluates (coerce expr) → read_caches c →
  ∃ batches c', read_segment w c e (Some expr) version columns = (batches, c') ∧ read_caches c'
    ∧ mjoin batches = restrict columns <$> wanted (visible_rows w e).
Proof.
  intros Hv Hb He Hc. unfold read_segment_expr. rewrite decide_False by done.
  rewrite (proj2 (coerce_keeps_plan field_type scalar_type e expr)), rewrite_none.
  destruct (first_indexed_rows c conditions (read_columns columns expr)) as (o & c1 & -> & Hc1 & Ho); [done..|].
  destruct o as [batches|].
  { destruct (Ho _ eq_refl) as (bm & -> & Hbm). eexists _, c1. split_and!; [done..|]. by apply bitmap_segment_rows. }
  destruct (sr_overlay Hready) as (texts & paths & Hseg & Hrows).
  destruct (overlay_rows from_str to_string cast opaque Hfunctions io dio jp_decode jknown jfiles Hjson (reader e) texts paths Hseg (coerce expr) c1)
    as (o & c2 & -> & Hj2 & Hb2 & Hbm); [apply Hc1|].
  pose proof (overlay_caches c1 c2 Hc1 Hj2 Hb2) as Hc2.
  destruct o as [bm|].
  { eexists _, c2. split_and!; [done..|]. apply bitmap_segment_rows; [done..|]. destruct (Hbm bm eq_refl) as [Hpos Hin]. split; [done|].
    intros i r Hr Hd Hval. destruct (Hrows i r Hr) as [Hat Hans]. apply (Hin i (row_cell r)); try done.
    by rewrite <- (sr_casts Hready r (list_elem_of_lookup_2 _ _ _ Hr)) in Hval. }
  destruct (existsb (prunes (me_file_path e)) conditions) eqn:Hpr.
  - exists [], c2. split_and!; [done..|]. apply existsb_elem_of in Hpr as (f & Hf & Hp).
    assert (wanted (visible_rows w e) = []) as ->; [|done]. apply filter_none.
    intros r Hr%visible_elem. by eapply bloom_sound.
  - eexists _, c2. split_and!; [done..|]. by apply scanned_rows.
Qed.
End Segment.

(** *** The table *)

Notation read := (read_expr root batches_of evaluate to_lowercase parse_date pow10 io dio float_text
  sbbf_check f64_as_f32 metadata from_str to_string jp_decode field_type scalar_type equality_deleted).
Notation read_all := (read_segments root batches_of evaluate to_lowercase parse_date pow10 io dio float_text
  sbbf_check f64_as_f32 metadata from_str to_string jp_decode field_type scalar_type equality_deleted).

(** The rows a filter asks for. *)
Definition asked (expr : option Expr) (r : TableRow) : Prop :=
  match expr with Some e => row_value r e = Some true | None => True end.
#[local] Instance asked_dec expr r : Decision (asked expr r).
Proof. destruct expr; cbn; apply _. Defined.

(** A filter whose columns are read, and a table whose segments can be read with it; without a filter only the deletes count. *)
Definition filter_ready (columns : option (list string)) (expr : option Expr) : Prop :=
  ∀ e, expr = Some e → between_free e = true ∧ evaluates (coerce e) ∧ evaluates e ∧ has_columns columns e.
Record read_ready (w : World TableRow) (expr : option Expr) (entries : list ManifestEntry) : Prop := {
  rr_filter e x : e ∈ entries → expr = Some x → segment_ready w e x;
  rr_plain e r : e ∈ entries → expr = None → equality_deleted e r = false
}.

Lemma entry_rows w c e expr version columns :
  version ≠ 0%Z → filter_ready columns expr → read_ready w expr [e] → read_caches c →
  ∃ batches c', read_segment w c e expr version columns = (batches, c') ∧ read_caches c'
    ∧ mjoin batches = restrict columns <$> filter (asked expr) (visible_rows w e).
Proof.
  intros Hv Hf [Hr Hp] Hc. destruct expr as [x|].
  - destruct (Hf x eq_refl) as (Hb & He & _). apply segment_rows; try done. by apply Hr; [left|].
  - eexists _, c. split_and!; [done|done|]. unfold stream_segment. rewrite Hbatches.
    assert (∀ l : list TableRow, filter (fun r => equality_deleted e r = false) l = l) as ->.
    { intros l. induction l as [|r l IH]; [done|]. rewrite filter_cons, decide_True by (apply Hp; [left|done]). by rewrite IH. }
    f_equal. induction (visible_rows w e) as [|r l IH]; [done|]. rewrite filter_cons, decide_True by done. by rewrite <- IH.
Qed.
Lemma entries_rows w c entries expr version columns :
  version ≠ 0%Z → filter_ready columns expr → read_ready w expr entries → read_caches c →
  ∃ batches c', read_all w c entries expr version columns = (batches, c') ∧ read_caches c'
    ∧ mjoin batches = restrict columns <$> filter (asked expr) (entries ≫= visible_rows w).
Proof.
  intros Hv Hf. revert c. induction entries as [|e entries IH]; intros c [Hr Hp] Hc; cbn [read_segments].
  { by exists [], c. }
  destruct (entry_rows w c e expr version columns) as (b & c1 & -> & Hc1 & Hb); [done|done| |done|].
  { split; intros e' x He'%list_elem_of_singleton; subst e'; [apply Hr|apply Hp]; left. }
  destruct (IH c1) as (bs & c2 & -> & Hc2 & Hbs); [|done|].
  { split; intros e' x He'; [apply Hr|apply Hp]; by right. }
  exists (b ++ bs), c2. split_and!; [done..|]. csimpl. by rewrite join_app, Hb, Hbs, filter_app, fmap_app.
Qed.

(** Pruning skips no segment with a match. *)
Lemma pruned_matches w x entries :
  (∀ e, e ∈ entries → segment_ready w e x) →
  filter (asked (Some x)) ((prune_entries entries (Some x) None).*1 ≫= visible_rows w)
  = filter (asked (Some x)) (entries ≫= visible_rows w).
Proof.
  intros Hr. unfold prune_entries. rewrite <- list_fmap_compose. cbn. rewrite list_fmap_id.
  induction entries as [|e entries IH]; [done|]. rewrite filter_cons.
  assert (∀ e', e' ∈ entries → segment_ready w e' x) as Hr' by (intros e' He'; apply Hr; by right). specialize (IH Hr').
  case_decide as Hm; csimpl; rewrite !filter_app, IH; [done|].
  assert (filter (asked (Some x)) (visible_rows w e) = []) as ->; [|done]. apply filter_none. intros r Hin%visible_elem Hval. apply Hm.
  destruct (sr_covers w e x (Hr e ltac:(left)) r Hin) as [Hcov Hok]. unfold matches.
  by rewrite (might_match_sound (row_cell r) cast (opaque (row_cell r))).
Qed.
Lemma pending_rows pending expr columns :
  filter_ready columns expr →
  mjoin (read_pending evaluate pending expr columns) = restrict columns <$> filter (asked expr) (mjoin pending).
Proof.
  intros Hf. unfold read_pending. rewrite mjoin_bind. induction pending as [|b pending IH]; [done|]. csimpl.
  rewrite IH, filter_app, fmap_app. f_equal. destruct expr as [x|].
  - destruct (Hf x eq_refl) as (Hb & _ & He & Hcols). rewrite (He columns _ Hcols), masked_rows.
    assert (filter (fun r => row_value r x = Some true) (restrict columns <$> b) = restrict columns <$> filter (asked (Some x)) b) as ->.
    { clear IH. induction b as [|r b IH]; [done|]. csimpl. rewrite !filter_cons. rewrite (restrict_value columns r x Hb Hcols).
      case_decide as Hx; [rewrite decide_True by exact Hx; csimpl; by rewrite IH|by rewrite decide_False by exact Hx]. }
    destruct (restrict columns <$> filter _ b); [done|]. csimpl. by rewrite app_nil_r.
  - csimpl. rewrite app_nil_r. f_equal. clear IH. induction b as [|r b IH]; [done|]. rewrite filter_cons, decide_True by done. by rewrite <- IH.
Qed.

End ReadSpec.

(** ** Reads of a small table *)

Module ReadExamples.
Import InvertedExamples.
Open Scope Z_scope.

Definition root : string := "file:///t".
Definition in_batches (rows : list TableRow) : list (list TableRow) := [take 1 rows; drop 1 rows].
(** The columns a filter needs, and an evaluation that fails without them. *)
Fixpoint needs (e : Expr) : list string :=
  match e with
  | EColumn c => [c]
  | EBinary l _ r => needs l ++ needs r
  | ENot e | ECast e _ => needs e
  | EBetween x _ lo hi => needs x ++ needs lo ++ needs hi
  | EScalarFunction _ [x; y] => needs x ++ needs y
  | _ => []
  end.
(** Casts to integers round towards zero. *)
Definition cast (ty : string) (c : Cell) : Cell :=
  match c with
  | CFloat (SpecFloat.S754_finite s m x) => if decide (ty = "Int64") then CInt ((if s then -1 else 1) * (Zpos m / 2 ^ (- x))) else c
  | c => c
  end.
Definition opaque (row : string → Cell) (e : Expr) : option bool :=
  json_leaf JsonPathExamples.parse JsonPathExamples.text row cast e.
Definition evaluate_row (columns : option (list string)) (batch : list TableRow) (e : Expr) : option (list (option bool)) :=
  if match columns with Some cols => forallb (fun c => bool_decide (c ∈ cols)) (needs e) | None => true end
  then Some ((fun r => row_value cast opaque r e) <$> batch) else None.

(** Bloom filters as the sets they stand for. *)
Definition holds (set : list Z) (k : BloomKey) : bool :=
  match k with BkInt64 z => bool_decide (z ∈ set) | _ => true end.
Definition bloom (groups : list (BloomSlot (list Z))) : option (gmap string (BloomColumn (list Z))) :=
  Some {[ "col" := {| bc_type := PtInt64; bc_groups := groups |} ]}.
Definition blooms (path : string) : option (gmap string (BloomColumn (list Z))) :=
  if decide (path = "b.parquet") then bloom [Filter [5]; Filter [6]]
  else if decide (path = "c.parquet") then bloom [Filter [6]; Filter [7]]
  else if decide (path = "d.parquet") then bloom [Filter [6]; NoFilter] else None.
Definition no_floats (f : float) : string := "".
Definition same_float (f : float) : float := f.
Definition untyped (c : string) : option string := None.
Definition literal_type (s : ScalarValue) : string := match s with SInt64 _ => "Int64" | _ => "Other" end.
Definition none_deleted (e : ManifestEntry) (r : TableRow) : bool := false.

Definition row (z : option Z) (name : string) : TableRow := {[ "col" := from_option CInt CNull z; "name" := CString name ]}.
Definition entry := DeleteRowsExamples.entry.
(** A segment with an index, one without, and one whose Bloom filters have no 5. *)
Definition world : World TableRow :=
  {| w_data := {[ "a.parquet" := [row (Some 5) "x"; row None "y"; row (Some 7) "z"; row (Some 5) "u"];
                  "b.parquet" := [row (Some 5) "v"; row (Some 6) "w"];
                  "c.parquet" := [row (Some 6) "s"; row (Some 7) "t"];
                  "d.parquet" := [row (Some 6) "p"; row (Some 5) "q"] ]}; w_dels := ∅ |}.
Definition seg_a : ManifestEntry := entry "a.parquet" 4 [idx].
Definition seg_b : ManifestEntry := entry "b.parquet" 2 [].
Definition seg_c : ManifestEntry := entry "c.parquet" 2 [].
Definition seg_d : ManifestEntry := entry "d.parquet" 2 [].
Definition table (es : list ManifestEntry) : Snapshot :=
  {| sn_entries := list_to_map ((fun e => (me_file_path e, e)) <$> es); sn_deletes := [] |}.
Definition snapshot : Snapshot := table [seg_a; seg_b; seg_c].
Definition pending : list (list TableRow) := [[row (Some 5) "new"; row (Some 8) "other"]].
Definition on_disk : IndexIo := DeleteRowsExamples.on_disk.
Definition no_overlay (b : bytes) : option JsonPathFile := None.

Abbreviation read_with deleted types := (read_expr root in_batches evaluate_row to_ascii_lowercase no_dates pow10 on_disk no_deletes no_floats
  holds same_float blooms JsonPathExamples.parse JsonPathExamples.text no_overlay types literal_type deleted).
(** The names of the rows of a read. *)
Definition names (batches : list (list TableRow)) : list string :=
  omap (fun r : TableRow => match r !! "name" with Some (CString s) => Some s | _ => None end) (mjoin batches).
Definition got (s : Snapshot) (expr : option Expr) (columns : option (list string)) : list string :=
  names (read_with none_deleted untyped world cold reverse (Some (loaded s, 1)) true [] pending expr columns).1.
Definition is_num (z : Z) : Expr := DeleteRowsExamples.is_num z.

Example read5 :
  got snapshot (Some (is_num 5)) None = ["v"; "x"; "u"; "new"]
  ∧ got snapshot (Some (is_num 5)) (Some ["col"; "name"]) = ["v"; "x"; "u"; "new"]
  ∧ length (got snapshot None (Some ["name"])) = 10%nat.
Proof. vm_compute. done. Qed.

(** *** The table is ready for the read *)

Definition known (r : IndexReader) (i : IndexFile) : Prop := r = read_reader root seg_a ∧ i = idx.
Definition no_json (r : IndexReader) (i : IndexFile) : Prop := False.
Definition json_files (k : string) : JsonPathFile := {| jp_entries := []; jp_json_paths := None |}.
Notation ready := (segment_ready root on_disk no_deletes holds same_float blooms JsonPathExamples.parse
  JsonPathExamples.text untyped literal_type none_deleted cast opaque sort_ids map_to_list registered plain_config known number_file no_json json_files
  world).

Lemma snapshot_segments (P : ManifestEntry → Prop) : P seg_a → P seg_b → P seg_c → ∀ e, e ∈ loaded snapshot → P e.
Proof.
  intros Ha Hb Hc. assert (loaded snapshot ≡ₚ [seg_a; seg_b; seg_c]) as Hl by (apply (bool_decide_unpack _); vm_compute; exact I).
  intros e. rewrite Hl. intros [->|[->|[->|[]%not_elem_of_nil]%elem_of_cons]%elem_of_cons]%elem_of_cons; done.
Qed.
Lemma evaluates_num z : evaluates evaluate_row cast opaque (is_num z).
Proof.
  intros columns batch Hc. unfold evaluate_row. destruct columns as [cols|]; [|done]. cbn [needs is_num DeleteRowsExamples.is_num app forallb].
  rewrite bool_decide_true; [done|]. apply (Hc cols eq_refl). cbn. set_solver.
Qed.
Lemma int_equals z v i : equals (CInt z) v = true → value_as_i64 v = Some i → i = z.
Proof.
  intros Heq%bool_decide_eq_true Hi. destruct v as [| |[n|n|f]| |]; try done; cbn in Heq, Hi.
  - apply (inj Some), Z.compare_eq in Heq. subst n. unfold as_i64 in Hi. by case_bool_decide; simplify_eq.
  - apply (inj Some), Z.compare_eq in Heq. by simplify_eq.
Qed.

(** What the three segments share: nothing but the index and the Bloom filters differs. *)
Lemma segment_is_ready e n indexes :
  e = entry (me_file_path e) n indexes → (∀ i, i ∈ indexes → i = idx) →
  resolve_object_path (ir_reader (read_reader root e)) = me_file_path e →
  (∀ f, f ∈ extract_and_conditions (is_num 5) → no_index on_disk (read_reader root e) f ∨
     condition_indexed root sort_ids map_to_list registered plain_config known number_file world e f) →
  bloom_covers holds same_float blooms world e → ready e (is_num 5).
Proof.
  intros He Hidx Hp Hix Hbl. rewrite He in *. split; try done.
  - by intros i ->%Hidx.
  - intros r Hr. split.
    + split; intros c x Hx; cbn in Hx; by rewrite lookup_empty in Hx.
    + split; intros c v Hc Hv; [|done]. cbn in Hc, Hv. simplify_eq. split.
      * split; [by vm_compute|]. intros a b Ha Hb. cbn in Ha, Hb. by simplify_eq.
      * intros _ pv Hpv. cbn in Hpv. by rewrite lookup_empty in Hpv.
  - by intros f cols col s ->%list_elem_of_singleton.
  - exists (fun _ => []), (fun _ => []).
    assert (∀ c, json_idx_info (read_reader root (entry (me_file_path e) n indexes)) c = None) as Hno.
    { intros c. apply fmap_None, list_find_None, Forall_forall. intros i Hi. by rewrite (Hidx i Hi). }
    split; [split|].
    + intros c i Hi. by rewrite Hno in Hi.
    + intros c i Hi. by rewrite Hno in Hi.
    + done.
    + constructor.
    + intros i r _. split; [|done]. intros c x Hx. by rewrite Hno in Hx.
Qed.
Lemma unindexed e f :
  e = seg_b ∨ e = seg_c → f ∈ extract_and_conditions (is_num 5) → no_index on_disk (read_reader root e) f.
Proof.
  intros He ->%list_elem_of_singleton. destruct He as [-> | ->]; (split_and!; [by vm_compute|by vm_compute|]; intros b; by vm_compute).
Qed.
Lemma a_is_ready : ready seg_a (is_num 5).
Proof.
  apply (segment_is_ready seg_a 4 [idx]); [done|by intros i ->%list_elem_of_singleton|by vm_compute| |].
  - intros f ->%list_elem_of_singleton. right. exists numbers. split_and!.
    + split; [vm_compute; congruence|done|vm_compute; reflexivity|].
      destruct (build_inverted_index sort_ids map_to_list registered plain_config no_buffers "col" numbers 0) as [st'|] eqn:Hb.
      * exists no_buffers, st', idx. split_and!; [vm_compute; reflexivity|done|vm_compute; reflexivity|done|].
        unfold number_file, built. cbn [foldl]. cbn [mbind result_bind fst snd]. rewrite Hb.
        apply (f_equal res_ok) in Hb. vm_compute in Hb. apply (inj Some) in Hb as <-. vm_compute. reflexivity.
      * apply (f_equal res_ok) in Hb. vm_compute in Hb. discriminate.
    + vm_compute. repeat constructor.
    + intros i k Hi. assert (∃ z, k = KInt64 z) as [z ->] by (destruct i as [|[|[|[|]]]]; simplify_eq/=; eauto).
      split; [|done]. repeat constructor; by exists 5.
  - intros cols c col r v k Hm. by vm_compute in Hm.
Qed.
Lemma bc_is_ready e : e = seg_b ∨ e = seg_c → ready e (is_num 5).
Proof.
  intros He. apply (segment_is_ready e 2 []); [by destruct He as [-> | ->]|by intros i ?%not_elem_of_nil|by destruct He as [-> | ->]; vm_compute| |].
  - intros f Hf. left. by apply unindexed.
  - intros cols c col r v k Hm Hcol Hr Heq Hk _.
    assert (∀ z n, equals (row_cell (row (Some z) n) "col") v = true → bloom_key same_float PtInt64 v = Some k → k = BkInt64 z) as Hkey.
    { intros z n Hz Hb. cbn [bloom_key] in Hb. destruct (value_as_i64 v) as [i|] eqn:Hi; [|done]. injection Hb as <-. f_equal.
      by eapply int_equals. }
    assert (∃ g, blooms (me_file_path e) = bloom g ∧ (e = seg_b ∧ g = [Filter [5]; Filter [6]] ∨ e = seg_c ∧ g = [Filter [6]; Filter [7]])) as (g & Hg & Hcase)
      by (destruct He as [-> | ->]; eexists; (split; [reflexivity|auto])).
    rewrite Hg in Hm. injection Hm as <-. apply lookup_singleton_Some in Hcol as [<- <-]. clear Hg He.
    destruct Hcase as [[-> ->]|[-> ->]]; apply elem_of_cons in Hr as [->|Hr%list_elem_of_singleton]; subst; apply Hkey in Heq as ->; try exact Hk.
    + exists [5]. split; [left|done].
    + exists [6]. split; [right; left|done].
    + exists [6]. split; [left|done].
    + exists [7]. split; [right; left|done].
Qed.


(** *** Other reads *)

Definition num (z : Z) : Expr := DeleteRowsExamples.num z.
Definition col_op (op : Operator) (z : Z) : Expr := EBinary (EColumn "col") op (num z).
Definition in_range : Expr := EBetween (EColumn "col") false (num 5) (num 5).
(** An index over two columns, and two rows. *)
Definition pair_idx : IndexFile :=
  {| if_format_version := 1; if_index_id := ""; if_index_category := "inverted"; if_algorithm := "inverted";
     if_column_name := "a,b"; if_source_snapshot_id := 0; if_source_data_checksum := ""; if_source_record_count := 0;
     if_index_checksum := None; if_file_path := "p.inv.parquet"; if_blob_type := None; if_blob_offset := None;
     if_blob_length := None; if_compression := "" |}.
Definition pair_key (a b : string) : InvertedIndex.Key := KUtf8 (a +:+ String.String zero_char b).
Definition pair_file : InvFile := {| inv_analyzer := None; inv_entries := [(pair_key "1" "2", [0]); (pair_key "3" "2", [1])] |}.
Definition pair_disk : IndexIo :=
  {| ix_get := fun p => if decide (p = "p.inv.parquet") then Fetched [] else NotFound;
     ix_get_range := fun _ _ _ => None; ix_inverted := fun _ => Some pair_file; ix_bitmap := fun _ => None |}.
Definition pair_row (a b : Z) (name : string) : TableRow := {[ "a" := CInt a; "b" := CInt b; "name" := CString name ]}.
Definition one_and_half : float := SpecFloat.S754_finite false (3 * 2 ^ 51) (-52).
Definition other_world : World TableRow :=
  {| w_data := {[ "p.parquet" := [pair_row 1 2 "first"; pair_row 3 2 "second"];
                  "f.parquet" := [ {[ "col" := CFloat one_and_half; "name" := CString "more than one" ]} ] ]}; w_dels := ∅ |}.
Definition compare (c : string) (op : Operator) (z : Z) : Expr := EBinary (EColumn c) op (num z).
Abbreviation read_from io types w s expr := (names (read_expr root in_batches evaluate_row to_ascii_lowercase no_dates pow10 io no_deletes no_floats
  holds same_float blooms JsonPathExamples.parse JsonPathExamples.text no_overlay types literal_type none_deleted
  w cold reverse (Some (loaded s, 1)) true [] [] expr None).1).
Definition float_col (c : string) : option string := if decide (c = "col") then Some "Float64" else None.
Definition x_deleted (e : ManifestEntry) (r : TableRow) : bool :=
  match row_cell r "name" with CString s => bool_decide (s = "x") | _ => false end.
Definition got_deleted (expr : option Expr) : list string :=
  names (read_with x_deleted untyped world cold reverse (Some (loaded (table [seg_a]), 1)) true [] [] expr None).1.

(** Reads that are not exact.  A Bloom filter without 5 rules out [col != 5], and a filter of one row
    group all groups; [a != 1 AND b = 2] is looked up in an index over both columns as [a = 1]; buffered
    rows are lost when the column of the filter is not asked for; the column of a BETWEEN is not read,
    and rows are returned unfiltered; equality deletes do not apply to rows found by an index; without a
    manifest the filter is ignored; a column of floats is cast to the integer it is compared with. *)
Theorem reads_differ :
  got (table [seg_c]) (Some (col_op OpNotEq 5)) None = ["other"]
  ∧ got (table [seg_d]) (Some (is_num 5)) None = ["new"]
  ∧ read_from pair_disk untyped other_world (table [entry "p.parquet" 2 [pair_idx]])
      (Some (EBinary (compare "a" OpNotEq 1) OpAnd (compare "b" OpEq 2))) = []
  ∧ read_from pair_disk untyped other_world (table [entry "p.parquet" 2 []])
      (Some (EBinary (compare "a" OpNotEq 1) OpAnd (compare "b" OpEq 2))) = ["second"]
  ∧ got snapshot (Some (is_num 5)) (Some ["name"]) = ["v"; "x"; "u"]
  ∧ got (table [seg_b]) (Some in_range) (Some ["name"]) = ["v"; "w"]
  ∧ got_deleted (Some (is_num 5)) = ["x"; "u"] ∧ got_deleted None = ["y"; "z"; "u"]
  ∧ names (read_with none_deleted untyped world cold reverse None false [("b.parquet", 1)] pending (Some (is_num 5)) None).1 = ["v"; "w"; "new"]
  ∧ row_value cast opaque {[ "col" := CFloat one_and_half ]} (col_op OpGt 1) = Some true
  ∧ read_from on_disk float_col other_world (table [entry "f.parquet" 1 []]) (Some (col_op OpGt 1)) = [].
Proof. vm_compute. repeat split. Qed.
End ReadExamples.
