(* ===== verification/MergeInto.v ===== *)
(** * MERGE INTO

    [execute_merge] of [src/src/core/sql/merge_into.rs]: a [MERGE INTO] statement becomes one query
    per [WHEN] clause, the rows of which are handed to the key-based upsert ([Table::merge]) and to
    [Table::delete_async].  Statements are given by their syntax trees and the queries by what they
    select; DataFusion, which runs them, is a parameter with the semantics of SQL as its law.  The
    table is used through the interface [TableApi], which [Merge] and [DeleteRows] implement; its
    operations commit a manifest and then publish it, which can fail on its own. *)

From S2P Require Import Prelude Json ManifestTypes Manifest ManifestStore Deletes Merge Planner PlannerSpec InvertedIndex DeleteRows.
Open Scope nat_scope.

#[export] Instance Cell_eq_dec : EqDecision Cell.
Proof. solve_decision. Defined.
#[export] Instance Cell_countable : Countable Cell.
Proof.
  refine (inj_countable' (fun c => match c with
    | CNull => inl (inl ()) | CBool b => inl (inr b) | CInt z => inr (inl z)
    | CFloat f => inr (inr (inl f)) | CString s => inr (inr (inr s)) end)
    (fun x => match x with
    | inl (inl _) => CNull | inl (inr b) => CBool b | inr (inl z) => CInt z
    | inr (inr (inl f)) => CFloat f | inr (inr (inr s)) => CString s end) _).
  by intros [].
Defined.

(** ** Statements *)

Inductive SqlExpr :=
| SqlCompound (parts : list string)
| SqlBinary (l : SqlExpr) (op : Operator) (r : SqlExpr)
| SqlOther (text : string).

Record Ident := { id_value : string; id_quoted : bool }.
Inductive AssignmentTarget := ColumnName (name : list Ident) | TupleTarget (names : list (list Ident)).
Inductive MergeInsertKind := InsertRow | InsertValues (rows : list (list SqlExpr)).
Record MergeInsertExpr := { ins_columns : list Ident; ins_kind : MergeInsertKind }.
Inductive MergeAction :=
| MergeUpdate (assignments : list (AssignmentTarget * SqlExpr))
| MergeDelete
| MergeInsert (ins : MergeInsertExpr).
Inductive MergeClauseKind := Matched | NotMatched | NotMatchedByTarget | NotMatchedBySource.
#[export] Instance MergeClauseKind_eq_dec : EqDecision MergeClauseKind.
Proof. solve_decision. Defined.
Record MergeClause := { mc_kind : MergeClauseKind; mc_predicate : option SqlExpr; mc_action : MergeAction }.

Inductive TableFactor :=
| FactorTable (name : string) (alias : option string)
| FactorDerived (alias : option string)
| FactorOther.

Inductive merr :=
| NotATable | NotAnEquality | NotTargetAndSource | NoKeys | NoClauses | WrongAction
| InsertRows (n : nat) | InsertWidth (columns values : nat) | QueryFailed | CastFailed | TableFailed.

(** ** Keys *)

Definition dot_char : Ascii.ascii := Ascii.ascii_of_nat 46.
(** [rsplit('.').next()] *)
Definition last_part (name : string) : string := default name (last (split_char dot_char name)).

Definition table_factor_ident (tf : TableFactor) : result merr (string * option string) :=
  match tf with FactorTable name alias => Ok (name, alias) | _ => Err NotATable end.
(** The alias of the source. *)
Definition source_alias_of (source : TableFactor) : string :=
  match source with
  | FactorTable name alias => default (last_part name) alias
  | FactorDerived alias => default "__source" alias
  | FactorOther => "__source"
  end.

Definition qualified_column (e : SqlExpr) (qualifier : string) : option string :=
  match e with
  | SqlCompound [q; column] => if decide (q = qualifier) then Some column else None
  | _ => None
  end.
Fixpoint collect_equi_keys (expr : SqlExpr) (target_ref source_ref : string) (out : list string)
  : result merr (list string) :=
  match expr with
  | SqlBinary l op r =>
      match op with
      | OpAnd =>
          out ← collect_equi_keys l target_ref source_ref out;
          collect_equi_keys r target_ref source_ref out
      | OpEq =>
          match qualified_column l target_ref, qualified_column r source_ref with
          | Some t, Some _ => Ok (out ++ [t])
          | _, _ =>
              match qualified_column r target_ref, qualified_column l source_ref with
              | Some t, Some _ => Ok (out ++ [t])
              | _, _ => Err NotTargetAndSource
              end
          end
      | _ => Err NotAnEquality
      end
  | _ => Err NotAnEquality
  end.
Definition extract_equi_keys (on : SqlExpr) (target_ref source_ref : string) : result merr (list string) :=
  collect_equi_keys on target_ref source_ref [].

(** ** The queries *)

(** A conjunct of a [WHERE]: the predicate of a clause, or its negation. *)
Inductive Cond := Holds (p : option SqlExpr) | HoldsNot (p : option SqlExpr).
Inductive JoinKind := InnerJoin | SourceLeftJoin | TargetLeftJoin.
(** The rows of the left joins are those whose other side has a null in [q_null]. *)
Record Query := { q_select : list SqlExpr; q_join : JoinKind; q_null : string; q_where : list Cond }.

(** [clause_where]: the clause's own predicate, and none of the earlier ones. *)
Definition clause_where (earlier : list MergeClause) (c : MergeClause) : list Cond :=
  Holds (mc_predicate c) :: (HoldsNot ∘ mc_predicate <$> earlier).

(** The text of an identifier has its quotes. *)
Definition quote_char : string := String.String (Ascii.ascii_of_nat 34) EmptyString.
Definition ident_text (i : Ident) : string :=
  if id_quoted i then quote_char +:+ id_value i +:+ quote_char else id_value i.
Definition object_name (name : list Ident) : string := join_char dot_char (ident_text <$> name).
(** The assignments by column; a later one replaces an earlier one. *)
Definition assignment_map (assignments : list (AssignmentTarget * SqlExpr)) : gmap string SqlExpr :=
  foldl (fun m a => match a.1 with ColumnName name => <[last_part (object_name name) := a.2]> m | TupleTarget _ => m end)
    ∅ assignments.

Definition sql_null : SqlExpr := SqlOther "NULL".
Definition matched_select_list (fields : list string) (assignments : list (AssignmentTarget * SqlExpr))
    (target_ref : string) : list SqlExpr :=
  let map := assignment_map assignments in
  (fun name => default (SqlCompound [target_ref; name]) (map !! name)) <$> fields.
Definition insert_select_list (fields : list string) (ins : MergeInsertExpr) (source_fields : list string)
    (source_alias : string) : result merr (list SqlExpr) :=
  match ins_kind ins with
  | InsertRow =>
      Ok ((fun name => if decide (name ∈ source_fields) then SqlCompound [source_alias; name] else sql_null) <$> fields)
  | InsertValues rows =>
      match rows with
      | [row] =>
          let columns := match ins_columns ins with [] => fields | cs => id_value <$> cs end in
          if decide (length columns = length row) then
            let map : gmap string SqlExpr := foldl (fun m p => <[p.1 := p.2]> m) ∅ (zip columns row) in
            Ok ((fun name => default sql_null (map !! name)) <$> fields)
          else Err (InsertWidth (length columns) (length row))
      | _ => Err (InsertRows (length rows))
      end
  end.
Definition key_select_list (keys : list string) (target_ref : string) : list SqlExpr :=
  (fun k => SqlCompound [target_ref; k]) <$> keys.

(** *** What SQL says they select *)

Abbreviation SqlRow := (gmap string Cell).
Definition null_row : SqlRow := ∅.
Definition column (r : SqlRow) (c : string) : Cell := default CNull (r !! c).
Definition cell_bool (c : Cell) : option bool := match c with CBool b => Some b | _ => None end.
Definition of_bool (b : option bool) : Cell := from_option CBool CNull b.

Section Sql.
(** The values of expressions that are not looked into. *)
Context (other : string → SqlRow → SqlRow → Cell) (target_ref source_ref : string).

Fixpoint sql_value (e : SqlExpr) (t s : SqlRow) : Cell :=
  match e with
  | SqlCompound parts =>
      match parts with
      | [q; c] => if decide (q = target_ref) then column t c else if decide (q = source_ref) then column s c else CNull
      | _ => CNull
      end
  | SqlBinary l op r =>
      of_bool match op with
              | OpAnd => and3 (cell_bool (sql_value l t s)) (cell_bool (sql_value r t s))
              | OpOr => or3 (cell_bool (sql_value l t s)) (cell_bool (sql_value r t s))
              | _ => compare3 op (sql_value l t s) (sql_value r t s)
              end
  | SqlOther text => other text t s
  end.
Definition sql_pred (p : option SqlExpr) (t s : SqlRow) : option bool :=
  match p with Some e => cell_bool (sql_value e t s) | None => Some true end.
Definition cond_holds (t s : SqlRow) (c : Cond) : bool :=
  match c with
  | Holds p => bool_decide (sql_pred p t s = Some true)
  | HoldsNot p => bool_decide (sql_pred p t s = Some false)
  end.

Definition on_true (on : SqlExpr) (t s : SqlRow) : Prop := sql_pred (Some on) t s = Some true.
#[local] Instance on_true_dec on t s : Decision (on_true on t s).
Proof. unfold on_true. apply _. Defined.
(** The joined rows; a left join has nulls for a row without a partner. *)
Definition joined (on : SqlExpr) (q : Query) (T S : list SqlRow) : list (SqlRow * SqlRow) :=
  match q_join q with
  | InnerJoin => T ≫= fun t => (fun s => (t, s)) <$> filter (on_true on t) S
  | SourceLeftJoin =>
      filter (fun p => column p.1 (q_null q) = CNull)
        (S ≫= fun s => match filter (fun t => on_true on t s) T with
                       | [] => [(null_row, s)] | ts => (fun t => (t, s)) <$> ts end)
  | TargetLeftJoin =>
      filter (fun p => column p.2 (q_null q) = CNull)
        (T ≫= fun t => match filter (on_true on t) S with
                       | [] => [(t, null_row)] | ss => (fun s => (t, s)) <$> ss end)
  end.
Definition sql_rows (on : SqlExpr) (q : Query) (T S : list SqlRow) : list (list Cell) :=
  (fun p : SqlRow * SqlRow => (fun e => sql_value e p.1 p.2) <$> q_select q)
    <$> filter (fun p => forallb (cond_holds p.1 p.2) (q_where q) = true) (joined on q T S).
End Sql.

(** ** The table *)

(** A filter of a delete: a row is deleted if it has the keys of one of the lists. *)
Abbreviation DeleteFilter := (list (list (string * Cell))).
Definition filter_matches (f : DeleteFilter) (r : SqlRow) : bool :=
  existsb (forallb (fun p => bool_decide (cell_cmp (column r p.1) p.2 = Some Eq))) f.
Definition key_of (keys : list string) (r : SqlRow) : list Cell := column r <$> keys.

(** What the statement needs of the table: an upsert by key and a delete by filter, each of which
    commits a new manifest, or fails and leaves the table as it was, and the publication of what has
    been committed as an Iceberg snapshot, given the operation and the table before and after it. *)
Class TableApi (Tbl : Type) := {
  tbl_rows : Tbl → list SqlRow;
  commit_merge : list string → list SqlRow → Tbl → option Tbl;
  commit_delete : DeleteFilter → Tbl → option Tbl;
  publish_snapshot : string → Tbl → Tbl → bool;
  can_merge : list string → list SqlRow → Tbl → Prop;
  can_delete : DeleteFilter → Tbl → Prop;
  commit_merge_upserts keys rows t : can_merge keys rows t →
    ∃ t', commit_merge keys rows t = Some t'
      ∧ tbl_rows t' ≡ₚ filter (fun r => key_of keys r ∉ key_of keys <$> rows) (tbl_rows t) ++ rows;
  commit_delete_filters f t : can_delete f t →
    ∃ t', commit_delete f t = Some t' ∧ tbl_rows t' ≡ₚ filter (fun r => filter_matches f r = false) (tbl_rows t)
}.

(** The change stays when its publication fails. *)
Definition published {Tbl} `{!TableApi Tbl} (operation : string) (t : Tbl) (committed : option Tbl)
  : result merr () * Tbl :=
  match committed with
  | None => (Err TableFailed, t)
  | Some t' => (if publish_snapshot operation t t' then Ok () else Err TableFailed, t')
  end.
(** [Table::merge] and [Table::delete_async] *)
Definition tbl_merge {Tbl} `{!TableApi Tbl} (keys : list string) (rows : list SqlRow) (t : Tbl) : result merr () * Tbl :=
  published "overwrite" t (commit_merge keys rows t).
Definition tbl_delete {Tbl} `{!TableApi Tbl} (f : DeleteFilter) (t : Tbl) : result merr () * Tbl :=
  published "delete" t (commit_delete f t).

(** ** Executing a statement *)

(** Rows with a null key are left out; without rows there is no filter. *)
Definition build_delete_filter (keys : list string) (rows : list (list Cell)) : option DeleteFilter * nat :=
  let clauses := omap (fun row => if decide (CNull ∈ take (length keys) row) then None else Some (zip keys row)) rows in
  match clauses with [] => (None, 0) | _ => (Some clauses, length clauses) end.

Record MergeStatement := {
  st_target : TableFactor; st_source : TableFactor; st_on : SqlExpr; st_clauses : list MergeClause
}.

Section Execute.
(** The columns of the two tables, Arrow's cast to the type of a column, and DataFusion. *)
Context (fields source_fields : list string) (cast_cell : string → Cell → option Cell).
Context (run_sql : Query → option (list (list Cell))).
Context {Tbl : Type} `{!TableApi Tbl}.

Definition query (q : Query) : result merr (list (list Cell)) :=
  match run_sql q with Some rows => Ok rows | None => Err QueryFailed end.
Definition cast_row (row : list Cell) : result merr SqlRow :=
  if decide (length row = length fields) then
    match mapM (fun p => cast_cell p.1 p.2) (zip fields row) with
    | Some cells => Ok (list_to_map (zip fields cells))
    | None => Err CastFailed
    end
  else Err CastFailed.
Fixpoint cast_to_schema (rows : list (list Cell)) : result merr (list SqlRow) :=
  match rows with
  | [] => Ok []
  | row :: rows => r ← cast_row row; rs ← cast_to_schema rows; Ok (r :: rs)
  end.

(** The rows to upsert, the filters of deletes, and the number of rows affected by them. *)
Record Plan := { pl_upserts : list SqlRow; pl_filters : list DeleteFilter; pl_affected : nat }.
Definition add_upserts (p : Plan) (rows : list SqlRow) : Plan :=
  {| pl_upserts := pl_upserts p ++ rows; pl_filters := pl_filters p; pl_affected := pl_affected p |}.
Definition add_deletes (p : Plan) (d : option DeleteFilter * nat) : Plan :=
  {| pl_upserts := pl_upserts p; pl_filters := pl_filters p ++ option_list d.1; pl_affected := pl_affected p + d.2 |}.

Context (keys : list string) (target_ref source_alias : string).
Definition key0 : string := default EmptyString (head keys).

(** The three loops: what a clause adds to the plan, given the clauses before it. *)
Definition plan_matched (earlier : list MergeClause) (c : MergeClause) (p : Plan) : result merr Plan :=
  match mc_action c with
  | MergeUpdate assignments =>
      rows ← query {| q_select := matched_select_list fields assignments target_ref; q_join := InnerJoin;
                      q_null := key0; q_where := clause_where earlier c |};
      rows ← cast_to_schema rows;
      Ok (add_upserts p rows)
  | MergeDelete =>
      rows ← query {| q_select := key_select_list keys target_ref; q_join := InnerJoin;
                      q_null := key0; q_where := clause_where earlier c |};
      Ok (add_deletes p (build_delete_filter keys rows))
  | MergeInsert _ => Err WrongAction
  end.
Definition plan_not_matched (earlier : list MergeClause) (c : MergeClause) (p : Plan) : result merr Plan :=
  match mc_action c with
  | MergeInsert ins =>
      select ← insert_select_list fields ins source_fields source_alias;
      rows ← query {| q_select := select; q_join := SourceLeftJoin; q_null := key0; q_where := clause_where earlier c |};
      rows ← cast_to_schema rows;
      Ok (add_upserts p rows)
  | _ => Err WrongAction
  end.
Definition plan_by_source (earlier : list MergeClause) (c : MergeClause) (p : Plan) : result merr Plan :=
  match mc_action c with
  | MergeDelete =>
      rows ← query {| q_select := key_select_list keys target_ref; q_join := TargetLeftJoin;
                      q_null := key0; q_where := clause_where earlier c |};
      Ok (add_deletes p (build_delete_filter keys rows))
  | MergeUpdate assignments =>
      rows ← query {| q_select := matched_select_list fields assignments target_ref; q_join := TargetLeftJoin;
                      q_null := key0; q_where := clause_where earlier c |};
      rows ← cast_to_schema rows;
      Ok (add_upserts p rows)
  | MergeInsert _ => Err WrongAction
  end.
Fixpoint plan_clauses (step : list MergeClause → MergeClause → Plan → result merr Plan)
    (earlier group : list MergeClause) (p : Plan) : result merr Plan :=
  match group with
  | [] => Ok p
  | c :: group => p ← step earlier c p; plan_clauses step (earlier ++ [c]) group p
  end.

Definition matched_clauses (cs : list MergeClause) : list MergeClause := filter (fun c => mc_kind c = Matched) cs.
Definition not_matched_clauses (cs : list MergeClause) : list MergeClause :=
  filter (fun c => mc_kind c = NotMatched ∨ mc_kind c = NotMatchedByTarget) cs.
Definition by_source_clauses (cs : list MergeClause) : list MergeClause :=
  filter (fun c => mc_kind c = NotMatchedBySource) cs.
Definition plan_merge (cs : list MergeClause) : result merr Plan :=
  p ← plan_clauses plan_matched [] (matched_clauses cs) {| pl_upserts := []; pl_filters := []; pl_affected := 0 |};
  p ← plan_clauses plan_not_matched [] (not_matched_clauses cs) p;
  plan_clauses plan_by_source [] (by_source_clauses cs) p.

(** The deletes, one after the other; a failed one leaves the ones before it. *)
Fixpoint apply_deletes (filters : list DeleteFilter) (t : Tbl) : result merr () * Tbl :=
  match filters with
  | [] => (Ok (), t)
  | f :: filters => match tbl_delete f t with (Ok _, t) => apply_deletes filters t | (Err e, t) => (Err e, t) end
  end.
(** The upserts, then the deletes. *)
Definition apply_plan (p : Plan) (t : Tbl) : result merr nat * Tbl :=
  let affected := pl_affected p + length (pl_upserts p) in
  match (match pl_upserts p with [] => (Ok (), t) | rows => tbl_merge keys rows t end) with
  | (Err e, t) => (Err e, t)
  | (Ok _, t) =>
      match apply_deletes (pl_filters p) t with
      | (Ok _, t) => (Ok affected, t)
      | (Err e, t) => (Err e, t)
      end
  end.
End Execute.

(** [execute_merge]; the queries see the table as it is before the statement. *)
Definition execute_merge_into {Tbl} `{!TableApi Tbl} (fields source_fields : list string)
    (cast_cell : string → Cell → option Cell) (run_sql : string → string → SqlExpr → list SqlRow → Query → option (list (list Cell)))
    (st : MergeStatement) (t : Tbl) : result merr nat * Tbl :=
  match table_factor_ident (st_target st) with
  | Err e => (Err e, t)
  | Ok (name, alias) =>
      let target_ref := default (last_part name) alias in
      let source_alias := source_alias_of (st_source st) in
      match extract_equi_keys (st_on st) target_ref source_alias with
      | Err e => (Err e, t)
      | Ok [] => (Err NoKeys, t)
      | Ok keys =>
          match matched_clauses (st_clauses st), not_matched_clauses (st_clauses st), by_source_clauses (st_clauses st) with
          | [], [], [] => (Err NoClauses, t)
          | _, _, _ =>
              match plan_merge fields source_fields cast_cell
                      (run_sql target_ref source_alias (st_on st) (tbl_rows t)) keys target_ref source_alias (st_clauses st) with
              | Err e => (Err e, t)
              | Ok p => apply_plan keys p t
              end
          end
      end
  end.

(** ** What a statement means *)

Section Meaning.
Context (other : string → SqlRow → SqlRow → Cell) (target_ref source_ref : string).
Context (fields source_fields keys : list string) (on : SqlExpr) (clauses : list MergeClause).
Context (T S : list SqlRow).
Notation value := (sql_value other target_ref source_ref).
Notation pred := (sql_pred other target_ref source_ref).
Notation on_true := (on_true other target_ref source_ref on).
#[local] Instance on_dec t s : Decision (on_true t s).
Proof. apply on_true_dec. Defined.

(** The action of the first clause whose predicate is true. *)
Fixpoint first_action (cs : list MergeClause) (t s : SqlRow) : option MergeAction :=
  match cs with
  | [] => None
  | c :: cs => if decide (pred (mc_predicate c) t s = Some true) then Some (mc_action c) else first_action cs t s
  end.
Definition select_row (select : list SqlExpr) (t s : SqlRow) : SqlRow :=
  list_to_map (zip fields ((fun e => value e t s) <$> select)).

(** [SET]: a column has the value of the last assignment to it, or the value it had.  The column is
    the last identifier of the assignment's target. *)
Definition target_column (a : AssignmentTarget) : option string :=
  match a with ColumnName name => id_value <$> last name | TupleTarget _ => None end.
Definition assigned (assignments : list (AssignmentTarget * SqlExpr)) (name : string) : option SqlExpr :=
  last (omap (fun a : AssignmentTarget * SqlExpr =>
    if decide (target_column a.1 = Some name) then Some a.2 else None) assignments).
Definition set_row (assignments : list (AssignmentTarget * SqlExpr)) (t s : SqlRow) : SqlRow :=
  list_to_map ((fun name => (name, match assigned assignments name with
                                   | Some e => value e t s
                                   | None => column t name
                                   end)) <$> fields).
(** [INSERT]: a column has the value in its place of the list of columns, or null; [INSERT ROW] takes
    the values of the source's columns with the same names. *)
Definition insert_columns (ins : MergeInsertExpr) : list string :=
  match ins_columns ins with [] => fields | cs => id_value <$> cs end.
Definition insert_value (ins : MergeInsertExpr) (s : SqlRow) (name : string) : Cell :=
  match ins_kind ins with
  | InsertRow => if decide (name ∈ source_fields) then column s name else CNull
  | InsertValues rows =>
      default CNull (i ← fst <$> list_find (fun c => c = name) (insert_columns ins);
                     row ← head rows; e ← row !! i; Some (value e null_row s))
  end.
Definition insert_new_row (ins : MergeInsertExpr) (s : SqlRow) : SqlRow :=
  list_to_map ((fun name => (name, insert_value ins s name)) <$> fields).

(** What happens to a row of the target: the action and the source row of it. *)
Definition row_action (t : SqlRow) : option MergeAction * SqlRow :=
  match filter (on_true t) S with
  | s :: _ => (first_action (matched_clauses clauses) t s, s)
  | [] => (first_action (by_source_clauses clauses) t null_row, null_row)
  end.
Definition updated_rows (t : SqlRow) : list SqlRow :=
  match row_action t with
  | (Some (MergeUpdate assignments), s) => [set_row assignments t s]
  | _ => []
  end.
Definition is_deleted (t : SqlRow) : bool := match (row_action t).1 with Some MergeDelete => true | _ => false end.
Definition is_kept (t : SqlRow) : bool :=
  match (row_action t).1 with Some (MergeUpdate _) | Some MergeDelete => false | _ => true end.
Definition merged_row (t : SqlRow) : list SqlRow := if is_kept t then [t] else updated_rows t.
(** What is inserted for a row of the source. *)
Definition inserted_rows (s : SqlRow) : list SqlRow :=
  match filter (fun t => on_true t s) T with
  | [] =>
      match first_action (not_matched_clauses clauses) null_row s with
      | Some (MergeInsert ins) => [insert_new_row ins s]
      | _ => []
      end
  | _ => []
  end.
(** The table after the statement, and the rows it has changed. *)
Definition merge_result : list SqlRow := (T ≫= merged_row) ++ (S ≫= inserted_rows).
Definition merge_count : nat := length (filter (fun t => is_kept t = false) T) + length (S ≫= inserted_rows).

(** *** One clause *)

Definition unclaimed (earlier : list MergeClause) (p : SqlRow * SqlRow) : Prop :=
  Forall (fun c => pred (mc_predicate c) p.1 p.2 = Some false) earlier.
#[local] Instance unclaimed_dec earlier p : Decision (unclaimed earlier p).
Proof. unfold unclaimed. apply _. Defined.
Definition decided_on (X : list (SqlRow * SqlRow)) (c : MergeClause) : Prop :=
  Forall (fun p => is_Some (pred (mc_predicate c) p.1 p.2)) X.

Lemma clause_where_holds earlier c p :
  forallb (cond_holds other target_ref source_ref p.1 p.2) (clause_where earlier c) = true ↔
  pred (mc_predicate c) p.1 p.2 = Some true ∧ unclaimed earlier p.
Proof.
  unfold clause_where, unclaimed. cbn [forallb cond_holds]. rewrite andb_true_iff, bool_decide_eq_true.
  apply and_iff_compat_l. rewrite forallb_forall, Forall_forall. split.
  - intros H c' Hc'. assert (cond_holds other target_ref source_ref p.1 p.2 (HoldsNot (mc_predicate c')) = true) as Hh.
    { apply H, list_elem_of_In, list_elem_of_fmap. by exists c'. }
    by apply bool_decide_eq_true in Hh.
  - intros H x (c' & -> & Hc')%list_elem_of_In%list_elem_of_fmap. cbn. by apply bool_decide_eq_true, H.
Qed.

Lemma first_action_app earlier c cs p :
  (pred (mc_predicate c) p.1 p.2 = Some true → first_action (c :: cs) p.1 p.2 = Some (mc_action c))
  ∧ (pred (mc_predicate c) p.1 p.2 = Some false → first_action (c :: cs) p.1 p.2 = first_action cs p.1 p.2)
  ∧ (unclaimed (earlier ++ [c]) p ↔ unclaimed earlier p ∧ pred (mc_predicate c) p.1 p.2 = Some false).
Proof.
  cbn [first_action]. unfold unclaimed. rewrite Forall_app, Forall_singleton. split_and!; [| |done].
  - intros ->. by rewrite decide_True.
  - intros ->. by rewrite decide_False.
Qed.

(** Splitting off the rows that the first clause claims. *)
Lemma claim_split {B} (eff : option MergeAction → SqlRow * SqlRow → list B) earlier c cs X :
  decided_on X c → 
  filter (unclaimed earlier) X ≫= (fun p => eff (first_action (c :: cs) p.1 p.2) p) ≡ₚ
  (filter (fun p => pred (mc_predicate c) p.1 p.2 = Some true ∧ unclaimed earlier p) X ≫= eff (Some (mc_action c)))
  ++ (filter (unclaimed (earlier ++ [c])) X ≫= fun p => eff (first_action cs p.1 p.2) p).
Proof.
  intros Hd. induction Hd as [|p X [b Hb] _ IH]; [done|].
  destruct (first_action_app earlier c cs p) as (Ht & Hf & Hu). rewrite !filter_cons.
  destruct (decide (unclaimed earlier p)) as [Hun|Hun].
  - destruct b.
    + rewrite decide_True by done. rewrite decide_False by (rewrite Hu; intros [_ ?]; congruence).
      rewrite !bind_cons, Ht, IH by done. by rewrite app_assoc.
    + rewrite decide_False by (intros [? _]; congruence). rewrite decide_True by (by apply Hu).
      rewrite !bind_cons, Hf, IH by done. solve_Permutation.
  - rewrite decide_False by tauto. rewrite decide_False by (rewrite Hu; tauto). exact IH.
Qed.

(** *** The plan *)

(** DataFusion returns the rows that SQL selects, in any order. *)
Context (cast_cell : string → Cell → option Cell) (run : Query → option (list (list Cell))).
Definition sql_lawful : Prop :=
  ∀ q, ∃ rows, run q = Some rows ∧ rows ≡ₚ sql_rows other target_ref source_ref on q T S.
Context (Hrun : sql_lawful).
Notation values select p := ((fun e => value e p.1 p.2) <$> select).
Notation contexts join := (joined other target_ref source_ref on {| q_select := []; q_join := join; q_null := key0 keys; q_where := [] |} T S).

Lemma query_selects select join earlier c :
  ∃ rows, query run {| q_select := select; q_join := join; q_null := key0 keys; q_where := clause_where earlier c |} = Ok rows
    ∧ rows ≡ₚ (fun p => values select p)
        <$> filter (fun p => pred (mc_predicate c) p.1 p.2 = Some true ∧ unclaimed earlier p) (contexts join).
Proof.
  destruct (Hrun {| q_select := select; q_join := join; q_null := key0 keys; q_where := clause_where earlier c |})
    as (rows & Hq & Hp). exists rows. unfold query. rewrite Hq. split; [done|]. rewrite Hp. unfold sql_rows. cbn [q_select q_where].
  apply Permutation_refl', f_equal. unfold joined. cbn [q_join q_null]. apply list_filter_iff. intros q. apply clause_where_holds.
Qed.

Lemma cast_rows (rows : list (list Cell)) :
  Forall (fun row => length row = length fields ∧ Forall (fun q => cast_cell q.1 q.2 = Some q.2) (zip fields row)) rows →
  cast_to_schema fields cast_cell rows = Ok ((fun row => list_to_map (zip fields row)) <$> rows).
Proof.
  induction 1 as [|row rows [Hlen Hc] _ IH]; [done|]. cbn [cast_to_schema]. unfold cast_row at 1.
  rewrite decide_True by done.
  assert (mapM (fun q => cast_cell q.1 q.2) (zip fields row) = Some row) as ->.
  { clear IH. revert fields Hlen Hc. induction row as [|x row IH]; intros [|f fs] Hlen Hc; try done.
    cbn in Hc. apply Forall_cons in Hc as [Hx Hc]. cbn. cbn in Hx. rewrite Hx. cbn. rewrite (IH fs); [done|by injection Hlen|done]. }
  cbn. by rewrite IH.
Qed.

(** What a clause adds to the plan for one joined row. *)
Definition upserts_of (select_of : MergeAction → option (list SqlExpr)) (a : option MergeAction) (p : SqlRow * SqlRow) : list SqlRow :=
  match a ≫= select_of with Some select => [select_row select p.1 p.2] | None => [] end.
Definition deletes_of_action (a : option MergeAction) (p : SqlRow * SqlRow) : list (list (string * Cell)) :=
  match a with Some MergeDelete => [zip keys (key_of keys p.1)] | _ => [] end.

(** A clause whose values have the types of the columns, or that deletes rows whose keys are not
    null. *)
Record clause_ok (select_of : MergeAction → option (list SqlExpr)) (X : list (SqlRow * SqlRow)) (c : MergeClause) : Prop := {
  ck_decided : decided_on X c;
  ck_action : (∃ select, select_of (mc_action c) = Some select ∧ length select = length fields ∧ mc_action c ≠ MergeDelete
                 ∧ Forall (fun p => Forall (fun q => cast_cell q.1 q.2 = Some q.2) (zip fields (values select p))) X)
              ∨ (mc_action c = MergeDelete ∧ select_of MergeDelete = None ∧ Forall (fun p => CNull ∉ key_of keys p.1) X)
}.
Definition step_ok (step : list MergeClause → MergeClause → Plan → result merr Plan)
    (select_of : MergeAction → option (list SqlExpr)) (X : list (SqlRow * SqlRow)) (ok : MergeClause → Prop) : Prop :=
  ∀ earlier c p, ok c →
  let mine := filter (fun p => pred (mc_predicate c) p.1 p.2 = Some true ∧ unclaimed earlier p) X in
  ∃ p', step earlier c p = Ok p'
    ∧ pl_upserts p' ≡ₚ pl_upserts p ++ (mine ≫= upserts_of select_of (Some (mc_action c)))
    ∧ concat (pl_filters p') ≡ₚ concat (pl_filters p) ++ (mine ≫= deletes_of_action (Some (mc_action c)))
    ∧ pl_affected p' = pl_affected p + length (mine ≫= deletes_of_action (Some (mc_action c))).

Lemma plan_clauses_adds step select_of X ok earlier group p :
  step_ok step select_of X ok → (∀ c, ok c → decided_on X c) → Forall ok group →
  let mine := filter (unclaimed earlier) X in
  ∃ p', plan_clauses step earlier group p = Ok p'
    ∧ pl_upserts p' ≡ₚ pl_upserts p ++ (mine ≫= fun p => upserts_of select_of (first_action group p.1 p.2) p)
    ∧ concat (pl_filters p') ≡ₚ concat (pl_filters p) ++ (mine ≫= fun p => deletes_of_action (first_action group p.1 p.2) p)
    ∧ pl_affected p' = pl_affected p + length (mine ≫= fun p => deletes_of_action (first_action group p.1 p.2) p).
Proof.
  intros Hstep Hok Hgroup. revert earlier p. induction Hgroup as [|c group Hc _ IH]; intros earlier p mine.
  { exists p. cbn [plan_clauses]. assert (∀ B (l : list (SqlRow * SqlRow)), l ≫= (fun _ => []) = ([] : list B)) as Hnil.
    { intros B l. by induction l. }
    unfold upserts_of, deletes_of_action. cbn [first_action mbind option_bind]. by rewrite !Hnil, !app_nil_r, Nat.add_0_r. }
  destruct (Hstep earlier c p Hc) as (p1 & Hp1 & Hu1 & Hd1 & Ha1). destruct (IH (earlier ++ [c]) p1) as (p2 & Hp2 & Hu2 & Hd2 & Ha2).
  exists p2. cbn [plan_clauses]. rewrite Hp1. cbn [mbind result_bind]. split_and!; [done|..].
  - rewrite Hu2, Hu1, <- app_assoc. apply Permutation_app_head. symmetry.
    apply (claim_split (upserts_of select_of) earlier c group X), Hok, Hc.
  - rewrite Hd2, Hd1, <- app_assoc. apply Permutation_app_head. symmetry.
    apply (claim_split deletes_of_action earlier c group X), Hok, Hc.
  - rewrite Ha2, Ha1. unfold mine.
    rewrite (Permutation_length (claim_split deletes_of_action earlier c group X (Hok c Hc))), length_app. lia.
Qed.

Definition update_select (a : MergeAction) : option (list SqlExpr) :=
  match a with MergeUpdate assignments => Some (matched_select_list fields assignments target_ref) | _ => None end.
Definition insert_select (a : MergeAction) : option (list SqlExpr) :=
  match a with MergeInsert ins => res_ok (insert_select_list fields ins source_fields source_ref) | _ => None end.

Lemma key_values p : values (key_select_list keys target_ref) p = key_of keys p.1.
Proof.
  unfold key_select_list, key_of. rewrite <- list_fmap_compose. apply list_fmap_ext. intros i k _. cbn.
  by rewrite decide_True.
Qed.

(** The rows a query selects, cast to the schema. *)
Lemma selected_rows select join earlier c :
  Forall (fun p => Forall (fun q => cast_cell q.1 q.2 = Some q.2) (zip fields (values select p))) (contexts join) →
  length select = length fields →
  ∃ rows, (rows ← query run {| q_select := select; q_join := join; q_null := key0 keys; q_where := clause_where earlier c |};
           cast_to_schema fields cast_cell rows) = Ok rows
    ∧ rows ≡ₚ (fun p => select_row select p.1 p.2)
        <$> filter (fun p => pred (mc_predicate c) p.1 p.2 = Some true ∧ unclaimed earlier p) (contexts join).
Proof.
  intros Hcast Hlen. destruct (query_selects select join earlier c) as (rows & Hq & Hrows).
  exists ((fun row => list_to_map (zip fields row)) <$> rows). rewrite Hq. cbn [mbind result_bind]. split.
  - apply cast_rows. rewrite Hrows. apply Forall_fmap, Forall_forall. intros p [_ Hp]%list_elem_of_filter.
    rewrite Forall_forall in Hcast. split; [by rewrite length_fmap|]. by apply Hcast.
  - by rewrite Hrows, <- list_fmap_compose.
Qed.

(** The filter of a delete. *)
Lemma delete_filter_rows (l : list (SqlRow * SqlRow)) :
  Forall (fun p => CNull ∉ key_of keys p.1) l →
  omap (fun row => if decide (CNull ∈ take (length keys) row) then None else Some (zip keys row))
    ((fun p => values (key_select_list keys target_ref) p) <$> l) = (fun p => zip keys (key_of keys p.1)) <$> l.
Proof.
  induction 1 as [|p l Hp _ IH]; [done|]. rewrite !fmap_cons. cbn [omap list_omap]. rewrite key_values.
  rewrite (take_ge (key_of keys p.1)) by (unfold key_of; by rewrite length_fmap). rewrite decide_False by done. by rewrite IH.
Qed.
Lemma deleted_keys join earlier c :
  Forall (fun p => CNull ∉ key_of keys p.1) (contexts join) →
  let mine := filter (fun p => pred (mc_predicate c) p.1 p.2 = Some true ∧ unclaimed earlier p) (contexts join) in
  ∃ d, (rows ← query run {| q_select := key_select_list keys target_ref; q_join := join; q_null := key0 keys;
                            q_where := clause_where earlier c |};
        Ok (build_delete_filter keys rows)) = (Ok d : result merr _)
    ∧ concat (option_list d.1) ≡ₚ (fun p => zip keys (key_of keys p.1)) <$> mine ∧ d.2 = length mine.
Proof.
  intros Hnull mine. destruct (query_selects (key_select_list keys target_ref) join earlier c) as (rows & Hq & Hrows).
  exists (build_delete_filter keys rows). rewrite Hq. split; [done|]. unfold build_delete_filter.
  set (g := fun row => if decide (CNull ∈ take (length keys) row) then None else Some (zip keys row)).
  assert (omap g rows ≡ₚ (fun p => zip keys (key_of keys p.1)) <$> mine) as Hom.
  { rewrite Hrows. fold mine. unfold g. rewrite delete_filter_rows; [done|]. apply Forall_forall.
    intros p [_ Hp]%list_elem_of_filter. rewrite Forall_forall in Hnull. by apply Hnull. }
  apply Permutation_length in Hom as Hlen. rewrite length_fmap in Hlen.
  destruct (omap g rows) as [|x l]; [by rewrite <- Hom|]. change (concat (option_list (Some (x :: l), length (x :: l)).1)) with ((x :: l) ++ []).
  rewrite app_nil_r. done.
Qed.

Lemma bind_singletons {A B} (f : A → B) (l : list A) : l ≫= (fun x => [f x]) = f <$> l.
Proof. induction l as [|x l IH]; [done|]. rewrite bind_cons, IH. done. Qed.
Lemma bind_nothing {A B} (l : list A) : l ≫= (fun _ => []) = ([] : list B).
Proof. by induction l. Qed.

(** A loop adds rows of its queries to the plan. *)
Lemma upsert_step select_of join c earlier p select :
  clause_ok select_of (contexts join) c → select_of (mc_action c) = Some select → mc_action c ≠ MergeDelete →
  let mine := filter (fun p => pred (mc_predicate c) p.1 p.2 = Some true ∧ unclaimed earlier p) (contexts join) in
  ∃ p', (rows ← query run {| q_select := select; q_join := join; q_null := key0 keys; q_where := clause_where earlier c |};
         rows ← cast_to_schema fields cast_cell rows; Ok (add_upserts p rows)) = Ok p'
    ∧ pl_upserts p' ≡ₚ pl_upserts p ++ (mine ≫= upserts_of select_of (Some (mc_action c)))
    ∧ concat (pl_filters p') ≡ₚ concat (pl_filters p) ++ (mine ≫= deletes_of_action (Some (mc_action c)))
    ∧ pl_affected p' = pl_affected p + length (mine ≫= deletes_of_action (Some (mc_action c))).
Proof.
  intros Hc Hsel Hnd mine. destruct (ck_action _ _ _ Hc) as [(sel & Hs & Hlen & _ & Hcast)|[? _]]; [|done].
  rewrite Hsel in Hs. injection Hs as <-. destruct (selected_rows select join earlier c Hcast Hlen) as (rows & Hq & Hrows).
  destruct (query run _) as [rows0|e]; [|done]. cbn [mbind result_bind] in *. rewrite Hq.
  eexists. split; [done|]. cbn [pl_upserts pl_filters pl_affected add_upserts].
  assert (deletes_of_action (Some (mc_action c)) = fun _ => []) as ->.
  { unfold deletes_of_action. by destruct (mc_action c). }
  rewrite bind_nothing, app_nil_r, Nat.add_0_r. split_and!; [|done|done]. apply Permutation_app_head. rewrite Hrows.
  fold mine. unfold upserts_of. cbn [mbind option_bind]. rewrite Hsel. by rewrite bind_singletons.
Qed.

Lemma delete_step select_of join c earlier p :
  clause_ok select_of (contexts join) c → mc_action c = MergeDelete →
  let mine := filter (fun p => pred (mc_predicate c) p.1 p.2 = Some true ∧ unclaimed earlier p) (contexts join) in
  ∃ p', (rows ← query run {| q_select := key_select_list keys target_ref; q_join := join; q_null := key0 keys;
                             q_where := clause_where earlier c |};
         Ok (add_deletes p (build_delete_filter keys rows))) = Ok p'
    ∧ pl_upserts p' ≡ₚ pl_upserts p ++ (mine ≫= upserts_of select_of (Some (mc_action c)))
    ∧ concat (pl_filters p') ≡ₚ concat (pl_filters p) ++ (mine ≫= deletes_of_action (Some (mc_action c)))
    ∧ pl_affected p' = pl_affected p + length (mine ≫= deletes_of_action (Some (mc_action c))).
Proof.
  intros Hc Ha mine. destruct (ck_action _ _ _ Hc) as [(sel & _ & _ & ? & _)|(_ & Hsel & Hnull)]; [done|].
  destruct (deleted_keys join earlier c Hnull) as (d & Hq & Hd & Hn). fold mine in Hd, Hn.
  destruct (query run _) as [rows0|e]; [|done]. cbn [mbind result_bind] in *. injection Hq as Hq. rewrite Hq.
  eexists. split; [done|]. cbn [pl_upserts pl_filters pl_affected add_deletes]. rewrite Ha.
  unfold upserts_of, deletes_of_action. cbn [mbind option_bind]. rewrite Hsel, bind_nothing, app_nil_r, bind_singletons, length_fmap.
  split_and!; [done| |by rewrite Hn]. by rewrite concat_app, Hd.
Qed.

Lemma plan_matched_ok : step_ok (plan_matched fields cast_cell run keys target_ref) update_select (contexts InnerJoin)
  (clause_ok update_select (contexts InnerJoin)).
Proof.
  intros earlier c p Hc. unfold plan_matched. destruct (mc_action c) as [a| |ins] eqn:Ha; rewrite <- Ha.
  - apply (upsert_step update_select); [done|by rewrite Ha|by rewrite Ha].
  - by apply (delete_step update_select).
  - destruct (ck_action _ _ _ Hc) as [(sel & Hs & _)|[Hd _]]; by rewrite Ha in *.
Qed.
Lemma plan_by_source_ok : step_ok (plan_by_source fields cast_cell run keys target_ref) update_select (contexts TargetLeftJoin)
  (clause_ok update_select (contexts TargetLeftJoin)).
Proof.
  intros earlier c p Hc. unfold plan_by_source. destruct (mc_action c) as [a| |ins] eqn:Ha; rewrite <- Ha.
  - apply (upsert_step update_select); [done|by rewrite Ha|by rewrite Ha].
  - by apply (delete_step update_select).
  - destruct (ck_action _ _ _ Hc) as [(sel & Hs & _)|[Hd _]]; by rewrite Ha in *.
Qed.
Definition insert_ok (c : MergeClause) : Prop :=
  clause_ok insert_select (contexts SourceLeftJoin) c ∧ mc_action c ≠ MergeDelete.
Lemma plan_not_matched_ok :
  step_ok (plan_not_matched fields source_fields cast_cell run keys source_ref) insert_select (contexts SourceLeftJoin) insert_ok.
Proof.
  intros earlier c p [Hc Hno]. unfold plan_not_matched.
  destruct (ck_action _ _ _ Hc) as [(sel & Hs & _)|[? _]]; [|done].
  destruct (mc_action c) as [a| |ins] eqn:Ha; [done|done|]. rewrite <- Ha in *. rewrite Ha in Hs at 1. cbn in Hs.
  destruct (insert_select_list fields ins source_fields source_ref) as [sel'|e] eqn:Hi; [|done]. cbn in Hs. injection Hs as ->.
  cbn [mbind result_bind]. apply (upsert_step insert_select); [done| |done]. rewrite Ha. cbn. by rewrite Hi.
Qed.

(** *** The whole plan *)

(** Assignments to columns that are named without quotes. *)
Definition plain_assignments (assignments : list (AssignmentTarget * SqlExpr)) : Prop :=
  Forall (fun a => ∃ name, a.1 = ColumnName name ∧ name ≠ []
    ∧ Forall (fun i => id_quoted i = false ∧ has_char dot_char (id_value i) = false) name) assignments.

(** A statement that SQL gives a meaning to, on these rows: predicates are never null, a target
    row has at most one source row, keys of the target are unique and comparable, updates keep them,
    inserts bring new ones, rows that match have the first key column, under the name it has in the
    target, not null on both sides; the two tables have different names, and columns are assigned
    without quotes and inserted once.  The literal NULL is null. *)
Record statement_ok : Prop := {
  so_refs : source_ref ≠ target_ref;
  so_null t s : value sql_null t s = CNull;
  so_assignments c assignments : c ∈ clauses → mc_action c = MergeUpdate assignments → plain_assignments assignments;
  so_columns c ins : c ∈ clauses → mc_action c = MergeInsert ins → NoDup (insert_columns ins);
  so_keys t s : t ∈ T → s ∈ S → on_true t s → column t (key0 keys) ≠ CNull ∧ column s (key0 keys) ≠ CNull;
  so_one t : t ∈ T → length (filter (on_true t) S) ≤ 1;
  so_matched : Forall (clause_ok update_select (contexts InnerJoin)) (matched_clauses clauses);
  so_not_matched : Forall insert_ok (not_matched_clauses clauses);
  so_by_source : Forall (clause_ok update_select (contexts TargetLeftJoin)) (by_source_clauses clauses);
  so_unique : NoDup (key_of keys <$> T);
  so_updates t r : t ∈ T → r ∈ updated_rows t → key_of keys r = key_of keys t;
  so_inserts s r : s ∈ S → r ∈ inserted_rows s → key_of keys r ∉ key_of keys <$> T;
  so_compare t r : t ∈ T → r ∈ T ++ (T ≫= updated_rows) ++ (S ≫= inserted_rows) →
    (∀ k, k ∈ keys → cell_cmp (column r k) (column t k) = Some Eq) ↔ key_of keys r = key_of keys t
}.
Context (Hok : statement_ok).

Lemma target_contexts :
  contexts TargetLeftJoin = T ≫= fun t => match filter (on_true t) S with [] => [(t, null_row)] | _ => [] end.
Proof.
  unfold joined. cbn [q_join q_null]. rewrite filter_list_bind. apply Forall_bind_ext, Forall_forall. intros t Ht.
  destruct (filter (on_true t) S) as [|s ss] eqn:Hf; [done|].
  assert (∀ s', s' ∈ s :: ss → column s' (key0 keys) ≠ CNull) as Hnn.
  { intros s' Hs'. rewrite <- Hf in Hs'. apply list_elem_of_filter in Hs' as [Hon Hs']. by apply (so_keys Hok t s'). }
  clear Hf. induction (s :: ss) as [|s' l IH]; [done|]. rewrite fmap_cons, filter_cons_False by (apply Hnn; left).
  apply IH. intros. apply Hnn. by right.
Qed.
Lemma source_contexts :
  contexts SourceLeftJoin = S ≫= fun s => match filter (fun t => on_true t s) T with [] => [(null_row, s)] | _ => [] end.
Proof.
  unfold joined. cbn [q_join q_null]. rewrite filter_list_bind. apply Forall_bind_ext, Forall_forall. intros s Hs.
  destruct (filter (fun t => on_true t s) T) as [|t ts] eqn:Hf; [done|].
  assert (∀ t', t' ∈ t :: ts → column t' (key0 keys) ≠ CNull) as Hnn.
  { intros t' Ht'. rewrite <- Hf in Ht'. apply list_elem_of_filter in Ht' as [Hon Ht']. by apply (so_keys Hok t' s). }
  clear Hf. induction (t :: ts) as [|t' l IH]; [done|]. rewrite fmap_cons, filter_cons_False by (apply Hnn; left).
  apply IH. intros. apply Hnn. by right.
Qed.
Lemma inner_contexts :
  contexts InnerJoin = T ≫= fun t => match filter (on_true t) S with s :: _ => [(t, s)] | [] => [] end.
Proof.
  unfold joined. cbn [q_join]. apply Forall_bind_ext, Forall_forall. intros t Ht.
  pose proof (so_one Hok t Ht) as Hone. change (filter (MergeInto.on_true _ _ _ _ t) S) with (filter (on_true t) S).
  destruct (filter (on_true t) S) as [|s [|s' ss]]; [done|done|]. cbn in Hone. lia.
Qed.

Lemma unclaimed_nil (X : list (SqlRow * SqlRow)) : filter (unclaimed []) X = X.
Proof. induction X as [|x X IH]; [done|]. rewrite filter_cons_True, IH; [done|constructor]. Qed.
Lemma bind_bind_ext {A B C} (f : A → list B) (g : B → list C) (h : A → list C) (l : list A) :
  (∀ x, f x ≫= g = h x) → (l ≫= f) ≫= g = l ≫= h.
Proof. intros Hfg. induction l as [|x l IH]; [done|]. rewrite !bind_cons, bind_app, Hfg, IH. done. Qed.

(** The part of an effect that the clauses of a kind have on a target row. *)
Definition matched_part {B} (eff : option MergeAction → SqlRow * SqlRow → list B) (t : SqlRow) : list B :=
  match filter (on_true t) S with s :: _ => eff (first_action (matched_clauses clauses) t s) (t, s) | [] => [] end.
Definition by_source_part {B} (eff : option MergeAction → SqlRow * SqlRow → list B) (t : SqlRow) : list B :=
  match filter (on_true t) S with [] => eff (first_action (by_source_clauses clauses) t null_row) (t, null_row) | _ => [] end.
Lemma parts {B} (eff : option MergeAction → SqlRow * SqlRow → list B) t :
  matched_part eff t ++ by_source_part eff t = eff (row_action t).1 (t, (row_action t).2).
Proof.
  unfold matched_part, by_source_part, row_action. destruct (filter (on_true t) S); [done|]. cbn. by rewrite app_nil_r.
Qed.

Lemma first_action_elem cs t s a : first_action cs t s = Some a → ∃ c, c ∈ cs ∧ mc_action c = a.
Proof.
  induction cs as [|c cs IH]; cbn [first_action]; [done|]. case_decide.
  - intros [= <-]. exists c. split; [left|done].
  - intros (c' & Hc' & Ha)%IH. exists c'. split; [by right|done].
Qed.
Lemma clauses_of_kind c :
  c ∈ matched_clauses clauses ∨ c ∈ not_matched_clauses clauses ∨ c ∈ by_source_clauses clauses → c ∈ clauses.
Proof. by intros [H|[H|H]]; apply list_elem_of_filter in H as [_ ?]. Qed.

Lemma plain_target name :
  name ≠ [] → Forall (fun i => id_quoted i = false ∧ has_char dot_char (id_value i) = false) name →
  Some (last_part (object_name name)) = id_value <$> last name.
Proof.
  intros Hne Hplain. unfold last_part, object_name.
  assert (ident_text <$> name = id_value <$> name) as ->.
  { apply list_fmap_ext. intros i x Hx. rewrite Forall_forall in Hplain. unfold ident_text.
    by rewrite (proj1 (Hplain x (list_elem_of_lookup_2 _ _ _ Hx))). }
  rewrite split_join, fmap_last; [|by destruct name|].
  - destruct (last name) eqn:Hl; [done|]. by apply last_None in Hl.
  - apply Forall_fmap. eapply Forall_impl; [done|]. by intros i [_ ?].
Qed.

Lemma assignment_map_assigned assignments name :
  plain_assignments assignments → assignment_map assignments !! name = assigned assignments name.
Proof.
  unfold assignment_map, assigned. induction assignments as [|[a e] assignments IH] using rev_ind; [done|].
  intros [Hplain (idents & Ha & Hne & Hi)%Forall_singleton]%Forall_app. cbn in Ha. subst a.
  rewrite foldl_app, omap_app, last_app. cbn [foldl fst snd omap list_omap target_column].
  rewrite <- plain_target by done. case_decide as Hname.
  - injection Hname as ->. by rewrite lookup_insert_eq.
  - rewrite lookup_insert_ne by congruence. cbn. by apply IH.
Qed.

Lemma zip_self {A B} (f : A → B) (l : list A) : zip l (f <$> l) = (fun x => (x, f x)) <$> l.
Proof. induction l as [|x l IH]; [done|]. cbn. by f_equal. Qed.

Lemma set_row_selects assignments t s :
  plain_assignments assignments → select_row (matched_select_list fields assignments target_ref) t s = set_row assignments t s.
Proof.
  intros Hplain. unfold select_row, matched_select_list, set_row. f_equal. rewrite <- list_fmap_compose, zip_self. apply list_fmap_ext. intros i name _. cbn.
  rewrite assignment_map_assigned by done. destruct (assigned assignments name) as [e|]; [done|]. cbn. by rewrite decide_True.
Qed.

Lemma updated_rows_eff t : updated_rows t = upserts_of update_select (row_action t).1 (t, (row_action t).2).
Proof.
  assert (∀ a, (row_action t).1 = Some a → ∃ c, c ∈ clauses ∧ mc_action c = a) as Hin.
  { intros a. unfold row_action. destruct (filter (on_true t) S); intros (c & Hc & Ha)%first_action_elem;
      exists c; (split; [apply clauses_of_kind; tauto|done]). }
  unfold updated_rows, upserts_of. destruct (row_action t) as [[[assignments| |]|] s]; cbn in *; try done.
  destruct (Hin _ eq_refl) as (c & Hc & Ha). by rewrite set_row_selects by (by eapply so_assignments).
Qed.
Lemma deleted_eff t :
  deletes_of_action (row_action t).1 (t, (row_action t).2) = if is_deleted t then [zip keys (key_of keys t)] else [].
Proof. unfold deletes_of_action, is_deleted. by destruct (row_action t) as [[[]|] s]. Qed.
Lemma zip_map_lookup (columns : list string) (row : list SqlExpr) (m : gmap string SqlExpr) name :
  NoDup columns → name ∉ columns ∨ m !! name = None →
  foldl (fun m p => <[p.1 := p.2]> m) m (zip columns row) !! name
  = match list_find (fun c => c = name) columns with Some (i, _) => row !! i | None => m !! name end.
Proof.
  revert row m. induction columns as [|c columns IH]; intros row m Hnd Hm; [done|]. apply NoDup_cons in Hnd as [Hc Hnd].
  destruct row as [|e row]; cbn [zip zip_with foldl list_find].
  { case_decide as Hn; [subst; destruct Hm as [Hm|]; [|done]; by destruct Hm; left|].
    destruct (list_find (fun c => c = name) columns) as [[i x]|] eqn:Hf; [|done]. cbn.
    apply list_find_Some in Hf as (Hi & -> & _). destruct Hm as [Hm|]; [|done]. destruct Hm. right.
    by apply list_elem_of_lookup_2 in Hi. }
  case_decide as Hn.
  - subst. rewrite IH by (done || by left). rewrite (proj2 (list_find_None _ _)); [by rewrite lookup_insert_eq|].
    apply Forall_forall. intros x Hx ->. done.
  - rewrite IH; [|done|].
    + destruct (list_find _ columns) as [[i x]|]; [done|]. cbn. by rewrite lookup_insert_ne.
    + rewrite lookup_insert_ne by done. destruct Hm as [Hm|]; [left; set_solver|by right].
Qed.

Lemma insert_row_selects ins select s :
  NoDup (insert_columns ins) → insert_select_list fields ins source_fields source_ref = Ok select →
  select_row select null_row s = insert_new_row ins s.
Proof.
  intros Hnd. unfold insert_select_list, select_row, insert_new_row, insert_value. fold (insert_columns ins).
  destruct (ins_kind ins) as [|rows].
  - intros [= <-]. f_equal. rewrite <- list_fmap_compose, zip_self.
    apply list_fmap_ext. intros i name _. cbn. case_decide; cbn.
    + rewrite decide_False by apply (so_refs Hok). by rewrite decide_True.
    + by rewrite <- (so_null Hok null_row s).
  - destruct rows as [|row [|]]; [done| |done]. case_decide; [|done]. intros [= <-].
    f_equal. rewrite <- list_fmap_compose, zip_self.
    apply list_fmap_ext. intros i name _. cbn. rewrite zip_map_lookup by (done || right; apply lookup_empty).
    rewrite <- (so_null Hok null_row s). destruct (list_find _ _) as [[j x]|]; [|done]. cbn. by destruct (row !! j).
Qed.

Lemma inserted_rows_eff :
  contexts SourceLeftJoin ≫= (fun p => upserts_of insert_select (first_action (not_matched_clauses clauses) p.1 p.2) p)
  = S ≫= inserted_rows.
Proof.
  rewrite source_contexts. apply bind_bind_ext. intros s. unfold inserted_rows.
  destruct (filter (fun t => on_true t s) T); [|done]. rewrite bind_cons. cbn [mbind list_bind]. rewrite app_nil_r. cbn [fst snd].
  unfold upserts_of. destruct (first_action _ null_row s) as [[| |ins]|] eqn:Ha; [done|done| |done]. cbn.
  apply first_action_elem in Ha as (c & Hc & Ha).
  pose proof (so_not_matched Hok) as Hn. rewrite Forall_forall in Hn. destruct (Hn c Hc) as [[_ Hck] _].
  assert (c ∈ clauses) as Hin by (apply clauses_of_kind; tauto).
  destruct Hck as [(select & Hs & _)|[? _]]; [|congruence]. rewrite Ha in Hs. cbn in Hs.
  destruct (insert_select_list fields ins source_fields source_ref) as [select'|] eqn:Hsel; [|done].
  f_equal. eapply insert_row_selects; [|done]. by eapply so_columns.
Qed.

Lemma source_no_deletes :
  contexts SourceLeftJoin ≫= (fun p => deletes_of_action (first_action (not_matched_clauses clauses) p.1 p.2) p) = [].
Proof.
  assert (∀ p, first_action (not_matched_clauses clauses) p.1 p.2 ≠ Some MergeDelete) as Hno.
  { intros p. induction (so_not_matched Hok) as [|c cs [_ Hc] _ IH]; [done|]. cbn. case_decide; [|done]. congruence. }
  rewrite (Forall_bind_ext _ (fun _ => [])); [apply bind_nothing|]. apply Forall_forall. intros p _. unfold deletes_of_action.
  specialize (Hno p). by destruct (first_action _ p.1 p.2) as [[]|].
Qed.

Lemma plan_of_statement :
  ∃ p, plan_merge fields source_fields cast_cell run keys target_ref source_ref clauses = Ok p
    ∧ pl_upserts p ≡ₚ (T ≫= updated_rows) ++ (S ≫= inserted_rows)
    ∧ concat (pl_filters p) ≡ₚ T ≫= (fun t => if is_deleted t then [zip keys (key_of keys t)] else [])
    ∧ pl_affected p = length (T ≫= fun t => if is_deleted t then [zip keys (key_of keys t)] else []).
Proof.
  unfold plan_merge. set (p0 := {| pl_upserts := []; pl_filters := []; pl_affected := 0 |}).
  destruct (plan_clauses_adds _ _ _ _ [] (matched_clauses clauses) p0 plan_matched_ok (fun c H => ck_decided _ _ _ H) (so_matched Hok))
    as (p1 & -> & Hu1 & Hd1 & Ha1). cbn [mbind result_bind].
  destruct (plan_clauses_adds _ _ _ _ [] (not_matched_clauses clauses) p1 plan_not_matched_ok (fun c H => ck_decided _ _ _ (proj1 H)) (so_not_matched Hok))
    as (p2 & -> & Hu2 & Hd2 & Ha2). cbn [mbind result_bind].
  destruct (plan_clauses_adds _ _ _ _ [] (by_source_clauses clauses) p2 plan_by_source_ok (fun c H => ck_decided _ _ _ H) (so_by_source Hok))
    as (p3 & -> & Hu3 & Hd3 & Ha3).
  exists p3. rewrite !unclaimed_nil in *. rewrite source_no_deletes in *. rewrite inserted_rows_eff in Hu2.
  assert (∀ B (eff : option MergeAction → SqlRow * SqlRow → list B),
    contexts InnerJoin ≫= (fun p => eff (first_action (matched_clauses clauses) p.1 p.2) p) = T ≫= matched_part eff) as Hm.
  { intros B eff. rewrite inner_contexts. apply bind_bind_ext. intros t. unfold matched_part.
    destruct (filter (on_true t) S) as [|s ss]; [done|]. cbn. by rewrite app_nil_r. }
  assert (∀ B (eff : option MergeAction → SqlRow * SqlRow → list B),
    contexts TargetLeftJoin ≫= (fun p => eff (first_action (by_source_clauses clauses) p.1 p.2) p) = T ≫= by_source_part eff) as Hb.
  { intros B eff. rewrite target_contexts. apply bind_bind_ext. intros t. unfold by_source_part.
    destruct (filter (on_true t) S) as [|s ss]; [|done]. cbn. by rewrite app_nil_r. }
  rewrite Hm in *. rewrite Hb in *.
  assert (∀ B (eff : option MergeAction → SqlRow * SqlRow → list B) (h : SqlRow → list B),
    (∀ t, eff (row_action t).1 (t, (row_action t).2) = h t) →
    (T ≫= matched_part eff) ++ (T ≫= by_source_part eff) ≡ₚ T ≫= h) as Hparts.
  { intros B eff h Hh. rewrite <- bind_app_split. apply Permutation_refl', Forall_bind_ext, Forall_forall. intros t _. by rewrite parts. }
  cbn [pl_upserts pl_filters pl_affected p0 concat app] in *. split_and!; [done|..].
  - rewrite Hu3, Hu2, Hu1, <- (Hparts _ _ updated_rows (fun t => eq_sym (updated_rows_eff t))). solve_Permutation.
  - rewrite Hd3, Hd2, Hd1, app_nil_r. by rewrite <- (Hparts _ _ _ deleted_eff).
  - rewrite Ha3, Ha2, Ha1, <- (Permutation_length (Hparts _ _ _ deleted_eff)), length_app. cbn. lia.
Qed.

(** *** The result *)

Lemma kept_parts t :
  merged_row t = (if is_kept t then [t] else []) ++ updated_rows t
  ∧ (is_kept t = false ↔ is_deleted t = true ∨ updated_rows t ≠ []) ∧ (is_deleted t = true → updated_rows t = [])
  ∧ length (if is_deleted t then [zip keys (key_of keys t)] else []) + length (updated_rows t) = (if is_kept t then 0 else 1).
Proof. unfold merged_row, is_kept, is_deleted, updated_rows. destruct (row_action t) as [[[]|] s]; cbn; naive_solver. Qed.

Lemma key_zip r t :
  forallb (fun p => bool_decide (cell_cmp (column r p.1) p.2 = Some Eq)) (zip keys (key_of keys t)) = true ↔
  ∀ k, k ∈ keys → cell_cmp (column r k) (column t k) = Some Eq.
Proof.
  unfold key_of. induction keys as [|k ks IH]; [set_solver|]. cbn. rewrite andb_true_iff, bool_decide_eq_true, IH. set_solver.
Qed.

(** A row is deleted if it has the key of a target row that is to be deleted. *)
Lemma deleted_by (D : DeleteFilter) r :
  D ≡ₚ T ≫= (fun t => if is_deleted t then [zip keys (key_of keys t)] else []) →
  r ∈ T ++ (T ≫= updated_rows) ++ (S ≫= inserted_rows) →
  filter_matches D r = true ↔ ∃ t, t ∈ T ∧ is_deleted t = true ∧ key_of keys r = key_of keys t.
Proof.
  intros HD Hr. unfold filter_matches. rewrite existsb_exists. setoid_rewrite <- list_elem_of_In. setoid_rewrite HD.
  setoid_rewrite list_elem_of_bind. split.
  - intros (x & (t & Hx & Ht) & Hf). exists t. destruct (is_deleted t); [|by apply not_elem_of_nil in Hx].
    apply list_elem_of_singleton in Hx as ->. split_and!; [done|done|]. by apply (so_compare Hok), key_zip.
  - intros (t & Ht & Hd & Hk). exists (zip keys (key_of keys t)). split; [exists t; rewrite Hd; set_solver|].
    by apply key_zip, (so_compare Hok).
Qed.

Lemma same_key t t' : t ∈ T → t' ∈ T → key_of keys t = key_of keys t' → t = t'.
Proof.
  intros [i Hi]%list_elem_of_lookup [j Hj]%list_elem_of_lookup Hk.
  assert (i = j) as ->; [|congruence]. eapply (NoDup_lookup _ _ _ (key_of keys t) (so_unique Hok)); rewrite list_lookup_fmap.
  - by rewrite Hi.
  - rewrite Hj. cbn. by rewrite Hk.
Qed.

Lemma deletes_targets (D : DeleteFilter) t :
  D ≡ₚ T ≫= (fun t => if is_deleted t then [zip keys (key_of keys t)] else []) → t ∈ T →
  filter_matches D t = true ↔ is_deleted t = true.
Proof.
  intros HD Ht. rewrite (deleted_by D t HD) by set_solver. split; [|by exists t].
  intros (t' & Ht' & Hd & Hk). by rewrite (same_key t t').
Qed.
Lemma deletes_spare_upserts (D : DeleteFilter) r :
  D ≡ₚ T ≫= (fun t => if is_deleted t then [zip keys (key_of keys t)] else []) →
  r ∈ (T ≫= updated_rows) ++ (S ≫= inserted_rows) → filter_matches D r = false.
Proof.
  intros HD Hr. apply not_true_iff_false. rewrite (deleted_by D r HD) by set_solver. intros (t & Ht & Hd & Hk).
  apply elem_of_app in Hr as [(t' & Hr & Ht')%list_elem_of_bind|(s & Hr & Hs)%list_elem_of_bind].
  - rewrite (so_updates Hok t' r) in Hk by done. rewrite (same_key t' t) in Hr by done.
    destruct (kept_parts t) as (_ & _ & Hup & _). rewrite (Hup Hd) in Hr. by apply not_elem_of_nil in Hr.
  - apply (so_inserts Hok s r Hs Hr). rewrite Hk. by apply list_elem_of_fmap_2.
Qed.
(** The upsert replaces the target rows that have been updated, and no other. *)
Lemma upserted_keys (U : list SqlRow) t :
  U ≡ₚ (T ≫= updated_rows) ++ (S ≫= inserted_rows) → t ∈ T →
  key_of keys t ∉ key_of keys <$> U ↔ updated_rows t = [].
Proof.
  intros HU Ht. rewrite HU, fmap_app, not_elem_of_app. split.
  - intros [Hu _]. destruct (updated_rows t) as [|r l] eqn:Hr; [done|]. exfalso. apply Hu. apply list_elem_of_fmap.
    exists r. split; [|apply list_elem_of_bind; exists t; split; [rewrite Hr; left|done]].
    symmetry. apply (so_updates Hok t r Ht). rewrite Hr. left.
  - intros Hr. split.
    + intros (r & Hk & (t' & Hr' & Ht')%list_elem_of_bind)%list_elem_of_fmap. rewrite (so_updates Hok t' r) in Hk by done.
      rewrite <- (same_key t t') in Hr' by done. rewrite Hr in Hr'. by apply not_elem_of_nil in Hr'.
    + intros (r & Hk & (s & Hs & Hin)%list_elem_of_bind)%list_elem_of_fmap. apply (so_inserts Hok s r Hin Hs).
      rewrite <- Hk. by apply list_elem_of_fmap_2.
Qed.

Lemma kept_iff t : is_kept t = true ↔ is_deleted t = false ∧ updated_rows t = [].
Proof. unfold is_kept, is_deleted, updated_rows. destruct (row_action t) as [[[]|] s]; cbn; naive_solver. Qed.
Lemma filter_decided {A} (P : A → Prop) `{∀ x, Decision (P x)} (f : A → bool) (l : list A) :
  (∀ x, x ∈ l → P x ↔ f x = true) → filter P l = l ≫= (fun x => if f x then [x] else []).
Proof.
  induction l as [|x l IH]; intros Hf; [done|]. rewrite bind_cons, filter_cons, IH by (intros; apply Hf; by right).
  specialize (Hf x ltac:(left)). case_decide; destruct (f x); naive_solver.
Qed.

Lemma upserted_then_deleted (U : list SqlRow) (D : DeleteFilter) :
  U ≡ₚ (T ≫= updated_rows) ++ (S ≫= inserted_rows) →
  D ≡ₚ T ≫= (fun t => if is_deleted t then [zip keys (key_of keys t)] else []) →
  filter (fun r => filter_matches D r = false) (filter (fun r => key_of keys r ∉ key_of keys <$> U) T ++ U) ≡ₚ merge_result.
Proof.
  intros HU HD. rewrite filter_app, list_filter_filter.
  rewrite (filter_decided _ is_kept).
  2: { intros t Ht. rewrite kept_iff, <- (upserted_keys U t HU Ht), <- !not_true_iff_false, (deletes_targets D t HD Ht). tauto. }
  rewrite (filter_decided _ (fun _ => true) U) by (intros r Hr; rewrite HU in Hr; by rewrite (deletes_spare_upserts D r HD Hr)).
  rewrite bind_singletons, list_fmap_id, HU. unfold merge_result. rewrite app_assoc. apply Permutation_app_tail.
  rewrite <- bind_app_split. apply Permutation_refl', Forall_bind_ext, Forall_forall. intros t _. symmetry. apply kept_parts.
Qed.

(** Every changed row is counted once. *)
Lemma counted (U : list SqlRow) :
  U ≡ₚ (T ≫= updated_rows) ++ (S ≫= inserted_rows) →
  length (T ≫= (fun t => if is_deleted t then [zip keys (key_of keys t)] else [])) + length U = merge_count.
Proof.
  intros HU. rewrite HU, length_app. unfold merge_count. rewrite Nat.add_assoc. f_equal. clear.
  induction T as [|t l IH]; [done|]. rewrite !bind_cons, !length_app, filter_cons.
  pose proof (kept_parts t) as (_ & _ & _ & Hn). destruct (is_kept t); cbn [decide]; case_decide; cbn [length]; try done; lia.
Qed.
End Meaning.

(** ** Applying the plan *)

Section Apply.
Context {Tbl : Type} `{!TableApi Tbl}.

Fixpoint can_deletes (filters : list DeleteFilter) (t : Tbl) : Prop :=
  match filters with
  | [] => True
  | f :: filters => can_delete f t
      ∧ ∀ t', commit_delete f t = Some t' → publish_snapshot "delete" t t' = true ∧ can_deletes filters t'
  end.
(** The table takes the upsert and, after it, the deletes, and publishes each of them. *)
Definition apply_ready (keys : list string) (p : Plan) (t : Tbl) : Prop :=
  match pl_upserts p with
  | [] => can_deletes (pl_filters p) t
  | rows => can_merge keys rows t
      ∧ ∀ t', commit_merge keys rows t = Some t' → publish_snapshot "overwrite" t t' = true ∧ can_deletes (pl_filters p) t'
  end.

Lemma filter_matches_app f g r : filter_matches (f ++ g) r = filter_matches f r || filter_matches g r.
Proof. apply existsb_app. Qed.
Lemma apply_deletes_filters filters (t : Tbl) :
  can_deletes filters t →
  ∃ t', apply_deletes filters t = (Ok (), t') ∧ tbl_rows t' ≡ₚ filter (fun r => filter_matches (concat filters) r = false) (tbl_rows t).
Proof.
  revert t. induction filters as [|f filters IH]; intros t.
  { intros _. exists t. split; [done|]. by rewrite (filter_decided _ (fun _ => true)), bind_singletons, list_fmap_id. }
  intros [Hf Hfs]. destruct (commit_delete_filters f t Hf) as (t1 & Ht1 & Hr1).
  destruct (Hfs t1 Ht1) as [Hp Hfs1]. destruct (IH t1 Hfs1) as (t2 & Ht2 & Hr2).
  exists t2. cbn [apply_deletes]. unfold tbl_delete. rewrite Ht1. cbn [published]. rewrite Hp. split; [done|]. rewrite Hr2, Hr1, list_filter_filter. apply Permutation_refl'.
  apply list_filter_iff. intros r. cbn [concat]. rewrite filter_matches_app, orb_false_iff. tauto.
Qed.

Lemma apply_plan_rows keys p (t : Tbl) :
  apply_ready keys p t →
  ∃ t', apply_plan keys p t = (Ok (pl_affected p + length (pl_upserts p)), t')
    ∧ tbl_rows t' ≡ₚ filter (fun r => filter_matches (concat (pl_filters p)) r = false)
        (filter (fun r => key_of keys r ∉ key_of keys <$> pl_upserts p) (tbl_rows t) ++ pl_upserts p).
Proof.
  unfold apply_ready, apply_plan. destruct (pl_upserts p) as [|u us].
  - intros (t' & -> & Hr)%apply_deletes_filters. exists t'. split; [done|]. rewrite Hr, app_nil_r. apply Permutation_refl'. f_equal.
    rewrite (filter_decided _ (fun _ => true)), bind_singletons, list_fmap_id; [done|]. intros r _. split; [done|]. set_solver.
  - intros [Hm Hd]. destruct (commit_merge_upserts keys (u :: us) t Hm) as (t1 & Ht1 & Hr1).
    destruct (Hd t1 Ht1) as [Hp Hd1]. unfold tbl_merge. rewrite Ht1. cbn [published]. rewrite Hp.
    destruct (apply_deletes_filters _ _ Hd1) as (t2 & -> & Hr2). exists t2. split; [done|]. by rewrite Hr2, Hr1.
Qed.

Lemma some_clause (cs : list MergeClause) :
  cs ≠ [] → matched_clauses cs ≠ [] ∨ not_matched_clauses cs ≠ [] ∨ by_source_clauses cs ≠ [].
Proof.
  destruct cs as [|c cs]; [done|]. intros _. unfold matched_clauses, not_matched_clauses, by_source_clauses.
  rewrite !filter_cons. destruct (mc_kind c); cbn; repeat case_decide; naive_solver.
Qed.

(** C9: A MERGE statement with equality keys and at least one clause replaces the table by the one SQL
    prescribes (each row by the first clause whose predicate is true, [SET] by the last assignment to
    a column, inserts for source rows without a match) and counts the rows it changes, if DataFusion
    answers queries as SQL says, and the statement and the tables satisfy [statement_ok]: predicates
    are never null, a target row has at most one source row, target keys are unique, not null where
    they are deleted, and comparable, updates keep them and inserts bring new ones, matching rows have
    the first key column not null on both sides under the target's name of it
    ([anti_join_on_target_name] otherwise), columns are assigned without quotes
    ([quoted_set_ignored] otherwise), inserted columns are listed once, the two tables have different
    names and values need no cast; and if the table takes and publishes the
    upsert and the deletes ([apply_ready]). *)
Theorem merge_into_meaning (other : string → SqlRow → SqlRow → Cell) fields source_fields cast_cell run_sql
    st name alias (t : Tbl) (S : list SqlRow) keys :
  let target_ref := default (last_part name) alias in
  let source_ref := source_alias_of (st_source st) in
  let run := run_sql target_ref source_ref (st_on st) (tbl_rows t) in
  st_target st = FactorTable name alias → st_clauses st ≠ [] →
  extract_equi_keys (st_on st) target_ref source_ref = Ok keys → keys ≠ [] →
  sql_lawful other target_ref source_ref (st_on st) (tbl_rows t) S run →
  statement_ok other target_ref source_ref fields source_fields keys (st_on st) (st_clauses st) (tbl_rows t) S cast_cell →
  (∀ p, plan_merge fields source_fields cast_cell run keys target_ref source_ref (st_clauses st) = Ok p → apply_ready keys p t) →
  ∃ t', execute_merge_into fields source_fields cast_cell run_sql st t
      = (Ok (merge_count other target_ref source_ref fields source_fields (st_on st) (st_clauses st) (tbl_rows t) S), t')
    ∧ tbl_rows t' ≡ₚ merge_result other target_ref source_ref fields source_fields (st_on st) (st_clauses st) (tbl_rows t) S.
Proof.
  intros target_ref source_ref run Ht Hcs Hkeys Hne Hrun Hok Hready.
  destruct (plan_of_statement _ _ _ _ _ _ _ _ _ _ _ _ Hrun Hok) as (p & Hp & Hu & Hd & Ha).
  destruct (apply_plan_rows keys p t (Hready p Hp)) as (t' & Happ & Hrows). exists t'. split.
  - unfold execute_merge_into. rewrite Ht. cbn [table_factor_ident]. fold target_ref source_ref. rewrite Hkeys.
    destruct keys as [|k ks]; [done|]. fold run. rewrite Hp, Happ, Ha.
    rewrite (counted _ _ _ _ _ (k :: ks) _ _ _ _ _ Hu).
    destruct (some_clause _ Hcs) as [H|[H|H]]; destruct (matched_clauses (st_clauses st)), (not_matched_clauses (st_clauses st)), (by_source_clauses (st_clauses st)); done.
  - rewrite Hrows. by eapply upserted_then_deleted.
Qed.

(** The commits of a plan, in order. *)
Inductive Op := Upsert (rows : list SqlRow) | Delete (f : DeleteFilter).
Definition plan_ops (p : Plan) : list Op :=
  match pl_upserts p with [] => [] | rows => [Upsert rows] end ++ (Delete <$> pl_filters p).
Definition commit_op (keys : list string) (op : Op) (t : Tbl) : option Tbl :=
  match op with Upsert rows => commit_merge keys rows t | Delete f => commit_delete f t end.
Definition op_name (op : Op) : string := match op with Upsert _ => "overwrite" | Delete _ => "delete" end.

(** The commits that took the table from [t] to [t'], all of them published. *)
Inductive applied (keys : list string) : list Op → Tbl → Tbl → Prop :=
| applied_nil t : applied keys [] t t
| applied_cons op ops t t1 t2 :
    commit_op keys op t = Some t1 → publish_snapshot (op_name op) t t1 = true → applied keys ops t1 t2 →
    applied keys (op :: ops) t t2.
(** Those before one of them have succeeded; that one fails, either to commit, and changes
    nothing, or to be published, and stays. *)
Definition stopped (keys : list string) (ops : list Op) (t t' : Tbl) : Prop :=
  ∃ before op after t0, ops = before ++ op :: after ∧ applied keys before t t0
    ∧ ((commit_op keys op t0 = None ∧ t' = t0)
       ∨ (commit_op keys op t0 = Some t' ∧ publish_snapshot (op_name op) t0 t' = false)).
(** What a plan with an outcome has done. *)
Definition outcome (keys : list string) (ops : list Op) (t : Tbl) {A} (res : result merr A * Tbl) : Prop :=
  match res.1 with
  | Ok _ => applied keys ops t res.2
  | Err e => e = TableFailed ∧ stopped keys ops t res.2
  end.

Lemma outcome_cons {A} keys op ops (t : Tbl) (run : Tbl → result merr A * Tbl) :
  (∀ t1, outcome keys ops t1 (run t1)) →
  outcome keys (op :: ops) t
    (match published (op_name op) t (commit_op keys op t) with (Ok _, t1) => run t1 | (Err e, t1) => (Err e, t1) end).
Proof.
  intros Hrun. unfold published. destruct (commit_op keys op t) as [t1|] eqn:Hop.
  2: { split; [done|]. exists [], op, ops, t. split_and!; [done|constructor|by left]. }
  destruct (publish_snapshot (op_name op) t t1) eqn:Hpub.
  2: { split; [done|]. exists [], op, ops, t. split_and!; [done|constructor|by right]. }
  specialize (Hrun t1). destruct (run t1) as [[a|e] t2]; unfold outcome in *; cbn in *; [by econstructor|].
  destruct Hrun as (-> & before & op' & after & t0 & -> & Hb & Hf). split; [done|].
  exists (op :: before), op', after, t0. split_and!; [done|by econstructor|done].
Qed.

Lemma apply_deletes_outcome keys filters (t : Tbl) :
  outcome keys (Delete <$> filters) t (apply_deletes filters t).
Proof.
  revert t. induction filters as [|f filters IH]; intros t; [constructor|]. cbn [apply_deletes fmap list_fmap].
  exact (outcome_cons keys (Delete f) (Delete <$> filters) t (apply_deletes filters) IH).
Qed.

Lemma apply_plan_outcome keys p (t : Tbl) : outcome keys (plan_ops p) t (apply_plan keys p t).
Proof.
  assert (∀ t1, outcome keys (Delete <$> pl_filters p) t1
    (match apply_deletes (pl_filters p) t1 with
     | (Ok _, t2) => (Ok (pl_affected p + length (pl_upserts p)), t2) | (Err e, t2) => (Err e, t2) end)) as Hd.
  { intros t1. pose proof (apply_deletes_outcome keys (pl_filters p) t1) as Ho.
    by destruct (apply_deletes (pl_filters p) t1) as [[[]|e] t2]. }
  unfold plan_ops, apply_plan in *. destruct (pl_upserts p) as [|u us]; [apply Hd|].
  exact (outcome_cons keys (Upsert (u :: us)) _ t _ Hd).
Qed.

(** Planning does not touch the table. *)
Lemma bind_harmless {A B} (m : result merr A) (f : A → result merr B) :
  m ≠ Err TableFailed → (∀ a, f a ≠ Err TableFailed) → (m ≫= f) ≠ Err TableFailed.
Proof. intros Hm Hf. destruct m as [a|e]; [apply Hf|]. cbn. congruence. Qed.
Lemma collect_harmless e tr sr out : collect_equi_keys e tr sr out ≠ Err TableFailed.
Proof.
  revert out. induction e as [|l IHl op r IHr|]; intros out; cbn [collect_equi_keys]; [done| |done].
  destruct op; try done.
  - apply bind_harmless; [apply IHl|intros; apply IHr].
  - by destruct (qualified_column l tr), (qualified_column r sr), (qualified_column r tr), (qualified_column l sr).
Qed.
Lemma cast_harmless fields cast_cell rows : cast_to_schema fields cast_cell rows ≠ Err TableFailed.
Proof.
  induction rows as [|row rows IH]; [done|]. cbn [cast_to_schema]. apply bind_harmless.
  - unfold cast_row. case_decide; [|done]. by destruct (mapM _ _).
  - intros r. by apply bind_harmless.
Qed.
Lemma query_harmless run q : query run q ≠ Err TableFailed.
Proof. unfold query. by destruct (run q). Qed.
Lemma clauses_harmless step group :
  (∀ earlier c p, step earlier c p ≠ Err TableFailed) → ∀ earlier p, plan_clauses step earlier group p ≠ Err TableFailed.
Proof.
  intros Hstep. induction group as [|c group IH]; intros earlier p; [done|]. cbn [plan_clauses]. by apply bind_harmless.
Qed.
Lemma insert_harmless fields ins source_fields source_ref :
  insert_select_list fields ins source_fields source_ref ≠ Err TableFailed.
Proof.
  unfold insert_select_list. destruct (ins_kind ins) as [|[|row []]]; try done. by case_decide.
Qed.
Lemma plan_harmless fields source_fields cast_cell run keys tr sr cs :
  plan_merge fields source_fields cast_cell run keys tr sr cs ≠ Err TableFailed.
Proof.
  assert (∀ q, query run q ≠ Err TableFailed) as Hq by apply query_harmless.
  assert (∀ rows, cast_to_schema fields cast_cell rows ≠ Err TableFailed) as Hc by apply cast_harmless.
  unfold plan_merge. apply bind_harmless; [|intros p1; apply bind_harmless; [|intros p2]];
    apply clauses_harmless; intros earlier c p.
  - unfold plan_matched. destruct (mc_action c); [|by apply bind_harmless|done]. by repeat (apply bind_harmless; [done|]; intros ?).
  - unfold plan_not_matched. destruct (mc_action c); [done..|]. apply bind_harmless; [apply insert_harmless|]. intros sel.
    by repeat (apply bind_harmless; [done|]; intros ?).
  - unfold plan_by_source. destruct (mc_action c); [|by apply bind_harmless|done]. by repeat (apply bind_harmless; [done|]; intros ?).
Qed.

(** C40: The upsert of a MERGE statement and each of its deletes are commits of their own.  A
    statement that succeeds has made and published all of them; an error of the statement, its queries
    or its casts changes nothing; and when the table fails, the commits before the one that failed are
    in the table, and that one too if it was its publication that failed. *)
Theorem merge_into_failure fields source_fields cast_cell run_sql st (t : Tbl) :
  let '(res, t') := execute_merge_into fields source_fields cast_cell run_sql st t in
  match res with
  | Err TableFailed | Ok _ =>
      ∃ name alias keys p,
        let source_ref := source_alias_of (st_source st) in
        let target_ref := default (last_part name) alias in
        st_target st = FactorTable name alias
        ∧ extract_equi_keys (st_on st) target_ref source_ref = Ok keys
        ∧ plan_merge fields source_fields cast_cell (run_sql target_ref source_ref (st_on st) (tbl_rows t))
            keys target_ref source_ref (st_clauses st) = Ok p
        ∧ (if is_ok res then applied keys (plan_ops p) t t' else stopped keys (plan_ops p) t t')
  | Err _ => t' = t
  end.
Proof.
  destruct (execute_merge_into _ _ _ _ _ _) as [res t'] eqn:Hrun. revert Hrun.
  unfold execute_merge_into. destruct (st_target st) as [name alias| |] eqn:Ht; cbn [table_factor_ident];
    [|by intros [= <- <-]..].
  destruct (extract_equi_keys _ _ _) as [[|k ks]|e0] eqn:Hk; [by intros [= <- <-]| |].
  2: { intros [= <- <-]. apply (f_equal (fun r => r ≠ Err TableFailed)) in Hk.
    assert ((Err e0 : result merr (list string)) ≠ Err TableFailed) as He by (rewrite <- Hk; apply collect_harmless).
    by destruct e0. }
  destruct (plan_merge _ _ _ _ _ _ _ _) as [p|e0] eqn:Hp.
  - assert (apply_plan (k :: ks) p t = (res, t') → match res with
      | Err TableFailed | Ok _ => if is_ok res then applied (k :: ks) (plan_ops p) t t' else stopped (k :: ks) (plan_ops p) t t'
      | Err _ => t' = t end) as Happ.
    { intros Hr. pose proof (apply_plan_outcome (k :: ks) p t) as Ho. rewrite Hr in Ho. destruct res; cbn in *; [done|].
      by destruct Ho as [-> ?]. }
    destruct (matched_clauses (st_clauses st)), (not_matched_clauses (st_clauses st)), (by_source_clauses (st_clauses st));
      try (intros Hr%Happ; destruct res as [|[]]; try done; by exists name, alias, (k :: ks), p).
    by intros [= <- <-].
  - assert ((Err e0 : result merr Plan) ≠ Err TableFailed) as He by (rewrite <- Hp; apply plan_harmless).
    destruct (matched_clauses (st_clauses st)), (not_matched_clauses (st_clauses st)), (by_source_clauses (st_clauses st)); intros [= <- <-]; by destruct e0.
Qed.
End Apply.

(** ** The table of this database *)

Section Filters.
Context (cast : string → Cell → Cell) (opaque : SqlRow → Expr → option bool).

(** [sql_literal], as the parser reads it back. *)
Definition literal_of (c : Cell) : ScalarValue :=
  match c with
  | CNull => SOther "NULL"
  | CBool b => SBoolean (Some b)
  | CInt z => SInt64 (Some z)
  | CFloat f => SFloat64 (Some f)
  | CString s => SUtf8 (Some s)
  end.
Definition key_equality (p : string * Cell) : Expr := EBinary (EColumn p.1) OpEq (ELiteral (literal_of p.2)).
(** [a AND b AND ...] and [a OR b OR ...], which the parser nests to the left. *)
Fixpoint join_exprs (op : Operator) (e : Expr) (es : list Expr) : Expr :=
  match es with [] => e | e' :: es => join_exprs op (EBinary e op e') es end.
Definition key_clause (row : list (string * Cell)) : Expr :=
  match key_equality <$> row with e :: es => join_exprs OpAnd e es | [] => ELiteral (SBoolean (Some true)) end.
Definition delete_expr (f : DeleteFilter) : Expr :=
  match key_clause <$> f with e :: es => join_exprs OpOr e es | [] => ELiteral (SBoolean (Some false)) end.

Notation evals r := (eval (column r) cast (opaque r)).

Lemma key_equality_true r p :
  p.2 ≠ CNull → evals r (key_equality p) = Some true ↔ cell_cmp (column r p.1) p.2 = Some Eq.
Proof.
  intros Hp. unfold key_equality. cbn [eval operand test_op].
  assert (cell_of_scalar (literal_of p.2) = Some p.2) as -> by (by destruct (p.2)).
  cbn. unfold compare3. destruct (cell_cmp _ _) as [[]|]; cbn; naive_solver.
Qed.
Lemma join_and_true r e es :
  evals r (join_exprs OpAnd e es) = Some true ↔ Forall (fun e => evals r e = Some true) (e :: es).
Proof.
  revert e. induction es as [|e' es IH]; intros e; cbn [join_exprs]; [by rewrite Forall_singleton|].
  rewrite IH, !Forall_cons. cbn [eval]. split.
  - intros [[? ?]%and3_true ?]. done.
  - intros (-> & -> & ?). done.
Qed.
Lemma join_or_true r e es :
  evals r (join_exprs OpOr e es) = Some true ↔ Exists (fun e => evals r e = Some true) (e :: es).
Proof.
  revert e. induction es as [|e' es IH]; intros e; cbn [join_exprs].
  { rewrite Exists_cons, Exists_nil. tauto. }
  rewrite IH, !Exists_cons. cbn [eval]. split.
  - intros [[?|?]%or3_true|?]; tauto.
  - intros [He|[He|He]]; [left|left|by right]; rewrite He; [done|]. by destruct (evals r e) as [[]|].
Qed.

(** The filter deletes the rows with one of the keys. *)
Lemma delete_expr_true f r :
  Forall (Forall (fun p => p.2 ≠ CNull)) f → evals r (delete_expr f) = Some true ↔ filter_matches f r = true.
Proof.
  intros Hf. unfold filter_matches. rewrite existsb_exists. transitivity (Exists (fun row => evals r (key_clause row) = Some true) f).
  { unfold delete_expr. destruct f as [|row f]; [by rewrite Exists_nil|]. rewrite fmap_cons, join_or_true, <- fmap_cons.
    by rewrite list.Exists_fmap. }
  rewrite Exists_exists. setoid_rewrite <- list_elem_of_In. apply exist_proper. intros row. split; intros [Hrow He]; (split; [done|]).
  all: rewrite Forall_forall in Hf; specialize (Hf row Hrow); revert He; unfold key_clause; rewrite forallb_forall;
    setoid_rewrite bool_decide_eq_true; setoid_rewrite <- list_elem_of_In.
  - destruct row as [|p row]; [set_solver|]. rewrite fmap_cons, join_and_true, <- fmap_cons, Forall_fmap, Forall_forall.
    intros He q Hq. rewrite Forall_forall in Hf. by apply key_equality_true, He; [apply Hf|].
  - destruct row as [|p row]; [done|]. rewrite fmap_cons, join_and_true, <- fmap_cons, Forall_fmap, Forall_forall.
    intros He q Hq. rewrite Forall_forall in Hf. by apply key_equality_true, He; [apply Hf|].
Qed.
End Filters.

(** A table with the merge of [Merge] and the delete of [DeleteRows]; each operation takes new
    numbers for the names of its files. *)
Record StoredTable := {
  tb_world : World SqlRow; tb_next : nat; tb_caches : IndexCaches; tb_snapshot : Snapshot
}.

Section Stored.
Context (uuid : nat → string) (written : list SqlRow → WriterOutput) (delete_size : pos_map → Z) (root : string).
Context (match_iter : gmap string (list (nat * nat)) → list (string * list (nat * nat))).
(** [publish_snapshot_async], which writes the table metadata and the catalog. *)
Context (publish_snapshot_async : string → Snapshot → bool).
Context (prune : list string → list SqlRow → ManifestEntry → bool).
Context (batches_of : list SqlRow → list (list SqlRow)) (evaluate_expr : list SqlRow → Expr → option (list bool)).
Context (to_lowercase : string → string) (parse_date : string → option Z) (pow10 : Z → SpecFloat.spec_float).
Context (io : IndexIo) (dio : DeleteIo).
Context (sort_to_indices : list (option Key) → list nat) (hash_iter : gmap Key (list Z) → list (Key * list Z))
  (registry : string → option (string → list string)) (configs : string → option TextConfig).
Context (known : IndexReader → IndexFile → Prop) (files : string → InvFile).
Context (cast : string → Cell → Cell) (opaque : SqlRow → Expr → option bool).
Context (Hmatch : ∀ m, match_iter m ≡ₚ map_to_list m)
  (Hsort : ∀ array, sort_to_indices array ≡ₚ seq 0 (length array)) (Hhash : ∀ m, hash_iter m ≡ₚ map_to_list m)
  (Hidentity : registry "identity" = Some identity_tokens) (Hstore : store_lawful io known files).

Definition stored_rows (t : StoredTable) : list SqlRow := table_rows (tb_world t) (tb_snapshot t).
Definition stored_merge (keys : list string) (rows : list SqlRow) (t : StoredTable) : option StoredTable :=
  let entries := loaded (tb_snapshot t) in
  ws ← merge (key_of keys) uuid written delete_size match_iter root MergeOnRead (prune keys rows) entries rows
         (tb_world t) (tb_next t) (tb_snapshot t);
  Some {| tb_world := ws.1; tb_next := tb_next t + S (length entries); tb_caches := tb_caches t; tb_snapshot := ws.2 |}.
Definition stored_delete (f : DeleteFilter) (t : StoredTable) : option StoredTable :=
  ws ← res_ok (delete_async uuid delete_size root batches_of evaluate_expr to_lowercase parse_date pow10 io dio
                 (delete_expr f) (tb_world t) (tb_next t) (tb_caches t) (tb_snapshot t) (tb_snapshot t));
  Some {| tb_world := ws.1; tb_next := tb_next t + length (loaded (tb_snapshot t)); tb_caches := tb_caches t; tb_snapshot := ws.2 |}.

(** A delete on an empty table commits nothing. *)
Definition stored_publish (operation : string) (t t' : StoredTable) : bool :=
  if decide (operation = "delete" ∧ loaded (tb_snapshot t) = []) then true
  else publish_snapshot_async operation (tb_snapshot t').

#[export] Program Instance stored_table_api : TableApi StoredTable := {|
  tbl_rows := stored_rows; commit_merge := stored_merge; commit_delete := stored_delete;
  publish_snapshot := stored_publish;
  can_merge keys rows t :=
    merge_ready (key_of keys) uuid root (prune keys rows) (loaded (tb_snapshot t)) rows (tb_world t) (tb_next t) (tb_snapshot t);
  can_delete f t :=
    Forall (Forall (fun p => p.2 ≠ CNull)) f
    ∧ delete_ready uuid root batches_of evaluate_expr io sort_to_indices hash_iter registry configs known files column cast opaque
        (delete_expr f) (tb_world t) (tb_next t) (tb_caches t) (tb_snapshot t)
|}.
Next Obligation.
  intros keys rows t Hready. unfold stored_merge.
  destruct (mor_upserts (key_of keys) uuid written delete_size match_iter root _ _ _ _ _ _ Hready Hmatch) as (w' & s' & -> & Hrows).
  eexists. split; [done|]. exact Hrows.
Qed.
Next Obligation.
  intros f t [Hnull Hready]. unfold stored_delete.
  destruct (delete_exact uuid delete_size root batches_of evaluate_expr to_lowercase parse_date pow10 io dio
    sort_to_indices hash_iter registry configs known files column cast opaque _ _ _ _ _ Hsort Hhash Hidentity Hstore Hready)
    as (w' & s' & -> & Hrows).
  eexists. split; [done|]. unfold stored_rows. cbn [tb_world tb_snapshot fst snd]. rewrite Hrows. apply Permutation_refl', list_filter_iff.
  intros r. rewrite <- not_true_iff_false. by rewrite <- (delete_expr_true cast opaque f r Hnull).
Qed.
End Stored.

(** ** Statements on small tables *)

Module MergeIntoExamples.

(** Rows kept in a list. *)
Abbreviation ListTable := (list SqlRow).
#[local] Program Instance list_table_api : TableApi ListTable := {|
  tbl_rows t := t;
  commit_merge keys rows t := Some (filter (fun r => key_of keys r ∉ key_of keys <$> rows) t ++ rows);
  commit_delete f t := Some (filter (fun r => filter_matches f r = false) t);
  publish_snapshot _ _ _ := true;
  can_merge _ _ _ := True; can_delete _ _ := True
|}.
Next Obligation. intros. eexists. split; [done|]. done. Qed.
Next Obligation. intros. eexists. split; [done|]. done. Qed.

Definition user (id : Z) (name : string) : SqlRow := list_to_map [("id", CInt id); ("name", CString name)].
Definition fields : list string := ["id"; "name"].
Definition no_cast (c : string) (x : Cell) : option Cell := Some x.
(** Literals and null tests. *)
Definition others (text : string) (t s : SqlRow) : Cell :=
  if decide (text = "2") then CInt 2
  else if decide (text = "'gone'") then CString "gone"
  else if decide (text = "s.name = NULL") then CNull
  else if decide (text = "t.id + 10") then (match column t "id" with CInt z => CInt (z + 10) | _ => CNull end)
  else CNull.
Definition datafusion (source : list SqlRow) (tr sr : string) (on : SqlExpr) (T : list SqlRow) (q : Query)
  : option (list (list Cell)) := Some (sql_rows others tr sr on q T source).

Definition t_id : SqlExpr := SqlCompound ["t"; "id"].
Definition s_id : SqlExpr := SqlCompound ["s"; "id"].
Definition set_name (e : SqlExpr) : MergeAction :=
  MergeUpdate [(ColumnName [{| id_value := "name"; id_quoted := false |}], e)].
Definition clause (k : MergeClauseKind) (p : option SqlExpr) (a : MergeAction) : MergeClause :=
  {| mc_kind := k; mc_predicate := p; mc_action := a |}.
Definition insert_row : MergeAction := MergeInsert {| ins_columns := []; ins_kind := InsertRow |}.
Definition merge_into (cs : list MergeClause) : MergeStatement :=
  {| st_target := FactorTable "db.users" (Some "t"); st_source := FactorTable "changes" (Some "s");
     st_on := SqlBinary t_id OpEq s_id; st_clauses := cs |}.

Definition target : ListTable := [user 1 "a"; user 2 "b"; user 3 "c"].
Definition source : list SqlRow := [user 2 "B"; user 3 "z"; user 4 "d"].
Definition all_kinds : list MergeClause :=
  [clause Matched (Some (SqlBinary t_id OpEq (SqlOther "2"))) (set_name (SqlCompound ["s"; "name"]));
   clause Matched None MergeDelete;
   clause NotMatched None insert_row;
   clause NotMatchedBySource None (set_name (SqlOther "'gone'"))].

Definition run (cs : list MergeClause) (source : list SqlRow) (t : ListTable) : result merr nat * ListTable :=
  execute_merge_into fields fields no_cast (datafusion source) (merge_into cs) t.

Example merges_all_kinds :
  run all_kinds source target = (Ok 4, [user 2 "B"; user 4 "d"; user 1 "gone"]).
Proof. vm_compute. reflexivity. Qed.

Ltac each H := repeat (apply elem_of_cons in H as [->|H]); [..|by apply not_elem_of_nil in H].
Ltac computed := apply (bool_decide_unpack _); by vm_compute.
Lemma all_kinds_ok :
  statement_ok others "t" "s" fields fields ["id"] (SqlBinary t_id OpEq s_id) all_kinds target source no_cast.
Proof.
  assert (∀ (P : MergeClause → Prop) c cs, P c → Forall P cs → Forall P (c :: cs)) as both by (by constructor).
  split.
  - done.
  - done.
  - intros c assignments Hc Ha. each Hc; try done; injection Ha as <-; (apply Forall_singleton; eexists; split_and!;
      [reflexivity|done|by repeat constructor]).
  - intros c ins Hc Ha. each Hc; try done. injection Ha as <-. computed.
  - intros t s Ht Hs _. each Ht; each Hs; by vm_compute.
  - intros t Ht. each Ht; vm_compute; lia.
  - apply both; [|apply both; [|constructor]]; (split; [computed|]).
    + left. eexists. split_and!; [done|done|done|computed].
    + right. split_and!; [done|done|computed].
  - apply both; [|constructor]; split; [|done]. split; [computed|].
    left. eexists. split_and!; [done|done|done|computed].
  - apply both; [|constructor]; split; [computed|].
    left. eexists. split_and!; [done|done|done|computed].
  - computed.
  - intros t r Ht Hr. each Ht; vm_compute in Hr; each Hr; by vm_compute.
  - intros s r Hs Hr. each Hs; vm_compute in Hr; each Hr; computed.
  - intros t r Ht Hr.
    assert ((∀ k, k ∈ ["id"] → cell_cmp (column r k) (column t k) = Some Eq) ↔ cell_cmp (column r "id") (column t "id") = Some Eq) as ->
      by (setoid_rewrite list_elem_of_singleton; naive_solver).
    assert (Forall (fun t => Forall (fun r => cell_cmp (column r "id") (column t "id") = Some Eq ↔ key_of ["id"] r = key_of ["id"] t)
      (target ++ (target ≫= updated_rows others "t" "s" fields (SqlBinary t_id OpEq s_id) all_kinds source)
       ++ (source ≫= inserted_rows others "t" "s" fields fields (SqlBinary t_id OpEq s_id) all_kinds target))) target) as Hall by computed.
    rewrite Forall_forall in Hall. specialize (Hall t Ht). rewrite Forall_forall in Hall. by apply Hall.
Qed.

Lemma list_always_ready keys p (t : ListTable) : apply_ready keys p t.
Proof.
  assert (∀ fs (t : ListTable), can_deletes fs t) as Hd by (intros fs; induction fs; by cbn).
  unfold apply_ready. destruct (pl_upserts p); [apply Hd|]. split; [done|]. intros t' _. split; [done|apply Hd].
Qed.

Lemma merge_into_meaning_witness :
  ∃ t', run all_kinds source target = (Ok 4, t') ∧ t' ≡ₚ [user 1 "gone"; user 2 "B"; user 4 "d"].
Proof.
  destruct (merge_into_meaning others fields fields no_cast (datafusion source) (merge_into all_kinds) "db.users" (Some "t")
    target source ["id"]) as (t' & Hrun & Hrows); [done|done|done|done| |exact all_kinds_ok|by intros; apply list_always_ready|].
  - intros q. eexists. split; [reflexivity|]. done.
  - exists t'. exact (conj Hrun Hrows).
Defined.

(** ** Where the statement departs from SQL *)

(** A predicate that is null: SQL goes on to the next clause, here the row is left alone. *)
Definition is_null_eq : SqlExpr := SqlOther "s.name = NULL".
Example null_predicate_stops :
  run [clause Matched (Some is_null_eq) MergeDelete; clause Matched None (set_name (SqlOther "'gone'"))] source target
    = (Ok 0, target)
  ∧ first_action others "t" "s" [clause Matched (Some is_null_eq) MergeDelete; clause Matched None (set_name (SqlOther "'gone'"))]
      (user 2 "b") (user 2 "B") = Some (set_name (SqlOther "'gone'")).
Proof. split; vm_compute; reflexivity. Qed.

(** An update of the key inserts a row and leaves the old one. *)
Definition set_id (e : SqlExpr) : MergeAction :=
  MergeUpdate [(ColumnName [{| id_value := "id"; id_quoted := false |}], e)].
Example key_update_duplicates :
  run [clause Matched None (set_id (SqlOther "t.id + 10"))] [user 2 "B"] target = (Ok 1, target ++ [user 12 "b"]).
Proof. vm_compute. reflexivity. Qed.

(** Two source rows for one target row, and two new rows with one key: both stay. *)
Example duplicate_keys :
  run [clause Matched None (set_name (SqlCompound ["s"; "name"])); clause NotMatched None insert_row]
    [user 1 "x"; user 1 "y"; user 9 "u"; user 9 "v"] [user 1 "a"]
  = (Ok 4, [user 1 "x"; user 1 "y"; user 9 "u"; user 9 "v"]).
Proof. vm_compute. reflexivity. Qed.

(** A quoted column in [SET] is looked up with its quotes: the row is rewritten as it was. *)
Definition quoted_set (e : SqlExpr) : MergeAction :=
  MergeUpdate [(ColumnName [{| id_value := "name"; id_quoted := true |}], e)].
Example quoted_set_ignored :
  run [clause Matched None (quoted_set (SqlOther "'gone'"))] [user 2 "B"] target = (Ok 1, [user 1 "a"; user 3 "c"; user 2 "b"]).
Proof. vm_compute. reflexivity. Qed.

(** [ON t.id = s.user_id] with a source that has a column [id] as well: [NOT MATCHED BY SOURCE] tests
    that one, so that the row that matches is deleted too. *)
Definition change (user_id : Z) : SqlRow := list_to_map [("user_id", CInt user_id); ("id", CNull)].
Definition by_user_id : MergeStatement :=
  {| st_target := FactorTable "users" (Some "t"); st_source := FactorTable "changes" (Some "s");
     st_on := SqlBinary t_id OpEq (SqlCompound ["s"; "user_id"]);
     st_clauses := [clause NotMatchedBySource None MergeDelete] |}.
Example anti_join_on_target_name :
  execute_merge_into fields ["user_id"; "id"] no_cast (datafusion [change 2]) by_user_id target = (Ok 3, [])
  ∧ merge_result others "t" "s" fields ["user_id"; "id"] (st_on by_user_id) (st_clauses by_user_id) target [change 2] = [user 2 "b"].
Proof. split; vm_compute; reflexivity. Qed.

(** A table in which an operation can fail: to commit when the number is 0, to be published when it
    is 1. *)
Definition Flaky : Type := ListTable * nat.
#[local] Program Instance flaky_api : TableApi Flaky := {|
  tbl_rows t := t.1;
  commit_merge keys rows t := Some (filter (fun r => key_of keys r ∉ key_of keys <$> rows) t.1 ++ rows, t.2);
  commit_delete f t := match t.2 with S k => Some (filter (fun r => filter_matches f r = false) t.1, k) | O => None end;
  publish_snapshot _ t _ := bool_decide (t.2 ≠ 1);
  can_merge _ _ _ := True; can_delete _ t := t.2 ≠ 0
|}.
Next Obligation. intros. eexists. split; [done|]. done. Qed.
Next Obligation. intros f [t [|k]] Hk; [done|]. eexists. split; [done|]. done. Qed.

(** The upsert and the first delete stay; the second delete stays too when it is not published. *)
Definition two_deletes : MergeStatement := merge_into
  [clause Matched (Some (SqlBinary t_id OpEq (SqlOther "2"))) MergeDelete; clause Matched None MergeDelete;
   clause NotMatched None insert_row].
Definition flaky_run (k : nat) : result merr nat * Flaky :=
  execute_merge_into fields fields no_cast (datafusion source) two_deletes (target, k).
Example failed_delete_stays :
  flaky_run 2 = (Err TableFailed, ([user 1 "a"; user 4 "d"], 0))
  ∧ flaky_run 0 = (Err TableFailed, ([user 1 "a"; user 2 "b"; user 3 "c"; user 4 "d"], 0)).
Proof. vm_compute. done. Qed.
End MergeIntoExamples.
