(* ===== verification/Coordinator.v ===== *)
(** * Work coordination across machines

    [src/src/core/table/coordinator.rs]: units of ingest work are claimed under leases in the
    object store, and completed ones have a marker object.  The leases are the locks of [Lock];
    every call of the store may see what other machines have done meanwhile. *)

From S2P Require Import Prelude ObjectStore Lock Json ManifestTypes Planner PlannerSpec FilterText PrimaryKey.
Open Scope nat_scope.

(** ** Units of work *)

(** Rows of an input file; the end is 0 for a file that is read as a whole. *)
Record WorkUnit := { wu_path : string; wu_start : nat; wu_end : nat }.
#[export] Instance WorkUnit_eq_dec : EqDecision WorkUnit.
Proof. solve_decision. Defined.

Definition colon : Ascii.ascii := Ascii.ascii_of_nat 58.
Definition unit_key (u : WorkUnit) : string :=
  (wu_path u +:+ String.String colon (pretty (Z.of_nat (wu_start u)))) +:+ String.String colon (pretty (Z.of_nat (wu_end u))).

(** The key identifies the unit: the last two colons are those of the key. *)
Lemma split_char_snoc c s t : has_char c t = false → split_char c (s +:+ String.String c t) = split_char c s ++ [t].
Proof.
  intros Ht. induction s as [|a s IH].
  - change (split_char c (String.String c t) = [EmptyString; t]). cbn. by rewrite decide_True, split_char_none.
  - change (split_char c (String.String a (s +:+ String.String c t)) = split_char c (String.String a s) ++ [t]). cbn.
    rewrite IH. case_decide; [done|]. pose proof (split_char_ne c s). by destruct (split_char c s).
Qed.
Lemma last_part_inj c s s' t t' :
  has_char c t = false → has_char c t' = false → s +:+ String.String c t = s' +:+ String.String c t' → s = s' ∧ t = t'.
Proof.
  intros Ht Ht' Heq. pose proof (f_equal (split_char c) Heq) as Hs. rewrite !split_char_snoc in Hs by done.
  apply app_inj_tail in Hs as [_ ->]. split; [|done]. by apply app_suffix_inj in Heq.
Qed.
Lemma unit_key_inj u u' : unit_key u = unit_key u' → u = u'.
Proof.
  assert (∀ n, has_char colon (pretty (Z.of_nat n)) = false) as Hc by (intros; by apply pretty_int_no_char).
  assert (∀ n m : nat, pretty (Z.of_nat n) = pretty (Z.of_nat m) → n = m) as Hn by (intros n m ?%(inj pretty); lia).
  intros [[Hp He%Hn]%last_part_inj Hs%Hn]%last_part_inj; try apply Hc. destruct u, u'. cbn in *. by subst.
Qed.

(** FNV-1a of 64 bits. *)
Definition fnv1a_step (hash b : Z) : Z := wrap_u64 (Z.lxor hash b * 0x100000001b3).
Definition fnv1a (l : list Z) : Z := foldl fnv1a_step 0xcbf29ce484222325%Z l.
(** [{:016x}] of a 64-bit number. *)
Fixpoint lower_hex_digits (n : nat) (z : Z) : string :=
  match n with
  | O => EmptyString
  | S n => lower_hex_digits n (z / 16) +:+ String.String (lower_hex (Z.to_nat (z mod 16))) EmptyString
  end.
Definition slug (u : WorkUnit) : string := lower_hex_digits 16 (fnv1a (bytes_of (unit_key u))).

Example slug_of_unit :
  slug {| wu_path := "a.parquet"; wu_start := 0; wu_end := 100 |} = lower_hex_digits 16 (fnv1a (bytes_of "a.parquet:0:100"))
  ∧ String.length (slug {| wu_path := "a.parquet"; wu_start := 0; wu_end := 100 |}) = 16.
Proof. split; vm_compute; reflexivity. Qed.

(** ** The coordinator *)

Record ObjectStoreCoordinator := { co_units : list WorkUnit; co_ttl : Z; co_clock_skew_ms : Z }.
Definition coordinator_new (units : list WorkUnit) (ttl : Z) : ObjectStoreCoordinator :=
  {| co_units := units; co_ttl := ttl; co_clock_skew_ms := 5000 |}.

Definition lease_path (u : WorkUnit) : string := "_ingest_leases/" +:+ slug u +:+ ".lock".
Definition done_prefix : string := "_ingest_done/".
Definition done_path (u : WorkUnit) : string := done_prefix +:+ slug u +:+ ".done".

Record Lease := { le_unit : WorkUnit; le_guard : LockGuard }.
Definition total_units (co : ObjectStoreCoordinator) : nat := length (co_units co).

Section Coordinator.
Context {S V : Type} `{!ObjectStore S V, !Codec LockPayload}.

(** A claim tries one lock after the other: attempt [i] has an owner, a clock and what other
    machines do during its calls. *)
Record attempt := { at_owner : string; at_clock : clock; at_env : nat → S → S }.

Definition lease_lock (co : ObjectStoreCoordinator) (u : WorkUnit) (owner : string) : FileBasedLock :=
  with_clock_skew (FileBasedLock_new (lease_path u) owner (Z.max 1 (co_ttl co))) (co_clock_skew_ms co).

Fixpoint claim_units (co : ObjectStoreCoordinator) (a : nat → attempt) (i : nat) (units : list WorkUnit)
    (completed : gset string) (st : S) : S * result os_error (option Lease) :=
  match units with
  | [] => (st, Ok None)
  | u :: units =>
      if decide (unit_key u ∈ completed) then claim_units co a i units completed st
      else
        match try_acquire (at_env (a i)) (lease_lock co u (at_owner (a i))) (at_clock (a i)) st with
        | (st, Err e) => (st, Err e)
        | (st, Ok (Some guard)) => (st, Ok (Some {| le_unit := u; le_guard := guard |}))
        | (st, Ok None) => claim_units co a (Datatypes.S i) units completed st
        end
  end.
Definition claim (co : ObjectStoreCoordinator) (a : nat → attempt) (completed : gset string) (st : S)
  : S * result os_error (option Lease) := claim_units co a 0 (co_units co) completed st.

Definition release (env : nat → S → S) (l : Lease) (st : S) : S := guard_drop env (le_guard l) st.

(** The guard is dropped whatever the put says. *)
Definition complete (env : nat → S → S) (l : Lease) (st : S) : S * result os_error () :=
  let '(st, r) := os_put (env 0 st) (done_path (le_unit l)) (String.list_byte_of_string (unit_key (le_unit l))) Overwrite in
  let st := release (fun n => env (Datatypes.S n)) l st in
  (st, match r with Ok _ => Ok () | Err e => Err e end).

(** The markers that can be read. *)
Definition marker_key (st : S) (path : string) : option string :=
  match os_get st path with
  | Ok (body, _) => from_utf8 (String.string_of_list_byte body)
  | Err _ => None
  end.
Fixpoint read_markers (env : nat → S → S) (i : nat) (paths : list string) (st : S) : S * gset string :=
  match paths with
  | [] => (st, ∅)
  | p :: paths =>
      let st := env i st in
      let key := marker_key st p in
      let '(st, done) := read_markers env (Datatypes.S i) paths st in
      (st, from_option singleton ∅ key ∪ done)
  end.
Definition completed (env : nat → S → S) (st : S) : S * result os_error (gset string) :=
  let st := env 0 st in
  match os_list st with
  | Ok paths =>
      let '(st, done) := read_markers env 1 (filter (fun p => starts_with done_prefix p = true) paths) st in
      (st, Ok done)
  | Err NotFound => (st, Ok ∅)
  | Err e => (st, Err e)
  end.

(** ** Claims *)

Context `{!ObjectStoreLaws S V}.

Lemma os_delete_step st p : os_step st (os_delete st p).1.
Proof. eapply os_step_delete. apply surjective_pairing. Qed.

(** What the calls on one lock and the other machines preserve. *)
Lemma try_acquire_preserves (P : S → Prop) env l c st :
  (∀ n s, P s → P (env n s)) → (∀ s b m, P s → P (os_put s (lk_path l) b m).1) → (∀ s, P s → P (os_delete s (lk_path l)).1) →
  P st → P (try_acquire env l c st).1.
Proof.
  intros Henv Hput Hdel Hst. unfold try_acquire.
  assert (∀ n s b m s' r, P s → os_put (env n s) (lk_path l) b m = (s', r) → P s') as Hp.
  { intros n s b m s' r Hs Heq. change s' with (s', r).1. rewrite <- Heq. by apply Hput, Henv. }
  destruct (os_put (env 0 st) _ _ Create) as [s1 [v|e]] eqn:Hc; (apply Hp in Hc; [|done]); [done|].
  destruct e; try done. apply (Henv 1) in Hc.
  destruct (os_get (env 1 s1) _) as [[cur v]|]; [|done]. case_match; [|done].
  destruct (os_put (env 2 (env 1 s1)) _ _ (Update v)) as [s2 [v2|e2]] eqn:Hu; (apply Hp in Hu; [|done]); [done|].
  pose proof (Hdel _ (Henv 3 _ Hu)) as Hd. set (s3 := (os_delete (env 3 s2) (lk_path l)).1) in *.
  destruct (os_put (env 4 s3) _ _ Create) as [s4 [v4|e4]] eqn:H4; (apply Hp in H4; [|done]); by destruct e2.
Qed.
Lemma try_acquire_steps env l c st : interferes env → rtc os_step st (try_acquire env l c st).1.
Proof.
  intros Henv. apply (try_acquire_preserves (rtc os_step st)).
  - intros n s Hs. etrans; [done|apply Henv].
  - intros s b m Hs. eapply rtc_r; [done|apply os_put_step].
  - intros s Hs. eapply rtc_r; [done|apply os_delete_step].
  - done.
Qed.

(** The attempts of a machine among others. *)
Definition attempts_interfere (a : nat → attempt) : Prop := ∀ i, interferes (at_env (a i)).

Lemma claim_units_takes co a i units done st st' l :
  attempts_interfere a → (∀ u, u ∈ units → supports_update (lease_path u)) →
  claim_units co a i units done st = (st', Ok (Some l)) →
  let u := le_unit l in
  u ∈ units ∧ unit_key u ∉ done ∧ ∃ j before,
    le_guard l = spawn_heartbeat (lease_lock co u (at_owner (a j)))
    ∧ lease st' (lease_path u) = Some (new_payload (lease_lock co u (at_owner (a j))) (now_secs (at_clock (a j))))
    ∧ rtc os_step st before ∧ os_step before st'
    ∧ (os_objs before (lease_path u) = None ∨
       ∃ p, lease before (lease_path u) = Some p
            ∧ lease_expired (co_clock_skew_ms co) p (now_millis (at_clock (a j))) = true).
Proof.
  intros Ha. revert i st. induction units as [|u units IH]; intros i st Hup; [done|]. cbn [claim_units].
  assert (∀ u, u ∈ units → supports_update (lease_path u)) as Hup' by (intros; apply Hup; by right).
  case_decide as Hk.
  - intros Hc. destruct (IH i st Hup' Hc) as (? & ? & ?). split_and!; [by right|done|done].
  - destruct (try_acquire _ _ _ st) as [s1 [[g|]|e]] eqn:Ht; [| |done].
    + intros [= <- <-]. cbn [le_unit le_guard].
      assert (g = spawn_heartbeat (lease_lock co u (at_owner (a i)))) as ->.
      { revert Ht. unfold try_acquire. repeat case_match; intros; by simplify_eq. }
      apply acquire_takes in Ht as (_ & Hl & before & H1 & H2 & H3); [|apply Ha|apply Hup; left].
      split_and!; [left|done|]. by exists i, before.
    + pose proof (try_acquire_steps (at_env (a i)) (lease_lock co u (at_owner (a i))) (at_clock (a i)) st (Ha i)) as Hs.
      rewrite Ht in Hs. intros Hc. destruct (IH _ s1 Hup' Hc) as (? & ? & j & before & Hg & Hle & Hr & Hst & Hor).
      split_and!; [by right|done|]. exists j, before. split_and!; [done|done|by etrans|done|done].
Qed.

(** The lease of a path satisfies [G]. *)
Definition guarded (G : LockPayload → Prop) (path : string) (st : S) : Prop := ∃ p, lease st path = Some p ∧ G p.
(** A lease that has expired by none of the clocks. *)
Definition leased (co : ObjectStoreCoordinator) (a : nat → attempt) : string → S → Prop :=
  guarded (fun p => ∀ i, lease_expired (co_clock_skew_ms co) p (now_millis (at_clock (a i))) = false).

(** A unit whose lease is live is not claimed. *)
Lemma claim_units_guarded G co a i units done st st' r path :
  (∀ p, G p → ∀ i, lease_expired (co_clock_skew_ms co) p (now_millis (at_clock (a i))) = false) →
  (∀ j n s, guarded G path s → guarded G path (at_env (a j) n s)) → guarded G path st →
  claim_units co a i units done st = (st', r) → guarded G path st' ∧ ∀ l, r = Ok (Some l) → lease_path (le_unit l) ≠ path.
Proof.
  intros HG Henv. revert i st. induction units as [|u units IH]; intros i st Hl.
  { by intros [= <- <-]. }
  cbn [claim_units]. case_decide as Hk; [by apply IH|].
  set (lk := lease_lock co u (at_owner (a i))).
  assert (guarded G path (try_acquire (at_env (a i)) lk (at_clock (a i)) st).1
    ∧ ∀ g, (try_acquire (at_env (a i)) lk (at_clock (a i)) st).2 = Ok (Some g) → lease_path u ≠ path) as [Hl1 Hg].
  { destruct (decide (lease_path u = path)) as [<-|Hne].
    - destruct (guarded_lease_blocks G
        (at_env (a i)) lk (at_clock (a i)) st _ _ (fun p Hp => HG p Hp i) (Henv i) Hl (surjective_pairing _)) as [Hno Hh].
      split; [exact Hh|]. intros g Hg. by destruct (Hno g).
    - split; [|done]. apply try_acquire_preserves; [intros; by apply Henv| | |done].
      + intros s b m (p & Hp & Hx). exists p. split; [|done]. unfold lease.
        destruct (os_put s (lk_path lk) b m) as [s' r'] eqn:Heq. cbn. by rewrite (os_put_other _ _ _ _ _ _ _ Heq).
      + intros s (p & Hp & Hx). exists p. split; [|done]. unfold lease.
        destruct (os_delete s (lk_path lk)) as [s' r'] eqn:Heq. cbn. by rewrite (os_delete_other _ _ _ _ _ Heq). }
  destruct (try_acquire _ _ _ st) as [s1 [[g|]|e]]; cbn in Hl1, Hg.
  - intros [= <- <-]. split; [done|]. intros l [= <-]. by apply (Hg g).
  - by apply IH.
  - by intros [= <- <-].
Qed.

(** C31: On a store with conditional updates of leases (without them the lock deletes and recreates
    the lease: [fallback_takes_live_lease]), and whatever other machines do through the calls of the store,
    a claim takes a unit of the queue that is not in the given set of completed ones, and the put that
    won found no lease or one that had expired by the claim's clock.  A unit whose lease is live by
    all clocks of the claim is not taken, provided the other machines keep that lease. *)
Theorem claim_takes_free_unit co a done st st' l :
  attempts_interfere a → (∀ u, u ∈ co_units co → supports_update (lease_path u)) →
  claim co a done st = (st', Ok (Some l)) →
  (let u := le_unit l in
   u ∈ co_units co ∧ unit_key u ∉ done ∧ ∃ j before,
     lease st' (lease_path u) = Some (new_payload (lease_lock co u (at_owner (a j))) (now_secs (at_clock (a j))))
     ∧ rtc os_step st before ∧ os_step before st'
     ∧ (os_objs before (lease_path u) = None ∨
        ∃ p, lease before (lease_path u) = Some p
             ∧ lease_expired (co_clock_skew_ms co) p (now_millis (at_clock (a j))) = true))
  ∧ ∀ path, (∀ j n s, leased co a path s → leased co a path (at_env (a j) n s)) → leased co a path st →
      lease_path (le_unit l) ≠ path.
Proof.
  intros Ha Hup Hc. split.
  - apply claim_units_takes in Hc as (Hu & Hk & j & before & _ & Hrest); [|done..]. split_and!; [done|done|]. by exists j, before.
  - intros path Henv Hl. destruct (claim_units_guarded _ _ _ _ _ _ _ _ _ path (fun p Hp => Hp) Henv Hl Hc) as [_ Hno]. by apply Hno.
Qed.

Lemma claim_units_elem co a i units done st st' l :
  claim_units co a i units done st = (st', Ok (Some l)) → le_unit l ∈ units ∧ unit_key (le_unit l) ∉ done.
Proof.
  revert i st. induction units as [|u units IH]; intros i st; [done|]. cbn [claim_units].
  case_decide as Hk; [intros [? ?]%IH; split; [by right|done]|].
  destruct (try_acquire _ _ _ st) as [s1 [[g|]|e]]; [|intros [? ?]%IH; split; [by right|done]|done].
  intros [= <- <-]. split; [left|done].
Qed.

(** Without a claim every unit was completed or its lock was refused. *)
Definition refused (co : ObjectStoreCoordinator) (a : nat → attempt) (u : WorkUnit) : Prop :=
  ∃ i st st', try_acquire (at_env (a i)) (lease_lock co u (at_owner (a i))) (at_clock (a i)) st = (st', Ok None).
Lemma claim_units_none co a i units done st st' :
  claim_units co a i units done st = (st', Ok None) → ∀ u, u ∈ units → unit_key u ∈ done ∨ refused co a u.
Proof.
  revert i st. induction units as [|u units IH]; intros i st; [set_solver|]. cbn [claim_units].
  case_decide as Hk; [intros Hc u' [->|Hu']%elem_of_cons; [by left|by eapply IH]|].
  destruct (try_acquire _ _ _ st) as [s1 [[g|]|e]] eqn:Ht; [done| |done].
  intros Hc u' [->|Hu']%elem_of_cons; [right; by exists i, st, s1|by eapply IH].
Qed.

(** ** Markers *)

Definition marked (u : WorkUnit) (st : S) : Prop :=
  ∃ v, os_objs st (done_path u) = Some (String.list_byte_of_string (unit_key u), v).
Definition keeps (P : S → Prop) (env : nat → S → S) : Prop := ∀ n s, P s → P (env n s).

Lemma lease_not_done u u' : lease_path u ≠ done_path u'.
Proof. done. Qed.
Lemma release_keeps u env l st :
  keeps (marked u) env → g_path (le_guard l) = lease_path (le_unit l) → marked u st → marked u (release env l st).
Proof.
  intros Henv Hg Hm. unfold release, guard_drop. apply (Henv 0) in Hm as Hm0.
  destruct (os_get (env 0 st) _) as [[cur ?]|]; [|done]. destruct (from_bytes cur); [|done]. case_decide; [|done].
  destruct (Henv 1 _ Hm0) as (vm & Hv). exists vm. destruct (os_delete (env 1 (env 0 st)) _) as [s' r] eqn:Hd. cbn.
  rewrite (os_delete_other _ _ _ _ (done_path u) Hd); [done|]. rewrite Hg. apply not_eq_sym, lease_not_done.
Qed.
Lemma complete_marks env l st st' :
  keeps (marked (le_unit l)) env → g_path (le_guard l) = lease_path (le_unit l) →
  complete env l st = (st', Ok ()) → marked (le_unit l) st'.
Proof.
  intros Henv Hg. unfold complete. destruct (os_put _ _ _ Overwrite) as [s1 [v|e]] eqn:Hp; [|done]. intros [= <-].
  apply release_keeps; [intros n; apply (Henv (Datatypes.S n))|done|]. apply os_put_ok in Hp as [[Hp _] _]. by exists v.
Qed.

(** Objects can be read, and the listing is refused only if there is none. *)
Definition readable (st : S) : Prop :=
  (∀ p x, os_objs st p = Some x → os_get st p = Ok x) ∧ (os_list st = Err NotFound → ∀ p, os_objs st p = None).
Lemma read_markers_elem env u i paths st :
  keeps (fun s => readable s ∧ marked u s) env → readable st → marked u st → from_utf8 (unit_key u) = Some (unit_key u) →
  done_path u ∈ paths → unit_key u ∈ (read_markers env i paths st).2.
Proof.
  intros Henv Hr Hm Hutf Hin. revert i st Hr Hm. induction paths as [|p paths IH]; intros i st Hr Hm; [by apply not_elem_of_nil in Hin|].
  cbn [read_markers]. destruct (Henv i st (conj Hr Hm)) as [Hr' Hm'].
  destruct (read_markers env (Datatypes.S i) paths (env i st)) as [s1 K] eqn:Hrm. cbn [snd].
  apply elem_of_cons in Hin as [<-|Hin].
  - destruct Hm' as [v Hv]. unfold marker_key. rewrite (proj1 Hr' _ _ Hv), String.string_of_list_byte_of_string, Hutf. cbn. set_solver.
  - specialize (IH Hin (Datatypes.S i) (env i st) Hr' Hm'). rewrite Hrm in IH. set_solver.
Qed.

(** Once [complete] has returned, every later [completed] of any machine lists the unit, as long as
    nobody removes or overwrites its marker and the store can be read. *)
Theorem completed_lists_marked env env' l st st1 st2 st3 K :
  let u := le_unit l in
  keeps (marked u) env → g_path (le_guard l) = lease_path u → complete env l st = (st1, Ok ()) →
  marked u st2 → keeps (fun s => readable s ∧ marked u s) env' → readable st2 →
  from_utf8 (unit_key u) = Some (unit_key u) →
  completed env' st2 = (st3, Ok K) → marked u st1 ∧ unit_key u ∈ K.
Proof.
  intros u Henv Hg Hc Hm Henv' Hr Hutf HK. split; [by eapply complete_marks|].
  destruct (Henv' 0 st2 (conj Hr Hm)) as [Hr0 Hm0]. revert HK. unfold completed. destruct (os_list (env' 0 st2)) as [paths|e] eqn:Hl.
  - pose proof (read_markers_elem env' u 1 (filter (fun p => starts_with done_prefix p = true) paths) (env' 0 st2) Henv' Hr0 Hm0 Hutf) as Hin.
    destruct (read_markers _ _ _ _) as [s K'] eqn:Hrm. cbn in Hin. intros [= <- <-]. apply Hin, list_elem_of_filter. split.
    + apply bool_decide_eq_true. unfold done_path. by rewrite strip_prefix_app.
    + apply (os_list_ok _ _ Hl). destruct Hm0 as [v ->]. by eexists.
  - destruct e; try done. destruct Hm0 as [v Hv]. by rewrite (proj2 Hr0 Hl) in Hv.
Qed.
End Coordinator.

(** ** Claims on a small queue *)

Module CoordinatorExamples.
Import MemStore LockExamples.
Definition unit_a : WorkUnit := {| wu_path := "a"; wu_start := 0; wu_end := 1 |}.
Definition unit_b : WorkUnit := {| wu_path := "a"; wu_start := 1; wu_end := 2 |}.
Definition queue : ObjectStoreCoordinator := coordinator_new [unit_a; unit_b] 30.
Definition alone (o : string) (now : Z) : nat → attempt (S:=store) :=
  fun i => {| at_owner := o; at_clock := at_sec now; at_env := quiet |}.
(** Machine [m] holds the first unit until second 30. *)
Definition held (m : string) : store := {[ lease_path unit_a := to_bytes {| owner := m; expires_at := 30 |} ]}.

Lemma held_first : leased queue (alone "B" 10) (lease_path unit_a) (held "A").
Proof. exists {| owner := "A"; expires_at := 30 |}. split; [by vm_compute|]. intros i. by vm_compute. Qed.

Definition lease_b : Lease := {| le_unit := unit_b; le_guard := {| g_path := lease_path unit_b; g_owner := "B" |} |}.
Lemma claims_second : (claim queue (alone "B" 10) ∅ (held "A")).2 = Ok (Some lease_b).
Proof. vm_compute. reflexivity. Qed.
Lemma claim_takes_free_unit_witness :
  (claim queue (alone "B" 10) ∅ (held "A")).2 = Ok (Some lease_b)
  ∧ unit_key (le_unit lease_b) ∉ (∅ : gset string) ∧ lease_path (le_unit lease_b) ≠ lease_path unit_a.
Proof.
  split; [exact claims_second|].
  destruct (claim_takes_free_unit queue (alone "B" 10) ∅ (held "A") (claim queue (alone "B" 10) ∅ (held "A")).1 lease_b)
    as [(_ & Hk & _) Hno].
  - intros i. apply quiet_interferes.
  - intros u _. apply mem_supports_update.
  - rewrite <- claims_second. apply surjective_pairing.
  - split; [exact Hk|]. apply Hno; [intros j n s Hl; exact Hl|exact held_first].
Defined.

(** After a lease has expired the unit is claimed again. *)
Example expired_is_stolen :
  (claim queue (alone "B" 36) ∅ (held "A")).2 = Ok (Some {| le_unit := unit_a; le_guard := {| g_path := lease_path unit_a; g_owner := "B" |} |}).
Proof. vm_compute. reflexivity. Qed.

Definition lease_a : Lease := {| le_unit := unit_a; le_guard := {| g_path := lease_path unit_a; g_owner := "A" |} |}.
Lemma mem_readable (s : store) : readable s.
Proof.
  split; [|done]. intros p x. cbn [os_objs os_get mem_store]. unfold mem_get. destruct (s !! p); intros; by simplify_eq/=.
Qed.
Definition after : store := {[ done_path unit_a := String.list_byte_of_string (unit_key unit_a) ]}.
Lemma completed_lists_marked_witness :
  complete quiet lease_a (held "A") = (after, Ok ())
  ∧ completed quiet after = (after, Ok {[ unit_key unit_a ]}) ∧ unit_key unit_a ∈ ({[ unit_key unit_a ]} : gset string).
Proof.
  assert (complete quiet lease_a (held "A") = (after, Ok ())) as Hc by (vm_compute; reflexivity).
  assert (completed quiet after = (after, Ok {[ unit_key unit_a ]})) as Hk by (vm_compute; reflexivity).
  assert (from_utf8 (unit_key (le_unit lease_a)) = Some (unit_key (le_unit lease_a))) as Hu by (vm_compute; reflexivity).
  split; [exact Hc|]. split; [exact Hk|].
  refine (proj2 (completed_lists_marked quiet quiet lease_a (held "A") after after after _ _ eq_refl Hc _ _ (mem_readable after) Hu Hk)).
  - by intros n s.
  - exists (String.list_byte_of_string (unit_key unit_a)). cbn [os_objs mem_store]. unfold after. by rewrite lookup_singleton_eq.
  - by intros n s.
Defined.
End CoordinatorExamples.
