(* ===== verification/Ingest.v ===== *)
(** * Bulk ingest

    [src/src/core/table/ingest.rs]: input files are planned into units of work, the units are read
    and built into segments by a pool of workers, and committed one after the other.  A run on one
    machine records completed units in a sidecar object, so that the next run resumes; several
    machines share a queue through the [Coordinator].  The readers of the file formats, the segment
    writer and the table's commit are parameters; [IngestTable] is what the commit promises. *)

From S2P Require Import Prelude ObjectStore Lock Json ManifestTypes Manifest ManifestStore Deletes Merge Planner PlannerSpec Coordinator.
Open Scope nat_scope.

(** ** Plans *)

Inductive IngestFormat := FmtParquet | FmtCsv | FmtJson | FmtIpc.
Definition from_path (path : string) : option IngestFormat :=
  let lower := to_ascii_lowercase path in
  if ends_with ".parquet" lower then Some FmtParquet
  else if ends_with ".csv" lower then Some FmtCsv
  else if ends_with ".json" lower || ends_with ".ndjson" lower || ends_with ".jsonl" lower then Some FmtJson
  else if ends_with ".arrow" lower || ends_with ".ipc" lower || ends_with ".feather" lower then Some FmtIpc
  else None.
Definition is_random_access (f : IngestFormat) : bool := match f with FmtParquet => true | _ => false end.

Inductive ierr :=
| UnsupportedFormat (path : string) | OpenFailed (path : string) | EmbeddingMismatch | WriteFailed
| CommitRefused | SaveFailed (e : os_error) | ClaimFailed (e : os_error) | CompleteFailed (e : os_error)
| CompactFailed | OutOfFuel.

Abbreviation IngestRow := (gmap string Cell).
Record IngestField := { fd_name : string; fd_type : string; fd_nullable : bool }.
#[export] Instance IngestField_eq_dec : EqDecision IngestField.
Proof. solve_decision. Defined.
Record Batch := { b_schema : list IngestField; b_rows : list IngestRow }.

Section Plan.
(** What the readers of Parquet and of the other formats give for a file. *)
Context (parquet_file : string → option Batch) (stream_file : IngestFormat → string → option Batch).

(** The [while] loop; every round takes at least one row, so that the number of rows is enough fuel. *)
Fixpoint plan_rows (fuel : nat) (p : string) (chunk s n : nat) : list WorkUnit :=
  match fuel with
  | O => []
  | S fuel =>
      if decide (s < n) then
        let e := Nat.min (s + chunk) n in
        {| wu_path := p; wu_start := s; wu_end := e |} :: plan_rows fuel p chunk e n
      else []
  end.
Definition plan_file (chunk : nat) (p : string) : result ierr (list WorkUnit) :=
  match from_path p with
  | None => Err (UnsupportedFormat p)
  | Some fmt =>
      if is_random_access fmt then
        match parquet_file p with
        | None => Err (OpenFailed p)
        | Some b => let n := length (b_rows b) in Ok (plan_rows n p chunk 0 n)
        end
      else Ok [{| wu_path := p; wu_start := 0; wu_end := 0 |}]
  end.
Fixpoint plan_files (chunk : nat) (paths : list string) : result ierr (list WorkUnit) :=
  match paths with
  | [] => Ok []
  | p :: paths => us ← plan_file chunk p; rest ← plan_files chunk paths; Ok (us ++ rest)
  end.
Definition plan_ingest (paths : list string) (chunk_rows : nat) : result ierr (list WorkUnit) :=
  plan_files (Nat.max chunk_rows 1) paths.

(** *** Reading a unit *)

Definition read_parquet_range (path : string) (start end_ : nat) : result ierr Batch :=
  match parquet_file path with
  | None => Err (OpenFailed path)
  | Some b => Ok {| b_schema := b_schema b; b_rows := take (end_ - start) (drop start (b_rows b)) |}
  end.
Definition read_range (u : WorkUnit) : result ierr Batch :=
  match from_path (wu_path u) with
  | Some FmtParquet => read_parquet_range (wu_path u) (wu_start u) (wu_end u)
  | Some fmt => match stream_file fmt (wu_path u) with Some b => Ok b | None => Err (OpenFailed (wu_path u)) end
  | None => Err (UnsupportedFormat (wu_path u))
  end.

(** The rows of a file, and of a unit. *)
Definition file_batch (p : string) : option Batch :=
  match from_path p with Some FmtParquet => parquet_file p | Some fmt => stream_file fmt p | None => None end.
Definition file_rows (p : string) : list IngestRow := from_option b_rows [] (file_batch p).
Definition raw_rows (u : WorkUnit) : list IngestRow := from_option b_rows [] (res_ok (read_range u)).

Lemma plan_rows_reads fuel p chunk s n b :
  from_path p = Some FmtParquet → parquet_file p = Some b → n = length (b_rows b) → 0 < chunk → n - s ≤ fuel →
  plan_rows fuel p chunk s n ≫= raw_rows = drop s (b_rows b)
  ∧ Forall (fun u => wu_path u = p ∧ s ≤ wu_start u < wu_end u ∧ wu_end u ≤ n ∧ wu_end u - wu_start u ≤ chunk)
      (plan_rows fuel p chunk s n)
  ∧ Sorted.StronglySorted (fun u u' => wu_end u ≤ wu_start u') (plan_rows fuel p chunk s n).
Proof.
  intros Hp Hb Hn Hc. revert s. induction fuel as [|fuel IH]; intros s Hf.
  { cbn [plan_rows]. split_and!; [|constructor|constructor]. symmetry. apply drop_ge. lia. }
  cbn [plan_rows]. case_decide as Hs.
  2: { split_and!; [|constructor|constructor]. symmetry. apply drop_ge. lia. }
  destruct (IH (Nat.min (s + chunk) n)) as (Hr & Hall & Hsort); [lia|]. set (e := Nat.min (s + chunk) n) in *.
  assert (s < e ≤ n ∧ e - s ≤ chunk) as He by lia. clearbody e.
  split_and!.
  - rewrite bind_cons, Hr. unfold raw_rows, read_range, read_parquet_range. cbn [wu_path wu_start wu_end]. rewrite Hp, Hb. cbn.
    rewrite <- (take_drop (e - s) (drop s (b_rows b))) at 2. f_equal. rewrite drop_drop. f_equal. lia.
  - constructor; [cbn; split; [done|lia]|]. eapply Forall_impl; [exact Hall|]. intros u (-> & Hu). split; [done|lia].
  - constructor; [done|]. eapply Forall_impl; [exact Hall|]. cbn. intros u (_ & Hu). lia.
Qed.

Lemma plan_file_reads chunk p us :
  0 < chunk → plan_file chunk p = Ok us →
  us ≫= raw_rows = file_rows p
  ∧ Forall (fun u => wu_path u = p ∧
      match from_path p with
      | Some FmtParquet => wu_start u < wu_end u ≤ length (file_rows p) ∧ wu_end u - wu_start u ≤ chunk
      | _ => wu_start u = 0 ∧ wu_end u = 0
      end) us
  ∧ NoDup us.
Proof.
  intros Hc. unfold plan_file, file_rows, file_batch. destruct (from_path p) as [fmt|] eqn:Hf; [|done].
  destruct fmt; cbn [is_random_access].
  { destruct (parquet_file p) as [b|] eqn:Hb; [|done]. intros [= <-].
    destruct (plan_rows_reads (length (b_rows b)) p chunk 0 _ b Hf Hb eq_refl Hc ltac:(lia)) as (Hr & Hall & Hsort).
    split_and!; [by rewrite Hr| |].
    - eapply Forall_impl; [exact Hall|]. cbn. intros u (-> & Hu). split; [done|lia].
    - clear Hr. induction Hsort as [|u us Hs IH Hu]; [constructor|]. apply Forall_cons in Hall as [(_ & Hlt & _) Hall].
      constructor; [|by apply IH]. intros Hin. rewrite Forall_forall in Hu. specialize (Hu u Hin). lia. }
  all: intros [= <-]; split_and!; [|by repeat constructor|by apply NoDup_singleton].
  all: rewrite bind_cons; cbn [mbind list_bind]; rewrite app_nil_r; unfold raw_rows, read_range; cbn [wu_path]; rewrite Hf;
    destruct (stream_file _ p) as [b|]; reflexivity.
Qed.

(** A plan covers its input: reading the units in order gives the rows of the files, each once; the
    units of a Parquet file are not empty, have at most the given number of rows, and no unit occurs
    twice when no file does. *)
Theorem plan_covers_input paths chunk_rows us :
  plan_ingest paths chunk_rows = Ok us →
  us ≫= raw_rows = paths ≫= file_rows
  ∧ Forall (fun u => wu_path u ∈ paths ∧
      match from_path (wu_path u) with
      | Some FmtParquet => wu_start u < wu_end u ≤ length (file_rows (wu_path u)) ∧ wu_end u - wu_start u ≤ Nat.max chunk_rows 1
      | _ => wu_start u = 0 ∧ wu_end u = 0
      end) us
  ∧ (NoDup paths → NoDup (unit_key <$> us)).
Proof.
  unfold plan_ingest. set (chunk := Nat.max chunk_rows 1). assert (0 < chunk) as Hc by lia. clearbody chunk.
  revert us. induction paths as [|p paths IH]; intros us; cbn [plan_files].
  { intros [= <-]. split_and!; [done|constructor|intros; constructor]. }
  destruct (plan_file chunk p) as [us1|e] eqn:Hp; [|done]. cbn [mbind result_bind].
  destruct (plan_files chunk paths) as [us2|e]; [|done]. cbn [mbind result_bind]. intros [= <-].
  destruct (plan_file_reads chunk p us1 Hc Hp) as (Hr1 & Hall1 & Hnd1). destruct (IH us2 eq_refl) as (Hr2 & Hall2 & Hnd2).
  split_and!.
  - by rewrite bind_app, bind_cons, Hr1, Hr2.
  - apply Forall_app. split; [eapply Forall_impl; [exact Hall1|]; intros u [-> Hu]|eapply Forall_impl; [exact Hall2|]; intros u [Hin Hu]];
      (split; [set_solver|done]).
  - intros [Hnp Hnps]%NoDup_cons. rewrite fmap_app. apply NoDup_app. split_and!.
    + by apply NoDup_fmap_2; [intros u u'; apply unit_key_inj|].
    + intros k (u & -> & Hu)%list_elem_of_fmap (u' & Hk%unit_key_inj & Hu')%list_elem_of_fmap. subst u'.
      rewrite Forall_forall in Hall1. rewrite Forall_forall in Hall2. destruct (Hall1 u Hu) as [Hpu _].
      destruct (Hall2 u Hu') as [Hin _]. apply Hnp. by rewrite <- Hpu.
    + by apply Hnd2.
Qed.
End Plan.

(** ** Building a segment *)

Section Build.
Context (parquet_file : string → option Batch) (stream_file : IngestFormat → string → option Batch).
(** The schema of the table, the dimension guard of the embedding columns, and whether the segment
    writer writes a batch. *)
Context (table_schema : list IngestField) (embedding_ok write_ok : Batch → bool).

Definition has_nulls (name : string) (rows : list IngestRow) : bool :=
  existsb (fun r : IngestRow => match r !! name with Some CNull | None => true | _ => false end) rows.
(** [RecordBatch::try_new] of the aligned columns: types agree, and only nullable fields have nulls. *)
Definition aligned_ok (b : Batch) : bool :=
  forallb (fun f =>
    match list_find (fun f' => fd_name f' = fd_name f) (b_schema b) with
    | Some (_, f') => bool_decide (fd_type f' = fd_type f) && (fd_nullable f || negb (has_nulls (fd_name f) (b_rows b)))
    | None => fd_nullable f || Nat.eqb (length (b_rows b)) 0
    end) table_schema.
Definition align_row (r : IngestRow) : IngestRow := filter (fun kv => kv.1 ∈ fd_name <$> table_schema) r.
Definition align (b : Batch) : Batch :=
  if decide (table_schema = [] ∨ b_schema b = table_schema) then b
  else if aligned_ok b then {| b_schema := table_schema; b_rows := align_row <$> b_rows b |} else b.

Definition build_ingest_segment (b : Batch) : result ierr Batch :=
  let b := align b in
  if embedding_ok b then if write_ok b then Ok b else Err WriteFailed else Err EmbeddingMismatch.
Definition build_unit (u : WorkUnit) : result ierr Batch :=
  b ← read_range parquet_file stream_file u; build_ingest_segment b.

(** What a unit holds once it has been built. *)
Definition unit_batch (u : WorkUnit) : Batch :=
  match read_range parquet_file stream_file u with Ok b => align b | Err _ => {| b_schema := []; b_rows := [] |} end.
Lemma build_unit_batch u b : build_unit u = Ok b → b = unit_batch u.
Proof.
  unfold build_unit, unit_batch. destruct (read_range _ _ u) as [b0|e]; [|done]. cbn [mbind result_bind].
  unfold build_ingest_segment. by repeat case_match; intros; simplify_eq.
Qed.
End Build.

(** ** The table *)

(** A commit adds the rows of the segment, and may have done so when it reports an error; compaction
    keeps the rows of a table that it can compact. *)
Class IngestTable (T : Type) := {
  it_rows : T → list IngestRow;
  it_commit : Batch → T → T * option string;
  it_compact : T → T * bool;
  can_compact : T → Prop;
  it_commit_ok b t t' p : it_commit b t = (t', Some p) → it_rows t' ≡ₚ it_rows t ++ b_rows b;
  it_commit_err b t t' : it_commit b t = (t', None) → it_rows t' ≡ₚ it_rows t ∨ it_rows t' ≡ₚ it_rows t ++ b_rows b;
  it_compact_rows t : can_compact t → it_rows (it_compact t).1 ≡ₚ it_rows t
}.

Record IngestOptions := {
  chunk_rows : nat; parallelism : nat; index_all : bool; resume : bool; compact_after : bool;
  memory_budget_bytes : option Z
}.
Definition IngestOptions_default : IngestOptions :=
  {| chunk_rows := 10 ^ 6; parallelism := 4; index_all := false; resume := true; compact_after := false;
     memory_budget_bytes := None |}.
Record IngestReport := {
  units_total : nat; units_skipped : nat; units_committed : nat; rows_ingested : nat; segments : list string
}.
Definition count_unit (r : IngestReport) (rows : nat) (path : string) : IngestReport :=
  {| units_total := units_total r; units_skipped := units_skipped r; units_committed := S (units_committed r);
     rows_ingested := rows_ingested r + rows; segments := segments r ++ [path] |}.

(** ** One machine *)

Definition ingest_state_path : string := "_ingest_state.json".
Definition string_le (s t : string) : Prop := String.leb s t = true.
#[export] Instance string_le_dec s t : Decision (string_le s t).
Proof. unfold string_le. apply _. Defined.

Section Run.
Context {S V T : Type} `{!ObjectStore S V, !Codec (list string), !IngestTable T}.
Context (parquet_file : string → option Batch) (stream_file : IngestFormat → string → option Batch).

Definition load_ingest_state (st : S) : gset string :=
  match os_get st ingest_state_path with
  | Ok (body, _) => list_to_set (default [] (from_bytes body))
  | Err _ => ∅
  end.
Definition save_ingest_state (completed : gset string) (st : S) : S * result os_error () :=
  match os_put st ingest_state_path (to_bytes (merge_sort string_le (elements completed))) Overwrite with
  | (st, Ok _) => (st, Ok ())
  | (st, Err e) => (st, Err e)
  end.

(** The results of the workers, in the order they finish: each is committed and recorded. *)
Fixpoint commit_results (results : list (WorkUnit * result ierr Batch)) (completed : gset string)
    (report : IngestReport) (st : S) (t : T) : S * T * result ierr IngestReport :=
  match results with
  | [] => (st, t, Ok report)
  | (_, Err e) :: _ => (st, t, Err e)
  | (u, Ok b) :: results =>
      match it_commit b t with
      | (t, None) => (st, t, Err CommitRefused)
      | (t, Some path) =>
          let completed := {[ unit_key u ]} ∪ completed in
          match save_ingest_state completed st with
          | (st, Err e) => (st, t, Err (SaveFailed e))
          | (st, Ok _) => commit_results results completed (count_unit report (length (b_rows b)) path) st t
          end
      end
  end.

Definition ingest_units (build : WorkUnit → result ierr Batch) (finish : list WorkUnit → list WorkUnit)
    (planned : list WorkUnit) (options : IngestOptions) (st : S) (t : T) : S * T * result ierr IngestReport :=
  let completed := if resume options then load_ingest_state st else ∅ in
  let pending := filter (fun u => unit_key u ∉ completed) planned in
  let report := {| units_total := length planned; units_skipped := length planned - length pending;
                   units_committed := 0; rows_ingested := 0; segments := [] |} in
  match pending with
  | [] => (st, t, Ok report)
  | _ => commit_results ((fun u => (u, build u)) <$> finish pending) completed report st t
  end.

Definition then_compact (options : IngestOptions) (r : S * T * result ierr IngestReport) : S * T * result ierr IngestReport :=
  match r with
  | (st, t, Ok report) =>
      if compact_after options then
        match it_compact t with (t, true) => (st, t, Ok report) | (t, false) => (st, t, Err CompactFailed) end
      else (st, t, Ok report)
  | _ => r
  end.
(** If a run compacts the table, it can be compacted. *)
Definition compacts_safely (options : IngestOptions) (r : S * T * result ierr IngestReport) : Prop :=
  match r with (_, t, Ok _) => compact_after options = true → can_compact t | _ => True end.
Definition ingest (build : WorkUnit → result ierr Batch) (finish : list WorkUnit → list WorkUnit) (paths : list string)
    (options : IngestOptions) (st : S) (t : T) : S * T * result ierr IngestReport :=
  match plan_ingest parquet_file paths (chunk_rows options) with
  | Err e => (st, t, Err e)
  | Ok planned => then_compact options (ingest_units build finish planned options st t)
  end.
Definition ingest_range (build : WorkUnit → result ierr Batch) (finish : list WorkUnit → list WorkUnit) (path : string)
    (row_start row_end : nat) (options : IngestOptions) (st : S) (t : T) : S * T * result ierr IngestReport :=
  then_compact options
    (ingest_units build finish [{| wu_path := path; wu_start := row_start; wu_end := row_end |}] options st t).
End Run.

(** *** Runs and their resumption *)

Section Resume.
Context {S V T : Type} `{!ObjectStore S V, !ObjectStoreLaws S V, !Codec (list string), !IngestTable T}.
Context (Hread : ∀ (st : S) x, os_objs st ingest_state_path = Some x → os_get st ingest_state_path = Ok x).
(** The content of the units, and the plan. *)
Context (content : WorkUnit → Batch) (planned : list WorkUnit) (Hplan : NoDup (unit_key <$> planned)).
Context (base : list IngestRow).
Notation rows_of_units us := (us ≫= (fun u => b_rows (content u))).

Definition recorded (K : gset string) : list WorkUnit := filter (fun u => unit_key u ∈ K) planned.
(** The table holds exactly the recorded units beside what it held before. *)
Definition holds_recorded (K : gset string) (t : T) : Prop := it_rows t ≡ₚ base ++ rows_of_units (recorded K).
Definition in_step (st : S) (t : T) : Prop := holds_recorded (load_ingest_state st) t.
(** The table holds one unit more. *)
Definition one_ahead (st : S) (t : T) : Prop :=
  ∃ u, u ∈ planned ∧ unit_key u ∉ load_ingest_state st
    ∧ it_rows t ≡ₚ (base ++ rows_of_units (recorded (load_ingest_state st))) ++ b_rows (content u).

Lemma load_saved (st : S) K v :
  os_objs st ingest_state_path = Some (to_bytes (merge_sort string_le (elements K)), v) → load_ingest_state st = K.
Proof.
  intros Ho%Hread. unfold load_ingest_state. rewrite Ho, from_to_bytes. cbn. apply set_eq. intros k.
  by rewrite elem_of_list_to_set, merge_sort_Permutation, elem_of_elements.
Qed.
Lemma save_ok K (st st' : S) : save_ingest_state K st = (st', Ok ()) → load_ingest_state st' = K.
Proof.
  unfold save_ingest_state. destruct (os_put _ _ _ _) as [s [v|e]] eqn:Hp; [|done]. intros [= <-].
  apply os_put_ok in Hp as [[Hp _] _]. by eapply load_saved.
Qed.
Lemma load_same (st st' : S) : os_same st st' → load_ingest_state st' = load_ingest_state st.
Proof.
  intros Hs. specialize (Hs ingest_state_path). unfold load_ingest_state.
  destruct (os_objs st ingest_state_path) as [x|] eqn:Ho.
  - by rewrite (Hread st x Ho), (Hread st' x).
  - destruct (os_get st _) as [y|] eqn:H1; [apply os_get_ok in H1; congruence|].
    destruct (os_get st' _) as [y|] eqn:H2; [apply os_get_ok in H2; congruence|]. done.
Qed.
Lemma save_err K (st st' : S) e :
  save_ingest_state K st = (st', Err e) → load_ingest_state st' = K ∨ load_ingest_state st' = load_ingest_state st.
Proof.
  unfold save_ingest_state. destruct (os_put _ _ _ _) as [s [v|e']] eqn:Hp; [done|]. intros [= <- <-].
  apply os_put_err in Hp as [Hs|(_ & v & [Hp _] & _)]; [right; by apply load_same|left; by eapply load_saved].
Qed.

Lemma recorded_insert K u :
  u ∈ planned → unit_key u ∉ K → recorded ({[ unit_key u ]} ∪ K) ≡ₚ recorded K ++ [u].
Proof.
  intros Hu Hk. pose proof (NoDup_fmap_1 _ _ Hplan) as Hnd. unfold recorded. apply NoDup_Permutation.
  - by apply NoDup_filter.
  - apply NoDup_app. split_and!; [by apply NoDup_filter| |apply NoDup_singleton].
    intros x [Hx _]%list_elem_of_filter ->%list_elem_of_singleton. done.
  - intros x. rewrite elem_of_app, !list_elem_of_filter, list_elem_of_singleton, elem_of_union, elem_of_singleton. split.
    + intros [[Hx%unit_key_inj|Hx] Hin]; [by right|by left].
    + intros [[Hx Hin]| ->]; [by split; [right|]|by split; [left|]].
Qed.

(** Committing the results in any order keeps the table in step; a failed commit or sidecar write may
    leave it one unit ahead. *)
Lemma commit_results_step (build : WorkUnit → result ierr Batch) us K report (st st' : S) (t t' : T) r :
  (∀ u b, build u = Ok b → b = content u) → NoDup (unit_key <$> us) → (∀ u, u ∈ us → u ∈ planned ∧ unit_key u ∉ K) →
  load_ingest_state st = K → holds_recorded K t →
  commit_results ((fun u => (u, build u)) <$> us) K report st t = (st', t', r) →
  (in_step st' t' ∨ one_ahead st' t' ∧ (r = Err CommitRefused ∨ ∃ e, r = Err (SaveFailed e)))
  ∧ ∀ rep, r = Ok rep →
      load_ingest_state st' = list_to_set (unit_key <$> us) ∪ K ∧ in_step st' t'
      ∧ it_rows t' ≡ₚ it_rows t ++ rows_of_units us
      ∧ units_total rep = units_total report ∧ units_skipped rep = units_skipped report
      ∧ units_committed rep = units_committed report + length us
      ∧ rows_ingested rep = rows_ingested report + length (rows_of_units us).
Proof.
  intros Hb. revert K report st t. induction us as [|u us IH]; intros K report st t Hnd Hus HK Hh.
  { intros [= <- <- <-]. unfold in_step. rewrite HK. split; [by left|]. intros rep [= <-]. cbn.
    split_and!; [by rewrite (left_id_L ∅ (∪))|done|by rewrite app_nil_r|done|done|lia|lia]. }
  rewrite fmap_cons in *. apply NoDup_cons in Hnd as [Hn Hnd]. destruct (Hus u ltac:(left)) as [Hu Hk]. cbn [commit_results].
  destruct (build u) as [b|e] eqn:Hbu; [|intros [= <- <- <-]; split; [left; unfold in_step; by rewrite HK|done]].
  apply Hb in Hbu as ->.
  destruct (it_commit (content u) t) as [t1 [path|]] eqn:Hc.
  2: { intros [= <- <- <-]. split; [|done]. apply it_commit_err in Hc as [Hc|Hc].
       - left. unfold in_step, holds_recorded. rewrite HK. by rewrite Hc.
       - right. split; [|by left]. exists u. rewrite HK. split_and!; [done|done|]. by rewrite Hc, Hh. }
  apply it_commit_ok in Hc. assert (holds_recorded ({[unit_key u]} ∪ K) t1) as Hh1.
  { unfold holds_recorded. rewrite Hc, Hh, (recorded_insert K u Hu Hk), bind_app, bind_cons. cbn [mbind list_bind].
    by rewrite app_nil_r, (assoc_L (++)). }
  destruct (save_ingest_state _ st) as [st1 [[]|e]] eqn:Hs.
  - apply save_ok in Hs. intros Hr. eapply IH in Hr as [Hl Hok]; [|done| |done|done].
    + split; [done|]. intros rep Hrep. destruct (Hok rep Hrep) as (-> & Hstep & Hrw & Ht & Hsk & Hn1 & Hn2).
      cbn [count_unit units_total units_skipped units_committed rows_ingested] in Ht, Hsk, Hn1, Hn2.
      split_and!; [by rewrite fmap_cons, list_to_set_cons, (assoc_L (∪)), (comm_L (∪) {[ _ ]})|done| |done|done|cbn; lia|
        rewrite bind_cons, length_app; lia].
      by rewrite Hrw, Hc, bind_cons, (assoc_L (++)).
    + intros u' Hu'. destruct (Hus u') as [Hp Hk']; [by right|]. split; [done|]. rewrite not_elem_of_union, not_elem_of_singleton.
      split; [|done]. intros Heq. apply Hn. rewrite <- Heq. by apply list_elem_of_fmap_2.
  - intros [= <- <- <-]. split; [|done]. destruct (save_err _ _ _ _ Hs) as [Hl|Hl].
    + left. unfold in_step. by rewrite Hl.
    + right. split; [|right; by eexists]. exists u. rewrite Hl, HK. split_and!; [done|done|]. by rewrite Hc, Hh.
Qed.

Lemma recorded_all K : (∀ u, u ∈ planned → unit_key u ∈ K) → recorded K = planned.
Proof.
  intros Hall. unfold recorded. induction planned as [|u l IH]; [done|]. rewrite filter_cons_True by (apply Hall; left).
  f_equal. apply IH; [|intros; apply Hall; by right]. by apply NoDup_cons in Hplan as [_ ?].
Qed.

Lemma ingest_units_step build finish options (st st' : S) (t t' : T) r :
  (∀ u b, build u = Ok b → b = content u) → (∀ l, finish l ≡ₚ l) → resume options = true → in_step st t →
  ingest_units build finish planned options st t = (st', t', r) →
  (in_step st' t' ∨ one_ahead st' t' ∧ (r = Err CommitRefused ∨ ∃ e, r = Err (SaveFailed e)))
  ∧ ∀ rep, r = Ok rep → in_step st' t' ∧ recorded (load_ingest_state st') = planned
      ∧ units_committed rep + units_skipped rep = units_total rep
      ∧ length (it_rows t') = length (it_rows t) + rows_ingested rep.
Proof.
  intros Hb Hf Hres Hin. unfold ingest_units. rewrite Hres.
  set (K := load_ingest_state st). set (pending := filter (fun u => unit_key u ∉ K) planned).
  assert (length pending ≤ length planned) as Hle by apply length_filter.
  assert (∀ u, u ∈ finish pending → u ∈ planned ∧ unit_key u ∉ K) as Hpend.
  { intros u Hu. rewrite (Hf pending) in Hu. apply list_elem_of_filter in Hu. naive_solver. }
  assert (∀ K', (∀ k, k ∈ K' ↔ k ∈ unit_key <$> pending ∨ k ∈ K) → recorded K' = planned) as Hrec.
  { intros K' HK'. apply recorded_all. intros u Hu. apply HK'. destruct (decide (unit_key u ∈ K)); [by right|left].
    apply list_elem_of_fmap_2, list_elem_of_filter. done. }
  destruct pending as [|u us] eqn:Hp.
  { intros [= <- <- <-]. split; [by left|]. intros rep [= <-]. cbn. split_and!; [done|apply Hrec; set_solver|lia|lia]. }
  rewrite <- Hp in *. set (report := {| units_total := _ |}). intros Hr.
  destruct (commit_results_step build (finish pending) K report st st' t t' r Hb) as [Hl Hok]; [|done|done|done|done|].
  { rewrite (Hf pending). unfold pending. clear -Hplan. induction planned as [|x l IH]; [constructor|].
    apply NoDup_cons in Hplan as [Hx Hnd]. rewrite filter_cons. case_decide; [|by apply IH]. rewrite fmap_cons. constructor; [|by apply IH].
    intros (y & Hy & Hin)%list_elem_of_fmap. apply list_elem_of_filter in Hin as [_ Hin]. apply Hx. rewrite Hy. by apply list_elem_of_fmap_2. }
  split; [done|]. intros rep Hrep. destruct (Hok rep Hrep) as (HK' & Hstep & Hrw & Ht & Hsk & Hn1 & Hn2).
  assert (recorded (load_ingest_state st') = planned) as Hall.
  { apply Hrec. intros k. rewrite HK', elem_of_union, elem_of_list_to_set, (Hf pending). done. }
  split_and!; [done|done| |].
  - rewrite Hn1, Ht, Hsk, (Hf pending). cbn. lia.
  - rewrite Hrw, length_app, Hn2. done.
Qed.
End Resume.

(** *** Any number of runs *)

Section Histories.
Context {S V T : Type} `{!ObjectStore S V, !ObjectStoreLaws S V, !Codec (list string), !IngestTable T}.
Context (parquet_file : string → option Batch) (stream_file : IngestFormat → string → option Batch).
Context (table_schema : list IngestField) (paths : list string) (chunk : nat).
Notation unit_batch := (unit_batch parquet_file stream_file table_schema).
Notation run embedding_ok write_ok finish options :=
  (ingest parquet_file (build_unit parquet_file stream_file table_schema embedding_ok write_ok) finish paths options).

(** A run of the plan, up to the compaction. *)
Notation units_run embedding_ok write_ok finish planned options :=
  (ingest_units (build_unit parquet_file stream_file table_schema embedding_ok write_ok) finish planned options).

(** A run that may fail at a file, at the embedding guard, at the writer or at the compaction, but whose
    commits and sidecar writes succeed; it resumes with the same size of chunks, and compacts only a
    table that can be compacted. *)
Definition clean_run (x y : S * T) : Prop :=
  ∃ embedding_ok write_ok finish options r,
    (∀ l, finish l ≡ₚ l) ∧ resume options = true ∧ chunk_rows options = chunk
    ∧ (∀ planned, plan_ingest parquet_file paths chunk = Ok planned →
         compacts_safely options (units_run embedding_ok write_ok finish planned options x.1 x.2))
    ∧ run embedding_ok write_ok finish options x.1 x.2 = (y.1, y.2, r)
    ∧ r ≠ Err CommitRefused ∧ ∀ e, r ≠ Err (SaveFailed e).

Lemma recorded_none planned : recorded planned ∅ = [].
Proof. unfold recorded. induction planned as [|u l IH]; [done|]. by rewrite filter_cons_False by set_solver. Qed.
Lemma holds_recorded_perm content planned base K (t t' : T) :
  it_rows t' ≡ₚ it_rows t → holds_recorded content planned base K t → holds_recorded content planned base K t'.
Proof. unfold holds_recorded. by intros ->. Qed.

Lemma ingest_step planned base emb wr finish options (st st' : S) (t t' : T) r :
  (∀ (st : S) x, os_objs st ingest_state_path = Some x → os_get st ingest_state_path = Ok x) →
  NoDup (unit_key <$> planned) → plan_ingest parquet_file paths (chunk_rows options) = Ok planned →
  (∀ l, finish l ≡ₚ l) → resume options = true → in_step unit_batch planned base st t →
  compacts_safely options (units_run emb wr finish planned options st t) →
  run emb wr finish options st t = (st', t', r) → r ≠ Err CommitRefused → (∀ e, r ≠ Err (SaveFailed e)) →
  in_step unit_batch planned base st' t'
  ∧ ∀ rep, r = Ok rep → recorded planned (load_ingest_state st') = planned
      ∧ units_committed rep + units_skipped rep = units_total rep
      ∧ length (it_rows t') = length (it_rows t) + rows_ingested rep.
Proof.
  intros Hread Hnd Hplan Hf Hres Hin Hsafe. unfold ingest. rewrite Hplan.
  destruct (ingest_units _ finish planned options st t) as [[st1 t1] r1] eqn:Hrun.
  destruct (ingest_units_step Hread unit_batch planned Hnd base _ finish options st st1 t t1 r1
    (build_unit_batch _ _ _ emb wr) Hf Hres Hin Hrun) as [Hl Hok]. unfold then_compact. destruct r1 as [rep|e].
  - destruct (Hok rep eq_refl) as (Hs & Hrec & Hn1 & Hn2). unfold compacts_safely in Hsafe. destruct (compact_after options).
    + pose proof (it_compact_rows t1 (Hsafe eq_refl)) as Hrows. destruct (it_compact t1) as [t2 []]; cbn in Hrows; intros [= <- <- <-] _ _.
      * split; [by eapply holds_recorded_perm|]. intros rep' [= <-]. by rewrite Hrows.
      * split; [by eapply holds_recorded_perm|done].
    + intros [= <- <- <-] _ _. split; [done|]. intros rep' [= <-]. done.
  - intros [= <- <- <-] H1 H2. split; [|done]. destruct Hl as [?|[_ [?|[e' ?]]]]; [done|done|by destruct (H2 e')].
Qed.

Lemma clean_runs_in_step planned base (x y : S * T) :
  (∀ (st : S) x, os_objs st ingest_state_path = Some x → os_get st ingest_state_path = Ok x) →
  NoDup (unit_key <$> planned) → plan_ingest parquet_file paths chunk = Ok planned →
  rtc clean_run x y → in_step unit_batch planned base x.1 x.2 → in_step unit_batch planned base y.1 y.2.
Proof.
  intros Hread Hnd Hplan. induction 1 as [x|x y z (emb & wr & fin & opt & r & Hf & Hr & Hc & Hsafe & Hrn & Hne1 & Hne2) _ IH]; [done|].
  intros H0. apply IH. specialize (Hsafe _ Hplan). rewrite <- Hc in Hplan. eapply (ingest_step planned _ emb wr fin opt x.1 y.1 x.2 y.2 r); eauto.
Qed.

Lemma raw_rows_batch u :
  (∀ b, read_range parquet_file stream_file u = Ok b → table_schema = [] ∨ b_schema b = table_schema) →
  b_rows (unit_batch u) = raw_rows parquet_file stream_file u.
Proof.
  intros Hs. unfold raw_rows, Ingest.unit_batch. destruct (read_range _ _ u) as [b|e]; [|done]. cbn.
  unfold align. by rewrite decide_True by (by apply Hs).
Qed.
Lemma read_range_schema u b :
  read_range parquet_file stream_file u = Ok b → ∃ b0, file_batch parquet_file stream_file (wu_path u) = Some b0 ∧ b_schema b = b_schema b0.
Proof.
  unfold read_range, file_batch. destruct (from_path (wu_path u)) as [[]|]; [|..|done]; unfold read_parquet_range.
  1: destruct (parquet_file (wu_path u)) as [b0|]; [|done].
  2-4: destruct (stream_file _ (wu_path u)) as [b0|]; [|done].
  all: intros [= <-]; eauto.
Qed.

(** C13: On one machine, without other writers of the table or of the sidecar: after any number of
    resumed runs that succeeded or failed at files, guards, the writer or the compaction, a run that
    succeeds leaves the rows of all input files in the table exactly once beside what was there,
    whatever the order in which the workers finish, and its report accounts for every unit and row.
    This holds if the first run found no sidecar, the sidecar can be read whenever it exists
    ([commit_without_sidecar] otherwise), every run resumes with the same chunk size, no commit or
    sidecar write failed before, paths are distinct, files do not change and have the schema of the
    table (or it has none), and the table is compacted, if at all, only when that keeps its rows. *)
Theorem ingest_exactly_once planned emb wr finish options (st0 st st' : S) (t0 t t' : T) rep :
  (∀ (st : S) x, os_objs st ingest_state_path = Some x → os_get st ingest_state_path = Ok x) →
  NoDup paths → plan_ingest parquet_file paths chunk = Ok planned →
  (∀ p b, p ∈ paths → file_batch parquet_file stream_file p = Some b → table_schema = [] ∨ b_schema b = table_schema) →
  load_ingest_state st0 = ∅ → rtc clean_run (st0, t0) (st, t) →
  (∀ l, finish l ≡ₚ l) → resume options = true → chunk_rows options = chunk →
  compacts_safely options (units_run emb wr finish planned options st t) →
  run emb wr finish options st t = (st', t', Ok rep) →
  it_rows t' ≡ₚ it_rows t0 ++ (paths ≫= file_rows parquet_file stream_file)
  ∧ units_committed rep + units_skipped rep = units_total rep
  ∧ length (it_rows t') = length (it_rows t) + rows_ingested rep.
Proof.
  intros Hread Hnp Hplan Hschema Hload Hruns Hf Hres Hchunk Hsafe Hrun.
  destruct (plan_covers_input _ stream_file _ _ _ Hplan) as (Hcover & Hunits & Hnd). specialize (Hnd Hnp).
  assert (in_step unit_batch planned (it_rows t0) st t) as Hin.
  { assert (in_step unit_batch planned (it_rows t0) st0 t0) as H0.
    { unfold in_step, holds_recorded. rewrite Hload, recorded_none. cbn. by rewrite app_nil_r. }
    exact (clean_runs_in_step planned _ _ _ Hread Hnd Hplan Hruns H0). }
  rewrite <- Hchunk in Hplan.
  destruct (ingest_step planned _ emb wr finish options st st' t t' (Ok rep) Hread Hnd Hplan Hf Hres Hin Hsafe Hrun) as [Hin' Hok]; [done..|].
  destruct (Hok rep eq_refl) as (Hall & Hn1 & Hn2). split_and!; [|done|done].
  unfold in_step, holds_recorded in Hin'. rewrite Hall in Hin'. rewrite Hin'. apply Permutation_app_head. rewrite <- Hcover.
  apply Permutation_refl', Forall_bind_ext. eapply Forall_impl; [exact Hunits|]. intros u [Hp _]. apply raw_rows_batch.
  intros b (b0 & Hb0 & ->)%read_range_schema. by eapply Hschema.
Qed.
End Histories.

(** ** Several machines *)

Section Coordinated.
Context {S V T : Type} `{!ObjectStore S V, !Codec LockPayload, !IngestTable T}.
Context (build : WorkUnit → result ierr Batch) (co : ObjectStoreCoordinator).

(** What other machines do in one round of the loop: to the store during the claims, and while the
    leases are completed or dropped, and to the table before each commit of this machine. *)
Record Round := { rd_attempts : nat → nat → attempt (S:=S); rd_env : nat → nat → S → S; rd_table : nat → T → T }.

Fixpoint release_all (env : nat → nat → S → S) (i : nat) (leases : list Lease) (st : S) : S :=
  match leases with [] => st | l :: leases => release_all env (Datatypes.S i) leases (release (env i) l st) end.
(** Claim up to [k] units; an error drops the leases. *)
Fixpoint claim_round (rd : Round) (k i : nat) (done : gset string) (acc : list Lease) (st : S) : S * result ierr (list Lease) :=
  match k with
  | O => (st, Ok acc)
  | Datatypes.S k =>
      match claim co (rd_attempts rd i) done st with
      | (st, Err e) => (release_all (rd_env rd) 0 acc st, Err (ClaimFailed e))
      | (st, Ok None) => (st, Ok acc)
      | (st, Ok (Some l)) => claim_round rd k (Datatypes.S i) done (acc ++ [l]) st
      end
  end.
(** Commit the builds one after the other. *)
Fixpoint commit_leases (rd : Round) (i : nat) (leases : list Lease) (done : gset string) (report : IngestReport)
    (st : S) (t : T) : S * T * result ierr (gset string * IngestReport) :=
  match leases with
  | [] => (st, t, Ok (done, report))
  | l :: rest =>
      match build (le_unit l) with
      | Err e => (release_all (rd_env rd) i (l :: rest) st, t, Err e)
      | Ok b =>
          match it_commit b (rd_table rd i t) with
          | (t, None) => (release_all (rd_env rd) i (l :: rest) st, t, Err CommitRefused)
          | (t, Some path) =>
              match complete (rd_env rd i) l st with
              | (st, Err e) => (release_all (rd_env rd) (Datatypes.S i) rest st, t, Err (CompleteFailed e))
              | (st, Ok _) =>
                  commit_leases rd (Datatypes.S i) rest ({[ unit_key (le_unit l) ]} ∪ done)
                    (count_unit report (length (b_rows b)) path) st t
              end
          end
      end
  end.
(** The loop; a round that claims something completes a unit, so that one round more than there are
    units is enough fuel. *)
Fixpoint ingest_loop (fuel : nat) (rounds : nat → Round) (n : nat) (parallelism : nat) (done : gset string)
    (report : IngestReport) (st : S) (t : T) : S * T * result ierr IngestReport :=
  match fuel with
  | O => (st, t, Err OutOfFuel)
  | Datatypes.S fuel =>
      match claim_round (rounds n) (Nat.max parallelism 1) 0 done [] st with
      | (st, Err e) => (st, t, Err e)
      | (st, Ok []) =>
          (st, t, Ok {| units_total := units_total report; units_skipped := units_total report - units_committed report;
                        units_committed := units_committed report; rows_ingested := rows_ingested report;
                        segments := segments report |})
      | (st, Ok leases) =>
          match commit_leases (rounds n) 0 leases done report st t with
          | (st, t, Err e) => (st, t, Err e)
          | (st, t, Ok (done, report)) => ingest_loop fuel rounds (Datatypes.S n) parallelism done report st t
          end
      end
  end.
Definition start_report : IngestReport :=
  {| units_total := total_units co; units_skipped := 0; units_committed := 0; rows_ingested := 0; segments := [] |}.
(** The markers are read once, before the loop. *)
Definition ingest_coordinated_units (env : nat → S → S) (rounds : nat → Round) (options : IngestOptions) (st : S) (t : T)
  : S * T * result ierr IngestReport :=
  match completed env st with
  | (st, Err e) => (st, t, Err (ClaimFailed e))
  | (st, Ok done) => ingest_loop (Datatypes.S (total_units co)) rounds 0 (parallelism options) done start_report st t
  end.
Definition ingest_coordinated (env : nat → S → S) (rounds : nat → Round) (options : IngestOptions) (st : S) (t : T)
  : S * T * result ierr IngestReport := then_compact options (ingest_coordinated_units env rounds options st t).
End Coordinated.

(** *** One machine among several *)

Section Machine.
Context {S V T : Type} `{!ObjectStore S V, !ObjectStoreLaws S V, !Codec LockPayload, !IngestTable T}.
Context (build : WorkUnit → result ierr Batch) (content : WorkUnit → Batch) (co : ObjectStoreCoordinator).
Context (Hb : ∀ u b, build u = Ok b → b = content u) (Hfuel : ∀ u, build u ≠ Err OutOfFuel).
Notation rows_of_units us := (us ≫= (fun u => b_rows (content u))).

Definition claimable (done : gset string) (u : WorkUnit) : Prop := u ∈ co_units co ∧ unit_key u ∉ done.

Lemma claim_round_elem (rd : Round (S:=S) (T:=T)) k i done acc (st st' : S) leases :
  claim_round co rd k i done acc st = (st', Ok leases) → Forall (claimable done ∘ le_unit) acc →
  Forall (claimable done ∘ le_unit) leases ∧ length acc ≤ length leases.
Proof.
  revert i acc st. induction k as [|k IH]; intros i acc st; cbn [claim_round]; [by intros [= <- <-]|].
  destruct (claim co _ done st) as [s1 [[l|]|e]] eqn:Hc; [| |done].
  - intros Hr Hacc. destruct (IH _ _ _ Hr) as [H1 H2].
    + apply Forall_app. split; [done|]. apply Forall_singleton. by eapply claim_units_elem.
    + split; [done|]. rewrite length_app in H2. cbn in H2. lia.
  - by intros [= <- <-].
Qed.
Lemma claim_round_none (rd : Round (S:=S) (T:=T)) k done (st st' : S) :
  claim_round co rd (Datatypes.S k) 0 done [] st = (st', Ok []) →
  ∀ u, u ∈ co_units co → unit_key u ∈ done ∨ ∃ j, refused co (rd_attempts rd j) u.
Proof.
  cbn [claim_round]. destruct (claim co _ done st) as [s1 [[l|]|e]] eqn:Hc; [| |done].
  - intros Hr. assert (claimable done (le_unit l)) as Hl by (by eapply claim_units_elem).
    apply claim_round_elem in Hr as [_ Hr]; [cbn in Hr; lia|]. by apply Forall_singleton.
  - intros _ u Hu. destruct (claim_units_none _ _ _ _ _ _ _ Hc u Hu); [by left|right; by exists 0].
Qed.
Lemma claim_round_error (rd : Round (S:=S) (T:=T)) k i done acc (st st' : S) e :
  claim_round co rd k i done acc st = (st', Err e) → e ≠ OutOfFuel.
Proof.
  revert i acc st. induction k as [|k IH]; intros i acc st; cbn [claim_round]; [done|].
  destruct (claim co _ done st) as [s1 [[l|]|e']]; [apply IH|done|by intros [= <- <-]].
Qed.

(** The rows that other machines add to the table before commit [i] of round [m]. *)
Context (others : nat → nat → list IngestRow).
Definition others_append (rounds : nat → Round (S:=S) (T:=T)) : Prop :=
  ∀ m i (t : T), it_rows (rd_table (rounds m) i t) ≡ₚ it_rows t ++ others m i.

Lemma commit_leases_rows (rounds : nat → Round (S:=S) (T:=T)) m i leases done report (st st' : S) (t t' : T) r :
  others_append rounds → commit_leases build (rounds m) i leases done report st t = (st', t', r) →
  let us := le_unit <$> leases in
  r ≠ Err OutOfFuel ∧
  ∀ done' rep, r = Ok (done', rep) →
    it_rows t' ≡ₚ it_rows t ++ rows_of_units us ++ (seq i (length leases) ≫= others m) ∧ done' = list_to_set (unit_key <$> us) ∪ done
    ∧ units_total rep = units_total report ∧ units_committed rep = units_committed report + length us
    ∧ rows_ingested rep = rows_ingested report + length (rows_of_units us).
Proof.
  intros Hothers. revert i done report st t. induction leases as [|l leases IH]; intros i done report st t; cbn [commit_leases].
  { intros [= <- <- <-]. split; [done|]. intros done' rep [= <- <-]. cbn.
    split_and!; [by rewrite app_nil_r|by rewrite (left_id_L ∅ (∪))|done|lia|lia]. }
  destruct (build (le_unit l)) as [b|e] eqn:Hbu.
  2: { intros [= <- <- <-]. split; [|done]. intros [= ->]. by destruct (Hfuel (le_unit l)). }
  apply Hb in Hbu as ->. destruct (it_commit _ _) as [t1 [path|]] eqn:Hc; [|by intros [= <- <- <-]].
  apply it_commit_ok in Hc. destruct (complete _ l st) as [st1 [[]|e]]; [|by intros [= <- <- <-]].
  intros Hr. destruct (IH _ _ _ _ _ Hr) as [Hne Hok]. split; [done|]. intros done' rep Hrep.
  destruct (Hok done' rep Hrep) as (Hrw & -> & Ht & Hn1 & Hn2). cbn [count_unit units_total units_committed rows_ingested] in Ht, Hn1, Hn2.
  rewrite fmap_cons, bind_cons, length_app. split_and!;
    [|by rewrite fmap_cons, list_to_set_cons, (assoc_L (∪)), (comm_L (∪) {[ _ ]})|done|cbn; lia|lia].
  cbn [length seq]. rewrite bind_cons, Hrw, Hc, (Hothers m i t). solve_Permutation.
Qed.

(** The leases of a round stay with this machine while it claims others: they do not expire by its
    clocks, and other machines keep them. *)
Definition round_live (rd : Round (S:=S) (T:=T)) (p : LockPayload) : Prop :=
  ∀ i j, lease_expired (co_clock_skew_ms co) p (Lock.now_millis (at_clock (rd_attempts rd i j))) = false.
Record leases_kept (rd : Round (S:=S) (T:=T)) : Prop := {
  lk_update u : u ∈ co_units co → supports_update (lease_path u);
  lk_interferes i : attempts_interfere (rd_attempts rd i);
  lk_keeps u i j n s : u ∈ co_units co → guarded (round_live rd) (lease_path u) s →
    guarded (round_live rd) (lease_path u) (at_env (rd_attempts rd i j) n s);
  lk_ttl u i j : u ∈ co_units co →
    round_live rd (new_payload (lease_lock co u (at_owner (rd_attempts rd i j))) (now_secs (at_clock (rd_attempts rd i j))))
}.

Lemma claim_round_distinct (rd : Round (S:=S) (T:=T)) k i done acc (st st' : S) leases :
  leases_kept rd → claim_round co rd k i done acc st = (st', Ok leases) →
  NoDup (lease_path ∘ le_unit <$> acc) →
  Forall (fun l => le_unit l ∈ co_units co ∧ guarded (round_live rd) (lease_path (le_unit l)) st) acc →
  NoDup (lease_path ∘ le_unit <$> leases).
Proof.
  intros Hk. revert i acc st. induction k as [|k IH]; intros i acc st; cbn [claim_round]; [by intros [= <- <-]|].
  destruct (claim co _ done st) as [s1 [[l|]|e]] eqn:Hc; [|by intros [= <- <-]|done].
  intros Hr Hnd Hacc. destruct (claim_units_takes _ _ _ _ _ _ _ _ (lk_interferes _ Hk i) (lk_update _ Hk) Hc)
    as (Hu & _ & j & before & _ & Hl & _).
  assert (Forall (fun l' => le_unit l' ∈ co_units co ∧ guarded (round_live rd) (lease_path (le_unit l')) s1
    ∧ lease_path (le_unit l) ≠ lease_path (le_unit l')) acc) as Hacc1.
  { eapply Forall_impl; [exact Hacc|]. intros l' [Hu' Hg]. split; [done|].
    destruct (claim_units_guarded (round_live rd) co (rd_attempts rd i) 0 (co_units co) done st s1 (Ok (Some l)) (lease_path (le_unit l')))
      as [Hg' Hne]; [by intros p Hp; apply Hp|by intros; apply (lk_keeps _ Hk)|done|exact Hc|]. split; [done|by apply Hne]. }
  apply (IH _ _ _ Hr).
  - rewrite fmap_app. apply NoDup_app. split_and!; [done| |apply NoDup_singleton].
    intros x (l' & -> & Hl')%list_elem_of_fmap Hx%list_elem_of_singleton. rewrite Forall_forall in Hacc1.
    destruct (Hacc1 l' Hl') as (_ & _ & Hne). by apply Hne.
  - apply Forall_app. split; [eapply Forall_impl; [exact Hacc1|]; by intros l' (? & ? & _)|]. apply Forall_singleton. split; [done|].
    eexists. split; [exact Hl|]. by apply (lk_ttl _ Hk).
Qed.

Definition undone (done : gset string) : nat := length (filter (fun u => unit_key u ∉ done) (co_units co)).
Lemma undone_less done done' u :
  claimable done u → unit_key u ∈ done' → done ⊆ done' → undone done' < undone done.
Proof.
  intros [Hu Hk] Hk' Hsub. unfold undone.
  assert (filter (fun u => unit_key u ∉ done') (co_units co) = filter (fun u => unit_key u ∉ done') (filter (fun u => unit_key u ∉ done) (co_units co))) as ->.
  { rewrite list_filter_filter. apply list_filter_iff. intros x. set_solver. }
  apply (length_filter_lt _ _ u); [by apply list_elem_of_filter|]. by intros ?.
Qed.

#[local] Instance unit_key_injective : Inj (=) (=) unit_key.
Proof. exact unit_key_inj. Qed.
Lemma bind_fmap_pair (n : nat) (l : list nat) :
  ((fun i => (n, i)) <$> l) ≫= (fun s => others s.1 s.2) = l ≫= others n.
Proof. induction l as [|i l IH]; [done|]. cbn. by f_equal. Qed.

(** The commits of the rounds from [n] on: [m], [i] is commit [i] of round [m]. *)
Lemma ingest_loop_commits fuel (rounds : nat → Round (S:=S) (T:=T)) n parallelism done report (st st' : S) (t t' : T) r :
  others_append rounds → undone done < fuel →
  ingest_loop build co fuel rounds n parallelism done report st t = (st', t', r) →
  r ≠ Err OutOfFuel ∧
  ∀ rep, r = Ok rep → ∃ us steps,
    Forall (claimable done) us ∧ length steps = length us ∧ NoDup steps ∧ Forall (fun s => n ≤ s.1) steps
    ∧ it_rows t' ≡ₚ it_rows t ++ rows_of_units us ++ (steps ≫= fun s => others s.1 s.2)
    ∧ ((∀ m, leases_kept (rounds m)) → NoDup (unit_key <$> us))
    ∧ units_total rep = units_total report ∧ units_committed rep = units_committed report + length us
    ∧ rows_ingested rep = rows_ingested report + length (rows_of_units us)
    ∧ units_skipped rep = units_total rep - units_committed rep
    ∧ ∀ u, u ∈ co_units co → unit_key u ∈ done ∨ u ∈ us ∨ ∃ m j, refused co (rd_attempts (rounds m) j) u.
Proof.
  intros Hothers. revert n done report st t. induction fuel as [|fuel IH]; intros n done report st t Hlt; [lia|]. cbn [ingest_loop].
  destruct (Nat.max parallelism 1) as [|k] eqn:Hk; [lia|].
  destruct (claim_round co (rounds n) (Datatypes.S k) 0 done [] st) as [st1 [leases|e]] eqn:Hc.
  2: { intros [= <- <- <-]. split; [|done]. apply claim_round_error in Hc. congruence. }
  destruct leases as [|l leases].
  { intros [= <- <- <-]. split; [done|]. intros rep [= <-]. exists [], []. cbn.
    split_and!; [constructor|done|constructor|constructor|by rewrite app_nil_r|constructor|done|lia|lia|done|].
    intros u Hu. destruct (claim_round_none _ _ _ _ _ Hc u Hu) as [?|[j ?]]; [by left|right; right; by exists n, j]. }
  destruct (claim_round_elem _ _ _ _ _ _ _ _ Hc) as [Hel _]; [constructor|].
  pose proof (fun Hq => claim_round_distinct _ _ _ _ _ _ _ _ Hq Hc (NoDup_nil_2) (Forall_nil_2 _)) as Hdist.
  destruct (commit_leases build (rounds n) 0 (l :: leases) done report st1 t) as [[st2 t2] r2] eqn:Hcl.
  destruct (commit_leases_rows rounds n _ _ _ _ _ _ _ _ _ Hothers Hcl) as [Hne2 Hok2].
  destruct r2 as [[done2 rep2]|e]; [|intros [= <- <- <-]; split; [congruence|done]].
  destruct (Hok2 done2 rep2 eq_refl) as (Hrw & Hd & Ht & Hn1 & Hn2).
  rewrite list_fmap_compose in Hdist. set (us := le_unit <$> l :: leases) in *. intros Hr.
  assert (length us = length (l :: leases)) as Hlen by (unfold us; by rewrite length_fmap).
  assert (undone done2 < undone done) as Hless.
  { apply Forall_cons in Hel as [Hel _]. apply (undone_less done done2 (le_unit l) Hel); subst done2; [|set_solver].
    apply elem_of_union_l, elem_of_list_to_set, list_elem_of_fmap_2. unfold us. rewrite fmap_cons. left. }
  destruct (IH (Datatypes.S n) done2 rep2 st2 t2) as [Hne Hok]; [lia|exact Hr|]. split; [done|]. intros rep Hrep.
  destruct (Hok rep Hrep) as (us' & steps' & Hcl' & Hls & Hnds & Hge & Hrw' & Hnd' & Ht' & Hn1' & Hn2' & Hsk & Hcov).
  exists (us ++ us'), (((fun i => (n, i)) <$> seq 0 (length (l :: leases))) ++ steps'). split_and!.
  - apply Forall_app. split; [by apply Forall_fmap|]. eapply Forall_impl; [exact Hcl'|]. intros u [H1 H2]. split; [done|]. set_solver.
  - by rewrite !length_app, length_fmap, length_seq, Hls, Hlen.
  - apply NoDup_app. split_and!; [apply NoDup_fmap_2; [by intros ?? [=]|apply NoDup_seq]| |done].
    intros x (i & -> & _)%list_elem_of_fmap Hx. rewrite Forall_forall in Hge. specialize (Hge _ Hx). cbn in Hge. lia.
  - apply Forall_app. split; [apply Forall_fmap, Forall_forall; cbn; lia|]. eapply Forall_impl; [exact Hge|]. cbn. intros x Hx. lia.
  - rewrite Hrw', Hrw, !bind_app, (bind_fmap_pair n). solve_Permutation.
  - intros Hq. rewrite fmap_app. apply NoDup_app. split_and!; [|subst done2|by apply Hnd'].
    + by eapply (NoDup_fmap_2 unit_key), (NoDup_fmap_1 lease_path), Hdist.
    + intros key Hin (u & -> & Hu)%list_elem_of_fmap. rewrite Forall_forall in Hcl'. destruct (Hcl' u Hu) as [_ Hno]. set_solver.
  - congruence.
  - rewrite length_app. lia.
  - rewrite bind_app, length_app. lia.
  - done.
  - intros u Hu. destruct (Hcov u Hu) as [Hin|[Hin|Hin]]; [|right; left; set_solver|by right; right].
    subst done2. apply elem_of_union in Hin as [Hin|Hin]; [|by left]. right. left. apply elem_of_app. left.
    apply elem_of_list_to_set, list_elem_of_fmap in Hin as (u' & Hk'%unit_key_inj & Hu'). by subst u'.
Qed.
End Machine.

Section Covers.
Context {S V T : Type} `{!ObjectStore S V, !ObjectStoreLaws S V, !Codec LockPayload, !IngestTable T}.
Context (parquet_file : string → option Batch) (stream_file : IngestFormat → string → option Batch).
Context (table_schema : list IngestField) (embedding_ok write_ok : Batch → bool).
Notation unit_rows := (fun u => b_rows (unit_batch parquet_file stream_file table_schema u)).
Notation build := (build_unit parquet_file stream_file table_schema embedding_ok write_ok).

Lemma build_unit_error u : build u ≠ Err OutOfFuel.
Proof.
  unfold build_unit, read_range, read_parquet_range, build_ingest_segment.
  destruct (from_path _) as [[]|]; cbn [mbind result_bind]; [| | | |done].
  1: destruct (parquet_file _); [|done].
  2-4: destruct (stream_file _ _); [|done].
  all: cbn [mbind result_bind]; by repeat case_match.
Qed.

(** C30: Suppose other machines, whatever they do to the store, only add rows to the table, some before
    each commit of this machine, and the table is compacted, if at all, only when that keeps its rows.
    Then a machine of a coordinated ingest ends after at most one round more than there are units.  If
    it succeeds, it has committed units of the queue that were not marked as completed when it started,
    the table has gained the rows of these units and those that the other
    machines added, and every other unit was marked or its lease was refused to the machine.  It has
    committed no unit twice, if leases are updated conditionally and those of a round outlast its
    claims and are kept by the other machines.  (Two machines can still commit the same unit:
    [two_machines_ingest_twice].) *)
Theorem coordinated_ingest_covers co env rounds options (others : nat → nat → list IngestRow) (st st' : S) (t t' : T) r :
  others_append others rounds →
  compacts_safely options (ingest_coordinated_units build co env rounds options st t) →
  ingest_coordinated build co env rounds options st t = (st', t', r) →
  r ≠ Err OutOfFuel ∧
  ∀ rep, r = Ok rep → ∃ st1 done us steps,
    completed env st = (st1, Ok done) ∧ Forall (claimable co done) us
    ∧ it_rows t' ≡ₚ it_rows t ++ (us ≫= unit_rows) ++ (steps ≫= fun s => others s.1 s.2)
    ∧ length steps = length us ∧ NoDup steps
    ∧ ((∀ m, leases_kept co (rounds m)) → NoDup (unit_key <$> us))
    ∧ units_total rep = total_units co ∧ units_committed rep = length us
    ∧ rows_ingested rep = length (us ≫= unit_rows) ∧ units_skipped rep = total_units co - length us
    ∧ ∀ u, u ∈ co_units co → unit_key u ∈ done ∨ u ∈ us ∨ ∃ m j, refused co (rd_attempts (rounds m) j) u.
Proof.
  intros Hothers Hsafe. unfold ingest_coordinated, ingest_coordinated_units in *.
  destruct (completed env st) as [st1 [done|e]]; [|by intros [= <- <- <-]].
  destruct (ingest_loop _ _ _ _ _ _ _ _ st1 t) as [[st2 t2] r2] eqn:Hl.
  apply (ingest_loop_commits build (unit_batch parquet_file stream_file table_schema) co (build_unit_batch _ _ _ _ _) build_unit_error
    others) in Hl as [Hne Hok]; [|done|apply le_n_S, length_filter].
  unfold then_compact. destruct r2 as [rep2|e2]; [|intros [= <- <- <-]; done].
  destruct (Hok rep2 eq_refl) as (us & steps & H1 & H2 & H3 & _ & Hrows & Hnd & H4 & H5 & H6 & H7 & H8). cbn in H4, H5, H6.
  assert (∃ t3 b, it_rows t3 ≡ₚ it_rows t2 ∧ (if compact_after options
    then match it_compact t2 with (t, true) => (st2, t, Ok rep2) | (t, false) => (st2, t, Err CompactFailed) end
    else (st2, t2, Ok rep2)) = (st2, t3, if b : bool then Ok rep2 else Err CompactFailed)) as (t3 & b & Hc & ->).
  { unfold compacts_safely in Hsafe. destruct (compact_after options); [|by exists t2, true].
    specialize (it_compact_rows t2 (Hsafe eq_refl)) as Hr. destruct (it_compact t2) as [t3 b]. exists t3, b. by destruct b. }
  intros [= <- <- <-]. split; [by destruct b|]. intros rep Hrep. destruct b; [|done]. injection Hrep as <-.
  exists st1, done, us, steps. rewrite Hc. split_and!; try done. by rewrite H7, H4, H5.
Qed.
End Covers.

(** ** The table of this database *)

(** A table without pending deletes, whose next file names are new. *)
Section Stored.
Context (uuid : nat → string) `{!Inj (=) (=) uuid} (written : list IngestRow → WriterOutput).

Record table_ok (w : World IngestRow) (n : nat) (s : Snapshot) : Prop := {
  to_keyed : keyed (sn_entries s);
  to_deletes : sn_deletes s = [];
  to_new k : n ≤ k → sn_entries s !! new_data uuid k = None
}.
Record IngestStored := { is_world : World IngestRow; is_next : nat; is_snapshot : Snapshot; is_ok : table_ok is_world is_next is_snapshot }.

(** [commit] with [skip_missing_remove_paths]. *)
Definition ingest_metadata : CommitMetadata :=
  {| updated_schemas := None; updated_schema_id := None; updated_partition_specs := None; updated_default_spec_id := None;
     updated_properties := None; removed_properties := None; updated_sort_orders := None; updated_default_sort_order_id := None;
     updated_last_column_id := None; md_format_version := None; is_fast_append := is_fast_append CommitMetadata_default;
     require_remove_paths_exist := false; skip_missing_remove_paths := true; discard_add_on_missing_remove := false |}.
Definition segment_world (n : nat) (b : Batch) (w : World IngestRow) : World IngestRow :=
  {| w_data := <[new_data uuid n := b_rows b]> (w_data w); w_dels := w_dels w |}.
Definition segment_snapshot (n : nat) (b : Batch) (s : Snapshot) : Snapshot :=
  default s (commit_snapshot ingest_metadata [new_entry uuid written n (b_rows b)] [] s).

Lemma new_data_inj k k' : new_data uuid k = new_data uuid k' → k = k'.
Proof. unfold new_data. intros Heq. apply (inj uuid). cbn in Heq. injection Heq as Heq. by apply (app_suffix_inj _ _ parquet_suffix). Qed.
Lemma segment_entries n b w s :
  table_ok w n s →
  let e := new_entry uuid written n (b_rows b) in
  segment_snapshot n b s = {| sn_entries := <[new_data uuid n := e]> (sn_entries s); sn_deletes := [] |}.
Proof.
  intros [Hk Hd Hn] e. unfold segment_snapshot, commit_snapshot. cbn. unfold add_entry. rewrite Hd. cbn. f_equal.
  by rewrite (Hn n) by lia.
Qed.
Lemma segment_ok n b w s : table_ok w n s → table_ok (segment_world n b w) (S n) (segment_snapshot n b s).
Proof.
  intros Hok. rewrite (segment_entries n b w s Hok). destruct Hok as [Hk Hd Hn]. split; cbn [sn_entries sn_deletes].
  - by apply (keyed_insert _ (new_entry uuid written n (b_rows b))).
  - done.
  - intros k Hlt. rewrite lookup_insert_ne; [apply Hn; lia|]. intros Heq%new_data_inj. lia.
Qed.
Lemma segment_rows_added n b w s :
  table_ok w n s → table_rows (segment_world n b w) (segment_snapshot n b s) ≡ₚ table_rows w s ++ b_rows b.
Proof.
  intros Hok. rewrite (segment_entries n b w s Hok). destruct Hok as [Hk Hd Hn].
  rewrite !table_rows_values, Hd. cbn [sn_entries sn_deletes]. set (e := new_entry uuid written n (b_rows b)).
  rewrite map_to_list_insert by (apply Hn; lia). rewrite fmap_cons. cbn [snd].
  rewrite bind_cons, (Permutation_app_comm (rows_under _ _ e)). apply Permutation_app.
  - apply Permutation_refl', Forall_bind_ext, Forall_forall. intros e' He'. rewrite !rows_under_nil. cbn.
    rewrite lookup_insert_ne; [done|]. intros Heq. pose proof (keyed_lookup _ _ Hk He') as Hl. rewrite <- Heq, Hn in Hl by lia. done.
  - rewrite rows_under_nil. cbn. by rewrite lookup_insert_eq.
Qed.

(** [rewrite_data_files], and the tables of which it keeps the rows; [Compaction] gives conditions for
    that, and tables whose rows it changes. *)
Context (rewrite_data_files : IngestStored → IngestStored * bool) (compactable : IngestStored → Prop).
Context (Hrewrite : ∀ t, compactable t → table_rows (is_world (rewrite_data_files t).1) (is_snapshot (rewrite_data_files t).1)
                         ≡ₚ table_rows (is_world t) (is_snapshot t)).
#[export] Program Instance ingest_stored : IngestTable IngestStored := {|
  it_rows t := table_rows (is_world t) (is_snapshot t);
  it_commit b t :=
    ({| is_world := segment_world (is_next t) b (is_world t); is_next := S (is_next t);
        is_snapshot := segment_snapshot (is_next t) b (is_snapshot t); is_ok := segment_ok _ _ _ _ (is_ok t) |},
     Some (new_data uuid (is_next t)));
  it_compact := rewrite_data_files; can_compact := compactable
|}.
Next Obligation. intros b t t' p [= <- _]. apply segment_rows_added, is_ok. Qed.
Next Obligation. done. Qed.
Next Obligation. exact Hrewrite. Qed.
End Stored.

(** ** Small ingests *)

Module IngestExamples.
Import MemStore LockExamples CoordinatorExamples.
#[export] Instance keys_codec : Codec (list string) := countable_codec.
(** Rows kept in a list. *)
#[export] Program Instance list_ingest : IngestTable (list IngestRow) := {|
  it_rows t := t; it_commit b t := (t ++ b_rows b, Some "seg.parquet"); it_compact t := (t, true);
  can_compact _ := True
|}.
Next Obligation. by intros b t t' p [= <- _]. Qed.
Next Obligation. done. Qed.
Next Obligation. done. Qed.

Definition row (z : Z) : IngestRow := {[ "id" := CInt z ]}.
Definition id_schema : list IngestField := [{| fd_name := "id"; fd_type := "Int64"; fd_nullable := false |}].
Definition batch (zs : list Z) : Batch := {| b_schema := id_schema; b_rows := row <$> zs |}.
Definition parquet (p : string) : option Batch := if decide (p = "a.parquet") then Some (batch [1; 2; 3]%Z) else None.
Definition streamed (f : IngestFormat) (p : string) : option Batch := if decide (p = "B.CSV") then Some (batch [4; 5]%Z) else None.
Definition inputs : list string := ["a.parquet"; "B.CSV"].
Definition part (p : string) (s e : nat) : WorkUnit := {| wu_path := p; wu_start := s; wu_end := e |}.

Lemma plan_covers_input_witness :
  [part "a.parquet" 0 2; part "a.parquet" 2 3; part "B.CSV" 0 0] ≫= raw_rows parquet streamed = row <$> [1; 2; 3; 4; 5]%Z.
Proof.
  refine (proj1 (plan_covers_input parquet streamed inputs 2 [part "a.parquet" 0 2; part "a.parquet" 2 3; part "B.CSV" 0 0] _)).
  vm_compute. reflexivity.
Defined.

Definition options2 : IngestOptions :=
  {| chunk_rows := 2; parallelism := 1; index_all := false; resume := true; compact_after := false; memory_budget_bytes := None |}.
Definition any (b : Batch) : bool := true.
(** A writer that fails on single rows. *)
Definition not_single (b : Batch) : bool := negb (Nat.eqb (length (b_rows b)) 1).
Definition run (wr : Batch → bool) (st : store) (t : list IngestRow) : store * list IngestRow * result ierr IngestReport :=
  ingest parquet (build_unit parquet streamed id_schema any wr) id inputs options2 st t.

Definition first_run := run not_single ∅ [row 9].
Definition second_run := run any first_run.1.1 first_run.1.2.
Example runs_resume :
  first_run.2 = Err WriteFailed ∧ first_run.1.2 = row <$> [9; 1; 2]%Z
  ∧ second_run.1.2 = row <$> [9; 1; 2; 3; 4; 5]%Z
  ∧ second_run.2 = Ok {| units_total := 3; units_skipped := 1; units_committed := 2; rows_ingested := 3;
                         segments := ["seg.parquet"; "seg.parquet"] |}.
Proof. split_and!; vm_compute; reflexivity. Qed.

Lemma mem_reads (st : store) x : os_objs st ingest_state_path = Some x → os_get st ingest_state_path = Ok x.
Proof. apply mem_readable. Qed.
Lemma list_compacts_safely options (r : store * list IngestRow * result ierr IngestReport) : compacts_safely options r.
Proof. by destruct r as [[? ?] []]. Qed.
Lemma first_clean : clean_run parquet streamed id_schema inputs 2 (∅ : store, [row 9]) first_run.1.
Proof.
  exists any, not_single, id, options2, (Err WriteFailed). split; [done|]. split; [done|]. split; [done|].
  split; [intros planned _; apply list_compacts_safely|]. split; [|done].
  change (ingest parquet _ id inputs options2 (∅ : store, [row 9]).1 (∅ : store, [row 9]).2) with first_run.
  assert (first_run.2 = Err WriteFailed) as Hr by (vm_compute; reflexivity). rewrite <- Hr. by destruct first_run as [[]].
Qed.
Definition second_report : IngestReport :=
  {| units_total := 3; units_skipped := 1; units_committed := 2; rows_ingested := 3; segments := ["seg.parquet"; "seg.parquet"] |}.
Lemma second_run_ok : second_run = (second_run.1.1, row <$> [9; 1; 2; 3; 4; 5]%Z, Ok second_report).
Proof. destruct runs_resume as (_ & _ & Ht & Hr). rewrite <- Ht. unfold second_report. rewrite <- Hr. by destruct second_run as [[]]. Qed.
Lemma ingest_exactly_once_witness :
  second_run = (second_run.1.1, row <$> [9; 1; 2; 3; 4; 5]%Z, Ok second_report)
  ∧ (row <$> [9; 1; 2; 3; 4; 5]%Z) ≡ₚ [row 9] ++ (row <$> [1; 2; 3; 4; 5]%Z).
Proof.
  split; [exact second_run_ok|].
  refine (proj1 (ingest_exactly_once parquet streamed id_schema inputs 2 [part "a.parquet" 0 2; part "a.parquet" 2 3; part "B.CSV" 0 0]
    any any id options2 (∅ : store) first_run.1.1 second_run.1.1 [row 9] first_run.1.2 (row <$> [9; 1; 2; 3; 4; 5]%Z) second_report
    mem_reads _ _ _ _ _ (fun l => reflexivity l) eq_refl eq_refl _ second_run_ok)).
  - apply (bool_decide_unpack _). vm_compute. reflexivity.
  - vm_compute. reflexivity.
  - intros p b _ Hb. right. revert Hb. unfold file_batch, parquet, streamed. repeat case_match; intros; by simplify_eq/=.
  - vm_compute. reflexivity.
  - rewrite <- surjective_pairing. apply rtc_once, first_clean.
  - apply list_compacts_safely.
Defined.

(** ** Where units are lost or ingested twice *)

(** A machine that dies after a commit and before the sidecar is written: the next run commits the unit
    again; so does a sidecar that cannot be parsed. *)
Example commit_without_sidecar :
  (run any ∅ (row <$> [1; 2]%Z)).1.2 = row <$> [1; 2; 1; 2; 3; 4; 5]%Z
  ∧ (run any {[ ingest_state_path := [Byte.x00; Byte.x00] ]} second_run.1.2).1.2 = row <$> [9; 1; 2; 3; 4; 5; 1; 2; 3; 4; 5]%Z.
Proof. split; vm_compute; reflexivity. Qed.

Definition work_queue : ObjectStoreCoordinator := coordinator_new [part "a.parquet" 0 2; part "a.parquet" 2 3] 30.
Definition machine (o : string) (now : Z) : nat → Round (S:=store) (T:=list IngestRow) :=
  fun _ => {| rd_attempts := fun _ => alone o now; rd_env := fun _ => quiet; rd_table := fun _ => id |}.
Definition build_all : WorkUnit → result ierr Batch := build_unit parquet streamed id_schema any any.
Definition coordinated (o : string) (now : Z) (st : store) (t : list IngestRow) :=
  ingest_coordinated build_all work_queue quiet (machine o now) options2 st t.

Lemma machine_keeps_leases m : leases_kept work_queue (machine "A" 10 m).
Proof.
  split.
  - intros u _. apply mem_supports_update.
  - intros i n. apply quiet_interferes.
  - by intros u i j n s.
  - intros u i j _ i' j'. vm_compute. reflexivity.
Qed.
(** The other machines add row 7 before each commit. *)
Definition busy (m : nat) : Round (S:=store) (T:=list IngestRow) :=
  {| rd_attempts := rd_attempts (machine "A" 10 m); rd_env := rd_env (machine "A" 10 m); rd_table := fun _ t => t ++ [row 7] |}.
Definition busy_run := ingest_coordinated build_all work_queue quiet busy options2 (∅ : store) [].
Lemma coordinated_ingest_covers_witness :
  ∃ us steps, Forall (claimable work_queue ∅) us
    ∧ busy_run.1.2 ≡ₚ (us ≫= fun u => b_rows (unit_batch parquet streamed id_schema u)) ++ (steps ≫= fun _ : nat * nat => [row 7])
    ∧ NoDup (unit_key <$> us) ∧ busy_run.1.2 = row <$> [7; 1; 2; 7; 3]%Z.
Proof.
  destruct (coordinated_ingest_covers parquet streamed id_schema any any work_queue quiet busy options2 (fun _ _ => [row 7]) (∅ : store)
    busy_run.1.1 [] busy_run.1.2 (Ok {| units_total := 2; units_skipped := 0; units_committed := 2;
    rows_ingested := 3; segments := ["seg.parquet"; "seg.parquet"] |})) as [_ Hok].
  - by intros m i t.
  - apply list_compacts_safely.
  - vm_compute. reflexivity.
  - destruct (Hok _ eq_refl) as (st1 & done & us & steps & Hc & Hus & Hrows & _ & _ & Hnd & _). exists us, steps.
    assert (done = ∅) as -> by (revert Hc; vm_compute; by intros [= _ <-]).
    split_and!; [exact Hus|exact Hrows| |vm_compute; reflexivity]. apply Hnd. intros m.
    destruct (machine_keeps_leases m) as [H1 H2 H3 H4]. by split.
Defined.

(** The markers are read once: a machine that started before another one finished claims every unit
    again as soon as its lease is released, and the table holds every row twice. *)
Example two_machines_ingest_twice :
  let a := coordinated "A" 10 ∅ [] in
  (completed quiet (∅ : store)).2 = Ok ∅ ∧ a.1.2 = row <$> [1; 2; 3]%Z
  ∧ (ingest_loop build_all work_queue 3 (machine "B" 10) 0 1 ∅ (start_report work_queue) a.1.1 a.1.2).1.2
    = row <$> [1; 2; 3; 1; 2; 3]%Z
  ∧ (coordinated "B" 10 a.1.1 a.1.2).1.2 = row <$> [1; 2; 3]%Z.
Proof. split_and!; vm_compute; reflexivity. Qed.

(** A machine does not wait for leases: it succeeds although a unit that a dead machine holds is never
    ingested. *)
Definition dead_lease : store := {[ lease_path (part "a.parquet" 0 2) := to_bytes {| owner := "A"; expires_at := 30 |} ]}.
Example unit_of_dead_machine_is_skipped :
  (coordinated "B" 10 dead_lease []).1.2 = [row 3]
  ∧ (coordinated "B" 10 dead_lease []).2 = Ok {| units_total := 2; units_skipped := 1; units_committed := 1; rows_ingested := 1;
                                                segments := ["seg.parquet"] |}.
Proof. split; vm_compute; reflexivity. Qed.
End IngestExamples.
